(* ===== verification/_CoqProject ===== *)
-Q . S2P
Prelude.v
Pool.v
Pools.v
Crc32.v
Block.v
Allocator.v
Policy.v
Lru.v
Index.v
ConcIndex.v
RemoteIndex.v
Sha256.v
Placement.v
Float64.v
SocketAddr.v
Utf8.v
Config.v
Pressure.v
Metadata.v
Cluster.v
Grpc.v
Frames.v
Service.v
Trace.v
Integrity.v
Isolation.v
History.v
EndToEnd.v
Types.v
ConcService.v
ConcSafety.v
Agent.v
System.v
Transport.v
ConcTransport.v
Numa.v
Conformance.v
