(* ===== verification/Prelude.v ===== *)
(** * cmx-rdma: verification library

    cmx-rdma is a per-node daemon that caches KV-cache blocks of language models in pinned
    memory, serves them over gRPC and tells other nodes, through etcd, which blocks it has.
    This library models the Rust crates under src/crates/ and proves what makes them correct.

    ** The program and its model

    Bottom up, with the file of this library and the source it translates:

    - Prelude: outcomes of running code (a value, a panic, undefined behaviour, fuel), the
      state monad [M] in which a panic keeps the state it was reached in, [result], casts and
      wrap-around, byte strings with slicing and copying, little-endian encoding, [Vec] as a
      stack, frames ([preserves]): what a computation never changes, and triples ([hoare]).
    - Pool: [MemoryPool] (cmx-memory/src/pool.rs).  The mapping is a byte list; the free list
      is the stack of the source.  Invariant [pool_wf]; [owns] says that free and held
      indices partition the blocks; [pool_step] is any client.  Pools: a process with any
      number of pools, over an interface for mmap and munmap ([Vm], [VmOk]); the constructor
      and [Drop] of the source, and handles that outlive or leave their pool.
    - Numa: the node mask and node selection of cmx-memory/src/numa.rs, and the registration
      of cmx-memory/src/gpu.rs, with and without their cargo features.
    - Crc32, Sha256: the digests the dependencies compute, as their standards define them;
      the model takes them as parameters, witnesses and tests use these.
    - Block: [BlockHeader] with its repr(C) layout, [BlockLocation]
      (cmx-block-store/src/block.rs).
    - Allocator: [BlockAllocator] (cmx-block-store/src/allocator.rs) over Pool and Block;
      [block_holds] is the content of a block, [al_inv] the invariant under any client.
    - Policy: the interface of an eviction policy, with its specification as a recency list of
      keys; Lru: the slab-based doubly linked list of cmx-block-store/src/eviction.rs, an
      instance of it.
    - Index: [BlockIndex] (cmx-block-store/src/index.rs), over any policy that meets the
      interface; it refines a bounded recency list of entries.
    - ConcIndex: the same methods called by many threads.  A thread is a program point ([pc])
      with its local variables; an [action] is one access to the map or to the LRU list, and
      a schedule interleaves the threads action by action.
    - RemoteIndex: cmx-agent/src/remote_index.rs, refining a flat map from key and node.
    - Placement: the consistent-hash ring of cmx-agent/src/placement.rs.
    - Float64, SocketAddr, Utf8: the parts of the Rust standard library the sources need,
      binary64 comparison and division, the grammar of socket addresses, UTF-8 validation and
      lossy conversion, trimming and the parsing of integers.
    - Config: cmx-agent/src/config.rs; Pressure: the monitor of cmx-agent/src/pressure.rs.
    - Metadata: cmx-agent/src/metadata.rs, against interfaces for etcd ([Etcd], [EtcdOk],
      [EtcdStore]) and the codecs ([Codec], [CodecOk]).
    - Cluster: several metadata clients around one etcd, the reports etcd sends, and a
      watcher that handles them.
    - Grpc: the state of cmx-agent/src/state.rs and the seven handlers of
      cmx-agent/src/grpc.rs, each a computation on [CacheService].
    - Service: the invariant [svc_inv] between index and allocator, and the effect of each
      handler on the recency list of stored items.  Frames: a relation on service states that
      the handlers keep ([HandlerFrame]), proved once and used for everything a handler leaves
      alone.
    - Trace: the agent under any sequence of requests, monitor ticks and watch messages; the
      [ledger] is what the clients can conclude from the replies they got.
    - Integrity: stored data that is damaged in memory.  Isolation: addresses (model id and
      prefix hash) and the keys they have in the index.  History: which acknowledged store a
      generation, a header or a publication belongs to.
    - EndToEnd: two agents and etcd, the way of a block from a store on one node to a lookup
      on the other.  Types: the ranges and lengths the Rust types guarantee, as triples over
      [M] that every handler keeps.
    - ConcService, ConcSafety: the seven handlers, the sender of a Get and monitor turns as
      concurrent tasks, split into their accesses to shared memory ([task_action]); the
      invariant [cinv] of every interleaving.
    - Agent: [main] of cmx-agent/src/main.rs, from the choice of the configuration file to
      the shutdown, with cmx-agent/src/metrics.rs.
    - System: any number of agent processes around one etcd; a step starts a process with
      [startup], serves a request, publishes a block or handles a report, and processes,
      publications and reports may fail the way they do in a network.
    - Transport: the [Transport] trait, its implementations and the connection pool
      (cmx-transport/src/); ConcTransport: the calls of the connection pool and its health
      check as concurrent tasks that interleave at every await.
    - Conformance: the unit tests of the crates as programs over the model.

    A store request flows through Grpc.[store] to [allocate_and_write] (Allocator), which
    takes a block from the pool and writes header and data, then to [index_insert] (Index)
    and its policy (Lru), and queues a publication (Metadata).  Watches of other nodes turn
    publications into entries of RemoteIndex and members of the ring, which [lookup] reads.

    ** What the theorems show

    - Trace, Agent: a Get answers exactly the last acknowledged and not deleted Store of its
      key and its generation, or NotFound, whatever ran before; used blocks are stores minus freed blocks; a Get's
      stream survives every concurrent request but a delete; only an oversized store header
      panics; startup establishes the assumptions of all this, and the process ends with
      statistics that match the replies and without its keys in etcd.  The same files prove where
      the code falls short: blocks of overwritten entries are lost until stores are refused,
      the index of the agent never evicts, Delete does not find entries stored with a model
      id, a delete racing with a Get delivers another key's data, and deleted blocks stay
      advertised.
    - Integrity, Isolation: a burst of up to four damaged bytes is reported as data loss and
      never served; a Get answers what was stored for its own model id and prefix hash, but
      a model id is no barrier for a client that computes the key itself.
    - History, System: the generations of one process identify its stores, so a client that
      follows a remote hit finds the data of the advertised store or can tell that it
      did not, whatever crashed, got lost or arrived late; but a restarted process counts
      from the beginning, and its blocks can match advertisements of its predecessor.
    - EndToEnd, Types: a block stored on one node is found with its location and generation
      by another once its publication arrived; from well-typed states well-typed requests give
      replies and states with the types of cmx.proto and of the source.
    - ConcIndex, ConcService, ConcSafety: a thread or task that is not interleaved
      computes the sequential method or handler; every schedule terminates and none
      deadlocks; no block is owned twice; without deletes, gets see complete stores of
      their key and the blocks lookups advertise stay readable; concurrent inserts exceed
      the capacity by less than the number of threads. A remove that races with an insert
      leaves entries that are never evicted.
    - Cluster: a watcher that saw every report in order agrees with etcd.  A leaving node
      hides the other holders of its blocks, late reports of the node watch drop fresh
      entries, and newcomers do not learn of existing nodes.
    - Pool, Pools, Allocator, Block: handles are distinct, in bounds and refused by
      foreign pools, dropped pools leave no mapping, writes are isolated, blocks read back
      what was written, headers round-trip; double frees, more than 2^32 blocks and blocks
      smaller than a header misbehave as stated.
    - Lru, Index: refinement of recency lists, capacity, survival of recently used keys, reuse
      of slab slots, termination of the eviction loop.
    - Placement, RemoteIndex, Metadata: owners are nearest clockwise, membership changes move
      only the keys they must, replicas are distinct; publications reach the watchers and
      departed nodes are forgotten; leases are renewed in time.
    - ConcTransport: calls of the connection pool end under every schedule; cached entries
      become stale only by a race with a disconnect, which a health check repairs.
    - Config, Pressure, Numa, Transport: loading overlays the document on the defaults,
      validation accepts exactly the usable configurations, node ids are valid text,
      pressure bands and what the monitor's log tells, the node mask, caching of
      connections for any transport, transfers through the mock.
    - Conformance: all unit tests pass, with the digests of Crc32 and Sha256, and the
      property-based test of the pool passes on every sequence of operations.

    ** Conventions and bounds

    Machine integers are [Z], with wrap-around written where the code can reach it; the agent
    is built in release mode, so arithmetic wraps and [usize] has 64 bits.  The eviction loop
    of [index_insert] runs on fuel one larger than the map, which [evict_loop_ok] shows is
    enough; [hex_digits], [trim_loop], [pieces_loop] and [chunks] have the length of their input as fuel,
    which [chunks_fuel_enough] shows for the chunks; every other recursion is structural.
    SHA-256, CRC-32, hex, serde_json, toml, etcd, mmap and the other system calls are
    parameters; what is assumed of them is a hypothesis of the theorem or a law of an
    interface, and each such theorem has a concrete instance.  Only Integrity fixes one: what
    damage a checksum reports depends on the polynomial of CRC-32.

    In the sequential files a method is one step.  In the concurrent files the atomic steps
    are the calls of DashMap (its [len] included), the calls behind the LRU and free-list
    mutexes, the atomic counters, and each copy into or out of a block; the read guard of
    [lookup] makes writers of its shard wait.  In ConcTransport they are the accesses to the
    cached connections and the awaited calls of the transport.

    ** Not modelled

    Timers, log and metrics output, the tonic server and the delivery of signals, the parsing
    of TOML text and of command lines, generated protobuf code, the Python clients and the
    benchmarks. *)

From stdpp Require Export base relations gmap list strings list_numbers.

Declare Scope rust_scope.
Delimit Scope rust_scope with rust.

(** ** Outcomes of running Rust code

    [Ret a] is a normal return.  [Panic] is an unwinding panic (a failed
    [assert!], an out-of-range index or slice).  [UB] marks an [unsafe] access
    outside the memory its safety comment promises.  [Fuel] is returned by a
    fuelled loop whose fuel ran out; no theorem treats it as a result. *)
Inductive outcome (A : Type) : Type :=
  | Ret (a : A)
  | Panic
  | UB
  | Fuel.
Arguments Ret {A} a.
Arguments Panic {A}.
Arguments UB {A}.
Arguments Fuel {A}.

(** Rust's [Result]. *)
Inductive result (T E : Type) : Type :=
  | Ok (t : T)
  | Err (e : E).
Arguments Ok {T E} t.
Arguments Err {T E} e.

(** ** The state monad of the model

    A method taking [&self] over interior-mutable state of type [S] is a
    computation [M S A].  A panic does not roll the state back: what was
    mutated before it stays mutated (the shared state lives in an [Arc]). *)
Definition M (S A : Type) : Type := S → outcome A * S.

Global Instance M_ret (S : Type) : MRet (M S) := λ A a s, (Ret a, s).

Global Instance M_bind (S : Type) : MBind (M S) := λ A B k m s,
  match m s with
  | (Ret a, s') => k a s'
  | (Panic, s') => (Panic, s')
  | (UB, s') => (UB, s')
  | (Fuel, s') => (Fuel, s')
  end.

Definition gets {S A} (f : S → A) : M S A := λ s, (Ret (f s), s).
Definition modify {S} (f : S → S) : M S unit := λ s, (Ret tt, f s).
Definition panic {S A} : M S A := λ s, (Panic, s).
Definition undefined {S A} : M S A := λ s, (UB, s).

(** [assert!(b)]. *)
Definition assert {S} (b : bool) : M S unit := if b then mret tt else panic.

(** Indexing and slicing panic when out of range. *)
Definition unwrap {S A} (o : option A) : M S A :=
  match o with Some a => mret a | None => panic end.

(** Run a component's computation on the part of the state that holds it. *)
Definition zoom {S T A} (get : S → T) (set : T → S → S) (m : M T A) : M S A :=
  λ s, let '(o, t) := m (get s) in (o, set t s).

Section monad.
Context {S : Type}.

Lemma bind_Ret {A B} (m : M S A) (k : A → M S B) s a s' :
  m s = (Ret a, s') → (m ≫= k) s = k a s'.
Proof. intros H. unfold mbind, M_bind. by rewrite H. Qed.

Lemma bind_Panic {A B} (m : M S A) (k : A → M S B) s s' :
  m s = (Panic, s') → (m ≫= k) s = (Panic, s').
Proof. intros H. unfold mbind, M_bind. by rewrite H. Qed.

Lemma bind_Ret_inv {A B} (m : M S A) (k : A → M S B) s b s' :
  (m ≫= k) s = (Ret b, s') → ∃ a s1, m s = (Ret a, s1) ∧ k a s1 = (Ret b, s').
Proof.
  unfold mbind, M_bind. destruct (m s) as [[a| | |] s1]; naive_solver.
Qed.

Lemma zoom_Ret {T A} (get : S → T) (set : T → S → S) (m : M T A) s a t :
  m (get s) = (Ret a, t) → zoom get set m s = (Ret a, set t s).
Proof. intros H. unfold zoom. by rewrite H. Qed.
End monad.

(** ** Frames: what a computation never changes, whatever its outcome *)
Definition preserves {S A} (R : relation S) (m : M S A) : Prop := ∀ s, R s (m s).2.

Section frames.
Context {S : Type} (R : relation S) `{!PreOrder R}.

Lemma preserves_ret {A} (a : A) : preserves R (mret a).
Proof. intros s. reflexivity. Qed.
Lemma preserves_bind {A B} (m : M S A) (k : A → M S B) :
  preserves R m → (∀ a, preserves R (k a)) → preserves R (m ≫= k).
Proof.
  intros Hm Hk s. unfold mbind, M_bind. specialize (Hm s).
  destruct (m s) as [[a| | |] s1]; try exact Hm. etransitivity; [exact Hm|apply Hk].
Qed.
Lemma preserves_gets {A} (f : S → A) : preserves R (gets f).
Proof. intros s. reflexivity. Qed.
Lemma preserves_assert b : preserves R (assert b).
Proof. intros s. by destruct b. Qed.
Lemma preserves_modify f : (∀ s, R s (f s)) → preserves R (modify f).
Proof. intros Hf s. apply Hf. Qed.
Lemma preserves_zoom {T A} (get : S → T) (set : T → S → S) (m : M T A) :
  (∀ t s, R s (set t s)) → preserves R (zoom get set m).
Proof. intros Hset s. unfold zoom. destruct (m (get s)) as [o t]. apply Hset. Qed.
End frames.

Create HintDb frames.
#[export] Hint Resolve preserves_ret preserves_bind preserves_gets preserves_assert : frames.

(** ** Triples: an invariant of the state, and a property of the results *)

(** Whatever its outcome, [m] keeps [P]; when it returns, the value has [Q]. *)
Definition hoare {S A} (P : S → Prop) (m : M S A) (Q : A → Prop) : Prop :=
  ∀ s, P s → P (m s).2 ∧ ∀ a, (m s).1 = Ret a → Q a.

Section triples.
Context {S : Type} (P : S → Prop).

Lemma hoare_ret {A} (a : A) (Q : A → Prop) : Q a → hoare P (mret a) Q.
Proof. intros Ha s Hs. split; [done|]. by intros a' [= <-]. Qed.
Lemma hoare_bind {A B} (m : M S A) (k : A → M S B) (Q : A → Prop) (R : B → Prop) :
  hoare P m Q → (∀ a, Q a → hoare P (k a) R) → hoare P (m ≫= k) R.
Proof.
  intros Hm Hk s Hs. destruct (Hm s Hs) as [Hs1 HQ]. unfold mbind, M_bind.
  destruct (m s) as [[a| | |] s1]; cbn in *; try (split; [done|by intros ? [=]]).
  apply Hk; [by apply HQ|done].
Qed.
Lemma hoare_gets {A} (f : S → A) (Q : A → Prop) : (∀ s, P s → Q (f s)) → hoare P (gets f) Q.
Proof. intros Hf s Hs. split; [done|]. intros a [= <-]. by apply Hf. Qed.
Lemma hoare_get : hoare P (gets (λ s, s)) P.
Proof. by apply hoare_gets. Qed.
Lemma hoare_modify f : (∀ s, P s → P (f s)) → hoare P (modify f) (λ _, True).
Proof. intros Hf s Hs. split; [by apply Hf|done]. Qed.
Lemma hoare_assert b : hoare P (assert b) (λ _, True).
Proof. intros s Hs. by destruct b. Qed.
Lemma hoare_panic {A} (Q : A → Prop) : hoare P panic Q.
Proof. intros s Hs. split; [done|]. by intros a [=]. Qed.
Lemma hoare_undefined {A} (Q : A → Prop) : hoare P undefined Q.
Proof. intros s Hs. split; [done|]. by intros a [=]. Qed.
Lemma hoare_zoom {T A} (P' : T → Prop) (get : S → T) (set : T → S → S) (m : M T A) (Q : A → Prop) :
  (∀ s, P s → P' (get s)) → (∀ t s, P s → P' t → P (set t s)) → hoare P' m Q → hoare P (zoom get set m) Q.
Proof.
  intros Hget Hset Hm s Hs. destruct (Hm (get s) (Hget s Hs)) as [Ht HQ]. unfold zoom.
  destruct (m (get s)) as [o t]. cbn in *. split; [by apply Hset|done].
Qed.
Lemma hoare_zoom_any {T A} (get : S → T) (set : T → S → S) (m : M T A) :
  (∀ t s, P s → P (set t s)) → hoare P (zoom get set m) (λ _, True).
Proof. intros Hset s Hs. unfold zoom. destruct (m (get s)) as [o t]. split; [by apply Hset|done]. Qed.
Lemma hoare_weaken {A} (m : M S A) (Q Q' : A → Prop) :
  hoare P m Q → (∀ a, Q a → Q' a) → hoare P m Q'.
Proof. intros Hm HQ s Hs. destruct (Hm s Hs) as [? Ha]. split; [done|]. auto. Qed.
End triples.

Create HintDb triples.
#[export] Hint Resolve hoare_get hoare_assert hoare_panic hoare_undefined : triples.

(** Go through the binds of a method, with the triples of the methods it calls. *)
Ltac triple :=
  repeat match goal with
  | |- ∀ _, _ => intros ?
  | |- hoare _ (_ ≫= _) _ =>
      eapply hoare_bind; [first [solve [eauto with triples] | by apply hoare_modify]|cbn beta]
  | |- hoare _ (match ?x with _ => _ end) _ => destruct x
  | |- hoare _ (mret _) _ => apply hoare_ret
  | |- hoare _ _ _ => first [solve [eauto with triples] | by apply hoare_modify]
  end.

(** Evaluate one monadic step whose result is known. *)
Ltac mstep lem := erewrite bind_Ret; [|apply lem]; cbn beta.
(** Unfold the primitive actions of the monad. *)
Ltac munfold :=
  repeat unfold mbind, M_bind, mret, M_ret, gets, modify, panic, unwrap, undefined, zoom;
  cbn beta.

(** ** Machine integers: values are [Z], casts wrap *)
Definition u8_max : Z := 255.
Definition as_u8 (z : Z) : Z := (z mod 2 ^ 8)%Z.
Definition as_u32 (z : Z) : Z := (z mod 2 ^ 32)%Z.
Definition as_u64 (z : Z) : Z := (z mod 2 ^ 64)%Z.
(** [usize] is 64 bits wide on the targets of the agent. *)
Definition as_usize (z : Z) : Z := as_u64 z.

Definition is_u32 (z : Z) : Prop := (0 ≤ z < 2 ^ 32)%Z.
Definition is_u64 (z : Z) : Prop := (0 ≤ z < 2 ^ 64)%Z.
Definition is_usize (z : Z) : Prop := is_u64 z.
Definition is_byte (z : Z) : Prop := (0 ≤ z < 256)%Z.

Lemma as_u32_id z : is_u32 z → as_u32 z = z.
Proof. apply Z.mod_small. Qed.
Lemma as_u64_id z : is_u64 z → as_u64 z = z.
Proof. apply Z.mod_small. Qed.
Lemma as_usize_id z : is_usize z → as_usize z = z.
Proof. apply Z.mod_small. Qed.
Lemma as_u32_range z : is_u32 (as_u32 z).
Proof. apply Z.mod_pos_bound. lia. Qed.
Lemma as_u64_range z : is_u64 (as_u64 z).
Proof. apply Z.mod_pos_bound. lia. Qed.

Create HintDb rust.
Create Rewrite HintDb rust.
#[export] Hint Resolve as_u32_range as_u64_range : rust.
#[export] Hint Unfold is_u32 is_u64 is_usize is_byte : rust.

(** ** Byte strings *)
Abbreviation bytes := (list Z).

(** [Vec::len] as a [usize]. *)
Definition zlen {A} (l : list A) : Z := Z.of_nat (length l).

Lemma zlen_nonneg {A} (l : list A) : (0 ≤ zlen l)%Z.
Proof. unfold zlen. lia. Qed.
Lemma zlen_app {A} (l k : list A) : zlen (l ++ k) = (zlen l + zlen k)%Z.
Proof. unfold zlen. rewrite length_app. lia. Qed.
Lemma zlen_nil {A} : zlen (@nil A) = 0%Z.
Proof. done. Qed.
#[export] Hint Resolve zlen_nonneg : rust.

(** ** [Vec] used as a stack: [push] and [pop] work at the end *)
Definition vec_push {A} (x : A) (l : list A) : list A := l ++ [x].

Definition vec_pop {A} (l : list A) : option (A * list A) :=
  match last l with
  | Some x => Some (x, take (length l - 1) l)
  | None => None
  end.

Lemma vec_pop_push {A} (x : A) l : vec_pop (vec_push x l) = Some (x, l).
Proof.
  unfold vec_pop, vec_push. rewrite last_snoc, length_app. cbn.
  replace (length l + 1 - 1) with (length l) by lia.
  by rewrite take_app_length.
Qed.

Lemma vec_pop_Some {A} (x : A) l l' : vec_pop l = Some (x, l') ↔ l = vec_push x l'.
Proof.
  split; [|intros ->; apply vec_pop_push].
  destruct l as [|y k _] using rev_ind; [done|].
  pose proof (vec_pop_push y k) as H. unfold vec_push in *.
  rewrite H. naive_solver.
Qed.

Lemma vec_pop_None {A} (l : list A) : vec_pop l = None ↔ l = [].
Proof.
  unfold vec_pop. split; [|by intros ->].
  destruct (last l) eqn:E; [done|]. by rewrite last_None in E.
Qed.

(** ** Slices: [&s[off..off+len]] and [copy_from_slice] into it *)
Definition slice {A} (off len : Z) (l : list A) : list A :=
  take (Z.to_nat len) (drop (Z.to_nat off) l).

Definition blit {A} (off : Z) (src l : list A) : list A :=
  take (Z.to_nat off) l ++ src ++ drop (Z.to_nat off + length src) l.

(** [&s[a..b]], panicking as Rust does when [a > b] or [b > len]. *)
Definition range {A} (a b : Z) (l : list A) : option (list A) :=
  if bool_decide (0 ≤ a ≤ b ∧ b ≤ zlen l)%Z then Some (slice a (b - a) l) else None.

Section slices.
Local Open Scope Z_scope.
Context {A : Type}.
Implicit Types (l src : list A) (off len : Z).

Lemma zlen_slice off len l :
  0 ≤ off → 0 ≤ len → off + len ≤ zlen l → zlen (slice off len l) = len.
Proof. unfold zlen, slice. intros. rewrite length_take, length_drop. lia. Qed.

Lemma zlen_blit off src l :
  0 ≤ off → off + zlen src ≤ zlen l → zlen (blit off src l) = zlen l.
Proof.
  unfold zlen, blit. intros. rewrite !length_app, length_take, length_drop. lia.
Qed.

Lemma lookup_slice off len l (i : nat) :
  slice off len l !! i = if decide (i < Z.to_nat len)%nat then l !! (Z.to_nat off + i)%nat else None.
Proof.
  unfold slice. case_decide; [by rewrite lookup_take_lt, lookup_drop|].
  apply lookup_take_ge. lia.
Qed.

Lemma lookup_blit off src l (i : nat) :
  0 ≤ off → off + zlen src ≤ zlen l →
  blit off src l !! i =
    if decide (Z.to_nat off ≤ i < Z.to_nat off + length src)%nat
    then src !! (i - Z.to_nat off)%nat else l !! i.
Proof.
  unfold zlen, blit. intros Hoff Hlen.
  assert (length (take (Z.to_nat off) l) = Z.to_nat off) as Ht by (rewrite length_take; lia).
  destruct (decide (i < Z.to_nat off)%nat).
  { rewrite lookup_app_l, lookup_take_lt by lia. by rewrite decide_False by lia. }
  rewrite lookup_app_r, Ht by lia.
  destruct (decide (i < Z.to_nat off + length src)%nat).
  { rewrite lookup_app_l by lia. by rewrite decide_True by lia. }
  rewrite lookup_app_r, lookup_drop, decide_False by lia. f_equal. lia.
Qed.

Lemma slice_blit_same off src l :
  0 ≤ off → off + zlen src ≤ zlen l → slice off (zlen src) (blit off src l) = src.
Proof.
  intros ??. apply list_eq. intros i. rewrite lookup_slice, lookup_blit by done.
  unfold zlen. case_decide.
  - rewrite decide_True by lia. f_equal. lia.
  - symmetry. apply lookup_ge_None. lia.
Qed.

Lemma slice_blit_disjoint off' len off src l :
  0 ≤ off → 0 ≤ off' → off + zlen src ≤ zlen l →
  off' + len ≤ off ∨ off + zlen src ≤ off' →
  slice off' len (blit off src l) = slice off' len l.
Proof.
  intros ?? Hl Hd. apply list_eq. intros i. rewrite !lookup_slice.
  case_decide; [|done]. rewrite lookup_blit by done.
  rewrite decide_False; [done|]. unfold zlen in *. lia.
Qed.

Lemma slice_blit_within off len a src l :
  0 ≤ off → 0 ≤ a → a + zlen src ≤ len → off + len ≤ zlen l →
  slice off len (blit (off + a) src l) = blit a src (slice off len l).
Proof.
  intros ????. pose proof (zlen_nonneg src). apply list_eq. intros i.
  rewrite lookup_slice, (lookup_blit a) by (rewrite ?zlen_slice; lia).
  unfold zlen in *. case_decide.
  - rewrite lookup_blit by (unfold zlen; lia). rewrite lookup_slice.
    repeat case_decide; try lia; try done; f_equal; lia.
  - rewrite decide_False by lia. symmetry. rewrite lookup_slice.
    by rewrite decide_False by lia.
Qed.

Lemma slice_slice a b off len l :
  0 ≤ a → 0 ≤ off → a + b ≤ len → slice a b (slice off len l) = slice (off + a) b l.
Proof.
  intros ???. apply list_eq. intros i. rewrite !lookup_slice.
  repeat case_decide; try done; try lia. f_equal. lia.
Qed.

Lemma slice_app_l len l k : len ≤ zlen l → slice 0 len (l ++ k) = slice 0 len l.
Proof.
  unfold slice, zlen. intros. rewrite !drop_0, take_app_le by lia. done.
Qed.

Lemma slice_app_r off len l k :
  0 ≤ off → off = zlen l → slice off len (l ++ k) = take (Z.to_nat len) k.
Proof.
  unfold slice, zlen. intros ? ->. rewrite Nat2Z.id, drop_app_length. done.
Qed.

Lemma blit_slice_id off len l :
  0 ≤ off → 0 ≤ len → off + len ≤ zlen l → blit off (slice off len l) l = l.
Proof.
  intros ???. apply list_eq. intros i. rewrite lookup_blit by (rewrite ?zlen_slice; lia).
  case_decide; [|done]. rewrite lookup_slice. unfold slice in *.
  rewrite length_take in *. rewrite decide_True by lia. f_equal. lia.
Qed.

Lemma slice_all l : slice 0 (zlen l) l = l.
Proof. unfold slice, zlen. rewrite Nat2Z.id, drop_0. apply take_ge. lia. Qed.
End slices.

(** ** Little-endian integers *)
Fixpoint le_encode (n : nat) (z : Z) : bytes :=
  match n with
  | 0 => []
  | S n => (z mod 256)%Z :: le_encode n (z / 256)%Z
  end.

Fixpoint le_decode (bs : bytes) : Z :=
  match bs with
  | [] => 0
  | b :: bs => b + 256 * le_decode bs
  end%Z.

Lemma length_le_encode n z : length (le_encode n z) = n.
Proof. revert z. induction n; cbn; auto. Qed.

Lemma le_encode_bytes n z : Forall is_byte (le_encode n z).
Proof.
  revert z. induction n; cbn; constructor; auto. unfold is_byte.
  apply Z.mod_pos_bound. lia.
Qed.

Lemma le_decode_encode n z : le_decode (le_encode n z) = (z mod 256 ^ Z.of_nat n)%Z.
Proof.
  revert z. induction n as [|n IH]; intros z; cbn [le_encode le_decode].
  - by rewrite Z.pow_0_r, Z.mod_1_r.
  - rewrite IH, Nat2Z.inj_succ, Z.pow_succ_r by lia.
    rewrite Z.rem_mul_r by lia. done.
Qed.

Lemma le_decode_encode_u32 z : is_u32 z → le_decode (le_encode 4 z) = z.
Proof. intros. rewrite le_decode_encode. by apply Z.mod_small. Qed.

Lemma le_decode_encode_u64 z : is_u64 z → le_decode (le_encode 8 z) = z.
Proof. intros. rewrite le_decode_encode. by apply Z.mod_small. Qed.
Lemma le_decode_range bs : Forall is_byte bs → (0 ≤ le_decode bs < 256 ^ Z.of_nat (length bs))%Z.
Proof.
  unfold is_byte. induction 1 as [|b bs Hb _ IH]; cbn [le_decode length]; [done|].
  rewrite Nat2Z.inj_succ, Z.pow_succ_r by lia. lia.
Qed.

Lemma le_encode_decode n w : length w = n → Forall is_byte w → le_encode n (le_decode w) = w.
Proof.
  intros <- Hw. induction Hw as [|b w Hb _ IH]; [done|]. unfold is_byte in Hb. cbn [length le_encode le_decode].
  rewrite (Z.mul_comm 256), Z.mod_add, Z.div_add, Z.mod_small, Z.div_small by lia. by rewrite Z.add_0_l, IH.
Qed.

Lemma le_decode_u32 l n : Forall is_byte (take 4 (drop n l)) → is_u32 (le_decode (take 4 (drop n l))).
Proof.
  intros Hb%le_decode_range. unfold is_u32. rewrite length_take in Hb.
  assert (256 ^ Z.of_nat (4 `min` length (drop n l)) ≤ 256 ^ 4)%Z
    by (apply Z.pow_le_mono_r; lia). lia.
Qed.
#[export] Hint Rewrite le_decode_encode_u32 le_decode_encode_u64 using done : rust.

(** ** Lists *)
Lemma filter_all {A} (P : A → Prop) `{∀ x, Decision (P x)} (l : list A) :
  Forall P l → filter P l = l.
Proof. induction 1; [done|]. rewrite filter_cons_True by done. by f_equal. Qed.

Lemma filter_neq_notin {A} `{EqDecision A} (k : A) (l : list A) :
  k ∉ l → filter (λ x, x ≠ k) l = l.
Proof. intros Hk. apply filter_all, Forall_forall. intros x Hx ->. done. Qed.

(** [filter (≠ k)] removes the single occurrence of [k] in a duplicate-free list. *)
Lemma filter_neq_split {A} `{EqDecision A} (k : A) (l1 l2 : list A) :
  NoDup (l1 ++ k :: l2) → filter (λ x, x ≠ k) (l1 ++ k :: l2) = l1 ++ l2.
Proof.
  intros (_ & Hd & Hnd%NoDup_cons)%NoDup_app. destruct Hnd as [Hk _].
  rewrite filter_app, filter_cons_False by (intros H; by apply H).
  rewrite !filter_neq_notin; [done|done|].
  intros Hx. by apply (Hd k Hx), list_elem_of_here.
Qed.

(** ** Relations *)

(** No step, up to an equation that computes. *)
Lemma rtc_refl_eq {A} (R : relation A) x y : x = y → rtc R x y.
Proof. by intros ->. Qed.
