(* ===== verification/Pool.v ===== *)
(** * The pinned DRAM slab pool (crates/cmx-memory/src/pool.rs)

    [MemoryPool] with its mapped region as a byte list, the stack of free block
    indices, and every method that reads or changes them.  A pointer into the
    region is its offset from [base_ptr].  The invariant [pool_wf] and the
    ownership relation [owns] (free indices and live indices partition
    [0..total_blocks]) are preserved by every operation. *)
From S2P Require Import Prelude.

Local Open Scope Z_scope.

Inductive PoolError :=
  | MmapFailed
  | InvalidSize (total_size block_size : Z)
  | ZeroBlockSize.

Record PoolStats := {
  ps_total_blocks : Z;
  ps_used_blocks : Z;
  ps_free_blocks : Z;
  ps_total_bytes : Z;
  ps_used_bytes : Z;
}.

Record BlockHandle := mkBlockHandle {
  bh_pool_id : Z;
  bh_block_index : Z;
  bh_offset : Z;
  bh_size : Z;
}.

Global Instance BlockHandle_eq_dec : EqDecision BlockHandle.
Proof. solve_decision. Defined.

Record MemoryPool := mkMemoryPool {
  pool_id : Z;
  region : bytes;          (* the mapping that starts at base_ptr *)
  total_size : Z;
  block_size : Z;
  total_blocks : Z;
  free_list : list Z;      (* Mutex<Vec<usize>>, top of the stack last *)
}.

Definition set_free_list (l : list Z) (p : MemoryPool) : MemoryPool :=
  mkMemoryPool (pool_id p) (region p) (total_size p) (block_size p) (total_blocks p) l.
Definition set_region (r : bytes) (p : MemoryPool) : MemoryPool :=
  mkMemoryPool (pool_id p) r (total_size p) (block_size p) (total_blocks p) (free_list p).

(** ** Operations *)

(** [MemoryPool::new].  The state is the global counter [NEXT_POOL_ID]; [mmap n]
    is the anonymous private mapping of [n] bytes, [None] being [MAP_FAILED].
    A failing [mlock] is only logged. *)
Definition pool_new (mmap : Z → option bytes) (total_size block_size : Z) :
    M Z (result MemoryPool PoolError) :=
  if block_size =? 0 then mret (Err ZeroBlockSize)
  else if (total_size =? 0) || negb (total_size mod block_size =? 0) then
    mret (Err (InvalidSize total_size block_size))
  else
    let total_blocks := total_size / block_size in
    match mmap total_size with
    | None => mret (Err MmapFailed)
    | Some base =>
        let free_list := seqZ 0 total_blocks in
        id ← gets (λ next_pool_id, next_pool_id);
        modify (λ next_pool_id, as_u32 (next_pool_id + 1));;
        mret (Ok (mkMemoryPool id base total_size block_size total_blocks free_list))
    end.

(** [MemoryPool::allocate]. *)
Definition allocate : M MemoryPool (option BlockHandle) :=
  p ← gets (λ p, p);
  match vec_pop (free_list p) with
  | None => mret None
  | Some (block_index, free) =>
      modify (set_free_list free);;
      let offset := as_usize (block_index * block_size p) in
      mret (Some (mkBlockHandle (pool_id p) (as_u32 block_index) offset (block_size p)))
  end.

(** [MemoryPool::deallocate]: both assertions, then the push. *)
Definition deallocate (handle : BlockHandle) : M MemoryPool unit :=
  p ← gets (λ p, p);
  assert (bh_pool_id handle =? pool_id p);;
  assert (bh_block_index handle <? total_blocks p);;
  modify (λ p, set_free_list (vec_push (bh_block_index handle) (free_list p)) p).

(** [MemoryPool::get_ptr]: the offset from [base_ptr]; [ptr::add] past the end of
    the mapping is undefined behaviour. *)
Definition get_ptr (handle : BlockHandle) : M MemoryPool Z :=
  p ← gets (λ p, p);
  assert (bh_pool_id handle =? pool_id p);;
  if bh_offset handle <=? zlen (region p) then mret (bh_offset handle) else undefined.

(** [MemoryPool::get_slice]: [block_size] bytes from the pointer. *)
Definition get_slice (handle : BlockHandle) : M MemoryPool bytes :=
  ptr ← get_ptr handle;
  p ← gets (λ p, p);
  if ptr + block_size p <=? zlen (region p)
  then mret (slice ptr (block_size p) (region p)) else undefined.

(** [MemoryPool::get_slice_mut]: a mutable view, as its start and its length. *)
Definition get_slice_mut (handle : BlockHandle) : M MemoryPool (Z * Z) :=
  ptr ← get_ptr handle;
  p ← gets (λ p, p);
  if ptr + block_size p <=? zlen (region p)
  then mret (ptr, block_size p) else undefined.

(** Run a computation on the bytes of [&mut view[a..b]], a sub-slice of a view obtained
    from [get_slice_mut]; slicing out of the view's range panics. *)
Definition with_view {A} (view : Z * Z) (a b : Z) (m : M bytes A) : M MemoryPool A :=
  assert (bool_decide (0 ≤ a ≤ b ∧ b ≤ view.2));;
  zoom (λ p, slice (view.1 + a) (b - a) (region p))
       (λ d p, set_region (blit (view.1 + a) d (region p)) p) m.

(** [dst.copy_from_slice(src)] panics on a length mismatch. *)
Definition copy_from_slice (src : bytes) : M bytes unit :=
  dst ← gets (λ dst, dst);
  assert (zlen dst =? zlen src);;
  modify (λ _, src).

(** [view[a..b].copy_from_slice(src)]. *)
Definition view_copy (view : Z * Z) (a b : Z) (src : bytes) : M MemoryPool unit :=
  with_view view a b (copy_from_slice src).

(** [MemoryPool::stats]: [used_blocks] is a saturating subtraction. *)
Definition pool_stats : M MemoryPool PoolStats :=
  p ← gets (λ p, p);
  let free_blocks := zlen (free_list p) in
  let used_blocks := Z.max 0 (total_blocks p - free_blocks) in
  mret {| ps_total_blocks := total_blocks p;
          ps_used_blocks := used_blocks;
          ps_free_blocks := free_blocks;
          ps_total_bytes := total_size p;
          ps_used_bytes := as_usize (used_blocks * block_size p) |}.

(** ** Invariant *)
Record pool_wf (p : MemoryPool) : Prop := {
  wf_block_size : 0 < block_size p;
  wf_total_blocks : 0 < total_blocks p;
  wf_total_size : total_blocks p * block_size p = total_size p;
  wf_usize : is_usize (total_size p);
  wf_region : zlen (region p) = total_size p;
  wf_free : Forall (λ i, 0 ≤ i < total_blocks p) (free_list p);
}.

(** The free indices and the indices handed out partition the block indices. *)
Definition owns (p : MemoryPool) (live : list Z) : Prop :=
  free_list p ++ live ≡ₚ seqZ 0 (total_blocks p).

(** The shape of a handle issued by [p]. *)
Definition handle_ok (p : MemoryPool) (h : BlockHandle) : Prop :=
  bh_pool_id h = pool_id p ∧
  0 ≤ bh_block_index h < total_blocks p ∧
  bh_offset h = bh_block_index h * block_size p ∧
  bh_size h = block_size p.

(** The fields no operation after [new] changes. *)
Definition same_geometry (p q : MemoryPool) : Prop :=
  pool_id p = pool_id q ∧ total_size p = total_size q ∧
  block_size p = block_size q ∧ total_blocks p = total_blocks q.

Global Instance same_geometry_equiv : Equivalence same_geometry.
Proof. split; unfold same_geometry; [intros p|intros p q|intros p q r]; intuition congruence. Qed.

Lemma same_geometry_free p l : same_geometry p (set_free_list l p).
Proof. by repeat split. Qed.
Lemma same_geometry_region p r : same_geometry p (set_region r p).
Proof. by repeat split. Qed.
#[export] Hint Resolve same_geometry_free same_geometry_region : rust.

Lemma handle_ok_geometry p q h : same_geometry p q → handle_ok p h → handle_ok q h.
Proof. intros (H1 & H2 & H3 & H4). unfold handle_ok. by rewrite H1, H3, H4. Qed.

Lemma owns_NoDup p live : owns p live → NoDup (free_list p ++ live).
Proof. intros Ho. rewrite Ho. apply NoDup_seqZ. Qed.

Lemma owns_live_range p live i : owns p live → i ∈ live → 0 ≤ i < total_blocks p.
Proof.
  intros Ho Hi. assert (i ∈ seqZ 0 (total_blocks p)) as Hs%elem_of_seqZ; [|lia].
  rewrite <-Ho. set_solver.
Qed.

Lemma owns_length p live :
  owns p live → 0 ≤ total_blocks p → zlen (free_list p) + zlen live = total_blocks p.
Proof.
  intros Ho%Permutation_length ?. rewrite length_app, length_seqZ in Ho. unfold zlen. lia.
Qed.

Lemma block_in_region p i :
  pool_wf p → 0 ≤ i < total_blocks p →
  0 ≤ i * block_size p ∧ i * block_size p + block_size p ≤ zlen (region p).
Proof. intros [] ?. split; nia. Qed.

Lemma block_index_usize p i :
  pool_wf p → 0 ≤ i < total_blocks p → is_usize (i * block_size p).
Proof.
  intros Hwf Hi. pose proof (block_in_region p i Hwf Hi). destruct Hwf.
  unfold is_usize, is_u64 in *. lia.
Qed.

Lemma blocks_disjoint p i j :
  pool_wf p → i ≠ j →
  i * block_size p + block_size p ≤ j * block_size p ∨
  j * block_size p + block_size p ≤ i * block_size p.
Proof. intros [] Hij. destruct (Z.lt_trichotomy i j) as [|[|]]; [left|done|right]; nia. Qed.

(** The handle of block [i] of [p]. *)
Definition block_handle (p : MemoryPool) (i : Z) : BlockHandle :=
  mkBlockHandle (pool_id p) i (i * block_size p) (block_size p).

(** Every index fits the [u32] field of a handle. *)
Definition index_fits (p : MemoryPool) : Prop := total_blocks p ≤ 2 ^ 32.

Lemma block_handle_ok p i : 0 ≤ i < total_blocks p → handle_ok p (block_handle p i).
Proof. done. Qed.

Lemma handle_ok_inv p h : handle_ok p h → h = block_handle p (bh_block_index h).
Proof. destruct h. intros (H1 & _ & H2 & H3). cbn in *. by subst. Qed.
#[export] Hint Resolve block_handle_ok : rust.

Section operations.
Context (p : MemoryPool) (Hwf : pool_wf p).

Lemma wf_set_free_list l :
  Forall (λ i, 0 ≤ i < total_blocks p) l → pool_wf (set_free_list l p).
Proof using Hwf. destruct Hwf. by split. Qed.

Lemma wf_set_region r : zlen r = zlen (region p) → pool_wf (set_region r p).
Proof using Hwf. destruct Hwf. split; cbn; congruence. Qed.

Lemma allocate_Some i free :
  index_fits p → free_list p = vec_push i free →
  allocate p = (Ret (Some (block_handle p i)), set_free_list free p) ∧
  pool_wf (set_free_list free p) ∧ 0 ≤ i < total_blocks p.
Proof using Hwf.
  intros Hfit Hfree. pose proof (wf_free p Hwf) as Hall.
  rewrite Hfree in Hall. apply Forall_app in Hall as [Hall [Hi _]%Forall_cons].
  split; [|split; [by apply wf_set_free_list|done]].
  unfold allocate. munfold. rewrite Hfree, vec_pop_push. unfold block_handle.
  rewrite as_u32_id, as_usize_id; [done| |].
  - by apply block_index_usize.
  - unfold index_fits, is_u32 in *. lia.
Qed.

Lemma allocate_None : free_list p = [] → allocate p = (Ret None, p).
Proof using. intros Hf. unfold allocate. munfold. by rewrite Hf. Qed.

Lemma deallocate_ok h :
  handle_ok p h →
  deallocate h p = (Ret tt, set_free_list (vec_push (bh_block_index h) (free_list p)) p) ∧
  pool_wf (set_free_list (vec_push (bh_block_index h) (free_list p)) p).
Proof using Hwf.
  intros (Hid & Hidx & _). unfold deallocate, assert. munfold.
  rewrite (proj2 (Z.eqb_eq _ _) Hid), (proj2 (Z.ltb_lt _ _) (proj2 Hidx)).
  split; [done|]. apply wf_set_free_list, Forall_app. split; [apply Hwf|by constructor].
Qed.

Lemma get_ptr_ok h : handle_ok p h → get_ptr h p = (Ret (bh_offset h), p).
Proof using Hwf.
  intros (Hid & Hidx & Hoff & _). unfold get_ptr, assert. munfold.
  rewrite (proj2 (Z.eqb_eq _ _) Hid).
  pose proof (block_in_region p _ Hwf Hidx). pose proof (wf_block_size p Hwf).
  rewrite (proj2 (Z.leb_le _ _)) by (rewrite Hoff; lia). done.
Qed.

Lemma handle_in_region h :
  handle_ok p h → 0 ≤ bh_offset h ∧ bh_offset h + block_size p ≤ zlen (region p).
Proof using Hwf. intros (_ & Hidx & -> & _). by apply block_in_region. Qed.

Lemma get_slice_ok h :
  handle_ok p h → get_slice h p = (Ret (slice (bh_offset h) (block_size p) (region p)), p).
Proof using Hwf.
  intros Hh. unfold get_slice. rewrite (bind_Ret _ _ _ _ _ (get_ptr_ok h Hh)). munfold.
  pose proof (handle_in_region h Hh). by rewrite (proj2 (Z.leb_le _ _)) by lia.
Qed.

Lemma get_slice_mut_ok h :
  handle_ok p h → get_slice_mut h p = (Ret (bh_offset h, block_size p), p).
Proof using Hwf.
  intros Hh. unfold get_slice_mut. rewrite (bind_Ret _ _ _ _ _ (get_ptr_ok h Hh)). munfold.
  pose proof (handle_in_region h Hh). by rewrite (proj2 (Z.leb_le _ _)) by lia.
Qed.

(** A computation that keeps the length of its slice keeps the pool well-formed. *)
Lemma with_view_ok {A} off len a b (m : M bytes A) o d :
  0 ≤ off → off + len ≤ zlen (region p) → 0 ≤ a ≤ b → b ≤ len →
  m (slice (off + a) (b - a) (region p)) = (o, d) → zlen d = b - a →
  with_view (off, len) a b m p = (o, set_region (blit (off + a) d (region p)) p) ∧
  pool_wf (set_region (blit (off + a) d (region p)) p).
Proof using Hwf.
  intros ???? Hm Hd. unfold with_view, assert. cbn [fst snd].
  rewrite bool_decide_true by done. munfold. rewrite Hm. split; [by destruct o|].
  apply wf_set_region, zlen_blit; lia.
Qed.

Lemma copy_from_slice_ok src dst :
  zlen dst = zlen src → copy_from_slice src dst = (Ret tt, src).
Proof using.
  intros H. unfold copy_from_slice, assert. munfold. by rewrite (proj2 (Z.eqb_eq _ _) H).
Qed.

Lemma copy_from_slice_mismatch src dst :
  zlen dst ≠ zlen src → copy_from_slice src dst = (Panic, dst).
Proof using.
  intros H. unfold copy_from_slice, assert. munfold. by rewrite (proj2 (Z.eqb_neq _ _) H).
Qed.

Lemma view_copy_ok off len a b src :
  0 ≤ off → off + len ≤ zlen (region p) →
  0 ≤ a ≤ b → b ≤ len → zlen src = b - a →
  view_copy (off, len) a b src p =
    (Ret tt, set_region (blit (off + a) src (region p)) p) ∧
  pool_wf (set_region (blit (off + a) src (region p)) p).
Proof using Hwf.
  intros ?????. apply with_view_ok; [done..| |done].
  apply copy_from_slice_ok. rewrite zlen_slice; lia.
Qed.

(** Whatever the arguments, [view_copy] on a block keeps the pool well-formed. *)
Lemma view_copy_wf off len a b src o p' :
  0 ≤ off → off + len ≤ zlen (region p) →
  view_copy (off, len) a b src p = (o, p') → pool_wf p' ∧ same_geometry p p' ∧ free_list p' = free_list p.
Proof using Hwf.
  intros Hoff Hlen Hv.
  destruct (decide (0 ≤ a ≤ b ∧ b ≤ len)) as [[Hab Hb]|Hn].
  - destruct (decide (zlen src = b - a)) as [Hs|Hs].
    + destruct (view_copy_ok off len a b src) as [Heq Hwf']; [done..|].
      rewrite Heq in Hv. simplify_eq. auto with rust.
    + assert (zlen (slice (off + a) (b - a) (region p)) = b - a) as Hsl
        by (apply zlen_slice; lia).
      destruct (with_view_ok off len a b (copy_from_slice src) Panic
        (slice (off + a) (b - a) (region p))) as [Heq Hwf']; [done..| |done|].
      { apply copy_from_slice_mismatch. lia. }
      unfold view_copy in Hv. rewrite Heq in Hv. simplify_eq. auto with rust.
  - unfold view_copy, with_view, assert in Hv. cbn [fst snd] in Hv.
    rewrite bool_decide_false in Hv by done. revert Hv. munfold. intros [= <- <-].
    split; [done|]. split; [reflexivity|done].
Qed.

Lemma pool_stats_owns live :
  owns p live →
  pool_stats p = (Ret {| ps_total_blocks := total_blocks p;
                         ps_used_blocks := zlen live;
                         ps_free_blocks := total_blocks p - zlen live;
                         ps_total_bytes := total_size p;
                         ps_used_bytes := zlen live * block_size p |}, p).
Proof using Hwf.
  intros Ho. pose proof (owns_length p live Ho) as Hl.
  pose proof (zlen_nonneg live). pose proof (zlen_nonneg (free_list p)).
  assert (zlen live * block_size p ≤ total_size p).
  { rewrite <-(wf_total_size p Hwf). apply Z.mul_le_mono_nonneg_r; destruct Hwf; lia. }
  unfold pool_stats. munfold. pose proof (wf_total_blocks p Hwf).
  replace (zlen (free_list p)) with (total_blocks p - zlen live) by lia.
  replace (Z.max 0 (total_blocks p - (total_blocks p - zlen live))) with (zlen live) by lia.
  rewrite as_usize_id; [done|]. destruct Hwf. unfold is_usize, is_u64 in *. nia.
Qed.
End operations.

(** Popping the stack moves its top from the free indices to the live ones. *)
Lemma owns_pop p live i free :
  owns p live → free_list p = vec_push i free → owns (set_free_list free p) (i :: live).
Proof.
  unfold owns, vec_push. intros Ho Hf. rewrite <-Ho, Hf. cbn.
  rewrite <-app_assoc. done.
Qed.

Lemma owns_push p live i live' :
  owns p live → live ≡ₚ i :: live' →
  owns (set_free_list (vec_push i (free_list p)) p) live'.
Proof.
  unfold owns, vec_push. intros Ho Hl. cbn. rewrite <-Ho, Hl, <-app_assoc. done.
Qed.

(** ** The pool under an arbitrary client

    A client keeps the handles it was given, returns each at most once and
    writes only through handles it still holds. *)
Definition client := (MemoryPool * list BlockHandle)%type.

Inductive pool_step : client → client → Prop :=
  | step_allocate p live h p' :
      allocate p = (Ret (Some h), p') → pool_step (p, live) (p', h :: live)
  | step_exhausted p live p' :
      allocate p = (Ret None, p') → pool_step (p, live) (p', live)
  | step_deallocate p l1 h l2 o p' :
      deallocate h p = (o, p') → pool_step (p, l1 ++ h :: l2) (p', l1 ++ l2)
  | step_write p live h view a b src o p1 p2 :
      h ∈ live → get_slice_mut h p = (Ret view, p1) → view_copy view a b src p1 = (o, p2) →
      pool_step (p, live) (p2, live).

Record client_inv (c : client) : Prop := {
  ci_wf : pool_wf c.1;
  ci_fits : index_fits c.1;
  ci_owns : owns c.1 (bh_block_index <$> c.2);
  ci_handles : Forall (handle_ok c.1) c.2;
}.

Lemma pool_new_Ok mmap t b id p id' :
  pool_new mmap t b id = (Ret (Ok p), id') →
  b ≠ 0 ∧ t ≠ 0 ∧ t mod b = 0 ∧ id' = as_u32 (id + 1) ∧
  ∃ base, mmap t = Some base ∧ p = mkMemoryPool id base t b (t / b) (seqZ 0 (t / b)).
Proof.
  unfold pool_new. munfold.
  destruct (Z.eqb_spec b 0); [done|]. destruct (Z.eqb_spec t 0); [done|].
  destruct (Z.eqb_spec (t mod b) 0); [|done].
  destruct (mmap t) as [base|]; [|done]. naive_solver.
Qed.

Lemma pool_new_wf mmap t b id p id' :
  is_usize t → 0 ≤ b → (∀ m, mmap t = Some m → zlen m = t) →
  pool_new mmap t b id = (Ret (Ok p), id') → pool_wf p ∧ owns p [].
Proof.
  intros Ht Hb Hmmap (Hb0 & Ht0 & Hm & -> & base & Hbase & ->)%pool_new_Ok.
  unfold is_usize, is_u64 in Ht. pose proof (Z.div_mod t b Hb0). split.
  - split; cbn; [lia|nia|lia|done|by apply Hmmap|].
    apply Forall_forall. intros i Hi%elem_of_seqZ. lia.
  - unfold owns. cbn. by rewrite app_nil_r.
Qed.

Lemma client_inv_geometry p q live :
  same_geometry p q → pool_wf q → owns q (bh_block_index <$> live) →
  index_fits p → Forall (handle_ok p) live → client_inv (q, live).
Proof.
  intros Hg Hwf Ho Hf Hh. split; [done| |done|]; cbn.
  - unfold index_fits in *. destruct Hg as (_ & _ & _ & <-). done.
  - eapply Forall_impl; [done|]. intros h. by apply handle_ok_geometry.
Qed.

Lemma pool_step_inv c c' : pool_step c c' → client_inv c → client_inv c'.
Proof.
  intros Hstep [Hwf Hfit Ho Hh]. destruct Hstep as
    [p live h p' Ha|p live p' Ha|p l1 h l2 o p' Hd|p live h view a b src o p1 p2 Hl Hg Hv]; cbn in *.
  - destruct (free_list p) as [|i free _] eqn:Hf using rev_ind.
    { rewrite (allocate_None p Hf) in Ha. done. }
    destruct (allocate_Some p Hwf i free Hfit Hf) as (Heq & Hwf' & Hi).
    rewrite Heq in Ha. simplify_eq.
    apply (client_inv_geometry p); [auto with rust|done| |done|auto with rust].
    by apply owns_pop.
  - destruct (free_list p) as [|i free _] eqn:Hf using rev_ind.
    { rewrite (allocate_None p Hf) in Ha. by simplify_eq. }
    destruct (allocate_Some p Hwf i free Hfit Hf) as (Heq & _).
    rewrite Heq in Ha. simplify_eq.
  - apply Forall_app in Hh as [Hh1 [Hh Hh2]%Forall_cons].
    destruct (deallocate_ok p Hwf h Hh) as [Heq Hwf'].
    rewrite Heq in Hd. simplify_eq.
    apply (client_inv_geometry p); [auto with rust|done| |done|by apply Forall_app].
    eapply owns_push; [done|]. rewrite !fmap_app, fmap_cons.
    symmetry. apply Permutation_middle.
  - pose proof (proj1 (Forall_forall _ _) Hh h Hl) as Hok.
    rewrite (get_slice_mut_ok p Hwf h Hok) in Hg. simplify_eq.
    pose proof (handle_in_region p1 Hwf h Hok) as [??].
    destruct (view_copy_wf p1 Hwf _ _ _ _ _ _ _ ltac:(done) ltac:(done) Hv) as (Hwf' & Hgeo & Hfree).
    apply (client_inv_geometry p1); [done|done| |done|done].
    unfold owns in *. destruct Hgeo as (_ & _ & _ & <-). by rewrite Hfree.
Qed.

Lemma pool_reachable_inv c c' : rtc pool_step c c' → client_inv c → client_inv c'.
Proof. induction 1; eauto using pool_step_inv. Qed.

Lemma pool_new_client mmap t b id p id' :
  is_usize t → 0 ≤ b → (∀ m, mmap t = Some m → zlen m = t) → t / b ≤ 2 ^ 32 →
  pool_new mmap t b id = (Ret (Ok p), id') → client_inv (p, []).
Proof.
  intros Ht Hb Hm Hf Hnew. destruct (pool_new_wf _ _ _ _ _ _ Ht Hb Hm Hnew).
  split; [done| |done|done]. cbn. unfold index_fits.
  apply pool_new_Ok in Hnew as (_ & _ & _ & _ & base & _ & ->). done.
Qed.

(** ** Properties *)

(** An [mmap] that always succeeds with a zeroed region. *)
Definition zero_mmap (n : Z) : option bytes := Some (replicate (Z.to_nat n) 0).

Lemma zero_mmap_len n m : 0 ≤ n → zero_mmap n = Some m → zlen m = n.
Proof. intros ? [= <-]. unfold zlen. rewrite length_replicate. lia. Qed.

(** [MemoryPool::new] returns [ZeroBlockSize] exactly for a zero block size,
    [InvalidSize] (echoing both sizes) exactly when the total is zero or not a
    multiple, [MmapFailed] exactly when the mapping fails on valid sizes; otherwise
    a well-formed pool with every block free and the next pool id.  The id counter
    moves only on success. *)
Theorem pool_new_branches mmap t b id
    (Ht : is_usize t) (Hb : is_usize b)
    (Hmmap : ∀ m, mmap t = Some m → zlen m = t) :
  match pool_new mmap t b id with
  | (Ret (Ok p), id') =>
      0 < b ∧ 0 < t ∧ (b | t) ∧ pool_wf p ∧ owns p [] ∧
      pool_id p = id ∧ total_size p = t ∧ block_size p = b ∧ id' = as_u32 (id + 1)
  | (Ret (Err ZeroBlockSize), id') => b = 0 ∧ id' = id
  | (Ret (Err (InvalidSize t' b')), id') =>
      t' = t ∧ b' = b ∧ b ≠ 0 ∧ (t = 0 ∨ ¬ (b | t)) ∧ id' = id
  | (Ret (Err MmapFailed), id') => 0 < b ∧ 0 < t ∧ (b | t) ∧ mmap t = None ∧ id' = id
  | _ => False
  end.
Proof.
  destruct (pool_new mmap t b id) as [o id'] eqn:Hnew.
  destruct o as [[p|e]| | |]; try (unfold pool_new in Hnew; revert Hnew; munfold;
    repeat case_match; intros; simplify_eq; done).
  - destruct (pool_new_wf _ _ _ _ _ _ Ht (proj1 Hb) Hmmap Hnew) as [Hwf Ho].
    apply pool_new_Ok in Hnew as (? & ? & Hm & -> & base & ? & ->).
    unfold is_usize, is_u64 in *. apply Z.mod_divide in Hm; [|done]. intuition lia.
  - unfold pool_new in Hnew. revert Hnew. munfold. unfold is_usize, is_u64 in *.
    destruct (Z.eqb_spec b 0); [by intros [= <- <-]|].
    pose proof (Z.mod_divide t b ltac:(done)) as Hdiv.
    destruct (Z.eqb_spec t 0); [intros [= <- <-]; naive_solver|].
    destruct (Z.eqb_spec (t mod b) 0); [|intros [= <- <-]; naive_solver].
    destruct (mmap t); intros [= <- <-]. intuition lia.
Qed.

(** A small pool of four 32-byte blocks, for concrete runs. *)
Definition pool4 : MemoryPool :=
  mkMemoryPool 0 (replicate 128 0) 128 32 4 (seqZ 0 4).

Lemma pool4_new : pool_new zero_mmap 128 32 0 = (Ret (Ok pool4), 1).
Proof. vm_compute. reflexivity. Qed.

Lemma pool4_usize : is_usize 128 ∧ is_usize 32.
Proof. unfold is_usize, is_u64. lia. Qed.

Lemma pool4_mmap m : zero_mmap 128 = Some m → zlen m = 128.
Proof. apply zero_mmap_len. lia. Qed.

Lemma pool_new_branches_witness : pool_wf pool4 ∧ owns pool4 [].
Proof.
  pose proof (pool_new_branches zero_mmap 128 32 0
    (proj1 pool4_usize) (proj2 pool4_usize) pool4_mmap) as H.
  rewrite pool4_new in H. destruct H as (_ & _ & _ & Hwf & Ho & _).
  exact (conj Hwf Ho).
Defined.

(** For every client that returns each handle at most once, at every moment the
    statistics count exactly the live handles, the used bytes never overflow, and
    [allocate] reports exhaustion exactly when every block is live. *)
Theorem pool_accounting mmap t b id p0 id' p live
    (Ht : is_usize t) (Hb : is_usize b)
    (Hmmap : ∀ m, mmap t = Some m → zlen m = t)
    (Hfit : t / b ≤ 2 ^ 32)
    (Hnew : pool_new mmap t b id = (Ret (Ok p0), id'))
    (Hreach : rtc pool_step (p0, []) (p, live)) :
  pool_stats p = (Ret {| ps_total_blocks := total_blocks p;
                         ps_used_blocks := zlen live;
                         ps_free_blocks := total_blocks p - zlen live;
                         ps_total_bytes := total_size p;
                         ps_used_bytes := zlen live * block_size p |}, p) ∧
  ((∃ p', allocate p = (Ret None, p')) ↔ zlen live = total_blocks p).
Proof.
  destruct (pool_reachable_inv _ _ Hreach (pool_new_client _ _ _ _ _ _ Ht (proj1 Hb) Hmmap Hfit Hnew))
    as [Hwf Hf Ho _]; cbn in *.
  pose proof (pool_stats_owns p Hwf _ Ho) as Hs. unfold zlen in *. rewrite length_fmap in Hs.
  split; [done|]. pose proof (owns_length _ _ Ho) as Hl. unfold zlen in Hl.
  rewrite length_fmap in Hl. pose proof (wf_total_blocks p Hwf).
  destruct (free_list p) as [|i free _] eqn:Hfl using rev_ind.
  - rewrite (allocate_None p Hfl). cbn in Hl. split; [lia|eauto].
  - destruct (allocate_Some p Hwf i free Hf Hfl) as (-> & _ & _).
    rewrite length_app in Hl. cbn in Hl. split; [by intros [? ?]|lia].
Qed.

Lemma pool4_reach :
  rtc pool_step (pool4, []) (set_free_list [0; 1; 2] pool4, [block_handle pool4 3]).
Proof. apply rtc_once, step_allocate. vm_compute. reflexivity. Qed.

Lemma pool_accounting_witness :
  (pool_stats (set_free_list [0; 1; 2] pool4)).1 =
    Ret {| ps_total_blocks := 4; ps_used_blocks := 1; ps_free_blocks := 3;
           ps_total_bytes := 128; ps_used_bytes := 32 |}.
Proof.
  destruct (pool_accounting zero_mmap 128 32 0 pool4 1 _ _
    (proj1 pool4_usize) (proj2 pool4_usize) pool4_mmap ltac:(vm_compute; discriminate)
    pool4_new pool4_reach) as [-> _].
  vm_compute. reflexivity.
Defined.

(** C8: For every such client, any two live handles denote disjoint ranges inside the
    mapping; reading, obtaining a mutable view of, and deallocating a live handle
    neither panics nor leaves the mapping. *)
Theorem pool_handles_safe mmap t b id p0 id' p live
    (Ht : is_usize t) (Hb : is_usize b)
    (Hmmap : ∀ m, mmap t = Some m → zlen m = t)
    (Hfit : t / b ≤ 2 ^ 32)
    (Hnew : pool_new mmap t b id = (Ret (Ok p0), id'))
    (Hreach : rtc pool_step (p0, []) (p, live)) :
  (∀ i j hi hj, live !! i = Some hi → live !! j = Some hj → i ≠ j →
     bh_offset hi + block_size p ≤ bh_offset hj ∨ bh_offset hj + block_size p ≤ bh_offset hi) ∧
  (∀ h, h ∈ live →
     0 ≤ bh_offset h ∧ bh_offset h + bh_size h ≤ zlen (region p) ∧
     get_slice h p = (Ret (slice (bh_offset h) (block_size p) (region p)), p) ∧
     get_slice_mut h p = (Ret (bh_offset h, block_size p), p) ∧
     ∃ p', deallocate h p = (Ret tt, p')).
Proof.
  destruct (pool_reachable_inv _ _ Hreach (pool_new_client _ _ _ _ _ _ Ht (proj1 Hb) Hmmap Hfit Hnew))
    as [Hwf Hf Ho Hh]; cbn in *. rewrite Forall_forall in Hh. split.
  - intros i j hi hj Hi Hj Hij.
    destruct (Hh hi) as (_ & _ & -> & _); [by eapply list_elem_of_lookup_2|].
    destruct (Hh hj) as (_ & _ & -> & _); [by eapply list_elem_of_lookup_2|].
    apply blocks_disjoint; [done|]. intros Heq. apply Hij.
    apply owns_NoDup, NoDup_app in Ho as (_ & _ & Hnd).
    eapply (NoDup_lookup _ i j (bh_block_index hi)); [done| |]; rewrite list_lookup_fmap;
      [by rewrite Hi|rewrite Hj; cbn; by rewrite Heq].
  - intros h Hl. specialize (Hh h Hl).
    pose proof (handle_in_region p Hwf h Hh). destruct (deallocate_ok p Hwf h Hh) as [-> _].
    pose proof Hh as (_ & _ & _ & ->).
    rewrite (get_slice_ok p Hwf h Hh), (get_slice_mut_ok p Hwf h Hh). naive_solver.
Qed.

Lemma pool_handles_safe_witness :
  (get_slice (block_handle pool4 3) (set_free_list [0; 1; 2] pool4)).1 = Ret (replicate 32 0).
Proof.
  destruct (pool_handles_safe zero_mmap 128 32 0 pool4 1 _ _
    (proj1 pool4_usize) (proj2 pool4_usize) pool4_mmap ltac:(vm_compute; discriminate)
    pool4_new pool4_reach) as [_ H].
  destruct (H (block_handle pool4 3)) as (_ & _ & -> & _); [apply list_elem_of_here|].
  vm_compute. reflexivity.
Defined.

(** Writing through one live handle changes exactly the written range of that block:
    the block itself reads back as the old bytes with the source copied in, and every
    other live block reads as before. *)
Theorem pool_write_isolated p live h h' a b src
    (Hinv : client_inv (p, live)) (Hh : h ∈ live) (Hh' : h' ∈ live)
    (Hne : bh_block_index h ≠ bh_block_index h')
    (Hab : 0 ≤ a ≤ b ∧ b ≤ block_size p ∧ zlen src = b - a) :
  ∃ p', (view ← get_slice_mut h; view_copy view a b src) p = (Ret tt, p') ∧
    client_inv (p', live) ∧
    get_slice h p' = (Ret (blit a src (slice (bh_offset h) (block_size p) (region p))), p') ∧
    (get_slice h' p').1 = (get_slice h' p).1.
Proof.
  pose proof Hinv as [Hwf Hf Ho Hall]; cbn in *. rewrite Forall_forall in Hall.
  pose proof (Hall h Hh) as Hok. pose proof (Hall h' Hh') as Hok'.
  pose proof (handle_in_region p Hwf h Hok) as [??].
  pose proof (handle_in_region p Hwf h' Hok') as [??].
  destruct Hab as (? & ? & Hlen).
  destruct (view_copy_ok p Hwf (bh_offset h) (block_size p) a b src) as [Hv Hwf']; [done..|].
  set (p' := set_region _ p) in *. exists p'.
  assert ((view ← get_slice_mut h; view_copy view a b src) p = (Ret tt, p')) as Hrun.
  { by rewrite (bind_Ret _ _ _ _ _ (get_slice_mut_ok p Hwf h Hok)). }
  assert (same_geometry p p') as Hg by apply same_geometry_region.
  split; [done|]. split.
  { eapply pool_step_inv; [|exact Hinv]. eapply (step_write _ _ h); [done| |exact Hv].
    by apply get_slice_mut_ok. }
  rewrite (get_slice_ok p' Hwf' h (handle_ok_geometry p p' h Hg Hok)).
  rewrite (get_slice_ok p' Hwf' h' (handle_ok_geometry p p' h' Hg Hok')).
  rewrite (get_slice_ok p Hwf h' Hok'). cbn. split.
  - rewrite slice_blit_within by lia. done.
  - f_equal. apply slice_blit_disjoint; [lia|lia|lia|].
    destruct Hok as (_ & _ & Hoff & _), Hok' as (_ & _ & Hoff' & _).
    destruct (blocks_disjoint p _ _ Hwf Hne); [right|left]; lia.
Qed.

Lemma pool4_client2 :
  client_inv (set_free_list [0; 1] pool4, [block_handle pool4 2; block_handle pool4 3]).
Proof.
  apply (pool_reachable_inv (pool4, [])).
  - eapply rtc_l; [apply step_allocate; vm_compute; reflexivity|].
    eapply rtc_l; [apply step_allocate; vm_compute; reflexivity|]. apply rtc_refl.
  - exact (pool_new_client _ _ _ _ _ _ (proj1 pool4_usize) (proj1 (proj2 pool4_usize))
      pool4_mmap ltac:(vm_compute; discriminate) pool4_new).
Qed.

Lemma pool_write_isolated_witness :
  ∃ p', (get_slice (block_handle pool4 2) p').1 = Ret (replicate 32 0) ∧
        get_slice (block_handle pool4 3) p' = (Ret ([0; 7; 8] ++ replicate 29 0), p').
Proof.
  destruct (pool_write_isolated _ _ (block_handle pool4 3) (block_handle pool4 2) 1 3 [7; 8]
    pool4_client2) as (p' & _ & _ & Hs & Hs').
  - apply list_elem_of_further, list_elem_of_here.
  - apply list_elem_of_here.
  - vm_compute. discriminate.
  - vm_compute. repeat split; discriminate.
  - exists p'. rewrite Hs, Hs'. vm_compute. split; reflexivity.
Defined.

(** Deallocating the same handle twice makes the next two [allocate] calls return
    that same handle, and [stats] then reports one block too few in use (saturating). *)
Theorem pool_double_free p live h
    (Hinv : client_inv (p, live)) (Hh : h ∈ live) :
  ∃ p1 p2 p3 p4,
    (deallocate h;; deallocate h) p = (Ret tt, p1) ∧
    allocate p1 = (Ret (Some h), p2) ∧ allocate p2 = (Ret (Some h), p3) ∧
    pool_stats p1 = (Ret p4, p1) ∧
    ps_free_blocks p4 = total_blocks p - zlen live + 2 ∧
    ps_used_blocks p4 = Z.max 0 (zlen live - 2).
Proof.
  destruct Hinv as [Hwf Hf Ho Hall]; cbn in *. rewrite Forall_forall in Hall.
  pose proof (Hall h Hh) as Hok. set (i := bh_block_index h).
  destruct (deallocate_ok p Hwf h Hok) as [Hd1 Hwf1].
  set (p1 := set_free_list _ p) in *.
  assert (same_geometry p p1) as Hg1 by apply same_geometry_free.
  pose proof (handle_ok_geometry _ _ _ Hg1 Hok) as Hok1.
  destruct (deallocate_ok p1 Hwf1 h Hok1) as [Hd2 Hwf2].
  set (p2 := set_free_list _ p1) in *.
  destruct (allocate_Some p2 Hwf2 i (free_list p1) Hf eq_refl) as (Ha1 & Hwf3 & _).
  destruct (allocate_Some _ Hwf3 i (free_list p) Hf eq_refl) as (Ha2 & _ & _).
  exists p2. do 3 eexists. split_and!.
  - by rewrite (bind_Ret _ _ _ _ _ Hd1).
  - rewrite Ha1. by rewrite (handle_ok_inv p h Hok) at 1.
  - rewrite Ha2. by rewrite (handle_ok_inv p h Hok) at 1.
  - reflexivity.
  - cbn. pose proof (owns_length _ _ Ho) as Hl. pose proof (wf_total_blocks p Hwf).
    unfold zlen, vec_push in *. rewrite length_fmap in Hl. rewrite !length_app. cbn. lia.
  - cbn. pose proof (owns_length _ _ Ho) as Hl. pose proof (wf_total_blocks p Hwf).
    unfold zlen, vec_push in *. rewrite length_fmap in Hl. rewrite !length_app. cbn. lia.
Qed.

Lemma pool_double_free_witness :
  ∃ p1 p2 p3, allocate p1 = (Ret (Some (block_handle pool4 2)), p2) ∧
              allocate p2 = (Ret (Some (block_handle pool4 2)), p3).
Proof.
  destruct (pool_double_free _ _ (block_handle pool4 2) pool4_client2)
    as (p1 & p2 & p3 & _ & _ & H1 & H2 & _); [apply list_elem_of_here|].
  exists p1, p2, p3. exact (conj H1 H2).
Defined.

Lemma seqZ_snoc n : 0 < n → seqZ 0 n = vec_push (n - 1) (seqZ 0 (n - 1)).
Proof.
  intros Hn. unfold vec_push. replace n with ((n - 1) + 1) at 1 by lia.
  rewrite seqZ_app by lia. f_equal.
Qed.

(** In a pool of more than 2^32 blocks the [u32] cast of [allocate] truncates the
    index: the very first handle carries an index that does not match its offset, and
    one correct deallocation of it leaves a free list with a duplicate, so that one
    block can be handed out twice. *)
Theorem pool_index_truncation mmap t b id p id'
    (Ht : is_usize t) (Hb : is_usize b)
    (Hmmap : ∀ m, mmap t = Some m → zlen m = t)
    (Hnew : pool_new mmap t b id = (Ret (Ok p), id'))
    (Hbig : 2 ^ 32 < t / b) :
  ∃ h p1 p2,
    allocate p = (Ret (Some h), p1) ∧
    bh_offset h ≠ bh_block_index h * block_size p ∧
    deallocate h p1 = (Ret tt, p2) ∧ ¬ NoDup (free_list p2).
Proof.
  pose proof (pool_new_wf _ _ _ _ _ _ Ht (proj1 Hb) Hmmap Hnew) as [Hwf _].
  apply pool_new_Ok in Hnew as (Hb0 & _ & _ & _ & base & _ & ->).
  set (n := t / b) in *. pose proof (as_u32_range (n - 1)) as Hr. unfold is_u32 in Hr.
  pose proof (block_index_usize _ (n - 1) Hwf) as Hu. cbn in Hu.
  destruct Hwf as [Hbs _ _ _ _ _]. cbn in Hbs.
  unfold allocate, deallocate, assert. munfold. cbn [free_list].
  rewrite (seqZ_snoc n) by lia. rewrite vec_pop_push.
  do 3 eexists. split; [reflexivity|]. cbn. rewrite Z.eqb_refl.
  rewrite (proj2 (Z.ltb_lt _ _)) by lia. rewrite as_usize_id by (apply Hu; lia).
  split; [|split; [reflexivity|]].
  - intros Heq%Z.mul_reg_r; lia.
  - cbn. unfold vec_push. intros (_ & Hd & _)%NoDup_app.
    apply (Hd (as_u32 (n - 1))); [|apply list_elem_of_here].
    apply elem_of_seqZ. lia.
Qed.

Lemma pool_index_truncation_witness :
  ∃ p h p1 p2, allocate p = (Ret (Some h), p1) ∧ deallocate h p1 = (Ret tt, p2) ∧
    ¬ NoDup (free_list p2).
Proof.
  assert (is_usize (2 ^ 33)) as Ht by (unfold is_usize, is_u64; lia).
  assert (is_usize 1) as Hb by (unfold is_usize, is_u64; lia).
  destruct (pool_index_truncation zero_mmap (2 ^ 33) 1 0 _ _ Ht Hb
    (λ m, zero_mmap_len (2 ^ 33) m ltac:(lia)) eq_refl ltac:(rewrite Z.div_1_r; lia))
    as (h & p1 & p2 & Ha & _ & Hd & Hn).
  exact (ex_intro _ _ (ex_intro _ h (ex_intro _ p1 (ex_intro _ p2 (conj Ha (conj Hd Hn)))))).
Defined.
