(* ===== verification/Pools.v ===== *)
(** * Pools in a process: creation, drop and foreign handles (crates/cmx-memory/src/pool.rs)

    [MemoryPool::new] maps memory and takes an id from the process-wide counter
    [NEXT_POOL_ID]; [Drop] gives the mapping back.  Handles are plain data, so a process can
    present a handle to a pool that did not issue it, or keep it after its pool is gone.
    This file puts pools with their clients into one process over an interface for the
    virtual memory of the operating system, and shows that pools are isolated from each
    other and that the process keeps exactly the mappings of its live pools. *)
From S2P Require Import Prelude Pool.
From stdpp Require Import gmap.
Local Open Scope Z_scope.

(** ** The virtual memory of the process *)

(** [mmap] of anonymous memory answers the address and the contents of the new mapping, or
    [MAP_FAILED]; [munmap] answers its return code.  [vm_views] are the mappings there are,
    as address and length. *)
Class Vm (O : Type) := {
  vm_mmap : Z → M O (option (Z * bytes));
  vm_munmap : Z → Z → M O Z;
  vm_views : O → gset (Z * Z);
}.

(** The address ranges do not overlap. *)
Definition apart (v w : Z * Z) : Prop := v.1 + v.2 ≤ w.1 ∨ w.1 + w.2 ≤ v.1.

Fixpoint all_apart (l : list (Z * Z)) : Prop :=
  match l with [] => True | v :: l => Forall (apart v) l ∧ all_apart l end.

(** What mmap(2) documents: a new mapping lies in the address space, beside the existing
    ones, a failed call maps nothing, and unmapping a mapping removes it and no other. *)
Class VmOk (O : Type) `{!Vm O} : Prop := {
  mmap_spec n o : 0 < n → ∃ r o', vm_mmap n o = (Ret r, o') ∧
    match r with
    | None => vm_views o' = vm_views o
    | Some (base, content) =>
        zlen content = n ∧ 0 < base ∧ base + n ≤ 2 ^ 64 ∧
        (∀ v, v ∈ vm_views o → apart (base, n) v) ∧ vm_views o' = {[(base, n)]} ∪ vm_views o
    end;
  munmap_spec base n o : (base, n) ∈ vm_views o → ∃ o',
    vm_munmap base n o = (Ret 0, o') ∧ vm_views o' = vm_views o ∖ {[(base, n)]};
}.

Section process.
Context {O : Type} `{!Vm O}.

(** A pool with the address of its mapping, the field [base_ptr]. *)
Record Mapped := mkMapped { base_ptr : Z; the_pool : MemoryPool }.

(** [MemoryPool::new] in the process: the state is its memory and [NEXT_POOL_ID]. *)
Definition mapped_new (total_size block_size : Z) : M (O * Z) (result Mapped PoolError) :=
  if block_size =? 0 then mret (Err ZeroBlockSize)
  else if (total_size =? 0) || negb (total_size mod block_size =? 0) then
    mret (Err (InvalidSize total_size block_size))
  else
    mapping ← zoom fst (λ o s, (o, s.2)) (vm_mmap total_size);
    match mapping with
    | None => mret (Err MmapFailed)
    | Some (base, content) =>
        p ← zoom snd (λ id s, (s.1, id)) (pool_new (λ _, Some content) total_size block_size);
        mret (match p with Ok p => Ok (mkMapped base p) | Err e => Err e end)
    end.

(** [Drop for MemoryPool]: a failure of [munmap] is only logged. *)
Definition mapped_drop (m : Mapped) : M O unit :=
  ret ← vm_munmap (base_ptr m) (total_size (the_pool m)); mret tt.

(** ** A process with any number of pools and their clients

    A pool comes with the handles its client holds.  [pr_created] counts the pools created so
    far and [pr_stale] are the handles whose pool is gone; neither is known to the code. *)
Record process := mkProcess {
  pr_vm : O;
  pr_next_pool_id : Z;
  pr_pools : list (Mapped * list BlockHandle);
  pr_created : Z;
  pr_stale : list BlockHandle;
}.

Inductive proc_step : process → process → Prop :=
  | proc_new o id o' id' pools n stale t b m :
      is_usize t → is_usize b → t / b ≤ 2 ^ 32 →
      mapped_new t b (o, id) = (Ret (Ok m), (o', id')) →
      proc_step (mkProcess o id pools n stale) (mkProcess o' id' (pools ++ [(m, [])]) (n + 1) stale)
  | proc_new_fails o id o' id' pools n stale t b e :
      mapped_new t b (o, id) = (Ret (Err e), (o', id')) → is_usize t → is_usize b →
      proc_step (mkProcess o id pools n stale) (mkProcess o' id' pools n stale)
  | proc_client o id l1 base p hs p' hs' l2 n stale :
      pool_step (p, hs) (p', hs') →
      proc_step (mkProcess o id (l1 ++ (mkMapped base p, hs) :: l2) n stale)
                (mkProcess o id (l1 ++ (mkMapped base p', hs') :: l2) n stale)
  | proc_drop o id l1 m hs l2 n stale o' :
      mapped_drop m o = (Ret tt, o') →
      proc_step (mkProcess o id (l1 ++ (m, hs) :: l2) n stale)
                (mkProcess o' id (l1 ++ l2) n (hs ++ stale)).

(** A process at its start, before any pool. *)
Definition fresh_process (o : O) : process := mkProcess o 0 [] 0 [].

(** The mapping of a pool, the ids of the live pools. *)
Definition view_of (m : Mapped) : Z * Z := (base_ptr m, total_size (the_pool m)).
Definition views_of (pools : list (Mapped * list BlockHandle)) : list (Z * Z) := view_of ∘ fst <$> pools.
Definition ids_of (pools : list (Mapped * list BlockHandle)) : list Z := pool_id ∘ the_pool ∘ fst <$> pools.

(** A handle a pool does not accept: every method panics and changes nothing. *)
Definition refused (h : BlockHandle) (p : MemoryPool) : Prop :=
  deallocate h p = (Panic, p) ∧ get_ptr h p = (Panic, p) ∧
  get_slice h p = (Panic, p) ∧ get_slice_mut h p = (Panic, p).

(** ** Invariant *)
Record proc_inv (before : gset (Z * Z)) (c : process) : Prop := {
  pi_next : pr_next_pool_id c = as_u32 (pr_created c);
  pi_clients : Forall (λ x, client_inv (the_pool x.1, x.2)) (pr_pools c);
  pi_ids : Forall (λ i, 0 ≤ i < pr_created c) (ids_of (pr_pools c));
  pi_distinct : NoDup (ids_of (pr_pools c));
  pi_stale : Forall (λ h, 0 ≤ bh_pool_id h < pr_created c ∧ bh_pool_id h ∉ ids_of (pr_pools c)) (pr_stale c);
  pi_apart : all_apart (views_of (pr_pools c));
  pi_views : vm_views (pr_vm c) = list_to_set (views_of (pr_pools c)) ∪ before;
  pi_fresh : ∀ v, v ∈ views_of (pr_pools c) → v ∉ before;
}.
End process.
Arguments process : clear implicits.

Lemma apart_sym v w : apart v w → apart w v.
Proof. unfold apart. lia. Qed.

Global Instance all_apart_perm : Proper (Permutation ==> iff) all_apart.
Proof.
  assert (∀ l k, l ≡ₚ k → all_apart l → all_apart k) as Hp; [|by split; apply Hp].
  intros l k Hlk. induction Hlk as [|v l k Hlk IH|v w l|l k m _ IH1 _ IH2]; cbn; [done| | |tauto].
  - intros [Hv Hl]. split; [by rewrite <-Hlk|by apply IH].
  - rewrite !Forall_cons. intros ([Hvw Hv] & Hw & Hl). split; [|done]. split; [by apply apart_sym|done].
Qed.

Lemma all_apart_lookup l i j v w :
  all_apart l → l !! i = Some v → l !! j = Some w → i ≠ j → apart v w.
Proof.
  revert i j. induction l as [|x l IH]; intros i j; [done|].
  intros [Hx Hl]. destruct i as [|i], j as [|j]; cbn; try done.
  - intros [= <-] Hj _. by eapply Forall_lookup_1.
  - intros Hi [= <-] _. apply apart_sym. by eapply Forall_lookup_1.
  - intros Hi Hj Hij. eapply IH; eauto.
Qed.

Lemma drop_view (v : Z * Z) (l : list (Z * Z)) (before : gset (Z * Z)) :
  v ∉ l → v ∉ before →
  (list_to_set (v :: l) ∪ before) ∖ {[v]} = (list_to_set l ∪ before : gset (Z * Z)).
Proof. intros Hl Hb. apply set_eq. intros w. rewrite elem_of_difference. set_solver. Qed.

(** ** One pool *)

Lemma refused_foreign h p : bh_pool_id h ≠ pool_id p → refused h p.
Proof.
  intros Hne%Z.eqb_neq. unfold refused, get_slice, get_slice_mut, deallocate, get_ptr, assert. munfold.
  by rewrite Hne.
Qed.

Lemma pool_step_geometry c c' : pool_step c c' → same_geometry c.1 c'.1.
Proof.
  assert (∀ view a b src, preserves same_geometry (view_copy view a b src)) as Hcopy.
  { intros view a b src. apply (preserves_bind _); [apply (preserves_assert _)|]. intros _.
    apply preserves_zoom. auto with rust. }
  intros Hstep. destruct Hstep as
    [p live h p' Ha|p live p' Ha|p l1 h l2 o p' Hd|p live h view a b src o p1 p2 _ Hg Hv]; cbn.
  - revert Ha. unfold allocate. munfold. destruct (vec_pop _) as [[i free]|]; by intros [= _ <-].
  - revert Ha. unfold allocate. munfold. destruct (vec_pop _) as [[i free]|]; by intros [= <-].
  - revert Hd. unfold deallocate, assert. munfold.
    repeat case_match; intros; by simplify_eq.
  - transitivity p1; [|pose proof (Hcopy view a b src p1) as Hp; by rewrite Hv in Hp].
    revert Hg. unfold get_slice_mut, get_ptr, assert. munfold.
    repeat case_match; intros; by simplify_eq.
Qed.

Section pools.
Context {O : Type} `{!Vm O} `{!VmOk O}.
Implicit Types (o : O) (c : process O) (pools : list (Mapped * list BlockHandle)).

Lemma mapped_new_Ok t b o id m o' id' :
  is_usize t → is_usize b → mapped_new t b (o, id) = (Ret (Ok m), (o', id')) →
  ∃ content p, m = mkMapped (base_ptr m) p ∧ zlen content = t ∧
    pool_new (λ _, Some content) t b id = (Ret (Ok p), id') ∧ pool_id p = id ∧ total_size p = t ∧ 0 < t ∧
    id' = as_u32 (id + 1) ∧ (∀ v, v ∈ vm_views o → apart (base_ptr m, t) v) ∧
    vm_views o' = {[(base_ptr m, t)]} ∪ vm_views o.
Proof using VmOk0.
  intros Ht Hb. unfold mapped_new. destruct (b =? 0); [by munfold|].
  destruct (t =? 0) eqn:Ht0; cbn [orb]; [by munfold|]. destruct (negb _); [by munfold|].
  assert (0 < t) as Hpos by (unfold is_usize, is_u64 in *; lia).
  destruct (mmap_spec t o Hpos) as (r & o1 & Hm & Hr). munfold. cbn [fst snd]. rewrite Hm. cbn [fst snd].
  destruct r as [[base content]|]; [|done]. destruct Hr as (Hlen & _ & _ & Hap & Hv). cbn [fst snd].
  destruct (pool_new (λ _, Some content) t b id) as [[[p|e]| | |] id1] eqn:Hp; try done.
  intros [= <- <- <-]. exists content, p. cbn.
  apply pool_new_Ok in Hp as Hp'. destruct Hp' as (_ & _ & _ & -> & base' & [= <-] & ->).
  do 4 (split; [done|]). by do 3 (split; [done|]).
Qed.

Lemma mapped_new_Err t b o id e o' id' :
  is_usize t → mapped_new t b (o, id) = (Ret (Err e), (o', id')) → vm_views o' = vm_views o ∧ id' = id.
Proof using VmOk0.
  intros Ht. unfold mapped_new. destruct (b =? 0) eqn:Hb; [munfold; by intros [= _ <- <-]|].
  destruct (t =? 0) eqn:Ht0; cbn [orb]; [munfold; by intros [= _ <- <-]|].
  destruct (negb (t mod b =? 0)) eqn:Hn; [munfold; by intros [= _ <- <-]|].
  assert (0 < t) as Hpos by (unfold is_usize, is_u64 in *; lia).
  destruct (mmap_spec t o Hpos) as (r & o1 & Hm & Hr). munfold. cbn [fst snd]. rewrite Hm. cbn [fst snd].
  destruct r as [[base content]|]; [|by intros [= _ <- <-]].
  unfold pool_new. rewrite Hb, Ht0, Hn. munfold. by intros [=].
Qed.

Lemma mapped_drop_views m o o' :
  view_of m ∈ vm_views o → mapped_drop m o = (Ret tt, o') → vm_views o' = vm_views o ∖ {[view_of m]}.
Proof using VmOk0.
  intros (o1 & Hd & Hv)%munmap_spec. unfold mapped_drop. rewrite (bind_Ret _ _ _ _ _ Hd).
  by intros [= <-].
Qed.

(** ** The invariant holds throughout *)
Lemma proc_inv_fresh o : proc_inv (vm_views o) (fresh_process o).
Proof using VmOk0. split; cbn; try done; [by apply NoDup_nil|set_solver|set_solver]. Qed.

(** The order of the pools does not matter. *)
Lemma proc_inv_perm before o id pools pools' n stale :
  pools ≡ₚ pools' → proc_inv before (mkProcess o id pools n stale) →
  proc_inv before (mkProcess o id pools' n stale).
Proof using.
  intros Hp [Hnext Hcl Hids Hnd Hst Hap Hvs Hfr]. cbn in *. unfold ids_of, views_of in *.
  split; cbn; unfold ids_of, views_of; rewrite <-?Hp; try done.
  - eapply Forall_impl; [exact Hst|]. intros h. by rewrite <-Hp.
  - intros v. rewrite <-Hp. apply Hfr.
Qed.

Lemma new_inv before o id o' id' pools n stale t b m :
  is_usize t → is_usize b → t / b ≤ 2 ^ 32 → 0 ≤ n < 2 ^ 32 →
  mapped_new t b (o, id) = (Ret (Ok m), (o', id')) →
  proc_inv before (mkProcess o id pools n stale) →
  proc_inv before (mkProcess o' id' ((m, []) :: pools) (n + 1) stale).
Proof using VmOk0.
  intros Ht Hb Hfit Hn Hnew [Hnext Hcl Hids Hnd Hst Hap Hvs Hfr]. cbn in *.
  destruct (mapped_new_Ok _ _ _ _ _ _ _ Ht Hb Hnew)
    as (content & p & Hm & Hlen & Hp & Hid & Hsz & Hpos & -> & Hapart & Hviews).
  set (base := base_ptr m) in *. rewrite Hm. clear Hm Hnew.
  rewrite Hnext, as_u32_id in Hid by done. rewrite Hnext in *. rewrite Hvs in Hapart.
  assert (view_of (mkMapped base p) = (base, t)) as Hview by (unfold view_of; cbn; by rewrite Hsz).
  split; cbn; rewrite ?Hview.
  - by rewrite (as_u32_id n).
  - apply Forall_cons. split; [|done].
    eapply pool_new_client; [exact Ht|exact (proj1 Hb)| |exact Hfit|exact Hp]. by intros ? [= <-].
  - apply Forall_cons. split; [cbn; lia|]. eapply Forall_impl; [exact Hids|]. cbn. lia.
  - apply NoDup_cons. split; [|done]. cbn. rewrite Hid. intros Hi.
    rewrite Forall_forall in Hids. apply Hids in Hi. cbn in Hi. lia.
  - eapply Forall_impl; [exact Hst|]. cbn. intros h [??]. split; [lia|].
    intros [Hi|Hi]%elem_of_cons; [lia|done].
  - split; [|done]. apply Forall_forall. intros v Hv. apply Hapart. set_solver.
  - rewrite Hviews, Hvs. set_solver.
  - intros v [->|Hv]%elem_of_cons; [|by apply Hfr].
    intros Hin. assert (apart (base, t) (base, t)) as Hself by (apply Hapart; set_solver).
    unfold apart in Hself. cbn in Hself. lia.
Qed.

Lemma client_step_inv before o id base p hs p' hs' pools n stale :
  pool_step (p, hs) (p', hs') →
  proc_inv before (mkProcess o id ((mkMapped base p, hs) :: pools) n stale) →
  proc_inv before (mkProcess o id ((mkMapped base p', hs') :: pools) n stale).
Proof using.
  intros Hstep [Hnext Hcl Hids Hnd Hst Hap Hvs Hfr]. cbn in *.
  destruct (pool_step_geometry _ _ Hstep) as (Hid & Hsz & _). cbn in Hid, Hsz.
  apply Forall_cons in Hcl as [Hx Hcl].
  split; cbn; unfold view_of in *; cbn in *; rewrite <-?Hid, <-?Hsz; try done.
  apply Forall_cons. split; [|done]. exact (pool_step_inv _ _ Hstep Hx).
Qed.

Lemma drop_inv before o id m hs pools n stale o' :
  mapped_drop m o = (Ret tt, o') →
  proc_inv before (mkProcess o id ((m, hs) :: pools) n stale) →
  proc_inv before (mkProcess o' id pools n (hs ++ stale)).
Proof using VmOk0.
  intros Hdrop [Hnext Hcl Hids Hnd Hst [Hap1 Hap] Hvs Hfr]. cbn in *.
  pose proof (mapped_drop_views m o o' ltac:(rewrite Hvs; set_solver) Hdrop) as Hv.
  apply Forall_cons in Hcl as [[Hwf _ _ Hhs] Hcl], Hids as [Hid Hids]. apply NoDup_cons in Hnd as [Hnew Hnd].
  cbn in *.
  split; cbn; try done.
  - apply Forall_app. split.
    + eapply Forall_impl; [exact Hhs|]. intros h (-> & _). done.
    + eapply Forall_impl; [exact Hst|]. cbn. intros h [? Hn]. split; [done|]. set_solver.
  - assert (view_of m ∉ views_of pools) as Hnin.
    { intros Hin. rewrite Forall_forall in Hap1. apply Hap1 in Hin. unfold apart, view_of in Hin. cbn in Hin.
      destruct Hwf. nia. }
    rewrite Hv, Hvs. apply drop_view; [done|]. apply Hfr, list_elem_of_here.
  - set_solver.
Qed.

Lemma proc_step_inv before c c' :
  proc_step c c' → pr_created c' ≤ 2 ^ 32 → 0 ≤ pr_created c →
  proc_inv before c → proc_inv before c'.
Proof using VmOk0.
  intros [o id o' id' pools n stale t b m Ht Hb Hf Hn|o id o' id' pools n stale t b e Hn Ht Hb
         |o id l1 base p hs p' hs' l2 n stale Hs|o id l1 m hs l2 n stale o' Hd] Hle Hge Hinv; cbn in *.
  - apply (proc_inv_perm _ _ _ ((m, []) :: pools)); [apply Permutation_cons_append|].
    eapply new_inv; [exact Ht|exact Hb|exact Hf|lia|exact Hn|exact Hinv].
  - destruct (mapped_new_Err _ _ _ _ _ _ _ Ht Hn) as [Hv ->]. destruct Hinv. cbn in *.
    split; cbn; try done. by rewrite Hv.
  - apply (proc_inv_perm _ _ _ _ _ _ _ (Permutation_middle _ _ _)).
    eapply client_step_inv; [exact Hs|]. by apply (proc_inv_perm _ _ _ _ _ _ _ (symmetry (Permutation_middle _ _ _))).
  - eapply drop_inv; [exact Hd|]. by apply (proc_inv_perm _ _ _ _ _ _ _ (symmetry (Permutation_middle _ _ _))).
Qed.

Lemma proc_step_created c c' : proc_step c c' → pr_created c ≤ pr_created c'.
Proof using. destruct 1; cbn; lia. Qed.

Lemma proc_reachable_inv o c :
  rtc proc_step (fresh_process o) c → pr_created c ≤ 2 ^ 32 → proc_inv (vm_views o) c ∧ 0 ≤ pr_created c.
Proof using VmOk0.
  revert c. refine (rtc_ind_r (λ c, _ → proc_inv _ c ∧ 0 ≤ _) _ _ _).
  { intros _. split; [apply proc_inv_fresh|done]. }
  intros c c' _ Hstep IH Hle. pose proof (proc_step_created _ _ Hstep). destruct IH as [IH ?]; [lia|].
  split; [|lia]. by eapply proc_step_inv.
Qed.

(** ** Properties *)

(** C20: In a process that has created at most 2^32 pools, whatever was allocated, written, freed
    and dropped: a handle presented to a pool that did not issue it is refused by every
    method without a change, whether its own pool is alive or gone; blocks of different
    pools never overlap in memory; and the mappings of the process are those it had before
    its first pool and exactly one for each live pool, so no dropped pool leaks memory. *)
Theorem pools_isolated o c
    (Hreach : rtc proc_step (fresh_process o) c) (Hcount : pr_created c ≤ 2 ^ 32) :
  (∀ i j m hs m' hs' h h', pr_pools c !! i = Some (m, hs) → pr_pools c !! j = Some (m', hs') → i ≠ j →
     h ∈ hs → h' ∈ hs' →
     refused h (the_pool m') ∧
     apart (base_ptr m + bh_offset h, bh_size h) (base_ptr m' + bh_offset h', bh_size h')) ∧
  (∀ h m hs, h ∈ pr_stale c → (m, hs) ∈ pr_pools c → refused h (the_pool m)) ∧
  vm_views (pr_vm c) = list_to_set (views_of (pr_pools c)) ∪ vm_views o ∧
  NoDup (views_of (pr_pools c)) ∧ (∀ v, v ∈ views_of (pr_pools c) → v ∉ vm_views o).
Proof using VmOk0.
  destruct (proc_reachable_inv o c Hreach Hcount) as [[Hnext Hcl Hids Hnd Hst Hap Hvs Hfr] _].
  rewrite Forall_forall in Hcl. rewrite Forall_forall in Hst.
  assert (∀ i m hs h, pr_pools c !! i = Some (m, hs) → h ∈ hs → handle_ok (the_pool m) h ∧
            0 ≤ bh_offset h ∧ 0 < bh_size h ∧ bh_offset h + bh_size h ≤ total_size (the_pool m)) as Hh.
  { intros i m hs h Hi Hin. destruct (Hcl (m, hs) (list_elem_of_lookup_2 _ _ _ Hi)) as [Hwf _ _ Hok].
    cbn in *. rewrite Forall_forall in Hok. specialize (Hok h Hin). split; [done|].
    pose proof (handle_in_region _ Hwf h Hok). destruct Hwf, Hok as (_ & _ & _ & ->). lia. }
  split; [|split; [|split; [done|split; [|done]]]].
  - intros i j m hs m' hs' h h' Hi Hj Hij Hin Hin'.
    destruct (Hh i m hs h Hi Hin) as ((Hid & _) & Hb1), (Hh j m' hs' h' Hj Hin') as (_ & Hb2). split.
    + apply refused_foreign. rewrite Hid. intros Heq. apply Hij.
      eapply (NoDup_lookup _ i j _ Hnd); unfold ids_of; rewrite list_lookup_fmap;
        [by rewrite Hi|by rewrite Hj; cbn; rewrite <-Heq].
    + assert (apart (view_of m) (view_of m')) as Hv.
      { eapply (all_apart_lookup _ i j _ _ Hap); [| |done]; unfold views_of; rewrite list_lookup_fmap;
          [by rewrite Hi|by rewrite Hj]. }
      unfold apart, view_of in *. cbn in *. lia.
  - intros h m hs [_ Hn]%Hst Hin. apply refused_foreign. intros Heq. apply Hn. rewrite Heq.
    apply (list_elem_of_fmap_2 (pool_id ∘ the_pool ∘ fst) _ (m, hs)). done.
  - apply NoDup_alt. intros i j v Hi Hj. destruct (decide (i = j)); [done|].
    pose proof (all_apart_lookup _ i j v v Hap Hi Hj ltac:(done)) as Hv.
    unfold views_of in Hi. rewrite list_lookup_fmap in Hi.
    destruct (pr_pools c !! i) as [[m hs]|] eqn:Hm; [|done]. injection Hi as <-.
    destruct (Hcl (m, hs) (list_elem_of_lookup_2 _ _ _ Hm)) as [[] _ _ _].
    unfold apart, view_of in Hv. cbn in *. nia.
Qed.
End pools.

(** ** An address space for concrete runs

    New mappings are placed above the existing ones, within 47 bits. *)
Definition above (views : list (Z * Z)) : Z := foldr (λ v a, Z.max (v.1 + v.2) a) 4096 views.

Definition space_mmap (n : Z) : M (gset (Z * Z)) (option (Z * bytes)) :=
  views ← gets (λ views, views);
  let base := above (elements views) in
  if base + n <=? 2 ^ 47
  then modify (λ views, {[(base, n)]} ∪ views);; mret (Some (base, replicate (Z.to_nat n) 0))
  else mret None.
Definition space_munmap (base n : Z) : M (gset (Z * Z)) Z :=
  modify (λ views, views ∖ {[(base, n)]});; mret 0.

#[export] Instance space_vm : Vm (gset (Z * Z)) :=
  { vm_mmap := space_mmap; vm_munmap := space_munmap; vm_views := λ views, views }.

Lemma above_all v l : v ∈ l → v.1 + v.2 ≤ above l.
Proof. unfold above. induction 1; cbn; lia. Qed.
Lemma above_pos l : 4096 ≤ above l.
Proof. unfold above. induction l; cbn; lia. Qed.

#[export] Instance space_vm_ok : VmOk (gset (Z * Z)).
Proof.
  split.
  - intros n views Hn. cbn. unfold space_mmap. munfold.
    destruct (above (elements views) + n <=? 2 ^ 47) eqn:Hle; (do 2 eexists; split; [reflexivity|]); [|done].
    apply Z.leb_le in Hle. pose proof (above_pos (elements views)). cbn.
    split; [unfold zlen; rewrite length_replicate; lia|]. split; [lia|]. split; [lia|]. split; [|done].
    intros v Hv%elem_of_elements%above_all. right. cbn. lia.
  - intros base n views _. cbn. by eexists.
Qed.

(** Two pools, a block of each, the first dropped. *)
Definition two_pools : process (gset (Z * Z)) :=
  mkProcess {[(4224, 128)]} 2
    [(mkMapped 4224 (mkMemoryPool 1 (replicate 128 0) 128 32 4 [0; 1; 2]), [mkBlockHandle 1 3 96 32])]
    2 [mkBlockHandle 0 3 96 32].

Lemma two_pools_reachable : rtc proc_step (fresh_process ∅) two_pools.
Proof.
  pose proof pool4_usize as [Ht Hb]. assert (128 / 32 ≤ 2 ^ 32) as Hf by done.
  eapply rtc_l; [by eapply (proc_new _ _ _ _ _ _ _ 128 32); [..|vm_compute; reflexivity]|].
  eapply rtc_l; [by eapply (proc_new _ _ _ _ _ _ _ 128 32); [..|vm_compute; reflexivity]|].
  eapply rtc_l; [eapply (proc_client _ _ []), step_allocate; vm_compute; reflexivity|].
  eapply rtc_l; [eapply (proc_client _ _ [_] _ _ _ _ _ []), step_allocate; vm_compute; reflexivity|].
  eapply rtc_l; [eapply (proc_drop _ _ []); vm_compute; reflexivity|].
  apply rtc_refl_eq. vm_compute. reflexivity.
Qed.

(** The handle kept from the dropped pool is refused by the other one, although that one
    has a block of the same number in use, and one mapping is left. *)
Lemma pools_isolated_witness :
  (deallocate (mkBlockHandle 0 3 96 32) (mkMemoryPool 1 (replicate 128 0) 128 32 4 [0; 1; 2])).1 = Panic ∧
  vm_views (pr_vm two_pools) = {[(4224, 128)]}.
Proof.
  destruct (pools_isolated ∅ two_pools two_pools_reachable ltac:(vm_compute; discriminate))
    as (_ & Hstale & Hviews & _).
  split; [|exact Hviews].
  destruct (Hstale (mkBlockHandle 0 3 96 32) _ _ (list_elem_of_here _ _) (list_elem_of_here _ _)) as [Hd _].
  exact (f_equal fst Hd).
Defined.
