(* ===== verification/Crc32.v ===== *)
(** * CRC-32 (IEEE 802.3)

    The checksum of a block header is computed by the crate crc32fast, which is outside the
    repository; everywhere else it is the parameter [crc32].  This file holds the function
    that crate documents, CRC-32 with the reflected IEEE polynomial, so that what depends on
    the code and not only on its range can be stated: a change within four consecutive bytes
    always changes the checksum. *)
From S2P Require Import Prelude.
Local Open Scope Z_scope.

Module Crc32.

(** The reflected polynomial, the initial value and the final complement. *)
Definition POLY : Z := 3988292384.
Definition ONES : Z := 4294967295.

(** One bit of the shift register, and the register run for [n] bits. *)
Definition shift (c : Z) : Z :=
  if Z.odd c then Z.lxor (Z.shiftr c 1) POLY else Z.shiftr c 1.
Definition shifts (n : nat) (c : Z) : Z := Nat.iter n shift c.

Definition feed (c b : Z) : Z := shifts 8 (Z.lxor c (as_u8 b)).
Definition crc32_ieee (data : bytes) : Z := Z.lxor (foldl feed ONES data) ONES.

(** ** The register *)

Lemma lxor_lt_pow2 n a b : 0 ≤ n → 0 ≤ a < 2 ^ n → 0 ≤ b < 2 ^ n → 0 ≤ Z.lxor a b < 2 ^ n.
Proof.
  intros Hn Ha Hb. assert (0 ≤ Z.lxor a b) by (apply Z.lxor_nonneg; lia). split; [done|].
  destruct (decide (Z.lxor a b = 0)) as [->|]; [lia|]. apply Z.log2_lt_pow2; [lia|].
  eapply Z.le_lt_trans; [apply Z.log2_lxor; lia|].
  destruct (decide (n = 0)) as [->|]; [change (2 ^ 0) with 1 in *; assert (a = 0) as -> by lia; assert (b = 0) as -> by lia; done|].
  apply Z.max_lub_lt; [destruct (decide (a = 0)) as [->|]|destruct (decide (b = 0)) as [->|]];
    cbn; try lia; apply Z.log2_lt_pow2; lia.
Qed.

Lemma shiftr_half c : is_u32 c → 0 ≤ Z.shiftr c 1 < 2 ^ 31.
Proof.
  unfold is_u32. rewrite Z.shiftr_div_pow2 by lia. change (2 ^ 1) with 2. intros [H0 H1].
  split; [by apply Z.div_pos|]. apply Z.div_lt_upper_bound; [done|]. exact H1.
Qed.

Lemma shift_u32 c : is_u32 c → is_u32 (shift c).
Proof.
  intros Hc. pose proof (shiftr_half c Hc). unfold shift, is_u32.
  assert (2 ^ 31 < 2 ^ 32) by lia. case_match; [|lia].
  apply lxor_lt_pow2; unfold POLY; lia.
Qed.

Lemma shifts_u32 n c : is_u32 c → is_u32 (shifts n c).
Proof. intros Hc. induction n as [|n IH]; [done|]. by apply shift_u32. Qed.

Lemma shifts_S n c : shifts (S n) c = shift (shifts n c).
Proof. done. Qed.

Lemma shifts_add m n c : shifts (m + n) c = shifts m (shifts n c).
Proof. apply Nat.iter_add. Qed.

(** The register is linear over xor. *)
Lemma shift_lxor a b : shift (Z.lxor a b) = Z.lxor (shift a) (shift b).
Proof.
  unfold shift. rewrite Z.shiftr_lxor, <-!Z.bit0_odd, Z.lxor_spec.
  destruct (Z.testbit a 0), (Z.testbit b 0); cbn [xorb]; rewrite ?Z.lxor_assoc.
  - f_equal. rewrite (Z.lxor_comm POLY), Z.lxor_assoc, Z.lxor_nilpotent. by rewrite Z.lxor_0_r.
  - f_equal. apply Z.lxor_comm.
  - done.
  - done.
Qed.

Lemma shifts_lxor n a b : shifts n (Z.lxor a b) = Z.lxor (shifts n a) (shifts n b).
Proof. induction n as [|n IH]; [done|]. by rewrite !shifts_S, IH, shift_lxor. Qed.

(** The bit that left the register is the top bit of what remains. *)
Lemma shift_top c : is_u32 c → Z.testbit (shift c) 31 = Z.odd c.
Proof.
  intros Hc. pose proof (shiftr_half c Hc) as Hh.
  assert (Z.testbit (Z.shiftr c 1) 31 = false) as Ht.
  { destruct (decide (Z.shiftr c 1 = 0)) as [->|]; [done|].
    apply Z.bits_above_log2; [lia|]. apply Z.log2_lt_pow2; lia. }
  unfold shift. destruct (Z.odd c); [|done]. by rewrite Z.lxor_spec, Ht.
Qed.

Lemma shift_zero c : is_u32 c → shift c = 0 → c = 0.
Proof.
  intros Hc H0. pose proof (shift_top c Hc) as Ht. rewrite H0, Z.testbit_0_l in Ht.
  unfold shift in H0. rewrite <-Ht in H0. rewrite Z.shiftr_div_pow2 in H0 by lia. change (2 ^ 1) with 2 in H0.
  pose proof (Zmod_odd c) as Hm. rewrite <-Ht in Hm. pose proof (Z.div_mod c 2). lia.
Qed.

Lemma shifts_zero n c : is_u32 c → shifts n c = 0 → c = 0.
Proof.
  intros Hc. induction n as [|n IH]; [done|]. intros H0. apply IH, shift_zero; [by apply shifts_u32|done].
Qed.

Lemma shifts_inj n a b : is_u32 a → is_u32 b → shifts n a = shifts n b → a = b.
Proof.
  intros Ha Hb Hs. apply Z.lxor_eq, (shifts_zero n); [by apply lxor_lt_pow2|].
  by rewrite shifts_lxor, Hs, Z.lxor_nilpotent.
Qed.

(** Bits that do not reach the end of the register only move. *)
Lemma shift_shiftl n y : shift (Z.shiftl y (Z.of_nat (S n))) = Z.shiftl y (Z.of_nat n).
Proof.
  unfold shift. rewrite <-Z.bit0_odd, Z.shiftl_spec_low by lia. rewrite Z.shiftr_shiftl_l by lia. f_equal. lia.
Qed.

Lemma shifts_shiftl n y : shifts n (Z.shiftl y (Z.of_nat n)) = y.
Proof.
  induction n as [|n IH]; [apply Z.shiftl_0_r|]. unfold shifts. by rewrite Nat.iter_succ_r, shift_shiftl.
Qed.

(** ** The checksum *)

Lemma as_u8_id b : is_byte b → as_u8 b = b.
Proof. apply Z.mod_small. Qed.

Lemma feed_u32 c b : is_u32 c → is_u32 (feed c b).
Proof.
  intros Hc. apply shifts_u32, lxor_lt_pow2; [lia|done|].
  pose proof (Z.mod_pos_bound b (2 ^ 8)). unfold as_u8. assert (2 ^ 8 < 2 ^ 32) by lia. lia.
Qed.

Lemma register_u32 data c : is_u32 c → is_u32 (foldl feed c data).
Proof. revert c. induction data as [|b data IH]; intros c Hc; [done|]. by apply IH, feed_u32. Qed.

Lemma crc32_ieee_u32 data : is_u32 (crc32_ieee data).
Proof. apply lxor_lt_pow2; [lia|apply register_u32|]; done. Qed.

Lemma feed_inj b c c' : is_u32 c → is_u32 c' → feed c b = feed c' b → c = c'.
Proof.
  intros Hc Hc' Hf. pose proof (Z.mod_pos_bound b (2 ^ 8)).
  assert (2 ^ 8 < 2 ^ 32) by lia.
  apply shifts_inj in Hf; [|apply lxor_lt_pow2; unfold as_u8; try done; lia..].
  apply (f_equal (λ x, Z.lxor x (as_u8 b))) in Hf.
  by rewrite !Z.lxor_assoc, !Z.lxor_nilpotent, !Z.lxor_0_r in Hf.
Qed.

Lemma register_inj data c c' : is_u32 c → is_u32 c' → foldl feed c data = foldl feed c' data → c = c'.
Proof.
  revert c c'. induction data as [|b data IH]; intros c c' Hc Hc' Hf; [done|].
  apply (feed_inj b); [done..|]. apply IH; [by apply feed_u32..|done].
Qed.

Lemma le_decode_lxor b bs : is_byte b → le_decode (b :: bs) = Z.lxor b (Z.shiftl (le_decode bs) 8).
Proof.
  intros Hb. cbn [le_decode]. rewrite Z.shiftl_mul_pow2 by lia. rewrite <-Z.add_nocarry_lxor; [change (2 ^ 8) with 256; lia|].
  rewrite <-Z.shiftl_mul_pow2 by lia. apply Z.bits_inj'. intros n Hn. rewrite Z.land_spec, Z.testbit_0_l.
  destruct (decide (n < 8)); [rewrite Z.shiftl_spec_low by done; apply andb_false_r|].
  assert (Z.testbit b n = false) as ->; [|done].
  destruct (decide (b = 0)) as [->|]; [apply Z.testbit_0_l|]. unfold is_byte in Hb.
  apply Z.bits_above_log2; [lia|]. apply Z.log2_lt_pow2; [lia|].
  eapply Z.lt_le_trans; [|apply (Z.pow_le_mono_r 2 8); lia]. lia.
Qed.

(** Up to four bytes enter the register at once. *)
Lemma feed_bytes w c : Forall is_byte w →
  foldl feed c w = shifts (8 * length w) (Z.lxor c (le_decode w)).
Proof.
  intros Hw. revert c. induction Hw as [|b w Hb Hw IH]; intros c; [symmetry; apply Z.lxor_0_r|].
  cbn [foldl]. rewrite IH. unfold feed. rewrite as_u8_id by done.
  rewrite <-(shifts_shiftl 8 (le_decode w)) at 1. rewrite <-shifts_lxor, <-shifts_add.
  rewrite le_decode_lxor, Z.lxor_assoc by done. f_equal. cbn [length]. lia.
Qed.

Lemma le_decode_inj w w' :
  Forall is_byte w → Forall is_byte w' → length w = length w' → le_decode w = le_decode w' → w = w'.
Proof.
  intros Hw. revert w'. induction Hw as [|b w Hb Hw IH]; intros [|b' w'] Hw' Hl Hd; try done.
  apply Forall_cons in Hw' as [Hb' Hw']. cbn in Hl, Hd. unfold is_byte in *.
  assert (b = b') as -> by lia. f_equal. apply IH; [done|lia|lia].
Qed.

(** A change confined to four consecutive bytes changes the checksum. *)
Lemma crc32_burst pre w w' post :
  Forall is_byte w → Forall is_byte w' → length w = length w' → (length w ≤ 4)%nat →
  crc32_ieee (pre ++ w ++ post) = crc32_ieee (pre ++ w' ++ post) → w = w'.
Proof.
  intros Hw Hw' Hl H4 Hc. apply (f_equal (λ x, Z.lxor x ONES)) in Hc. unfold crc32_ieee in Hc.
  rewrite !Z.lxor_assoc, !Z.lxor_nilpotent, !Z.lxor_0_r, !foldl_app in Hc.
  assert (is_u32 (foldl feed ONES pre)) as Hp by by apply register_u32.
  apply register_inj in Hc; [|by apply register_u32..]. rewrite (feed_bytes w), (feed_bytes w'), Hl in Hc by done.
  assert (∀ v, Forall is_byte v → (length v ≤ 4)%nat → is_u32 (le_decode v)) as Hr.
  { intros v Hv%le_decode_range Hlen. unfold is_u32. change (2 ^ 32) with (256 ^ 4).
    pose proof (Z.pow_le_mono_r 256 (Z.of_nat (length v)) 4). lia. }
  apply shifts_inj in Hc; [|apply lxor_lt_pow2; [lia|done|apply Hr; [done|lia]]..].
  apply (f_equal (Z.lxor (foldl feed ONES pre))) in Hc.
  rewrite <-!Z.lxor_assoc, !Z.lxor_nilpotent, !Z.lxor_0_l in Hc. by apply le_decode_inj.
Qed.

(** The check value of the standard: the checksum of the digits 1 to 9. *)
Example crc32_check_value : crc32_ieee [49; 50; 51; 52; 53; 54; 55; 56; 57] = 3421780262.
Proof. vm_compute. reflexivity. Qed.
End Crc32.
