(* ===== verification/Block.v ===== *)
(** * Block header and location (crates/cmx-block-store/src/block.rs)

    [BlockHeader] is a [repr(C)] struct stored at the start of every block.  Its 24
    bytes are: [crc32] at 0, four padding bytes at 4, [generation] at 8, [data_size]
    at 16 and [_reserved] at 20, each little-endian.  [crc32fast] is outside the
    repository: the checksum is the parameter [crc32] of the definitions. *)
From S2P Require Import Prelude.

Local Open Scope Z_scope.

Definition TOKENS_PER_BLOCK : Z := 16.

Record BlockHeader := mkBlockHeader {
  hd_crc32 : Z;
  hd_generation : Z;
  hd_data_size : Z;
  hd_reserved : Z;
}.

(** [size_of::<BlockHeader>()]. *)
Definition HEADER_SIZE : Z := 24.

Record BlockLocation := mkBlockLocation {
  bl_node_id : Z;
  bl_block_index : Z;
  bl_offset : Z;
  bl_block_size : Z;
  bl_generation : Z;
}.

Global Instance BlockLocation_eq_dec : EqDecision BlockLocation.
Proof. solve_decision. Defined.

(** [BlockHeader::new]. *)
Definition header_new (crc32 : bytes → Z) (data : bytes) (generation : Z) : BlockHeader :=
  mkBlockHeader (crc32 data) generation (as_u32 (zlen data)) 0.

(** [BlockHeader::verify]. *)
Definition verify (crc32 : bytes → Z) (h : BlockHeader) (data : bytes) : bool :=
  crc32 data =? hd_crc32 h.

(** The in-memory representation of a header; [pad] is the content of the four
    padding bytes, which the language leaves unspecified. *)
Definition header_bytes (pad : bytes) (h : BlockHeader) : bytes :=
  le_encode 4 (hd_crc32 h) ++ pad ++ le_encode 8 (hd_generation h) ++
  le_encode 4 (hd_data_size h) ++ le_encode 4 (hd_reserved h).

(** [BlockHeader::write_to] on a destination slice [dst]. *)
Definition write_to (pad : bytes) (h : BlockHeader) : M bytes unit :=
  dst ← gets (λ dst, dst);
  assert (HEADER_SIZE <=? zlen dst);;
  modify (blit 0 (header_bytes pad h)).

(** [BlockHeader::read_from]. *)
Definition read_from (src : bytes) : option BlockHeader :=
  if zlen src <? HEADER_SIZE then None
  else Some (mkBlockHeader (le_decode (slice 0 4 src)) (le_decode (slice 8 8 src))
                           (le_decode (slice 16 4 src)) (le_decode (slice 20 4 src))).

Arguments header_bytes : simpl never.

(** ** Lemmas *)

Record header_ok (h : BlockHeader) : Prop := {
  ho_crc : is_u32 (hd_crc32 h);
  ho_gen : is_u64 (hd_generation h);
  ho_size : is_u32 (hd_data_size h);
  ho_res : is_u32 (hd_reserved h);
}.

Lemma zlen_le_encode n z : zlen (le_encode n z) = Z.of_nat n.
Proof. unfold zlen. by rewrite length_le_encode. Qed.

Lemma zlen_header_bytes pad h : zlen pad = 4 → zlen (header_bytes pad h) = HEADER_SIZE.
Proof. intros Hp. unfold header_bytes. by rewrite !zlen_app, !zlen_le_encode, Hp. Qed.

(** A field of the representation, at its offset. *)
Lemma slice_field {A} (pre f post : list A) :
  slice (zlen pre) (zlen f) (pre ++ f ++ post) = f.
Proof.
  rewrite slice_app_r by auto with rust. unfold zlen. by rewrite Nat2Z.id, take_app_length.
Qed.

Lemma read_header_bytes pad h rest :
  zlen pad = 4 → header_ok h → read_from (header_bytes pad h ++ rest) = Some h.
Proof.
  intros Hp [????]. unfold read_from.
  pose proof (zlen_nonneg rest). rewrite zlen_app, zlen_header_bytes by done.
  destruct (Z.ltb_spec (HEADER_SIZE + zlen rest) HEADER_SIZE); [lia|].
  unfold header_bytes. rewrite <-!app_assoc.
  set (c := le_encode 4 (hd_crc32 h)). set (g := le_encode 8 (hd_generation h)).
  set (d := le_encode 4 (hd_data_size h)). set (r := le_encode 4 (hd_reserved h)).
  assert (slice 0 4 (c ++ pad ++ g ++ d ++ r ++ rest) = c) as ->
    by exact (slice_field [] c (pad ++ g ++ d ++ r ++ rest)).
  assert (slice 8 8 (c ++ pad ++ g ++ d ++ r ++ rest) = g) as ->.
  { pose proof (slice_field (c ++ pad) g (d ++ r ++ rest)) as Hf.
    rewrite zlen_app, Hp, <-!app_assoc in Hf. exact Hf. }
  assert (slice 16 4 (c ++ pad ++ g ++ d ++ r ++ rest) = d) as ->.
  { pose proof (slice_field (c ++ pad ++ g) d (r ++ rest)) as Hf.
    rewrite !zlen_app, Hp, <-!app_assoc in Hf. exact Hf. }
  assert (slice 20 4 (c ++ pad ++ g ++ d ++ r ++ rest) = r) as ->.
  { pose proof (slice_field (c ++ pad ++ g ++ d) r rest) as Hf.
    rewrite !zlen_app, Hp, <-!app_assoc in Hf. exact Hf. }
  subst c g d r. autorewrite with rust. by destruct h.
Qed.

Lemma header_new_ok crc32 data g :
  (∀ d, is_u32 (crc32 d)) → is_u64 g → header_ok (header_new crc32 data g).
Proof. intros Hc Hg. split; cbn; auto with rust. unfold is_u32. lia. Qed.

(** ** Properties *)

(** A header written with [write_to] into any destination of at least 24 bytes, with any
    padding content, is read back unchanged by [read_from], and the bytes after the
    header are untouched; a shorter destination panics and a shorter source is [None]. *)
Theorem header_roundtrip pad h dst (Hpad : zlen pad = 4) (Hh : header_ok h) :
  if zlen dst <? HEADER_SIZE
  then write_to pad h dst = (Panic, dst) ∧ read_from dst = None
  else ∃ dst', write_to pad h dst = (Ret tt, dst') ∧ zlen dst' = zlen dst ∧
         read_from dst' = Some h ∧
         drop (Z.to_nat HEADER_SIZE) dst' = drop (Z.to_nat HEADER_SIZE) dst.
Proof.
  unfold write_to, assert. munfold.
  destruct (Z.ltb_spec (zlen dst) HEADER_SIZE) as [Hlt|Hge].
  - rewrite (proj2 (Z.leb_gt _ _) Hlt). split; [done|].
    unfold read_from. by rewrite (proj2 (Z.ltb_lt _ _) Hlt).
  - rewrite (proj2 (Z.leb_le _ _) Hge). eexists. split; [done|].
    pose proof (zlen_header_bytes pad h Hpad) as Hl. split; [apply zlen_blit; lia|].
    unfold blit. rewrite take_0. cbn [app]. split; [by apply read_header_bytes|].
    unfold zlen in Hl. rewrite drop_app_ge by lia.
    replace (length (header_bytes pad h)) with (Z.to_nat HEADER_SIZE) by lia.
    rewrite Nat.sub_diag, drop_0. done.
Qed.

(** A toy checksum, for concrete runs: the sum of the bytes. *)
Definition sum_crc (data : bytes) : Z := as_u32 (foldr Z.add 0 data).

Lemma sum_crc_range d : is_u32 (sum_crc d).
Proof. apply as_u32_range. Qed.

Lemma header_roundtrip_witness :
  ∃ dst', write_to [9; 9; 9; 9] (header_new sum_crc [1; 2; 3] 42) (replicate 30 0) = (Ret tt, dst') ∧
          read_from dst' = Some (header_new sum_crc [1; 2; 3] 42).
Proof.
  assert (header_ok (header_new sum_crc [1; 2; 3] 42)) as Hok.
  { apply header_new_ok; [exact sum_crc_range|unfold is_u64; lia]. }
  destruct (header_roundtrip [9; 9; 9; 9] _ (replicate 30 0) eq_refl Hok)
    as (dst' & Hw & _ & Hr & _).
  exists dst'. exact (conj Hw Hr).
Defined.
