(* ===== verification/Allocator.v ===== *)
(** * The block allocator (crates/cmx-block-store/src/allocator.rs)

    [BlockAllocator] wraps a [MemoryPool]: it stamps a generation, writes a header and
    the data into a fresh block, and reads a block back after checking its checksum.
    [block_holds] says that a block currently stores given data; a write establishes it
    for its own block and preserves it for all the others. *)
From S2P Require Import Prelude Pool Block.

Local Open Scope Z_scope.

Record BlockAllocator := mkBlockAllocator {
  al_pool : MemoryPool;
  al_node_id : Z;
  al_generation : Z;      (* AtomicU64 *)
}.

Definition set_al_pool (p : MemoryPool) (a : BlockAllocator) : BlockAllocator :=
  mkBlockAllocator p (al_node_id a) (al_generation a).
Definition set_al_generation (g : Z) (a : BlockAllocator) : BlockAllocator :=
  mkBlockAllocator (al_pool a) (al_node_id a) g.

(** Calls on [self.pool]. *)
Definition on_pool {A} (m : M MemoryPool A) : M BlockAllocator A := zoom al_pool set_al_pool m.

(** [BlockAllocator::new]. *)
Definition allocator_new (pool : MemoryPool) (node_id : Z) : BlockAllocator :=
  mkBlockAllocator pool node_id 1.

(** [self.generation.fetch_add(1)]. *)
Definition next_generation : M BlockAllocator Z :=
  g ← gets al_generation;
  modify (λ a, set_al_generation (as_u64 (g + 1)) a);;
  mret g.

Section allocator.
(** [crc32fast], and the content of the header's padding bytes. *)
Context (crc32 : bytes → Z) (pad : bytes).

(** [BlockAllocator::allocate_and_write].  The subtraction wraps in a release build. *)
Definition allocate_and_write (data : bytes) :
    M BlockAllocator (option (BlockLocation * BlockHandle)) :=
  self ← gets (λ a, a);
  let max_data := as_usize (block_size (al_pool self) - HEADER_SIZE) in
  if max_data <? zlen data then mret None
  else
    oh ← on_pool allocate;
    match oh with
    | None => mret None
    | Some handle =>
        gen ← next_generation;
        block_slice ← on_pool (get_slice_mut handle);
        let header := header_new crc32 data gen in
        on_pool (with_view block_slice 0 HEADER_SIZE (write_to pad header));;
        on_pool (view_copy block_slice HEADER_SIZE (HEADER_SIZE + zlen data) data);;
        mret (Some (mkBlockLocation (al_node_id self) (bh_block_index handle)
                      (bh_offset handle) (block_size (al_pool self)) gen, handle))
    end.

(** [BlockAllocator::read_verified]. *)
Definition read_verified (handle : BlockHandle) : M BlockAllocator (option bytes) :=
  block_slice ← on_pool (get_slice handle);
  match read_from block_slice with
  | None => mret None
  | Some header =>
      let data_start := HEADER_SIZE in
      let data_end := as_usize (data_start + hd_data_size header) in
      if zlen block_slice <? data_end then mret None
      else
        let data := slice data_start (data_end - data_start) block_slice in
        if negb (verify crc32 header data) then mret None else mret (Some data)
  end.
End allocator.

(** [BlockAllocator::deallocate], [stats], [block_ptr], [current_generation]. *)
Definition al_deallocate (handle : BlockHandle) : M BlockAllocator unit :=
  on_pool (deallocate handle).
Definition al_stats : M BlockAllocator PoolStats := on_pool pool_stats.
Definition block_ptr (handle : BlockHandle) : M BlockAllocator Z := on_pool (get_ptr handle).
Definition current_generation : M BlockAllocator Z := gets al_generation.

(** ** What a block stores *)

(** Block [i] of [p] is a header for [data] and [g], then [data], then anything. *)
Definition block_holds (crc32 : bytes → Z) (p : MemoryPool) (i : Z) (data : bytes) (g : Z) : Prop :=
  ∃ pad rest, zlen pad = 4 ∧
    slice (i * block_size p) (block_size p) (region p) =
      header_bytes pad (header_new crc32 data g) ++ data ++ rest.

Lemma on_pool_eq {A} (m : M MemoryPool A) a o p' :
  m (al_pool a) = (o, p') → on_pool m a = (o, set_al_pool p' a).
Proof. intros H. unfold on_pool, zoom. by rewrite H. Qed.

Lemma on_pool_Ret {A} (m : M MemoryPool A) a o :
  m (al_pool a) = (o, al_pool a) → on_pool m a = (o, a).
Proof. intros H. rewrite (on_pool_eq _ _ _ _ H). by destruct a. Qed.

(** A block is written by blitting the header and then the data. *)
Lemma write_to_ok pad h dst :
  zlen pad = 4 → zlen dst = HEADER_SIZE → write_to pad h dst = (Ret tt, header_bytes pad h).
Proof.
  intros Hp Hd. unfold write_to, assert. munfold. rewrite (proj2 (Z.leb_le _ _)) by lia.
  f_equal. unfold blit. rewrite take_0. cbn [app].
  pose proof (zlen_header_bytes pad h Hp) as Hl. unfold zlen in *.
  rewrite drop_ge by lia. apply app_nil_r.
Qed.

(** Two consecutive blits fill a block with the header, the data and old bytes. *)
Lemma blit_blit_block (pre data blk : bytes) :
  zlen pre + zlen data ≤ zlen blk →
  blit (zlen pre) data (blit 0 pre blk) =
    pre ++ data ++ drop (length pre + length data) blk.
Proof.
  intros Hl. pose proof (zlen_nonneg pre). pose proof (zlen_nonneg data).
  unfold blit at 2. rewrite take_0. cbn [app]. unfold blit, zlen.
  rewrite Nat2Z.id, take_app_length, drop_app_ge by lia. f_equal. f_equal.
  rewrite drop_drop. f_equal. lia.
Qed.

Lemma block_holds_read crc32 p i data g :
  pool_wf p → 0 ≤ i < total_blocks p →
  (∀ d, is_u32 (crc32 d)) → is_u64 g → is_u32 (zlen data) →
  block_holds crc32 p i data g →
  let blk := slice (i * block_size p) (block_size p) (region p) in
  read_from blk = Some (header_new crc32 data g) ∧ zlen blk = block_size p ∧
  slice HEADER_SIZE (zlen data) blk = data ∧ HEADER_SIZE + zlen data ≤ zlen blk.
Proof.
  intros Hwf Hi Hc Hg Hd (pad & rest & Hp & Hs) blk.
  pose proof (block_in_region p i Hwf Hi) as [??]. pose proof (wf_block_size p Hwf).
  assert (zlen blk = block_size p) as Hl by (apply zlen_slice; lia).
  pose proof (zlen_header_bytes pad (header_new crc32 data g) Hp) as Hh.
  assert (blk = header_bytes pad (header_new crc32 data g) ++ data ++ rest) as Hblk by done.
  clear Hs. split_and!; [|done| |].
  - rewrite Hblk. apply read_header_bytes; [done|by apply header_new_ok].
  - rewrite Hblk, <-Hh. apply slice_field.
  - rewrite Hblk, !zlen_app, Hh. pose proof (zlen_nonneg rest). lia.
Qed.

(** What a block holds fits into it. *)
Lemma block_holds_size crc32 p i data g :
  pool_wf p → 0 ≤ i < total_blocks p → block_holds crc32 p i data g →
  HEADER_SIZE + zlen data ≤ block_size p.
Proof.
  intros Hwf Hi (pad & rest & Hpd & Hs).
  pose proof (block_in_region _ i Hwf Hi) as [??]. pose proof (wf_block_size _ Hwf).
  apply (f_equal zlen) in Hs. rewrite zlen_slice, !zlen_app, zlen_header_bytes in Hs by (done || lia).
  pose proof (zlen_nonneg rest). lia.
Qed.

(** The region after a header and data have been written at [off]. *)
Definition stored (off : Z) (hb data r : bytes) : bytes :=
  blit (off + zlen hb) data (blit (off + 0) hb r).

Section stored.
Context (off len : Z) (hb data r : bytes).
Context (Hoff : 0 ≤ off) (Hfit : zlen hb + zlen data ≤ len) (Hlen : off + len ≤ zlen r).

Lemma zlen_stored : zlen (stored off hb data r) = zlen r.
Proof using Hoff Hfit Hlen.
  pose proof (zlen_nonneg hb). pose proof (zlen_nonneg data).
  unfold stored. rewrite !zlen_blit; rewrite ?zlen_blit; lia.
Qed.

Lemma slice_stored_same :
  slice off len (stored off hb data r) =
    hb ++ data ++ drop (length hb + length data) (slice off len r).
Proof using Hoff Hfit Hlen.
  pose proof (zlen_nonneg hb). pose proof (zlen_nonneg data).
  unfold stored. rewrite slice_blit_within by (rewrite ?zlen_blit; lia).
  rewrite slice_blit_within by lia.
  apply blit_blit_block. rewrite zlen_slice; lia.
Qed.

Lemma slice_stored_other off' len' :
  0 ≤ off' → off' + len' ≤ off ∨ off + len ≤ off' →
  slice off' len' (stored off hb data r) = slice off' len' r.
Proof using Hoff Hfit Hlen.
  pose proof (zlen_nonneg hb). pose proof (zlen_nonneg data). intros ??.
  unfold stored. rewrite slice_blit_disjoint by (rewrite ?zlen_blit; lia).
  apply slice_blit_disjoint; lia.
Qed.
End stored.

(** The allocator after storing [data] in the free block [i]. *)
Definition after_write (crc32 : bytes → Z) (pad : bytes) (a : BlockAllocator)
    (i : Z) (free : list Z) (data : bytes) : BlockAllocator :=
  let p := al_pool a in
  let hb := header_bytes pad (header_new crc32 data (al_generation a)) in
  mkBlockAllocator
    (set_region (stored (i * block_size p) hb data (region p)) (set_free_list free p))
    (al_node_id a) (as_u64 (al_generation a + 1)).

(** The location reported for block [i]. *)
Definition block_loc (a : BlockAllocator) (i : Z) : BlockLocation :=
  mkBlockLocation (al_node_id a) i (i * block_size (al_pool a))
    (block_size (al_pool a)) (al_generation a).

Section writing.
Context (crc32 : bytes → Z) (pad : bytes) (Hpad : zlen pad = 4).
Context (a : BlockAllocator) (Hwf : pool_wf (al_pool a)) (Hfit : index_fits (al_pool a)).
Context (data : bytes) (Hcap : HEADER_SIZE + zlen data ≤ block_size (al_pool a)).

Lemma max_data_ok :
  as_usize (block_size (al_pool a) - HEADER_SIZE) = block_size (al_pool a) - HEADER_SIZE.
Proof using Hwf Hcap.
  pose proof (zlen_nonneg data). apply as_usize_id. destruct Hwf.
  unfold is_usize, is_u64, HEADER_SIZE in *. nia.
Qed.

Lemma after_write_wf i free :
  free_list (al_pool a) = vec_push i free →
  pool_wf (al_pool (after_write crc32 pad a i free data)).
Proof using Hwf Hfit Hcap Hpad.
  intros Hf. destruct (allocate_Some _ Hwf i free Hfit Hf) as (_ & Hwf1 & Hi).
  pose proof (block_in_region _ i Hwf Hi) as [??].
  apply (wf_set_region _ Hwf1), (zlen_stored _ (block_size (al_pool a))); [done| |done].
  rewrite zlen_header_bytes; done.
Qed.

Lemma allocate_and_write_ok i free :
  free_list (al_pool a) = vec_push i free →
  allocate_and_write crc32 pad data a =
    (Ret (Some (block_loc a i, block_handle (al_pool a) i)), after_write crc32 pad a i free data).
Proof using Hwf Hfit Hcap Hpad.
  intros Hf. pose proof (zlen_nonneg data).
  destruct (allocate_Some _ Hwf i free Hfit Hf) as (Halloc & Hwf1 & Hi).
  pose proof (block_in_region _ i Hwf Hi) as [Hlo Hhi].
  set (p := al_pool a) in *. set (p1 := set_free_list free p) in *.
  set (h := header_new crc32 data (al_generation a)).
  assert (handle_ok p1 (block_handle p i)) as Hh by exact (block_handle_ok p1 i Hi).
  pose proof (zlen_header_bytes pad h Hpad) as Hhb.
  destruct (with_view_ok p1 Hwf1 (i * block_size p) (block_size p) 0 HEADER_SIZE
    (write_to pad h) (Ret tt) (header_bytes pad h)) as [Hw1 Hwf2];
    [done|done|unfold HEADER_SIZE; lia|lia| |rewrite Hhb; lia|].
  { apply write_to_ok; [done|]. change (region p1) with (region p).
    rewrite zlen_slice; unfold HEADER_SIZE in *; lia. }
  set (p2 := set_region (blit (i * block_size p + 0) (header_bytes pad h) (region p1)) p1) in *.
  assert (zlen (region p2) = zlen (region p)) as Hr2
    by (apply zlen_blit; change (region p1) with (region p); unfold HEADER_SIZE in *; lia).
  destruct (view_copy_ok p2 Hwf2 (i * block_size p) (block_size p) HEADER_SIZE
    (HEADER_SIZE + zlen data) data) as [Hw2 _]; [done|lia|unfold HEADER_SIZE; lia|lia|lia|].
  unfold allocate_and_write. rewrite (bind_Ret _ _ _ _ _ (eq_refl : gets _ a = (Ret a, a))).
  rewrite max_data_ok. fold p.
  destruct (Z.ltb_spec (block_size p - HEADER_SIZE) (zlen data)); [lia|].
  rewrite (bind_Ret _ _ _ _ _ (on_pool_eq allocate a _ _ Halloc)).
  erewrite bind_Ret; [|reflexivity].
  erewrite bind_Ret; [|apply on_pool_eq, (get_slice_mut_ok p1 Hwf1 _ Hh)].
  erewrite bind_Ret; [|apply on_pool_eq, Hw1].
  erewrite bind_Ret; [|apply on_pool_eq, Hw2].
  unfold after_write, stored. fold p. fold h. by rewrite Hhb.
Qed.

Lemma after_write_holds i free :
  free_list (al_pool a) = vec_push i free →
  let a' := after_write crc32 pad a i free data in
  block_holds crc32 (al_pool a') i data (al_generation a) ∧
  (∀ j d g, 0 ≤ j < total_blocks (al_pool a) → j ≠ i →
     block_holds crc32 (al_pool a) j d g → block_holds crc32 (al_pool a') j d g).
Proof using Hwf Hfit Hcap Hpad.
  intros Hf. destruct (allocate_Some _ Hwf i free Hfit Hf) as (_ & _ & Hi).
  pose proof (block_in_region _ i Hwf Hi) as [Hlo Hhi]. cbn. split.
  - exists pad. eexists. split; [done|].
    apply slice_stored_same; [done| |done]. by rewrite zlen_header_bytes.
  - intros j d g Hj Hne (pad' & rest & Hp' & Hs). exists pad', rest. split; [done|].
    pose proof (block_in_region _ j Hwf Hj) as [??].
    rewrite <-Hs. apply (slice_stored_other _ (block_size (al_pool a))); [done| |done|done|].
    + by rewrite zlen_header_bytes.
    + destruct (blocks_disjoint _ _ _ Hwf Hne); lia.
Qed.
End writing.

Lemma allocate_and_write_full crc32 pad data a :
  pool_wf (al_pool a) → free_list (al_pool a) = [] →
  allocate_and_write crc32 pad data a = (Ret None, a).
Proof.
  intros Hwf Hf. unfold allocate_and_write.
  rewrite (bind_Ret _ _ _ _ _ (eq_refl : gets _ a = (Ret a, a))).
  case_match; [done|].
  by rewrite (bind_Ret _ _ _ _ _ (on_pool_Ret allocate a _ (allocate_None _ Hf))).
Qed.

Lemma allocate_and_write_too_large crc32 pad data a :
  pool_wf (al_pool a) → HEADER_SIZE ≤ block_size (al_pool a) < HEADER_SIZE + zlen data →
  allocate_and_write crc32 pad data a = (Ret None, a).
Proof.
  intros Hwf [Hge Hlt]. unfold allocate_and_write.
  rewrite (bind_Ret _ _ _ _ _ (eq_refl : gets _ a = (Ret a, a))).
  rewrite as_usize_id; [by rewrite (proj2 (Z.ltb_lt _ _)) by lia|].
  destruct Hwf. unfold is_usize, is_u64, HEADER_SIZE in *. nia.
Qed.

Lemma read_verified_holds crc32 a i data g :
  pool_wf (al_pool a) → 0 ≤ i < total_blocks (al_pool a) →
  (∀ d, is_u32 (crc32 d)) → is_u64 g → is_u32 (zlen data) →
  block_holds crc32 (al_pool a) i data g →
  read_verified crc32 (block_handle (al_pool a) i) a = (Ret (Some data), a).
Proof.
  intros Hwf Hi Hc Hg Hd Hb.
  destruct (block_holds_read crc32 _ i data g Hwf Hi Hc Hg Hd Hb) as (Hr & Hl & Hs & Hle).
  unfold read_verified. pose proof (zlen_nonneg data).
  rewrite (bind_Ret _ _ _ _ _ (on_pool_Ret _ a _ (get_slice_ok _ Hwf _ (block_handle_ok _ _ Hi)))).
  cbn [bh_offset block_handle]. rewrite Hr. cbn [hd_data_size header_new].
  rewrite (as_u32_id (zlen data)) by done.
  rewrite as_usize_id by (unfold is_usize, is_u64, is_u32, HEADER_SIZE in *; lia).
  rewrite (proj2 (Z.ltb_ge _ _)) by lia.
  replace (HEADER_SIZE + zlen data - HEADER_SIZE) with (zlen data) by lia.
  rewrite Hs. unfold verify. cbn. by rewrite Z.eqb_refl.
Qed.

Lemma al_deallocate_ok a i :
  pool_wf (al_pool a) → 0 ≤ i < total_blocks (al_pool a) →
  let p' := set_free_list (vec_push i (free_list (al_pool a))) (al_pool a) in
  al_deallocate (block_handle (al_pool a) i) a = (Ret tt, set_al_pool p' a) ∧ pool_wf p'.
Proof.
  intros Hwf Hi p'. destruct (deallocate_ok _ Hwf _ (block_handle_ok _ _ Hi)) as [Hd Hwf'].
  split; [|done]. by apply on_pool_eq.
Qed.

(** ** The allocator under an arbitrary client

    A client remembers the data behind each handle it holds. *)
Definition al_client := (BlockAllocator * list (BlockHandle * bytes))%type.

Inductive al_step (crc32 : bytes → Z) : al_client → al_client → Prop :=
  | al_step_write pad data a live loc h a' :
      zlen pad = 4 →
      allocate_and_write crc32 pad data a = (Ret (Some (loc, h)), a') →
      al_step crc32 (a, live) (a', (h, data) :: live)
  | al_step_reject pad data a live a' :
      zlen pad = 4 →
      allocate_and_write crc32 pad data a = (Ret None, a') →
      al_step crc32 (a, live) (a', live)
  | al_step_free a l1 h d l2 o a' :
      al_deallocate h a = (o, a') →
      al_step crc32 (a, l1 ++ (h, d) :: l2) (a', l1 ++ l2).

(** A live handle is the handle of a block that holds its data. *)
Definition held (crc32 : bytes → Z) (a : BlockAllocator) (hd : BlockHandle * bytes) : Prop :=
  ∃ i g, hd.1 = block_handle (al_pool a) i ∧ 0 ≤ i < total_blocks (al_pool a) ∧
    is_u64 g ∧ block_holds crc32 (al_pool a) i hd.2 g.

Record al_inv (crc32 : bytes → Z) (c : al_client) : Prop := {
  ai_wf : pool_wf (al_pool c.1);
  ai_fits : index_fits (al_pool c.1);
  ai_block : HEADER_SIZE ≤ block_size (al_pool c.1) ≤ 2 ^ 32;
  ai_gen : is_u64 (al_generation c.1);
  ai_owns : owns (al_pool c.1) (bh_block_index ∘ fst <$> c.2);
  ai_held : Forall (held crc32 c.1) c.2;
}.

(** [allocate_and_write] in a usable allocator: the three cases. *)
Lemma allocate_and_write_cases crc32 pad data a o a' :
  pool_wf (al_pool a) → index_fits (al_pool a) → HEADER_SIZE ≤ block_size (al_pool a) →
  zlen pad = 4 → allocate_and_write crc32 pad data a = (o, a') →
  (o = Ret None ∧ a' = a ∧
     (block_size (al_pool a) < HEADER_SIZE + zlen data ∨ free_list (al_pool a) = [])) ∨
  (∃ i free, HEADER_SIZE + zlen data ≤ block_size (al_pool a) ∧
     free_list (al_pool a) = vec_push i free ∧
     o = Ret (Some (block_loc a i, block_handle (al_pool a) i)) ∧
     a' = after_write crc32 pad a i free data ∧ 0 ≤ i < total_blocks (al_pool a)).
Proof.
  intros Hwf Hf Hb Hp Hr.
  destruct (decide (block_size (al_pool a) < HEADER_SIZE + zlen data)) as [Hl|Hl].
  { rewrite allocate_and_write_too_large in Hr by (done || lia). naive_solver. }
  destruct (free_list (al_pool a)) as [|i free _] eqn:Hfl using rev_ind.
  { rewrite allocate_and_write_full in Hr by done. naive_solver. }
  right. exists i, free. destruct (allocate_Some _ Hwf i free Hf Hfl) as (_ & _ & Hi).
  rewrite (allocate_and_write_ok crc32 pad Hp a Hwf Hf data ltac:(lia) i free Hfl) in Hr.
  simplify_eq. split_and!; [lia|done|done|done|lia|lia].
Qed.

Lemma held_geometry crc32 a a' hd i :
  same_geometry (al_pool a) (al_pool a') →
  (∀ j d g, 0 ≤ j < total_blocks (al_pool a) → j ≠ i →
     block_holds crc32 (al_pool a) j d g → block_holds crc32 (al_pool a') j d g) →
  bh_block_index hd.1 ≠ i → held crc32 a hd → held crc32 a' hd.
Proof.
  intros (Hid & _ & Hbs & Htb) Hpres Hne (j & g & Hh & Hj & Hg & Hb).
  exists j, g. rewrite Hh in Hne. cbn in Hne. split_and!; [|lia|lia|done|].
  - rewrite Hh. unfold block_handle. by rewrite Hid, Hbs.
  - by apply Hpres.
Qed.

Lemma al_inv_write crc32 pad data a live i free :
  al_inv crc32 (a, live) → zlen pad = 4 → HEADER_SIZE + zlen data ≤ block_size (al_pool a) →
  free_list (al_pool a) = vec_push i free → 0 ≤ i < total_blocks (al_pool a) →
  al_inv crc32 (after_write crc32 pad a i free data, (block_handle (al_pool a) i, data) :: live).
Proof.
  intros [Hwf Hf Hb Hg Ho Hh] Hp Hcap Hfl Hi; cbn in *.
  destruct (after_write_holds crc32 pad Hp a Hwf Hf data Hcap i free Hfl) as [Hself Hoth].
  assert (∀ hd, hd ∈ live → bh_block_index hd.1 ≠ i) as Hne.
  { intros hd Hin Heq. apply owns_NoDup in Ho. rewrite Hfl in Ho.
    apply NoDup_app in Ho as (_ & Hd & _).
    apply (Hd i); [unfold vec_push; set_solver|]. apply list_elem_of_fmap. by exists hd. }
  split; cbn.
  - by apply after_write_wf.
  - done.
  - done.
  - apply as_u64_range.
  - exact (owns_pop (al_pool a) _ i free Ho Hfl).
  - constructor.
    + by exists i, (al_generation a).
    + rewrite Forall_forall in Hh |- *. intros hd Hin.
      apply (held_geometry crc32 a _ hd i); [by repeat split|done|by apply Hne|by apply Hh].
Qed.

Lemma al_step_inv crc32 c c' :
  al_step crc32 c c' → al_inv crc32 c → al_inv crc32 c'.
Proof.
  intros Hs Hinv. pose proof Hinv as [Hwf Hf Hb Hg Ho Hh].
  destruct Hs as [pad data a live loc h a' Hp Ha|pad data a live a' Hp Ha|a l1 h d l2 o a' Hd]; cbn in *.
  - destruct (allocate_and_write_cases _ _ _ _ _ _ Hwf Hf (proj1 Hb) Hp Ha)
      as [(?&_)|(i&free&Hcap&Hfl&Ho'&->&Hi)]; [done|]. simplify_eq.
    by apply al_inv_write.
  - destruct (allocate_and_write_cases _ _ _ _ _ _ Hwf Hf (proj1 Hb) Hp Ha)
      as [(_&->&_)|(i&free&_&_&?&_)]; [done|done].
  - apply Forall_app in Hh as [Hh1 [(i & g & Heq & Hi & _ & _) Hh2]%Forall_cons].
    cbn in Heq. subst h. destruct (al_deallocate_ok a i Hwf Hi) as [Heq Hwf'].
    rewrite Heq in Hd. simplify_eq. split; cbn; [done|done|done|done| |].
    + eapply owns_push; [done|]. rewrite !fmap_app, fmap_cons. cbn.
      symmetry. apply Permutation_middle.
    + apply Forall_app. split; eapply Forall_impl; eauto.
Qed.

Lemma al_reachable_inv crc32 c c' :
  rtc (al_step crc32) c c' → al_inv crc32 c → al_inv crc32 c'.
Proof. induction 1; eauto using al_step_inv. Qed.

Lemma al_inv_new crc32 p node_id :
  client_inv (p, []) → HEADER_SIZE ≤ block_size p ≤ 2 ^ 32 →
  al_inv crc32 (allocator_new p node_id, []).
Proof. intros [Hwf Hf Ho _] Hb. by split. Qed.

(** ** Properties *)

(** C9: However an allocator is used (any sequence of writes, refused writes and
    deallocations of held handles), every handle still held reads back, verified, as
    exactly the data that was written through it. *)
Theorem allocator_integrity crc32 p node_id a live h data
    (Hcrc : ∀ d, is_u32 (crc32 d))
    (Hpool : client_inv (p, []))
    (Hblk : HEADER_SIZE ≤ block_size p ≤ 2 ^ 32)
    (Hreach : rtc (al_step crc32) (allocator_new p node_id, []) (a, live))
    (Hheld : (h, data) ∈ live) :
  read_verified crc32 h a = (Ret (Some data), a).
Proof.
  destruct (al_reachable_inv _ _ _ Hreach (al_inv_new crc32 p node_id Hpool Hblk))
    as [Hwf _ Hb _ _ Hh]; cbn in *.
  rewrite Forall_forall in Hh. destruct (Hh _ Hheld) as (i & g & Heq & Hi & Hg & Hbh).
  cbn in Heq, Hbh. subst h. apply (read_verified_holds crc32 a i data g); try done.
  pose proof (zlen_nonneg data). pose proof (block_holds_size _ _ _ _ _ Hwf Hi Hbh).
  unfold is_u32, HEADER_SIZE in *. lia.
Qed.

Lemma pool4_client : client_inv (pool4, []).
Proof.
  exact (pool_new_client _ _ _ _ _ _ (proj1 pool4_usize) (proj1 (proj2 pool4_usize))
    pool4_mmap ltac:(vm_compute; discriminate) pool4_new).
Qed.

Definition pad0 : bytes := [0; 0; 0; 0].
Definition alloc4 : BlockAllocator := allocator_new pool4 1.

Lemma allocator_integrity_witness :
  let a1 := (allocate_and_write sum_crc pad0 [5; 6; 7] alloc4).2 in
  let a2 := (allocate_and_write sum_crc pad0 [8; 9] a1).2 in
  read_verified sum_crc (block_handle pool4 3) a2 = (Ret (Some [5; 6; 7]), a2).
Proof.
  intros a1 a2.
  apply (allocator_integrity sum_crc pool4 1 a2
    [(block_handle pool4 2, [8; 9]); (block_handle pool4 3, [5; 6; 7])]).
  - exact sum_crc_range.
  - exact pool4_client.
  - vm_compute. split; discriminate.
  - eapply rtc_l.
    { apply (al_step_write _ pad0 [5; 6; 7] alloc4 [] (block_loc alloc4 3) (block_handle pool4 3) a1);
        vm_compute; reflexivity. }
    eapply rtc_l; [|apply rtc_refl].
    apply (al_step_write _ pad0 [8; 9] a1 _ (block_loc a1 2) (block_handle pool4 2) a2);
      vm_compute; reflexivity.
  - apply list_elem_of_further, list_elem_of_here.
Defined.

(** Reading any block of the pool, whatever its bytes are, never panics and never
    changes the allocator; when it returns data, the data has the length recorded in
    the block's header and its checksum equals the recorded one. *)
Theorem read_verified_sound crc32 a i
    (Hwf : pool_wf (al_pool a)) (Hi : 0 ≤ i < total_blocks (al_pool a))
    (Hbytes : Forall is_byte (region (al_pool a))) :
  ∃ r, read_verified crc32 (block_handle (al_pool a) i) a = (Ret r, a) ∧
    ∀ data, r = Some data →
      ∃ hdr, read_from (slice (i * block_size (al_pool a)) (block_size (al_pool a))
                          (region (al_pool a))) = Some hdr ∧
        zlen data = hd_data_size hdr ∧ crc32 data = hd_crc32 hdr.
Proof.
  unfold read_verified.
  rewrite (bind_Ret _ _ _ _ _ (on_pool_Ret _ a _ (get_slice_ok _ Hwf _ (block_handle_ok _ _ Hi)))).
  cbn [bh_offset block_handle].
  set (blk := slice _ _ _).
  destruct (read_from blk) as [hdr|] eqn:Hr; [|by exists None].
  assert (is_u32 (hd_data_size hdr)) as Hu.
  { unfold read_from in Hr. case_match; [done|]. simplify_eq. cbn.
    apply le_decode_u32. subst blk. unfold slice.
    by apply Forall_take, Forall_drop, Forall_take, Forall_drop. }
  rewrite as_usize_id by (unfold is_usize, is_u64, is_u32, HEADER_SIZE in *; lia).
  destruct (Z.ltb_spec (zlen blk) (HEADER_SIZE + hd_data_size hdr)) as [|Hle]; [by exists None|].
  replace (HEADER_SIZE + hd_data_size hdr - HEADER_SIZE) with (hd_data_size hdr) by lia.
  destruct (verify crc32 hdr (slice HEADER_SIZE (hd_data_size hdr) blk)) eqn:Hv; [|by exists None].
  eexists. split; [done|]. intros data [= <-]. exists hdr. split; [done|].
  unfold verify in Hv. apply Z.eqb_eq in Hv. split; [|done].
  apply zlen_slice; unfold is_u32, HEADER_SIZE in *; lia.
Qed.

(** A region with a corrupted byte, for a concrete run. *)
Lemma read_verified_sound_witness :
  ∃ r, read_verified sum_crc (block_handle pool4 0) alloc4 = (Ret r, alloc4) ∧ r = Some [].
Proof.
  destruct (read_verified_sound sum_crc alloc4 0 (ci_wf _ pool4_client)) as (r & Hr & _).
  - vm_compute. split; [discriminate|reflexivity].
  - apply Forall_replicate. unfold is_byte. lia.
  - exists r. split; [exact Hr|]. vm_compute in Hr. by injection Hr as <-.
Defined.

(** [allocate_and_write] on a pool whose blocks hold at least a header returns [None],
    changing nothing, exactly when the data is larger than a block minus the header or
    no block is free; otherwise it takes the top free block, stamps it with the current
    generation and advances the generation by one, modulo 2^64. *)
Theorem allocate_and_write_branches crc32 pad data a o a'
    (Hwf : pool_wf (al_pool a)) (Hfit : index_fits (al_pool a))
    (Hblk : HEADER_SIZE ≤ block_size (al_pool a)) (Hpad : zlen pad = 4)
    (Hrun : allocate_and_write crc32 pad data a = (o, a')) :
  (o = Ret None ∧ a' = a ∧
     (block_size (al_pool a) - HEADER_SIZE < zlen data ∨ free_list (al_pool a) = [])) ∨
  (∃ loc h, o = Ret (Some (loc, h)) ∧
     zlen data ≤ block_size (al_pool a) - HEADER_SIZE ∧
     free_list (al_pool a) = vec_push (bh_block_index h) (free_list (al_pool a')) ∧
     handle_ok (al_pool a) h ∧
     loc = mkBlockLocation (al_node_id a) (bh_block_index h) (bh_offset h) (bh_size h)
             (al_generation a) ∧
     al_generation a' = as_u64 (al_generation a + 1) ∧ al_node_id a' = al_node_id a).
Proof.
  destruct (allocate_and_write_cases _ _ _ _ _ _ Hwf Hfit Hblk Hpad Hrun)
    as [(-> & -> & Hc)|(i & free & Hcap & Hfl & -> & -> & Hi)].
  - left. split_and!; [done|done|]. destruct Hc; [left; lia|by right].
  - right. eexists _, _. split; [done|]. split_and!; try done; lia.
Qed.

Lemma allocate_and_write_branches_witness :
  ∃ loc h, (allocate_and_write sum_crc pad0 [5; 6; 7] alloc4).1 = Ret (Some (loc, h)) ∧
    bl_generation loc = 1 ∧ bh_block_index h = 3.
Proof.
  destruct (allocate_and_write_branches sum_crc pad0 [5; 6; 7] alloc4 _ _
    (ci_wf _ pool4_client) (ci_fits _ pool4_client) ltac:(vm_compute; discriminate)
    eq_refl (surjective_pairing _)) as [(H & _)|(loc & h & Ho & _ & Hf & _ & -> & _)].
  - vm_compute in H. discriminate.
  - exists (mkBlockLocation (al_node_id alloc4) (bh_block_index h) (bh_offset h) (bh_size h)
             (al_generation alloc4)), h.
    split; [exact Ho|]. split; [reflexivity|].
    assert ((allocate_and_write sum_crc pad0 [5; 6; 7] alloc4).1 =
      Ret (Some (block_loc alloc4 3, block_handle pool4 3))) as Hc by (vm_compute; reflexivity).
    rewrite Hc in Ho. assert (h = block_handle pool4 3) as -> by congruence. reflexivity.
Defined.

(** With blocks smaller than a header (which the configuration accepts), the capacity
    check of [allocate_and_write] is bypassed by the wrapping subtraction: every call
    that fits a [usize] pops a block, consumes a generation and then panics on
    [block_slice[..24]], so the block is lost. *)
Theorem small_block_panics crc32 pad data a i free
    (Hwf : pool_wf (al_pool a)) (Hfit : index_fits (al_pool a))
    (Hblk : block_size (al_pool a) < HEADER_SIZE)
    (Hdata : zlen data ≤ 2 ^ 63) (Hfree : free_list (al_pool a) = vec_push i free) :
  allocate_and_write crc32 pad data a =
    (Panic, mkBlockAllocator (set_free_list free (al_pool a)) (al_node_id a)
              (as_u64 (al_generation a + 1))).
Proof.
  destruct (allocate_Some _ Hwf i free Hfit Hfree) as (Ha & Hwf1 & Hi).
  pose proof (wf_block_size _ Hwf). set (p1 := set_free_list free (al_pool a)) in *.
  assert (handle_ok p1 (block_handle (al_pool a) i)) as Hh by exact (block_handle_ok p1 i Hi).
  unfold allocate_and_write. rewrite (bind_Ret _ _ _ _ _ (eq_refl : gets _ a = (Ret a, a))).
  assert (as_usize (block_size (al_pool a) - HEADER_SIZE) =
          block_size (al_pool a) - HEADER_SIZE + 2 ^ 64) as ->.
  { unfold as_usize, as_u64. symmetry. apply Z.mod_unique_pos with (-1);
      unfold HEADER_SIZE in *; lia. }
  rewrite (proj2 (Z.ltb_ge _ _)) by (unfold HEADER_SIZE in *; lia).
  rewrite (bind_Ret _ _ _ _ _ (on_pool_eq allocate a _ _ Ha)).
  erewrite bind_Ret; [|reflexivity].
  erewrite bind_Ret; [|apply on_pool_eq, (get_slice_mut_ok p1 Hwf1 _ Hh)].
  apply bind_Panic. unfold on_pool, zoom at 1, with_view, assert. cbn [fst snd].
  rewrite bool_decide_false; [reflexivity|]. unfold HEADER_SIZE in *. cbn. lia.
Qed.

(** A pool of four 8-byte blocks. *)
Definition pool_tiny : MemoryPool := mkMemoryPool 0 (replicate 32 0) 32 8 4 (seqZ 0 4).

Lemma small_block_panics_witness :
  allocate_and_write sum_crc pad0 [1] (allocator_new pool_tiny 0) =
    (Panic, mkBlockAllocator (set_free_list [0; 1; 2] pool_tiny) 0 2).
Proof.
  assert (pool_wf pool_tiny) as Hwf.
  { split; try (vm_compute; done). repeat constructor; cbn; lia. }
  exact (small_block_panics sum_crc pad0 [1] (allocator_new pool_tiny 0) 3 [0; 1; 2] Hwf
    ltac:(vm_compute; discriminate) ltac:(vm_compute; reflexivity)
    ltac:(vm_compute; discriminate) eq_refl).
Defined.
