(* ===== verification/Policy.v ===== *)
(** * The interface between the index and its eviction policy

    [EvictionPolicy] lists the methods of [LruPolicy] the block index calls
    (crates/cmx-block-store/src/eviction.rs); [EvictionPolicyOk] states what they
    promise, against a list of keys with the most recently used first.  The theorems
    about the index use only these classes. *)
From S2P Require Import Prelude.

Class EvictionPolicy (P : Type) := {
  policy_new : P;
  policy_touch : bytes → M P unit;
  policy_remove : bytes → M P unit;
  policy_evict : M P (option bytes);
  policy_len : M P nat;
}.

(** ** Abstract specification *)
Definition touch_spec (k : bytes) (keys : list bytes) : list bytes :=
  k :: filter (λ x, x ≠ k) keys.
Definition remove_spec (k : bytes) (keys : list bytes) : list bytes :=
  filter (λ x, x ≠ k) keys.

Class EvictionPolicyOk (P : Type) `{EvictionPolicy P} := {
  policy_abs : P → list bytes → Prop;
  policy_new_ok : policy_abs policy_new [];
  policy_NoDup s keys : policy_abs s keys → NoDup keys;
  policy_touch_ok s keys k :
    policy_abs s keys →
    ∃ s', policy_touch k s = (Ret tt, s') ∧ policy_abs s' (touch_spec k keys);
  policy_remove_ok s keys k :
    policy_abs s keys →
    ∃ s', policy_remove k s = (Ret tt, s') ∧ policy_abs s' (remove_spec k keys);
  policy_evict_ok s keys :
    policy_abs s keys →
    match vec_pop keys with
    | Some (k, keys') => ∃ s', policy_evict s = (Ret (Some k), s') ∧ policy_abs s' keys'
    | None => policy_evict s = (Ret None, s)
    end;
  policy_len_ok s keys : policy_abs s keys → policy_len s = (Ret (length keys), s);
}.

(** ** Runs of a policy *)
Inductive policy_op :=
  | PTouch (k : bytes)
  | PRemove (k : bytes)
  | PEvict
  | PLen.

Inductive policy_out :=
  | ODone
  | OVictim (k : option bytes)
  | OLen (n : nat).

(** One call, and a sequence of calls, on an implementation. *)
Definition policy_step `{EvictionPolicy P} (op : policy_op) : M P policy_out :=
  match op with
  | PTouch k => policy_touch k;; mret ODone
  | PRemove k => policy_remove k;; mret ODone
  | PEvict => v ← policy_evict; mret (OVictim v)
  | PLen => n ← policy_len; mret (OLen n)
  end.

Fixpoint policy_run `{EvictionPolicy P} (ops : list policy_op) : M P (list policy_out) :=
  match ops with
  | [] => mret []
  | op :: ops => o ← policy_step op; os ← policy_run ops; mret (o :: os)
  end.

(** The same on the list of keys. *)
Definition spec_step (op : policy_op) (keys : list bytes) : policy_out * list bytes :=
  match op with
  | PTouch k => (ODone, touch_spec k keys)
  | PRemove k => (ODone, remove_spec k keys)
  | PEvict =>
      match vec_pop keys with
      | Some (k, keys') => (OVictim (Some k), keys')
      | None => (OVictim None, keys)
      end
  | PLen => (OLen (length keys), keys)
  end.

Fixpoint spec_run (ops : list policy_op) (keys : list bytes) : list policy_out * list bytes :=
  match ops with
  | [] => ([], keys)
  | op :: ops =>
      let '(o, keys1) := spec_step op keys in
      let '(os, keys2) := spec_run ops keys1 in
      (o :: os, keys2)
  end.

Section runs.
Context `{EvictionPolicyOk P}.

Lemma policy_step_ok s keys op :
  policy_abs s keys →
  ∃ s', policy_step op s = (Ret (spec_step op keys).1, s') ∧
        policy_abs s' (spec_step op keys).2.
Proof.
  intros Ha. destruct op as [k|k| |]; cbn [policy_step spec_step].
  - destruct (policy_touch_ok s keys k Ha) as (s' & Hs & Ha').
    exists s'. by rewrite (bind_Ret _ _ _ _ _ Hs).
  - destruct (policy_remove_ok s keys k Ha) as (s' & Hs & Ha').
    exists s'. by rewrite (bind_Ret _ _ _ _ _ Hs).
  - pose proof (policy_evict_ok s keys Ha) as He. destruct (vec_pop keys) as [[k keys']|].
    + destruct He as (s' & Hs & Ha'). exists s'. by rewrite (bind_Ret _ _ _ _ _ Hs).
    + exists s. by rewrite (bind_Ret _ _ _ _ _ He).
  - exists s. by rewrite (bind_Ret _ _ _ _ _ (policy_len_ok s keys Ha)).
Qed.

Lemma policy_run_ok ops s keys :
  policy_abs s keys →
  ∃ s', policy_run ops s = (Ret (spec_run ops keys).1, s') ∧
        policy_abs s' (spec_run ops keys).2.
Proof.
  revert s keys. induction ops as [|op ops IH]; intros s keys Ha; cbn [policy_run spec_run].
  - by exists s.
  - destruct (policy_step_ok s keys op Ha) as (s1 & Hs1 & Ha1).
    destruct (spec_step op keys) as [o keys1]. cbn in Hs1, Ha1.
    destruct (IH s1 keys1 Ha1) as (s2 & Hs2 & Ha2).
    destruct (spec_run ops keys1) as [os keys2]. exists s2. split; [|done].
    by rewrite (bind_Ret _ _ _ _ _ Hs1), (bind_Ret _ _ _ _ _ Hs2).
Qed.
End runs.

(** ** Facts about the specification *)
Lemma elem_of_touch_spec k x keys : x ∈ touch_spec k keys ↔ x = k ∨ x ∈ keys.
Proof.
  unfold touch_spec. rewrite elem_of_cons, list_elem_of_filter.
  destruct (decide (x = k)); naive_solver.
Qed.

Lemma elem_of_remove_spec k x keys : x ∈ remove_spec k keys ↔ x ≠ k ∧ x ∈ keys.
Proof. unfold remove_spec. by rewrite list_elem_of_filter. Qed.

Lemma touch_spec_new k keys : k ∉ keys → touch_spec k keys = k :: keys.
Proof. intros Hk. unfold touch_spec. by rewrite filter_neq_notin. Qed.

Lemma touch_spec_NoDup k keys : NoDup keys → NoDup (touch_spec k keys).
Proof.
  intros Hn. apply NoDup_cons. rewrite list_elem_of_filter. split; [naive_solver|].
  by apply NoDup_filter.
Qed.

Lemma length_touch_spec_old k keys :
  NoDup keys → k ∈ keys → length (touch_spec k keys) = length keys.
Proof.
  intros Hn (l1 & l2 & ->)%list_elem_of_split. unfold touch_spec.
  rewrite filter_neq_split by done. cbn. rewrite !length_app. cbn. lia.
Qed.
