(* ===== verification/Lru.v ===== *)
(** * The LRU eviction policy (crates/cmx-block-store/src/eviction.rs)

    [LruInner] is an intrusive doubly linked list kept in a slab, with a map from
    prefix hash to slab index.  The operations below index the slab exactly where the
    code does and panic where it would.  [lru_repr] relates a slab to the list of its
    nodes, most recent first; every operation refines the obvious operation on the
    list of keys and never panics. *)
From S2P Require Import Prelude Policy.

Record LruEntry := mkLruEntry {
  le_prefix_hash : bytes;
  le_prev : option nat;
  le_next : option nat;
}.

Definition set_prev (o : option nat) (e : LruEntry) : LruEntry :=
  mkLruEntry (le_prefix_hash e) o (le_next e).
Definition set_next (o : option nat) (e : LruEntry) : LruEntry :=
  mkLruEntry (le_prefix_hash e) (le_prev e) o.

Record LruInner := mkLruInner {
  entries : list LruEntry;
  free_indices : list nat;
  lru_index : gmap bytes nat;
  lru_head : option nat;
  lru_tail : option nat;
}.

Definition set_entries (E : list LruEntry) (s : LruInner) : LruInner :=
  mkLruInner E (free_indices s) (lru_index s) (lru_head s) (lru_tail s).
Definition set_free_indices (f : list nat) (s : LruInner) : LruInner :=
  mkLruInner (entries s) f (lru_index s) (lru_head s) (lru_tail s).
Definition set_index (m : gmap bytes nat) (s : LruInner) : LruInner :=
  mkLruInner (entries s) (free_indices s) m (lru_head s) (lru_tail s).
Definition set_head (o : option nat) (s : LruInner) : LruInner :=
  mkLruInner (entries s) (free_indices s) (lru_index s) o (lru_tail s).
Definition set_tail (o : option nat) (s : LruInner) : LruInner :=
  mkLruInner (entries s) (free_indices s) (lru_index s) (lru_head s) o.

(** ** Operations *)

(** [LruPolicy::new]. *)
Definition lru_new : LruInner := mkLruInner [] [] ∅ None None.
(** [LruPolicy::default]. *)
Definition lru_default : LruInner := lru_new.

(** [self.entries[idx]] as a place expression: read it, or update it in place. *)
Definition get_entry (idx : nat) : M LruInner LruEntry :=
  s ← gets (λ s, s); unwrap (entries s !! idx).
Definition update_entry (idx : nat) (f : LruEntry → LruEntry) : M LruInner unit :=
  e ← get_entry idx;
  modify (λ s, set_entries (<[idx := f e]> (entries s)) s).

(** [LruInner::alloc_entry]. *)
Definition alloc_entry (prefix_hash : bytes) : M LruInner nat :=
  s ← gets (λ s, s);
  match vec_pop (free_indices s) with
  | Some (idx, rest) =>
      modify (set_free_indices rest);;
      update_entry idx (λ _, mkLruEntry prefix_hash None None);;
      mret idx
  | None =>
      let idx := length (entries s) in
      modify (set_entries (vec_push (mkLruEntry prefix_hash None None) (entries s)));;
      mret idx
  end.

(** [LruInner::unlink]. *)
Definition unlink (idx : nat) : M LruInner unit :=
  e ← get_entry idx;
  e' ← get_entry idx;
  let prev := le_prev e in
  let next := le_next e' in
  (match prev with
   | Some p => update_entry p (set_next next)
   | None => modify (set_head next)
   end);;
  (match next with
   | Some n => update_entry n (set_prev prev)
   | None => modify (set_tail prev)
   end);;
  update_entry idx (set_prev None);;
  update_entry idx (set_next None).

(** [LruInner::push_front]. *)
Definition push_front (idx : nat) : M LruInner unit :=
  update_entry idx (set_prev None);;
  h ← gets lru_head;
  update_entry idx (set_next h);;
  old ← gets lru_head;
  (match old with
   | Some old_head => update_entry old_head (set_prev (Some idx))
   | None => mret tt
   end);;
  modify (set_head (Some idx));;
  t ← gets lru_tail;
  match t with
  | None => modify (set_tail (Some idx))
  | Some _ => mret tt
  end.

(** [LruPolicy::touch]. *)
Definition touch (prefix_hash : bytes) : M LruInner unit :=
  inner ← gets (λ s, s);
  match lru_index inner !! prefix_hash with
  | Some idx => unlink idx;; push_front idx
  | None =>
      idx ← alloc_entry prefix_hash;
      push_front idx;;
      modify (λ s, set_index (<[prefix_hash := idx]> (lru_index s)) s)
  end.

(** [LruPolicy::remove]. *)
Definition lru_remove (prefix_hash : bytes) : M LruInner unit :=
  inner ← gets (λ s, s);
  match lru_index inner !! prefix_hash with
  | Some idx =>
      modify (λ s, set_index (delete prefix_hash (lru_index s)) s);;
      unlink idx;;
      modify (λ s, set_free_indices (vec_push idx (free_indices s)) s)
  | None => mret tt
  end.

(** [LruPolicy::evict_lru]. *)
Definition evict_lru : M LruInner (option bytes) :=
  t ← gets lru_tail;
  match t with
  | None => mret None
  | Some tail_idx =>
      e ← get_entry tail_idx;
      let hash := le_prefix_hash e in
      modify (λ s, set_index (delete hash (lru_index s)) s);;
      unlink tail_idx;;
      modify (λ s, set_free_indices (vec_push tail_idx (free_indices s)) s);;
      mret (Some hash)
  end.

(** [LruPolicy::len] and [is_empty]. *)
Definition lru_len : M LruInner nat := gets (λ s, size (lru_index s)).
Definition lru_is_empty : M LruInner bool := n ← lru_len; mret (n =? 0)%nat.

(** ** The slab as a doubly linked list

    A node is its slab index with its key. *)
Abbreviation node := (nat * bytes)%type.

Definition first_of (ns : list node) (next : option nat) : option nat :=
  match ns with [] => next | (i, _) :: _ => Some i end.
Definition last_of (prev : option nat) (ns : list node) : option nat :=
  match last ns with Some (i, _) => Some i | None => prev end.

(** The nodes [ns] are linked in [E], between [prev] and [next]. *)
Fixpoint dll (E : list LruEntry) (prev : option nat) (ns : list node) (next : option nat) : Prop :=
  match ns with
  | [] => True
  | (i, k) :: ns' =>
      E !! i = Some (mkLruEntry k prev (first_of ns' next)) ∧ dll E (Some i) ns' next
  end.

Lemma first_of_app l1 l2 n : first_of (l1 ++ l2) n = first_of l1 (first_of l2 n).
Proof. by destruct l1 as [|[]]. Qed.

Lemma last_of_app p l1 l2 : last_of p (l1 ++ l2) = last_of (last_of p l1) l2.
Proof. unfold last_of. rewrite last_app. by destruct (last l2) as [[]|]. Qed.

Lemma last_of_cons p i k l : last_of p ((i, k) :: l) = last_of (Some i) l.
Proof. unfold last_of. rewrite last_cons. by destruct (last l) as [[]|]. Qed.

Lemma dll_app E p l1 l2 n :
  dll E p (l1 ++ l2) n ↔ dll E p l1 (first_of l2 n) ∧ dll E (last_of p l1) l2 n.
Proof.
  revert p. induction l1 as [|[i k] l1 IH]; intros p; cbn [dll app].
  - unfold last_of. cbn. tauto.
  - rewrite IH, first_of_app, last_of_cons. tauto.
Qed.

(** A segment only depends on its own slots. *)
Lemma dll_frame E E' p ns n :
  (∀ i, i ∈ ns.*1 → E' !! i = E !! i) → dll E p ns n → dll E' p ns n.
Proof.
  revert p. induction ns as [|[i k] ns IH]; intros p Hf; cbn; [done|]. intros [Hi Hd].
  split; [rewrite Hf; set_solver|]. apply IH; [set_solver|done].
Qed.

Lemma dll_lookup E p ns n i : dll E p ns n → i ∈ ns.*1 → is_Some (E !! i).
Proof.
  revert p. induction ns as [|[j k] ns IH]; intros p; cbn; [set_solver|].
  intros [Hj Hd] [->|Hi]%elem_of_cons; eauto.
Qed.

Lemma dll_insert_notin E p ns n i e :
  i ∉ ns.*1 → dll E p ns n → dll (<[i := e]> E) p ns n.
Proof.
  intros Hi. apply dll_frame. intros j Hj. apply list_lookup_insert_ne. set_solver.
Qed.

(** Redirecting the first node's [prev]. *)
Lemma dll_set_prev E p p' i k ns n e :
  i ∉ ns.*1 → E !! i = Some e → dll E p ((i, k) :: ns) n →
  dll (<[i := set_prev p' e]> E) p' ((i, k) :: ns) n.
Proof.
  intros Hi He [Hl Hd]. rewrite He in Hl. injection Hl as ->. split; [|by apply dll_insert_notin].
  apply list_lookup_insert_eq. by eapply lookup_lt_Some.
Qed.

(** Redirecting the last node's [next]. *)
Lemma dll_set_next E p l i k n n' e :
  i ∉ l.*1 → E !! i = Some e → dll E p (l ++ [(i, k)]) n →
  dll (<[i := set_next n' e]> E) p (l ++ [(i, k)]) n'.
Proof.
  rewrite !dll_app. cbn. intros Hi He [Hd [Hl _]]. rewrite He in Hl. injection Hl as ->.
  split; [by apply dll_insert_notin|]. split; [|done].
  apply list_lookup_insert_eq. by eapply lookup_lt_Some.
Qed.

(** ** The list part of the representation *)
Record linked (s : LruInner) (ns : list node) : Prop := {
  lk_head : lru_head s = first_of ns None;
  lk_tail : lru_tail s = last_of None ns;
  lk_dll : dll (entries s) None ns None;
  lk_nodup : NoDup ns.*1;
}.

(** What [unlink] and [push_front] leave alone. *)
Definition same_slab (s s' : LruInner) : Prop :=
  length (entries s') = length (entries s) ∧ free_indices s' = free_indices s ∧
  lru_index s' = lru_index s.

Lemma same_slab_insert s i e : same_slab s (set_entries (<[i := e]> (entries s)) s).
Proof. repeat split. apply length_insert. Qed.
Lemma same_slab_head s o : same_slab s (set_head o s).
Proof. by repeat split. Qed.
Lemma same_slab_tail s o : same_slab s (set_tail o s).
Proof. by repeat split. Qed.
#[local] Hint Resolve same_slab_insert same_slab_head same_slab_tail : rust.

Lemma same_slab_trans s1 s2 s3 : same_slab s1 s2 → same_slab s2 s3 → same_slab s1 s3.
Proof. intros (H1 & H2 & H3) (H4 & H5 & H6). repeat split; congruence. Qed.

Lemma get_entry_ok s i e : entries s !! i = Some e → get_entry i s = (Ret e, s).
Proof. intros H. unfold get_entry. munfold. by rewrite H. Qed.

Lemma update_entry_ok s i e f :
  entries s !! i = Some e →
  update_entry i f s = (Ret tt, set_entries (<[i := f e]> (entries s)) s).
Proof. intros H. unfold update_entry. by rewrite (bind_Ret _ _ _ _ _ (get_entry_ok s i e H)). Qed.

Section unlink.
Context (s : LruInner) (l1 l2 : list node) (i : nat) (k : bytes).
Context (Hlk : linked s (l1 ++ (i, k) :: l2)).
Let prev := last_of None l1.
Let next := first_of l2 None.

Lemma nodup_parts : NoDup l1.*1 ∧ NoDup l2.*1 ∧ (i ∉ l1.*1) ∧ (i ∉ l2.*1) ∧
  (∀ j, j ∈ l1.*1 → j ∈ l2.*1 → False).
Proof using Hlk.
  pose proof (lk_nodup _ _ Hlk) as Hnd. rewrite fmap_app, fmap_cons in Hnd. cbn in Hnd.
  apply NoDup_app in Hnd as (? & Hd & [? ?]%NoDup_cons).
  split_and!; try done.
  - intros Hi. apply (Hd i Hi). set_solver.
  - intros j Hj1 Hj2. apply (Hd j Hj1). set_solver.
Qed.

(** The slot of the node to unlink. *)
Lemma unlink_entry : entries s !! i = Some (mkLruEntry k prev next).
Proof using Hlk. pose proof (lk_dll _ _ Hlk) as Hd. apply dll_app in Hd as [_ [Hi _]]. done. Qed.

Lemma unlink_prev_side :
  ∃ s1, (match prev with
         | Some p => update_entry p (set_next next)
         | None => modify (set_head next)
         end) s = (Ret tt, s1) ∧
    lru_head s1 = first_of l1 next ∧ lru_tail s1 = lru_tail s ∧ same_slab s s1 ∧
    dll (entries s1) None l1 next ∧ dll (entries s1) (Some i) l2 None ∧
    entries s1 !! i = entries s !! i.
Proof using Hlk.
  destruct nodup_parts as (Hn1 & Hn2 & Hi1 & Hi2 & Hd12).
  pose proof (lk_dll _ _ Hlk) as Hd. apply dll_app in Hd as [Hd1 [_ Hd2]].
  pose proof (lk_head _ _ Hlk) as Hh. rewrite first_of_app in Hh.
  destruct l1 as [|[p kp] l1' _] using rev_ind; cbn in prev.
  - eexists. split; [reflexivity|]. split_and!; auto with rust.
  - assert (prev = Some p) as -> by (subst prev; unfold last_of; by rewrite last_snoc).
    rewrite fmap_app in Hn1, Hi1, Hd12. cbn in Hn1, Hi1, Hd12.
    pose proof Hd1 as Hd1'. apply dll_app in Hd1' as [_ [Hp _]].
    eexists. split; [by apply update_entry_ok|].
    assert (p ∉ l1'.*1) as Hp1 by (apply NoDup_app in Hn1; set_solver).
    split_and!; [|done|auto with rust| | |].
    + cbn. rewrite Hh. by destruct l1' as [|[]].
    + by eapply dll_set_next.
    + apply dll_insert_notin; [|done]. intros Hp2. apply (Hd12 p); [set_solver|done].
    + apply list_lookup_insert_ne. set_solver.
Qed.

Lemma unlink_next_side s1 :
  lru_tail s1 = lru_tail s →
  dll (entries s1) None l1 next → dll (entries s1) (Some i) l2 None →
  ∃ s2, (match next with
         | Some n => update_entry n (set_prev prev)
         | None => modify (set_tail prev)
         end) s1 = (Ret tt, s2) ∧
    lru_head s2 = lru_head s1 ∧ lru_tail s2 = last_of None (l1 ++ l2) ∧ same_slab s1 s2 ∧
    dll (entries s2) None l1 next ∧ dll (entries s2) prev l2 None ∧
    entries s2 !! i = entries s1 !! i.
Proof using Hlk.
  destruct nodup_parts as (_ & Hn2 & _ & Hi2 & Hd12). intros Ht Hd1 Hd2.
  pose proof (lk_tail _ _ Hlk) as Hlt. rewrite last_of_app, last_of_cons in Hlt.
  rewrite last_of_app. fold prev. destruct l2 as [|[n kn] l2'].
  - eexists. split; [reflexivity|]. split_and!; auto with rust.
  - cbn in Hn2, Hi2. apply NoDup_cons in Hn2 as [Hn Hn2]. rewrite !last_of_cons in *.
    pose proof Hd2 as [He _]. eexists. split; [by apply update_entry_ok|].
    split_and!; [done|cbn; congruence|auto with rust| | |].
    + apply dll_insert_notin; [|done]. intros Hn1. apply (Hd12 n); [done|cbn; set_solver].
    + by eapply dll_set_prev.
    + apply list_lookup_insert_ne. set_solver.
Qed.

(** [unlink] takes the node out of the list and clears its links. *)
Lemma unlink_ok :
  ∃ s', unlink i s = (Ret tt, s') ∧ linked s' (l1 ++ l2) ∧ same_slab s s' ∧
    entries s' !! i = Some (mkLruEntry k None None).
Proof using Hlk.
  pose proof unlink_entry as He. destruct nodup_parts as (Hn1 & Hn2 & Hi1 & Hi2 & Hd12).
  destruct unlink_prev_side as (s1 & H1 & Hh1 & Ht1 & Hs1 & Hd1 & Hd2 & He1).
  destruct (unlink_next_side s1 Ht1 Hd1 Hd2) as (s2 & H2 & Hh2 & Ht2 & Hs2 & Hd1' & Hd2' & He2).
  rewrite He1, He in He2. pose proof (lookup_lt_Some _ _ _ He2) as Hlt.
  set (E3 := <[i := mkLruEntry k None next]> (entries s2)).
  assert (entries (set_entries E3 s2) !! i = Some (mkLruEntry k None next)) as He3
    by by apply list_lookup_insert_eq.
  exists (set_entries (<[i := mkLruEntry k None None]> E3) (set_entries E3 s2)).
  split; [|split; [|split]].
  - unfold unlink. do 2 rewrite (bind_Ret _ _ _ _ _ (get_entry_ok s i _ He)).
    cbn [le_prev le_next]. rewrite (bind_Ret _ _ _ _ _ H1), (bind_Ret _ _ _ _ _ H2).
    rewrite (bind_Ret _ _ _ _ _ (update_entry_ok s2 i _ (set_prev None) He2)).
    exact (update_entry_ok _ i _ (set_next None) He3).
  - split; cbn.
    + rewrite Hh2, Hh1, first_of_app. done.
    + done.
    + apply dll_app. split; do 2 (apply dll_insert_notin; [done|]); done.
    + rewrite fmap_app. apply NoDup_app. naive_solver.
  - eapply same_slab_trans; [exact Hs1|]. eapply same_slab_trans; [exact Hs2|].
    apply (same_slab_trans _ (set_entries E3 s2)); [apply same_slab_insert|].
    exact (same_slab_insert (set_entries E3 s2) i _).
  - apply list_lookup_insert_eq. subst E3. by rewrite length_insert.
Qed.
End unlink.

(** [push_front] puts a free-standing slot at the head of the list. *)
Lemma push_front_ok s ns i k p n :
  linked s ns → entries s !! i = Some (mkLruEntry k p n) → i ∉ ns.*1 →
  ∃ s', push_front i s = (Ret tt, s') ∧ linked s' ((i, k) :: ns) ∧ same_slab s s'.
Proof.
  intros [Hh Ht Hd Hn] He Hi. pose proof (lookup_lt_Some _ _ _ He) as Hlt.
  set (s1 := set_entries (<[i := mkLruEntry k None n]> (entries s)) s).
  assert (entries s1 !! i = Some (mkLruEntry k None n)) as He1 by by apply list_lookup_insert_eq.
  set (s2 := set_entries (<[i := mkLruEntry k None (lru_head s)]> (entries s1)) s1).
  assert (entries s2 !! i = Some (mkLruEntry k None (lru_head s))) as He2.
  { apply list_lookup_insert_eq. cbn. by rewrite length_insert. }
  assert (dll (entries s2) None ns None) as Hd2 by (do 2 (apply dll_insert_notin; [done|]); done).
  assert (same_slab s s2) as Hs2.
  { apply (same_slab_trans _ s1); apply same_slab_insert. }
  unfold push_front.
  rewrite (bind_Ret _ _ _ _ _ (update_entry_ok s i _ (set_prev None) He)).
  erewrite bind_Ret; [|reflexivity].
  rewrite (bind_Ret _ _ _ _ _ (update_entry_ok s1 i _ (set_next (lru_head s1)) He1)).
  erewrite bind_Ret; [|reflexivity]. change (set_entries _ s1) with s2.
  change (lru_head s2) with (lru_head s).
  destruct ns as [|[h kh] ns']; cbn in Hh.
  - rewrite Hh. erewrite bind_Ret; [|reflexivity]. erewrite bind_Ret; [|reflexivity].
    erewrite bind_Ret; [|reflexivity].
    change (lru_tail (set_head (Some i) s2)) with (lru_tail s). rewrite Ht.
    eexists. split; [reflexivity|]. split; [|done]. split; cbn; [done|done| |].
    + rewrite Hh in He2. done.
    + apply NoDup_singleton.
  - rewrite Hh. cbn in Hi, Hn. apply NoDup_cons in Hn as [Hhn Hn].
    pose proof Hd2 as [Heh _].
    rewrite (bind_Ret _ _ _ _ _ (update_entry_ok s2 h _ (set_prev (Some i)) Heh)).
    erewrite bind_Ret; [|reflexivity]. erewrite bind_Ret; [|reflexivity].
    change (lru_tail (set_head _ _)) with (lru_tail s). rewrite Ht, last_of_cons.
    assert (∃ j, last_of (Some h) ns' = Some j) as [j Hj]
      by (unfold last_of; destruct (last ns') as [[]|]; eauto).
    rewrite Hj. eexists. split; [reflexivity|]. split.
    + split; cbn [lru_head lru_tail entries set_head set_entries].
      * done.
      * rewrite !last_of_cons. change (lru_tail s2) with (lru_tail s).
        by rewrite Ht, last_of_cons.
      * split.
        -- rewrite list_lookup_insert_ne by set_solver. rewrite He2, Hh. done.
        -- by eapply dll_set_prev.
      * cbn. apply NoDup_cons. split; [done|]. by apply NoDup_cons.
    + eapply same_slab_trans; [exact Hs2|]. eapply same_slab_trans; [apply same_slab_insert|].
      apply same_slab_head.
Qed.

(** ** The representation invariant *)
Record lru_repr (s : LruInner) (ns : list node) : Prop := {
  lr_linked : linked s ns;
  lr_index : ∀ k i, lru_index s !! k = Some i ↔ (i, k) ∈ ns;
  lr_keys : NoDup ns.*2;
  lr_slots : free_indices s ++ ns.*1 ≡ₚ seq 0 (length (entries s));
}.

(** The policy as a list of keys, most recently used first. *)
Definition lru_abs (s : LruInner) (keys : list bytes) : Prop :=
  ∃ ns, lru_repr s ns ∧ ns.*2 = keys.

Lemma lru_new_abs : lru_abs lru_new [].
Proof.
  exists []. split; [|done]. split; [split; try done; apply NoDup_nil_2| |apply NoDup_nil_2|done].
  intros k i. cbn. rewrite lookup_empty. split; [done|]. intros H%elem_of_nil. done.
Qed.

Lemma lru_abs_NoDup s keys : lru_abs s keys → NoDup keys.
Proof. intros (ns & Hr & <-). apply Hr. Qed.

Section repr.
Context (s : LruInner) (ns : list node) (Hr : lru_repr s ns).

Lemma repr_index_None k : lru_index s !! k = None → k ∉ ns.*2.
Proof using Hr.
  intros Hk ([i k'] & -> & Hin)%list_elem_of_fmap. cbn in *.
  apply (lr_index _ _ Hr) in Hin. congruence.
Qed.

Lemma repr_index_Some k i :
  lru_index s !! k = Some i → ∃ l1 l2, ns = l1 ++ (i, k) :: l2.
Proof using Hr. intros H%(lr_index _ _ Hr). by apply list_elem_of_split. Qed.

Lemma repr_slot i : i ∈ free_indices s → i < length (entries s) ∧ i ∉ ns.*1.
Proof using Hr.
  intros Hi. pose proof (lr_slots _ _ Hr) as Hp. split.
  - assert (i ∈ seq 0 (length (entries s))) as H%elem_of_seq; [|lia].
    rewrite <-Hp. set_solver.
  - assert (NoDup (free_indices s ++ ns.*1)) as (_ & Hd & _)%NoDup_app.
    { rewrite Hp. apply NoDup_seq. }
    by apply Hd.
Qed.

Lemma repr_size : size (lru_index s) = length ns.
Proof using Hr.
  replace (lru_index s) with (list_to_map (prod_swap <$> ns) : gmap bytes nat).
  - rewrite map_size_list_to_map, length_fmap; [done|].
    rewrite <-list_fmap_compose. exact (lr_keys _ _ Hr).
  - apply map_eq. intros k. apply option_eq. intros i.
    rewrite (lr_index _ _ Hr), <-elem_of_list_to_map, list_elem_of_fmap;
      [|rewrite <-list_fmap_compose; exact (lr_keys _ _ Hr)].
    split; [by intros ([? ?] & [= -> ->] & ?)|]. intros Hin. by exists (i, k).
Qed.
End repr.

Lemma NoDup_swap_mid {A} (l1 l2 : list A) x :
  NoDup (l1 ++ x :: l2) ↔ NoDup (x :: l1 ++ l2).
Proof. by rewrite <-Permutation_middle. Qed.

(** Moving an existing node to the front. *)
Lemma repr_move_front s s' l1 l2 i k :
  lru_repr s (l1 ++ (i, k) :: l2) → linked s' ((i, k) :: l1 ++ l2) → same_slab s s' →
  lru_repr s' ((i, k) :: l1 ++ l2).
Proof.
  intros [_ Hi Hk Hs] Hl (Hlen & Hf & Hidx). split; [done| | |].
  - intros k' i'. rewrite Hidx, Hi. set_solver.
  - rewrite fmap_app in Hk. cbn in Hk |- *. rewrite fmap_app. by apply NoDup_swap_mid.
  - rewrite Hlen, Hf, <-Hs. cbn. rewrite !fmap_app. cbn. by rewrite Permutation_middle.
Qed.

(** Dropping a node and returning its slot to the free list. *)
Lemma repr_drop s s' l1 l2 i k :
  lru_repr s (l1 ++ (i, k) :: l2) → linked s' (l1 ++ l2) →
  length (entries s') = length (entries s) →
  free_indices s' = vec_push i (free_indices s) → lru_index s' = delete k (lru_index s) →
  lru_repr s' (l1 ++ l2).
Proof.
  intros [_ Hi Hk Hs] Hl Hlen Hf Hidx.
  rewrite fmap_app in Hk. cbn in Hk. apply NoDup_swap_mid, NoDup_cons in Hk as [Hk Hnd].
  rewrite <-fmap_app in Hk, Hnd. split; [done| |done|].
  - intros k' i'. rewrite Hidx. destruct (decide (k = k')) as [<-|Hne].
    + rewrite lookup_delete_eq. split; [done|]. intros Hin. destruct Hk.
      apply list_elem_of_fmap. by exists (i', k).
    + rewrite lookup_delete_ne, Hi by done. set_solver.
  - rewrite Hlen, Hf, <-Hs. unfold vec_push. rewrite !fmap_app, <-app_assoc. cbn.
    by rewrite Permutation_middle.
Qed.

(** The common tail of [remove] and [evict_lru]. *)
Lemma unlink_and_free s l1 l2 i k :
  lru_repr s (l1 ++ (i, k) :: l2) →
  ∃ s1, unlink i (set_index (delete k (lru_index s)) s) = (Ret tt, s1) ∧
    lru_repr (set_free_indices (vec_push i (free_indices s1)) s1) (l1 ++ l2).
Proof.
  intros Hr. set (s0 := set_index (delete k (lru_index s)) s).
  assert (linked s0 (l1 ++ (i, k) :: l2)) as Hl0 by (destruct (lr_linked _ _ Hr); by split).
  destruct (unlink_ok s0 l1 l2 i k Hl0) as (s1 & H1 & Hl1 & (Hlen & Hf & Hidx) & _).
  exists s1. split; [done|]. apply (repr_drop s _ l1 l2 i k); try done.
  - by destruct Hl1.
  - cbn. by rewrite Hf.
Qed.

(** A fresh slot from [alloc_entry]. *)
Lemma alloc_entry_ok s ns k :
  lru_repr s ns →
  ∃ i s1, alloc_entry k s = (Ret i, s1) ∧ linked s1 ns ∧ (i ∉ ns.*1) ∧
    entries s1 !! i = Some (mkLruEntry k None None) ∧ lru_index s1 = lru_index s ∧
    free_indices s1 ++ i :: ns.*1 ≡ₚ seq 0 (length (entries s1)).
Proof.
  intros Hr. pose proof Hr as [[Hh Ht Hd Hn] Hi Hk Hs]. unfold alloc_entry.
  erewrite bind_Ret; [|reflexivity].
  destruct (vec_pop (free_indices s)) as [[i rest]|] eqn:Hp.
  - apply vec_pop_Some in Hp.
    destruct (repr_slot s ns Hr i) as [Hlt Hni]; [rewrite Hp; unfold vec_push; set_solver|].
    apply lookup_lt_is_Some in Hlt as [e He]. pose proof (lookup_lt_Some _ _ _ He) as Hlt.
    set (s0 := set_free_indices rest s).
    exists i, (set_entries (<[i := mkLruEntry k None None]> (entries s0)) s0). split.
    { erewrite bind_Ret; [|reflexivity].
      erewrite bind_Ret; [|exact (update_entry_ok s0 i e _ He)]. done. }
    split_and!; cbn; [|done|by apply list_lookup_insert_eq|done|].
    + split; cbn; [done|done|by apply dll_insert_notin|done].
    + rewrite length_insert, <-Hs, Hp. unfold vec_push. by rewrite <-app_assoc.
  - apply vec_pop_None in Hp. rewrite Hp in Hs. cbn in Hs.
    assert (length (entries s) ∉ ns.*1) as Hni.
    { rewrite Hs. intros H%elem_of_seq. lia. }
    exists (length (entries s)).
    exists (set_entries (vec_push (mkLruEntry k None None) (entries s)) s). split; [done|].
    unfold vec_push. split_and!; cbn; [|done|by apply list_lookup_middle|done|].
    + split; cbn; [done|done| |done]. eapply dll_frame; [|done]. intros j Hj.
      apply lookup_app_l. rewrite Hs in Hj. apply elem_of_seq in Hj. lia.
    + rewrite Hp, length_app, seq_app. cbn. rewrite <-Hs. apply Permutation_cons_append.
Qed.

Lemma touch_ok s keys k :
  lru_abs s keys → ∃ s', touch k s = (Ret tt, s') ∧ lru_abs s' (touch_spec k keys).
Proof.
  intros (ns & Hr & <-). unfold touch. erewrite bind_Ret; [|reflexivity].
  unfold touch_spec. destruct (lru_index s !! k) as [i|] eqn:Hk.
  - destruct (repr_index_Some s ns Hr k i Hk) as (l1 & l2 & ->).
    destruct (unlink_ok s l1 l2 i k (lr_linked _ _ Hr)) as (s1 & H1 & Hl1 & Hs1 & He1).
    destruct (push_front_ok s1 (l1 ++ l2) i k None None Hl1 He1) as (s2 & H2 & Hl2 & Hs2).
    { pose proof (lk_nodup _ _ (lr_linked _ _ Hr)) as Hn. rewrite fmap_app in Hn |- *.
      by apply NoDup_swap_mid, NoDup_cons in Hn as [? _]. }
    exists s2. split; [by rewrite (bind_Ret _ _ _ _ _ H1)|].
    exists ((i, k) :: l1 ++ l2). split.
    + apply (repr_move_front s); [done|done|]. by eapply same_slab_trans.
    + pose proof (lr_keys _ _ Hr) as Hkd. rewrite !fmap_app in *. cbn in *.
      by rewrite filter_neq_split, fmap_app.
  - pose proof (repr_index_None s ns Hr k Hk) as Hni.
    destruct (alloc_entry_ok s ns k Hr) as (i & s1 & H1 & Hl1 & Hi & He1 & Hx1 & Hp1).
    destruct (push_front_ok s1 ns i k None None Hl1 He1 Hi) as (s2 & H2 & Hl2 & Hlen & Hf & Hx2).
    rewrite (bind_Ret _ _ _ _ _ H1), (bind_Ret _ _ _ _ _ H2).
    eexists. split; [reflexivity|]. exists ((i, k) :: ns). split.
    + pose proof Hr as [_ Hidx Hkd _]. split; cbn.
      * by destruct Hl2.
      * intros k' i'. rewrite Hx2, Hx1, elem_of_cons. destruct (decide (k = k')) as [<-|Hne].
        -- rewrite lookup_insert_eq. split; [naive_solver|]. intros [[= ->]|Hin]; [done|].
           destruct Hni. apply list_elem_of_fmap. by exists (i', k).
        -- rewrite lookup_insert_ne, Hidx by done. naive_solver.
      * by apply NoDup_cons.
      * by rewrite Hlen, Hf.
    + cbn. by rewrite filter_neq_notin.
Qed.

Lemma lru_remove_ok s keys k :
  lru_abs s keys → ∃ s', lru_remove k s = (Ret tt, s') ∧ lru_abs s' (remove_spec k keys).
Proof.
  intros (ns & Hr & <-). unfold lru_remove, remove_spec. erewrite bind_Ret; [|reflexivity].
  destruct (lru_index s !! k) as [i|] eqn:Hk.
  - destruct (repr_index_Some s ns Hr k i Hk) as (l1 & l2 & ->).
    destruct (unlink_and_free s l1 l2 i k Hr) as (s1 & H1 & Hr1).
    eexists. split; [erewrite bind_Ret; [|reflexivity]; by rewrite (bind_Ret _ _ _ _ _ H1)|].
    eexists. split; [exact Hr1|]. pose proof (lr_keys _ _ Hr) as Hkd.
    rewrite !fmap_app in *. cbn in *. by rewrite filter_neq_split.
  - exists s. split; [done|]. exists ns. split; [done|].
    symmetry. apply filter_neq_notin. by eapply repr_index_None.
Qed.

Lemma evict_ok s keys :
  lru_abs s keys →
  match vec_pop keys with
  | Some (k, keys') => ∃ s', evict_lru s = (Ret (Some k), s') ∧ lru_abs s' keys'
  | None => evict_lru s = (Ret None, s)
  end.
Proof.
  intros (ns & Hr & <-). pose proof (lk_tail _ _ (lr_linked _ _ Hr)) as Ht.
  unfold evict_lru. erewrite bind_Ret; [|reflexivity].
  destruct ns as [|[i k] l _] using rev_ind; [by rewrite Ht|].
  rewrite fmap_app. cbn [fmap list_fmap snd]. fold (vec_push k l.*2). rewrite vec_pop_push.
  rewrite Ht. unfold last_of. rewrite last_snoc.
  pose proof (unlink_entry s l [] i k (lr_linked _ _ Hr)) as He.
  rewrite (bind_Ret _ _ _ _ _ (get_entry_ok s i _ He)). cbn [le_prefix_hash].
  destruct (unlink_and_free s l [] i k Hr) as (s1 & H1 & Hr1). rewrite app_nil_r in Hr1.
  eexists. split.
  - erewrite bind_Ret; [|reflexivity]. rewrite (bind_Ret _ _ _ _ _ H1).
    by erewrite bind_Ret; [|reflexivity].
  - by exists l.
Qed.

Lemma len_ok s keys : lru_abs s keys → lru_len s = (Ret (length keys), s).
Proof.
  intros (ns & Hr & <-). unfold lru_len, gets. by rewrite (repr_size s ns Hr), length_fmap.
Qed.

(** ** The size of the slab *)
Lemma repr_slots_length s ns :
  lru_repr s ns → length (entries s) = length (free_indices s) + size (lru_index s).
Proof.
  intros Hr. rewrite (repr_size s ns Hr), <-(length_fmap fst ns), <-length_app.
  by rewrite (lr_slots _ _ Hr), length_seq.
Qed.

Lemma alloc_entry_length k s i s1 :
  alloc_entry k s = (Ret i, s1) →
  length (entries s1) =
    (if bool_decide (free_indices s = []) then S (length (entries s)) else length (entries s)).
Proof.
  unfold alloc_entry, update_entry, get_entry. munfold.
  destruct (vec_pop (free_indices s)) as [[j rest]|] eqn:Hp.
  - apply vec_pop_Some in Hp. rewrite bool_decide_false by (rewrite Hp; by destruct rest).
    cbn. destruct (entries s !! j); intros; simplify_eq. cbn. apply length_insert.
  - apply vec_pop_None in Hp. rewrite bool_decide_true by done.
    intros; simplify_eq. cbn. unfold vec_push. rewrite length_app. cbn. lia.
Qed.

Lemma touch_length s ns k s' :
  lru_repr s ns → touch k s = (Ret tt, s') →
  length (entries s') =
    (if bool_decide (lru_index s !! k = None ∧ free_indices s = [])
     then S (length (entries s)) else length (entries s)).
Proof.
  intros Hr. unfold touch. erewrite bind_Ret by reflexivity.
  destruct (lru_index s !! k) as [i|] eqn:Hk.
  - rewrite bool_decide_false by naive_solver.
    destruct (repr_index_Some s ns Hr k i Hk) as (l1 & l2 & ->).
    destruct (nodup_parts s l1 l2 i k (lr_linked _ _ Hr)) as (_ & _ & Hi1 & Hi2 & _).
    destruct (unlink_ok s l1 l2 i k (lr_linked _ _ Hr)) as (s2 & H2 & Hl2 & [Hlen2 _] & He2).
    destruct (push_front_ok s2 (l1 ++ l2) i k None None Hl2 He2) as (s3 & H3 & _ & [Hlen3 _]);
      [rewrite fmap_app; set_solver|].
    rewrite (bind_Ret _ _ _ _ _ H2), H3. intros; simplify_eq. congruence.
  - destruct (alloc_entry_ok s ns k Hr) as (i & s1 & H1 & Hl1 & Hi & He1 & _).
    destruct (push_front_ok s1 ns i k None None Hl1 He1 Hi) as (s3 & H3 & _ & [Hlen3 _]).
    rewrite (bind_Ret _ _ _ _ _ H1), (bind_Ret _ _ _ _ _ H3).
    unfold modify. intros; simplify_eq. cbn. rewrite Hlen3, (alloc_entry_length k s i s1 H1).
    repeat case_bool_decide; naive_solver.
Qed.

(** ** [LruPolicy] implements the interface *)
Global Instance LruPolicy : EvictionPolicy LruInner := {
  policy_new := lru_new;
  policy_touch := touch;
  policy_remove := lru_remove;
  policy_evict := evict_lru;
  policy_len := lru_len;
}.

Global Instance LruPolicy_ok : EvictionPolicyOk LruInner := {
  policy_abs := lru_abs;
  policy_new_ok := lru_new_abs;
  policy_NoDup := lru_abs_NoDup;
  policy_touch_ok := touch_ok;
  policy_remove_ok := lru_remove_ok;
  policy_evict_ok := evict_ok;
  policy_len_ok := len_ok;
}.

(** ** Properties *)

(** C6: The slab refines the recency list: from [LruPolicy::new], every sequence of
    [touch], [remove], [evict_lru] and [len] calls runs without a panic and returns
    what the same calls return on a plain list of keys, most recent first, and the
    final slab still represents that list. *)
Theorem lru_refines_list (ops : list policy_op) :
  ∃ s', policy_run ops lru_new = (Ret (spec_run ops []).1, s') ∧
        lru_abs s' (spec_run ops []).2.
Proof. exact (policy_run_ok (P := LruInner) ops lru_new [] lru_new_abs). Qed.

(** The slab does not leak slots: in any reachable state its length is the number of
    tracked keys plus the number of recycled slots, and touching a key grows the slab
    exactly when the key is new and no recycled slot is left. *)
Theorem lru_slab_compact ops s outs k s'
    (Hrun : policy_run ops lru_new = (Ret outs, s))
    (Htouch : touch k s = (Ret tt, s')) :
  length (entries s) = length (free_indices s) + size (lru_index s) ∧
  length (entries s') =
    (if bool_decide (lru_index s !! k = None ∧ free_indices s = [])
     then S (length (entries s)) else length (entries s)).
Proof.
  destruct (policy_run_ok (P := LruInner) ops policy_new [] policy_new_ok) as (s1 & Hr1 & (ns & Hr & _)).
  cbn [policy_new LruPolicy] in Hr1. rewrite Hr1 in Hrun. simplify_eq. split.
  - by apply (repr_slots_length s ns).
  - by eapply touch_length.
Qed.

Lemma lru_slab_compact_witness :
  let s := (policy_run [PTouch [1%Z]; PTouch [2%Z]; PEvict] lru_new).2 in
  length (entries (touch [3%Z] s).2) = 2.
Proof.
  intros s.
  destruct (lru_slab_compact [PTouch [1%Z]; PTouch [2%Z]; PEvict] s
    [ODone; ODone; OVictim (Some [1%Z])] [3%Z] (touch [3%Z] s).2) as [_ ->];
    vm_compute; reflexivity.
Defined.
