(* ===== verification/Index.v ===== *)
(** * The block index (crates/cmx-block-store/src/index.rs)

    [BlockIndex] maps a 16-byte key to its block locations and keeps an eviction policy
    in step with the map.  Everything is stated for any policy satisfying the interface
    of [Policy]; the agent uses [LruInner].  [index_abs] relates an index to a bounded
    recency list of (key, entry) pairs, and every method refines the list operation. *)
From S2P Require Import Prelude Block Policy Lru.

Record IndexEntry := mkIndexEntry {
  ie_blocks : list BlockLocation;
  ie_created_at : Z;
}.

Record BlockIndex (P : Type) := mkBlockIndex {
  bi_map : gmap bytes IndexEntry;   (* DashMap<[u8; 16], IndexEntry> *)
  bi_lru : P;
  bi_capacity : Z;
}.
Arguments mkBlockIndex {P}.
Arguments bi_map {P}.
Arguments bi_lru {P}.
Arguments bi_capacity {P}.

Section operations.
Context `{EvictionPolicy P}.

Definition set_bi_map (m : gmap bytes IndexEntry) (s : BlockIndex P) : BlockIndex P :=
  mkBlockIndex m (bi_lru s) (bi_capacity s).
Definition set_bi_lru (l : P) (s : BlockIndex P) : BlockIndex P :=
  mkBlockIndex (bi_map s) l (bi_capacity s).

(** Calls on [self.lru]. *)
Definition on_lru {A} (m : M P A) : M (BlockIndex P) A := zoom bi_lru set_bi_lru m.

(** [BlockIndex::new]. *)
Definition index_new (capacity : Z) : BlockIndex P := mkBlockIndex ∅ policy_new capacity.

(** [BlockIndex::lookup]. *)
Definition index_lookup (prefix_hash : bytes) : M (BlockIndex P) (option IndexEntry) :=
  self ← gets (λ s, s);
  match bi_map self !! prefix_hash with
  | None => mret None
  | Some entry => on_lru (policy_touch prefix_hash);; mret (Some entry)
  end.

(** The [while self.map.len() >= self.capacity] loop of [insert]. *)
Fixpoint evict_loop (fuel : nat) (evicted : list bytes) : M (BlockIndex P) (list bytes) :=
  match fuel with
  | 0 => λ s, (Fuel, s)
  | S fuel =>
      self ← gets (λ s, s);
      if (bi_capacity self <=? Z.of_nat (size (bi_map self)))%Z then
        victim ← on_lru policy_evict;
        match victim with
        | Some victim =>
            modify (λ s, set_bi_map (delete victim (bi_map s)) s);;
            evict_loop fuel (vec_push victim evicted)
        | None => mret evicted
        end
      else mret evicted
  end.

(** [BlockIndex::insert]. *)
Definition index_insert (prefix_hash : bytes) (blocks : list BlockLocation) (created_at : Z) :
    M (BlockIndex P) (list bytes) :=
  self ← gets (λ s, s);
  evicted ← (if bool_decide (is_Some (bi_map self !! prefix_hash)) then mret []
             else evict_loop (S (size (bi_map self))) []);
  modify (λ s, set_bi_map (<[prefix_hash := mkIndexEntry blocks created_at]> (bi_map s)) s);;
  on_lru (policy_touch prefix_hash);;
  mret evicted.

(** [BlockIndex::remove]. *)
Definition index_remove (prefix_hash : bytes) : M (BlockIndex P) (option IndexEntry) :=
  self ← gets (λ s, s);
  match bi_map self !! prefix_hash with
  | None => mret None
  | Some entry =>
      modify (λ s, set_bi_map (delete prefix_hash (bi_map s)) s);;
      on_lru (policy_remove prefix_hash);;
      mret (Some entry)
  end.

(** [BlockIndex::len], [is_empty], [contains]. *)
Definition index_len : M (BlockIndex P) Z := gets (λ s, Z.of_nat (size (bi_map s))).
Definition index_is_empty : M (BlockIndex P) bool :=
  gets (λ s, bool_decide (bi_map s = ∅)).
Definition index_contains (prefix_hash : bytes) : M (BlockIndex P) bool :=
  gets (λ s, bool_decide (is_Some (bi_map s !! prefix_hash))).
End operations.

(** ** Abstract specification: a bounded recency list *)
Abbreviation cache := (list (bytes * IndexEntry)).

(** The entry stored under [k]. *)
Definition assoc (k : bytes) (c : cache) : option IndexEntry :=
  (list_to_map c : gmap bytes IndexEntry) !! k.
Definition forget (k : bytes) (c : cache) : cache := filter (λ x, x.1 ≠ k) c.

(** How many entries an insertion of a new key leaves in place. *)
Definition room (capacity : Z) : nat := Z.to_nat (capacity - 1).

Definition lookup_spec (k : bytes) (c : cache) : option IndexEntry * cache :=
  match assoc k c with
  | Some e => (Some e, (k, e) :: forget k c)
  | None => (None, c)
  end.
Definition insert_spec (capacity : Z) (k : bytes) (e : IndexEntry) (c : cache) :
    list bytes * cache :=
  match assoc k c with
  | Some _ => ([], (k, e) :: forget k c)
  | None => (reverse (drop (room capacity) c).*1, (k, e) :: take (room capacity) c)
  end.
Definition delete_spec (k : bytes) (c : cache) : option IndexEntry * cache :=
  (assoc k c, forget k c).

Lemma forget_keys k c : (forget k c).*1 = remove_spec k c.*1.
Proof.
  unfold forget, remove_spec. induction c as [|[k' e] c IH]; [done|].
  rewrite fmap_cons, !filter_cons. cbn [fst].
  destruct (decide (k' ≠ k)); [|done]. rewrite fmap_cons. by f_equal.
Qed.

Lemma assoc_Some k e c : NoDup c.*1 → assoc k c = Some e ↔ (k, e) ∈ c.
Proof. intros Hn. unfold assoc. by rewrite <-elem_of_list_to_map. Qed.

Lemma assoc_None k c : assoc k c = None ↔ k ∉ c.*1.
Proof. unfold assoc. symmetry. apply not_elem_of_list_to_map. Qed.

Lemma forget_notin k c : k ∉ c.*1 → forget k c = c.
Proof.
  intros Hk. apply filter_all, Forall_forall. intros [k' e] Hin Heq. cbn in Heq. subst k'.
  apply Hk, list_elem_of_fmap. by exists (k, e).
Qed.

Lemma list_to_map_forget k c :
  NoDup c.*1 → (list_to_map (forget k c) : gmap bytes IndexEntry) = delete k (list_to_map c).
Proof.
  intros Hn. induction c as [|[k' e] c IH]; [by cbn; rewrite delete_empty|].
  rewrite fmap_cons in Hn. apply NoDup_cons in Hn as [Hk Hn]. cbn [fst] in Hk.
  unfold forget in *. rewrite filter_cons. cbn [fst]. destruct (decide (k' ≠ k)) as [Hne|Heq].
  - cbn. by rewrite IH, delete_insert_ne by done.
  - apply dec_stable in Heq as ->. fold (forget k c). cbn.
    rewrite forget_notin, delete_insert_id; [done| |done]. by apply not_elem_of_list_to_map.
Qed.

Lemma list_to_map_drop_last (c : cache) k e :
  k ∉ c.*1 → (list_to_map c : gmap bytes IndexEntry) = delete k (list_to_map (c ++ [(k, e)])).
Proof.
  intros Hk. rewrite list_to_map_snoc by done.
  rewrite delete_insert_id; [done|]. by apply not_elem_of_list_to_map.
Qed.

(** ** Refinement *)
Section refinement.
Context `{EvictionPolicyOk P}.
Implicit Types (s : BlockIndex P) (c : cache).

(** The map holds the cache's entries and the policy its keys, most recent first. *)
Definition index_abs s c : Prop :=
  policy_abs (bi_lru s) c.*1 ∧ bi_map s = list_to_map c.

Lemma index_abs_NoDup s c : index_abs s c → NoDup c.*1.
Proof. intros [Ha _]. by eapply policy_NoDup. Qed.

Lemma index_abs_lookup s c k : index_abs s c → bi_map s !! k = assoc k c.
Proof. by intros [_ ->]. Qed.

Lemma index_abs_size s c : index_abs s c → size (bi_map s) = length c.
Proof.
  intros Ha. pose proof (index_abs_NoDup s c Ha). destruct Ha as [_ ->].
  by apply map_size_list_to_map.
Qed.

Lemma index_abs_new capacity : index_abs (index_new capacity) [].
Proof. split; [apply policy_new_ok|done]. Qed.

Lemma on_lru_Ret {A} (m : M P A) s a l :
  m (bi_lru s) = (Ret a, l) → on_lru m s = (Ret a, set_bi_lru l s).
Proof. intros Hm. unfold on_lru, zoom. by rewrite Hm. Qed.

Lemma lookup_ok s c k :
  index_abs s c →
  ∃ s', index_lookup k s = (Ret (lookup_spec k c).1, s') ∧
    index_abs s' (lookup_spec k c).2 ∧ bi_capacity s' = bi_capacity s.
Proof.
  intros Ha. unfold index_lookup, lookup_spec. erewrite bind_Ret by reflexivity.
  rewrite (index_abs_lookup s c k Ha). destruct (assoc k c) as [e|] eqn:Hk; [|by exists s].
  destruct Ha as [Hp Hm]. destruct (policy_touch_ok _ _ k Hp) as (l & Ht & Hp').
  exists (set_bi_lru l s). rewrite (bind_Ret _ _ _ _ _ (on_lru_Ret _ _ _ _ Ht)).
  split; [done|]. split; [|done]. pose proof (policy_NoDup _ _ Hp) as Hn. split; cbn.
  - by rewrite forget_keys.
  - rewrite Hm, list_to_map_forget, insert_delete_eq by done.
    symmetry. by apply insert_id.
Qed.

Lemma remove_ok s c k :
  index_abs s c →
  ∃ s', index_remove k s = (Ret (delete_spec k c).1, s') ∧
    index_abs s' (delete_spec k c).2 ∧ bi_capacity s' = bi_capacity s.
Proof.
  intros Ha. unfold index_remove, delete_spec. erewrite bind_Ret by reflexivity.
  rewrite (index_abs_lookup s c k Ha). destruct (assoc k c) as [e|] eqn:Hk.
  - destruct Ha as [Hp Hm]. pose proof (policy_NoDup _ _ Hp) as Hn.
    destruct (policy_remove_ok _ _ k Hp) as (l & Ht & Hp').
    erewrite bind_Ret by reflexivity.
    eexists. split; [by erewrite bind_Ret; [|apply on_lru_Ret, Ht]|].
    split; [|done]. split; cbn.
    + by rewrite forget_keys.
    + by rewrite Hm, list_to_map_forget.
  - exists s. split; [done|]. split; [|done]. cbn.
    rewrite forget_notin by by apply assoc_None. done.
Qed.

(** The eviction loop drops the least recently used entries until one more fits. *)
Lemma evict_loop_ok fuel evicted s c :
  index_abs s c → length c < fuel →
  ∃ s', evict_loop fuel evicted s =
      (Ret (evicted ++ reverse (drop (room (bi_capacity s)) c).*1), s') ∧
    index_abs s' (take (room (bi_capacity s)) c) ∧ bi_capacity s' = bi_capacity s.
Proof.
  revert evicted s c. induction fuel as [|fuel IH]; intros evicted s c Ha Hf; [lia|].
  cbn [evict_loop]. erewrite bind_Ret by reflexivity. rewrite (index_abs_size s c Ha).
  unfold room. destruct (Z.leb_spec (bi_capacity s) (Z.of_nat (length c))) as [Hle|Hlt].
  - pose proof (index_abs_NoDup s c Ha) as Hn. pose proof Ha as [Hp Hm].
    pose proof (policy_evict_ok _ _ Hp) as He.
    destruct c as [|[k e] c _] using rev_ind.
    + cbn in He. rewrite (bind_Ret _ _ _ _ _ (on_lru_Ret _ _ _ _ He)).
      rewrite drop_nil, take_nil, app_nil_r. exists s. destruct s; by split_and!.
    + rewrite fmap_app in He. cbn in He. fold (vec_push k c.*1) in He. rewrite vec_pop_push in He.
      destruct He as (l & He & Hp'). rewrite (bind_Ret _ _ _ _ _ (on_lru_Ret _ _ _ _ He)).
      erewrite bind_Ret by reflexivity. rewrite fmap_app in Hn. apply NoDup_app in Hn as (Hn & Hk & _).
      assert (k ∉ c.*1) as Hkc by (intros Hin; apply (Hk k Hin); cbn; set_solver).
      rewrite length_app in Hf, Hle. cbn in Hf, Hle.
      set (s1 := set_bi_map _ _).
      destruct (IH (vec_push k evicted) s1 c) as (s' & Hs & Ha' & Hc); [|lia|].
      { split; [done|]. cbn. rewrite Hm. symmetry. by apply list_to_map_drop_last. }
      exists s'. rewrite Hs. cbn in Hc, Ha'. unfold room in *. cbn.
      rewrite take_app_le, drop_app_le by lia. split; [|done].
      rewrite fmap_app, reverse_app. unfold vec_push. cbn. by rewrite <-app_assoc.
  - exists s. rewrite take_ge, drop_ge by lia. cbn. by rewrite app_nil_r.
Qed.

Lemma insert_ok s c k blocks t :
  index_abs s c →
  let e := mkIndexEntry blocks t in
  ∃ s', index_insert k blocks t s = (Ret (insert_spec (bi_capacity s) k e c).1, s') ∧
    index_abs s' (insert_spec (bi_capacity s) k e c).2 ∧ bi_capacity s' = bi_capacity s.
Proof.
  intros Ha e. unfold index_insert, insert_spec. erewrite bind_Ret by reflexivity.
  rewrite (index_abs_lookup s c k Ha).
  assert (∃ ev s1 c1, (if bool_decide (is_Some (assoc k c)) then mret []
      else evict_loop (S (size (bi_map s))) []) s = (Ret ev, s1) ∧
    index_abs s1 c1 ∧ bi_capacity s1 = bi_capacity s ∧
    match assoc k c with
    | Some _ => ([], (k, e) :: forget k c)
    | None => (reverse (drop (room (bi_capacity s)) c).*1, (k, e) :: take (room (bi_capacity s)) c)
    end = (ev, (k, e) :: forget k c1)) as (ev & s1 & c1 & Hev & Ha1 & Hc1 & ->).
  { destruct (assoc k c) eqn:Hk.
    - exists [], s, c. by rewrite bool_decide_true by eauto.
    - rewrite bool_decide_false by (intros []; done). rewrite (index_abs_size s c Ha).
      destruct (evict_loop_ok (S (length c)) [] s c Ha) as (s1 & Hs & Ha1 & Hc); [lia|].
      do 3 eexists. split; [exact Hs|]. split; [exact Ha1|]. split; [done|].
      rewrite forget_notin; [done|]. apply assoc_None in Hk. rewrite fmap_take.
      intros (i & Hin & _)%elem_of_take. by eapply Hk, list_elem_of_lookup_2. }
  rewrite (bind_Ret _ _ _ _ _ Hev). erewrite bind_Ret by reflexivity.
  destruct Ha1 as [Hp Hm]. destruct (policy_touch_ok _ _ k Hp) as (l & Ht & Hp').
  eexists. split; [by erewrite bind_Ret; [|apply on_lru_Ret, Ht]|].
  split; [|done]. pose proof (policy_NoDup _ _ Hp) as Hn. split; cbn.
  - by rewrite forget_keys.
  - by rewrite Hm, list_to_map_forget, insert_delete_eq.
Qed.
End refinement.

(** ** Runs of an index *)
Inductive index_op :=
  | ILookup (k : bytes)
  | IInsert (k : bytes) (blocks : list BlockLocation) (created_at : Z)
  | IRemove (k : bytes)
  | IContains (k : bytes)
  | ILen.

Inductive index_out :=
  | OEntry (e : option IndexEntry)
  | OEvicted (ks : list bytes)
  | OBool (b : bool)
  | ONum (n : Z).

Section runs.
Context `{EvictionPolicyOk P}.

Definition index_step (op : index_op) : M (BlockIndex P) index_out :=
  match op with
  | ILookup k => e ← index_lookup k; mret (OEntry e)
  | IInsert k blocks t => ks ← index_insert k blocks t; mret (OEvicted ks)
  | IRemove k => e ← index_remove k; mret (OEntry e)
  | IContains k => b ← index_contains k; mret (OBool b)
  | ILen => n ← index_len; mret (ONum n)
  end.

Fixpoint index_run (ops : list index_op) : M (BlockIndex P) (list index_out) :=
  match ops with
  | [] => mret []
  | op :: ops => o ← index_step op; os ← index_run ops; mret (o :: os)
  end.
End runs.

Definition cache_step (capacity : Z) (op : index_op) (c : cache) : index_out * cache :=
  match op with
  | ILookup k => let '(e, c') := lookup_spec k c in (OEntry e, c')
  | IInsert k blocks t =>
      let '(ks, c') := insert_spec capacity k (mkIndexEntry blocks t) c in (OEvicted ks, c')
  | IRemove k => let '(e, c') := delete_spec k c in (OEntry e, c')
  | IContains k => (OBool (bool_decide (k ∈ c.*1)), c)
  | ILen => (ONum (Z.of_nat (length c)), c)
  end.

Fixpoint cache_run (capacity : Z) (ops : list index_op) (c : cache) : list index_out * cache :=
  match ops with
  | [] => ([], c)
  | op :: ops =>
      let '(o, c1) := cache_step capacity op c in
      let '(os, c2) := cache_run capacity ops c1 in
      (o :: os, c2)
  end.

Section runs_ok.
Context `{EvictionPolicyOk P}.

Lemma index_step_ok s c op :
  index_abs s c →
  ∃ s', index_step op s = (Ret (cache_step (bi_capacity s) op c).1, s') ∧
    index_abs s' (cache_step (bi_capacity s) op c).2 ∧ bi_capacity s' = bi_capacity s.
Proof.
  intros Ha. destruct op as [k|k blocks t|k|k|]; cbn [index_step cache_step].
  - destruct (lookup_ok s c k Ha) as (s' & Hs & Ha'). exists s'.
    rewrite (bind_Ret _ _ _ _ _ Hs). by destruct (lookup_spec k c).
  - destruct (insert_ok s c k blocks t Ha) as (s' & Hs & Ha'). exists s'.
    rewrite (bind_Ret _ _ _ _ _ Hs). by destruct (insert_spec _ _ _ _).
  - destruct (remove_ok s c k Ha) as (s' & Hs & Ha'). exists s'.
    rewrite (bind_Ret _ _ _ _ _ Hs). by destruct (delete_spec k c).
  - exists s. split; [|done]. unfold index_contains. erewrite bind_Ret by reflexivity.
    rewrite (index_abs_lookup s c k Ha). unfold mret, M_ret. cbn. do 3 f_equal.
    apply bool_decide_ext.
    rewrite <-not_eq_None_Some, assoc_None. destruct (decide (k ∈ c.*1)); tauto.
  - exists s. split; [|done]. unfold index_len. erewrite bind_Ret by reflexivity.
    by rewrite (index_abs_size s c Ha).
Qed.

Lemma index_run_ok ops s c :
  index_abs s c →
  ∃ s', index_run ops s = (Ret (cache_run (bi_capacity s) ops c).1, s') ∧
    index_abs s' (cache_run (bi_capacity s) ops c).2 ∧ bi_capacity s' = bi_capacity s.
Proof.
  revert s c. induction ops as [|op ops IH]; intros s c Ha; cbn [index_run cache_run].
  - by exists s.
  - destruct (index_step_ok s c op Ha) as (s1 & Hs1 & Ha1 & Hc1).
    destruct (cache_step (bi_capacity s) op c) as [o c1]. cbn in Hs1, Ha1.
    destruct (IH s1 c1 Ha1) as (s2 & Hs2 & Ha2 & Hc2). rewrite Hc1 in Hs2, Ha2, Hc2.
    destruct (cache_run (bi_capacity s) ops c1) as [os c2]. exists s2. split; [|done].
    by rewrite (bind_Ret _ _ _ _ _ Hs1), (bind_Ret _ _ _ _ _ Hs2).
Qed.
End runs_ok.

(** ** The recency list *)
Lemma length_forget k c : length (forget k c) ≤ length c.
Proof. apply length_filter. Qed.

Lemma length_forget_in k (c : cache) : k ∈ c.*1 → length (forget k c) < length c.
Proof.
  intros ([k' e] & -> & Hin)%list_elem_of_fmap. cbn.
  apply (length_filter_lt _ c (k', e)); [done|]. cbn. tauto.
Qed.

Lemma assoc_Some_in k c e : assoc k c = Some e → k ∈ c.*1.
Proof.
  intros He. destruct (decide (k ∈ c.*1)) as [|Hn]; [done|].
  apply assoc_None in Hn. congruence.
Qed.

Lemma cache_step_bound capacity op c :
  (Z.of_nat (length c) ≤ Z.max 1 capacity)%Z →
  (Z.of_nat (length (cache_step capacity op c).2) ≤ Z.max 1 capacity)%Z.
Proof.
  intros Hb. destruct op as [k|k blocks t|k|k|]; cbn [cache_step]; try done.
  - unfold lookup_spec. destruct (assoc k c) as [e|] eqn:Hk; [|done]. cbn.
    apply assoc_Some_in, length_forget_in in Hk. lia.
  - unfold insert_spec. destruct (assoc k c) as [e|] eqn:Hk; cbn.
    + apply assoc_Some_in, length_forget_in in Hk. lia.
    + rewrite length_take. unfold room. lia.
  - unfold delete_spec. cbn. pose proof (length_forget k c). lia.
Qed.

Lemma cache_run_bound capacity ops c :
  (Z.of_nat (length c) ≤ Z.max 1 capacity)%Z →
  (Z.of_nat (length (cache_run capacity ops c).2) ≤ Z.max 1 capacity)%Z.
Proof.
  revert c. induction ops as [|op ops IH]; intros c Hc; cbn [cache_run]; [done|].
  pose proof (cache_step_bound capacity op c Hc) as H1.
  destruct (cache_step capacity op c) as [o c1]. specialize (IH c1 H1).
  by destruct (cache_run capacity ops c1).
Qed.

(** ** Properties *)

(** C7: The index refines a bounded recency list: from [BlockIndex::new], every sequence
    of [lookup], [insert], [remove], [contains] and [len] calls terminates without a
    panic and returns what the same calls return on a list of entries kept most recent
    first, where an insertion of a new key drops the tail beyond [capacity - 1]. *)
Theorem index_refines_recency_list (capacity : Z) (ops : list index_op) :
  ∃ s' : BlockIndex LruInner,
    index_run ops (index_new capacity) = (Ret (cache_run capacity ops []).1, s') ∧
    index_abs s' (cache_run capacity ops []).2.
Proof.
  destruct (index_run_ok (P := LruInner) ops (index_new capacity) [] (index_abs_new capacity))
    as (s' & Hs & Ha & _).
  by exists s'.
Qed.

(** In every reachable state the index holds at most [max 1 capacity] entries and the
    policy tracks exactly the keys of the map, each once. *)
Theorem index_capacity_invariant (capacity : Z) (ops : list index_op) :
  ∃ outs (s : BlockIndex LruInner) keys,
    index_run ops (index_new capacity) = (Ret outs, s) ∧
    (Z.of_nat (size (bi_map s)) ≤ Z.max 1 capacity)%Z ∧
    lru_abs (bi_lru s) keys ∧ NoDup keys ∧ dom (bi_map s) = list_to_set keys.
Proof.
  destruct (index_run_ok (P := LruInner) ops (index_new capacity) [] (index_abs_new capacity))
    as (s & Hs & Ha & _).
  pose proof (cache_run_bound capacity ops [] ltac:(cbn; lia)) as Hb. cbn in Hs, Ha.
  set (c := (cache_run capacity ops []).2) in *.
  exists (cache_run capacity ops []).1, s, c.*1. split; [done|].
  rewrite (index_abs_size s c Ha). pose proof (index_abs_NoDup s c Ha).
  destruct Ha as [Ha Hm]. split_and!; [done|done|done|].
  rewrite Hm. apply set_eq. intros k. by rewrite dom_list_to_map_L.
Qed.

(** ** Recently used entries survive *)

(** The keys a sequence of calls moves to the front. *)
Definition used_key (op : index_op) : gset bytes :=
  match op with
  | ILookup k => {[k]}
  | IInsert k _ _ => {[k]}
  | _ => ∅
  end.
Definition used_keys (ops : list index_op) : gset bytes := ⋃ (used_key <$> ops).

(** [k] is cached, and the keys more recent than it belong to [U]. *)
Definition recent (U : gset bytes) (k : bytes) (c : cache) : Prop :=
  ∃ pre e post, c = pre ++ (k, e) :: post ∧ NoDup c.*1 ∧
    ∀ x, x ∈ pre.*1 → x ∈ U.

Lemma forget_split k' k e pre post :
  k' ≠ k → forget k' (pre ++ (k, e) :: post) = forget k' pre ++ (k, e) :: forget k' post.
Proof.
  intros Hne. unfold forget. rewrite filter_app, filter_cons_True; [done|]. cbn. congruence.
Qed.

Lemma forget_NoDup k (c : cache) : NoDup c.*1 → NoDup (forget k c).*1.
Proof. rewrite forget_keys. apply NoDup_filter. Qed.

Lemma elem_of_forget k x c : x ∈ (forget k c).*1 ↔ x ≠ k ∧ x ∈ c.*1.
Proof. by rewrite forget_keys, elem_of_remove_spec. Qed.

(** Moving a key to the front keeps [k] recent. *)
Lemma recent_front U k k' e' c :
  recent U k c → recent (U ∪ {[k']}) k ((k', e') :: forget k' c).
Proof.
  intros (pre & e & post & -> & Hn & Hpre).
  assert (NoDup ((k', e') :: forget k' (pre ++ (k, e) :: post)).*1) as Hn'.
  { cbn. apply NoDup_cons. rewrite elem_of_forget. split; [tauto|by apply forget_NoDup]. }
  destruct (decide (k' = k)) as [->|Hne].
  - exists [], e', (forget k (pre ++ (k, e) :: post)). split; [done|]. split; [done|].
    intros x Hx. by apply elem_of_nil in Hx.
  - rewrite forget_split in * by done.
    exists ((k', e') :: forget k' pre), e, (forget k' post). split; [done|]. split; [done|].
    cbn. intros x [->|[_ Hx]%elem_of_forget]%elem_of_cons; [set_solver|].
    apply elem_of_union_l. by apply Hpre.
Qed.

Lemma recent_forget U k k' c : k' ≠ k → recent U k c → recent U k (forget k' c).
Proof.
  intros Hne (pre & e & post & -> & Hn & Hpre).
  pose proof (forget_NoDup k' _ Hn) as Hn'. rewrite forget_split in * by done.
  exists (forget k' pre), e, (forget k' post). split; [done|]. split; [done|].
  intros x [_ Hx]%elem_of_forget. by apply Hpre.
Qed.

Lemma recent_in U k c : recent U k c → k ∈ c.*1.
Proof. intros (pre & e & post & -> & _). rewrite fmap_app. cbn. set_solver. Qed.

(** A new key evicts [k] only if [capacity] other keys are more recent. *)
Lemma recent_take U k k' (c : cache) n :
  recent U k c → k' ∉ c.*1 → size ((U ∪ {[k']}) ∖ {[k]}) ≤ n → recent U k (take n c).
Proof.
  intros (pre & e & post & -> & Hn & Hpre) Hk' Hsz.
  rewrite fmap_app in Hn, Hk'. cbn in Hn, Hk'.
  pose proof Hn as (Hnp & Hd & _)%NoDup_app.
  assert (length pre < n) as Hlen.
  { enough (size (list_to_set pre.*1 ∪ {[k']} : gset bytes) ≤ size ((U ∪ {[k']}) ∖ {[k]})).
    { rewrite size_union, size_singleton, size_list_to_set, length_fmap in * by
        (try done; set_solver). lia. }
    apply subseteq_size. intros x [Hx%elem_of_list_to_set| ->%elem_of_singleton]%elem_of_union.
    - apply elem_of_difference. split; [apply elem_of_union_l; by apply Hpre|].
      intros ->%elem_of_singleton. apply (Hd k Hx). set_solver.
    - apply elem_of_difference. split; [set_solver|]. intros ->%elem_of_singleton. set_solver. }
  rewrite take_app_ge by lia. destruct (n - length pre) as [|m] eqn:Hm; [lia|]. cbn.
  exists pre, e, (take m post). split; [done|]. split; [|done].
  rewrite fmap_app. cbn. rewrite fmap_take. eapply sublist_NoDup; [exact Hn|].
  apply sublist_app; [done|]. apply sublist_skip, sublist_take.
Qed.

Lemma recent_step U k capacity op c :
  recent U k c → op ≠ IRemove k →
  (Z.of_nat (size ((U ∪ used_key op) ∖ {[k]})) < capacity)%Z →
  recent (U ∪ used_key op) k (cache_step capacity op c).2.
Proof.
  intros Hr Hop Hsz. destruct op as [k'|k' blocks t|k'|k'|]; cbn [cache_step used_key] in *.
  - unfold lookup_spec. destruct (assoc k' c) as [e'|] eqn:Hk'; cbn; [by apply recent_front|].
    destruct Hr as (pre & e & post & -> & Hn & Hpre). exists pre, e, post. set_solver.
  - unfold insert_spec. destruct (assoc k' c) as [e'|] eqn:Hk'; cbn; [by apply recent_front|].
    apply assoc_None in Hk'.
    pose proof (recent_take U k k' c (room capacity) Hr Hk' ltac:(unfold room; lia)) as Ht.
    apply (recent_front U k k' (mkIndexEntry blocks t)) in Ht.
    rewrite forget_notin in Ht; [done|]. rewrite fmap_take.
    intros (i & Hin & _)%elem_of_take. by eapply Hk', list_elem_of_lookup_2.
  - rewrite union_empty_r_L. apply recent_forget; [congruence|done].
  - by rewrite union_empty_r_L.
  - by rewrite union_empty_r_L.
Qed.

Lemma recent_run ops U k capacity c :
  recent U k c → IRemove k ∉ ops →
  (Z.of_nat (size ((U ∪ used_keys ops) ∖ {[k]})) < capacity)%Z →
  recent (U ∪ used_keys ops) k (cache_run capacity ops c).2.
Proof.
  revert U c. induction ops as [|op ops IH]; intros U c Hr Hrem Hsz; cbn [cache_run].
  { unfold used_keys. cbn. by rewrite union_empty_r_L. }
  apply not_elem_of_cons in Hrem as [Hop Hrem]. unfold used_keys in *. cbn in Hsz |- *.
  rewrite assoc_L in Hsz |- * by apply _.
  pose proof (recent_step U k capacity op c Hr (not_eq_sym Hop)) as Hs.
  destruct (cache_step capacity op c) as [o c1]. cbn in Hs.
  specialize (IH (U ∪ used_key op) c1).
  destruct (cache_run capacity ops c1) as [os c2]. apply IH; [|done|done]. apply Hs.
  eapply Z.le_lt_trans; [|exact Hsz]. apply Nat2Z.inj_le, subseteq_size. set_solver.
Qed.

Lemma cache_run_app capacity ops1 ops2 c :
  (cache_run capacity (ops1 ++ ops2) c).2 =
    (cache_run capacity ops2 (cache_run capacity ops1 c).2).2.
Proof.
  revert c. induction ops1 as [|op ops1 IH]; intros c; cbn [app cache_run]; [done|].
  destruct (cache_step capacity op c) as [o c1]. specialize (IH c1).
  destruct (cache_run capacity (ops1 ++ ops2) c1), (cache_run capacity ops1 c1). done.
Qed.

Lemma recent_insert capacity k e c :
  NoDup c.*1 → recent ∅ k (insert_spec capacity k e c).2.
Proof.
  intros Hn. unfold insert_spec.
  assert (∀ c', NoDup c'.*1 → k ∉ c'.*1 → recent ∅ k ((k, e) :: c')) as Hfront.
  { intros c' Hn' Hk'. exists [], e, c'. split; [done|]. split; [by apply NoDup_cons|].
    intros x Hx. by apply elem_of_nil in Hx. }
  destruct (assoc k c) eqn:Hk; cbn; apply Hfront.
  - by apply forget_NoDup.
  - rewrite elem_of_forget. tauto.
  - rewrite fmap_take. eapply sublist_NoDup; [exact Hn|apply sublist_take].
  - apply assoc_None in Hk. rewrite fmap_take.
    intros (i & Hin & _)%elem_of_take. by eapply Hk, list_elem_of_lookup_2.
Qed.

(** After an insertion of [k], whatever calls came before, [k] is still in the index as
    long as it is not removed and fewer than [capacity] distinct other keys have been
    looked up or inserted since: eviction only ever takes less recently used entries. *)
Theorem index_recent_survives (capacity : Z) ops1 k blocks t ops2
    (Hrem : IRemove k ∉ ops2)
    (Hused : (Z.of_nat (size (used_keys ops2 ∖ {[k]})) < capacity)%Z) :
  ∃ outs (s : BlockIndex LruInner),
    index_run (ops1 ++ IInsert k blocks t :: ops2) (index_new capacity) = (Ret outs, s) ∧
    is_Some (bi_map s !! k).
Proof.
  set (ops := ops1 ++ IInsert k blocks t :: ops2).
  destruct (index_run_ok (P := LruInner) ops (index_new capacity) [] (index_abs_new capacity))
    as (s & Hs & Ha & _).
  destruct (index_run_ok (P := LruInner) ops1 (index_new capacity) [] (index_abs_new capacity))
    as (s1 & _ & Ha1%index_abs_NoDup & _).
  exists (cache_run capacity ops []).1, s. split; [done|].
  rewrite (index_abs_lookup s _ k Ha). cbn [bi_capacity index_new] in *.
  apply not_eq_None_Some. rewrite assoc_None. intros Hni. apply Hni.
  subst ops. rewrite cache_run_app. set (c1 := (cache_run capacity ops1 []).2) in *.
  change (IInsert k blocks t :: ops2) with ([IInsert k blocks t] ++ ops2). rewrite cache_run_app.
  pose proof (recent_insert capacity k (mkIndexEntry blocks t) c1 Ha1) as Hr.
  cbn [cache_run cache_step]. destruct (insert_spec capacity k _ c1) as [ev c2]. cbn in Hr |- *.
  eapply recent_in, (recent_run ops2 ∅); [done|done|].
  by rewrite union_empty_l_L.
Qed.

Lemma index_recent_survives_witness :
  ∃ outs (s : BlockIndex LruInner),
    index_run ([IInsert [9%Z] [] 0; IInsert [8%Z] [] 0] ++ IInsert [1%Z] [] 0 ::
               [IInsert [2%Z] [] 0; ILookup [1%Z]; ILookup [2%Z]; IInsert [3%Z] [] 0])
      (index_new 3) = (Ret outs, s) ∧ is_Some (bi_map s !! [1%Z]).
Proof.
  apply (index_recent_survives 3 [IInsert [9%Z] [] 0; IInsert [8%Z] [] 0] [1%Z] [] 0
    [IInsert [2%Z] [] 0; ILookup [1%Z]; ILookup [2%Z]; IInsert [3%Z] [] 0]).
  - intros Hin. repeat (apply elem_of_cons in Hin as [Hin|Hin]; [discriminate|]).
    by apply elem_of_nil in Hin.
  - vm_compute. reflexivity.
Defined.

(** [insert] on any reachable index terminates and returns exactly the evicted keys:
    none when the key is already present or the index is below capacity; otherwise the
    least recently used ones, oldest first.  Afterwards the key maps to the new entry,
    the evicted keys are gone, and every other entry is unchanged. *)
Theorem index_insert_correct (s : BlockIndex LruInner) c k blocks t
    (Habs : index_abs s c) :
  ∃ s' evicted, index_insert k blocks t s = (Ret evicted, s') ∧
    evicted = (if bool_decide (k ∈ c.*1) then []
               else reverse (drop (room (bi_capacity s)) c).*1) ∧
    bi_map s' !! k = Some (mkIndexEntry blocks t) ∧
    (∀ k', k' ≠ k → bi_map s' !! k' = if bool_decide (k' ∈ evicted) then None else bi_map s !! k').
Proof.
  destruct (insert_ok s c k blocks t Habs) as (s' & Hs & Ha' & _).
  exists s', (insert_spec (bi_capacity s) k (mkIndexEntry blocks t) c).1. split; [done|].
  pose proof (index_abs_NoDup s c Habs) as Hn.
  destruct Habs as [_ ->], Ha' as [_ ->]. unfold insert_spec, assoc.
  destruct (list_to_map c !! k) as [e|] eqn:Hk; cbn [fst snd list_to_map foldr].
  - rewrite bool_decide_true by by eapply assoc_Some_in. split; [done|].
    split; [apply lookup_insert_eq|]. intros k' Hne. rewrite bool_decide_false by set_solver.
    rewrite list_to_map_forget by done.
    by rewrite lookup_insert_ne, lookup_delete_ne by done.
  - apply assoc_None in Hk. rewrite bool_decide_false by done. split; [done|].
    split; [apply lookup_insert_eq|]. intros k' Hne. rewrite lookup_insert_ne by done.
    set (n := room (bi_capacity s)).
    assert (list_to_map c = list_to_map (take n c ++ drop n c) :> gmap bytes IndexEntry) as ->
      by by rewrite take_drop.
    rewrite <-(take_drop n c), fmap_app in Hn. apply NoDup_app in Hn as (_ & Hd & _).
    rewrite list_to_map_app. case_bool_decide as Hin; rewrite elem_of_reverse in Hin.
    + apply not_elem_of_list_to_map. intros Ht. by apply (Hd k').
    + rewrite lookup_union_l; [done|]. by apply not_elem_of_list_to_map.
Qed.

Lemma index_abs_example :
  ∃ s : BlockIndex LruInner, ∃ c, index_abs s c ∧ c.*1 = [[2%Z]; [1%Z]] ∧ bi_capacity s = 2%Z.
Proof.
  destruct (index_run_ok (P := LruInner) [IInsert [1%Z] [] 0; IInsert [2%Z] [] 0]
    (index_new 2) [] (index_abs_new 2)) as (s & _ & Ha & Hc).
  exists s. eexists. split; [exact Ha|]. split; [vm_compute; reflexivity|exact Hc].
Qed.

Lemma index_insert_correct_witness :
  ∃ s s' : BlockIndex LruInner, index_insert [3%Z] [] 0 s = (Ret [[1%Z]], s').
Proof.
  destruct index_abs_example as (s & c & Ha & Hk & Hc).
  destruct (index_insert_correct s c [3%Z] [] 0 Ha) as (s' & ev & Hs & Hev & _).
  exists s, s'. rewrite Hs. f_equal. f_equal. rewrite Hev, fmap_drop, Hk, Hc.
  vm_compute. reflexivity.
Defined.
