(* ===== verification/ConcIndex.v ===== *)
(** * The block index under concurrent callers

    [BlockIndex] takes [&self]: many tasks call it at once.  Its methods touch two
    structures, the [DashMap] and the LRU list behind its own mutex, and hold no common
    lock (crates/cmx-block-store/src/index.rs).  Here each access to one of the two is an
    atomic action, and threads that execute sequences of calls are interleaved action by
    action.  The reference returned by [map.get] in [lookup] keeps the shard of the key
    read-locked while the LRU is touched, so writers to that shard wait.

    The file shows that a thread running alone computes exactly what Index says, that
    every schedule terminates and never deadlocks, how far the capacity can be exceeded,
    and what a race between [remove] and [insert] does to the two structures. *)
From S2P Require Import Prelude Pool Block Policy Lru Index.
From stdpp Require Import relations.

(** ** Threads *)

(** Where a call is, with its local variables. *)
Inductive pc :=
  | LookupGet (k : bytes)
  | LookupTouch (k : bytes) (e : IndexEntry)
  | InsertCheck (k : bytes) (e : IndexEntry)
  | InsertLen (k : bytes) (e : IndexEntry) (evicted : list bytes)
  | InsertEvict (k : bytes) (e : IndexEntry) (evicted : list bytes)
  | InsertDrop (k : bytes) (e : IndexEntry) (evicted : list bytes) (victim : bytes)
  | InsertPut (k : bytes) (e : IndexEntry) (evicted : list bytes)
  | InsertTouch (k : bytes) (e : IndexEntry) (evicted : list bytes)
  | RemoveMap (k : bytes)
  | RemoveLru (k : bytes) (e : IndexEntry)
  | ContainsGet (k : bytes)
  | LenGet.

Definition start (op : index_op) : pc :=
  match op with
  | ILookup k => LookupGet k
  | IInsert k blocks created_at => InsertCheck k (mkIndexEntry blocks created_at)
  | IRemove k => RemoveMap k
  | IContains k => ContainsGet k
  | ILen => LenGet
  end.

(** A thread: the call it is in, the calls left and the results so far. *)
Record thread := mkThread {
  th_pc : option pc;
  th_todo : list index_op;
  th_outs : list index_out;
}.

Definition idle (ops : list index_op) : thread := mkThread None ops [].

(** The key whose shard the thread keeps read-locked. *)
Definition guard_key (c : pc) : option bytes :=
  match c with LookupTouch k _ => Some k | _ => None end.
(** The key whose shard the next action write-locks. *)
Definition write_key (c : pc) : option bytes :=
  match c with
  | InsertDrop _ _ _ victim => Some victim
  | InsertPut k _ _ => Some k
  | RemoveMap k => Some k
  | _ => None
  end.

Definition guards (ths : list thread) : list bytes := omap (λ t, th_pc t ≫= guard_key) ths.

Section actions.
Context `{EvictionPolicy P}.

(** One access to the map or to the LRU: the rest of the call, or its result. *)
Definition action (c : pc) : M (BlockIndex P) (pc + index_out) :=
  match c with
  | LookupGet k =>
      self ← gets (λ s, s);
      match bi_map self !! k with
      | None => mret (inr (OEntry None))
      | Some e => mret (inl (LookupTouch k e))
      end
  | LookupTouch k e => on_lru (policy_touch k);; mret (inr (OEntry (Some e)))
  | InsertCheck k e =>
      self ← gets (λ s, s);
      if bool_decide (is_Some (bi_map self !! k)) then mret (inl (InsertPut k e []))
      else mret (inl (InsertLen k e []))
  | InsertLen k e evicted =>
      self ← gets (λ s, s);
      if (bi_capacity self <=? Z.of_nat (size (bi_map self)))%Z
      then mret (inl (InsertEvict k e evicted)) else mret (inl (InsertPut k e evicted))
  | InsertEvict k e evicted =>
      victim ← on_lru policy_evict;
      match victim with
      | Some victim => mret (inl (InsertDrop k e evicted victim))
      | None => mret (inl (InsertPut k e evicted))
      end
  | InsertDrop k e evicted victim =>
      modify (λ s, set_bi_map (delete victim (bi_map s)) s);;
      mret (inl (InsertLen k e (vec_push victim evicted)))
  | InsertPut k e evicted =>
      modify (λ s, set_bi_map (<[k := e]> (bi_map s)) s);;
      mret (inl (InsertTouch k e evicted))
  | InsertTouch k e evicted => on_lru (policy_touch k);; mret (inr (OEvicted evicted))
  | RemoveMap k =>
      self ← gets (λ s, s);
      match bi_map self !! k with
      | None => mret (inr (OEntry None))
      | Some e =>
          modify (λ s, set_bi_map (delete k (bi_map s)) s);;
          mret (inl (RemoveLru k e))
      end
  | RemoveLru k e => on_lru (policy_remove k);; mret (inr (OEntry (Some e)))
  | ContainsGet k => b ← index_contains k; mret (inr (OBool b))
  | LenGet => n ← index_len; mret (inr (ONum n))
  end.

(** One step of a thread: enter the next call, or take an action of the current one. *)
Definition thread_step (t : thread) (s : BlockIndex P) : option (thread * BlockIndex P) :=
  match th_pc t with
  | None =>
      match th_todo t with
      | [] => None
      | op :: todo => Some (mkThread (Some (start op)) todo (th_outs t), s)
      end
  | Some c =>
      match action c s with
      | (Ret (inl c'), s') => Some (mkThread (Some c') (th_todo t) (th_outs t), s')
      | (Ret (inr o), s') => Some (mkThread None (th_todo t) (th_outs t ++ [o]), s')
      | _ => None
      end
  end.

(** [DashMap] assigns each key a shard; a write waits for the guards on its shard. *)
Context (shard : bytes → nat).

Definition blocked (ths : list thread) (t : thread) : bool :=
  match th_pc t ≫= write_key with
  | Some k => bool_decide (Exists (λ k', shard k' = shard k) (guards ths))
  | None => false
  end.

Definition config : Type := list thread * BlockIndex P.

(** Thread [i] moves. *)
Definition sched_step (i : nat) (c : config) : option config :=
  t ← c.1 !! i;
  if blocked c.1 t then None
  else '(t', s') ← thread_step t c.2; Some (<[i := t']> c.1, s').

Definition step (c c' : config) : Prop := ∃ i, sched_step i c = Some c'.

(** A schedule names the thread that moves next. *)
Fixpoint run_schedule (sched : list nat) (c : config) : option config :=
  match sched with
  | [] => Some c
  | i :: sched => c' ← sched_step i c; run_schedule sched c'
  end.

Definition finished (t : thread) : Prop := th_pc t = None ∧ th_todo t = [].

(** Threads that call [opss], on a fresh index. *)
Definition initial (capacity : Z) (opss : list (list index_op)) : config :=
  (idle <$> opss, index_new capacity).
End actions.

Global Instance finished_dec t : Decision (finished t).
Proof.
  refine (match th_pc t as o, th_todo t as l return Decision (o = None ∧ l = []) with
          | None, [] => left _
          | _, _ => right _
          end); abstract naive_solver.
Defined.

Lemma run_schedule_rtc `{EvictionPolicy P} shard sched (c c' : config (P := P)) :
  run_schedule shard sched c = Some c' → rtc (step shard) c c'.
Proof.
  revert c. induction sched as [|i sched IH]; intros c Hr; cbn in Hr.
  - by simplify_eq.
  - destruct (sched_step shard i c) as [c1|] eqn:Hs; [|done]. cbn in Hr.
    eapply rtc_l; [by exists i|]. by apply IH.
Qed.

(** ** The two structures abstractly: a map and a recency list of keys *)
Record shared := mkShared { sh_map : gmap bytes IndexEntry; sh_keys : list bytes }.

Definition action_spec (capacity : Z) (c : pc) (a : shared) : (pc + index_out) * shared :=
  let '(mkShared m keys) := a in
  match c with
  | LookupGet k =>
      (match m !! k with None => inr (OEntry None) | Some e => inl (LookupTouch k e) end, a)
  | LookupTouch k e => (inr (OEntry (Some e)), mkShared m (touch_spec k keys))
  | InsertCheck k e =>
      (inl (if bool_decide (is_Some (m !! k)) then InsertPut k e [] else InsertLen k e []), a)
  | InsertLen k e evicted =>
      (inl (if (capacity <=? Z.of_nat (size m))%Z then InsertEvict k e evicted
            else InsertPut k e evicted), a)
  | InsertEvict k e evicted =>
      match vec_pop keys with
      | Some (victim, keys') => (inl (InsertDrop k e evicted victim), mkShared m keys')
      | None => (inl (InsertPut k e evicted), a)
      end
  | InsertDrop k e evicted victim =>
      (inl (InsertLen k e (vec_push victim evicted)), mkShared (delete victim m) keys)
  | InsertPut k e evicted => (inl (InsertTouch k e evicted), mkShared (<[k := e]> m) keys)
  | InsertTouch k e evicted => (inr (OEvicted evicted), mkShared m (touch_spec k keys))
  | RemoveMap k =>
      match m !! k with
      | None => (inr (OEntry None), a)
      | Some e => (inl (RemoveLru k e), mkShared (delete k m) keys)
      end
  | RemoveLru k e => (inr (OEntry (Some e)), mkShared m (remove_spec k keys))
  | ContainsGet k => (inr (OBool (bool_decide (is_Some (m !! k)))), a)
  | LenGet => (inr (ONum (Z.of_nat (size m))), a)
  end.

Definition after (t : thread) (r : pc + index_out) : thread :=
  match r with
  | inl c => mkThread (Some c) (th_todo t) (th_outs t)
  | inr o => mkThread None (th_todo t) (th_outs t ++ [o])
  end.

Section laws.
Context `{EvictionPolicyOk P}.
Implicit Types (s : BlockIndex P) (a : shared) (t : thread) (ths : list thread).

Definition shared_abs s a : Prop := bi_map s = sh_map a ∧ policy_abs (bi_lru s) (sh_keys a).

Lemma shared_abs_new capacity : shared_abs (index_new capacity) (mkShared ∅ []).
Proof. split; [done|]. apply policy_new_ok. Qed.

Lemma on_lru_abs {A} (m : M P A) s a x keys' :
  shared_abs s a → (∃ l, m (bi_lru s) = (Ret x, l) ∧ policy_abs l keys') →
  ∃ s', on_lru m s = (Ret x, s') ∧ shared_abs s' (mkShared (sh_map a) keys') ∧
    bi_capacity s' = bi_capacity s.
Proof.
  intros [Hm _] (l & Hl & Ha). exists (set_bi_lru l s). by rewrite (on_lru_Ret _ _ _ _ Hl).
Qed.

(** Every action refines its abstract counterpart; none panics. *)
Lemma action_ok s a c :
  shared_abs s a →
  ∃ s', action c s = (Ret (action_spec (bi_capacity s) c a).1, s') ∧
    shared_abs s' (action_spec (bi_capacity s) c a).2 ∧ bi_capacity s' = bi_capacity s.
Proof.
  intros Ha. pose proof Ha as [Hm Hp]. destruct a as [m keys]. cbn in Hm, Hp.
  destruct c; cbn [action action_spec]; try (erewrite bind_Ret by reflexivity); rewrite ?Hm.
  - exists s. by destruct (m !! k).
  - destruct (on_lru_abs _ _ _ _ _ Ha (policy_touch_ok _ _ k Hp)) as (s' & Hs & ?).
    exists s'. by rewrite (bind_Ret _ _ _ _ _ Hs).
  - exists s. by case_bool_decide.
  - exists s. by destruct (_ <=? _)%Z.
  - pose proof (policy_evict_ok _ _ Hp) as He. destruct (vec_pop keys) as [[k' keys']|].
    + destruct (on_lru_abs _ _ _ _ _ Ha He) as (s' & Hs & ?). exists s'. by rewrite (bind_Ret _ _ _ _ _ Hs).
    + destruct (on_lru_abs policy_evict s _ None keys Ha) as (s' & Hs & ?); [by eauto|].
      exists s'. by rewrite (bind_Ret _ _ _ _ _ Hs).
  - eexists. split; [done|]. by split; [split; [cbn; congruence|]|].
  - eexists. split; [done|]. by split; [split; [cbn; congruence|]|].
  - destruct (on_lru_abs _ _ _ _ _ Ha (policy_touch_ok _ _ k Hp)) as (s' & Hs & ?).
    exists s'. by rewrite (bind_Ret _ _ _ _ _ Hs).
  - destruct (m !! k); [|by exists s]. erewrite bind_Ret by reflexivity.
    eexists. split; [done|]. by split; [split; [cbn; congruence|]|].
  - destruct (on_lru_abs _ _ _ _ _ Ha (policy_remove_ok _ _ k Hp)) as (s' & Hs & ?).
    exists s'. by rewrite (bind_Ret _ _ _ _ _ Hs).
  - by exists s.
  - by exists s.
Qed.

(** The cases of a step, on the abstract state. *)
Lemma thread_step_ok s a t t' s' :
  shared_abs s a → thread_step t s = Some (t', s') →
  (∃ op todo, th_pc t = None ∧ th_todo t = op :: todo ∧
     t' = mkThread (Some (start op)) todo (th_outs t) ∧ s' = s) ∨
  (∃ c, th_pc t = Some c ∧ t' = after t (action_spec (bi_capacity s) c a).1 ∧
     shared_abs s' (action_spec (bi_capacity s) c a).2 ∧ bi_capacity s' = bi_capacity s).
Proof.
  intros Ha. unfold thread_step. destruct (th_pc t) as [c|].
  - destruct (action_ok s a c Ha) as (s1 & -> & Ha1 & Hc). intros Hs. right. exists c.
    split; [done|]. unfold after. destruct (action_spec _ _ _).1; by simplify_eq.
  - destruct (th_todo t) as [|op todo]; [done|]. intros [= <- <-]. left. by eauto 10.
Qed.

Lemma thread_step_enabled s a t :
  shared_abs s a → ¬ finished t → is_Some (thread_step t s).
Proof.
  intros Ha Hf. unfold thread_step, finished in *. destruct (th_pc t) as [c|].
  - destruct (action_ok s a c Ha) as (s1 & -> & _). by destruct (action_spec _ _ _).1; eexists.
  - destruct (th_todo t); [by destruct Hf|by eexists].
Qed.
End laws.

(** ** Termination and progress *)

(** The weights make every action decrease the total: what an eviction loop spends, it
    takes from the LRU list, which only [touch] makes longer. *)
Definition pc_weight (c : pc) : nat :=
  match c with
  | LookupGet _ => 6
  | LookupTouch _ _ => 5
  | InsertCheck _ _ => 9
  | InsertLen _ _ _ => 8
  | InsertEvict _ _ _ => 7
  | InsertDrop _ _ _ _ => 9
  | InsertPut _ _ _ => 6
  | InsertTouch _ _ _ => 5
  | RemoveMap _ => 2
  | RemoveLru _ _ => 1
  | ContainsGet _ => 1
  | LenGet => 1
  end.
Definition thread_weight (t : thread) : nat :=
  from_option pc_weight 0 (th_pc t) + sum_list ((λ op, S (pc_weight (start op))) <$> th_todo t).
Definition work (ths : list thread) (keys : list bytes) : nat :=
  sum_list (thread_weight <$> ths) + 4 * length keys.

Lemma length_filter_le {A} (Q : A → Prop) `{∀ x, Decision (Q x)} (l : list A) :
  length (filter Q l) ≤ length l.
Proof. induction l as [|x l IH]; [done|]. rewrite filter_cons. case_decide; cbn; lia. Qed.

Lemma action_spec_decreases capacity c a t :
  th_pc t = Some c →
  thread_weight (after t (action_spec capacity c a).1) + 4 * length (sh_keys (action_spec capacity c a).2)
    < thread_weight t + 4 * length (sh_keys a).
Proof.
  intros Hc. unfold thread_weight. rewrite Hc. destruct a as [m keys].
  pose proof (λ k, length_filter_le (λ x, x ≠ k) keys) as Hf.
  destruct c; cbn [action_spec];
    repeat match goal with |- context [match ?x with _ => _ end] => destruct x eqn:? end;
    cbn; unfold remove_spec; try specialize (Hf k); simplify_eq; try lia.
  apply vec_pop_Some in Heqo as ->. unfold vec_push. rewrite length_app. cbn. lia.
Qed.

Lemma sum_list_insert (l : list nat) i x y :
  l !! i = Some x → sum_list (<[i := y]> l) + x = sum_list l + y.
Proof.
  revert i. induction l as [|z l IH]; intros [|i] Hl; simplify_eq/=; [lia|].
  specialize (IH i Hl). lia.
Qed.

Section schedules.
Context `{EvictionPolicyOk P} (shard : bytes → nat).
Implicit Types (s : BlockIndex P) (a : shared) (t : thread) (ths : list thread).

(** A step of the system on the abstract state. *)
Lemma step_cases ths s a c' :
  shared_abs s a → step shard (ths, s) c' →
  ∃ i t t' s' a', ths !! i = Some t ∧ c' = (<[i := t']> ths, s') ∧ shared_abs s' a' ∧
    bi_capacity s' = bi_capacity s ∧ blocked shard ths t = false ∧
    ((∃ op todo, th_pc t = None ∧ th_todo t = op :: todo ∧
        t' = mkThread (Some (start op)) todo (th_outs t) ∧ a' = a) ∨
     (∃ c, th_pc t = Some c ∧ t' = after t (action_spec (bi_capacity s) c a).1 ∧
        a' = (action_spec (bi_capacity s) c a).2)).
Proof.
  intros Ha [i Hs]. unfold sched_step in Hs. cbn in Hs.
  destruct (ths !! i) as [t|] eqn:Hi; [|done]. cbn in Hs.
  destruct (blocked shard ths t) eqn:Hb; [done|].
  destruct (thread_step t s) as [[t' s']|] eqn:Ht; [|done]. cbn in Hs. simplify_eq.
  destruct (thread_step_ok s a t t' s' Ha Ht) as [(op & todo & ? & ? & ? & ->)|(c & ? & ? & ? & ?)].
  - exists i, t, t', s, a. split_and!; try done. left. by eauto 10.
  - do 5 eexists. split_and!; try done. right. by eauto.
Qed.

Lemma step_decreases ths s a ths' s' :
  shared_abs s a → step shard (ths, s) (ths', s') →
  ∃ a', shared_abs s' a' ∧ bi_capacity s' = bi_capacity s ∧ length ths' = length ths ∧
    work ths' (sh_keys a') < work ths (sh_keys a).
Proof.
  intros Ha Hs. destruct (step_cases _ _ _ _ Ha Hs) as (i & t & t' & s1 & a' & Hi & [= -> ->] & Ha' & Hc & _ & Hcase).
  exists a'. split; [done|]. split; [done|]. split; [apply length_insert|]. unfold work. rewrite list_fmap_insert.
  assert ((thread_weight <$> ths) !! i = Some (thread_weight t)) as Hw by by rewrite list_lookup_fmap, Hi.
  pose proof (sum_list_insert _ _ _ (thread_weight t') Hw) as Hsum.
  enough (thread_weight t' + 4 * length (sh_keys a') < thread_weight t + 4 * length (sh_keys a)) by lia.
  destruct Hcase as [(op & todo & Hpc & Htodo & -> & ->)|(c & Hpc & -> & ->)].
  - unfold thread_weight. rewrite Hpc, Htodo. cbn. lia.
  - by apply action_spec_decreases.
Qed.

Lemma not_finished_exists ths : ¬ Forall finished ths → ∃ i t, ths !! i = Some t ∧ ¬ finished t.
Proof.
  intros Hf%not_Forall_Exists; [|apply _]. apply Exists_exists in Hf as (t & Hin & Ht).
  apply list_elem_of_lookup in Hin as [i Hi]. by exists i, t.
Qed.

(** A thread that holds a guard only needs the LRU mutex. *)
Lemma guard_not_blocked ths t k : th_pc t ≫= guard_key = Some k → blocked shard ths t = false.
Proof. unfold blocked. destruct (th_pc t) as [[]|]; naive_solver. Qed.

Lemma progress ths s a :
  shared_abs s a → ¬ Forall finished ths → ∃ c', step shard (ths, s) c'.
Proof.
  intros Ha Hf.
  assert (∃ i t, ths !! i = Some t ∧ ¬ finished t ∧ blocked shard ths t = false)
    as (i & t & Hi & Ht & Hb).
  { destruct (guards ths) as [|k ks] eqn:Hg.
    - destruct (not_finished_exists ths Hf) as (i & t & Hi & Ht). exists i, t. split; [done|]. split; [done|].
      unfold blocked. destruct (th_pc t ≫= write_key); [|done]. rewrite Hg. rewrite bool_decide_false; [done|]. intros Hex. by apply Exists_nil in Hex.
    - assert (k ∈ guards ths) as (t & Hin & Hk)%list_elem_of_omap by (rewrite Hg; set_solver).
      apply list_elem_of_lookup in Hin as [i Hi]. exists i, t. split; [done|]. split.
      + intros [Hpc _]. by rewrite Hpc in Hk.
      + by eapply guard_not_blocked. }
  destruct (thread_step_enabled s a t Ha Ht) as [[t' s'] Hs].
  eexists _, i. unfold sched_step. cbn. rewrite Hi. cbn. by rewrite Hb, Hs.
Qed.

Lemma steps_bounded n ths s a c' :
  shared_abs s a → nsteps (step shard) n (ths, s) c' →
  ∃ a', shared_abs c'.2 a' ∧ bi_capacity c'.2 = bi_capacity s ∧ length c'.1 = length ths ∧
    n + work c'.1 (sh_keys a') ≤ work ths (sh_keys a).
Proof.
  revert ths s a. induction n as [|n IH]; intros ths s a Ha Hn; inversion Hn as [|? ? [ths1 s1] ? Hst Hrest]; simplify_eq.
  - exists a. split_and!; by cbn.
  - destruct (step_decreases _ _ _ _ _ Ha Hst) as (a1 & Ha1 & Hc1 & Hl1 & Hw).
    destruct (IH _ _ _ Ha1 Hrest) as (a' & Ha' & Hc' & Hl' & Hw'). exists a'.
    split_and!; [done|congruence|congruence|lia].
Qed.
End schedules.

(** ** Capacity *)
Definition put_key (t : thread) : option bytes :=
  match th_pc t with Some (InsertPut k _ _) => Some k | _ => None end.
(** The key whose presence in the map a thread is about to change or to record. *)
Definition claim (t : thread) : option bytes :=
  match th_pc t with
  | Some (InsertPut k _ _) => Some k
  | Some (InsertDrop _ _ _ v) => Some v
  | Some (InsertTouch k _ _) => Some k
  | _ => None
  end.
Definition key_set (f : thread → option bytes) (ths : list thread) : gset bytes :=
  list_to_set (omap f ths).

Definition is_remove (op : index_op) : bool := match op with IRemove _ => true | _ => false end.
Definition removing (t : thread) : bool :=
  match th_pc t with Some (RemoveMap _) | Some (RemoveLru _ _) => true | _ => existsb is_remove (th_todo t) end.

Lemma elem_of_key_set f ths k : k ∈ key_set f ths ↔ ∃ i t, ths !! i = Some t ∧ f t = Some k.
Proof.
  unfold key_set. rewrite elem_of_list_to_set, list_elem_of_omap. split.
  - intros (t & [i Hi]%list_elem_of_lookup & Hk). by exists i, t.
  - intros (i & t & Hi & Hk). exists t. split; [|done]. by eapply list_elem_of_lookup_2.
Qed.

Lemma size_key_set f ths : size (key_set f ths) ≤ length ths.
Proof.
  unfold key_set. induction ths as [|t ths IH]; cbn; [by rewrite size_empty|].
  destruct (f t) as [k|]; cbn; [|lia]. rewrite size_union_alt, size_singleton.
  pose proof (subseteq_size (list_to_set (omap f ths) ∖ {[k]}) (list_to_set (omap f ths) : gset bytes)).
  set_solver by lia.
Qed.

Lemma key_set_insert_sub f ths i t' k :
  k ∈ key_set f (<[i := t']> ths) → f t' = Some k ∨ k ∈ key_set f ths.
Proof.
  rewrite !elem_of_key_set. intros (j & t & Hj & Hk).
  apply list_lookup_insert_Some in Hj as [(-> & -> & _)|[_ Hj]]; [by left|right; by eauto].
Qed.

Lemma key_set_insert_new f ths i t t' k :
  ths !! i = Some t → f t' = Some k → k ∈ key_set f (<[i := t']> ths).
Proof.
  intros Hi Hk. apply elem_of_key_set. exists i, t'. split; [|done].
  apply list_lookup_insert_eq. by eapply lookup_lt_Some.
Qed.

Lemma key_set_insert_old f ths i t t' k :
  ths !! i = Some t → k ∈ key_set f ths → f t = Some k ∨ k ∈ key_set f (<[i := t']> ths).
Proof.
  intros Hi (j & u & Hj & Hk)%elem_of_key_set. destruct (decide (i = j)) as [->|Hne].
  - left. congruence.
  - right. apply elem_of_key_set. exists j, u. by rewrite list_lookup_insert_ne.
Qed.

(** The most the map can hold with [n] threads inserting. *)
Definition capacity_bound (capacity : Z) (n : nat) : nat := Z.to_nat (capacity - 1) + n.

Record cap_inv (capacity : Z) (ths : list thread) (a : shared) : Prop := {
  ci_tracked k : k ∈ dom (sh_map a) → k ∈ sh_keys a ∨ k ∈ key_set claim ths;
  ci_inserts i t : ths !! i = Some t → removing t = false;
  ci_bound : size (dom (sh_map a) ∪ key_set put_key ths) ≤ capacity_bound capacity (length ths);
}.

(** A move of thread [i] that claims no new key keeps what is tracked. *)
Lemma tracked_step ths i t t' (a a' : shared) :
  ths !! i = Some t →
  (∀ k, k ∈ dom (sh_map a) → k ∈ sh_keys a ∨ k ∈ key_set claim ths) →
  (∀ k, k ∈ dom (sh_map a') → k ∈ dom (sh_map a) ∨ claim t' = Some k) →
  (∀ k, k ∈ dom (sh_map a') → k ∈ sh_keys a → k ∈ sh_keys a' ∨ claim t' = Some k) →
  (∀ k, k ∈ dom (sh_map a') → claim t = Some k → k ∈ sh_keys a' ∨ claim t' = Some k) →
  ∀ k, k ∈ dom (sh_map a') → k ∈ sh_keys a' ∨ k ∈ key_set claim (<[i := t']> ths).
Proof.
  intros Hi Htr Hdom Hkeys Hcl k Hk.
  assert (claim t' = Some k → k ∈ key_set claim (<[i := t']> ths)) as Hnew by (by apply key_set_insert_new with t).
  destruct (Hdom k Hk) as [Hold|]; [|by auto]. destruct (Htr k Hold) as [Hin|Hin].
  - destruct (Hkeys k Hk Hin); auto.
  - destruct (key_set_insert_old claim ths i t t' k Hi Hin) as [Ht|]; [|by auto].
    destruct (Hcl k Hk Ht); auto.
Qed.

Lemma put_key_claim t k : put_key t = Some k → claim t = Some k.
Proof. unfold put_key, claim. by destruct (th_pc t) as [[]|]. Qed.

Lemma bound_room (capacity : Z) (m : gmap bytes IndexEntry) ths :
  (Z.of_nat (size m) < capacity)%Z →
  size (dom m ∪ key_set put_key ths) ≤ capacity_bound capacity (length ths).
Proof.
  intros Hs. pose proof (size_key_set put_key ths) as Hk. pose proof (size_dom m) as Hd.
  pose proof (subseteq_size (key_set put_key ths ∖ dom m) (key_set put_key ths)) as Hsub.
  rewrite size_union_alt. unfold capacity_bound. set_solver by lia.
Qed.

Lemma bound_claims (capacity : Z) (m : gmap bytes IndexEntry) ths :
  (∀ k, k ∈ dom m → k ∈ key_set claim ths) →
  size (dom m ∪ key_set put_key ths) ≤ capacity_bound capacity (length ths).
Proof.
  intros Hc. assert (dom m ∪ key_set put_key ths ⊆ key_set claim ths) as Hsub.
  { intros k [Hk|(i & t & Hi & Ht)%elem_of_key_set]%elem_of_union; [by apply Hc|].
    apply elem_of_key_set. exists i, t. split; [done|]. by apply put_key_claim. }
  apply subseteq_size in Hsub. pose proof (size_key_set claim ths). unfold capacity_bound. lia.
Qed.

Lemma bound_shrinks (capacity : Z) ths i t t' (a a' : shared) :
  size (dom (sh_map a) ∪ key_set put_key ths) ≤ capacity_bound capacity (length ths) →
  (∀ k, k ∈ dom (sh_map a') → k ∈ dom (sh_map a) ∨ put_key t = Some k) →
  ths !! i = Some t →
  (∀ k, put_key t' = Some k → k ∈ dom (sh_map a)) →
  size (dom (sh_map a') ∪ key_set put_key (<[i := t']> ths)) ≤
    capacity_bound capacity (length (<[i := t']> ths)).
Proof.
  intros Hb Hdom Hi Hput. rewrite length_insert. etrans; [|exact Hb]. apply subseteq_size.
  intros k [Hk|Hk]%elem_of_union; apply elem_of_union.
  - destruct (Hdom k Hk); [by left|right]. apply elem_of_key_set. by exists i, t.
  - apply key_set_insert_sub in Hk as [Hk|Hk]; [left; by apply Hput|by right].
Qed.

Lemma start_inserts t op todo :
  th_pc t = None → th_todo t = op :: todo → removing t = false →
  removing (mkThread (Some (start op)) todo (th_outs t)) = false ∧
  claim (mkThread (Some (start op)) todo (th_outs t)) = None ∧ claim t = None.
Proof.
  unfold removing, claim. intros -> ->. cbn. intros [Hop Htodo]%orb_false_iff. by destruct op.
Qed.

Lemma after_inserts capacity c a t :
  th_pc t = Some c → removing t = false → removing (after t (action_spec capacity c a).1) = false.
Proof.
  unfold removing. intros ->. destruct a as [m keys]. intros Ht.
  destruct c; try done; cbn [action_spec fst];
    repeat case_match; simplify_eq/=; done.
Qed.

Lemma tracked_action (capacity : Z) ths i t c a :
  ths !! i = Some t → th_pc t = Some c → removing t = false →
  (∀ k, k ∈ dom (sh_map a) → k ∈ sh_keys a ∨ k ∈ key_set claim ths) →
  ∀ k, k ∈ dom (sh_map (action_spec capacity c a).2) →
    k ∈ sh_keys (action_spec capacity c a).2 ∨
    k ∈ key_set claim (<[i := after t (action_spec capacity c a).1]> ths).
Proof.
  intros Hi Hc Hr Htr. unfold removing in Hr. rewrite Hc in Hr.
  apply (tracked_step ths i t _ a); [done|done|..]; unfold claim; rewrite ?Hc;
    destruct a as [m keys]; destruct c; try done; cbn [action_spec];
    repeat match goal with |- context [match ?x with _ => _ end] => destruct x eqn:? end;
    cbn; intros k'; rewrite ?dom_insert, ?dom_delete, ?elem_of_touch_spec;
    try (by intros; simplify_eq; eauto); try set_solver.
  all: try (apply vec_pop_Some in Heqo as ->; unfold vec_push; set_solver).
Qed.

Lemma bound_action (capacity : Z) ths i t c a :
  ths !! i = Some t → th_pc t = Some c → removing t = false → cap_inv capacity ths a →
  size (dom (sh_map (action_spec capacity c a).2) ∪
        key_set put_key (<[i := after t (action_spec capacity c a).1]> ths)) ≤
    capacity_bound capacity (length (<[i := after t (action_spec capacity c a).1]> ths)).
Proof.
  intros Hi Hc Hr [Htr _ Hb]. pose proof (tracked_action capacity ths i t c a Hi Hc Hr Htr) as Htr'.
  unfold removing in Hr. rewrite Hc in Hr.
  destruct a as [m keys]; destruct c; try done; cbn [action_spec] in *;
    repeat match goal with |- context [match ?x with _ => _ end] => destruct x eqn:? end;
    first [ apply bound_room; cbn; lia
          | apply (bound_shrinks capacity ths i t _ (mkShared m keys)); [done| |done|];
            unfold put_key; rewrite ?Hc; cbn; intros k'; rewrite ?dom_insert, ?dom_delete;
            try case_bool_decide as Hd; try apply elem_of_dom in Hd; set_solver
          | idtac ].
  apply vec_pop_None in Heqo as ->. apply bound_claims. intros k' Hk'.
  destruct (Htr' k' Hk') as [Hin|]; [by apply elem_of_nil in Hin|done].
Qed.

Lemma cap_inv_step `{EvictionPolicyOk P} shard ths (s : BlockIndex P) a ths' s' :
  shared_abs s a → cap_inv (bi_capacity s) ths a → step shard (ths, s) (ths', s') →
  ∃ a', shared_abs s' a' ∧ cap_inv (bi_capacity s') ths' a' ∧ bi_capacity s' = bi_capacity s ∧
    length ths' = length ths.
Proof.
  intros Ha Hinv Hs. pose proof Hinv as [Htr Hin Hb].
  destruct (step_cases _ _ _ _ _ Ha Hs) as (i & t & t' & s1 & a' & Hi & [= -> ->] & Ha' & Hc & _ & Hcase).
  exists a'. rewrite Hc. split; [done|]. split; [|by rewrite length_insert].
  assert (removing t' = false) as Hr'.
  { destruct Hcase as [(op & todo & Hpc & Htodo & -> & ->)|(c & Hpc & -> & ->)].
    - by destruct (start_inserts t op todo Hpc Htodo (Hin i t Hi)).
    - by apply after_inserts, (Hin i). }
  split; [| |].
  - destruct Hcase as [(op & todo & Hpc & Htodo & -> & ->)|(c & Hpc & -> & ->)].
    + destruct (start_inserts t op todo Hpc Htodo (Hin i t Hi)) as (_ & Hcl' & Hcl).
      apply (tracked_step ths i t _ a); try done; rewrite ?Hcl; naive_solver.
    + apply tracked_action; try done. by apply (Hin i).
  - intros j u [(-> & <- & _)|[_ Hj]]%list_lookup_insert_Some; [done|by apply (Hin j)].
  - destruct Hcase as [(op & todo & Hpc & Htodo & -> & ->)|(c & Hpc & -> & ->)].
    + apply (bound_shrinks _ ths i t _ a); [done|naive_solver|done|].
      by destruct op.
    + apply bound_action; try done. by apply (Hin i).
Qed.


(** ** A thread running alone *)
Section solo.
Context `{EvictionPolicy P} (shard : bytes → nat).
Implicit Types (s : BlockIndex P) (ths : list thread).

(** No other thread keeps a shard read-locked. *)
Definition unguarded (i : nat) (ths : list thread) : Prop :=
  ∀ j t, ths !! j = Some t → j ≠ i → th_pc t ≫= guard_key = None.

Lemma unguarded_insert i ths t : unguarded i ths → unguarded i (<[i := t]> ths).
Proof. intros Hu j u Hj Hne. rewrite list_lookup_insert_ne in Hj by done. by apply (Hu j). Qed.

Lemma unguarded_not_blocked i ths t :
  unguarded i ths → ths !! i = Some t → blocked shard ths t = false.
Proof.
  intros Hu Hi. unfold blocked. destruct (th_pc t ≫= write_key) as [k|] eqn:Hw; [|done].
  apply bool_decide_false. intros (k' & Hk' & _)%Exists_exists.
  apply list_elem_of_omap in Hk' as (u & [j Hj]%list_elem_of_lookup & Hg).
  destruct (decide (j = i)) as [->|Hne]; [|by rewrite (Hu j u Hj Hne) in Hg].
  simplify_eq. destruct (th_pc t) as [[]|]; naive_solver.
Qed.

(** The steps of thread [i] alone, the others standing still. *)
Definition local_step (x y : thread * BlockIndex P) : Prop := thread_step x.1 x.2 = Some y.

Lemma local_steps i ths t s t' s' :
  unguarded i ths → ths !! i = Some t → rtc local_step (t, s) (t', s') →
  rtc (step shard) (ths, s) (<[i := t']> ths, s').
Proof.
  intros Hu Hi Hsteps. remember (t, s) as x eqn:Hx. remember (t', s') as y eqn:Hy.
  revert ths t s Hu Hi Hx. induction Hsteps as [x|x [t1 s1] z Hst Hsteps IH]; intros ths t s Hu Hi Hx; simplify_eq.
  - by rewrite list_insert_id.
  - eapply rtc_l.
    + exists i. unfold sched_step. cbn. rewrite Hi. cbn.
      rewrite (unguarded_not_blocked i ths t Hu Hi). unfold local_step in Hst. cbn in Hst. by rewrite Hst.
    + rewrite <-(list_insert_insert_eq ths i t' t1).
      apply (IH eq_refl _ t1 s1); [by apply unguarded_insert| |done].
      apply list_lookup_insert_eq. by eapply lookup_lt_Some.
Qed.

(** An action that continues, and one that ends the call. *)
Lemma local_next c c' todo outs s s' y :
  action c s = (Ret (inl c'), s') →
  rtc local_step (mkThread (Some c') todo outs, s') y →
  rtc local_step (mkThread (Some c) todo outs, s) y.
Proof. intros Ha. apply rtc_l. unfold local_step, thread_step. cbn. by rewrite Ha. Qed.

Lemma local_end c o todo outs s s' :
  action c s = (Ret (inr o), s') →
  rtc local_step (mkThread (Some c) todo outs, s) (mkThread None todo (outs ++ [o]), s').
Proof. intros Ha. apply rtc_once. unfold local_step, thread_step. cbn. by rewrite Ha. Qed.

Lemma evict_loop_steps fuel evicted s evicted' s' k e todo outs :
  evict_loop fuel evicted s = (Ret evicted', s') →
  rtc local_step (mkThread (Some (InsertLen k e evicted)) todo outs, s)
    (mkThread (Some (InsertPut k e evicted')) todo outs, s').
Proof.
  revert evicted s. induction fuel as [|fuel IH]; intros evicted s He; [done|]. cbn [evict_loop] in He.
  erewrite bind_Ret in He by reflexivity.
  destruct (bi_capacity s <=? Z.of_nat (size (bi_map s)))%Z eqn:Hle.
  - apply bind_Ret_inv in He as (victim & s1 & Hv & He).
    eapply (local_next _ (InsertEvict k e evicted)).
    { cbn. erewrite bind_Ret by reflexivity. by rewrite Hle. }
    destruct victim as [victim|].
    + eapply (local_next _ (InsertDrop k e evicted victim)).
      { cbn. by rewrite (bind_Ret _ _ _ _ _ Hv). }
      erewrite bind_Ret in He by reflexivity. eapply local_next; [reflexivity|]. by apply IH.
    + eapply (local_next _ (InsertPut k e evicted)).
      { cbn. by rewrite (bind_Ret _ _ _ _ _ Hv). }
      unfold mret, M_ret in He. simplify_eq. done.
  - unfold mret, M_ret in He. simplify_eq. eapply local_next; [|done].
    cbn. erewrite bind_Ret by reflexivity. by rewrite Hle.
Qed.

Lemma insert_steps k blocks t s evicted s' todo outs :
  index_insert k blocks t s = (Ret evicted, s') →
  rtc local_step (mkThread (Some (InsertCheck k (mkIndexEntry blocks t))) todo outs, s)
    (mkThread None todo (outs ++ [OEvicted evicted]), s').
Proof.
  intros Hi. unfold index_insert in Hi. erewrite bind_Ret in Hi by reflexivity.
  apply bind_Ret_inv in Hi as (ev & s1 & He & Hi). erewrite bind_Ret in Hi by reflexivity.
  apply bind_Ret_inv in Hi as (u & s2 & Ht & Hi). unfold mret, M_ret in Hi. simplify_eq.
  trans (mkThread (Some (InsertPut k (mkIndexEntry blocks t) evicted)) todo outs, s1).
  - destruct (bool_decide (is_Some (bi_map s !! k))) eqn:Hk.
    + unfold mret, M_ret in He. simplify_eq. eapply local_next; [|done].
      cbn. erewrite bind_Ret by reflexivity. by rewrite Hk.
    + eapply local_next; [|by apply evict_loop_steps with (1 := He)].
      cbn. erewrite bind_Ret by reflexivity. by rewrite Hk.
  - eapply local_next; [reflexivity|]. apply local_end. cbn. by rewrite (bind_Ret _ _ _ _ _ Ht).
Qed.

Lemma op_steps op s o s' todo outs :
  index_step op s = (Ret o, s') →
  rtc local_step (mkThread None (op :: todo) outs, s) (mkThread None todo (outs ++ [o]), s').
Proof.
  intros Hs. eapply rtc_l; [reflexivity|].
  destruct op as [k|k blocks t|k|k|]; cbn [index_step] in Hs;
    apply bind_Ret_inv in Hs as (x & s1 & Hx & Hs); unfold mret, M_ret in Hs; simplify_eq; cbn [start th_outs].
  - unfold index_lookup in Hx. erewrite bind_Ret in Hx by reflexivity.
    destruct (bi_map s !! k) as [e|] eqn:Hk.
    + apply bind_Ret_inv in Hx as (u & s2 & Ht & Hx). unfold mret, M_ret in Hx. simplify_eq.
      eapply (local_next _ (LookupTouch k e)).
      { cbn. erewrite bind_Ret by reflexivity. by rewrite Hk. }
      apply local_end. cbn. by rewrite (bind_Ret _ _ _ _ _ Ht).
    + unfold mret, M_ret in Hx. simplify_eq. apply local_end.
      cbn. erewrite bind_Ret by reflexivity. by rewrite Hk.
  - by apply insert_steps.
  - unfold index_remove in Hx. erewrite bind_Ret in Hx by reflexivity.
    destruct (bi_map s !! k) as [e|] eqn:Hk.
    + erewrite bind_Ret in Hx by reflexivity.
      apply bind_Ret_inv in Hx as (u & s2 & Ht & Hx). unfold mret, M_ret in Hx. simplify_eq.
      eapply (local_next _ (RemoveLru k e)).
      { cbn. erewrite bind_Ret by reflexivity. by rewrite Hk. }
      apply local_end. cbn. by rewrite (bind_Ret _ _ _ _ _ Ht).
    + unfold mret, M_ret in Hx. simplify_eq. apply local_end.
      cbn. erewrite bind_Ret by reflexivity. by rewrite Hk.
  - apply local_end. cbn. by rewrite (bind_Ret _ _ _ _ _ Hx).
  - apply local_end. cbn. by rewrite (bind_Ret _ _ _ _ _ Hx).
Qed.
End solo.

(** ** Properties *)

(** How many results a thread still owes or has given. *)
Definition results (t : thread) : nat :=
  length (th_outs t) + (if th_pc t is Some _ then 1 else 0) + length (th_todo t).

Section properties.
Context `{EvictionPolicyOk P} (shard : bytes → nat).
Implicit Types (s : BlockIndex P) (c : config (P := P)).

Lemma thread_step_results t s t' s' : thread_step t s = Some (t', s') → results t' = results t.
Proof.
  unfold thread_step, results. destruct (th_pc t) as [c|], (th_todo t) as [|op todo] eqn:Htodo;
    intros Hs; repeat case_match; simplify_eq/=; rewrite ?length_app, ?Htodo; cbn; lia.
Qed.

Lemma step_results c c' : step shard c c' → results <$> c'.1 = results <$> c.1.
Proof.
  intros [i Hs]. unfold sched_step in Hs. destruct (c.1 !! i) as [t|] eqn:Hi; [|done]. cbn in Hs.
  destruct (blocked shard c.1 t); [done|]. destruct (thread_step t c.2) as [[t' s']|] eqn:Ht; [|done].
  cbn in Hs. simplify_eq. cbn. rewrite list_fmap_insert. apply list_insert_id.
  by rewrite list_lookup_fmap, Hi, (thread_step_results _ _ _ _ Ht).
Qed.

Lemma nsteps_results n c c' : nsteps (step shard) n c c' → results <$> c'.1 = results <$> c.1.
Proof. induction 1 as [|n c c1 c2 Hst _ IH]; [done|]. by rewrite IH, (step_results _ _ Hst). Qed.

Lemma finished_stuck c : Forall finished c.1 → nf (step shard) c.
Proof.
  intros Hf [c' [i Hs]]. unfold sched_step in Hs. destruct (c.1 !! i) as [t|] eqn:Hi; [|done]. cbn in Hs.
  destruct (Forall_lookup_1 _ _ _ _ Hf Hi) as [Hpc Htodo]. unfold thread_step in Hs.
  rewrite Hpc, Htodo in Hs. by destruct (blocked shard c.1 t).
Qed.

Lemma initial_work (capacity : Z) opss :
  work (initial (P := P) capacity opss).1 [] ≤ 10 * length (concat opss).
Proof.
  assert (∀ ops, thread_weight (idle ops) ≤ 10 * length ops) as Hops.
  { induction ops as [|[] ops IHo]; unfold thread_weight in *; cbn in *; lia. }
  unfold work, initial. cbn [fst length]. induction opss as [|ops opss IH]; [done|].
  rewrite !fmap_cons. cbn [sum_list sum_list_with concat]. rewrite length_app.
  specialize (Hops ops). unfold id in *. lia.
Qed.

(** Every schedule of concurrent calls ends.  Threads that make any calls of the
    index, interleaved in any way, take at most ten actions per call; when no thread can
    move, every call has returned with one result each (no deadlock between the shard
    locks and the LRU mutex, and no livelock of the eviction loops). *)
Theorem concurrent_calls_terminate (capacity : Z) (opss : list (list index_op)) (n : nat) c :
  nsteps (step shard) n (initial (P := P) capacity opss) c →
  n ≤ 10 * length (concat opss) ∧
  (nf (step shard) c → Forall finished c.1 ∧ (λ t, length (th_outs t)) <$> c.1 = length <$> opss).
Proof.
  intros Hn. destruct (steps_bounded shard n _ _ _ c (shared_abs_new capacity) Hn) as (a & Ha & _ & Hl & Hw).
  split.
  { pose proof (initial_work capacity opss) as Hi. unfold initial in Hi. cbn [fst sh_keys] in *. lia. }
  intros Hnf.
  assert (Forall finished c.1) as Hf.
  { apply dec_stable. intros Hf. destruct c as [ths s]. cbn in *.
    destruct (progress shard ths s a Ha Hf) as [c' Hc']. apply Hnf. by exists c'. }
  split; [done|]. apply nsteps_results in Hn. unfold initial in Hn. cbn in Hn.
  rewrite <-list_fmap_compose in Hn. etrans; [|etrans; [exact Hn|]].
  - apply list_fmap_ext. intros i t Hi. destruct (Forall_lookup_1 _ _ _ _ Hf Hi) as [Hpc Htodo].
    unfold results. rewrite Hpc, Htodo. cbn. lia.
  - apply list_fmap_ext. done.
Qed.

End properties.

Section sequential.
Context `{EvictionPolicy P} (shard : bytes → nat).
Implicit Types (s : BlockIndex P) (c : config (P := P)).

Lemma run_steps ops s outs s' outs0 :
  index_run ops s = (Ret outs, s') →
  rtc local_step (mkThread None ops outs0, s) (mkThread None [] (outs0 ++ outs), s').
Proof.
  revert s outs outs0. induction ops as [|op ops IH]; intros s outs outs0 Hr; cbn [index_run] in Hr.
  - unfold mret, M_ret in Hr. simplify_eq. by rewrite app_nil_r.
  - apply bind_Ret_inv in Hr as (o & s1 & Ho & Hr). apply bind_Ret_inv in Hr as (os & s2 & Hos & Hr).
    unfold mret, M_ret in Hr. simplify_eq. etrans; [by apply op_steps|].
    replace (outs0 ++ o :: os) with ((outs0 ++ [o]) ++ os) by by rewrite <-app_assoc.
    by apply IH.
Qed.

Lemma one_thread_step t s c : step shard ([t], s) c → ∃ t' s', c = ([t'], s') ∧ sched_step shard 0 ([t], s) = Some c.
Proof.
  intros [[|i] Hs]; [|done]. pose proof Hs as Hs'. unfold sched_step in Hs. cbn in Hs.
  destruct (blocked _ _ _); [done|]. destruct (thread_step t s) as [[t' s']|]; [|done].
  cbn in Hs. simplify_eq. by eauto.
Qed.

Lemma one_thread_deterministic t s d e :
  rtc (step shard) ([t], s) d → rtc (step shard) ([t], s) e →
  nf (step shard) d → nf (step shard) e → d = e.
Proof.
  intros Hd. remember ([t], s) as x eqn:Hx. revert t s Hx.
  induction Hd as [x|x y d Hxy Hyd IH]; intros t s -> He Hnd Hne.
  - inversion He as [|? ? ? Hst]; [done|]. subst. exfalso. apply Hnd. by eexists.
  - destruct (one_thread_step _ _ _ Hxy) as (t' & s' & -> & Hs). inversion He as [|? y' ? Hst Hrest]; subst.
    + exfalso. apply Hne. by eexists.
    + destruct (one_thread_step _ _ _ Hst) as (? & ? & -> & Hs'). rewrite Hs in Hs'. simplify_eq. by eapply IH.
Qed.

(** The interleaved actions are the methods.  A thread running alone reaches exactly
    one final state: every call returns the result of the method of the sequential index,
    and the map and the policy are left as the methods leave them. *)
Theorem solo_thread_runs_methods (ops : list index_op) s outs s' :
  index_run ops s = (Ret outs, s') →
  rtc (step shard) ([idle ops], s) ([mkThread None [] outs], s') ∧
  ∀ c, rtc (step shard) ([idle ops], s) c → nf (step shard) c → c = ([mkThread None [] outs], s').
Proof.
  intros Hr. assert (rtc (step shard) ([idle ops], s) ([mkThread None [] outs], s')) as Hsteps.
  { apply (local_steps shard 0 [idle ops] (idle ops)); [|done|by apply (run_steps _ _ _ _ [])].
    intros [|j] t Hj Hne; done. }
  split; [done|]. intros c Hc Hnf. symmetry. eapply one_thread_deterministic; [done|done| |done].
  apply finished_stuck. by repeat constructor.
Qed.
End sequential.

(** ** A removal racing with an insertion of the same key *)
Section race.
Context `{EvictionPolicyOk P} (shard : bytes → nat) (blocks : list BlockLocation).
Implicit Types (s : BlockIndex P).

(** One thread inserts and removes each key, the other inserts it too. *)
Definition race_remover (ks : list bytes) : list index_op :=
  k ← ks; [IInsert k blocks 0; IRemove k].
Definition race_inserter (ks : list bytes) : list index_op := (λ k, IInsert k blocks 1) <$> ks.

(** Inserting a new key when the policy knows no key but perhaps this one. *)
Lemma insert_orphan s m keys k t :
  shared_abs s (mkShared m keys) → keys = [] ∨ keys = [k] → (1 ≤ bi_capacity s)%Z → m !! k = None →
  ∃ evicted s', index_insert k blocks t s = (Ret evicted, s') ∧
    shared_abs s' (mkShared (<[k := mkIndexEntry blocks t]> m) [k]) ∧ bi_capacity s' = bi_capacity s.
Proof.
  intros Ha Hkeys Hcap Hk. pose proof Ha as [Hm Hp]. cbn in Hm, Hp.
  assert (∃ evicted s1 keys1, evict_loop (S (size m)) [] s = (Ret evicted, s1) ∧
    shared_abs s1 (mkShared m keys1) ∧ (keys1 = [] ∨ keys1 = [k]) ∧ bi_capacity s1 = bi_capacity s)
    as (evicted & s1 & keys1 & He & [Hm1 Hp1] & Hkeys1 & Hc1).
  { cbn [evict_loop]. erewrite bind_Ret by reflexivity. rewrite Hm.
    destruct (Z.leb_spec (bi_capacity s) (Z.of_nat (size m))) as [Hle|_]; [|by exists [], s, keys].
    pose proof (policy_evict_ok _ _ Hp) as He. destruct Hkeys as [-> | ->]; cbn in He.
    - rewrite (bind_Ret _ _ _ _ _ (on_lru_Ret _ _ _ _ He)). exists [], (set_bi_lru (bi_lru s) s), [].
      split_and!; try done. by left.
    - destruct He as (l & He & Hp'). rewrite (bind_Ret _ _ _ _ _ (on_lru_Ret _ _ _ _ He)).
      erewrite bind_Ret by reflexivity. pose proof (policy_evict_ok _ _ Hp') as He'. cbn in He'.
      destruct (size m) as [|n] eqn:Hn; [lia|]. cbn [evict_loop]. erewrite bind_Ret by reflexivity.
      cbn [bi_map bi_capacity set_bi_map set_bi_lru]. rewrite Hm, delete_id by done. rewrite Hn.
      rewrite (proj2 (Z.leb_le _ _)) by lia. erewrite bind_Ret; [|by apply on_lru_Ret].
      eexists _, _, []. split_and!; try done. by left. }
  destruct (policy_touch_ok _ _ k Hp1) as (l & Ht & Hp2).
  exists evicted. eexists. split; [|split].
  - unfold index_insert. erewrite bind_Ret by reflexivity. rewrite Hm, bool_decide_false by (rewrite Hk; by intros []).
    rewrite (bind_Ret _ _ _ _ _ He). erewrite bind_Ret by reflexivity.
    erewrite bind_Ret; [reflexivity|]. by apply on_lru_Ret.
  - split; cbn; [by rewrite Hm1|]. assert (touch_spec k keys1 = [k]) as <-; [|done].
    destruct Hkeys1 as [-> | ->]; [done|]. unfold touch_spec. rewrite filter_cons_False by naive_solver. done.
  - done.
Qed.

(** One of two threads moves, the other holding no guard. *)
Lemma left_steps t0 t0' t1 s s' :
  th_pc t1 ≫= guard_key = None → rtc local_step (t0, s) (t0', s') →
  rtc (step shard) ([t0; t1], s) ([t0'; t1], s').
Proof.
  intros Hg Hs. apply (local_steps shard 0 [t0; t1] t0); [|done|done].
  intros [|[|j]] t Hj ?; by simplify_eq/=.
Qed.
Lemma right_steps t0 t1 t1' s s' :
  th_pc t0 ≫= guard_key = None → rtc local_step (t1, s) (t1', s') →
  rtc (step shard) ([t0; t1], s) ([t0; t1'], s').
Proof.
  intros Hg Hs. apply (local_steps shard 1 [t0; t1] t1); [|done|done].
  intros [|[|j]] t Hj ?; by simplify_eq/=.
Qed.

Lemma race_round s m k ops0 ops1 outs0 outs1 :
  shared_abs s (mkShared m []) → (1 ≤ bi_capacity s)%Z → m !! k = None →
  ∃ outs0' outs1' s', rtc (step shard)
      ([mkThread None (IInsert k blocks 0 :: IRemove k :: ops0) outs0;
        mkThread None (IInsert k blocks 1 :: ops1) outs1], s)
      ([mkThread None ops0 outs0'; mkThread None ops1 outs1'], s') ∧
    shared_abs s' (mkShared (<[k := mkIndexEntry blocks 1]> m) []) ∧ bi_capacity s' = bi_capacity s.
Proof.
  intros Ha Hcap Hk.
  destruct (insert_orphan s m [] k 0 Ha (or_introl eq_refl) Hcap Hk) as (ev & s1 & Hi1 & Ha1 & Hc1).
  set (e0 := mkIndexEntry blocks 0) in *. set (e1 := mkIndexEntry blocks 1).
  set (s2 := set_bi_map (delete k (bi_map s1)) s1).
  assert (shared_abs s2 (mkShared m [k])) as Ha2.
  { destruct Ha1 as [Hm1 Hp1]. split; [|done]. cbn in *. by rewrite Hm1, delete_insert_id. }
  destruct (insert_orphan s2 m [k] k 1 Ha2 (or_intror eq_refl)) as (ev' & s3 & Hi3 & Ha3 & Hc3); [cbn; lia|done|].
  pose proof Ha3 as [Hm3 Hp3]. destruct (policy_remove_ok _ _ k Hp3) as (l & Hl & Hp4).
  eexists _, _, (set_bi_lru l s3). split; [|split].
  - etrans; [apply left_steps; [done|]; apply op_steps; cbn; by rewrite (bind_Ret _ _ _ _ _ Hi1)|].
    etrans; [apply (left_steps _ (mkThread (Some (RemoveLru k e0)) ops0 (outs0 ++ [OEvicted ev])) _ _ s2); [done|]|].
    { eapply rtc_l; [reflexivity|]. eapply local_next; [|reflexivity]. cbn. erewrite bind_Ret by reflexivity.
      destruct Ha1 as [-> _]. cbn. by rewrite lookup_insert_eq. }
    etrans; [apply right_steps; [done|]; apply op_steps; cbn; by rewrite (bind_Ret _ _ _ _ _ Hi3)|].
    apply left_steps; [done|]. apply local_end. cbn. erewrite bind_Ret; [reflexivity|]. by apply on_lru_Ret.
  - split; [done|]. cbn. assert (remove_spec k [k] = []) as <-; [|done].
    unfold remove_spec. by rewrite filter_cons_False by naive_solver.
  - cbn. by rewrite Hc3.
Qed.

(** C26: A removal racing with an insertion makes entries that are never evicted.  With
    two threads and any capacity, for any number of distinct keys there is a schedule
    after which all calls have returned, the map holds every key and the eviction policy
    none: the index has outgrown its capacity for good, since eviction only removes what
    the policy knows. *)
Theorem remove_insert_race (capacity : Z) (ks : list bytes) :
  (1 ≤ capacity)%Z → NoDup ks →
  ∃ c, rtc (step shard) (initial (P := P) capacity [race_remover ks; race_inserter ks]) c ∧
    Forall finished c.1 ∧ dom (bi_map c.2) = list_to_set ks ∧ size (bi_map c.2) = length ks ∧
    policy_len (bi_lru c.2) = (Ret 0, bi_lru c.2).
Proof.
  intros Hcap Hnd.
  assert (∀ ks m s outs0 outs1, NoDup ks → (∀ k, k ∈ ks → m !! k = None) →
    shared_abs s (mkShared m []) → (1 ≤ bi_capacity s)%Z →
    ∃ c, rtc (step shard) ([mkThread None (race_remover ks) outs0; mkThread None (race_inserter ks) outs1], s) c ∧
      Forall finished c.1 ∧ dom (bi_map c.2) = dom m ∪ list_to_set ks ∧
      policy_len (bi_lru c.2) = (Ret 0, bi_lru c.2)) as Hrace.
  { clear ks Hnd. induction ks as [|k ks IH]; intros m s outs0 outs1 Hnd Hfresh [Hm Hp] Hc.
    - eexists. split; [reflexivity|]. split; [by repeat constructor|]. split; [cbn in *; rewrite Hm; set_solver|].
      apply (policy_len_ok _ _ Hp).
    - apply NoDup_cons in Hnd as [Hk Hnd].
      destruct (race_round s m k (race_remover ks) (race_inserter ks) outs0 outs1)
        as (o0 & o1 & s' & Hsteps & Ha' & Hc'); [done|done|apply Hfresh; set_solver|].
      destruct (IH (<[k := mkIndexEntry blocks 1]> m) s' o0 o1 Hnd) as (c & Hrest & Hf & Hd & Hl).
      + intros k' Hk'. rewrite lookup_insert_ne by (by intros ->). apply Hfresh. set_solver.
      + done.
      + by rewrite Hc'.
      + exists c. split; [by etrans|]. split; [done|]. split; [|done]. rewrite Hd, dom_insert_L. set_solver. }
  destruct (Hrace ks ∅ (index_new capacity) [] [] Hnd) as (c & Hr & Hf & Hd & Hl).
  - set_solver.
  - apply shared_abs_new.
  - done.
  - exists c. rewrite dom_empty_L, union_empty_l_L in Hd. split_and!; try done.
    by rewrite <-size_dom, Hd, size_list_to_set.
Qed.
End race.

(** *** Two threads inserting into an index of one entry *)
Definition one_shard (k : bytes) : nat := 0.
Definition key16 (b : Z) : bytes := replicate 16 b.
Definition two_inserts : list (list index_op) := [[IInsert (key16 1) [] 0]; [IInsert (key16 2) [] 0]].
(** Both check the length before either inserts. *)
Definition overshoot : list nat := [0; 0; 0; 1; 1; 1; 0; 0; 1; 1].
Definition overshot : config (P := LruInner) :=
  default ([], index_new 1) (run_schedule one_shard overshoot (initial 1 two_inserts)).

Lemma overshoot_runs : run_schedule one_shard overshoot (initial 1 two_inserts) = Some overshot.
Proof. vm_compute. reflexivity. Qed.


Lemma concurrent_calls_terminate_witness :
  Forall finished overshot.1 ∧ (λ t, length (th_outs t)) <$> overshot.1 = [1; 1].
Proof.
  destruct (rtc_nsteps_1 _ _ (run_schedule_rtc _ _ _ _ overshoot_runs)) as [n Hn].
  apply (concurrent_calls_terminate one_shard 1 two_inserts n overshot Hn).
  apply finished_stuck. by repeat constructor.
Defined.

Lemma solo_thread_runs_methods_witness :
  ∃ s', rtc (step (P := LruInner) one_shard)
    ([idle [IInsert (key16 1) [] 0; IInsert (key16 2) [] 0; ILookup (key16 1)]], index_new 1)
    ([mkThread None [] [OEvicted []; OEvicted [key16 1]; OEntry None]], s').
Proof.
  eexists. apply (solo_thread_runs_methods one_shard
    [IInsert (key16 1) [] 0; IInsert (key16 2) [] 0; ILookup (key16 1)]).
  vm_compute. reflexivity.
Defined.

Lemma remove_insert_race_witness :
  ∃ c, rtc (step one_shard) (initial (P := LruInner) 1 [race_remover [] [key16 1; key16 2]; race_inserter [] [key16 1; key16 2]]) c ∧
    size (bi_map c.2) = 2.
Proof.
  destruct (remove_insert_race (P := LruInner) one_shard [] 1 [key16 1; key16 2]) as (c & Hr & _ & _ & Hs & _).
  - done.
  - apply (bool_decide_unpack _). by vm_compute.
  - by exists c.
Defined.
