(* ===== verification/RemoteIndex.v ===== *)
(** * The remote block index (crates/cmx-agent/src/remote_index.rs)

    [RemoteIndex] maps a key to the blocks other nodes have announced for it, at most one
    per node.  It refines a flat map from (key, node) to the announced block. *)
From S2P Require Import Prelude.

Record RemoteBlockInfo := mkRemoteBlockInfo {
  ri_node_id : string;
  ri_node_addr : string;
  ri_offset : Z;
  ri_size : Z;
  ri_generation : Z;
}.

(** [DashMap<[u8; 16], Vec<RemoteBlockInfo>>]. *)
Record RemoteIndex := mkRemoteIndex { ri_map : gmap bytes (list RemoteBlockInfo) }.

(** [RemoteIndex::new]. *)
Definition remote_new : RemoteIndex := mkRemoteIndex ∅.
(** [RemoteIndex::default]. *)
Definition remote_default : RemoteIndex := remote_new.

(** [RemoteIndex::lookup]. *)
Definition remote_lookup (prefix_hash : bytes) (s : RemoteIndex) : option (list RemoteBlockInfo) :=
  ri_map s !! prefix_hash.

(** Replace the first entry from the same node, or append. *)
Fixpoint upsert (info : RemoteBlockInfo) (es : list RemoteBlockInfo) : list RemoteBlockInfo :=
  match es with
  | [] => [info]
  | e :: es =>
      if bool_decide (ri_node_id e = ri_node_id info) then info :: es else e :: upsert info es
  end.

(** [RemoteIndex::insert]: [entry().and_modify().or_insert_with()]. *)
Definition remote_insert (prefix_hash : bytes) (info : RemoteBlockInfo) (s : RemoteIndex) : RemoteIndex :=
  match remote_lookup prefix_hash s with
  | Some es => mkRemoteIndex (<[prefix_hash := upsert info es]> (ri_map s))
  | None => mkRemoteIndex (<[prefix_hash := [info]]> (ri_map s))
  end.

(** [RemoteIndex::remove]. *)
Definition remote_remove (prefix_hash : bytes) (s : RemoteIndex) : RemoteIndex :=
  mkRemoteIndex (delete prefix_hash (ri_map s)).

(** [RemoteIndex::remove_node]: retain the other nodes' entries, then the non-empty keys. *)
Definition retain_other (node_id : string) (es : list RemoteBlockInfo) : option (list RemoteBlockInfo) :=
  match filter (λ e, ri_node_id e ≠ node_id) es with
  | [] => None
  | es' => Some es'
  end.
Definition remote_remove_node (node_id : string) (s : RemoteIndex) : RemoteIndex :=
  mkRemoteIndex (omap (retain_other node_id) (ri_map s)).

(** ** Invariant and abstraction *)

(** Every key has at least one entry and at most one entry per node. *)
Definition remote_wf (s : RemoteIndex) : Prop :=
  map_Forall (λ _ es, es ≠ [] ∧ NoDup (ri_node_id <$> es)) (ri_map s).

(** The block announced by [node] in a list of entries. *)
Fixpoint entry_of (node : string) (es : list RemoteBlockInfo) : option RemoteBlockInfo :=
  match es with
  | [] => None
  | e :: es => if bool_decide (ri_node_id e = node) then Some e else entry_of node es
  end.

Definition remote_at (k : bytes) (node : string) (s : RemoteIndex) : option RemoteBlockInfo :=
  remote_lookup k s ≫= entry_of node.

(** The abstract state: one announced block per key and node. *)
Abbreviation flat := (gmap (bytes * string) RemoteBlockInfo).

Definition remote_abs (s : RemoteIndex) (f : flat) : Prop :=
  ∀ k node, remote_at k node s = f !! (k, node).

Inductive remote_op :=
  | RInsert (k : bytes) (info : RemoteBlockInfo)
  | RRemove (k : bytes)
  | RRemoveNode (node : string).

Definition remote_step (op : remote_op) (s : RemoteIndex) : RemoteIndex :=
  match op with
  | RInsert k info => remote_insert k info s
  | RRemove k => remote_remove k s
  | RRemoveNode n => remote_remove_node n s
  end.

Definition flat_step (op : remote_op) (f : flat) : flat :=
  match op with
  | RInsert k info => <[(k, ri_node_id info) := info]> f
  | RRemove k => filter (λ x, x.1.1 ≠ k) f
  | RRemoveNode n => filter (λ x, x.1.2 ≠ n) f
  end.

(** ** Entry lists *)
Lemma entry_of_upsert node info es :
  entry_of node (upsert info es) =
    if bool_decide (ri_node_id info = node) then Some info else entry_of node es.
Proof.
  induction es as [|e es IH]; cbn; [done|].
  destruct (decide (ri_node_id e = ri_node_id info)) as [He|He].
  - rewrite (bool_decide_true (ri_node_id e = _)) by done. cbn.
    repeat case_bool_decide; congruence.
  - rewrite (bool_decide_false (ri_node_id e = ri_node_id info)) by done. cbn. rewrite IH.
    repeat case_bool_decide; congruence.
Qed.

Lemma upsert_nodes info es x :
  x ∈ ri_node_id <$> upsert info es ↔ x = ri_node_id info ∨ x ∈ ri_node_id <$> es.
Proof.
  induction es as [|e es IH]; cbn; [set_solver|].
  case_bool_decide as He; cbn; rewrite !elem_of_cons, ?IH; rewrite ?He; tauto.
Qed.

Lemma upsert_NoDup info es :
  NoDup (ri_node_id <$> es) → NoDup (ri_node_id <$> upsert info es).
Proof.
  induction es as [|e es IH]; cbn; [intros; apply NoDup_singleton|].
  intros [He Hn]%NoDup_cons. case_bool_decide as Heq; cbn; apply NoDup_cons.
  - by rewrite <-Heq.
  - rewrite upsert_nodes. naive_solver.
Qed.

Lemma upsert_nonempty info es : upsert info es ≠ [].
Proof. destruct es; cbn; [done|]. by case_bool_decide. Qed.

Lemma entry_of_retain node n es :
  retain_other n es ≫= entry_of node =
    if bool_decide (node = n) then None else entry_of node es.
Proof.
  assert (entry_of node (filter (λ e, ri_node_id e ≠ n) es) =
    if bool_decide (node = n) then None else entry_of node es) as <-.
  - induction es as [|e es IH]; [by case_bool_decide|]. rewrite filter_cons.
    destruct (decide (ri_node_id e ≠ n)) as [Hne|Heq]; cbn.
    + rewrite IH. repeat case_bool_decide; congruence.
    + apply dec_stable in Heq. rewrite IH. repeat case_bool_decide; congruence.
  - unfold retain_other. by destruct (filter _ es).
Qed.

(** ** Preservation and refinement *)
Lemma remote_wf_new : remote_wf remote_new.
Proof. apply map_Forall_empty. Qed.

Lemma remote_abs_new : remote_abs remote_new ∅.
Proof. intros k node. unfold remote_at, remote_lookup, remote_new. cbn. by rewrite !lookup_empty. Qed.

Lemma remote_step_wf op s : remote_wf s → remote_wf (remote_step op s).
Proof.
  intros Hwf. destruct op as [k info|k|n]; cbn.
  - unfold remote_wf, remote_insert, remote_lookup. destruct (ri_map s !! k) as [es|] eqn:Hk; cbn.
    + apply map_Forall_insert_2; [|done]. destruct (Hwf k es Hk).
      split; [apply upsert_nonempty|by apply upsert_NoDup].
    + apply map_Forall_insert_2; [|done]. split; [done|apply NoDup_singleton].
  - by apply map_Forall_delete.
  - intros k es (es0 & Hr & Hk)%lookup_omap_Some. destruct (Hwf k es0 Hk) as [_ Hn].
    unfold retain_other in Hr. split; [intros ->; by destruct (filter _ es0)|].
    assert (es = filter (λ e, ri_node_id e ≠ n) es0) as ->.
    { by destruct (filter _ es0); simplify_eq. }
    eapply sublist_NoDup; [exact Hn|]. apply fmap_sublist, sublist_filter.
Qed.

Lemma remote_at_insert k info s k' node :
  remote_at k' node (remote_insert k info s) =
    if bool_decide (k' = k ∧ node = ri_node_id info) then Some info else remote_at k' node s.
Proof.
  unfold remote_at, remote_insert, remote_lookup.
  destruct (decide (k' = k)) as [->|Hk].
  - destruct (ri_map s !! k) as [es|]; cbn; rewrite lookup_insert_eq; cbn.
    + rewrite entry_of_upsert. repeat case_bool_decide; naive_solver.
    + repeat case_bool_decide; naive_solver.
  - rewrite bool_decide_false by naive_solver.
    destruct (ri_map s !! k) as [es|]; cbn; by rewrite lookup_insert_ne by done.
Qed.

Lemma remote_step_abs op s f :
  remote_abs s f → remote_abs (remote_step op s) (flat_step op f).
Proof.
  intros Ha k' node. destruct op as [k info|k|n]; cbn.
  - rewrite remote_at_insert. case_bool_decide as Hc.
    + destruct Hc as [-> ->]. by rewrite lookup_insert_eq.
    + rewrite lookup_insert_ne by naive_solver. apply Ha.
  - unfold remote_at, remote_remove, remote_lookup. cbn. destruct (decide (k' = k)) as [->|Hne].
    + rewrite lookup_delete_eq. symmetry. apply map_lookup_filter_None. right. cbn. tauto.
    + rewrite lookup_delete_ne by done. rewrite map_lookup_filter. specialize (Ha k' node).
      unfold remote_at, remote_lookup in Ha. rewrite Ha.
      destruct (f !! (k', node)); cbn; [|done]. by rewrite option_guard_True.
  - unfold remote_at, remote_remove_node, remote_lookup. cbn. rewrite lookup_omap.
    rewrite map_lookup_filter. rewrite <-(Ha k' node). unfold remote_at, remote_lookup.
    destruct (ri_map s !! k') as [es|]; cbn; [|done]. rewrite entry_of_retain.
    destruct (entry_of node es) as [e|]; [|by case_bool_decide]. cbn.
    case_bool_decide as Hn.
    + by rewrite option_guard_False by tauto.
    + by rewrite option_guard_True.
Qed.

Lemma remote_at_remove_node k n node s :
  remote_at k node (remote_remove_node n s) =
    if bool_decide (node = n) then None else remote_at k node s.
Proof.
  unfold remote_at, remote_remove_node, remote_lookup. cbn. rewrite lookup_omap.
  destruct (ri_map s !! k) as [es|]; cbn; [apply entry_of_retain|by case_bool_decide].
Qed.

Lemma remote_at_remove k k' node s :
  remote_at k' node (remote_remove k s) = if bool_decide (k' = k) then None else remote_at k' node s.
Proof.
  unfold remote_at, remote_remove, remote_lookup. cbn. case_bool_decide as Hk.
  - subst. by rewrite lookup_delete_eq.
  - by rewrite lookup_delete_ne.
Qed.

Lemma remote_at_removed k n s : remote_at k n (remote_remove_node n s) = None.
Proof. rewrite remote_at_remove_node. by rewrite bool_decide_true. Qed.

Lemma remote_at_kept k n node s :
  node ≠ n → remote_at k node (remote_remove_node n s) = remote_at k node s.
Proof. intros Hn. rewrite remote_at_remove_node. by rewrite bool_decide_false. Qed.

(** ** Properties *)

(** C39: Any sequence of [insert], [remove] and [remove_node] calls leaves an index in which
    every key has at least one entry and at most one per node, and which agrees, for
    every key and node, with the flat map built by the same calls; in particular a
    lookup misses exactly when no node has an announced block for the key. *)
Theorem remote_refines_flat (ops : list remote_op) :
  let s := foldl (λ s op, remote_step op s) remote_new ops in
  let f := foldl (λ f op, flat_step op f) (∅ : flat) ops in
  remote_wf s ∧ remote_abs s f ∧
  (∀ k, remote_lookup k s = None ↔ ∀ node, f !! (k, node) = None).
Proof.
  cbn zeta.
  assert (∀ s f, remote_wf s → remote_abs s f →
    let s' := foldl (λ s op, remote_step op s) s ops in
    let f' := foldl (λ f op, flat_step op f) f ops in remote_wf s' ∧ remote_abs s' f') as Hrun.
  { induction ops as [|op ops IH]; intros s f Hwf Ha; cbn; [done|].
    apply IH; [by apply remote_step_wf|by apply remote_step_abs]. }
  destruct (Hrun remote_new ∅ remote_wf_new remote_abs_new) as [Hwf Ha].
  split; [done|]. split; [done|]. intros k. split.
  - intros Hk node. rewrite <-Ha. unfold remote_at. by rewrite Hk.
  - intros Hn. destruct (remote_lookup k _) as [es|] eqn:Hk; [|done].
    destruct (Hwf k es Hk) as [Hne _]. destruct es as [|e es]; [done|].
    specialize (Hn (ri_node_id e)). rewrite <-Ha in Hn. unfold remote_at in Hn.
    rewrite Hk in Hn. cbn in Hn. by rewrite bool_decide_true in Hn.
Qed.

(** [remove_node] removes every entry of that node, keeps the entries of all other
    nodes in their order, and drops exactly the keys left without an entry. *)
Theorem remove_node_correct (n : string) (s : RemoteIndex) (k : bytes) :
  remote_lookup k (remote_remove_node n s) =
    match remote_lookup k s with
    | Some es => if bool_decide (Forall (λ e, ri_node_id e = n) es) then None
                 else Some (filter (λ e, ri_node_id e ≠ n) es)
    | None => None
    end.
Proof.
  unfold remote_remove_node, remote_lookup. cbn. rewrite lookup_omap.
  destruct (ri_map s !! k) as [es|]; cbn; [|done]. unfold retain_other.
  case_bool_decide as Hall.
  - induction Hall as [|e es He Hall IH]; [done|]. by rewrite filter_cons_False by tauto.
  - destruct (filter (λ e, ri_node_id e ≠ n) es) as [|e0 es0] eqn:Hf; [|done].
    destruct Hall. apply Forall_forall. intros e He.
    destruct (decide (ri_node_id e = n)) as [|Hne]; [done|].
    by destruct (filter_nil_not_elem_of _ es e Hf Hne).
Qed.
