(* ===== verification/Sha256.v ===== *)
(** * SHA-256 (FIPS 180-4)

    The hash ring and the composite keys use the digests of the crate sha2 and the text form
    of the crate hex; both are parameters elsewhere.  This file holds the functions those
    crates document, so that the tests of the repository that depend on the values of the
    digests run on the model. *)
From S2P Require Import Prelude.
Local Open Scope Z_scope.

Module Sha256.

(** ** Words of 32 bits *)
(** [trunc] keeps the low 32 bits. *)
Definition MASK : Z := 4294967295.
Definition trunc (x : Z) : Z := Z.land x MASK.
Definition rotr (n x : Z) : Z := Z.lor (Z.shiftr x n) (trunc (Z.shiftl x (32 - n))).
Definition xor3 (x y z : Z) : Z := Z.lxor x (Z.lxor y z).
Definition choose (x y z : Z) : Z := Z.lxor z (Z.land x (Z.lxor y z)).
Definition majority (x y z : Z) : Z := Z.lor (Z.land x y) (Z.land z (Z.lor x y)).

(** The functions of section 4.1.2. *)
Definition big0 (x : Z) : Z := xor3 (rotr 2 x) (rotr 13 x) (rotr 22 x).
Definition big1 (x : Z) : Z := xor3 (rotr 6 x) (rotr 11 x) (rotr 25 x).
Definition small0 (x : Z) : Z := xor3 (rotr 7 x) (rotr 18 x) (Z.shiftr x 3).
Definition small1 (x : Z) : Z := xor3 (rotr 17 x) (rotr 19 x) (Z.shiftr x 10).

(** ** Constants: fractional parts of square and cube roots of primes *)

Definition is_prime (n : Z) : bool := forallb (λ d, negb (n mod d =? 0)) (seqZ 2 (n - 2)).
Definition primes (n : nat) : list Z := take n (filter is_prime (seqZ 2 310)).

(** The integer cube root of [m], bit by bit from bit [n - 1]. *)
Fixpoint cbrt_from (n : nat) (root m : Z) : Z :=
  match n with
  | O => root
  | S n =>
      let next := root + 2 ^ Z.of_nat n in
      cbrt_from n (if next * next * next <=? m then next else root) m
  end.

Definition round_constants : list Z :=
  Eval vm_compute in (λ p, trunc (cbrt_from 36 0 (p * 2 ^ 96))) <$> primes 64.
Definition initial : list Z :=
  Eval vm_compute in (λ p, trunc (Z.sqrt (p * 2 ^ 64))) <$> primes 8.

(** ** Padding and message schedule *)

Definition be_encode (n : nat) (z : Z) : bytes := reverse (le_encode n z).
Definition be_word (bs : bytes) : Z := le_decode (reverse bs).

Definition padded (msg : bytes) : bytes :=
  msg ++ [128] ++ replicate (Z.to_nat ((55 - zlen msg) mod 64)) 0 ++ be_encode 8 (8 * zlen msg).

(** Cut a list into pieces of [n], with its length as fuel. *)
Fixpoint pieces_loop (fuel n : nat) {A} (l : list A) : list (list A) :=
  match fuel, l with
  | S fuel, _ :: _ => take n l :: pieces_loop fuel n (drop n l)
  | _, _ => []
  end.
Definition pieces (n : nat) {A} (l : list A) : list (list A) := pieces_loop (length l) n l.

(** The schedule, newest word first: each step looks at the last sixteen words. *)
Fixpoint schedule (n : nat) (ws : list Z) : list Z :=
  match n with
  | O => ws
  | S n =>
      let at_back i := nth (i - 1) ws 0 in
      schedule n (trunc (small1 (at_back 2%nat) + at_back 7%nat + small0 (at_back 15%nat) + at_back 16%nat) :: ws)
  end.

(** ** Compression *)

Definition round (s : list Z) (wk : Z * Z) : list Z :=
  match s with
  | [a; b; c; d; e; f; g; h] =>
      let t1 := h + big1 e + choose e f g + wk.1 + wk.2 in
      let t2 := big0 a + majority a b c in
      [trunc (t1 + t2); a; b; c; trunc (d + t1); e; f; g]
  | s => s
  end.

Definition compress (state : list Z) (block : bytes) : list Z :=
  let ws := reverse (schedule 48 (reverse (be_word <$> pieces 4 block))) in
  zip_with (λ x y, trunc (x + y)) state (foldl round state (zip ws round_constants)).

(** [Sha256::digest]. *)
Definition sha256 (msg : bytes) : bytes :=
  foldl compress initial (pieces 64 (padded msg)) ≫= be_encode 4.

(** [hex::encode]: two lower-case digits per byte. *)
Definition hex_digit (n : Z) : string := String (Ascii.ascii_of_N (Z.to_N (if n <? 10 then 48 + n else 87 + n))) "".
Definition hex (bs : bytes) : string := foldr (λ b s, hex_digit (b / 16) +:+ hex_digit (b mod 16) +:+ s) "" bs.

(** ** Digests have 32 bytes *)

Lemma round_length s wk : length (round s wk) = length s.
Proof. by destruct s as [|? [|? [|? [|? [|? [|? [|? [|? [|]]]]]]]]]. Qed.

Lemma schedule_length n ws : length (schedule n ws) = (n + length ws)%nat.
Proof. revert ws. induction n as [|n IH]; intros ws; [done|]. cbn [schedule]. rewrite IH. cbn. lia. Qed.

Lemma compress_length state block : length (compress state block) = length state.
Proof.
  unfold compress. rewrite length_zip_with.
  assert (∀ l s, length (foldl round s l) = length s) as ->; [|lia].
  induction l as [|wk l IH]; intros s; [done|]. cbn [foldl]. by rewrite IH, round_length.
Qed.

Lemma be_encode_typed n z : length (be_encode n z) = n ∧ Forall is_byte (be_encode n z).
Proof.
  unfold be_encode. split; [by rewrite length_reverse, length_le_encode|].
  apply Forall_reverse, le_encode_bytes.
Qed.

Lemma sha256_typed msg : length (sha256 msg) = 32%nat ∧ Forall is_byte (sha256 msg).
Proof.
  unfold sha256. set (state := foldl _ _ _).
  assert (length state = 8%nat) as Hl.
  { unfold state. assert (∀ bl s, length (foldl compress s bl) = length s) as ->; [|done].
    induction bl as [|b bl IH]; intros s; [done|]. cbn [foldl]. by rewrite IH, compress_length. }
  clearbody state. split.
  - do 8 (destruct state as [|? state]; [done|]). destruct state; [|done].
    cbn [mbind list_bind]. rewrite !length_app, !(proj1 (be_encode_typed _ _)). done.
  - clear Hl. induction state as [|w state IH]; [constructor|]. cbn [mbind list_bind].
    apply Forall_app. split; [apply be_encode_typed|exact IH].
Qed.

(** The padding completes the last block. *)
Lemma padded_blocks msg : zlen (padded msg) mod 64 = 0.
Proof.
  unfold padded. rewrite zlen_app, (zlen_app [128]), zlen_app.
  change (zlen [128]) with 1.
  assert (zlen (replicate (Z.to_nat ((55 - zlen msg) mod 64)) 0) = (55 - zlen msg) mod 64) as ->.
  { unfold zlen at 1. rewrite length_replicate. pose proof (Z.mod_pos_bound (55 - zlen msg) 64). lia. }
  assert (zlen (be_encode 8 (8 * zlen msg)) = 8) as -> by (unfold zlen at 1; by rewrite (proj1 (be_encode_typed _ _))).
  pose proof (Z.div_mod (55 - zlen msg) 64 ltac:(lia)).
  replace (zlen msg + _) with ((1 - (55 - zlen msg) / 64) * 64) by lia. by apply Z.mod_mul.
Qed.

(** The test vectors of the standard. *)
Example sha256_abc :
  hex (sha256 [97; 98; 99]) = "ba7816bf8f01cfea414140de5dae2223b00361a396177a9cb410ff61f20015ad".
Proof. vm_compute. reflexivity. Qed.
Example sha256_empty :
  hex (sha256 []) = "e3b0c44298fc1c149afbf4c8996fb92427ae41e4649b934ca495991b7852b855".
Proof. vm_compute. reflexivity. Qed.
End Sha256.
