(* ===== verification/Placement.v ===== *)
(** * Consistent hashing (crates/cmx-agent/src/placement.rs)

    [HashRing] places [vnodes_per_node] positions per node on the ring of 64-bit integers;
    a key belongs to the node of the first position at or after the key's own, wrapping
    around.  SHA-256 and the hex encoder are third-party code and are parameters. *)
From stdpp Require Import pretty sorting.
From S2P Require Import Prelude.
Local Open Scope Z_scope.

(** ** [BTreeMap<u64, _>]: an association list in strictly increasing key order *)
Fixpoint btree_insert {V} (k : Z) (v : V) (l : list (Z * V)) : list (Z * V) :=
  match l with
  | [] => [(k, v)]
  | (k', v') :: l' =>
      if k <? k' then (k, v) :: l
      else if k =? k' then (k, v) :: l'
      else (k', v') :: btree_insert k v l'
  end.

(** [BTreeMap::range(pos..)]. *)
Definition btree_from {V} (pos : Z) (l : list (Z * V)) : list (Z * V) :=
  filter (λ kv, pos ≤ kv.1) l.

Definition btree_sorted {V} (l : list (Z * V)) : Prop := StronglySorted Z.lt (l.*1).

Record HashRing := mkHashRing {
  ring : list (Z * string);
  vnodes_per_node : Z;
  nodes : list string;
}.

(** [HashRing::new]. *)
Definition ring_new (vnodes : Z) : HashRing :=
  {| ring := []; vnodes_per_node := vnodes; nodes := [] |}.

(** [u64::from_be_bytes]. *)
Definition be_decode (bs : bytes) : Z := foldl (λ acc b, acc * 256 + b) 0 bs.

(** [str::as_bytes]. *)
Definition as_bytes (s : string) : bytes := Z.of_N ∘ Ascii.N_of_ascii <$> String.list_ascii_of_string s.

(** The loop of [preferred_nodes]: [result] and [seen] grow together. *)
Fixpoint collect_nodes (n : Z) (seen : gset string) (result : list string)
    (it : list (Z * string)) : list string :=
  match it with
  | [] => result
  | (_, node_id) :: it =>
      if decide (node_id ∈ seen) then collect_nodes n seen result it
      else
        let result := vec_push node_id result in
        if zlen result >=? n then result
        else collect_nodes n ({[node_id]} ∪ seen) result it
  end.

(** [HashRing::remove_node]. *)
Definition remove_node (node_id : string) (r : HashRing) : HashRing :=
  {| ring := filter (λ kv, kv.2 ≠ node_id) (ring r);
     vnodes_per_node := vnodes_per_node r;
     nodes := filter (λ n, n ≠ node_id) (nodes r) |}.

(** [HashRing::node_count]. *)
Definition node_count (r : HashRing) : Z := zlen (nodes r).

Section placement.
Variable sha256 : bytes → bytes.
Variable hex_encode : bytes → string.

(** [HashRing::hash_position]. *)
Definition hash_position (key : string) : Z := be_decode (take 8 (sha256 (as_bytes key))).

(** [format!("{}:{}", node_id, i)]. *)
Definition vnode_key (node_id : string) (i : Z) : string := node_id +:+ ":" +:+ pretty i.

(** The positions [add_node] claims, in the order of its loop. *)
Definition vnode_positions (vnodes : Z) (node_id : string) : list Z :=
  (λ i, hash_position (vnode_key node_id i)) <$> seqZ 0 vnodes.

(** [HashRing::add_node]. *)
Definition add_node (node_id : string) (r : HashRing) : HashRing :=
  if decide (node_id ∈ nodes r) then r
  else
    {| ring := foldl (λ acc pos, btree_insert pos node_id acc) (ring r)
                 (vnode_positions (vnodes_per_node r) node_id);
       vnodes_per_node := vnodes_per_node r;
       nodes := vec_push node_id (nodes r) |}.

(** [HashRing::preferred_node]. *)
Definition preferred_node (prefix_hash : bytes) (r : HashRing) : option string :=
  match ring r with
  | [] => None
  | _ =>
      let pos := hash_position (hex_encode prefix_hash) in
      snd <$> match head (btree_from pos (ring r)) with
              | Some kv => Some kv
              | None => head (ring r)
              end
  end.

(** [HashRing::preferred_nodes]. *)
Definition preferred_nodes (prefix_hash : bytes) (n : Z) (r : HashRing) : list string :=
  match ring r with
  | [] => []
  | _ =>
      let pos := hash_position (hex_encode prefix_hash) in
      collect_nodes n ∅ [] (btree_from pos (ring r) ++ ring r)
  end.
End placement.

(** ** Sorted association lists *)
Lemma btree_insert_elem {V} k (v : V) l kv :
  btree_sorted l →
  kv ∈ btree_insert k v l ↔ kv = (k, v) ∨ (kv ∈ l ∧ kv.1 ≠ k).
Proof.
  intros Hs. induction l as [|[k' v'] l IH]; cbn.
  - rewrite list_elem_of_singleton. set_solver.
  - apply StronglySorted_inv in Hs as [Hs Hall]. cbn in *. rewrite Forall_forall in Hall.
    assert (∀ kv, kv ∈ l → k' < kv.1) as Hlt.
    { intros kv0 ?. apply Hall. by apply list_elem_of_fmap_2. }
    destruct (Z.ltb_spec k k'); [|destruct (Z.eqb_spec k k') as [->|]].
    + rewrite !elem_of_cons. split; [|set_solver]. intros [->|[->|Hin]]; [by left| |].
      * right. cbn. split; [by left|lia].
      * right. split; [by right|]. apply Hlt in Hin. lia.
    + rewrite !elem_of_cons. split.
      * intros [->|Hin]; [by left|right]. split; [by right|]. apply Hlt in Hin. lia.
      * intros [->|[[->|?] ?]]; [by left|done|by right].
    + rewrite !elem_of_cons, (IH Hs). split; [|naive_solver].
      intros [->|[->|[??]]]; [right; cbn; split; [by left|lia]|by left|right; split; [by right|done]].
Qed.

Lemma btree_insert_sorted {V} k (v : V) l : btree_sorted l → btree_sorted (btree_insert k v l).
Proof.
  unfold btree_sorted. induction l as [|[k' v'] l IH]; cbn; intros Hs; [repeat constructor|].
  pose proof (StronglySorted_inv Hs) as [Hs' Hall].
  destruct (Z.ltb_spec k k'); [|destruct (Z.eqb_spec k k') as [->|]]; cbn.
  - constructor; [done|]. constructor; [done|]. eapply Forall_impl; [exact Hall|]. cbn. lia.
  - by constructor.
  - constructor; [by apply IH|]. rewrite Forall_forall in Hall |- *.
    intros p (kv & -> & Hin)%list_elem_of_fmap. apply btree_insert_elem in Hin; [|done].
    destruct Hin as [->|[Hin _]]; cbn; [lia|]. apply Hall. by apply list_elem_of_fmap_2.
Qed.

Lemma btree_filter_sorted {V} (P : Z * V → Prop) `{!∀ x, Decision (P x)} l :
  btree_sorted l → btree_sorted (filter P l).
Proof.
  unfold btree_sorted. induction l as [|kv l IH]; cbn [fmap list_fmap]; intros Hs; [constructor|].
  apply StronglySorted_inv in Hs as [Hs Hall]. rewrite filter_cons.
  case_decide; [|by apply IH]. cbn. constructor; [by apply IH|].
  rewrite Forall_forall in Hall |- *. intros p (kv' & -> & [_ Hin]%list_elem_of_filter)%list_elem_of_fmap.
  apply Hall. by apply list_elem_of_fmap_2.
Qed.

Lemma btree_unique {V} (l : list (Z * V)) k v v' :
  btree_sorted l → (k, v) ∈ l → (k, v') ∈ l → v = v'.
Proof.
  unfold btree_sorted. induction l as [|[k0 v0] l IH]; cbn; intros Hs; [by intros ?%elem_of_nil|].
  apply StronglySorted_inv in Hs as [Hs Hall]. rewrite Forall_forall in Hall.
  assert (∀ v, (k0, v) ∉ l) as Hno.
  { intros w Hw. assert (k0 ∈ l.*1) as Hk%Hall by (by apply (list_elem_of_fmap_2 fst _ (k0, w))). lia. }
  rewrite !elem_of_cons. naive_solver.
Qed.

(** The head of a sorted list has its least key. *)
Lemma btree_head_least {V} (l : list (Z * V)) kv kv' :
  btree_sorted l → head l = Some kv → kv' ∈ l → kv.1 ≤ kv'.1.
Proof.
  destruct l as [|kv0 l]; cbn; [done|]. intros [_ Hall]%StronglySorted_inv ? [->|Hin]%elem_of_cons;
    simplify_eq; [lia|].
  rewrite Forall_forall in Hall. specialize (Hall _ (list_elem_of_fmap_2 fst _ _ Hin)). lia.
Qed.

(** ** The specification: the owner is the nearest position clockwise *)

(** Clockwise distance on the ring of 64-bit integers. *)
Definition distance (pos p : Z) : Z := as_u64 (p - pos).

Definition nearest (pos : Z) (l : list (Z * string)) (kv : Z * string) : Prop :=
  kv ∈ l ∧ ∀ kv', kv' ∈ l → distance pos kv.1 ≤ distance pos kv'.1.

(** The entry [preferred_node] settles on. *)
Definition successor (pos : Z) (l : list (Z * string)) : option (Z * string) :=
  match head (btree_from pos l) with Some kv => Some kv | None => head l end.

Record ring_wf (r : HashRing) : Prop := {
  wf_sorted : btree_sorted (ring r);
  wf_u64 : ∀ kv, kv ∈ ring r → is_u64 kv.1;
  wf_owner : ∀ kv, kv ∈ ring r → kv.2 ∈ nodes r;
  wf_nodes : NoDup (nodes r);
}.

Lemma distance_ge pos p : is_u64 pos → is_u64 p → pos ≤ p → distance pos p = p - pos.
Proof. unfold distance, is_u64. intros ???. apply as_u64_id. unfold is_u64. lia. Qed.

Lemma distance_lt pos p : is_u64 pos → is_u64 p → p < pos → distance pos p = 2 ^ 64 + p - pos.
Proof.
  unfold distance, as_u64, is_u64. intros ???.
  symmetry. apply (Z.mod_unique_pos _ _ (-1)); lia.
Qed.

Lemma distance_inj pos p q :
  is_u64 pos → is_u64 p → is_u64 q → distance pos p = distance pos q → p = q.
Proof.
  intros Hpos Hp Hq.
  assert (∀ p, is_u64 p → pos ≤ p ∧ distance pos p = p - pos ∨
                          p < pos ∧ distance pos p = 2 ^ 64 + p - pos) as Hd.
  { intros p' Hp'. destruct (Z.le_gt_cases pos p');
      [left; by rewrite distance_ge|right; by rewrite distance_lt]. }
  destruct (Hd p Hp) as [[? ->]|[? ->]], (Hd q Hq) as [[? ->]|[? ->]]; unfold is_u64 in *; lia.
Qed.

Lemma head_elem_of {A} (l : list A) x : head l = Some x → x ∈ l.
Proof. destruct l; cbn; [done|]. intros [= ->]. apply list_elem_of_here. Qed.

Lemma successor_nearest pos l kv :
  btree_sorted l → (∀ kv, kv ∈ l → is_u64 kv.1) → is_u64 pos →
  successor pos l = Some kv → nearest pos l kv.
Proof.
  intros Hs Hu Hpos. unfold successor.
  destruct (head (btree_from pos l)) as [kv0|] eqn:Hh; [intros [= ->]|intros Hl].
  - pose proof (head_elem_of _ _ Hh) as [Hle Hin]%list_elem_of_filter.
    split; [done|]. intros kv' Hin'. pose proof (Hu _ Hin). pose proof (Hu _ Hin').
    rewrite (distance_ge pos kv.1) by done. destruct (Z.le_gt_cases pos kv'.1).
    + rewrite distance_ge by done. assert (kv' ∈ btree_from pos l) as Hf by (by apply list_elem_of_filter).
      pose proof (btree_head_least _ _ _ (btree_filter_sorted _ _ Hs) Hh Hf). lia.
    + rewrite distance_lt by done. unfold is_u64 in *. lia.
  - pose proof (head_elem_of _ _ Hl) as Hin. split; [done|]. intros kv' Hin'.
    assert (∀ kv, kv ∈ l → kv.1 < pos) as Hlt.
    { intros kv1 Hin1. destruct (Z.le_gt_cases pos kv1.1); [|lia].
      assert (kv1 ∈ btree_from pos l) as Hf by (by apply list_elem_of_filter).
      destruct (btree_from pos l); [by apply elem_of_nil in Hf|done]. }
    rewrite !distance_lt by auto. pose proof (btree_head_least _ _ _ Hs Hl Hin'). lia.
Qed.

Lemma successor_is_Some pos l : l ≠ [] → is_Some (successor pos l).
Proof. unfold successor. destruct (head (btree_from pos l)); [done|]. by destruct l. Qed.

Lemma nearest_unique pos l kv kv' :
  btree_sorted l → (∀ kv, kv ∈ l → is_u64 kv.1) → is_u64 pos →
  nearest pos l kv → nearest pos l kv' → kv = kv'.
Proof.
  intros Hs Hu Hpos [Hin Hmin] [Hin' Hmin']. destruct kv as [p v], kv' as [p' v'].
  assert (p = p') as ->.
  { apply (distance_inj pos); [done|by apply (Hu (p, v))|by apply (Hu (p', v'))|].
    apply Z.le_antisymm; [by apply (Hmin (p', v'))|by apply (Hmin' (p, v))]. }
  f_equal. by eapply btree_unique.
Qed.

Section ring_laws.
Context (sha256 : bytes → bytes) (hex_encode : bytes → string).
(** SHA-256 digests are strings of bytes. *)
Hypothesis sha256_bytes : ∀ m, Forall is_byte (sha256 m).

Local Abbreviation hash_position := (hash_position sha256).
Local Abbreviation add_node := (add_node sha256).
Local Abbreviation preferred_node := (preferred_node sha256 hex_encode).
Local Abbreviation preferred_nodes := (preferred_nodes sha256 hex_encode).

Lemma be_decode_bound bs acc : Forall is_byte bs → 0 ≤ acc →
  0 ≤ foldl (λ acc b, acc * 256 + b) acc bs < (acc + 1) * 256 ^ zlen bs.
Proof.
  intros Hbs. revert acc. induction Hbs as [|b bs Hb _ IH]; cbn; intros acc Hacc.
  - change (zlen (@nil Z)) with 0. lia.
  - specialize (IH (acc * 256 + b)). destruct IH as [? Hlt]; [unfold is_byte in Hb; lia|].
    split; [done|]. eapply Z.lt_le_trans; [exact Hlt|].
    replace (zlen (b :: bs)) with (1 + zlen bs) by (unfold zlen; cbn; lia).
    rewrite Z.pow_add_r by (try apply zlen_nonneg; lia). unfold is_byte in Hb.
    assert (0 < 256 ^ zlen bs) by (apply Z.pow_pos_nonneg; [lia|apply zlen_nonneg]). nia.
Qed.

Lemma hash_position_u64 key : is_u64 (hash_position key).
Proof.
  unfold Placement.hash_position, be_decode, is_u64.
  destruct (be_decode_bound (take 8 (sha256 (as_bytes key))) 0) as [? Hlt];
    [by apply Forall_take|lia|].
  split; [done|]. eapply Z.lt_le_trans; [exact Hlt|].
  change (2 ^ 64) with ((0 + 1) * 256 ^ 8). apply Z.mul_le_mono_nonneg_l; [lia|].
  apply Z.pow_le_mono_r; [lia|]. unfold zlen. rewrite length_take. lia.
Qed.

Lemma insert_all_sorted (node : string) ps l :
  btree_sorted l → btree_sorted (foldl (λ acc pos, btree_insert pos node acc) l ps).
Proof.
  revert l. induction ps as [|p ps IH]; intros l Hs; cbn; [done|].
  by apply IH, btree_insert_sorted.
Qed.

Lemma insert_all_elem (node : string) ps l kv :
  btree_sorted l →
  kv ∈ foldl (λ acc pos, btree_insert pos node acc) l ps ↔
    (kv.1 ∈ ps ∧ kv.2 = node) ∨ (kv ∈ l ∧ kv.1 ∉ ps).
Proof.
  revert l. induction ps as [|p ps IH]; intros l Hs; cbn.
  - rewrite elem_of_nil. naive_solver.
  - rewrite IH by (by apply btree_insert_sorted). rewrite btree_insert_elem by done.
    rewrite !elem_of_cons. destruct kv as [q v]; cbn.
    destruct (decide (q ∈ ps)), (decide (q = p)); naive_solver.
Qed.

Lemma ring_wf_new v : ring_wf (ring_new v).
Proof. split; cbn; [constructor| | |constructor]; by intros ? ?%elem_of_nil. Qed.

Lemma ring_wf_add n r : ring_wf r → ring_wf (add_node n r).
Proof.
  intros [Hs Hu Ho Hn]. unfold Placement.add_node. case_decide as Hd; [done|]. split; cbn.
  - by apply insert_all_sorted.
  - intros kv [[Hin _]|[Hin _]]%insert_all_elem; [|by apply Hu|done].
    apply list_elem_of_fmap in Hin as (i & -> & _). apply hash_position_u64.
  - intros kv [[_ ->]|[Hin _]]%insert_all_elem; [| |done]; unfold vec_push;
      apply elem_of_app; [right; by apply list_elem_of_singleton|left; auto].
  - unfold vec_push. apply NoDup_app. split; [done|]. split; [|apply NoDup_singleton].
    intros x Hx ->%list_elem_of_singleton. done.
Qed.

Lemma ring_wf_remove n r : ring_wf r → ring_wf (remove_node n r).
Proof.
  intros [Hs Hu Ho Hn]. split; cbn.
  - by apply btree_filter_sorted.
  - intros kv [_ Hin]%list_elem_of_filter. auto.
  - intros kv [Hne Hin]%list_elem_of_filter. apply list_elem_of_filter. auto.
  - by apply NoDup_filter.
Qed.

Lemma preferred_node_successor h r :
  preferred_node h r = snd <$> successor (hash_position (hex_encode h)) (ring r).
Proof.
  unfold Placement.preferred_node, successor, btree_from. destruct (ring r); [done|].
  by destruct (head _).
Qed.

Lemma preferred_node_iff h r n : ring_wf r →
  preferred_node h r = Some n ↔
    ∃ p, nearest (hash_position (hex_encode h)) (ring r) (p, n).
Proof.
  intros [Hs Hu _ _]. rewrite preferred_node_successor.
  pose proof (hash_position_u64 (hex_encode h)) as Hp. split.
  - intros ([p v] & Hv & Hsucc)%fmap_Some. cbn in Hv. subst. exists p.
    by apply successor_nearest.
  - intros [p Hp']. destruct (successor_is_Some (hash_position (hex_encode h)) (ring r)) as [kv Hkv].
    { intros Hnil. destruct Hp' as [Hin _]. rewrite Hnil in Hin. by apply elem_of_nil in Hin. }
    rewrite Hkv. cbn. f_equal.
    by rewrite (nearest_unique _ _ _ _ Hs Hu Hp (successor_nearest _ _ _ Hs Hu Hp Hkv) Hp').
Qed.

Lemma preferred_add_stable h n m r : ring_wf r →
  preferred_node h (add_node n r) = Some m → m = n ∨ preferred_node h r = Some m.
Proof.
  intros Hwf Hm. pose proof (ring_wf_add n r Hwf) as Hwf'.
  apply preferred_node_iff in Hm as (p & Hin & Hmin); [|done].
  revert Hin Hmin. unfold Placement.add_node. case_decide as Hd; cbn.
  { intros ??. right. apply preferred_node_iff; [done|]. by exists p. }
  intros [[_ ?]|[Hin _]]%insert_all_elem Hmin; [by left| |apply Hwf].
  right. apply preferred_node_iff; [done|]. exists p. split; [done|].
  intros [q v] Hq. cbn. set (ps := vnode_positions sha256 (vnodes_per_node r) n) in *.
  destruct (decide (q ∈ ps)) as [Hc|Hc].
  - apply (Hmin (q, n)), insert_all_elem; [apply Hwf|]. by left.
  - apply (Hmin (q, v)), insert_all_elem; [apply Hwf|]. by right.
Qed.

Lemma preferred_remove_stable h n m r : ring_wf r →
  preferred_node h r = Some m → m ≠ n → preferred_node h (remove_node n r) = Some m.
Proof.
  intros Hwf (p & Hin & Hmin)%preferred_node_iff Hne; [|done].
  apply preferred_node_iff; [by apply ring_wf_remove|]. exists p. split.
  - by apply list_elem_of_filter.
  - intros kv [_ Hkv]%list_elem_of_filter. by apply Hmin.
Qed.

Lemma preferred_node_member h r n : ring_wf r → preferred_node h r = Some n → n ∈ nodes r.
Proof.
  intros Hwf (p & Hin & _)%preferred_node_iff; [|done]. by apply (wf_owner _ Hwf (p, n)).
Qed.

End ring_laws.

(** ** Membership changes as sequences of operations *)
Inductive ring_op := AddNode (n : string) | RemoveNode (n : string).

Definition ring_step (sha256 : bytes → bytes) (r : HashRing) (op : ring_op) : HashRing :=
  match op with AddNode n => add_node sha256 n r | RemoveNode n => remove_node n r end.

Definition ring_run (sha256 : bytes → bytes) (vnodes : Z) (ops : list ring_op) : HashRing :=
  foldl (ring_step sha256) (ring_new vnodes) ops.

(** The set of members after the same changes. *)
Definition members_step (X : gset string) (op : ring_op) : gset string :=
  match op with AddNode n => {[n]} ∪ X | RemoveNode n => X ∖ {[n]} end.

Lemma ring_run_wf sha256 vnodes ops :
  (∀ m, Forall is_byte (sha256 m)) → ring_wf (ring_run sha256 vnodes ops).
Proof.
  intros Hb. unfold ring_run. generalize (ring_wf_new vnodes).
  generalize (ring_new vnodes). induction ops as [|op ops IH]; intros r Hwf; cbn; [done|].
  apply IH. destruct op; cbn; [by apply ring_wf_add|by apply ring_wf_remove].
Qed.

Lemma ring_step_members sha256 op r X :
  list_to_set (nodes r) = X →
  list_to_set (nodes (ring_step sha256 r op)) = members_step X op.
Proof.
  intros <-. destruct op as [n|n]; cbn.
  - unfold add_node. case_decide as Hd; cbn; [set_solver|]. unfold vec_push. set_solver.
  - apply set_eq. intros x. rewrite elem_of_list_to_set, list_elem_of_filter. set_solver.
Qed.

Lemma ring_run_members sha256 vnodes ops :
  list_to_set (nodes (ring_run sha256 vnodes ops)) = foldl members_step (∅ : gset string) ops.
Proof.
  unfold ring_run. assert (list_to_set (nodes (ring_new vnodes)) = (∅ : gset string)) as He by done.
  revert He. generalize (ring_new vnodes) (∅ : gset string).
  induction ops as [|op ops IH]; intros r X He; cbn; [done|]. by apply IH, ring_step_members.
Qed.

(** ** The replica walk *)

(** The nodes of a walk in the order they are first met. *)
Fixpoint first_met (seen : gset string) (it : list (Z * string)) : list string :=
  match it with
  | [] => []
  | (_, n) :: it => if decide (n ∈ seen) then first_met seen it
                    else n :: first_met ({[n]} ∪ seen) it
  end.

Lemma collect_nodes_take n seen result it :
  (zlen result < Z.max 1 n)%Z →
  collect_nodes n seen result it = take (Z.to_nat (Z.max 1 n)) (result ++ first_met seen it).
Proof.
  revert seen result. induction it as [|[p x] it IH]; intros seen result Hlen; cbn.
  - rewrite app_nil_r, take_ge; [done|]. unfold zlen in Hlen. lia.
  - case_decide; [by apply IH|]. unfold vec_push.
    replace (result ++ x :: first_met ({[x]} ∪ seen) it)
      with ((result ++ [x]) ++ first_met ({[x]} ∪ seen) it) by (by rewrite <-app_assoc).
    destruct (Z.geb_spec (zlen (result ++ [x])) n) as [Hge|Hlt].
    + rewrite take_app_le, take_ge; [done| |]; unfold zlen in *; rewrite length_app in *; cbn in *; lia.
    + apply IH. lia.
Qed.

Lemma first_met_elem seen it x : x ∈ first_met seen it ↔ x ∈ it.*2 ∧ x ∉ seen.
Proof.
  revert seen. induction it as [|[p y] it IH]; intros seen; cbn.
  - set_solver.
  - case_decide; [rewrite IH; set_solver|]. rewrite !elem_of_cons, IH.
    destruct (decide (x = y)); set_solver.
Qed.

Lemma first_met_NoDup seen it : NoDup (first_met seen it).
Proof.
  revert seen. induction it as [|[p y] it IH]; intros seen; cbn; [constructor|].
  case_decide; [done|]. constructor; [|done]. rewrite first_met_elem. set_solver.
Qed.

Lemma preferred_nodes_take sha256 hex_encode h n r :
  preferred_nodes sha256 hex_encode h n r =
    take (Z.to_nat (Z.max 1 n))
      (first_met ∅ (btree_from (hash_position sha256 (hex_encode h)) (ring r) ++ ring r)).
Proof.
  unfold preferred_nodes. destruct (ring r) as [|kv l]; [by destruct (Z.to_nat _)|].
  rewrite collect_nodes_take; [done|]. unfold zlen. cbn. lia.
Qed.

Lemma first_met_owners pos l :
  list_to_set (first_met ∅ (btree_from pos l ++ l)) = (list_to_set (l.*2) : gset string).
Proof.
  apply set_eq. intros x. rewrite !elem_of_list_to_set, first_met_elem, fmap_app, elem_of_app.
  split; [|set_solver]. intros [[Hx|Hx] _]; [|done].
  apply list_elem_of_fmap in Hx as (kv & -> & [_ Hin]%list_elem_of_filter).
  by apply list_elem_of_fmap_2.
Qed.

(** A digest for the witnesses: byte strings as base-31 numbers, big endian, 32 bytes. *)
Definition toy_digest (m : bytes) : bytes :=
  reverse (le_encode 8 (as_u64 (foldl (λ acc b, acc * 31 + b * 2654435761)%Z 7%Z m))) ++ replicate 24 0%Z.

(** Lower-case hexadecimal, two digits a byte. *)
Definition hex_digit (d : Z) : Ascii.ascii :=
  Ascii.ascii_of_N (Z.to_N (if (d <? 10)%Z then 48 + d else 87 + d)).
Definition toy_hex (m : bytes) : string :=
  String.string_of_list_ascii (m ≫= λ b, [hex_digit (b / 16); hex_digit (b `mod` 16)]).

(** ** Properties *)

(** C36: After any sequence of [add_node] and [remove_node] calls, the ring's members are the
    nodes added and not removed since, without repetition, so [node_count] counts them;
    [preferred_node] answers [None] exactly when the ring has no position, and otherwise it
    answers a member: the owner of the ring position nearest clockwise (modulo 2^64) to the
    key's position. *)
Theorem ring_owner_is_nearest (sha256 : bytes → bytes) (hex_encode : bytes → string)
    (vnodes : Z) (ops : list ring_op) (h : bytes) (n : string) :
  (∀ m, Forall is_byte (sha256 m)) →
  let r := ring_run sha256 vnodes ops in
  let members := foldl members_step (∅ : gset string) ops in
  node_count r = Z.of_nat (size members) ∧
  (preferred_node sha256 hex_encode h r = None ↔ ring r = []) ∧
  (preferred_node sha256 hex_encode h r = Some n ↔
     ∃ p, nearest (hash_position sha256 (hex_encode h)) (ring r) (p, n)) ∧
  (preferred_node sha256 hex_encode h r = Some n → n ∈ members).
Proof.
  intros Hb r members. pose proof (ring_run_wf sha256 vnodes ops Hb) as Hwf.
  pose proof (ring_run_members sha256 vnodes ops) as Hmem. fold r in Hwf, Hmem.
  fold members in Hmem. split; [|split; [|split]].
  - unfold node_count, zlen. rewrite <-Hmem, size_list_to_set by apply Hwf. done.
  - rewrite preferred_node_successor, fmap_None. split; [|by intros ->].
    intros Hn. destruct (ring r) as [|kv l] eqn:Hr; [done|].
    destruct (successor_is_Some (hash_position sha256 (hex_encode h)) (kv :: l)); [done|congruence].
  - by apply preferred_node_iff.
  - intros Hn. apply preferred_node_member in Hn; [|done..]. rewrite <-Hmem. set_solver.
Qed.

(** C37: Minimal disruption.  On every reachable ring, adding node [n] moves a key only to [n]
    itself, removing [n] moves only the keys [n] owned, and [n] owns nothing afterwards. *)
Theorem ring_minimal_disruption (sha256 : bytes → bytes) (hex_encode : bytes → string)
    (vnodes : Z) (ops : list ring_op) (h : bytes) (n : string) :
  (∀ m, Forall is_byte (sha256 m)) →
  let r := ring_run sha256 vnodes ops in
  let owner := preferred_node sha256 hex_encode h in
  (∀ m, owner (add_node sha256 n r) = Some m → m = n ∨ owner r = Some m) ∧
  (∀ m, owner r = Some m → m ≠ n → owner (remove_node n r) = Some m) ∧
  owner (remove_node n r) ≠ Some n.
Proof.
  intros Hb r owner. pose proof (ring_run_wf sha256 vnodes ops Hb) as Hwf. fold r in Hwf.
  split; [|split].
  - intros m. by apply preferred_add_stable.
  - intros m. by apply preferred_remove_stable.
  - intros Hn. apply preferred_node_member in Hn; [|done|by apply ring_wf_remove].
    cbn in Hn. apply list_elem_of_filter in Hn as [Hne _]. done.
Qed.

(** C38: [preferred_nodes] answers distinct nodes of the ring, as many as asked for (at least
    one) as long as the ring has them, starting with [preferred_node]'s answer; asking for
    more replicas only appends to the list. *)
Theorem replicas_correct (sha256 : bytes → bytes) (hex_encode : bytes → string)
    (h : bytes) (n m : Z) (r : HashRing) :
  let reps := preferred_nodes sha256 hex_encode h n r in
  let owners := (list_to_set (ring r).*2 : gset string) in
  NoDup reps ∧ (∀ x, x ∈ reps → x ∈ owners) ∧
  zlen reps = Z.min (Z.max 1 n) (Z.of_nat (size owners)) ∧
  head reps = preferred_node sha256 hex_encode h r ∧
  (n ≤ m → reps `prefix_of` preferred_nodes sha256 hex_encode h m r)%Z.
Proof.
  cbn zeta. rewrite !preferred_nodes_take. set (pos := hash_position _ _).
  set (met := first_met _ _).
  assert (NoDup met) as Hnd by apply first_met_NoDup.
  pose proof (first_met_owners pos (ring r)) as Hown. fold met in Hown.
  split; [|split; [|split; [|split]]].
  - eapply sublist_NoDup; [exact Hnd|]. apply sublist_take.
  - intros x Hx. rewrite <-Hown, elem_of_list_to_set. eapply elem_of_take in Hx as (i & ? & _).
    by eapply list_elem_of_lookup_2.
  - rewrite <-Hown, size_list_to_set by done. unfold zlen. rewrite length_take. lia.
  - rewrite preferred_node_successor. fold pos. subst met. unfold successor.
    destruct (Z.to_nat (Z.max 1 n)) as [|k] eqn:Hk; [lia|].
    destruct (btree_from pos (ring r)) as [|[p v] l]; cbn.
    + destruct (ring r) as [|[p v] l]; cbn; [done|]. case_decide; [set_solver|done].
    + case_decide; [set_solver|done].
  - intros Hle. exists (drop (Z.to_nat (Z.max 1 n)) (take (Z.to_nat (Z.max 1 m)) met)).
    rewrite <-(take_drop (Z.to_nat (Z.max 1 n)) (take (Z.to_nat (Z.max 1 m)) met)) at 1.
    rewrite take_take. do 2 f_equal. lia.
Qed.

(** *** Witnesses *)
Definition ring_ab : list ring_op := [AddNode "node-a"; AddNode "node-b"; AddNode "node-a"]%string.

Lemma toy_digest_bytes m : Forall is_byte (toy_digest m).
Proof.
  unfold toy_digest. apply Forall_app. split; [apply Forall_reverse|].
  - generalize (as_u64 (foldl (λ acc b, acc * 31 + b * 2654435761)%Z 7%Z m)).
    intros x. apply le_encode_bytes.
  - apply Forall_replicate. unfold is_byte. lia.
Qed.

Lemma ring_owner_is_nearest_witness :
  node_count (ring_run toy_digest 2 ring_ab) = 2%Z ∧
  ∃ p, nearest (hash_position toy_digest (toy_hex (replicate 16 5%Z)))
         (ring (ring_run toy_digest 2 ring_ab)) (p, "node-a"%string).
Proof.
  destruct (ring_owner_is_nearest toy_digest toy_hex 2 ring_ab (replicate 16 5%Z) "node-a"
              toy_digest_bytes) as (Hc & _ & Hn & _).
  split; [etrans; [exact Hc|]; by vm_compute|]. apply (proj1 Hn). vm_compute. reflexivity.
Defined.

Lemma ring_minimal_disruption_witness :
  preferred_node toy_digest toy_hex (replicate 16 5%Z)
    (remove_node "node-b" (ring_run toy_digest 2 ring_ab)) = Some "node-a"%string.
Proof.
  destruct (ring_minimal_disruption toy_digest toy_hex 2 ring_ab (replicate 16 5%Z) "node-b"
              toy_digest_bytes) as (_ & Hr & _).
  apply Hr; [by vm_compute|done].
Defined.

Lemma replicas_correct_witness :
  preferred_nodes toy_digest toy_hex (replicate 16 5%Z) 1 (ring_run toy_digest 2 ring_ab)
    `prefix_of`
  preferred_nodes toy_digest toy_hex (replicate 16 5%Z) 2 (ring_run toy_digest 2 ring_ab).
Proof.
  apply (replicas_correct toy_digest toy_hex (replicate 16 5%Z) 1 2 (ring_run toy_digest 2 ring_ab)).
  lia.
Defined.
