(* ===== verification/Float64.v ===== *)
(** * The f64 arithmetic of the memory-pressure thresholds

    Rust's [f64] is IEEE 754 binary64; the operations the agent uses (comparison, division
    and the conversion from [usize]) are those of the Standard Library's executable
    specification, at precision 53 and maximal exponent 1024. *)
From Stdlib Require Import Floats.SpecFloat.
From S2P Require Import Prelude.
Local Open Scope Z_scope.

Abbreviation f64 := spec_float.

(** [x as f64]: round to nearest, ties to even. *)
Definition f64_of (z : Z) : f64 := binary_normalize 53 1024 z 0 false.
Definition f64_div (x y : f64) : f64 := SFdiv 53 1024 x y.
(** [x <= y], [x >= y]; false when an operand is NaN. *)
Definition f64_le (x y : f64) : bool := SFleb x y.
Definition f64_ge (x y : f64) : bool := SFleb y x.

(** The decimal literal [n / d] (a correctly rounded quotient of exact integers). *)
Definition f64_lit (n d : Z) : f64 := f64_div (f64_of n) (f64_of d).
Definition f64_zero : f64 := S754_zero false.
Definition f64_one : f64 := f64_of 1.

(** [(0.0..=1.0).contains(&v)]. *)
Definition f64_in_unit (v : f64) : bool := f64_le f64_zero v && f64_le v f64_one.

(** ** The order of floats: keys compared lexicographically *)
Definition f64_key (x : f64) : option (Z * Z * Z) :=
  match x with
  | S754_nan => None
  | S754_infinity s => Some (if s then (-2, 0, 0) else (2, 0, 0))
  | S754_zero _ => Some (0, 0, 0)
  | S754_finite s m e => Some (if s then (-1, - e, Z.neg m) else (1, e, Z.pos m))
  end.

Definition key_le (a b : Z * Z * Z) : Prop :=
  a.1.1 < b.1.1 ∨
  (a.1.1 = b.1.1 ∧ (a.1.2 < b.1.2 ∨ (a.1.2 = b.1.2 ∧ a.2 ≤ b.2))).

Lemma f64_le_key x y :
  f64_le x y = true ↔ ∃ a b, f64_key x = Some a ∧ f64_key y = Some b ∧ key_le a b.
Proof.
  unfold f64_le, SFleb, key_le.
  destruct x as [s1|s1| |s1 m1 e1], y as [s2|s2| |s2 m2 e2];
    try destruct s1; try destruct s2; cbn;
    repeat match goal with
    | |- context [Z.compare ?a ?b] => destruct (Z.compare_spec a b)
    | |- context [Pos.compare_cont Eq ?a ?b] =>
        change (Pos.compare_cont Eq a b) with (Pos.compare a b);
        destruct (Pos.compare_spec a b); cbn
    end; cbn;
    (split; [intros ?; try done; eexists _, _; repeat split; cbn; lia
            |intros (a & b & ? & ? & Hk); simplify_eq; cbn in Hk; try done; lia]).
Qed.

Lemma f64_le_trans x y z : f64_le x y = true → f64_le y z = true → f64_le x z = true.
Proof.
  rewrite !f64_le_key. intros (a & b & Ha & Hb & Hab) (b' & c & Hb' & Hc & Hbc).
  rewrite Hb in Hb'. simplify_eq. exists a, c. split_and!; [done..|].
  unfold key_le in *. lia.
Qed.

(** Numbers are totally ordered. *)
Lemma f64_le_total x y : f64_key x ≠ None → f64_key y ≠ None →
  f64_le x y = false → f64_le y x = true.
Proof.
  destruct (f64_key x) as [a|] eqn:Ha, (f64_key y) as [b|] eqn:Hb; try done. intros _ _ Hn.
  apply f64_le_key. exists b, a. split_and!; [done..|].
  assert (¬ key_le a b) as Hk.
  { intros Hk. assert (f64_le x y = true); [|congruence]. apply f64_le_key. eauto. }
  unfold key_le in *. lia.
Qed.

Lemma f64_le_number x y : f64_le x y = true → f64_key x ≠ None ∧ f64_key y ≠ None.
Proof. intros (a & b & Ha & Hb & _)%f64_le_key. by rewrite Ha, Hb. Qed.

(** ** A number divided by itself *)
Lemma f64_div_self s m e : f64_div (S754_finite s m e) (S754_finite s m e) = f64_one.
Proof.
  unfold f64_div, SFdiv, SFdiv_core_binary.
  rewrite !Z.sub_diag. change (Z.min (fexp 53 1024 0) 0) with (-53).
  change (0 - -53) with 53. cbn zeta iota.
  assert (Z.div_eucl (Z.shiftl (Z.pos m) 53) (Z.pos m) = (2 ^ 53, 0)) as ->.
  { rewrite Z.shiftl_mul_pow2 by lia.
    pose proof (Z.div_mul (2 ^ 53) (Z.pos m)) as Hd.
    pose proof (Z.mod_mul (2 ^ 53) (Z.pos m)) as Hm.
    unfold Z.div, Z.modulo in Hd, Hm. rewrite Z.mul_comm in Hd, Hm.
    destruct (Z.div_eucl _ _) as [q r]. f_equal; [apply Hd|apply Hm]; lia. }
  unfold new_location, new_location_even, new_location_odd.
  rewrite xorb_nilpotent. destruct (Z.even (Z.pos m)); by vm_compute.
Qed.

Lemma digits2_pos_iter m d : Z.pos (digits2_pos (Pos.iter xO m d)) = Z.pos (digits2_pos m) + Z.pos d.
Proof.
  induction d as [|d IH] using Pos.peano_ind; [cbn; lia|]. rewrite Pos.iter_succ. cbn. lia.
Qed.

Lemma digits2_pos_bound m : 2 ^ (Z.pos (digits2_pos m) - 1) ≤ Z.pos m.
Proof.
  induction m as [m IH|m IH|]; cbn [digits2_pos]; [| |cbn; lia];
    replace (Z.pos (Pos.succ (digits2_pos m)) - 1) with (1 + (Z.pos (digits2_pos m) - 1)) by lia;
    rewrite Z.pow_add_r by lia; lia.
Qed.

Lemma shr_fexp_exact m e :
  fexp 53 1024 (Z.pos (digits2_pos m) + e) = e →
  shr_fexp 53 1024 (Z.pos m) e loc_Exact = (Build_shr_record (Z.pos m) false false, e).
Proof. intros He. unfold shr_fexp. cbn [Zdigits2]. by rewrite He, Z.sub_diag. Qed.

(** Integers below 2^53 convert without rounding, to finite floats. *)
Lemma f64_of_finite z : 0 < z < 2 ^ 53 → ∃ m e, f64_of z = S754_finite false m e.
Proof.
  intros [Hz Hlt]. destruct z as [|m|m]; [lia| |lia]. unfold f64_of, binary_normalize, binary_round.
  assert (Z.pos (digits2_pos m) ≤ 53) as Hd.
  { destruct (Z.le_gt_cases (Z.pos (digits2_pos m)) 53) as [|Hgt]; [done|].
    pose proof (digits2_pos_bound m). assert (2 ^ 53 ≤ 2 ^ (Z.pos (digits2_pos m) - 1))
      by (apply Z.pow_le_mono_r; lia). lia. }
  assert (∃ m' e, shl_align m 0 (fexp 53 1024 (Z.pos (digits2_pos m) + 0)) = (m', e) ∧
                  fexp 53 1024 (Z.pos (digits2_pos m') + e) = e ∧ e ≤ 0) as (m' & e & -> & He & Hle).
  { unfold shl_align. rewrite Z.add_0_r, Z.sub_0_r.
    assert (fexp 53 1024 (Z.pos (digits2_pos m)) = Z.pos (digits2_pos m) - 53) as ->
      by (unfold fexp, emin; lia).
    destruct (Z.pos (digits2_pos m) - 53) as [|d|d] eqn:Hs; [| lia |]; eexists _, _;
      (split; [done|]); rewrite ?digits2_pos_iter; unfold fexp, emin; lia. }
  unfold binary_round_aux. rewrite (shr_fexp_exact _ _ He). cbn -[Z.leb shr_fexp].
  rewrite (shr_fexp_exact _ _ He). cbn -[Z.leb].
  destruct (Z.leb_spec e (1024 - 53)); [by eauto|lia].
Qed.

Lemma f64_ratio_full t : 0 < t < 2 ^ 53 → f64_div (f64_of t) (f64_of t) = f64_one.
Proof. intros (m & e & ->)%f64_of_finite. apply f64_div_self. Qed.
