(* ===== verification/SocketAddr.v ===== *)
(** * [str::parse::<SocketAddr>()]

    The Standard Library's grammar of socket addresses, as [AgentConfig::validate] and
    [main] use it: [a.b.c.d:port], or [[ipv6%scope]:port].  A reader consumes a prefix of
    the bytes; a reader that fails consumes nothing. *)
From S2P Require Import Prelude Placement.
Local Open Scope Z_scope.

Definition reader (A : Type) : Type := bytes → option (A * bytes).

Global Instance reader_ret : MRet reader := λ A a s, Some (a, s).
Global Instance reader_bind : MBind reader := λ A B k m s,
  match m s with Some (a, s') => k a s' | None => None end.

Definition read_given_char (c : Z) : reader unit := λ s,
  match s with b :: s' => if b =? c then Some (tt, s') else None | [] => None end.

(** [char::to_digit]. *)
Definition to_digit (radix b : Z) : option Z :=
  let d := if (48 <=? b) && (b <=? 57) then Some (b - 48)
           else if (97 <=? b) && (b <=? 122) then Some (b - 87)
           else if (65 <=? b) && (b <=? 90) then Some (b - 55) else None in
  match d with Some d => if d <? radix then Some d else None | None => None end.

(** The digits loop of [read_number]: [None] on overflow of the target type or when there
    are more than [max_digits] digits. *)
Fixpoint read_digits (radix limit : Z) (max_digits : option Z) (acc count : Z) (s : bytes) :
    option (Z * Z * bytes) :=
  match s with
  | [] => Some (acc, count, [])
  | b :: s' =>
      match to_digit radix b with
      | None => Some (acc, count, s)
      | Some d =>
          let acc := acc * radix + d in
          if limit <? acc then None
          else if match max_digits with Some k => k <? count + 1 | None => false end then None
          else read_digits radix limit max_digits acc (count + 1) s'
      end
  end.

(** [read_number::<T>], with [limit] the largest value of [T]. *)
Definition read_number (radix limit : Z) (max_digits : option Z) (allow_zero_prefix : bool) : reader Z :=
  λ s, match read_digits radix limit max_digits 0 0 s with
       | None => None
       | Some (n, count, s') =>
           if count =? 0 then None
           else if negb allow_zero_prefix && bool_decide (head s = Some 48) && (1 <? count) then None
           else Some (n, s')
       end.

(** [read_separator]: the separator precedes every group but the first. *)
Definition read_separator {A} (sep : Z) (i : nat) (inner : reader A) : reader A :=
  match i with O => inner | _ => _ ← read_given_char sep; inner end.

Definition dot : Z := 46.
Definition colon : Z := 58.
Definition percent : Z := 37.
Definition lbracket : Z := 91.
Definition rbracket : Z := 93.

Definition read_octet (i : nat) : reader Z := read_separator dot i (read_number 10 255 (Some 3) false).

Definition read_ipv4_addr : reader (list Z) :=
  a ← read_octet 0; b ← read_octet 1; c ← read_octet 2; d ← read_octet 3; mret [a; b; c; d].

(** [read_groups]: the number of 16-bit groups read, and whether the last two are IPv4. *)
Fixpoint read_groups (n : nat) (i : nat) (s : bytes) : nat * bool * bytes :=
  match n with
  | O => (i, false, s)
  | S n' =>
      match (if bool_decide (n' = 0%nat) then None else read_separator colon i read_ipv4_addr s) with
      | Some (_, s') => ((i + 2)%nat, true, s')
      | None =>
          match read_separator colon i (read_number 16 65535 (Some 4) true) s with
          | Some (_, s') => read_groups n' (S i) s'
          | None => (i, false, s)
          end
      end
  end.

(** The groups after [::], which stands for at least one group. *)
Definition read_tail (head_size : nat) : reader unit := λ s,
  let '(_, _, s) := read_groups (8 - (head_size + 1)) 0 s in Some (tt, s).

Definition read_ipv6_tail (head_size : nat) : reader unit :=
  _ ← read_given_char colon; _ ← read_given_char colon; read_tail head_size.

Definition read_ipv6_addr : reader unit := λ s,
  let '(head_size, head_ipv4, s) := read_groups 8 0 s in
  if bool_decide (head_size = 8%nat) then Some (tt, s)
  else if head_ipv4 then None
  else read_ipv6_tail head_size s.

Definition read_port : reader Z := _ ← read_given_char colon; read_number 10 65535 None true.
Definition read_scope_id : reader Z := _ ← read_given_char percent; read_number 10 (2 ^ 32 - 1) None true.
(** [read_scope_id().unwrap_or(0)]. *)
Definition read_opt_scope_id : reader Z := λ s,
  match read_scope_id s with Some r => Some r | None => Some (0, s) end.

Definition read_socket_addr_v4 : reader unit := _ ← read_ipv4_addr; _ ← read_port; mret tt.
Definition read_socket_addr_v6 : reader unit :=
  _ ← read_given_char lbracket; _ ← read_ipv6_addr;
  _ ← read_opt_scope_id; _ ← read_given_char rbracket; _ ← read_port; mret tt.

(** [s.parse::<SocketAddr>().is_ok()]: the whole string is an address. *)
Definition socket_addr_ok (a : string) : bool :=
  let s := as_bytes a in
  match (match read_socket_addr_v4 s with Some r => Some r | None => read_socket_addr_v6 s end) with
  | Some (_, []) => true
  | _ => false
  end.

(** ** The grammar on concrete addresses *)
Example socket_addr_accepts :
  forallb socket_addr_ok
    ["0.0.0.0:50051"; "127.0.0.1:0"; "[::]:50051"; "[::1]:9090"; "[fe80::1%3]:80";
     "[1:2:3:4:5:6:7:8]:1"; "[::ffff:10.0.0.1]:65535"; "1.2.3.4:000080"]%string = true.
Proof. vm_compute. reflexivity. Qed.

Example socket_addr_rejects :
  existsb socket_addr_ok
    [""; "not-a-socket-addr"; "0.0.0.0"; "256.0.0.1:80"; "01.0.0.1:80"; "1.2.3:80";
     "1.2.3.4:65536"; "localhost:80"; "::1:80"; "[::1]"; "[1:2:3:4:5:6:7:8:9]:1";
     "1.2.3.4:80 "; "[10.0.0.1::]:80"]%string = false.
Proof. vm_compute. reflexivity. Qed.
