(* ===== verification/Utf8.v ===== *)
(** * UTF-8 in the Rust standard library

    What the sources use of it: [String::from_utf8_lossy] (host names), the validation inside
    [fs::read_to_string] (configuration and sysfs files), [str::trim] and
    [str::parse::<i32>()].  A string is the list of its bytes; [chars] are its code points. *)
From S2P Require Import Prelude Placement.
Local Open Scope Z_scope.

(** ** Decoding *)

(** [safe_get]: bytes past the end read as 0, which continues no character. *)
Definition byte_at (s : bytes) (i : nat) : Z := default 0 (s !! i).

Definition is_cont (b : Z) : bool := (128 <=? b) && (b <=? 191).

(** [utf8_char_width] of a first byte; 0 for bytes that start no character. *)
Definition char_width (b : Z) : Z :=
  if b <=? 127 then 1
  else if (194 <=? b) && (b <=? 223) then 2
  else if (224 <=? b) && (b <=? 239) then 3
  else if (240 <=? b) && (b <=? 244) then 4
  else 0.

(** The second bytes that exclude overlong forms, surrogates and code points past U+10FFFF. *)
Definition second_ok (b0 b1 : Z) : bool :=
  is_cont b1 &&
  (if b0 =? 224 then 160 <=? b1
   else if b0 =? 237 then b1 <=? 159
   else if b0 =? 240 then 144 <=? b1
   else if b0 =? 244 then b1 <=? 143
   else true).

(** One turn of the chunk iterator behind [from_utf8_lossy]: whether the bytes start with a
    character, and how many bytes belong to the character or to the invalid sequence. *)
Definition char_step (s : bytes) : bool * nat :=
  let b := byte_at s in
  match char_width (b 0%nat) with
  | 1 => (true, 1%nat)
  | 2 => if is_cont (b 1%nat) then (true, 2%nat) else (false, 1%nat)
  | 3 => if second_ok (b 0%nat) (b 1%nat) then
           if is_cont (b 2%nat) then (true, 3%nat) else (false, 2%nat)
         else (false, 1%nat)
  | 4 => if second_ok (b 0%nat) (b 1%nat) then
           if is_cont (b 2%nat) then
             if is_cont (b 3%nat) then (true, 4%nat) else (false, 3%nat)
           else (false, 2%nat)
         else (false, 1%nat)
  | _ => (false, 1%nat)
  end.

(** The chunks of a byte string, each a character or an invalid sequence; a chunk is at least
    one byte long, so the length of the string is enough fuel. *)
Fixpoint chunks_fuel (fuel : nat) (s : bytes) : list (bool * bytes) :=
  match fuel, s with
  | S fuel, _ :: _ =>
      let '(ok, n) := char_step s in (ok, take n s) :: chunks_fuel fuel (drop n s)
  | _, _ => []
  end.
Definition chunks (s : bytes) : list (bool * bytes) := chunks_fuel (length s) s.

(** U+FFFD. *)
Definition REPLACEMENT : bytes := [239; 191; 189].

Definition from_utf8_lossy (s : bytes) : bytes :=
  c ← chunks s; if (c : bool * bytes).1 then c.2 else REPLACEMENT.

Definition valid_utf8 (s : bytes) : bool := forallb fst (chunks s).

(** The code point of a character's bytes. *)
Definition code_point (c : bytes) : Z :=
  match c with
  | [a] => a
  | [a; b] => (a - 192) * 64 + (b - 128)
  | [a; b; c] => (a - 224) * 4096 + (b - 128) * 64 + (c - 128)
  | [a; b; c; d] => (a - 240) * 262144 + (b - 128) * 4096 + (c - 128) * 64 + (d - 128)
  | _ => 0
  end.
Definition chars (s : bytes) : list Z := code_point ∘ snd <$> chunks s.

(** [fs::read_to_string], from the bytes of the file ([None] when it cannot be read). *)
Definition read_to_string (content : option bytes) : option bytes :=
  match content with Some s => if valid_utf8 s then Some s else None | None => None end.

(** ** Trimming and parsing *)

(** [char::is_whitespace] (the White_Space property). *)
Definition is_whitespace (c : Z) : bool :=
  ((9 <=? c) && (c <=? 13)) || (c =? 32) || (c =? 133) || (c =? 160) || (c =? 5760) ||
  ((8192 <=? c) && (c <=? 8202)) || (c =? 8232) || (c =? 8233) || (c =? 8239) ||
  (c =? 8287) || (c =? 12288).

Fixpoint trim_left (cs : list Z) : list Z :=
  match cs with
  | c :: cs' => if is_whitespace c then trim_left cs' else cs
  | [] => []
  end.
Definition trim (cs : list Z) : list Z := reverse (trim_left (reverse (trim_left cs))).

Fixpoint parse_digits (acc : Z) (cs : list Z) : option Z :=
  match cs with
  | [] => Some acc
  | c :: cs => if (48 <=? c) && (c <=? 57) then parse_digits (acc * 10 + (c - 48)) cs else None
  end.

(** [str::parse::<i32>()]: an optional sign, at least one digit, a value in range. *)
Definition parse_i32 (cs : list Z) : option Z :=
  let '(negative, digits) :=
    match cs with
    | 43 :: ds => (false, ds)
    | 45 :: ds => (true, ds)
    | ds => (false, ds)
    end in
  match digits with
  | [] => None
  | _ =>
      match parse_digits 0 digits with
      | Some n =>
          let v := if (negative : bool) then - n else n in
          if (- 2 ^ 31 <=? v) && (v <? 2 ^ 31) then Some v else None
      | None => None
      end
  end.

(** Bytes as a string of the model, the inverse of [as_bytes]. *)
Definition of_bytes (s : bytes) : string :=
  String.string_of_list_ascii ((λ b, Ascii.ascii_of_N (Z.to_N b)) <$> s).

Example lossy_truncated : from_utf8_lossy [104; 111; 226; 130; 115; 255] = [104; 111] ++ REPLACEMENT ++ [115] ++ REPLACEMENT.
Proof. reflexivity. Qed.
Example chars_euro : chars [226; 130; 172; 10] = [8364; 10].
Proof. reflexivity. Qed.
Example parse_sysfs : parse_i32 (trim (chars (as_bytes "-1
"))) = Some (-1).
Proof. reflexivity. Qed.

(** ** Laws *)

Lemma byte_at_present s i : byte_at s i ≠ 0 → (i < length s)%nat.
Proof. unfold byte_at. destruct (s !! i) eqn:Hi; [|done]. by intros _; apply lookup_lt_Some in Hi. Qed.

Lemma is_cont_present s i : is_cont (byte_at s i) = true → (i < length s)%nat.
Proof. intros Hc. apply byte_at_present. intros H0. by rewrite H0 in Hc. Qed.

Lemma second_ok_present s b i : second_ok b (byte_at s i) = true → (i < length s)%nat.
Proof. intros [Hc _]%andb_true_iff. by apply is_cont_present. Qed.

(** Analyse every branch of [char_step]. *)
Ltac char_cases :=
  unfold char_step; cbn zeta;
  repeat match goal with
  | |- context [match char_width ?b with _ => _ end] =>
      let Hw := fresh "Hw" in
      destruct (char_width b) as [|[[?|[?|?|]|]|[?|[?|?|]|]|]|?] eqn:Hw
  | |- context [if ?c then _ else _] => let Hc := fresh "Hc" in destruct c eqn:Hc
  end.

Lemma char_step_bound s : s ≠ [] → (1 ≤ (char_step s).2 ≤ length s)%nat.
Proof.
  intros Hs. assert (1 ≤ length s)%nat by (destruct s; [done|cbn; lia]).
  char_cases; cbn [snd]; repeat match goal with
    | H : is_cont (byte_at s ?i) = true |- _ => apply is_cont_present in H
    | H : second_ok _ (byte_at s ?i) = true |- _ => apply second_ok_present in H
    end; lia.
Qed.

(** Fuel beyond the length does not matter. *)
Lemma chunks_fuel_enough fuel s : (length s ≤ fuel)%nat → chunks_fuel fuel s = chunks s.
Proof.
  unfold chunks. revert fuel s.
  assert (∀ m fuel s, (length s ≤ m)%nat → (length s ≤ fuel)%nat →
            chunks_fuel fuel s = chunks_fuel (length s) s) as Hm.
  { induction m as [|m IH]; intros fuel [|a s] Hl Hf; cbn in Hl, Hf; try lia; try (by destruct fuel).
    destruct fuel as [|fuel]; [lia|]. cbn [chunks_fuel length].
    pose proof (char_step_bound (a :: s)) as Hb. destruct (char_step (a :: s)) as [ok n].
    cbn [snd length] in Hb. specialize (Hb ltac:(done)).
    rewrite (IH fuel), (IH (length s)); [done|..]; rewrite ?length_drop; cbn [length]; lia. }
  eauto.
Qed.

Lemma chunks_cons s :
  s ≠ [] → chunks s = ((char_step s).1, take (char_step s).2 s) :: chunks (drop (char_step s).2 s).
Proof.
  intros Hs. pose proof (char_step_bound s Hs) as Hb. destruct s as [|a s]; [done|].
  unfold chunks at 1. cbn [length chunks_fuel]. destruct (char_step (a :: s)) as [ok n]. cbn [fst snd] in *.
  rewrite chunks_fuel_enough; [done|]. rewrite length_drop. cbn [length] in *. lia.
Qed.

(** Induction along the chunks. *)
Lemma chunks_ind (P : bytes → Prop) :
  P [] → (∀ s, s ≠ [] → P (drop (char_step s).2 s) → P s) → ∀ s, P s.
Proof.
  intros Hnil Hstep s. remember (length s) as n eqn:Hn.
  revert s Hn. induction (lt_wf n) as [n _ IH]. intros s ->.
  destruct (decide (s = [])) as [->|Hs]; [done|]. apply Hstep; [done|].
  pose proof (char_step_bound s Hs). eapply IH; [|done]. rewrite length_drop.
  assert (0 < length s)%nat by (destruct s; [done|cbn; lia]). lia.
Qed.

(** The chunks are the string, cut. *)
Lemma chunks_concat s : concat (chunks s).*2 = s.
Proof.
  induction s as [|s Hs IH] using chunks_ind; [done|].
  rewrite (chunks_cons s Hs). cbn. rewrite IH. apply take_drop.
Qed.

Lemma byte_at_take_app n s t i : (i < n)%nat → (n ≤ length s)%nat → byte_at (take n s ++ t) i = byte_at s i.
Proof.
  intros Hi Hn. unfold byte_at. rewrite lookup_app_l by (rewrite length_take; lia).
  by rewrite lookup_take_lt.
Qed.

(** Whether a character starts here depends on its own bytes only. *)
Lemma char_step_local s t n :
  s ≠ [] → char_step s = (true, n) → char_step (take n s ++ t) = (true, n).
Proof.
  intros Hs Hstep. pose proof (char_step_bound s Hs) as Hb. rewrite Hstep in Hb. cbn [snd] in Hb.
  pose proof (λ i Hi, byte_at_take_app n s t i Hi (proj2 Hb)) as Hat.
  revert Hstep. unfold char_step at 1. cbn zeta. intros Hstep. unfold char_step. cbn zeta.
  rewrite (Hat 0%nat) by lia.
  repeat match goal with
  | Hstep : context [match char_width ?b with _ => _ end] |- _ =>
      let Hw := fresh "Hw" in
      destruct (char_width b) as [|[[?|[?|?|]|]|[?|[?|?|]|]|]|?] eqn:Hw
  | Hstep : (if ?c then _ else _) = _ |- _ => let Hc := fresh "Hc" in destruct c eqn:Hc
  end; simplify_eq; repeat (rewrite !Hat by lia; rewrite ?Hc, ?Hc0, ?Hc1); done.
Qed.

Lemma chunks_app_char s t n :
  s ≠ [] → char_step s = (true, n) → chunks (take n s ++ t) = (true, take n s) :: chunks t.
Proof.
  intros Hs Hstep. pose proof (char_step_bound s Hs) as Hb. rewrite Hstep in Hb. cbn [snd] in Hb.
  assert (length (take n s) = n) as Hl by (rewrite length_take; lia).
  rewrite chunks_cons, (char_step_local s t n Hs Hstep).
  - cbn [fst snd]. by rewrite take_app_length', drop_app_length'.
  - intros [Ht _]%app_eq_nil. rewrite Ht in Hl. cbn in Hl. lia.
Qed.

Lemma chunks_replacement t : chunks (REPLACEMENT ++ t) = (true, REPLACEMENT) :: chunks t.
Proof. apply (chunks_app_char REPLACEMENT t 3); done. Qed.

(** The lossy conversion produces valid UTF-8 ... *)
Lemma from_utf8_lossy_valid s : valid_utf8 (from_utf8_lossy s) = true.
Proof.
  induction s as [|s Hs IH] using chunks_ind; [done|].
  unfold from_utf8_lossy. rewrite (chunks_cons s Hs). cbn [mbind list_bind fst snd].
  unfold from_utf8_lossy, valid_utf8 in IH. unfold valid_utf8.
  destruct (char_step s) as [[] n] eqn:Hstep; cbn [fst snd] in *.
  - by rewrite chunks_app_char.
  - by rewrite chunks_replacement.
Qed.

(** ... and leaves valid UTF-8 alone. *)
Lemma from_utf8_lossy_id s : valid_utf8 s = true → from_utf8_lossy s = s.
Proof.
  induction s as [|s Hs IH] using chunks_ind; [done|].
  unfold valid_utf8, from_utf8_lossy in *. rewrite (chunks_cons s Hs).
  cbn [forallb fst snd mbind list_bind].
  intros [-> Hv]%andb_true_iff. rewrite IH by done. apply take_drop.
Qed.

Lemma as_bytes_of_bytes s : Forall is_byte s → as_bytes (of_bytes s) = s.
Proof.
  intros Hs. unfold as_bytes, of_bytes. rewrite String.list_ascii_of_string_of_list_ascii.
  rewrite <- list_fmap_compose. rewrite <- (list_fmap_id s) at 2. apply list_fmap_ext.
  intros i b Hb. rewrite Forall_lookup in Hs. destruct (Hs i b Hb) as [? ?]. cbn.
  rewrite Ascii.N_ascii_embedding by lia. lia.
Qed.

Lemma from_utf8_lossy_bytes s : Forall is_byte s → Forall is_byte (from_utf8_lossy s).
Proof.
  induction s as [|s Hs IH] using chunks_ind; [constructor|]. intros Hb.
  unfold from_utf8_lossy in *. rewrite (chunks_cons s Hs). cbn [mbind list_bind fst snd].
  apply Forall_app. split; [|by apply IH, Forall_drop].
  destruct (char_step s).1; [by apply Forall_take|]. repeat constructor; done.
Qed.

(** A character is not NUL-free by accident: NUL is a character of its own, so a NUL-free
    string stays NUL-free. *)
Lemma from_utf8_lossy_no_nul s : 0 ∉ s → 0 ∉ from_utf8_lossy s.
Proof.
  induction s as [|s Hs IH] using chunks_ind; [done|]. intros H0.
  unfold from_utf8_lossy in *. rewrite (chunks_cons s Hs). cbn [mbind list_bind fst snd].
  rewrite <- (take_drop (char_step s).2 s) in H0. rewrite not_elem_of_app in *.
  destruct H0 as [H1 H2]. split; [|by apply IH].
  destruct (char_step s).1; [done|]. unfold REPLACEMENT. set_solver.
Qed.
