(* ===== verification/Config.v ===== *)
(** * Agent configuration (crates/cmx-agent/src/config.rs)

    The sections with their defaults, [load], [validate], [resolve_node_id] and
    [gethostname].  The toml crate, with the reading of typed fields that serde derives, is a
    parameter of [load]: it yields the fields a document gives, a [ConfigFile]; filling in
    the missing ones is what the [serde(default)] attributes of the source say.  The bytes of
    the file, the environment variable and what libc's gethostname wrote are arguments. *)
From stdpp Require Import pretty.
From S2P Require Import Prelude Placement Float64 SocketAddr Utf8.
Local Open Scope Z_scope.

Record AgentSection := mkAgentSection {
  cfg_node_id : string;
  cfg_listen_addr : string;
  cfg_log_level : string;
  cfg_log_format : string;
  cfg_max_requests_per_second : Z;
}.

Record MemorySection := mkMemorySection {
  cfg_total_size : Z;
  cfg_block_size : Z;
  cfg_numa_node : option Z;
  cfg_pressure_warn : f64;
  cfg_pressure_critical : f64;
  cfg_pressure_reject : f64;
}.

Record MetadataSection := mkMetadataSection {
  cfg_etcd_endpoints : list string;
  cfg_key_prefix : string;
  cfg_ttl_seconds : Z;
  cfg_lease_ttl_seconds : Z;
}.

Record TransportSection := mkTransportSection { cfg_backend : string }.
Record MetricsSection := mkMetricsSection { cfg_metrics_addr : string }.
Record PlacementSection := mkPlacementSection { cfg_vnodes_per_node : Z }.

Record TlsSection := mkTlsSection {
  cfg_tls_enabled : bool;
  cfg_cert_path : string;
  cfg_key_path : string;
  cfg_ca_cert_path : string;
}.

Record AgentConfig := mkAgentConfig {
  cfg_agent : AgentSection;
  cfg_memory : MemorySection;
  cfg_metadata : MetadataSection;
  cfg_transport : TransportSection;
  cfg_metrics : MetricsSection;
  cfg_placement : PlacementSection;
  cfg_tls : TlsSection;
}.

(** The [default_] functions. *)
Definition default_listen_addr : string := "0.0.0.0:50051".
Definition default_log_level : string := "info".
Definition default_log_format : string := "text".
Definition default_total_size : Z := 1024 * 1024 * 1024.
Definition default_block_size : Z := 256 * 1024.
Definition default_etcd_endpoints : list string := ["http://localhost:2379"%string].
Definition default_key_prefix : string := "/cmx/blocks".
Definition default_ttl_seconds : Z := 3600.
Definition default_lease_ttl_seconds : Z := 30.
Definition default_transport_backend : string := "mock".
Definition default_metrics_addr : string := "0.0.0.0:9090".
Definition default_vnodes_per_node : Z := 128.
Definition default_pressure_warn : f64 := f64_lit 75 100.
Definition default_pressure_critical : f64 := f64_lit 90 100.
Definition default_pressure_reject : f64 := f64_lit 95 100.

(** The sections' [Default] instances. *)
Definition default_agent_section : AgentSection :=
  {| cfg_node_id := ""; cfg_listen_addr := default_listen_addr; cfg_log_level := default_log_level;
     cfg_log_format := default_log_format; cfg_max_requests_per_second := 0 |}.

Definition default_memory_section : MemorySection :=
  {| cfg_total_size := default_total_size;
     cfg_block_size := default_block_size;
     cfg_numa_node := None;
     cfg_pressure_warn := default_pressure_warn;
     cfg_pressure_critical := default_pressure_critical;
     cfg_pressure_reject := default_pressure_reject |}.

Definition default_metadata_section : MetadataSection :=
  {| cfg_etcd_endpoints := default_etcd_endpoints; cfg_key_prefix := default_key_prefix;
     cfg_ttl_seconds := default_ttl_seconds; cfg_lease_ttl_seconds := default_lease_ttl_seconds |}.

Definition default_transport_section : TransportSection := {| cfg_backend := default_transport_backend |}.
Definition default_metrics_section : MetricsSection := {| cfg_metrics_addr := default_metrics_addr |}.
Definition default_placement_section : PlacementSection := {| cfg_vnodes_per_node := default_vnodes_per_node |}.

Definition default_tls_section : TlsSection :=
  {| cfg_tls_enabled := false; cfg_cert_path := ""; cfg_key_path := ""; cfg_ca_cert_path := "" |}.

(** [AgentConfig::default_config]. *)
Definition default_config : AgentConfig :=
  {| cfg_agent := default_agent_section;
     cfg_memory := default_memory_section;
     cfg_metadata := default_metadata_section;
     cfg_transport := default_transport_section;
     cfg_metrics := default_metrics_section;
     cfg_placement := default_placement_section;
     cfg_tls := default_tls_section |}.

(** ** Loading

    The fields a TOML document gives, each absent or of the field's type. *)
Record AgentFile := mkAgentFile {
  fl_node_id : option string;
  fl_listen_addr : option string;
  fl_log_level : option string;
  fl_log_format : option string;
  fl_max_requests_per_second : option Z;
}.

Record MemoryFile := mkMemoryFile {
  fl_total_size : option Z;
  fl_block_size : option Z;
  fl_numa_node : option Z;
  fl_pressure_warn : option f64;
  fl_pressure_critical : option f64;
  fl_pressure_reject : option f64;
}.

Record MetadataFile := mkMetadataFile {
  fl_etcd_endpoints : option (list string);
  fl_key_prefix : option string;
  fl_ttl_seconds : option Z;
  fl_lease_ttl_seconds : option Z;
}.

Record TlsFile := mkTlsFile {
  fl_tls_enabled : option bool;
  fl_cert_path : option string;
  fl_key_path : option string;
  fl_ca_cert_path : option string;
}.

(** The sections with a single field are that field: [backend], [listen_addr] and
    [vnodes_per_node]. *)
Record ConfigFile := mkConfigFile {
  fl_agent : option AgentFile;
  fl_memory : option MemoryFile;
  fl_metadata : option MetadataFile;
  fl_transport : option (option string);
  fl_metrics : option (option string);
  fl_placement : option (option Z);
  fl_tls : option TlsFile;
}.

(** The [serde(default = ...)] attributes of the fields of each section. *)
Definition agent_of_file (f : AgentFile) : AgentSection :=
  {| cfg_node_id := default ""%string (fl_node_id f);
     cfg_listen_addr := default default_listen_addr (fl_listen_addr f);
     cfg_log_level := default default_log_level (fl_log_level f);
     cfg_log_format := default default_log_format (fl_log_format f);
     cfg_max_requests_per_second := default 0 (fl_max_requests_per_second f) |}.

Definition memory_of_file (f : MemoryFile) : MemorySection :=
  {| cfg_total_size := default default_total_size (fl_total_size f);
     cfg_block_size := default default_block_size (fl_block_size f);
     cfg_numa_node := fl_numa_node f;
     cfg_pressure_warn := default default_pressure_warn (fl_pressure_warn f);
     cfg_pressure_critical := default default_pressure_critical (fl_pressure_critical f);
     cfg_pressure_reject := default default_pressure_reject (fl_pressure_reject f) |}.

Definition metadata_of_file (f : MetadataFile) : MetadataSection :=
  {| cfg_etcd_endpoints := default default_etcd_endpoints (fl_etcd_endpoints f);
     cfg_key_prefix := default default_key_prefix (fl_key_prefix f);
     cfg_ttl_seconds := default default_ttl_seconds (fl_ttl_seconds f);
     cfg_lease_ttl_seconds := default default_lease_ttl_seconds (fl_lease_ttl_seconds f) |}.

Definition transport_of_file (f : option string) : TransportSection :=
  {| cfg_backend := default default_transport_backend f |}.
Definition metrics_of_file (f : option string) : MetricsSection :=
  {| cfg_metrics_addr := default default_metrics_addr f |}.
Definition placement_of_file (f : option Z) : PlacementSection :=
  {| cfg_vnodes_per_node := default default_vnodes_per_node f |}.

Definition tls_of_file (f : TlsFile) : TlsSection :=
  {| cfg_tls_enabled := default false (fl_tls_enabled f);
     cfg_cert_path := default ""%string (fl_cert_path f);
     cfg_key_path := default ""%string (fl_key_path f);
     cfg_ca_cert_path := default ""%string (fl_ca_cert_path f) |}.

(** The [serde(default)] attributes of [AgentConfig]: a missing section is its [Default]. *)
Definition config_of_file (f : ConfigFile) : AgentConfig :=
  {| cfg_agent := from_option agent_of_file default_agent_section (fl_agent f);
     cfg_memory := from_option memory_of_file default_memory_section (fl_memory f);
     cfg_metadata := from_option metadata_of_file default_metadata_section (fl_metadata f);
     cfg_transport := from_option transport_of_file default_transport_section (fl_transport f);
     cfg_metrics := from_option metrics_of_file default_metrics_section (fl_metrics f);
     cfg_placement := from_option placement_of_file default_placement_section (fl_placement f);
     cfg_tls := from_option tls_of_file default_tls_section (fl_tls f) |}.

(** [AgentConfig::load]; [content] is what the file holds, [None] when it cannot be read. *)
Inductive LoadError := ReadFailed | TomlFailed (e : string).

Definition load (from_str : bytes → result ConfigFile string) (content : option bytes) :
    result AgentConfig LoadError :=
  match read_to_string content with
  | None => Err ReadFailed
  | Some content =>
      match from_str content with
      | Err e => Err (TomlFailed e)
      | Ok f => Ok (config_of_file f)
      end
  end.

(** ** Validation *)

(** The messages [validate] collects, one constructor per [errors.push], with the values
    the message interpolates. *)
Inductive ConfigError :=
  | BlockSizeZero
  | TotalSizeZero
  | NotDivisible (total_size block_size : Z)
  | ThresholdRange (name : string) (val : f64)
  | WarnNotBelowCritical (warn critical : f64)
  | CriticalNotBelowReject (critical reject : f64)
  | BadListenAddr (addr : string).

(** The text of a message; [fmt_f64] is [f64]'s [Display]. *)
Definition error_message (fmt_f64 : f64 → string) (e : ConfigError) : string :=
  match e with
  | BlockSizeZero => "memory.block_size must be > 0"
  | TotalSizeZero => "memory.total_size must be > 0"
  | NotDivisible total_size block_size =>
      "memory.total_size (" +:+ pretty total_size +:+ ") must be divisible by memory.block_size ("
        +:+ pretty block_size +:+ ")"
  | ThresholdRange name val => "memory." +:+ name +:+ " (" +:+ fmt_f64 val +:+ ") must be between 0.0 and 1.0"
  | WarnNotBelowCritical warn critical =>
      "memory.pressure_warn (" +:+ fmt_f64 warn +:+ ") must be < memory.pressure_critical ("
        +:+ fmt_f64 critical +:+ ")"
  | CriticalNotBelowReject critical reject =>
      "memory.pressure_critical (" +:+ fmt_f64 critical +:+ ") must be < memory.pressure_reject ("
        +:+ fmt_f64 reject +:+ ")"
  | BadListenAddr addr => "agent.listen_addr ('" +:+ addr +:+ "') is not a valid socket address"
  end.

Definition push_if (b : bool) (e : ConfigError) (errors : list ConfigError) : list ConfigError :=
  if b then vec_push e errors else errors.

(** [AgentConfig::validate]. *)
Definition validate (self : AgentConfig) : result unit (list ConfigError) :=
  let mem := cfg_memory self in
  let errors := [] in
  let errors := push_if (cfg_block_size mem =? 0) BlockSizeZero errors in
  let errors := push_if (cfg_total_size mem =? 0) TotalSizeZero errors in
  let errors := push_if ((0 <? cfg_block_size mem) && negb (cfg_total_size mem `mod` cfg_block_size mem =? 0))
                  (NotDivisible (cfg_total_size mem) (cfg_block_size mem)) errors in
  let warn := cfg_pressure_warn mem in
  let critical := cfg_pressure_critical mem in
  let reject := cfg_pressure_reject mem in
  let errors := foldl (λ errors '(name, val),
                    push_if (negb (f64_in_unit val)) (ThresholdRange name val) errors) errors
                  [("pressure_warn", warn); ("pressure_critical", critical); ("pressure_reject", reject)]%string in
  let errors := push_if (f64_ge warn critical) (WarnNotBelowCritical warn critical) errors in
  let errors := push_if (f64_ge critical reject) (CriticalNotBelowReject critical reject) errors in
  let errors := push_if (negb (socket_addr_ok (cfg_listen_addr (cfg_agent self))))
                  (BadListenAddr (cfg_listen_addr (cfg_agent self))) errors in
  match errors with [] => Ok tt | _ => Err errors end.

(** What [resolve_node_id] reads from the process: the variable [CMX_NODE_ID], when it is set
    to valid Unicode, and the return code of libc's gethostname with the buffer it filled. *)
Record NodeEnv := mkNodeEnv { env_cmx_node_id : option string; env_gethostname : Z * bytes }.

(** [gethostname]: the bytes before the first NUL, or the whole buffer. *)
Definition gethostname (env : NodeEnv) : string :=
  let '(rc, buf) := env_gethostname env in
  if rc =? 0 then
    let nul_pos := from_option fst (length buf) (list_find (λ b, b = 0) buf) in
    of_bytes (from_utf8_lossy (take nul_pos buf))
  else "unknown".

(** [AgentConfig::resolve_node_id]. *)
Definition resolve_node_id (env : NodeEnv) (self : AgentConfig) : AgentConfig :=
  let a := cfg_agent self in
  let with_id id := mkAgentConfig
    (mkAgentSection id (cfg_listen_addr a) (cfg_log_level a) (cfg_log_format a) (cfg_max_requests_per_second a))
    (cfg_memory self) (cfg_metadata self) (cfg_transport self) (cfg_metrics self)
    (cfg_placement self) (cfg_tls self) in
  if bool_decide (cfg_node_id a = ""%string) then
    match env_cmx_node_id env with
    | Some id => with_id id
    | None => with_id (gethostname env)
    end
  else self.

(** ** What an accepted configuration guarantees *)

(** Strictly below, between numbers. *)
Definition f64_lt (x y : f64) : Prop := f64_le x y = true ∧ f64_le y x = false.

Record config_valid (c : AgentConfig) : Prop := {
  cv_block_size : cfg_block_size (cfg_memory c) ≠ 0;
  cv_total_size : cfg_total_size (cfg_memory c) ≠ 0;
  cv_divides : 0 < cfg_block_size (cfg_memory c) →
    (cfg_block_size (cfg_memory c) | cfg_total_size (cfg_memory c));
  cv_warn : f64_le f64_zero (cfg_pressure_warn (cfg_memory c)) = true;
  cv_warn_critical : f64_lt (cfg_pressure_warn (cfg_memory c)) (cfg_pressure_critical (cfg_memory c));
  cv_critical_reject : f64_lt (cfg_pressure_critical (cfg_memory c)) (cfg_pressure_reject (cfg_memory c));
  cv_reject : f64_le (cfg_pressure_reject (cfg_memory c)) f64_one = true;
  cv_listen_addr : socket_addr_ok (cfg_listen_addr (cfg_agent c)) = true;
}.

Lemma push_if_nil b e errors : push_if b e errors = [] ↔ errors = [] ∧ b = false.
Proof.
  unfold push_if, vec_push. destruct b; [|tauto].
  split; [by intros [_ ?]%app_eq_nil|by intros [_ ?]].
Qed.

Lemma validate_ok_flags c : validate c = Ok tt ↔
  let mem := cfg_memory c in
  (cfg_block_size mem =? 0) = false ∧ (cfg_total_size mem =? 0) = false ∧
  ((0 <? cfg_block_size mem) && negb (cfg_total_size mem `mod` cfg_block_size mem =? 0)) = false ∧
  f64_in_unit (cfg_pressure_warn mem) = true ∧ f64_in_unit (cfg_pressure_critical mem) = true ∧
  f64_in_unit (cfg_pressure_reject mem) = true ∧
  f64_ge (cfg_pressure_warn mem) (cfg_pressure_critical mem) = false ∧
  f64_ge (cfg_pressure_critical mem) (cfg_pressure_reject mem) = false ∧
  socket_addr_ok (cfg_listen_addr (cfg_agent c)) = true.
Proof.
  unfold validate. cbn [foldl]. cbn zeta.
  match goal with |- context [match ?l with [] => Ok tt | _ :: _ => _ end] =>
    transitivity (l = []); [by destruct l|] end.
  rewrite !push_if_nil, !negb_false_iff. tauto.
Qed.

Lemma f64_in_unit_iff v : f64_in_unit v = true ↔ f64_le f64_zero v = true ∧ f64_le v f64_one = true.
Proof. apply andb_true_iff. Qed.

Lemma f64_lt_of_unit x y :
  f64_in_unit x = true → f64_in_unit y = true → f64_ge x y = false → f64_lt x y.
Proof.
  rewrite !f64_in_unit_iff. intros [Hx _] [Hy _] Hge. unfold f64_ge in Hge. split; [|done].
  apply f64_le_number in Hx as [_ Hx], Hy as [_ Hy]. by apply f64_le_total.
Qed.

Lemma validate_sound c : validate c = Ok tt → config_valid c.
Proof.
  intros (Hb & Ht & Hd & Hw & Hc & Hr & Hwc & Hcr & Ha)%validate_ok_flags.
  pose proof (f64_lt_of_unit _ _ Hw Hc Hwc). pose proof (f64_lt_of_unit _ _ Hc Hr Hcr).
  apply f64_in_unit_iff in Hw as [Hw _], Hr as [_ Hr].
  split; [by apply Z.eqb_neq|by apply Z.eqb_neq| |done..].
  intros Hpos%Z.ltb_lt. rewrite Hpos in Hd. cbn in Hd. apply negb_false_iff, Z.eqb_eq in Hd.
  apply Z.mod_divide; [|done]. by apply Z.eqb_neq.
Qed.

Lemma validate_complete c : config_valid c → validate c = Ok tt.
Proof.
  intros [Hb Ht Hd Hw [Hwc Hwc'] [Hcr Hcr'] Hr Ha]. apply validate_ok_flags. cbn zeta.
  rewrite !f64_in_unit_iff.
  split_and!; [by apply Z.eqb_neq|by apply Z.eqb_neq| |eauto using f64_le_trans..| | |].
  - destruct (Z.ltb_spec 0 (cfg_block_size (cfg_memory c))) as [Hpos|]; [|done]. cbn.
    apply negb_false_iff, Z.eqb_eq, Z.mod_divide; auto.
  - done.
  - done.
  - done.
Qed.

(** ** Properties *)

(** C40: [validate] accepts exactly the configurations whose block size and pool size are
    non-zero with the block size dividing the pool size, whose thresholds are numbers (no
    NaN) with 0 <= warn < critical < reject <= 1, and whose listen address parses; it
    rejects any other with a non-empty list of errors. *)
Theorem validate_accepts_exactly (c : AgentConfig) :
  (validate c = Ok tt ↔ config_valid c) ∧
  (¬ config_valid c → ∃ e es, validate c = Err (e :: es)).
Proof.
  split; [split; [apply validate_sound|apply validate_complete]|].
  intros Hn. assert (validate c ≠ Ok tt) as Hne by (by intros ?%validate_sound).
  revert Hne. unfold validate. cbn zeta.
  match goal with |- context [match ?l with [] => Ok tt | _ :: _ => _ end] => destruct l end;
    [done|by eauto].
Qed.

Example default_config_valid : validate default_config = Ok tt.
Proof. vm_compute. reflexivity. Qed.

(** ** Loading fills in the defaults *)

(** The reference: every field the document gives, and [default_config]'s value for every
    other, whether its section is there or not. *)
Definition given {F A} (section : option F) (field : F → option A) : option A := section ≫= field.

Definition overlay (d : AgentConfig) (f : ConfigFile) : AgentConfig :=
  let a := cfg_agent d in let m := cfg_memory d in let md := cfg_metadata d in let t := cfg_tls d in
  mkAgentConfig
    (mkAgentSection (default (cfg_node_id a) (given (fl_agent f) fl_node_id))
       (default (cfg_listen_addr a) (given (fl_agent f) fl_listen_addr))
       (default (cfg_log_level a) (given (fl_agent f) fl_log_level))
       (default (cfg_log_format a) (given (fl_agent f) fl_log_format))
       (default (cfg_max_requests_per_second a) (given (fl_agent f) fl_max_requests_per_second)))
    (mkMemorySection (default (cfg_total_size m) (given (fl_memory f) fl_total_size))
       (default (cfg_block_size m) (given (fl_memory f) fl_block_size))
       (given (fl_memory f) fl_numa_node)
       (default (cfg_pressure_warn m) (given (fl_memory f) fl_pressure_warn))
       (default (cfg_pressure_critical m) (given (fl_memory f) fl_pressure_critical))
       (default (cfg_pressure_reject m) (given (fl_memory f) fl_pressure_reject)))
    (mkMetadataSection (default (cfg_etcd_endpoints md) (given (fl_metadata f) fl_etcd_endpoints))
       (default (cfg_key_prefix md) (given (fl_metadata f) fl_key_prefix))
       (default (cfg_ttl_seconds md) (given (fl_metadata f) fl_ttl_seconds))
       (default (cfg_lease_ttl_seconds md) (given (fl_metadata f) fl_lease_ttl_seconds)))
    (mkTransportSection (default (cfg_backend (cfg_transport d)) (given (fl_transport f) id)))
    (mkMetricsSection (default (cfg_metrics_addr (cfg_metrics d)) (given (fl_metrics f) id)))
    (mkPlacementSection (default (cfg_vnodes_per_node (cfg_placement d)) (given (fl_placement f) id)))
    (mkTlsSection (default (cfg_tls_enabled t) (given (fl_tls f) fl_tls_enabled))
       (default (cfg_cert_path t) (given (fl_tls f) fl_cert_path))
       (default (cfg_key_path t) (given (fl_tls f) fl_key_path))
       (default (cfg_ca_cert_path t) (given (fl_tls f) fl_ca_cert_path))).

(** Missing fields use defaults: the attributes on the fields, those on the sections and the
    [Default] instances agree, so loading is the overlay of the document on
    [default_config]; a file that cannot be read, is not UTF-8 or does not parse is an error. *)
Theorem load_overlays_defaults (from_str : bytes → result ConfigFile string) (content : option bytes) :
  load from_str content =
    match content with
    | Some text =>
        if valid_utf8 text then
          match from_str text with Ok f => Ok (overlay default_config f) | Err e => Err (TomlFailed e) end
        else Err ReadFailed
    | None => Err ReadFailed
    end.
Proof.
  unfold load, read_to_string. destruct content as [text|]; [|done].
  destruct (valid_utf8 text); [|done]. destruct (from_str text) as [f|e]; [|done]. f_equal.
  destruct f as [a m md t me pl tl]. unfold config_of_file, overlay. cbn [fl_agent fl_memory fl_metadata fl_transport fl_metrics fl_placement fl_tls].
  f_equal; [by destruct a|by destruct m|by destruct md|by destruct t|by destruct me|by destruct pl|by destruct tl].
Qed.

(** ** The node id *)

Lemma list_find_nul (name rest : bytes) :
  0 ∉ name → list_find (λ b, b = 0) (name ++ 0 :: rest) = Some (length name, 0).
Proof.
  intros Hn. apply list_find_Some. split_and!; [by rewrite list_lookup_middle|done|].
  intros j y Hj Hlt ->. rewrite lookup_app_l in Hj by done. apply Hn. by eapply list_elem_of_lookup_2.
Qed.

(** A NUL-terminated host name, whatever its bytes, becomes a valid UTF-8 string without NUL,
    and is kept as it is when it was valid. *)
Lemma gethostname_terminated env (name rest : bytes) :
  env_gethostname env = (0, name ++ 0 :: rest) → Forall is_byte name → 0 ∉ name →
  let id := as_bytes (gethostname env) in
  valid_utf8 id = true ∧ 0 ∉ id ∧ (valid_utf8 name = true → id = name).
Proof.
  intros Henv Hb H0 id. unfold id, gethostname. rewrite Henv. cbn [Z.eqb].
  rewrite list_find_nul by done. cbn [from_option fst]. rewrite take_app_length.
  rewrite as_bytes_of_bytes by (by apply from_utf8_lossy_bytes).
  split; [apply from_utf8_lossy_valid|]. split; [by apply from_utf8_lossy_no_nul|apply from_utf8_lossy_id].
Qed.

(** The node id an agent runs with: the configured one; else [CMX_NODE_ID] when set, even to
    the empty string; else the host name as valid UTF-8 without NUL bytes, unchanged when it
    was valid; "unknown" when libc fails.  Nothing else of the configuration changes. *)
Theorem node_id_resolved (env : NodeEnv) (c : AgentConfig) :
  let c' := resolve_node_id env c in
  let id := cfg_node_id (cfg_agent c') in
  (cfg_node_id (cfg_agent c) ≠ ""%string → c' = c) ∧
  (cfg_node_id (cfg_agent c) = ""%string →
     (∀ v, env_cmx_node_id env = Some v → id = v) ∧
     (env_cmx_node_id env = None →
        ((env_gethostname env).1 ≠ 0 → id = "unknown"%string) ∧
        (∀ name rest, env_gethostname env = (0, name ++ 0 :: rest) → Forall is_byte name → 0 ∉ name →
           valid_utf8 (as_bytes id) = true ∧ 0 ∉ as_bytes id ∧
           (valid_utf8 name = true → as_bytes id = name)))) ∧
  (cfg_memory c' = cfg_memory c ∧ cfg_metadata c' = cfg_metadata c ∧ cfg_transport c' = cfg_transport c ∧
   cfg_metrics c' = cfg_metrics c ∧ cfg_placement c' = cfg_placement c ∧ cfg_tls c' = cfg_tls c ∧
   cfg_listen_addr (cfg_agent c') = cfg_listen_addr (cfg_agent c)).
Proof.
  intros c' id. unfold id, c', resolve_node_id. clear id c'. case_bool_decide as He; [|naive_solver].
  split; [done|]. destruct (env_cmx_node_id env) as [v|]; (split; [|done]); intros _; cbn.
  - naive_solver.
  - split; [done|]. intros _. split; [|apply gethostname_terminated].
    unfold gethostname. destruct (env_gethostname env) as [rc buf]. cbn. by intros ->%Z.eqb_neq.
Qed.

Definition env_host : NodeEnv := mkNodeEnv None (0, as_bytes "node-7" ++ 0 :: replicate 249 0).

Lemma node_id_resolved_witness :
  cfg_node_id (cfg_agent (resolve_node_id env_host default_config)) = "node-7"%string ∧
  valid_utf8 (as_bytes (cfg_node_id (cfg_agent (resolve_node_id env_host default_config)))) = true.
Proof.
  split; [reflexivity|].
  destruct (node_id_resolved env_host default_config) as (_ & Hempty & _).
  destruct (Hempty eq_refl) as [_ Hhost]. destruct (Hhost eq_refl) as [_ Hname].
  apply (Hname (as_bytes "node-7") (replicate 249 0)).
  - reflexivity.
  - repeat constructor; done.
  - cbn. set_solver.
Defined.
