(* ===== verification/Pressure.v ===== *)
(** * Memory pressure (crates/cmx-agent/src/pressure.rs)

    The monitor's loop: pool usage as a fraction, the level it selects, the swap of the shared
    level and the line it logs.  The one-second timer that drives it is outside the model. *)
From S2P Require Import Prelude Float64 Pool Config.
Local Open Scope Z_scope.

Definition PRESSURE_NORMAL : Z := 0.
Definition PRESSURE_WARN : Z := 1.
Definition PRESSURE_CRITICAL : Z := 2.
Definition PRESSURE_REJECT : Z := 3.

Definition pool_usage (stats : PoolStats) : f64 :=
  if ps_total_blocks stats >? 0
  then f64_div (f64_of (ps_used_blocks stats)) (f64_of (ps_total_blocks stats))
  else f64_zero.

Definition select_level (warn_threshold critical_threshold reject_threshold usage : f64) : Z :=
  if f64_ge usage reject_threshold then PRESSURE_REJECT
  else if f64_ge usage critical_threshold then PRESSURE_CRITICAL
  else if f64_ge usage warn_threshold then PRESSURE_WARN
  else PRESSURE_NORMAL.

(** The line logged when the level changes. *)
Inductive PressureLog := LogWarn | LogCritical | LogReject | LogNormal.

(** The [match level] of the log. *)
Definition log_line (level : Z) : PressureLog :=
  if level =? PRESSURE_WARN then LogWarn
  else if level =? PRESSURE_CRITICAL then LogCritical
  else if level =? PRESSURE_REJECT then LogReject
  else LogNormal.

(** One turn of the loop of [start_pressure_monitor]: the level stored by [swap], and the
    line logged. *)
Definition pressure_tick (warn_threshold critical_threshold reject_threshold : f64)
    (stats : PoolStats) (prev : Z) : Z * option PressureLog :=
  let usage := pool_usage stats in
  let level := select_level warn_threshold critical_threshold reject_threshold usage in
  (level,
   if negb (level =? prev) then Some (log_line level) else None).

(** [start_pressure_monitor] after the ticks at which the allocator reported [readings]: the
    shared level and the lines logged so far. *)
Fixpoint start_pressure_monitor (warn_threshold critical_threshold reject_threshold : f64)
    (readings : list PoolStats) (pressure_level : Z) : Z * list PressureLog :=
  match readings with
  | [] => (pressure_level, [])
  | stats :: readings =>
      let '(level, log) :=
        pressure_tick warn_threshold critical_threshold reject_threshold stats pressure_level in
      let '(final, logs) :=
        start_pressure_monitor warn_threshold critical_threshold reject_threshold readings level in
      (final, option_list log ++ logs)
  end.

(** ** Properties *)

Lemma f64_lt_ge_trans u x y : f64_lt x y → f64_ge u y = true → f64_ge u x = true.
Proof. unfold f64_ge. intros [Hxy _] Hu. by eapply f64_le_trans. Qed.

(** Under a validated configuration the level reports nested bands: it is at least WARN,
    at least CRITICAL, or REJECT exactly when the usage reaches the threshold of that band.
    A pool with all of its (fewer than 2^53) blocks in use is always at REJECT, whatever
    the level was before, and the change of level is logged exactly once. *)
Theorem pressure_bands (c : AgentConfig) (stats : PoolStats) (prev : Z) :
  validate c = Ok tt →
  let mem := cfg_memory c in
  let tick := pressure_tick (cfg_pressure_warn mem) (cfg_pressure_critical mem) (cfg_pressure_reject mem) stats in
  let level := (tick prev).1 in
  let usage := pool_usage stats in
  PRESSURE_NORMAL ≤ level ≤ PRESSURE_REJECT ∧
  (PRESSURE_WARN ≤ level ↔ f64_ge usage (cfg_pressure_warn mem) = true) ∧
  (PRESSURE_CRITICAL ≤ level ↔ f64_ge usage (cfg_pressure_critical mem) = true) ∧
  (level = PRESSURE_REJECT ↔ f64_ge usage (cfg_pressure_reject mem) = true) ∧
  (0 < ps_total_blocks stats < 2 ^ 53 → ps_used_blocks stats = ps_total_blocks stats →
     level = PRESSURE_REJECT) ∧
  tick level = (level, None) ∧
  ((tick prev).2 = None ↔ level = prev).
Proof.
  intros Hv%validate_sound mem tick level usage. destruct Hv as [_ _ _ _ Hwc Hcr Hr _].
  fold mem in Hwc, Hcr, Hr. pose proof (f64_lt_ge_trans usage _ _ Hcr) as Hrc.
  pose proof (f64_lt_ge_trans usage _ _ Hwc) as Hcw.
  assert (level = select_level (cfg_pressure_warn mem) (cfg_pressure_critical mem)
                    (cfg_pressure_reject mem) usage) as Hl by done.
  assert (PRESSURE_NORMAL ≤ level ≤ PRESSURE_REJECT ∧
          (PRESSURE_WARN ≤ level ↔ f64_ge usage (cfg_pressure_warn mem) = true) ∧
          (PRESSURE_CRITICAL ≤ level ↔ f64_ge usage (cfg_pressure_critical mem) = true) ∧
          (level = PRESSURE_REJECT ↔ f64_ge usage (cfg_pressure_reject mem) = true))
    as (Hrange & Hwarn & Hcrit & Hrej).
  { rewrite Hl. unfold select_level. revert Hrc Hcw.
    destruct (f64_ge usage (cfg_pressure_reject mem)), (f64_ge usage (cfg_pressure_critical mem)),
      (f64_ge usage (cfg_pressure_warn mem)); intros Hrc Hcw;
      first [by discriminate (Hrc eq_refl)|by discriminate (Hcw eq_refl)|done]. }
  do 4 (split; [done|]). split; [|split].
  - intros Ht Hu. apply Hrej. unfold usage, pool_usage. rewrite Hu.
    destruct (Z.gtb_spec (ps_total_blocks stats) 0); [|lia]. by rewrite f64_ratio_full.
  - unfold tick, pressure_tick. fold usage. rewrite <-Hl. by rewrite Z.eqb_refl.
  - unfold tick, pressure_tick. fold usage. cbn. rewrite <-Hl.
    destruct (Z.eqb_spec level prev); cbn; naive_solver.
Qed.

(** *** Witness *)
Definition full4 : PoolStats :=
  {| ps_total_blocks := 4; ps_free_blocks := 0; ps_used_blocks := 4;
     ps_total_bytes := 256; ps_used_bytes := 256 |}.

Lemma pressure_bands_witness :
  (pressure_tick (f64_lit 75 100) (f64_lit 90 100) (f64_lit 95 100) full4 PRESSURE_NORMAL).1 =
    PRESSURE_REJECT.
Proof.
  apply (pressure_bands default_config full4 PRESSURE_NORMAL);
    [vm_compute; reflexivity|cbn; lia|reflexivity].
Defined.

(** ** The log of the monitor *)
Section monitor.
Context (warn crit rej : f64).

Abbreviation level_of := (λ stats, select_level warn crit rej (pool_usage stats)).
Abbreviation monitor := (start_pressure_monitor warn crit rej).

Lemma select_level_range usage : PRESSURE_NORMAL ≤ select_level warn crit rej usage ≤ PRESSURE_REJECT.
Proof. unfold select_level. by repeat case_match. Qed.

Lemma log_line_inj x y :
  PRESSURE_NORMAL ≤ x ≤ PRESSURE_REJECT → PRESSURE_NORMAL ≤ y ≤ PRESSURE_REJECT →
  log_line x = log_line y → x = y.
Proof.
  unfold log_line, PRESSURE_NORMAL, PRESSURE_WARN, PRESSURE_CRITICAL, PRESSURE_REJECT. intros ??.
  repeat case_match; intros; simplify_eq; lia.
Qed.

Lemma monitor_cons stats readings level :
  monitor (stats :: readings) level =
    ((monitor readings (level_of stats)).1,
     (if level_of stats =? level then [] else [log_line (level_of stats)]) ++
     (monitor readings (level_of stats)).2).
Proof.
  cbn. unfold pressure_tick. destruct (monitor readings _) as [final logs]. by destruct (_ =? level).
Qed.

(** The first line logged differs from the line of the level before. *)
Lemma monitor_first readings level line :
  PRESSURE_NORMAL ≤ level ≤ PRESSURE_REJECT →
  (monitor readings level).2 !! 0%nat = Some line → line ≠ log_line level.
Proof.
  revert level. induction readings as [|stats readings IH]; intros level Hl; [done|].
  rewrite monitor_cons. cbn [snd]. pose proof (select_level_range (pool_usage stats)) as Hr.
  destruct (Z.eqb_spec (level_of stats) level) as [->|Hne]; [by apply IH|].
  intros [= <-] Heq. by apply Hne, log_line_inj.
Qed.

(** The shared level is that of the last reading, and the log tells it: no line is repeated
    without another one in between, the last line is the one of the current level, and an
    empty log means that every reading was at the level the monitor started with. *)
Theorem monitor_log_tells_level (readings : list PoolStats) (start : Z)
    (Hstart : PRESSURE_NORMAL ≤ start ≤ PRESSURE_REJECT) :
  let '(level, logs) := monitor readings start in
  level = default start (level_of <$> last readings) ∧
  PRESSURE_NORMAL ≤ level ≤ PRESSURE_REJECT ∧
  log_line level = default (log_line start) (last logs) ∧
  (∀ i line line', logs !! i = Some line → logs !! S i = Some line' → line ≠ line') ∧
  (logs = [] ↔ Forall (λ stats, level_of stats = start) readings).
Proof.
  destruct (monitor readings start) as [level logs] eqn:Hm.
  revert start Hstart level logs Hm. induction readings as [|stats readings IH]; intros start Hstart level logs Hm.
  { injection Hm as <- <-. by do 4 (split; [done|]). }
  rewrite monitor_cons in Hm. pose proof (select_level_range (pool_usage stats)) as Hr.
  pose proof (monitor_first readings (level_of stats)) as Hfirst.
  destruct (monitor readings (level_of stats)) as [level' logs'] eqn:Hm'. cbn [fst snd] in *.
  destruct (IH _ Hr _ _ Hm') as (Hlast & Hrange & Hline & Hadj & Hempty).
  injection Hm as <- <-. split; [|split; [done|]].
  { rewrite Hlast. destruct readings as [|r rs] using rev_ind; [done|]. by rewrite app_comm_cons, !last_snoc. }
  rewrite Forall_cons. destruct (Z.eqb_spec (level_of stats) start) as [<-|Hne]; cbn [app].
  { split; [done|]. split; [done|]. rewrite Hempty. intuition congruence. }
  split; [|split].
  - rewrite Hline. destruct logs' as [|l ls] using rev_ind; [done|]. by rewrite app_comm_cons, !last_snoc.
  - intros [|i] line line'; cbn.
    + intros [= <-] Hl. apply not_eq_sym. by apply Hfirst.
    + apply Hadj.
  - split; [done|]. by intros [? _].
Qed.
End monitor.

Definition usage4 (n : Z) : PoolStats :=
  {| ps_total_blocks := 4; ps_free_blocks := 4 - n; ps_used_blocks := n;
     ps_total_bytes := 256; ps_used_bytes := 64 * n |}.

Lemma monitor_log_tells_level_witness :
  start_pressure_monitor (f64_lit 75 100) (f64_lit 90 100) (f64_lit 95 100)
    [usage4 1; usage4 3; usage4 3; usage4 4; usage4 2] PRESSURE_NORMAL =
    (PRESSURE_NORMAL, [LogWarn; LogReject; LogNormal]) ∧
  log_line PRESSURE_NORMAL = LogNormal.
Proof.
  pose proof (monitor_log_tells_level (f64_lit 75 100) (f64_lit 90 100) (f64_lit 95 100)
    [usage4 1; usage4 3; usage4 3; usage4 4; usage4 2] PRESSURE_NORMAL ltac:(by split)) as H.
  split; [vm_compute; reflexivity|]. revert H.
  replace (start_pressure_monitor _ _ _ _ _) with (PRESSURE_NORMAL, [LogWarn; LogReject; LogNormal])
    by (vm_compute; reflexivity).
  intros (_ & _ & Hline & _). exact Hline.
Defined.
