(* ===== verification/Metadata.v ===== *)
(** * The etcd metadata client (crates/cmx-agent/src/metadata.rs)

    Node registration, publication of block locations and the watches that keep the remote
    index and the hash ring up to date.  etcd, serde_json and hex are third-party code: the
    client runs against the interface [Etcd] and the codecs of [Codec]; values on the wire
    have an abstract type. *)
From S2P Require Import Prelude RemoteIndex Placement.
Local Open Scope Z_scope.

Record NodeInfo := mkNodeInfo { ni_node_id : string; ni_addr : string }.

Record BlockLocationMeta := mkBlockLocationMeta {
  bm_node_id : string;
  bm_node_addr : string;
  bm_offset : Z;
  bm_size : Z;
  bm_generation : Z;
}.

(** What the client uses of [serde_json] and [hex]. *)
Class Codec (wire : Type) := {
  node_to_json : NodeInfo → option wire;
  json_default : wire;
  node_from_json : wire → option NodeInfo;
  meta_to_json : BlockLocationMeta → option wire;
  meta_from_json : wire → option BlockLocationMeta;
  hex_encode : bytes → string;
  hex_decode : string → option bytes;
}.

(** A lower-case hexadecimal digit. *)
Definition is_hex_char (a : Ascii.ascii) : Prop :=
  let n := Z.of_N (Ascii.N_of_ascii a) in 48 ≤ n ≤ 57 ∨ 97 ≤ n ≤ 102.

(** Documented behaviour: decoding undoes encoding. *)
Class CodecOk (wire : Type) `{Codec wire} : Prop := {
  node_json_roundtrip i w : node_to_json i = Some w → node_from_json w = Some i;
  meta_json_roundtrip m w : meta_to_json m = Some w → meta_from_json w = Some m;
  hex_roundtrip bs : Forall is_byte bs → hex_decode (hex_encode bs) = Some bs;
  hex_chars bs : Forall is_byte bs → Forall is_hex_char (String.list_ascii_of_string (hex_encode bs));
}.

(** The etcd operations of the client: [lease_grant], [put], [get] of a key or of a prefix,
    and [lease_revoke], on the state [E] of the service. *)
Class Etcd (E wire : Type) := {
  etcd_lease_grant : Z → E → result Z string * E;
  etcd_put : string → wire → option Z → E → result unit string * E;
  etcd_get : string → E → result (list (string * wire)) string * E;
  etcd_get_prefix : string → E → result (list (string * wire)) string * E;
  etcd_lease_revoke : Z → E → result unit string * E;
}.

(** A successful read after a successful write of the same key sees the written value. *)
Class EtcdOk (E wire : Type) `{Etcd E wire} : Prop := {
  etcd_put_get k v l e e' kvs e'' :
    etcd_put k v l e = (Ok tt, e') → etcd_get k e' = (Ok kvs, e'') → kvs = [(k, v)];
}.

(** The documented model of etcd's store: keys carry a value and the lease they were put
    with, if any.  A granted lease is new, a put replaces value and lease, revoking a lease
    deletes exactly the keys attached to it.  Nothing is said of failed requests. *)
Class EtcdStore (E wire : Type) `{Etcd E wire} := {
  etcd_view : E → gmap string (wire * option Z);
  etcd_grant_view ttl e id e' : etcd_lease_grant ttl e = (Ok id, e') →
    etcd_view e' = etcd_view e ∧ (∀ k v, etcd_view e !! k ≠ Some (v, Some id));
  etcd_put_view k v l e e' : etcd_put k v l e = (Ok tt, e') → etcd_view e' = <[k := (v, l)]> (etcd_view e);
  etcd_get_view k e kvs e' : etcd_get k e = (Ok kvs, e') →
    etcd_view e' = etcd_view e ∧ kvs = from_option (λ vl, [(k, vl.1)]) [] (etcd_view e !! k);
  etcd_revoke_view id e e' : etcd_lease_revoke id e = (Ok tt, e') →
    ∀ k, etcd_view e' !! k = (vl ← etcd_view e !! k; if bool_decide (vl.2 = Some id) then None else Some vl);
}.

(** The client's own state; the connection is the etcd state. *)
Record MetadataClient := mkMetadataClient {
  mc_lease_id : option Z;
  mc_node_id : string;
  mc_node_addr : string;
  mc_lease_ttl : Z;
}.

(** [MetadataClient::connect], once the connection is up. *)
Definition metadata_connect (node_id node_addr : string) (lease_ttl : Z) : MetadataClient :=
  mkMetadataClient None node_id node_addr lease_ttl.

(** ** Strings *)
Fixpoint strip_prefix (pat s : string) : option string :=
  match pat, s with
  | EmptyString, _ => Some s
  | String a pat, String b s => if Ascii.eqb a b then strip_prefix pat s else None
  | String _ _, EmptyString => None
  end.

(** [str::trim_start_matches]: the (non-empty) pattern is removed as often as it occurs. *)
Fixpoint trim_loop (fuel : nat) (pat s : string) : string :=
  match fuel with
  | O => s
  | S fuel => match strip_prefix pat s with Some s' => trim_loop fuel pat s' | None => s end
  end.
Definition trim_start_matches (pat s : string) : string := trim_loop (String.length s) pat s.

(** ** Watch events *)
Inductive EventType := EventPut | EventDelete.

Record Event (wire : Type) := mkEvent {
  ev_type : EventType;
  ev_kv : option (string * wire);
}.
Arguments mkEvent {wire} ev_type ev_kv.
Arguments ev_type {wire} _.
Arguments ev_kv {wire} _.

(** What [stream.message().await] yields. *)
Definition stream_msg (wire : Type) : Type := result (option (list (Event wire))) string.

Section client.
Context {E wire : Type} `{!Codec wire} `{!Etcd E wire}.

Definition nodes_prefix : string := "/cmx/nodes/".
Definition blocks_prefix : string := "/cmx/blocks/".
(** [format!("/cmx/blocks/{}", hex::encode(prefix_hash))]. *)
Definition block_key (prefix_hash : bytes) : string := blocks_prefix +:+ hex_encode prefix_hash.
Definition node_key (node_id : string) : string := nodes_prefix +:+ node_id.

(** [MetadataClient::register_node]. *)
Definition register_node (self : MetadataClient) (e : E) : result unit string * MetadataClient * E :=
  match etcd_lease_grant (mc_lease_ttl self) e with
  | (Err err, e) => (Err err, self, e)
  | (Ok id, e) =>
      let self := mkMetadataClient (Some id) (mc_node_id self) (mc_node_addr self) (mc_lease_ttl self) in
      let value := default json_default (node_to_json (mkNodeInfo (mc_node_id self) (mc_node_addr self))) in
      let '(r, e) := etcd_put (node_key (mc_node_id self)) value (Some id) e in
      (r, self, e)
  end.

(** [MetadataClient::start_keepalive]: the lease to renew and the interval in seconds. *)
Definition keepalive_interval (lease_ttl : Z) : Z := as_u64 (Z.max (lease_ttl ÷ 3) 1).
Definition start_keepalive (self : MetadataClient) : result (Z * Z) string :=
  match mc_lease_id self with
  | None => Err "no lease to keep alive"%string
  | Some id => Ok (id, keepalive_interval (mc_lease_ttl self))
  end.

(** [MetadataClient::list_nodes]: values that do not decode are skipped. *)
Definition list_nodes (e : E) : result (list NodeInfo) string * E :=
  match etcd_get_prefix nodes_prefix e with
  | (Err err, e) => (Err err, e)
  | (Ok kvs, e) => (Ok (omap (λ kv : string * wire, node_from_json kv.2) kvs), e)
  end.

(** [MetadataClient::publish_block]. *)
Definition publish_block (self : MetadataClient) (prefix_hash : bytes) (offset size generation : Z)
    (e : E) : result unit string * E :=
  let meta := mkBlockLocationMeta (mc_node_id self) (mc_node_addr self) offset size generation in
  match meta_to_json meta with
  | None => (Err "serialization failed"%string, e)
  | Some value => etcd_put (block_key prefix_hash) value (mc_lease_id self) e
  end.

Definition remote_info (meta : BlockLocationMeta) : RemoteBlockInfo :=
  mkRemoteBlockInfo (bm_node_id meta) (bm_node_addr meta) (bm_offset meta) (bm_size meta)
    (bm_generation meta).

(** [MetadataClient::lookup_block]. *)
Definition lookup_block (prefix_hash : bytes) (e : E) : result (option RemoteBlockInfo) string * E :=
  match etcd_get (block_key prefix_hash) e with
  | (Err err, e) => (Err err, e)
  | (Ok kvs, e) =>
      (Ok (match head kvs with
           | Some kv => remote_info <$> meta_from_json kv.2
           | None => None
           end), e)
  end.

(** [MetadataClient::revoke_lease]. *)
Definition revoke_lease (self : MetadataClient) (e : E) : result unit string * E :=
  match mc_lease_id self with
  | Some id => etcd_lease_revoke id e
  | None => (Ok tt, e)
  end.

(** The body of the event loop of [watch_blocks]. *)
Definition block_event (ri : RemoteIndex) (ev : Event wire) : RemoteIndex :=
  match ev_kv ev with
  | None => ri
  | Some (key, value) =>
      match hex_decode (trim_start_matches blocks_prefix key) with
      | Some hash_bytes =>
          if bool_decide (length hash_bytes = 16%nat) then
            match ev_type ev with
            | EventPut =>
                match meta_from_json value with
                | Some meta => remote_insert hash_bytes (remote_info meta) ri
                | None => ri
                end
            | EventDelete => remote_remove hash_bytes ri
            end
          else ri
      | None => ri
      end
  end.

(** The body of the event loop of [watch_nodes]; the ring is absent or behind its lock. *)
Definition node_event (sha256 : bytes → bytes) (s : RemoteIndex * option HashRing) (ev : Event wire) :
    RemoteIndex * option HashRing :=
  let '(ri, hr) := s in
  match ev_kv ev with
  | None => (ri, hr)
  | Some (key, _) =>
      let node_id := trim_start_matches nodes_prefix key in
      match ev_type ev with
      | EventPut => (ri, add_node sha256 node_id <$> hr)
      | EventDelete => (remote_remove_node node_id ri, remove_node node_id <$> hr)
      end
  end.

(** The two watches of [start_block_watch] under [select!]: messages are handled in the
    order they arrive, and both watches stop when one stream ends or fails. *)
Inductive watch_msg :=
  | BlockMsg (m : stream_msg wire)
  | NodeMsg (m : stream_msg wire).

Definition watch_step (sha256 : bytes → bytes) (s : RemoteIndex * option HashRing) (m : watch_msg) :
    option (RemoteIndex * option HashRing) :=
  match m with
  | BlockMsg (Ok (Some evs)) => Some (foldl block_event s.1 evs, s.2)
  | NodeMsg (Ok (Some evs)) => Some (foldl (node_event sha256) s evs)
  | BlockMsg _ | NodeMsg _ => None
  end.

Fixpoint block_watch (sha256 : bytes → bytes) (s : RemoteIndex * option HashRing)
    (ms : list watch_msg) : RemoteIndex * option HashRing :=
  match ms with
  | [] => s
  | m :: ms =>
      match watch_step sha256 s m with
      | Some s' => block_watch sha256 s' ms
      | None => s
      end
  end.
End client.
Arguments watch_msg : clear implicits.

(** [keepalive_loop]: one element per turn, the result of the renewal request and of reading
    the stream (the lease's remaining TTL); the answer says why the loop stopped. *)
Inductive KeepaliveEnd := KeepaliveRunning | RequestFailed | LeaseExpired | StreamEnded | StreamFailed.

Fixpoint keepalive_loop (turns : list (result unit string * result (option Z) string)) : KeepaliveEnd :=
  match turns with
  | [] => KeepaliveRunning
  | (Err _, _) :: _ => RequestFailed
  | (Ok _, Ok (Some ttl)) :: turns => if ttl =? 0 then LeaseExpired else keepalive_loop turns
  | (Ok _, Ok None) :: _ => StreamEnded
  | (Ok _, Err _) :: _ => StreamFailed
  end.

(** ** Key parsing *)
Lemma strip_prefix_app pat s : strip_prefix pat (pat +:+ s) = Some s.
Proof.
  induction pat as [|a pat IH]; [done|].
  change (String a pat +:+ s) with (String a (pat +:+ s)). cbn [strip_prefix].
  by rewrite Ascii.eqb_refl.
Qed.

(** The part of a key after the prefix, when it does not itself start with the prefix. *)
Lemma trim_start_matches_app a pat s :
  strip_prefix (String a pat) s = None → trim_start_matches (String a pat) (String a pat +:+ s) = s.
Proof.
  intros Hs. unfold trim_start_matches.
  change (String.length (String a pat +:+ s)) with (S (String.length (pat +:+ s))).
  cbn [trim_loop]. rewrite strip_prefix_app. destruct (String.length _); cbn [trim_loop]; [done|]. by rewrite Hs.
Qed.

(** Hexadecimal digits do not start a path. *)
Lemma strip_prefix_hex h :
  Forall is_hex_char (String.list_ascii_of_string h) → strip_prefix blocks_prefix h = None.
Proof.
  destruct h as [|a h]; [done|]. intros Hh. apply Forall_inv in Hh.
  unfold blocks_prefix. cbn [strip_prefix].
  match goal with |- context [Ascii.eqb ?c a] => destruct (Ascii.eqb_spec c a) as [<-|]; [|done] end.
  exfalso. revert Hh. unfold is_hex_char. cbn. lia.
Qed.

Section laws.
Context {E wire : Type} `{!Codec wire} `{!CodecOk wire}.

Lemma hex_of_block_key h :
  Forall is_byte h → hex_decode (trim_start_matches blocks_prefix (block_key h)) = Some h.
Proof.
  intros Hh. unfold block_key, blocks_prefix.
  rewrite trim_start_matches_app; [by apply hex_roundtrip|].
  by apply strip_prefix_hex, hex_chars.
Qed.

(** ** Events as operations on the remote index and the ring *)
Definition block_event_op (ev : Event wire) : list remote_op :=
  match ev_kv ev with
  | None => []
  | Some (key, value) =>
      match hex_decode (trim_start_matches blocks_prefix key) with
      | Some h =>
          if bool_decide (length h = 16%nat) then
            match ev_type ev with
            | EventPut => match meta_from_json value with
                          | Some meta => [RInsert h (remote_info meta)]
                          | None => []
                          end
            | EventDelete => [RRemove h]
            end
          else []
      | None => []
      end
  end.

Lemma block_event_step ri ev :
  block_event ri ev = foldl (λ s op, remote_step op s) ri (block_event_op ev).
Proof.
  unfold block_event, block_event_op. destruct (ev_kv ev) as [[key value]|]; [|done].
  destruct (hex_decode _) as [h|]; [|done]. case_bool_decide; [|done].
  destruct (ev_type ev); [|done]. by destruct (meta_from_json value).
Qed.

Lemma foldl_remote_wf ops ri : remote_wf ri → remote_wf (foldl (λ s op, remote_step op s) ri ops).
Proof. revert ri. induction ops as [|op ops IH]; cbn; intros ri Hri; [done|]. by apply IH, remote_step_wf. Qed.

(** What holds of the state the watches maintain. *)
Definition watch_inv (s : RemoteIndex * option HashRing) : Prop :=
  remote_wf s.1 ∧ match s.2 with Some r => ring_wf r | None => True end.

Lemma foldl_inv {A B} (f : A → B → A) (P : A → Prop) (l : list B) a :
  (∀ a b, P a → P (f a b)) → P a → P (foldl f a l).
Proof. intros Hf. revert a. induction l as [|b l IH]; cbn; auto. Qed.

Lemma node_event_inv sha256 s ev :
  (∀ m, Forall is_byte (sha256 m)) → watch_inv s → watch_inv (node_event (wire := wire) sha256 s ev).
Proof.
  intros Hb. destruct s as [ri hr]. intros [Hri Hhr]. unfold node_event.
  destruct (ev_kv ev) as [[key value]|]; [|done]. cbn in *.
  destruct (ev_type ev); split; cbn; try done.
  - destruct hr; cbn; [by apply ring_wf_add|done].
  - by apply (remote_step_wf (RRemoveNode _)).
  - destruct hr; cbn; [by apply ring_wf_remove|done].
Qed.

Lemma block_watch_inv sha256 ms s :
  (∀ m, Forall is_byte (sha256 m)) → watch_inv s → watch_inv (block_watch (wire := wire) sha256 s ms).
Proof.
  intros Hb. revert s. induction ms as [|m ms IH]; intros s Hs; [done|]. cbn.
  destruct (watch_step sha256 s m) as [s'|] eqn:Hm; [|done]. apply IH.
  destruct m as [[[evs|]|]|[[evs|]|]]; cbn in Hm; simplify_eq.
  - split; [|apply Hs]. cbn. apply foldl_inv; [|apply Hs]. intros ri ev Hri.
    rewrite block_event_step. by apply foldl_remote_wf.
  - apply foldl_inv; [|done]. intros. by apply node_event_inv.
Qed.

Lemma block_watch_app sha256 ms s m s1 :
  watch_step (wire := wire) sha256 (block_watch sha256 s ms) m = Some s1 →
  (∀ m', m' ∈ ms → ∃ evs, m' = BlockMsg (Ok (Some evs)) ∨ m' = NodeMsg (Ok (Some evs))) →
  block_watch sha256 s (ms ++ [m]) = s1.
Proof.
  revert s. induction ms as [|m0 ms IH]; intros s Hm Hall.
  - cbn in *. by rewrite Hm.
  - destruct (Hall m0) as [evs Hevs]; [apply list_elem_of_here|].
    assert (∃ s', watch_step sha256 s m0 = Some s') as [s' Hs'] by (destruct Hevs as [->| ->]; eauto).
    cbn in Hm |- *. rewrite Hs' in Hm |- *. apply IH; [done|]. intros m' Hm'. apply Hall.
    by apply list_elem_of_further.
Qed.
End laws.

(** ** Instances for the witnesses: a transparent codec and an in-memory etcd *)
Definition toy_wire : Type := NodeInfo + BlockLocationMeta + unit.

Definition hex_value (a : Ascii.ascii) : option Z :=
  let n := Z.of_N (Ascii.N_of_ascii a) in
  if (48 <=? n) && (n <=? 57) then Some (n - 48)
  else if (97 <=? n) && (n <=? 102) then Some (n - 87) else None.

Fixpoint unhex (l : list Ascii.ascii) : option bytes :=
  match l with
  | [] => Some []
  | a :: b :: l =>
      hi ← hex_value a; lo ← hex_value b; bs ← unhex l; Some (16 * hi + lo :: bs)
  | [_] => None
  end.

Global Instance toy_codec : Codec toy_wire := {
  node_to_json i := Some (inl (inl i));
  json_default := inr tt;
  node_from_json w := match w with inl (inl i) => Some i | _ => None end;
  meta_to_json m := Some (inl (inr m));
  meta_from_json w := match w with inl (inr m) => Some m | _ => None end;
  hex_encode := toy_hex;
  hex_decode s := unhex (String.list_ascii_of_string s);
}.

Lemma hex_digit_cases (P : Z → Prop) d :
  0 ≤ d < 16 → Forall P (seqZ 0 16) → P d.
Proof. intros Hd HP. rewrite Forall_forall in HP. apply HP, elem_of_seqZ. lia. Qed.

Lemma hex_value_digit d : 0 ≤ d < 16 → hex_value (hex_digit d) = Some d.
Proof. intros Hd. pattern d. apply hex_digit_cases; [done|]. by repeat constructor. Qed.

Lemma hex_digit_char d : 0 ≤ d < 16 → is_hex_char (hex_digit d).
Proof.
  intros Hd%hex_value_digit. revert Hd. unfold hex_value, is_hex_char.
  destruct (Z.leb_spec 48 (Z.of_N (Ascii.N_of_ascii (hex_digit d)))),
    (Z.leb_spec (Z.of_N (Ascii.N_of_ascii (hex_digit d))) 57),
    (Z.leb_spec 97 (Z.of_N (Ascii.N_of_ascii (hex_digit d)))),
    (Z.leb_spec (Z.of_N (Ascii.N_of_ascii (hex_digit d))) 102); cbn; done || lia.
Qed.

Lemma nibbles b : is_byte b → 0 ≤ b / 16 < 16 ∧ 0 ≤ b `mod` 16 < 16.
Proof.
  unfold is_byte. intros Hb. split; [|apply Z.mod_pos_bound; lia].
  split; [apply Z.div_pos; lia|apply Z.div_lt_upper_bound; lia].
Qed.

Global Instance toy_codec_ok : CodecOk toy_wire.
Proof.
  split; cbn.
  - intros i w Hw. by simplify_eq.
  - intros m w Hw. by simplify_eq.
  - intros bs Hbs. unfold toy_hex. rewrite String.list_ascii_of_string_of_list_ascii.
    induction Hbs as [|b bs Hb Hbs IH]; [done|]. destruct (nibbles b Hb) as [Hh Hl].
    cbn [mbind list_bind app]. cbn [unhex]. rewrite !hex_value_digit by done. cbn.
    cbn in IH. rewrite IH. cbn. do 2 f_equal. symmetry. apply Z.div_mod. lia.
  - intros bs Hbs. unfold toy_hex. rewrite String.list_ascii_of_string_of_list_ascii.
    induction Hbs as [|b bs Hb Hbs IH]; [constructor|]. destruct (nibbles b Hb) as [Hh Hl].
    cbn [mbind list_bind app]. constructor; [by apply hex_digit_char|].
    constructor; [by apply hex_digit_char|done].
Qed.

(** Keys with their value and lease, and the next lease. *)
Record MemEtcd := mkMemEtcd { me_kvs : gmap string (toy_wire * option Z); me_next : Z }.

Definition leases_in_use (e : MemEtcd) : list Z := omap (λ kv, kv.2.2) (map_to_list (me_kvs e)).
Definition new_lease (e : MemEtcd) : Z := foldr Z.max (me_next e) (Z.succ <$> leases_in_use e).

Global Instance mem_etcd : Etcd MemEtcd toy_wire := {
  etcd_lease_grant _ e := (Ok (new_lease e), mkMemEtcd (me_kvs e) (new_lease e + 1));
  etcd_put k v l e := (Ok tt, mkMemEtcd (<[k := (v, l)]> (me_kvs e)) (me_next e));
  etcd_get k e := (Ok (match me_kvs e !! k with Some (v, _) => [(k, v)] | None => [] end), e);
  etcd_get_prefix p e :=
    (Ok (omap (λ kv : string * (toy_wire * option Z),
                 if strip_prefix p kv.1 is Some _ then Some (kv.1, kv.2.1) else None) (map_to_list (me_kvs e))), e);
  etcd_lease_revoke id e :=
    (Ok tt, mkMemEtcd (filter (λ kv, kv.2.2 ≠ Some id) (me_kvs e)) (me_next e));
}.

Global Instance mem_etcd_ok : EtcdOk MemEtcd toy_wire.
Proof.
  split. intros k v l e e' kvs e''. cbn. intros [= <-]. cbn. rewrite lookup_insert_eq. naive_solver.
Qed.

Lemma new_lease_unused e k v : me_kvs e !! k ≠ Some (v, Some (new_lease e)).
Proof.
  intros Hk. assert (new_lease e ∈ leases_in_use e) as Hin.
  { apply list_elem_of_omap. exists (k, (v, Some (new_lease e))). split; [|done]. by apply elem_of_map_to_list. }
  enough (∀ l n, n ∈ l → n < foldr Z.max (me_next e) (Z.succ <$> l)) as Hlt
    by (apply Hlt in Hin; unfold new_lease in Hin; lia).
  clear. induction l as [|x l IH]; intros n; [by intros ?%elem_of_nil|].
  intros [-> | Hn]%elem_of_cons; cbn; [lia|]. apply IH in Hn. lia.
Qed.

Global Instance mem_etcd_store : EtcdStore MemEtcd toy_wire.
Proof.
  refine {| etcd_view := me_kvs |}; cbn.
  - intros _ e id e' [= <- <-]. split; [done|]. intros k v. apply new_lease_unused.
  - intros k v l e e' [= <-]. done.
  - intros k e kvs e' [= <- <-]. split; [done|]. by destruct (me_kvs e !! k) as [[]|].
  - intros id e e' [= <-] k. cbn. rewrite map_lookup_filter. destruct (me_kvs e !! k) as [[v l]|]; cbn; [|done].
    case_bool_decide; case_guard; naive_solver.
Defined.

(** ** Properties *)

(** A published block reaches every other agent.  When [publish_block] succeeds it has
    written one value under the block's key; a lookup through etcd, if it succeeds, answers
    exactly the published location; and a watcher that receives the put event records it
    as the publishing node's entry for that key, leaving all other entries alone. *)
Theorem publish_reaches_agents {E wire : Type} `{!Codec wire} `{!Etcd E wire} `{!CodecOk wire} `{!EtcdOk E wire}
    (self : MetadataClient) (h : bytes) (offset size generation : Z) (e e' : E)
    (sha256 : bytes → bytes) (s : RemoteIndex * option HashRing) :
  length h = 16%nat → Forall is_byte h →
  publish_block self h offset size generation e = (Ok tt, e') →
  let info := mkRemoteBlockInfo (mc_node_id self) (mc_node_addr self) offset size generation in
  (∀ r e'', lookup_block h e' = (Ok r, e'') → r = Some info) ∧
  ∃ v, etcd_put (block_key h) v (mc_lease_id self) e = (Ok tt, e') ∧
    let s' := block_watch sha256 s [BlockMsg (Ok (Some [mkEvent EventPut (Some (block_key h, v))]))] in
    remote_at h (mc_node_id self) s'.1 = Some info ∧
    (∀ k node, (k, node) ≠ (h, mc_node_id self) → remote_at k node s'.1 = remote_at k node s.1) ∧
    s'.2 = s.2.
Proof.
  intros Hlen Hb Hpub info. unfold publish_block in Hpub.
  destruct (meta_to_json _) as [v|] eqn:Hj; [|done]. apply meta_json_roundtrip in Hj. split.
  - intros r e''. unfold lookup_block. destruct (etcd_get _ e') as [[kvs|err] e1] eqn:Hg; [|done].
    rewrite (etcd_put_get _ _ _ _ _ _ _ Hpub Hg). cbn. rewrite Hj. cbn. by intros [= <- _].
  - exists v. split; [done|]. cbn. unfold block_event. cbn. rewrite hex_of_block_key by done.
    rewrite bool_decide_true by done. rewrite Hj. cbn. split; [|split; [|done]].
    + rewrite remote_at_insert. by rewrite bool_decide_true.
    + intros k node Hne. rewrite remote_at_insert. rewrite bool_decide_false; [done|].
      cbn. naive_solver.
Qed.

(** When a node's key disappears (its lease expired or was revoked), the agents forget
    it: after any messages followed by the delete event, no key of the remote index has an
    entry of that node, the ring neither contains it nor prefers it for any key, and the
    entries of the other nodes are the ones before the event. *)
Theorem departed_node_forgotten {wire : Type} `{!Codec wire} (sha256 : bytes → bytes)
    (hex : bytes → string) (s : RemoteIndex * option HashRing) (ms : list (watch_msg wire))
    (n : string) (v : wire) :
  (∀ m, Forall is_byte (sha256 m)) →
  watch_inv s →
  (∀ m, m ∈ ms → ∃ evs, m = BlockMsg (Ok (Some evs)) ∨ m = NodeMsg (Ok (Some evs))) →
  strip_prefix nodes_prefix n = None →
  let s1 := block_watch sha256 s ms in
  let s2 := block_watch sha256 s
              (ms ++ [NodeMsg (Ok (Some [mkEvent EventDelete (Some (node_key n, v))]))]) in
  (∀ k, remote_at k n s2.1 = None) ∧
  (∀ k m, m ≠ n → remote_at k m s2.1 = remote_at k m s1.1) ∧
  (∀ r, s2.2 = Some r → (n ∉ nodes r) ∧ ∀ h, preferred_node sha256 hex h r ≠ Some n).
Proof.
  intros Hb Hinv Hms Hn s1 s2.
  assert (s2 = (remote_remove_node n s1.1, remove_node n <$> s1.2)) as Hs2.
  { apply block_watch_app; [|done]. fold s1. destruct s1 as [ri hr]. cbn. unfold node_key, nodes_prefix.
    by rewrite trim_start_matches_app. }
  assert (watch_inv s1) as Hinv1 by (by apply block_watch_inv).
  rewrite Hs2. clearbody s1. destruct s1 as [ri hr], Hinv1 as [_ Hr1]. cbn in Hr1 |- *. split; [|split].
  - intros k. apply remote_at_removed.
  - intros k m Hm. by apply remote_at_kept.
  - intros r (r1 & -> & ->)%fmap_Some.
    assert (n ∉ nodes (remove_node n r1)) as Hnot.
    { cbn. rewrite list_elem_of_filter. tauto. }
    split; [done|]. intros h Hh. apply Hnot.
    eapply preferred_node_member; [done|by apply ring_wf_remove|done].
Qed.

(** *** Witnesses *)
Definition client_a : MetadataClient := mkMetadataClient (Some 7) "node-a" "10.0.0.1:50051" 30.
Definition etcd0 : MemEtcd := mkMemEtcd ∅ 8.

Lemma publish_reaches_agents_witness :
  lookup_block (replicate 16 5) (publish_block client_a (replicate 16 5) 64 64 1 etcd0).2 =
    (Ok (Some (mkRemoteBlockInfo "node-a" "10.0.0.1:50051" 64 64 1)),
     (publish_block client_a (replicate 16 5) 64 64 1 etcd0).2).
Proof.
  destruct (publish_reaches_agents client_a (replicate 16 5) 64 64 1 etcd0
              (publish_block client_a (replicate 16 5) 64 64 1 etcd0).2 toy_digest
              (remote_new, None)) as [Hl _].
  - reflexivity.
  - by apply Forall_replicate.
  - reflexivity.
  - destruct (lookup_block _ _) as [[r|err] e''] eqn:Hr.
    + rewrite (Hl r e'' eq_refl). f_equal. revert Hr. cbn. by intros [= _ <-].
    + revert Hr. cbn. done.
Defined.

Lemma departed_node_forgotten_witness :
  let s := (remote_insert (replicate 16 5) (mkRemoteBlockInfo "node-a" "10.0.0.1:50051" 64 64 1) remote_new,
            Some (ring_run toy_digest 2 ring_ab)) in
  remote_at (replicate 16 5) "node-a"
    (block_watch toy_digest s
       ([] ++ [NodeMsg (Ok (Some [mkEvent EventDelete (Some (node_key "node-a", inr tt : toy_wire))]))])).1 = None.
Proof.
  intros s.
  apply (departed_node_forgotten toy_digest toy_hex s [] "node-a" (inr tt : toy_wire)).
  - apply toy_digest_bytes.
  - split; [apply (remote_step_wf (RInsert _ _)), remote_wf_new|apply ring_run_wf, toy_digest_bytes].
  - by intros m ?%elem_of_nil.
  - reflexivity.
Defined.

(** The lease is renewed before it runs out: for every lease of at least two seconds the
    keepalive interval is positive and shorter than the lease, and from three seconds on
    three intervals fit into it; the interval is the TTL's third, so no conversion wraps. *)
Theorem keepalive_before_expiry (self : MetadataClient) (id : Z) :
  mc_lease_id self = Some id → 2 ≤ mc_lease_ttl self < 2 ^ 63 →
  ∃ interval, start_keepalive self = Ok (id, interval) ∧
    0 < interval < mc_lease_ttl self ∧ (3 ≤ mc_lease_ttl self → 3 * interval ≤ mc_lease_ttl self).
Proof.
  intros Hid Httl. unfold start_keepalive. rewrite Hid. eexists. split; [done|].
  unfold keepalive_interval. rewrite Z.quot_div_nonneg by lia.
  pose proof (Z.mul_div_le (mc_lease_ttl self) 3).
  assert (0 ≤ mc_lease_ttl self / 3) by (apply Z.div_pos; lia).
  rewrite as_u64_id by (unfold is_u64; lia).
  assert (3 ≤ mc_lease_ttl self → 1 ≤ mc_lease_ttl self / 3)
    by (intros; apply Z.div_le_lower_bound; lia). lia.
Qed.

Lemma keepalive_before_expiry_witness :
  ∃ interval, start_keepalive client_a = Ok (7, interval) ∧
    0 < interval < 30 ∧ (3 ≤ 30 → 3 * interval ≤ 30).
Proof. apply (keepalive_before_expiry client_a 7); [reflexivity|cbn; lia]. Defined.
