(* ===== verification/Cluster.v ===== *)
(** * A cluster of agents around etcd

    The composition of the metadata clients of several nodes (crates/cmx-agent/src/metadata.rs)
    with the watches another agent runs ([start_block_watch], started by main.rs).  Nodes join
    ([connect] and [register_node]), publish block locations ([publish_block], spawned by the
    stores of Grpc) and leave (their lease is revoked by the shutdown of main.rs, or expires,
    which etcd documents as the same deletion).  etcd reports every change of a key under the
    watched prefixes; a watcher applies the reports with the handlers of Metadata.

    The file shows that a watcher present from the beginning converges to what etcd holds, as
    long as the reports arrive in the order of the changes, and the three ways in which the
    protocol falls short: a leaving node takes the other holders of its blocks out of every
    index, a report of the node watch that arrives late removes fresh entries, and a node that
    joins never learns of the nodes and blocks that were there before it. *)
From S2P Require Import Prelude RemoteIndex Placement Metadata.
Local Open Scope Z_scope.

Section cluster.
Context {E wire : Type} `{!Codec wire} `{!Etcd E wire} `{!EtcdStore E wire}.

(** ** Reports of etcd *)

(** A change of key [k] goes to the watch whose prefix it has. *)
Definition key_msgs (k : string) (ev : Event wire) : list (watch_msg wire) :=
  match strip_prefix blocks_prefix k with
  | Some _ => [BlockMsg (Ok (Some [ev]))]
  | None =>
      match strip_prefix nodes_prefix k with
      | Some _ => [NodeMsg (Ok (Some [ev]))]
      | None => []
      end
  end.

Definition put_msgs (k : string) (e' : E) : list (watch_msg wire) :=
  match etcd_view e' !! k with
  | Some (v, _) => key_msgs k (mkEvent EventPut (Some (k, v)))
  | None => []
  end.

(** Deletions are reported with the key and no value. *)
Definition delete_msgs (k : string) : list (watch_msg wire) :=
  key_msgs k (mkEvent EventDelete (Some (k, json_default))).

Definition gone_keys (e e' : E) : list string :=
  filter (λ k, etcd_view e' !! k = None) (map_to_list (etcd_view e)).*1.

(** ** The cluster *)
Record cluster := mkCluster {
  cl_etcd : E;
  cl_clients : gmap string MetadataClient;     (* the live nodes *)
  cl_log : list (watch_msg wire);              (* every report so far, in order *)
}.

Inductive cluster_op :=
  | CJoin (node addr : string) (ttl : Z)
  | CPublish (node : string) (prefix_hash : bytes) (offset size generation : Z)
  | CLeave (node : string).

(** An operation of one node that succeeds. *)
Definition cluster_step (op : cluster_op) (c : cluster) : option cluster :=
  match op with
  | CJoin node addr ttl =>
      match cl_clients c !! node with
      | Some _ => None
      | None =>
          match register_node (metadata_connect node addr ttl) (cl_etcd c) with
          | (Ok _, client, e') =>
              Some (mkCluster e' (<[node := client]> (cl_clients c)) (cl_log c ++ put_msgs (node_key node) e'))
          | (Err _, _, _) => None
          end
      end
  | CPublish node h offset size generation =>
      client ← cl_clients c !! node;
      match publish_block client h offset size generation (cl_etcd c) with
      | (Ok _, e') => Some (mkCluster e' (cl_clients c) (cl_log c ++ put_msgs (block_key h) e'))
      | (Err _, _) => None
      end
  | CLeave node =>
      client ← cl_clients c !! node;
      match revoke_lease client (cl_etcd c) with
      | (Ok _, e') =>
          Some (mkCluster e' (delete node (cl_clients c))
                  (cl_log c ++ (gone_keys (cl_etcd c) e' ≫= delete_msgs)))
      | (Err _, _) => None
      end
  end.

Fixpoint cluster_run (ops : list cluster_op) (c : cluster) : option cluster :=
  match ops with
  | [] => Some c
  | op :: ops => c' ← cluster_step op c; cluster_run ops c'
  end.

(** Keys of the service have 16 bytes; a node id does not itself start with the prefix of the
    node keys. *)
Definition hash_ok (h : bytes) : Prop := length h = 16%nat ∧ Forall is_byte h.
Definition op_ok (op : cluster_op) : Prop :=
  match op with
  | CJoin node _ _ => strip_prefix nodes_prefix node = None
  | CPublish _ h _ _ _ => hash_ok h
  | CLeave _ => True
  end.

Lemma cluster_run_app ops ops' c :
  cluster_run (ops ++ ops') c = c' ← cluster_run ops c; cluster_run ops' c'.
Proof.
  revert c. induction ops as [|op ops IH]; intros c; [done|]. cbn.
  destruct (cluster_step op c); [apply IH|done].
Qed.
End cluster.
Arguments cluster : clear implicits.

(** ** What a report does to a watcher *)
Section watcher.
Context {E wire : Type} `{!Codec wire} `{!CodecOk wire} `{!Etcd E wire} `{!EtcdStore E wire}.
Context (sha256 : bytes → bytes).
Implicit Types (s : RemoteIndex * option HashRing) (h : bytes) (n : string).

Lemma blocks_prefix_of_block h : strip_prefix blocks_prefix (block_key h) = Some (hex_encode h).
Proof. apply strip_prefix_app. Qed.
Lemma blocks_prefix_of_node n : strip_prefix blocks_prefix (node_key n) = None.
Proof. reflexivity. Qed.
Lemma nodes_prefix_of_node n : strip_prefix nodes_prefix (node_key n) = Some n.
Proof. apply strip_prefix_app. Qed.

Lemma block_key_not_node h n : block_key h ≠ node_key n.
Proof. intros Heq. pose proof (blocks_prefix_of_block h) as Hp. by rewrite Heq, blocks_prefix_of_node in Hp. Qed.
Lemma node_key_inj n n' : node_key n = node_key n' → n = n'.
Proof. intros Heq. pose proof (nodes_prefix_of_node n) as Hp. rewrite Heq, nodes_prefix_of_node in Hp. naive_solver. Qed.
Lemma block_key_inj h h' : hash_ok h → hash_ok h' → block_key h = block_key h' → h = h'.
Proof using CodecOk0.
  intros [_ Hh] [_ Hh'] Heq. pose proof (hex_of_block_key h Hh) as Hd.
  rewrite Heq, (hex_of_block_key h' Hh') in Hd. congruence.
Qed.

(** Handling of the messages of one key. *)
Lemma watch_block_msgs s h ev :
  block_watch sha256 s (key_msgs (block_key h) ev) = (block_event s.1 ev, s.2).
Proof. unfold key_msgs. by rewrite blocks_prefix_of_block. Qed.
Lemma watch_node_msgs s n ev :
  block_watch sha256 s (key_msgs (node_key n) ev) = node_event sha256 s ev.
Proof. unfold key_msgs. by rewrite blocks_prefix_of_node, nodes_prefix_of_node. Qed.

Lemma block_put_event ri h v meta :
  hash_ok h → meta_from_json v = Some meta →
  block_event ri (mkEvent EventPut (Some (block_key h, v))) = remote_insert h (remote_info meta) ri.
Proof.
  intros [Hl Hb] Hv. unfold block_event. cbn. rewrite hex_of_block_key by done.
  by rewrite bool_decide_true, Hv.
Qed.
Lemma block_delete_event ri h :
  hash_ok h → block_event ri (mkEvent EventDelete (Some (block_key h, json_default))) = remote_remove h ri.
Proof.
  intros [Hl Hb]. unfold block_event. cbn. rewrite hex_of_block_key by done. by rewrite bool_decide_true.
Qed.
Lemma node_put_event ri hr n (v : wire) :
  strip_prefix nodes_prefix n = None →
  node_event sha256 (ri, hr) (mkEvent EventPut (Some (node_key n, v))) = (ri, add_node sha256 n <$> hr).
Proof. intros Hn. unfold node_event, node_key, nodes_prefix. cbn. by rewrite trim_start_matches_app. Qed.
Lemma node_delete_event ri hr n (v : wire) :
  strip_prefix nodes_prefix n = None →
  node_event sha256 (ri, hr) (mkEvent EventDelete (Some (node_key n, v))) =
    (remote_remove_node n ri, remove_node n <$> hr).
Proof. intros Hn. unfold node_event, node_key, nodes_prefix. cbn. by rewrite trim_start_matches_app. Qed.

(** Reports are never the end of a stream, so a log is handled piece by piece. *)
Definition report (m : watch_msg wire) : Prop :=
  ∃ evs, m = BlockMsg (Ok (Some evs)) ∨ m = NodeMsg (Ok (Some evs)).

Lemma key_msgs_report k ev : Forall report (key_msgs k ev).
Proof.
  unfold key_msgs. destruct (strip_prefix blocks_prefix k); [repeat constructor; eexists; eauto|].
  destruct (strip_prefix nodes_prefix k); repeat constructor. eexists. eauto.
Qed.

Lemma deletes_report ks : Forall report (ks ≫= delete_msgs).
Proof.
  apply Forall_forall. intros m (k & Hm & _)%list_elem_of_bind. revert m Hm. apply Forall_forall, key_msgs_report.
Qed.

Lemma block_watch_reports s ms ms' :
  Forall report ms → block_watch sha256 s (ms ++ ms') = block_watch sha256 (block_watch sha256 s ms) ms'.
Proof.
  intros Hms. revert s. induction Hms as [|m ms [evs [-> | ->]] _ IH]; intros s; [done|apply IH|apply IH].
Qed.

(** The keys of a cluster. *)
Definition cluster_key (k : string) : Prop :=
  (∃ n, strip_prefix nodes_prefix n = None ∧ k = node_key n) ∨ (∃ h, hash_ok h ∧ k = block_key h).

Lemma node_key_hits n h m : (node_key n = block_key h ∨ node_key n = node_key m) ↔ m = n.
Proof.
  split; [|by intros ->; right]. intros [Heq | Heq]; [by destruct (block_key_not_node h n)|].
  symmetry. by apply node_key_inj.
Qed.
Lemma block_key_hits h h' m : hash_ok h → hash_ok h' → (block_key h = block_key h' ∨ block_key h = node_key m) ↔ h' = h.
Proof.
  intros Hh Hh'. split; [|by intros ->; left]. intros [Heq | Heq]; [|by destruct (block_key_not_node h m)].
  symmetry. by apply block_key_inj.
Qed.

(** Handling the deletion of one key. *)
Lemma watch_delete s k :
  cluster_key k →
  let s' := block_watch sha256 s (delete_msgs k) in
  (∀ h n, hash_ok h → remote_at h n s'.1 =
     if bool_decide (k = block_key h ∨ k = node_key n) then None else remote_at h n s.1) ∧
  (nodes <$> s'.2) = filter (λ n, k ≠ node_key n) <$> (nodes <$> s.2).
Proof.
  destruct s as [ri hr]. intros [(n & Hn & ->) | (h & Hh & ->)] s'; unfold s', delete_msgs; clear s'.
  - rewrite watch_node_msgs, node_delete_event by done. cbn [fst snd]. split.
    + intros h m Hh. rewrite remote_at_remove_node. by rewrite (bool_decide_ext _ _ (node_key_hits n h m)).
    + destruct hr as [r|]; [|done]. cbn. f_equal. apply list_filter_iff. intros m. split.
      * intros Hm Heq. apply Hm. symmetry. by apply node_key_inj.
      * intros Hm ->. done.
  - rewrite watch_block_msgs, block_delete_event by done. cbn [fst snd]. split.
    + intros h' m Hh'. rewrite remote_at_remove. by rewrite (bool_decide_ext _ _ (block_key_hits h h' m Hh Hh')).
    + destruct hr as [r|]; [|done]. cbn. f_equal. induction (nodes r) as [|n l IH]; [done|].
      rewrite filter_cons_True by (apply block_key_not_node). by rewrite <- IH.
Qed.

(** Handling the deletions of several keys, in any order. *)
Lemma watch_deletes s ks :
  Forall cluster_key ks →
  let s' := block_watch sha256 s (ks ≫= delete_msgs) in
  (∀ h n, hash_ok h → remote_at h n s'.1 =
     if bool_decide (block_key h ∈ ks ∨ node_key n ∈ ks) then None else remote_at h n s.1) ∧
  (nodes <$> s'.2) = filter (λ n, node_key n ∉ ks) <$> (nodes <$> s.2).
Proof.
  intros Hks s'. unfold s'. clear s'. revert s. induction Hks as [|k ks Hk _ IH]; intros s; cbn [mbind list_bind].
  - split.
    + intros h n _. rewrite bool_decide_false; [done|]. by intros [?%elem_of_nil | ?%elem_of_nil].
    + cbn. destruct s.2 as [r|]; [|done]. cbn. f_equal. induction (nodes r) as [|n l IH]; [done|].
      rewrite filter_cons_True by (apply not_elem_of_nil). by rewrite <- IH.
  - rewrite block_watch_reports by apply key_msgs_report.
    destruct (watch_delete s k Hk) as [Hr Hn]. destruct (IH (block_watch sha256 s (delete_msgs k))) as [Hr' Hn'].
    split.
    + intros h n Hh. rewrite Hr', Hr by done.
      assert ((block_key h ∈ k :: ks ∨ node_key n ∈ k :: ks) ↔
              (k = block_key h ∨ k = node_key n) ∨ (block_key h ∈ ks ∨ node_key n ∈ ks)) as Hin
        by (rewrite !elem_of_cons; intuition congruence).
      rewrite (bool_decide_ext _ _ Hin), (bool_decide_or (k = block_key h ∨ k = node_key n)).
      by destruct (bool_decide (k = block_key h ∨ k = node_key n)),
                  (bool_decide (block_key h ∈ ks ∨ node_key n ∈ ks)).
    + rewrite Hn', Hn. destruct s.2 as [r|]; [|done]. cbn. f_equal. rewrite list_filter_filter.
      apply list_filter_iff. intros n. rewrite not_elem_of_cons. naive_solver.
Qed.
End watcher.

(** ** The invariant of a cluster and a watcher that saw every report *)
Section invariant.
Context {E wire : Type} `{!Codec wire} `{!CodecOk wire} `{!Etcd E wire} `{!EtcdStore E wire}.
Context (sha256 : bytes → bytes).

Record cluster_inv (c : cluster E wire) (s : RemoteIndex * option HashRing) : Prop := {
  ci_client n cl : cl_clients c !! n = Some cl →
    mc_node_id cl = n ∧ strip_prefix nodes_prefix n = None ∧
    ∃ id v, mc_lease_id cl = Some id ∧ etcd_view (cl_etcd c) !! node_key n = Some (v, Some id);
  ci_lease n n' cl cl' : cl_clients c !! n = Some cl → cl_clients c !! n' = Some cl' →
    mc_lease_id cl = mc_lease_id cl' → n = n';
  ci_key k v l : etcd_view (cl_etcd c) !! k = Some (v, l) →
    ∃ n cl, cl_clients c !! n = Some cl ∧ mc_lease_id cl = l ∧
      (k = node_key n ∨
       ∃ h meta, hash_ok h ∧ k = block_key h ∧ meta_from_json v = Some meta ∧ bm_node_id meta = n);
  ci_remote h : hash_ok h →
    match etcd_view (cl_etcd c) !! block_key h with
    | Some (v, _) => ∀ meta, meta_from_json v = Some meta →
        remote_at h (bm_node_id meta) s.1 = Some (remote_info meta)
    | None => ∀ n, remote_at h n s.1 = None
    end;
  ci_live h n : hash_ok h → is_Some (remote_at h n s.1) → is_Some (cl_clients c !! n);
  ci_ring r : s.2 = Some r → ∀ n, n ∈ nodes r ↔ is_Some (cl_clients c !! n);
}.

Implicit Types (c : cluster E wire) (s : RemoteIndex * option HashRing).

Lemma cluster_inv_init e hr :
  etcd_view e = ∅ → (∀ r, hr = Some r → nodes r = []) → cluster_inv (mkCluster e ∅ []) (remote_new, hr).
Proof.
  intros He Hr. split; cbn; try (intros *; by rewrite lookup_empty).
  - intros k v l. by rewrite He, lookup_empty.
  - intros h _. by rewrite He, lookup_empty.
  - intros h n _ [? Hx]. done.
  - intros r Hhr n. rewrite (Hr r Hhr), lookup_empty. split; [by intros ?%elem_of_nil|by intros [??]].
Qed.

(** What a successful operation does to etcd, and what it reports. *)
Lemma join_step c node addr ttl c' :
  cluster_step (CJoin node addr ttl) c = Some c' →
  ∃ id v, cl_clients c !! node = None ∧
    (∀ k v', etcd_view (cl_etcd c) !! k ≠ Some (v', Some id)) ∧
    cl_clients c' = <[node := mkMetadataClient (Some id) node addr ttl]> (cl_clients c) ∧
    etcd_view (cl_etcd c') = <[node_key node := (v, Some id)]> (etcd_view (cl_etcd c)) ∧
    cl_log c' = cl_log c ++ key_msgs (node_key node) (mkEvent EventPut (Some (node_key node, v))).
Proof.
  cbn. destruct (cl_clients c !! node) eqn:Hnew; [done|].
  unfold register_node. cbn. destruct (etcd_lease_grant ttl (cl_etcd c)) as [[id|] e1] eqn:Hg; [|done].
  destruct (etcd_put _ _ _ e1) as [[[]|] e'] eqn:Hp; [|done]. intros [= <-]. cbn.
  apply etcd_grant_view in Hg as [Hv1 Hfresh]. apply etcd_put_view in Hp as Hv. rewrite Hv1 in Hv.
  eexists id, _. unfold put_msgs. rewrite Hv, lookup_insert_eq. done.
Qed.

Lemma publish_step c node h offset size generation c' :
  cluster_step (CPublish node h offset size generation) c = Some c' →
  ∃ client v, cl_clients c !! node = Some client ∧
    meta_from_json v =
      Some (mkBlockLocationMeta (mc_node_id client) (mc_node_addr client) offset size generation) ∧
    cl_clients c' = cl_clients c ∧
    etcd_view (cl_etcd c') = <[block_key h := (v, mc_lease_id client)]> (etcd_view (cl_etcd c)) ∧
    cl_log c' = cl_log c ++ key_msgs (block_key h) (mkEvent EventPut (Some (block_key h, v))).
Proof.
  cbn. destruct (cl_clients c !! node) as [client|] eqn:Hn; [|done].
  cbn. unfold publish_block. destruct (meta_to_json _) as [v|] eqn:Hj; [|done].
  destruct (etcd_put _ _ _ _) as [[[]|] e'] eqn:Hp; [|done]. intros [= <-]. cbn.
  apply meta_json_roundtrip in Hj. apply etcd_put_view in Hp as Hv.
  exists client, v. unfold put_msgs. rewrite Hv, lookup_insert_eq. done.
Qed.

Lemma leave_step c node c' :
  cluster_step (CLeave node) c = Some c' →
  ∃ client, cl_clients c !! node = Some client ∧ revoke_lease client (cl_etcd c) = (Ok tt, cl_etcd c') ∧
    cl_clients c' = delete node (cl_clients c) ∧
    cl_log c' = cl_log c ++ (gone_keys (cl_etcd c) (cl_etcd c') ≫= delete_msgs).
Proof.
  cbn. destruct (cl_clients c !! node) as [client|] eqn:Hn; [|done]. cbn.
  destruct (revoke_lease client (cl_etcd c)) as [[[]|] e'] eqn:Hr; [|done]. intros [= <-]. by exists client.
Qed.

Lemma nodes_add_node n m r : m ∈ nodes (add_node sha256 n r) ↔ m = n ∨ m ∈ nodes r.
Proof.
  unfold add_node. case_decide; cbn; [naive_solver|]. unfold vec_push.
  rewrite elem_of_app, list_elem_of_singleton. naive_solver.
Qed.

(** Each operation keeps the invariant once its reports are handled. *)
Lemma cluster_inv_join c s node addr ttl c' :
  cluster_inv c s → op_ok (CJoin node addr ttl) → cluster_step (CJoin node addr ttl) c = Some c' →
  ∃ ms, cl_log c' = cl_log c ++ ms ∧ Forall report ms ∧ cluster_inv c' (block_watch sha256 s ms).
Proof.
  intros [Hcl Hle Hk Hre Hli Hri] Hok (id & v0 & Hnew & Hfresh & Hc & Hv & Hlog)%join_step.
  eexists. split; [exact Hlog|]. split; [apply key_msgs_report|].
  rewrite watch_node_msgs. destruct s as [ri hr]. rewrite node_put_event by done.
  split; cbn [fst snd]; rewrite ?Hv, ?Hc.
  - intros n cl. rewrite lookup_insert_Some. intros [[<- <-] | [Hne Hn]].
    + cbn. split; [done|]. split; [done|]. eexists id, _. split; [done|]. apply lookup_insert_eq.
    + rewrite lookup_insert_ne by (by intros ?%node_key_inj). by apply Hcl.
  - intros n n' cl cl' Hn Hn' Hid.
    assert (∀ m clm, cl_clients c !! m = Some clm → mc_lease_id clm ≠ Some id) as Hother.
    { intros m clm Hm Heq. destruct (Hcl m clm Hm) as (_ & _ & id' & v & Hid' & Hview).
      rewrite Heq in Hid'. simplify_eq. by eapply Hfresh. }
    apply lookup_insert_Some in Hn as [[<- <-] | [? Hn]], Hn' as [[<- <-] | [? Hn']]; cbn in Hid; try done.
    + symmetry in Hid. by destruct (Hother _ _ Hn').
    + by destruct (Hother _ _ Hn).
    + by eapply Hle.
  - intros k v l. rewrite lookup_insert_Some. intros [[<- [= <- <-]] | [Hne Hkv]].
    + eexists node, _. rewrite lookup_insert_eq. split; [done|]. split; [done|]. by left.
    + destruct (Hk k v l Hkv) as (n & cl & Hn & Hrest). exists n, cl.
      rewrite lookup_insert_ne by congruence. done.
  - intros h Hh. rewrite lookup_insert_ne by (apply not_eq_sym, block_key_not_node). by apply Hre.
  - intros h n Hh Hx. rewrite lookup_insert_is_Some. destruct (decide (node = n)); [by left|].
    right. split; [done|]. by eapply Hli.
  - intros r (r0 & -> & ->)%fmap_Some n. rewrite nodes_add_node, (Hri r0 eq_refl n), lookup_insert_is_Some.
    destruct (decide (n = node)); naive_solver.
Qed.

Lemma cluster_inv_publish c s node h offset size generation c' :
  cluster_inv c s → op_ok (CPublish node h offset size generation) →
  cluster_step (CPublish node h offset size generation) c = Some c' →
  ∃ ms, cl_log c' = cl_log c ++ ms ∧ Forall report ms ∧ cluster_inv c' (block_watch sha256 s ms).
Proof.
  intros [Hcl Hle Hk Hre Hli Hri] Hok (client & v & Hn & Hj & Hc & Hv & Hlog)%publish_step.
  destruct (Hcl node client Hn) as (Hid & _).
  eexists. split; [exact Hlog|]. split; [apply key_msgs_report|].
  rewrite watch_block_msgs, (block_put_event _ _ _ _ Hok Hj).
  split; cbn [fst snd]; rewrite ?Hv, ?Hc.
  - intros n cl Hn'. rewrite lookup_insert_ne by apply block_key_not_node. by apply Hcl.
  - exact Hle.
  - intros k v' l. rewrite lookup_insert_Some. intros [[<- [= <- <-]] | [Hne Hkv]]; [|by eapply Hk].
    exists node, client. split; [done|]. split; [done|]. right. by eexists h, _.
  - intros h' Hh'. destruct (decide (h' = h)) as [->|Hne].
    + rewrite lookup_insert_eq. intros meta Hm. rewrite Hj in Hm. injection Hm as <-.
      rewrite remote_at_insert. by rewrite bool_decide_true.
    + rewrite lookup_insert_ne by (intros ?%block_key_inj; done || congruence).
      specialize (Hre h' Hh'). destruct (etcd_view (cl_etcd c) !! block_key h') as [[v' l]|].
      * intros meta Hm. rewrite remote_at_insert, bool_decide_false by (by intros [? _]). by apply Hre.
      * intros n. rewrite remote_at_insert, bool_decide_false by (by intros [? _]). apply Hre.
  - intros h' n Hh'. rewrite remote_at_insert. case_bool_decide as Hcase; [|by apply Hli].
    destruct Hcase as [_ ->]. cbn. rewrite Hid, Hn. by eexists.
  - exact Hri.
Qed.

(** The keys a leaving node takes with it are those attached to its lease. *)
Lemma gone_keys_lease e e' client id k :
  revoke_lease client e = (Ok tt, e') → mc_lease_id client = Some id →
  k ∈ gone_keys e e' ↔ ∃ v, etcd_view e !! k = Some (v, Some id).
Proof.
  unfold revoke_lease. intros Hr Hid. rewrite Hid in Hr. unfold gone_keys.
  rewrite list_elem_of_filter, (etcd_revoke_view _ _ _ Hr k), list_elem_of_fmap. split.
  - intros [Hnone ([k' [v l]] & -> & Hkv%elem_of_map_to_list)]. cbn in Hnone |- *. rewrite Hkv in Hnone. cbn in Hnone.
    case_bool_decide as Hl; [|done]. cbn in Hl. subst. eauto.
  - intros [v Hv]. rewrite Hv. cbn. rewrite bool_decide_true by done. split; [done|].
    exists (k, (v, Some id)). split; [done|]. by apply elem_of_map_to_list.
Qed.

Lemma gone_keys_node c s node client id e' :
  cluster_inv c s → cl_clients c !! node = Some client → mc_lease_id client = Some id →
  revoke_lease client (cl_etcd c) = (Ok tt, e') →
  Forall cluster_key (gone_keys (cl_etcd c) e') ∧
  (∀ n, node_key n ∈ gone_keys (cl_etcd c) e' ↔ n = node).
Proof.
  intros [Hcl Hle Hk _ _ _] Hn Hid Hr. pose proof (λ k, gone_keys_lease _ _ _ _ k Hr Hid) as Hgone. split.
  - apply Forall_forall. intros k [v Hv]%Hgone. destruct (Hk k v _ Hv) as (n & cl & Hcn & _ & [-> | (h & m & Hh & -> & _)]).
    + left. exists n. split; [|done]. by destruct (Hcl n cl Hcn) as (_ & ? & _).
    + right. by exists h.
  - intros n. rewrite Hgone. split.
    + intros [v Hv]. destruct (Hk _ v _ Hv) as (n' & cl & Hcn & Hl & [Heq | (h & m & _ & Heq & _)]).
      * apply node_key_inj in Heq as ->. eapply Hle; [done..|]. congruence.
      * by destruct (block_key_not_node h n).
    + intros ->. destruct (Hcl node client Hn) as (_ & _ & id' & v & Hid' & Hv). exists v. congruence.
Qed.

Lemma cluster_inv_leave c s node c' :
  cluster_inv c s → cluster_step (CLeave node) c = Some c' →
  ∃ ms, cl_log c' = cl_log c ++ ms ∧ Forall report ms ∧ cluster_inv c' (block_watch sha256 s ms).
Proof.
  intros Hinv (client & Hn & Hr & Hc & Hlog)%leave_step. set (e' := cl_etcd c') in *.
  pose proof Hinv as [Hcl Hle Hk Hre Hli Hri]. destruct (Hcl node client Hn) as (_ & _ & id & _ & Hid & _).
  destruct (gone_keys_node _ _ _ _ _ _ Hinv Hn Hid Hr) as [Hks Hnk].
  pose proof (λ k, gone_keys_lease _ _ _ _ k Hr Hid) as Hgone.
  assert (∀ k v l, etcd_view e' !! k = Some (v, l) ↔ etcd_view (cl_etcd c) !! k = Some (v, l) ∧ l ≠ Some id) as Hview.
  { intros k v l. unfold revoke_lease in Hr. rewrite Hid in Hr. rewrite (etcd_revoke_view _ _ _ Hr k).
    destruct (etcd_view (cl_etcd c) !! k) as [[v1 l1]|]; cbn; [|naive_solver]. case_bool_decide; naive_solver. }
  eexists. split; [exact Hlog|]. split; [apply deletes_report|].
  destruct (watch_deletes sha256 s _ Hks) as [Hrem Hnod].
  set (s' := block_watch sha256 s _) in *. clearbody s'.
  split; rewrite ?Hc; fold e'.
  - intros n cl [Hne Hcn]%lookup_delete_Some. destruct (Hcl n cl Hcn) as (? & ? & id' & v & Hid' & Hv).
    split; [done|]. split; [done|]. exists id', v. split; [done|]. apply Hview. split; [done|].
    intros [= ->]. apply Hne. eapply Hle; [done..|]. congruence.
  - intros n n' cl cl' [_ Hc1]%lookup_delete_Some [_ Hc2]%lookup_delete_Some. by apply Hle.
  - intros k v l [Hv Hl]%Hview. destruct (Hk k v l Hv) as (n & cl & Hcn & Hlease & Hrest).
    exists n, cl. rewrite lookup_delete_ne; [done|]. intros ->. congruence.
  - intros h Hh. specialize (Hre h Hh). destruct (etcd_view e' !! block_key h) as [[v l]|] eqn:Hv'.
    + apply Hview in Hv' as [Hv Hl]. rewrite Hv in Hre. intros meta Hm. rewrite Hrem by done.
      rewrite bool_decide_false; [by apply Hre|]. rewrite Hgone, Hnk. intros [[v2 ?] | Hnode]; [congruence|].
      destruct (Hk _ _ _ Hv) as (n & cl & Hcn & Hlease & [Heq | (h2 & m2 & Hh2 & Heq & Hm2 & Hnm)]).
      * by apply block_key_not_node in Heq.
      * assert (n = node) as -> by congruence. congruence.
    + intros n. rewrite Hrem by done. case_bool_decide as Hin; [done|]. rewrite Hgone in Hin.
      destruct (etcd_view (cl_etcd c) !! block_key h) as [[v l]|] eqn:Hv; [|apply Hre].
      destruct (decide (l = Some id)) as [->|Hl]; [destruct Hin; left; by exists v|].
      assert (etcd_view e' !! block_key h = Some (v, l)) by (by apply Hview). congruence.
  - intros h n Hh. rewrite Hrem by done. case_bool_decide as Hin; [by intros [??]|]. intros Hs.
    rewrite lookup_delete_ne; [by eapply Hli|]. intros <-. apply Hin. right. by apply Hnk.
  - intros r Hr' n. rewrite Hr' in Hnod. cbn in Hnod. destruct s.2 as [r0|] eqn:Hs2; [|done].
    injection Hnod as Hnod. rewrite Hnod, list_elem_of_filter, Hnk, (Hri r0 eq_refl n), lookup_delete_is_Some.
    naive_solver.
Qed.

Lemma cluster_inv_step c s op c' :
  cluster_inv c s → op_ok op → cluster_step op c = Some c' →
  ∃ ms, cl_log c' = cl_log c ++ ms ∧ Forall report ms ∧ cluster_inv c' (block_watch sha256 s ms).
Proof.
  intros Hinv Hok Hstep. destruct op.
  - by eapply cluster_inv_join.
  - by eapply cluster_inv_publish.
  - by eapply cluster_inv_leave.
Qed.

Lemma cluster_inv_run ops c c' s :
  cluster_inv c s → Forall op_ok ops → cluster_run ops c = Some c' →
  ∃ ms, cl_log c' = cl_log c ++ ms ∧ Forall report ms ∧ cluster_inv c' (block_watch sha256 s ms).
Proof.
  intros Hinv Hok. revert c s Hinv. induction Hok as [|op ops Hop _ IH]; intros c s Hinv; cbn.
  - intros [= <-]. exists []. by rewrite app_nil_r.
  - destruct (cluster_step op c) as [c1|] eqn:Hstep; [|done]. cbn. intros Hrun.
    destruct (cluster_inv_step _ _ _ _ Hinv Hop Hstep) as (ms1 & Hl1 & Hr1 & Hinv1).
    destruct (IH _ _ Hinv1 Hrun) as (ms2 & Hl2 & Hr2 & Hinv2). exists (ms1 ++ ms2).
    rewrite Hl2, Hl1, app_assoc. split; [done|]. split; [by apply Forall_app|].
    by rewrite block_watch_reports.
Qed.

(** ** Nodes a watcher has not heard of *)

(** Node [n] is not on the ring, and its blocks with keys in [H] are not in the index. *)
Definition unknown (n : string) (H : bytes → Prop) s : Prop :=
  (∀ r, s.2 = Some r → n ∉ nodes r) ∧ (∀ h, hash_ok h → H h → remote_at h n s.1 = None).

(** Operations that neither let [n] join nor publish such a block keep it unknown. *)
Definition silent (n : string) (H : bytes → Prop) (op : cluster_op) : Prop :=
  match op with
  | CJoin m _ _ => m ≠ n
  | CPublish m h _ _ _ => m = n → ¬ H h
  | CLeave _ => True
  end.

Lemma unknown_step c sf op c' ms n H s :
  cluster_inv c sf → op_ok op → silent n H op → cluster_step op c = Some c' → cl_log c' = cl_log c ++ ms →
  unknown n H s → unknown n H (block_watch sha256 s ms).
Proof.
  intros Hinv Hok Hsil Hstep Hlog [Hring Hrem]. destruct op as [m addr ttl|m h o sz g|m].
  - apply join_step in Hstep as (id & v & _ & _ & _ & _ & Hl). rewrite Hl in Hlog.
    apply app_inv_head in Hlog as <-. rewrite watch_node_msgs. destruct s as [ri hr].
    rewrite node_put_event by done. split; [|exact Hrem]. cbn.
    intros r (r0 & -> & ->)%fmap_Some. rewrite nodes_add_node. intros [-> | Hn]; [done|]. by apply (Hring r0).
  - apply publish_step in Hstep as (client & v & Hc & Hj & _ & _ & Hl). rewrite Hl in Hlog.
    apply app_inv_head in Hlog as <-. rewrite watch_block_msgs, (block_put_event _ _ _ _ Hok Hj).
    split; [exact Hring|]. intros h' Hh' HH. cbn. rewrite remote_at_insert. cbn.
    destruct (ci_client _ _ Hinv _ _ Hc) as [-> _]. case_bool_decide as Hcase; [|by apply Hrem].
    destruct Hcase as [-> ->]. by destruct Hsil.
  - apply leave_step in Hstep as (client & Hc & Hr & _ & Hl). rewrite Hl in Hlog. apply app_inv_head in Hlog as <-.
    destruct (ci_client _ _ Hinv _ _ Hc) as (_ & _ & id & _ & Hid & _).
    destruct (gone_keys_node _ _ _ _ _ _ Hinv Hc Hid Hr) as [Hks _].
    destruct (watch_deletes sha256 s _ Hks) as [Hd Hn]. split.
    + intros r Hr'. rewrite Hr' in Hn. cbn in Hn. destruct s.2 as [r0|]; [|done]. injection Hn as ->.
      rewrite list_elem_of_filter. intros [_ Hin]. by apply (Hring r0).
    + intros h Hh HH. rewrite Hd by done. case_bool_decide; [done|]. by apply Hrem.
Qed.

Lemma unknown_run ops c sf c' ms n H s :
  cluster_inv c sf → Forall op_ok ops → Forall (silent n H) ops → cluster_run ops c = Some c' →
  cl_log c' = cl_log c ++ ms → unknown n H s → unknown n H (block_watch sha256 s ms).
Proof.
  intros Hinv Hok. revert c sf s ms Hinv. induction Hok as [|op ops Hop Hok IH]; intros c sf s ms Hinv Hsil; cbn.
  - intros [= <-] Hlog. rewrite <- (app_nil_r (cl_log c)) in Hlog at 1. by apply app_inv_head in Hlog as <-.
  - inversion_clear Hsil as [|?? Hs1 Hs2]. destruct (cluster_step op c) as [c1|] eqn:Hstep; [|done]. cbn.
    intros Hrun Hlog Hu. destruct (cluster_inv_step _ _ _ _ Hinv Hop Hstep) as (ms1 & Hl1 & Hr1 & Hinv1).
    destruct (cluster_inv_run _ _ _ _ Hinv1 Hok Hrun) as (ms2 & Hl2 & _ & _).
    rewrite Hl2, Hl1, <- app_assoc in Hlog. apply app_inv_head in Hlog as <-.
    rewrite block_watch_reports by done. eapply (IH c1); [exact Hinv1|done..|].
    by eapply (unknown_step c sf op c1).
Qed.
End invariant.

(** ** Properties *)
Section properties.
Context {E wire : Type} `{!Codec wire} `{!CodecOk wire} `{!Etcd E wire} `{!EtcdStore E wire}.
Context (sha256 : bytes → bytes).

(** A cluster before the first node joins. *)
Definition empty_cluster (e0 : E) : cluster E wire := mkCluster e0 ∅ [].

(** What a watcher with an empty ring has made of the log. *)
Definition watched (vnodes : Z) (c : cluster E wire) : RemoteIndex * option HashRing :=
  block_watch sha256 (remote_new, Some (ring_new vnodes)) (cl_log c).

Lemma reachable_cluster e0 vnodes ops c :
  etcd_view e0 = ∅ → Forall op_ok ops → cluster_run ops (empty_cluster e0) = Some c →
  cluster_inv c (watched vnodes c) ∧ Forall report (cl_log c).
Proof.
  intros He Hok Hrun.
  assert (cluster_inv (empty_cluster e0) (remote_new, Some (ring_new vnodes))) as Hinit
    by (apply cluster_inv_init; [done|by intros r [= <-]]).
  destruct (cluster_inv_run sha256 _ _ _ _ Hinit Hok Hrun) as (ms & Hlog & Hrep & Hinv).
  unfold watched. by rewrite Hlog.
Qed.

Lemma watch_keeps_ring ms s :
  is_Some s.2 → is_Some (block_watch (wire := wire) sha256 s ms).2.
Proof.
  revert s. induction ms as [|m ms IH]; intros s Hs; cbn; [done|].
  destruct (watch_step sha256 s m) as [s'|] eqn:Hm; [|done]. apply IH.
  destruct m as [[[evs|]|]|[[evs|]|]]; cbn in Hm; simplify_eq; cbn; [done|].
  apply (foldl_inv _ (λ s, is_Some s.2)); [|done]. intros [ri hr] ev Hr. unfold node_event. cbn in Hr.
  destruct (ev_kv ev) as [[key v]|]; [|done]. by destruct (ev_type ev); cbn; apply fmap_is_Some.
Qed.

(** C10: A watcher that saw every report in order agrees with etcd, whatever nodes joined,
    published and left: for each key etcd holds, the location in etcd is listed under its
    node; for each key etcd does not hold, nothing is listed; only live nodes are listed;
    and the ring has exactly the live nodes. *)
Theorem watch_converges (e0 : E) (vnodes : Z) (ops : list cluster_op) (c : cluster E wire) :
  etcd_view e0 = ∅ → Forall op_ok ops → cluster_run ops (empty_cluster e0) = Some c →
  let s := watched vnodes c in
  (∀ h, hash_ok h →
     match etcd_view (cl_etcd c) !! block_key h with
     | Some (v, _) => ∃ meta, meta_from_json v = Some meta ∧
         remote_at h (bm_node_id meta) s.1 = Some (remote_info meta)
     | None => ∀ n, remote_at h n s.1 = None
     end) ∧
  (∀ h n, hash_ok h → is_Some (remote_at h n s.1) → is_Some (cl_clients c !! n)) ∧
  (∃ r, s.2 = Some r ∧ ∀ n, n ∈ nodes r ↔ is_Some (cl_clients c !! n)).
Proof.
  intros He Hok Hrun s. destruct (reachable_cluster e0 vnodes ops c He Hok Hrun) as [[_ _ Hk Hre Hli Hri] _].
  fold s in Hre, Hli, Hri. split; [|split; [exact Hli|]].
  - intros h Hh. specialize (Hre h Hh).
    destruct (etcd_view (cl_etcd c) !! block_key h) as [[v l]|] eqn:Hv; [|exact Hre].
    destruct (Hk _ _ _ Hv) as (n & cl & _ & _ & [Heq | (h' & meta & _ & _ & Hm & _)]).
    + by apply block_key_not_node in Heq.
    + eauto.
  - destruct (watch_keeps_ring (cl_log c) (remote_new, Some (ring_new vnodes))) as [r Hr]; [by eexists|].
    exists r. split; [exact Hr|]. by apply Hri.
Qed.

(** What a publication adds to a watcher. *)
Lemma watched_publication vnodes (c c' : cluster E wire) h v meta n :
  hash_ok h → meta_from_json v = Some meta →
  cl_log c' = cl_log c ++ key_msgs (block_key h) (mkEvent EventPut (Some (block_key h, v))) →
  Forall report (cl_log c) →
  remote_at h n (watched vnodes c').1 =
    if bool_decide (n = bm_node_id meta) then Some (remote_info meta) else remote_at h n (watched vnodes c).1.
Proof.
  intros Hh Hj Hlog Hrep. unfold watched. rewrite Hlog, block_watch_reports by done.
  rewrite watch_block_msgs, (block_put_event _ _ _ _ Hh Hj). cbn [fst]. rewrite remote_at_insert. cbn.
  repeat case_bool_decide; naive_solver.
Qed.

(** C32: One key per block: when a node that published a block after another node leaves, the
    block disappears from etcd and from every watcher, although the other node is alive and
    still has it; before, both were listed. *)
Theorem leaving_node_hides_replicas (e0 : E) (vnodes : Z) (ops : list cluster_op)
    (c c1 c2 : cluster E wire) (a b : string) (h : bytes) (oa sa ga ob sb gb : Z) :
  etcd_view e0 = ∅ → Forall op_ok ops → hash_ok h → a ≠ b →
  cluster_run ops (empty_cluster e0) = Some c →
  cluster_run [CPublish a h oa sa ga; CPublish b h ob sb gb] c = Some c1 →
  cluster_step (CLeave b) c1 = Some c2 →
  is_Some (remote_at h a (watched vnodes c1).1) ∧ is_Some (remote_at h b (watched vnodes c1).1) ∧
  is_Some (cl_clients c2 !! a) ∧
  etcd_view (cl_etcd c2) !! block_key h = None ∧ ∀ n, remote_at h n (watched vnodes c2).1 = None.
Proof.
  intros He Hok Hh Hab Hrun Hpub Hleave.
  destruct (reachable_cluster e0 vnodes ops c He Hok Hrun) as [[Hcl _ _ _ _ _] Hrep].
  assert (Forall op_ok (ops ++ [CPublish a h oa sa ga; CPublish b h ob sb gb; CLeave b])) as Hok2.
  { apply Forall_app. split; [done|]. repeat constructor; apply Hh. }
  assert (cluster_run (ops ++ [CPublish a h oa sa ga; CPublish b h ob sb gb; CLeave b]) (empty_cluster e0) = Some c2) as Hrun2.
  { change [CPublish a h oa sa ga; CPublish b h ob sb gb; CLeave b]
      with ([CPublish a h oa sa ga; CPublish b h ob sb gb] ++ [CLeave b]).
    rewrite !cluster_run_app, Hrun. cbn [mbind option_bind]. rewrite cluster_run_app, Hpub.
    cbn [mbind option_bind cluster_run]. by rewrite Hleave. }
  destruct (reachable_cluster e0 vnodes _ c2 He Hok2 Hrun2) as [[_ _ _ Hre2 _ _] _].
  cbn [cluster_run] in Hpub. destruct (cluster_step (CPublish a h oa sa ga) c) as [ca|] eqn:Ha; [|done].
  cbn [mbind option_bind] in Hpub. destruct (cluster_step (CPublish b h ob sb gb) ca) as [cb|] eqn:Hb; [|done].
  cbn [mbind option_bind] in Hpub. injection Hpub as ->.
  apply publish_step in Ha as (cla & va & Hna & Hja & Hca & _ & Hla).
  apply publish_step in Hb as (clb & vb & Hnb & Hjb & Hcb & Hvb & Hlb).
  apply leave_step in Hleave as (clb' & Hnb' & Hr & Hc2 & _).
  rewrite Hcb in Hnb'. assert (clb' = clb) as -> by congruence. rewrite Hca in Hnb.
  destruct (Hcl a cla Hna) as (Hida & _). destruct (Hcl b clb Hnb) as (Hidb & _ & id & _ & Hlease & _).
  assert (∀ n, remote_at h n (watched vnodes c1).1 =
            if bool_decide (n = b) then Some (mkRemoteBlockInfo b (mc_node_addr clb) ob sb gb)
            else if bool_decide (n = a) then Some (mkRemoteBlockInfo a (mc_node_addr cla) oa sa ga)
            else remote_at h n (watched vnodes c).1) as Hat.
  { intros n. rewrite (watched_publication vnodes ca c1 h _ _ n Hh Hjb Hlb), (watched_publication vnodes c ca h _ _ n Hh Hja Hla);
      [cbn; by rewrite Hida, Hidb|done|]. rewrite Hla. apply Forall_app. split; [done|apply key_msgs_report]. }
  split; [rewrite Hat; rewrite bool_decide_false, bool_decide_true by done; by eexists|].
  split; [rewrite Hat; rewrite bool_decide_true by done; by eexists|].
  split; [rewrite Hc2, lookup_delete_ne by done; rewrite Hcb, Hca, Hna; by eexists|].
  assert (etcd_view (cl_etcd c2) !! block_key h = None) as Hnone.
  { unfold revoke_lease in Hr. rewrite Hlease in Hr. rewrite (etcd_revoke_view _ _ _ Hr), Hvb, lookup_insert_eq.
    cbn. by rewrite bool_decide_true. }
  split; [done|]. specialize (Hre2 h Hh). by rewrite Hnone in Hre2.
Qed.

Lemma cluster_run_live ops (c c' : cluster E wire) n :
  cluster_run ops c = Some c' → CLeave n ∉ ops → is_Some (cl_clients c !! n) → is_Some (cl_clients c' !! n).
Proof.
  revert c. induction ops as [|op ops IH]; intros c; cbn; [by intros [= <-]|].
  destruct (cluster_step op c) as [c1|] eqn:Hstep; [|done]. cbn. rewrite not_elem_of_cons.
  intros Hrun [Hop Hops] Hn. apply (IH c1); [done..|]. destruct op as [m addr ttl|m h o sz g|m].
  - apply join_step in Hstep as (id & v & _ & _ & -> & _). rewrite lookup_insert_is_Some'. by right.
  - apply publish_step in Hstep as (client & v & _ & _ & -> & _). done.
  - apply leave_step in Hstep as (client & _ & _ & -> & _). by rewrite lookup_delete_ne by congruence.
Qed.

(** C33: A node that joins learns only of what happens afterwards.  A node [n] that was there
    before, stays, and does not join again is not on the newcomer's ring, and the blocks it
    does not publish again are not in the newcomer's index, although [n] is alive and etcd
    has its key: nothing lists the existing keys at startup. *)
Theorem newcomer_misses_existing_nodes (e0 : E) (vnodes : Z) (ops1 ops2 : list cluster_op)
    (c1 c2 : cluster E wire) (self n : string) (ms : list (watch_msg wire)) :
  etcd_view e0 = ∅ → Forall op_ok ops1 → Forall op_ok ops2 →
  cluster_run ops1 (empty_cluster e0) = Some c1 → cluster_run ops2 c1 = Some c2 →
  cl_log c2 = cl_log c1 ++ ms →
  n ≠ self → is_Some (cl_clients c1 !! n) → CLeave n ∉ ops2 → (∀ addr ttl, CJoin n addr ttl ∉ ops2) →
  let s := block_watch sha256 (remote_new, Some (add_node sha256 self (ring_new vnodes))) ms in
  is_Some (cl_clients c2 !! n) ∧ is_Some (etcd_view (cl_etcd c2) !! node_key n) ∧
  (∃ r, s.2 = Some r ∧ n ∉ nodes r) ∧
  (∀ h, hash_ok h → (∀ o sz g, CPublish n h o sz g ∉ ops2) → remote_at h n s.1 = None).
Proof.
  intros He Hok1 Hok2 Hrun1 Hrun2 Hlog Hself Hlive Hstay Hjoin s.
  destruct (reachable_cluster e0 vnodes ops1 c1 He Hok1 Hrun1) as [Hinv _].
  destruct (cluster_run_live _ _ _ _ Hrun2 Hstay Hlive) as [cl Hcl]. split; [by eexists|]. split.
  { destruct (cluster_inv_run sha256 _ _ _ _ Hinv Hok2 Hrun2) as (ms' & _ & _ & [Hcl2 _ _ _ _ _]).
    destruct (Hcl2 _ _ Hcl) as (_ & _ & id & v & _ & Hv). by eexists. }
  set (quiet := λ h, ∀ o sz g, CPublish n h o sz g ∉ ops2).
  assert (unknown n quiet s) as [Hring Hrem].
  { eapply unknown_run; [exact Hinv|exact Hok2| |exact Hrun2|exact Hlog|].
    - apply Forall_forall. intros [m addr ttl|m h o sz g|m] Hin; cbn; [|intros ->|done].
      + intros ->. by eapply Hjoin.
      + intros Hq. by eapply Hq.
    - split; [|done]. intros r [= <-]. rewrite nodes_add_node. intros [? | []%elem_of_nil]; done. }
  split; [|exact Hrem].
  destruct (watch_keeps_ring ms (remote_new, Some (add_node sha256 self (ring_new vnodes)))) as [r Hr]; [by eexists|].
  exists r. split; [exact Hr|]. by apply Hring.
Qed.
End properties.

(** ** Witnesses and a race, on the in-memory etcd *)
Definition etcd_empty : MemEtcd := mkMemEtcd ∅ 1.
Definition hash5 : bytes := replicate 16 5.
Definition join_ab : list cluster_op := [CJoin "node-a" "10.0.0.1:50051" 30; CJoin "node-b" "10.0.0.2:50051" 30].

Definition publish_ab : list cluster_op :=
  [CPublish "node-a" hash5 64 64 1; CPublish "node-b" hash5 0 64 1].
(** The cluster after operations that succeed. *)
Definition after (ops : list cluster_op) : cluster MemEtcd toy_wire :=
  default (empty_cluster etcd_empty) (cluster_run ops (empty_cluster etcd_empty)).

Lemma hash5_ok : hash_ok hash5.
Proof. split; [done|]. by apply Forall_replicate. Qed.
Ltac ops_ok := repeat (apply Forall_cons; split); first [exact I | exact hash5_ok | reflexivity | apply Forall_nil; exact I].

Lemma watch_converges_witness :
  let c := after (join_ab ++ publish_ab) in
  ∃ r, (watched toy_digest 2 c).2 = Some r ∧ ∀ n, n ∈ nodes r ↔ is_Some (cl_clients c !! n).
Proof.
  intros c. apply (watch_converges toy_digest etcd_empty 2 (join_ab ++ publish_ab) c).
  - reflexivity.
  - ops_ok.
  - vm_compute. reflexivity.
Defined.

Lemma leaving_node_hides_replicas_witness :
  is_Some (cl_clients (after (join_ab ++ publish_ab ++ [CLeave "node-b"])) !! "node-a"%string) ∧
  ∀ n, remote_at hash5 n (watched toy_digest 2 (after (join_ab ++ publish_ab ++ [CLeave "node-b"]))).1 = None.
Proof.
  destruct (leaving_node_hides_replicas toy_digest etcd_empty 2 join_ab (after join_ab) (after (join_ab ++ publish_ab))
              (after (join_ab ++ publish_ab ++ [CLeave "node-b"])) "node-a" "node-b" hash5 64 64 1 0 64 1)
    as (_ & _ & Hlive & _ & Hnone).
  - reflexivity.
  - ops_ok.
  - exact hash5_ok.
  - discriminate.
  - vm_compute. reflexivity.
  - vm_compute. reflexivity.
  - vm_compute. reflexivity.
  - split; [exact Hlive|exact Hnone].
Defined.

Lemma newcomer_misses_existing_nodes_witness :
  let c1 := after (take 1 join_ab ++ take 1 publish_ab) in
  let c2 := after (take 1 join_ab ++ take 1 publish_ab ++ drop 1 join_ab) in
  let s := block_watch toy_digest (remote_new, Some (add_node toy_digest "node-b" (ring_new 2)))
             (drop (length (cl_log c1)) (cl_log c2)) in
  ∃ r, s.2 = Some r ∧ "node-a"%string ∉ nodes r.
Proof.
  intros c1 c2 s.
  apply (newcomer_misses_existing_nodes toy_digest etcd_empty 2 (take 1 join_ab ++ take 1 publish_ab) (drop 1 join_ab)
           c1 c2 "node-b" "node-a").
  - reflexivity.
  - ops_ok.
  - ops_ok.
  - vm_compute. reflexivity.
  - vm_compute. reflexivity.
  - vm_compute. reflexivity.
  - discriminate.
  - vm_compute. by eexists.
  - cbn. set_solver.
  - cbn. set_solver.
Defined.

(** The two watches are separate streams: each arrives in order, but nothing orders one
    against the other.  A node that left and came back publishes a block; when the report of
    the block arrives before the report that the node had left, the watcher ends without the
    block, although etcd has it and the watcher's ring has the node. *)
Theorem late_node_report_drops_block :
  let ops := [CJoin "node-a" "10.0.0.1:50051" 30; CLeave "node-a"; CJoin "node-a" "10.0.0.1:50051" 30;
              CPublish "node-a" hash5 64 64 1] in
  let is_block (m : watch_msg toy_wire) := match m with BlockMsg _ => true | NodeMsg _ => false end in
  ∃ c ms, cluster_run ops (empty_cluster etcd_empty) = Some c ∧
    List.filter is_block ms = List.filter is_block (cl_log c) ∧
    List.filter (negb ∘ is_block) ms = List.filter (negb ∘ is_block) (cl_log c) ∧
    is_Some (remote_at hash5 "node-a" (watched toy_digest 2 c).1) ∧
    let s := block_watch toy_digest (remote_new, Some (ring_new 2)) ms in
    remote_at hash5 "node-a" s.1 = None ∧ ("node-a"%string ∈ from_option nodes [] s.2).
Proof.
  intros ops is_block. exists (after ops).
  exists (List.filter is_block (cl_log (after ops)) ++ List.filter (negb ∘ is_block) (cl_log (after ops))).
  repeat split.
  - vm_compute. by eexists.
  - vm_compute. apply list_elem_of_here.
Qed.
