(* ===== verification/Grpc.v ===== *)
(** * The cache service (crates/cmx-agent/src/grpc.rs, state.rs)

    The seven handlers of [CmxCache] over the agent's shared state.  A handler is a
    computation on [CacheService]; its answer is a gRPC response or a [Status].  Timers and
    the metrics facade are outside the model.  Tasks a handler spawns are values: the
    publications [store] starts are queued in [cs_spawned], the sender task of [get] is
    [get_task], run after (and possibly long after) the handler returned. *)
From S2P Require Import Prelude Pool Block Allocator Policy Lru Index RemoteIndex Placement Config Metadata Pressure.
Local Open Scope Z_scope.

(** ** State *)
Record AgentState := mkAgentState {
  as_allocator : BlockAllocator;
  as_index : BlockIndex LruInner;
  as_node_id : string;
  as_config : AgentConfig;
  as_metadata : option MetadataClient;
  as_pressure_level : Z;                     (* AtomicU8 *)
  as_remote_index : option RemoteIndex;
  as_hash_ring : option HashRing;
}.

(** The arguments of the [publish_block] call of a spawned task. *)
Record PublishTask := mkPublishTask {
  pt_prefix_hash : bytes;
  pt_offset : Z;
  pt_size : Z;
  pt_generation : Z;
}.

Record CacheService := mkCacheService {
  cs_state : AgentState;
  cs_cache_hits : Z;                         (* AtomicU64 *)
  cs_cache_misses : Z;
  cs_evictions : Z;
  cs_spawned : list PublishTask;
}.

(** [CacheService::new]. *)
Definition service_new (state : AgentState) : CacheService := mkCacheService state 0 0 0 [].

Definition set_state (st : AgentState) (s : CacheService) : CacheService :=
  mkCacheService st (cs_cache_hits s) (cs_cache_misses s) (cs_evictions s) (cs_spawned s).
Definition set_allocator (a : BlockAllocator) (s : CacheService) : CacheService :=
  let st := cs_state s in
  set_state (mkAgentState a (as_index st) (as_node_id st) (as_config st) (as_metadata st)
               (as_pressure_level st) (as_remote_index st) (as_hash_ring st)) s.
Definition set_index (i : BlockIndex LruInner) (s : CacheService) : CacheService :=
  let st := cs_state s in
  set_state (mkAgentState (as_allocator st) i (as_node_id st) (as_config st) (as_metadata st)
               (as_pressure_level st) (as_remote_index st) (as_hash_ring st)) s.

(** [self.allocator()] and [self.index()]. *)
Definition allocator (s : CacheService) : BlockAllocator := as_allocator (cs_state s).
Definition index (s : CacheService) : BlockIndex LruInner := as_index (cs_state s).
(** [self.node_id()]. *)
Definition node_id (s : CacheService) : string := as_node_id (cs_state s).
(** [CacheService::monotonic_now], whole seconds of the system clock, which reads
    [system_time] nanoseconds after the epoch; a clock before the epoch counts as zero. *)
Definition monotonic_now (system_time : Z) : Z :=
  if system_time <? 0 then 0 else as_u64 (system_time / 10 ^ 9).
Definition on_allocator {A} (m : M BlockAllocator A) : M CacheService A := zoom allocator set_allocator m.
Definition on_index {A} (m : M (BlockIndex LruInner) A) : M CacheService A := zoom index set_index m.

(** [fetch_add] on the counters. *)
Definition add_hit : M CacheService unit := modify (λ s,
  mkCacheService (cs_state s) (as_u64 (cs_cache_hits s + 1)) (cs_cache_misses s) (cs_evictions s) (cs_spawned s)).
Definition add_miss : M CacheService unit := modify (λ s,
  mkCacheService (cs_state s) (cs_cache_hits s) (as_u64 (cs_cache_misses s + 1)) (cs_evictions s) (cs_spawned s)).
Definition add_evictions (n : Z) : M CacheService unit := modify (λ s,
  mkCacheService (cs_state s) (cs_cache_hits s) (cs_cache_misses s) (as_u64 (cs_evictions s + n)) (cs_spawned s)).
(** [tokio::spawn]. *)
Definition spawn_publish (t : PublishTask) : M CacheService unit := modify (λ s,
  mkCacheService (cs_state s) (cs_cache_hits s) (cs_cache_misses s) (cs_evictions s) (vec_push t (cs_spawned s))).

(** ** Statuses and messages (cmx.proto) *)
Inductive Status :=
  | InvalidArgument (msg : string)
  | ResourceExhausted (msg : string)
  | NotFound (msg : string)
  | DataLoss (msg : string)
  | OtherStatus (msg : string).              (* a failure of the transport *)

(** Handlers that may fail, and the [?] operator. *)
Abbreviation handler A := (M CacheService (result A Status)).
Definition ok {A} (a : A) : handler A := mret (Ok a).
Definition fail {A} (e : Status) : handler A := mret (Err e).
Definition and_then {A B} (m : handler A) (k : A → handler B) : handler B :=
  r ← m; match r with Ok a => k a | Err e => fail e end.
Notation "x ←? m ; k" := (and_then m (λ x, k)) (at level 20, m at level 100, k at level 200, right associativity).

Record LookupRequest := mkLookupRequest { lr_prefix_hash : bytes; lr_num_blocks : Z; lr_model_id : string }.
Record BatchLookupRequest := mkBatchLookupRequest { br_prefix_hashes : list bytes; br_model_id : string }.
Record ProtoLocation := mkProtoLocation { pl_node_id : string; pl_offset : Z; pl_size : Z; pl_generation_id : Z }.
Record LookupResponse := mkLookupResponse { lp_found : bool; lp_blocks : list ProtoLocation; lp_is_local : bool }.
Record BatchLookupResponse := mkBatchLookupResponse { bp_found : list bool; bp_blocks : list ProtoLocation }.
Record StoreHeader := mkStoreHeader { sh_prefix_hash : bytes; sh_num_blocks : Z; sh_total_size : Z; sh_model_id : string }.
Inductive StorePayload := StoreHeaderMsg (h : StoreHeader) | StoreData (chunk : bytes).
Record StoreResponse := mkStoreResponse { sr_success : bool; sr_error_message : string; sr_generation_id : Z }.
Record GetRequest := mkGetRequest { gr_prefix_hash : bytes; gr_num_blocks : Z; gr_source_node_id : string; gr_model_id : string }.
Record GetHeader := mkGetHeader { gh_total_size : Z; gh_num_blocks : Z; gh_generation_id : Z }.
Inductive GetPayload := GetHeaderMsg (h : GetHeader) | GetData (chunk : bytes).
Record DeleteResponse := mkDeleteResponse { dr_success : bool; dr_blocks_freed : Z }.
Record StatsResponse := mkStatsResponse {
  sp_total_blocks : Z; sp_used_blocks : Z; sp_cache_hits : Z; sp_cache_misses : Z; sp_evictions : Z;
  sp_memory_used_bytes : Z; sp_memory_total_bytes : Z }.
Record HealthResponse := mkHealthResponse {
  hp_healthy : bool; hp_node_id : string; hp_version : string; hp_uptime_seconds : Z }.

(** A client stream: what each [stream.message().await] yields until the end; the inner
    [option] is the [oneof] payload. *)
Abbreviation store_stream := (list (result (option StorePayload) Status)).

(** ** Keys *)
Definition parse_prefix_hash (bs : bytes) : result bytes Status :=
  if bool_decide (length bs = 16%nat) then Ok bs
  else Err (InvalidArgument "prefix_hash must be exactly 16 bytes").

Section service.
(** [sha2], [crc32fast] and [hex]; [pad] is the content of a header's padding bytes. *)
Context (sha256 : bytes → bytes) (crc32 : bytes → Z) (pad : bytes).

Definition composite_key (model_id : string) (prefix_hash : bytes) : bytes :=
  if bool_decide (model_id = ""%string) then prefix_hash
  else take 16 (sha256 (as_bytes model_id ++ prefix_hash)).

(** ** Lookup *)
Definition proto_location (node_id : string) (loc : BlockLocation) : ProtoLocation :=
  mkProtoLocation node_id (bl_offset loc) (bl_block_size loc) (bl_generation loc).

(** [CacheService::lookup].  The ring's suggestion on a miss is only logged. *)
Definition lookup (req : LookupRequest) : handler LookupResponse :=
  prefix_hash ←? mret (parse_prefix_hash (lr_prefix_hash req));
  let index_key := composite_key (lr_model_id req) prefix_hash in
  found ← on_index (index_lookup index_key);
  self ← gets (λ s, s);
  match found with
  | Some entry =>
      add_hit;;
      ok (mkLookupResponse true (proto_location (node_id self) <$> ie_blocks entry) true)
  | None =>
      match as_remote_index (cs_state self) ≫= λ ri, remote_lookup index_key ri ≫= head with
      | Some first =>
          add_hit;;
          ok (mkLookupResponse true
                [mkProtoLocation (ri_node_id first) (ri_offset first) (ri_size first) (ri_generation first)] false)
      | None =>
          add_miss;;
          ok (mkLookupResponse false [] false)
      end
  end.

(** The loop of [batch_lookup]. *)
Fixpoint batch_loop (model_id : string) (hashes : list bytes) (found : list bool)
    (blocks : list ProtoLocation) : handler BatchLookupResponse :=
  match hashes with
  | [] => ok (mkBatchLookupResponse found blocks)
  | raw_hash :: hashes =>
      prefix_hash ←? mret (parse_prefix_hash raw_hash);
      let index_key := composite_key model_id prefix_hash in
      r ← on_index (index_lookup index_key);
      self ← gets (λ s, s);
      match r with
      | Some entry =>
          add_hit;;
          batch_loop model_id hashes (vec_push true found)
            (blocks ++ (proto_location (node_id self) <$> ie_blocks entry))
      | None => add_miss;; batch_loop model_id hashes (vec_push false found) blocks
      end
  end.

(** [CacheService::batch_lookup]. *)
Definition batch_lookup (req : BatchLookupRequest) : handler BatchLookupResponse :=
  batch_loop (br_model_id req) (br_prefix_hashes req) [] [].

(** ** Store *)

(** [Vec::with_capacity]: a capacity of more than [isize::MAX] bytes panics. *)
Definition with_capacity (n : Z) : M CacheService unit := assert (n <=? 2 ^ 63 - 1).

(** The loop collecting the data chunks. *)
Fixpoint collect_chunks (data : bytes) (stream : store_stream) : result bytes Status :=
  match stream with
  | [] => Ok data
  | Err e :: _ => Err e
  | Ok (Some (StoreData chunk)) :: stream => collect_chunks (data ++ chunk) stream
  | Ok (Some (StoreHeaderMsg _)) :: _ => Err (InvalidArgument "unexpected header in stream")
  | Ok None :: stream => collect_chunks data stream
  end.

(** The first message of a store stream. *)
Definition first_header (stream : store_stream) : result (StoreHeader * store_stream) Status :=
  match stream with
  | [] => Err (InvalidArgument "empty stream")
  | Err e :: _ => Err e
  | Ok (Some (StoreHeaderMsg h)) :: stream => Ok (h, stream)
  | Ok _ :: _ => Err (InvalidArgument "first message must be a header")
  end.

(** [CacheService::store]; [now] is the wall clock in seconds. *)
Definition store (now : Z) (stream : store_stream) : handler StoreResponse :=
  self ← gets (λ s, s);
  if as_pressure_level (cs_state self) >=? PRESSURE_REJECT then
    fail (ResourceExhausted "memory pressure too high — store rejected")
  else
    hs ←? mret (first_header stream);
    let '(header, stream) := hs in
    prefix_hash ←? mret (parse_prefix_hash (sh_prefix_hash header));
    let index_key := composite_key (sh_model_id header) prefix_hash in
    with_capacity (as_usize (sh_total_size header));;
    data ←? mret (collect_chunks [] stream);
    r ← on_allocator (allocate_and_write crc32 pad data);
    match r with
    | None => fail (ResourceExhausted "memory pool exhausted")
    | Some (loc, _) =>
        let generation := bl_generation loc in
        evicted ← on_index (index_insert index_key [loc] now);
        add_evictions (zlen evicted);;
        on_allocator al_stats;;
        match as_metadata (cs_state self) with
        | Some _ => spawn_publish (mkPublishTask index_key (bl_offset loc) (bl_block_size loc) generation)
        | None => mret tt
        end;;
        ok (mkStoreResponse true "" generation)
    end.

(** ** Get *)

(** The handle rebuilt from a location ([pool_id] 0: the only pool). *)
Definition loc_handle (loc : BlockLocation) : BlockHandle :=
  mkBlockHandle 0 (bl_block_index loc) (as_usize (bl_offset loc)) (as_usize (bl_block_size loc)).

(** The handler of [get]: it answers with the entry its sender task will stream. *)
Definition get (req : GetRequest) : handler IndexEntry :=
  prefix_hash ←? mret (parse_prefix_hash (gr_prefix_hash req));
  let index_key := composite_key (gr_model_id req) prefix_hash in
  found ← on_index (index_lookup index_key);
  match found with
  | None => add_miss;; fail (NotFound "prefix hash not found in cache")
  | Some entry => add_hit;; ok entry
  end.

(** [u64::sum], which wraps in a release build. *)
Definition sum_u64 (l : list Z) : Z := foldl (λ acc x, as_u64 (acc + x)) 0 l.

(** The messages of the sender task; [sends] is how many of its sends find the receiver
    still there. *)
Fixpoint send_blocks (sends : nat) (blocks : list BlockLocation) :
    M BlockAllocator (list (result GetPayload Status)) :=
  match blocks with
  | [] => mret []
  | loc :: blocks =>
      r ← read_verified crc32 (loc_handle loc);
      match r, sends with
      | Some data, O => mret []
      | Some data, S sends => rest ← send_blocks sends blocks; mret (Ok (GetData data) :: rest)
      | None, O => mret []
      | None, S _ => mret [Err (DataLoss "block CRC32C verification failed")]
      end
  end.

Definition get_header (entry : IndexEntry) : GetHeader :=
  mkGetHeader (sum_u64 (bl_block_size <$> ie_blocks entry)) (as_u32 (zlen (ie_blocks entry)))
    (match head (ie_blocks entry) with Some b => bl_generation b | None => 0 end).

Definition get_task (sends : nat) (entry : IndexEntry) : M BlockAllocator (list (result GetPayload Status)) :=
  match sends with
  | O => mret []
  | S sends =>
      rest ← send_blocks sends (ie_blocks entry);
      mret (Ok (GetHeaderMsg (get_header entry)) :: rest)
  end.

(** The task run as soon as the handler returned, to a client that stays. *)
Definition get_now (req : GetRequest) : handler (list (result GetPayload Status)) :=
  entry ←? get req;
  msgs ← on_allocator (get_task (S (length (ie_blocks entry))) entry);
  ok msgs.

(** ** Delete *)
Fixpoint free_blocks (blocks : list BlockLocation) : M CacheService unit :=
  match blocks with
  | [] => mret tt
  | loc :: blocks => on_allocator (al_deallocate (loc_handle loc));; free_blocks blocks
  end.

(** [CacheService::delete]. *)
Definition delete_key (prefix_hash : bytes) : handler DeleteResponse :=
  prefix_hash ←? mret (parse_prefix_hash prefix_hash);
  r ← on_index (index_remove prefix_hash);
  match r with
  | Some entry =>
      let blocks_freed := zlen (ie_blocks entry) in
      free_blocks (ie_blocks entry);;
      ok (mkDeleteResponse true blocks_freed)
  | None => ok (mkDeleteResponse false 0)
  end.

(** ** Stats and health *)
Definition stats : handler StatsResponse :=
  pool_stats ← on_allocator al_stats;
  self ← gets (λ s, s);
  ok (mkStatsResponse (as_u64 (ps_total_blocks pool_stats)) (as_u64 (ps_used_blocks pool_stats))
        (cs_cache_hits self) (cs_cache_misses self) (cs_evictions self)
        (as_u64 (ps_used_bytes pool_stats)) (as_u64 (ps_total_bytes pool_stats))).

(** [CacheService::health]; [uptime] is the time since start in seconds. *)
Definition health (uptime : Z) : handler HealthResponse :=
  self ← gets (λ s, s);
  ok (mkHealthResponse (as_pressure_level (cs_state self) <? PRESSURE_REJECT)
        (node_id self) "0.1.0" uptime).
End service.
