(* ===== verification/Frames.v ===== *)
(** * What the handlers of the cache service never change

    Every handler but [store] reads the index, the blocks and the rest of the state, and
    writes only recency, counters and the free list.  [HandlerFrame] is the interface of a
    relation between the states before and after that such writes respect; the handlers
    preserve every such relation.  Who the agent is (Agent) and what it has stored and
    published (System) are instances. *)
From S2P Require Import Prelude Pool Block Allocator Policy Lru Index RemoteIndex Placement Config Metadata Pressure Grpc.
Local Open Scope Z_scope.

Class HandlerFrame (R : relation CacheService) : Prop := {
  hf_preorder :: PreOrder R;
  hf_index i s : R s (set_index i s);
  hf_allocator a s : al_generation a = al_generation (allocator s) → R s (set_allocator a s);
  hf_counters hits misses evictions s :
    R s (mkCacheService (cs_state s) hits misses evictions (cs_spawned s));
}.

(** Calls of the allocator that hand out no generation. *)
Definition same_generation (a a' : BlockAllocator) : Prop := al_generation a' = al_generation a.
#[export] Instance same_generation_preorder : PreOrder same_generation.
Proof. split; unfold same_generation; [by intros a|]. intros a b c. congruence. Qed.

Lemma generation_pool {A} (m : M MemoryPool A) : preserves same_generation (on_pool m).
Proof. by apply preserves_zoom. Qed.
#[export] Hint Resolve generation_pool : frames.

Ltac frame_steps :=
  repeat match goal with
  | |- ∀ _, _ => intros ?
  | |- preserves _ (match ?x with _ => _ end) => destruct x
  | |- preserves _ (_ ≫= _) => apply preserves_bind; [exact _|..]
  | |- preserves _ _ => solve [eauto with frames typeclass_instances]
  end.

Lemma generation_read crc32 h : preserves same_generation (read_verified crc32 h).
Proof. unfold read_verified. frame_steps. Qed.
#[export] Hint Resolve generation_read : frames.
Lemma generation_task crc32 sends entry : preserves same_generation (get_task crc32 sends entry).
Proof.
  assert (∀ n blocks, preserves same_generation (send_blocks crc32 n blocks)) as Hsend.
  { induction n as [|n IH]; intros blocks; cbn [send_blocks]; frame_steps. }
  unfold get_task. frame_steps.
Qed.
#[export] Hint Resolve generation_task : frames.

Section frames.
Context (R : relation CacheService) `{!HandlerFrame R}.
Local Abbreviation keeps m := (preserves R m).

Lemma frame_index {A} (m : M (BlockIndex LruInner) A) : keeps (on_index m).
Proof using HandlerFrame0. intros s. unfold on_index, zoom. destruct (m (index s)) as [o i]. apply hf_index. Qed.
Lemma frame_allocator {A} (m : M BlockAllocator A) : preserves same_generation m → keeps (on_allocator m).
Proof using HandlerFrame0.
  intros Hm s. specialize (Hm (allocator s)). unfold on_allocator, zoom.
  destruct (m (allocator s)) as [o a]. by apply hf_allocator.
Qed.
Lemma frame_add_hit : keeps add_hit.
Proof using HandlerFrame0. apply preserves_modify. intros s. apply hf_counters. Qed.
Lemma frame_add_miss : keeps add_miss.
Proof using HandlerFrame0. apply preserves_modify. intros s. apply hf_counters. Qed.
Lemma frame_add_evictions n : keeps (add_evictions n).
Proof using HandlerFrame0. apply preserves_modify. intros s. apply hf_counters. Qed.
Lemma frame_and_then {A B} (m : handler A) (k : A → handler B) :
  keeps m → (∀ a, keeps (k a)) → keeps (and_then m k).
Proof using HandlerFrame0.
  intros Hm Hk. apply preserves_bind; [exact _|done|]. intros [a|e]; [done|]. apply preserves_ret, _.
Qed.
End frames.
#[export] Hint Resolve frame_index frame_allocator frame_add_hit frame_add_miss frame_add_evictions : frames.

Ltac handler_steps :=
  repeat match goal with
  | |- ∀ _, _ => intros ?
  | |- preserves _ (match ?x with _ => _ end) => destruct x
  | |- preserves _ (and_then _ _) => apply frame_and_then; [exact _|..]
  | |- preserves _ (_ ≫= _) => apply preserves_bind; [exact _|..]
  | |- preserves _ _ => solve [eauto with frames typeclass_instances]
  end.

Section handlers.
Context (R : relation CacheService) `{!HandlerFrame R} (sha256 : bytes → bytes) (crc32 : bytes → Z).
Local Abbreviation keeps m := (preserves R m).

Lemma frame_lookup req : keeps (lookup sha256 req).
Proof using HandlerFrame0. unfold lookup, ok. handler_steps. Qed.
Lemma frame_batch req : keeps (batch_lookup sha256 req).
Proof using HandlerFrame0.
  unfold batch_lookup. generalize (@nil bool) (@nil ProtoLocation).
  induction (br_prefix_hashes req) as [|h hashes IH]; intros; cbn [batch_loop]; unfold ok; handler_steps.
Qed.
Lemma frame_get_now req : keeps (get_now sha256 crc32 req).
Proof using HandlerFrame0. unfold get_now, get, ok, fail. handler_steps. Qed.
Lemma frame_delete h : keeps (delete_key h).
Proof using HandlerFrame0.
  assert (∀ blocks, keeps (free_blocks blocks)) as Hfree.
  { induction blocks as [|loc blocks IH]; cbn [free_blocks]; unfold al_deallocate; handler_steps. }
  unfold delete_key, ok. handler_steps.
Qed.
Lemma frame_stats : keeps stats.
Proof using HandlerFrame0. unfold stats, ok, al_stats. handler_steps. Qed.
Lemma frame_health uptime : keeps (health uptime).
Proof using HandlerFrame0. unfold health, ok. handler_steps. Qed.
End handlers.
#[export] Hint Resolve frame_lookup frame_batch frame_get_now frame_delete frame_stats frame_health : frames.
