(* ===== verification/Service.v ===== *)
(** * What the cache service guarantees

    The invariant that ties the index to the allocator: every entry of the index is one
    live block that holds the entry's data, no two entries share a block, and the blocks
    that are neither free nor indexed are listed as leaked.  Each handler is then described
    by its effect on the recency list of stored items. *)
From S2P Require Import Prelude Pool Block Allocator Policy Lru Index RemoteIndex Placement Config Metadata Pressure Grpc.
Local Open Scope Z_scope.

(** ** The abstract cache *)

(** A stored item: the block that holds it, its data, generation and time of storing. *)
Record item := mkItem { it_index : Z; it_data : bytes; it_gen : Z; it_created : Z }.

Abbreviation kv_cache := (list (bytes * item)).

Definition kv_get (k : bytes) (kv : kv_cache) : option item := (list_to_map kv : gmap bytes item) !! k.
Definition kv_forget (k : bytes) (kv : kv_cache) : kv_cache := filter (λ x, x.1 ≠ k) kv.
(** A hit moves the item to the front. *)
Definition kv_touch (k : bytes) (kv : kv_cache) : kv_cache :=
  match kv_get k kv with Some it => (k, it) :: kv_forget k kv | None => kv end.
(** The items an insertion pushes out, and what remains. *)
Definition kv_displaced (capacity : Z) (k : bytes) (kv : kv_cache) : list item :=
  match kv_get k kv with Some old => [old] | None => (drop (room capacity) kv).*2 end.
Definition kv_kept (capacity : Z) (k : bytes) (kv : kv_cache) : kv_cache :=
  match kv_get k kv with Some _ => kv_forget k kv | None => take (room capacity) kv end.

(** ** The concrete form of an item, for a pool of [bs]-byte blocks with id 0 *)
Definition item_loc (nid bs : Z) (it : item) : BlockLocation :=
  mkBlockLocation nid (it_index it) (it_index it * bs) bs (it_gen it).
Definition item_entry (nid bs : Z) (it : item) : IndexEntry :=
  mkIndexEntry [item_loc nid bs it] (it_created it).
Definition item_live (bs : Z) (it : item) : BlockHandle * bytes :=
  (mkBlockHandle 0 (it_index it) (it_index it * bs) bs, it_data it).

Definition entries (nid bs : Z) (kv : kv_cache) : cache := prod_map id (item_entry nid bs) <$> kv.

Record svc_inv (crc32 : bytes → Z) (nid bs cap : Z) (s : CacheService) (kv : kv_cache)
    (leaked : list item) : Prop := {
  sv_index : index_abs (index s) (entries nid bs kv);
  sv_capacity : bi_capacity (index s) = cap;
  sv_alloc : al_inv crc32 (allocator s, (item_live bs <$> kv.*2 ++ leaked));
  sv_pool : pool_id (al_pool (allocator s)) = 0;
  sv_block_size : block_size (al_pool (allocator s)) = bs;
  sv_node : al_node_id (allocator s) = nid;
}.

(** ** The recency list of items and the recency list of index entries *)
Section entries.
Context (nid bs : Z).
Local Abbreviation entries := (entries nid bs).

Lemma entries_keys kv : (entries kv).*1 = kv.*1.
Proof. unfold Service.entries. rewrite <-list_fmap_compose. by apply list_fmap_ext. Qed.

Lemma entries_assoc k kv : assoc k (entries kv) = item_entry nid bs <$> kv_get k kv.
Proof.
  unfold assoc, kv_get. induction kv as [|[k' it] kv IH]; [by cbn; rewrite !lookup_empty|].
  cbn. destruct (decide (k = k')) as [->|]; [by rewrite !lookup_insert_eq|].
  by rewrite !lookup_insert_ne.
Qed.

Lemma entries_forget k kv : forget k (entries kv) = entries (kv_forget k kv).
Proof.
  unfold forget, kv_forget, Service.entries. induction kv as [|[k' it] kv IH]; [done|].
  rewrite fmap_cons, !filter_cons. cbn [prod_map fst]. unfold id at 1.
  destruct (decide (k' ≠ k)); [|done]. rewrite fmap_cons. by f_equal.
Qed.

Lemma entries_touch k kv :
  lookup_spec k (entries kv) = (item_entry nid bs <$> kv_get k kv, entries (kv_touch k kv)).
Proof.
  unfold lookup_spec, kv_touch. rewrite entries_assoc.
  destruct (kv_get k kv) as [it|]; cbn; [|done]. by rewrite entries_forget.
Qed.

Lemma entries_insert cap k it kv :
  insert_spec cap k (item_entry nid bs it) (entries kv) =
    (match kv_get k kv with Some _ => [] | None => reverse (drop (room cap) kv).*1 end,
     entries ((k, it) :: kv_kept cap k kv)).
Proof.
  unfold insert_spec, kv_kept. rewrite entries_assoc.
  destruct (kv_get k kv) as [old|]; cbn; [by rewrite entries_forget|].
  unfold Service.entries. rewrite <-fmap_drop, <-fmap_take. f_equal.
  f_equal. rewrite <-list_fmap_compose. by apply list_fmap_ext.
Qed.

Lemma entries_delete k kv :
  delete_spec k (entries kv) = (item_entry nid bs <$> kv_get k kv, entries (kv_forget k kv)).
Proof. unfold delete_spec. by rewrite entries_assoc, entries_forget. Qed.
End entries.

Lemma kv_get_split k it kv :
  NoDup kv.*1 → kv_get k kv = Some it → kv ≡ₚ (k, it) :: kv_forget k kv.
Proof.
  intros Hn Hk. unfold kv_get in Hk. apply elem_of_list_to_map in Hk; [|done].
  apply list_elem_of_split in Hk as (l1 & l2 & ->). unfold kv_forget.
  rewrite filter_app, filter_cons_False by (cbn; tauto).
  rewrite fmap_app, fmap_cons in Hn. cbn in Hn.
  assert ((k ∉ l1.*1) ∧ (k ∉ l2.*1)) as [H1 H2].
  { apply NoDup_app in Hn as (_ & Hd & [Hk _]%NoDup_cons). split; [|done].
    intros Hin. apply (Hd k Hin). apply list_elem_of_here. }
  assert (∀ l : kv_cache, k ∉ l.*1 → filter (λ x, x.1 ≠ k) l = l) as Hf.
  { intros l Hl. apply filter_all, Forall_forall. intros [k' i'] Hin Heq. cbn in Heq. subst.
    apply Hl. by apply (list_elem_of_fmap_2 fst _ (k, i')). }
  rewrite !Hf by done. by rewrite Permutation_middle.
Qed.

Lemma kv_touch_perm k kv : NoDup kv.*1 → kv_touch k kv ≡ₚ kv.
Proof.
  intros Hn. unfold kv_touch. destruct (kv_get k kv) as [it|] eqn:Hk; [|done].
  symmetry. by apply kv_get_split.
Qed.

Lemma kv_displaced_perm cap k kv : NoDup kv.*1 →
  (kv_kept cap k kv).*2 ++ kv_displaced cap k kv ≡ₚ kv.*2.
Proof.
  intros Hn. unfold kv_kept, kv_displaced. destruct (kv_get k kv) as [it|] eqn:Hk.
  - etrans; [|symmetry; apply (fmap_Permutation snd), (kv_get_split k it kv Hn Hk)]. cbn.
    by rewrite Permutation_app_comm.
  - by rewrite <-fmap_app, take_drop.
Qed.

(** The allocator's invariant does not depend on the order of the live blocks. *)
Lemma al_inv_perm crc32 a live live' : live ≡ₚ live' → al_inv crc32 (a, live) → al_inv crc32 (a, live').
Proof.
  intros Hp [Hwf Hf Hb Hg Ho Hh]. split; cbn in *; try done.
  - unfold owns in *. by rewrite <-Hp.
  - by rewrite <-Hp.
Qed.

(** ** Steps of the handlers *)
Lemma and_then_Ok {A B} (r : result A Status) (k : A → handler B) a s :
  r = Ok a → and_then (mret r) k s = k a s.
Proof. by intros ->. Qed.

Lemma and_then_Err {A B} (r : result A Status) (k : A → handler B) e s :
  r = Err e → and_then (mret r) k s = (Ret (Err e), s).
Proof. by intros ->. Qed.

Lemma on_index_eq {A} (m : M (BlockIndex LruInner) A) s o i :
  m (index s) = (o, i) → on_index m s = (o, set_index i s).
Proof. intros Hm. unfold on_index, zoom. by rewrite Hm. Qed.

Lemma on_allocator_eq {A} (m : M BlockAllocator A) s o a :
  m (allocator s) = (o, a) → on_allocator m s = (o, set_allocator a s).
Proof. intros Hm. unfold on_allocator, zoom. by rewrite Hm. Qed.

Lemma set_allocator_id s : set_allocator (allocator s) s = s.
Proof. by destruct s as [[]]. Qed.
Lemma set_index_id s : set_index (index s) s = s.
Proof. by destruct s as [[]]. Qed.

(** The part of the state no cache handler writes. *)
Definition frame (s s' : CacheService) : Prop :=
  let st := cs_state s in let st' := cs_state s' in
  as_node_id st' = as_node_id st ∧ as_config st' = as_config st ∧ as_metadata st' = as_metadata st ∧
  as_pressure_level st' = as_pressure_level st ∧ as_remote_index st' = as_remote_index st ∧
  as_hash_ring st' = as_hash_ring st.

Global Instance frame_preorder : PreOrder frame.
Proof. split; unfold frame; [by intros s|]. intros s1 s2 s3. intuition congruence. Qed.

Section handlers.
Context (sha256 : bytes → bytes) (crc32 : bytes → Z) (pad : bytes) (nid bs cap : Z).
Context (Hpad : zlen pad = 4) (Hcrc : ∀ d, is_u32 (crc32 d)).
Local Abbreviation inv := (svc_inv crc32 nid bs cap).
Implicit Types (s : CacheService) (kv : kv_cache) (leaked : list item).

(** The invariant only concerns the index and the allocator. *)
Lemma svc_inv_ext s s' kv leaked :
  index s' = index s → allocator s' = allocator s → inv s kv leaked → inv s' kv leaked.
Proof. intros Hi Ha [????]. split; rewrite ?Hi, ?Ha; done. Qed.

Lemma svc_NoDup s kv leaked : inv s kv leaked → NoDup kv.*1.
Proof. intros Hs. rewrite <-(entries_keys nid bs). eapply index_abs_NoDup, sv_index, Hs. Qed.

Lemma svc_inv_lookup s kv leaked k :
  inv s kv leaked →
  ∃ i', on_index (index_lookup k) s = (Ret (item_entry nid bs <$> kv_get k kv), set_index i' s) ∧
    inv (set_index i' s) (kv_touch k kv) leaked.
Proof.
  intros Hs. destruct (lookup_ok _ _ k (sv_index _ _ _ _ _ _ _ Hs)) as (i' & Hi & Ha & Hc).
  rewrite entries_touch in Hi, Ha. cbn in Hi, Ha. exists i'.
  split; [by apply on_index_eq|]. pose proof (svc_NoDup _ _ _ Hs) as Hn.
  destruct Hs as [_ Hcap Hal Hp Hb Hnd]. split; try done.
  - by rewrite <-Hcap.
  - eapply al_inv_perm; [|exact Hal]. apply fmap_Permutation, Permutation_app; [|done].
    symmetry. by apply fmap_Permutation, kv_touch_perm.
Qed.

Lemma svc_inv_remove s kv leaked k :
  inv s kv leaked →
  ∃ i', on_index (index_remove k) s = (Ret (item_entry nid bs <$> kv_get k kv), set_index i' s) ∧
    index_abs i' (entries nid bs (kv_forget k kv)) ∧ bi_capacity i' = cap.
Proof.
  intros Hs. destruct (remove_ok _ _ k (sv_index _ _ _ _ _ _ _ Hs)) as (i' & Hi & Ha & Hc).
  rewrite entries_delete in Hi, Ha. exists i'. split; [by apply on_index_eq|].
  split; [done|]. rewrite Hc. apply Hs.
Qed.

(** The allocation of a store: refused, or a fresh block holding the data. *)
Lemma svc_allocate s kv leaked data now :
  inv s kv leaked →
  let p := al_pool (allocator s) in
  (on_allocator (allocate_and_write crc32 pad data) s = (Ret None, s) ∧
     (bs < HEADER_SIZE + zlen data ∨ free_list p = [])) ∨
  (∃ i h a', let it := mkItem i data (al_generation (allocator s)) now in
     on_allocator (allocate_and_write crc32 pad data) s =
       (Ret (Some (item_loc nid bs it, h)), set_allocator a' s) ∧
     HEADER_SIZE + zlen data ≤ bs ∧ free_list p = vec_push i (free_list (al_pool a')) ∧
     al_generation a' = as_u64 (al_generation (allocator s) + 1) ∧
     al_inv crc32 (a', item_live bs it :: (item_live bs <$> kv.*2 ++ leaked)) ∧
     pool_id (al_pool a') = 0 ∧ block_size (al_pool a') = bs ∧ al_node_id a' = nid).
Proof using Hpad.
  intros [_ _ Hal Hp Hb Hn] p. pose proof Hal as [Hwf Hf Hbb _ _ _]. cbn in *.
  destruct (allocate_and_write crc32 pad data (allocator s)) as [o a'] eqn:Ha.
  destruct (allocate_and_write_cases _ _ _ _ _ _ Hwf Hf (proj1 Hbb) Hpad Ha)
    as [(-> & -> & Hc)|(i & free & Hcap & Hfl & -> & -> & Hi)].
  - left. rewrite Hb in Hc. split; [|done].
    by rewrite (on_allocator_eq _ _ _ _ Ha), set_allocator_id.
  - right. exists i, (block_handle (al_pool (allocator s)) i). eexists. cbn zeta.
    rewrite (on_allocator_eq _ _ _ _ Ha).
    assert (block_loc (allocator s) i = item_loc nid bs (mkItem i data (al_generation (allocator s)) now)) as ->
      by (unfold block_loc, item_loc; cbn; by rewrite Hn, Hb).
    split; [done|]. split; [lia|]. split; [done|]. split; [done|]. split; [|done].
    replace (item_live bs _) with (block_handle (al_pool (allocator s)) i, data)
      by (unfold block_handle, item_live; cbn; by rewrite Hp, Hb).
    by apply al_inv_write.
Qed.

(** Indexing a freshly written item. *)
Lemma svc_insert s kv leaked k it a' :
  inv s kv leaked →
  al_inv crc32 (a', item_live bs it :: (item_live bs <$> kv.*2 ++ leaked)) →
  pool_id (al_pool a') = 0 → block_size (al_pool a') = bs → al_node_id a' = nid →
  ∃ i' evicted, let s' := set_index i' (set_allocator a' s) in
    on_index (index_insert k [item_loc nid bs it] (it_created it)) (set_allocator a' s) = (Ret evicted, s') ∧
    zlen evicted = match kv_get k kv with Some _ => 0 | None => zlen (kv_displaced cap k kv) end ∧
    inv s' ((k, it) :: kv_kept cap k kv) (kv_displaced cap k kv ++ leaked).
Proof.
  intros Hs Hal Hp Hb Hn. pose proof (svc_NoDup _ _ _ Hs) as Hnd.
  destruct Hs as [Hi Hcap _ _ _ _].
  destruct (insert_ok (index s) _ k [item_loc nid bs it] (it_created it) Hi) as (i' & Hins & Ha & Hc).
  change (mkIndexEntry _ _) with (item_entry nid bs it) in Hins, Ha.
  rewrite Hcap, entries_insert in Hins, Ha. cbn in Hins, Ha. eexists i', _.
  split; [apply on_index_eq; exact Hins|]. split.
  - unfold kv_displaced. destruct (kv_get k kv); [done|]. unfold zlen.
    by rewrite length_reverse, !length_fmap.
  - split; try done; [by rewrite <-Hcap|].
    eapply al_inv_perm; [|exact Hal]. cbn [fmap list_fmap app snd].
    constructor. rewrite app_assoc. apply fmap_Permutation, Permutation_app; [|done].
    symmetry. by apply kv_displaced_perm.
Qed.

(** A well-formed store stream: the key and the data it asks to store. *)
Definition store_asks (stream : store_stream) (k data : bytes) : Prop :=
  ∃ header rest, first_header stream = Ok (header, rest) ∧
    length (sh_prefix_hash header) = 16%nat ∧
    as_usize (sh_total_size header) ≤ 2 ^ 63 - 1 ∧
    collect_chunks [] rest = Ok data ∧
    k = composite_key sha256 (sh_model_id header) (sh_prefix_hash header).

Lemma parse_16 h : length h = 16%nat → parse_prefix_hash h = Ok h.
Proof. intros Hl. unfold parse_prefix_hash. by rewrite bool_decide_true. Qed.

Local Abbreviation store := (store sha256 crc32 pad).
Local Abbreviation get := (get sha256).
Local Abbreviation get_now := (get_now sha256 crc32).

(** [store] up to the allocation. *)
Lemma store_prefix s now stream k data :
  as_pressure_level (cs_state s) < PRESSURE_REJECT → store_asks stream k data →
  store now stream s =
    (r ← on_allocator (allocate_and_write crc32 pad data);
     match r with
     | None => fail (ResourceExhausted "memory pool exhausted")
     | Some (loc, _) =>
         evicted ← on_index (index_insert k [loc] now);
         add_evictions (zlen evicted);;
         on_allocator al_stats;;
         match as_metadata (cs_state s) with
         | Some _ => spawn_publish (mkPublishTask k (bl_offset loc) (bl_block_size loc) (bl_generation loc))
         | None => mret tt
         end;;
         ok (mkStoreResponse true "" (bl_generation loc))
     end) s.
Proof.
  intros Hpr (header & rest & Hf & Hl & Ht & Hc & ->). unfold Grpc.store.
  erewrite bind_Ret by reflexivity. destruct (Z.geb_spec (as_pressure_level (cs_state s)) PRESSURE_REJECT); [lia|].
  rewrite (and_then_Ok _ _ _ _ Hf). rewrite (and_then_Ok _ _ _ _ (parse_16 _ Hl)).
  unfold with_capacity, assert. rewrite (proj2 (Z.leb_le _ _) Ht).
  erewrite bind_Ret by reflexivity. by rewrite (and_then_Ok _ _ _ _ Hc).
Qed.

Lemma al_stats_pure a : ∃ st, al_stats a = (Ret st, a).
Proof. eexists. unfold al_stats. by apply on_pool_Ret. Qed.

(** What a successful store does to the rest of the service. *)
Definition after_store s k (loc : BlockLocation) i' a' (evicted : list bytes) : CacheService :=
  let s := set_index i' (set_allocator a' s) in
  mkCacheService (cs_state s) (cs_cache_hits s) (cs_cache_misses s) (as_u64 (cs_evictions s + zlen evicted))
    match as_metadata (cs_state s) with
    | Some _ => vec_push (mkPublishTask k (bl_offset loc) (bl_block_size loc) (bl_generation loc)) (cs_spawned s)
    | None => cs_spawned s
    end.

Lemma store_ok s kv leaked now stream k data :
  inv s kv leaked → as_pressure_level (cs_state s) < PRESSURE_REJECT → store_asks stream k data →
  (store now stream s = (Ret (Err (ResourceExhausted "memory pool exhausted")), s) ∧
     (bs < HEADER_SIZE + zlen data ∨ free_list (al_pool (allocator s)) = [])) ∨
  (∃ i s' (evicted : list bytes), let it := mkItem i data (al_generation (allocator s)) now in
     store now stream s = (Ret (Ok (mkStoreResponse true "" (it_gen it))), s') ∧
     HEADER_SIZE + zlen data ≤ bs ∧
     free_list (al_pool (allocator s)) = vec_push i (free_list (al_pool (allocator s'))) ∧
     inv s' ((k, it) :: kv_kept cap k kv) (kv_displaced cap k kv ++ leaked) ∧
     frame s s' ∧
     zlen evicted = match kv_get k kv with Some _ => 0 | None => zlen (kv_displaced cap k kv) end ∧
     cs_evictions s' = as_u64 (cs_evictions s + zlen evicted) ∧
     cs_cache_hits s' = cs_cache_hits s ∧ cs_cache_misses s' = cs_cache_misses s ∧
     cs_spawned s' =
       match as_metadata (cs_state s) with
       | Some _ => vec_push (mkPublishTask k (it_index it * bs) bs (it_gen it)) (cs_spawned s)
       | None => cs_spawned s
       end ∧
     al_generation (allocator s') = as_u64 (al_generation (allocator s) + 1)).
Proof using Hpad.
  intros Hs Hpr Hasks. rewrite (store_prefix _ _ _ _ _ Hpr Hasks).
  destruct (svc_allocate s kv leaked data now Hs)
    as [[Ha Hwhy]|(i & h & a' & Ha & Hfit & Hfree & Hgen & Hal & Hp & Hb & Hn)].
  - left. by rewrite (bind_Ret _ _ _ _ _ Ha).
  - right. set (it := mkItem i data (al_generation (allocator s)) now) in *.
    destruct (svc_insert s kv leaked k it a' Hs Hal Hp Hb Hn) as (i' & ev & Hins & Hev & Hinv).
    destruct (al_stats_pure a') as [st Hst].
    exists i, (after_store s k (item_loc nid bs it) i' a' ev), ev. cbn zeta.
    split; [|split; [done|split; [done|split; [by eapply svc_inv_ext; [..|exact Hinv]|by split_and!]]]].
    rewrite (bind_Ret _ _ _ _ _ Ha). rewrite (bind_Ret _ _ _ _ _ Hins).
    erewrite bind_Ret by reflexivity.
    erewrite bind_Ret by (apply on_allocator_eq; exact Hst).
    unfold after_store. cbn. destruct (as_metadata (cs_state s)); by munfold.
Qed.

(** Reading an item back. *)
Lemma item_live_block s it :
  pool_id (al_pool (allocator s)) = 0 → block_size (al_pool (allocator s)) = bs →
  (item_live bs it).1 = block_handle (al_pool (allocator s)) (it_index it).
Proof. intros Hp Hb. unfold block_handle, item_live. cbn. by rewrite Hp, Hb. Qed.

Lemma svc_held s kv leaked it :
  inv s kv leaked → it ∈ kv.*2 ++ leaked →
  loc_handle (item_loc nid bs it) = block_handle (al_pool (allocator s)) (it_index it) ∧
  0 ≤ it_index it < total_blocks (al_pool (allocator s)) ∧
  ∃ g, is_u64 g ∧ block_holds crc32 (al_pool (allocator s)) (it_index it) (it_data it) g.
Proof.
  intros [_ _ Hal Hp Hb _] Hin. pose proof Hal as [Hwf _ _ _ _ Hh]. cbn in *.
  rewrite Forall_forall in Hh. destruct (Hh (item_live bs it)) as (i & g & Heq & Hi & Hg & Hbh).
  { by apply list_elem_of_fmap_2. }
  cbn in Heq, Hbh. injection Heq as _ <- _ _. split; [|by eauto].
  pose proof (block_index_usize _ _ Hwf Hi) as Hus. rewrite Hb in Hus.
  unfold loc_handle, block_handle, item_loc. cbn. rewrite Hp, Hb, as_usize_id by done.
  f_equal. apply as_usize_id. pose proof (wf_block_size _ Hwf) as Hpos. destruct Hwf.
  rewrite Hb in *. unfold is_usize, is_u64 in *. nia.
Qed.

Lemma svc_read s kv leaked it :
  inv s kv leaked → it ∈ kv.*2 ++ leaked →
  read_verified crc32 (loc_handle (item_loc nid bs it)) (allocator s) = (Ret (Some (it_data it)), allocator s).
Proof using Hcrc.
  intros Hs Hin. destruct (svc_held _ _ _ _ Hs Hin) as (-> & Hi & g & Hg & Hbh).
  destruct Hs as [_ _ [Hwf _ Hbb _ _ _] _ _ _]. cbn in *.
  apply (read_verified_holds crc32 _ _ _ g); try done.
  pose proof (zlen_nonneg (it_data it)).
  pose proof (block_holds_size _ _ _ _ _ Hwf Hi Hbh). unfold is_u32, HEADER_SIZE in *. lia.
Qed.

(** ** Get *)
Definition get_key (req : GetRequest) : bytes :=
  composite_key sha256 (gr_model_id req) (gr_prefix_hash req).

(** The stream of an item: its header, then its data. *)
Definition item_stream (it : item) : list (result GetPayload Status) :=
  [Ok (GetHeaderMsg (mkGetHeader bs 1 (it_gen it))); Ok (GetData (it_data it))].

Lemma kv_get_elem k it kv : kv_get k kv = Some it → it ∈ kv.*2.
Proof.
  intros Hk. unfold kv_get in Hk. apply elem_of_list_to_map_2 in Hk.
  by apply (list_elem_of_fmap_2 snd _ (k, it)).
Qed.

(** The sender task of an item that is still live. *)
Lemma get_task_ok s kv leaked it :
  inv s kv leaked → it ∈ kv.*2 ++ leaked →
  get_task crc32 2 (item_entry nid bs it) (allocator s) = (Ret (item_stream it), allocator s).
Proof using Hcrc.
  intros Hs Hin. unfold get_task. cbn [item_entry ie_blocks send_blocks].
  pose proof (svc_read _ _ _ _ Hs Hin) as Hr.
  assert (send_blocks crc32 1 [item_loc nid bs it] (allocator s) =
            (Ret [Ok (GetData (it_data it))], allocator s)) as Hsend.
  { cbn [send_blocks]. by rewrite (bind_Ret _ _ _ _ _ Hr). }
  rewrite (bind_Ret _ _ _ _ _ Hsend). unfold item_stream. do 3 f_equal.
  assert (sum_u64 [bs] = bs) as Hsum.
  { unfold sum_u64. cbn [foldl]. rewrite Z.add_0_l. apply as_u64_id.
    destruct Hs as [_ _ [[] _ _ _ _ _] _ <- _]. cbn in *. unfold is_usize, is_u64 in *. nia. }
  unfold get_header. cbn [item_entry ie_blocks fmap list_fmap item_loc bl_block_size head].
  by rewrite Hsum.
Qed.

Lemma get_hit s kv leaked req it :
  inv s kv leaked → length (gr_prefix_hash req) = 16%nat → kv_get (get_key req) kv = Some it →
  ∃ s', get req s = (Ret (Ok (item_entry nid bs it)), s') ∧
    inv s' (kv_touch (get_key req) kv) leaked ∧ frame s s' ∧ allocator s' = allocator s ∧
    cs_cache_hits s' = as_u64 (cs_cache_hits s + 1) ∧ cs_cache_misses s' = cs_cache_misses s ∧
    cs_evictions s' = cs_evictions s.
Proof.
  intros Hs Hl Hk. destruct (svc_inv_lookup s kv leaked (get_key req) Hs) as (i' & Hi & Hs').
  rewrite Hk in Hi. cbn in Hi. eexists. split.
  - unfold Grpc.get. rewrite (and_then_Ok _ _ _ _ (parse_16 _ Hl)). rewrite (bind_Ret _ _ _ _ _ Hi).
    by erewrite bind_Ret by reflexivity.
  - split; [by eapply svc_inv_ext; [..|exact Hs']|by split_and!].
Qed.

Lemma get_now_hit s kv leaked req it :
  inv s kv leaked → length (gr_prefix_hash req) = 16%nat → kv_get (get_key req) kv = Some it →
  ∃ s', get_now req s = (Ret (Ok (item_stream it)), s') ∧
    inv s' (kv_touch (get_key req) kv) leaked ∧ frame s s' ∧ allocator s' = allocator s ∧
    cs_cache_hits s' = as_u64 (cs_cache_hits s + 1) ∧ cs_cache_misses s' = cs_cache_misses s ∧
    cs_evictions s' = cs_evictions s.
Proof using Hcrc.
  intros Hs Hl Hk. destruct (get_hit s kv leaked req it Hs Hl Hk) as (s1 & Hg & Hs1 & Hf & Hc).
  exists s1. split; [|done]. unfold Grpc.get_now, and_then at 1.
  rewrite (bind_Ret _ _ _ _ _ Hg).
  assert (get_task crc32 2 (item_entry nid bs it) (allocator s1) = (Ret (item_stream it), allocator s1)) as Ht.
  { apply (get_task_ok _ _ _ _ Hs1). apply elem_of_app. left. unfold kv_touch. rewrite Hk. cbn.
    apply list_elem_of_here. }
  erewrite bind_Ret by (apply on_allocator_eq; exact Ht). by rewrite set_allocator_id.
Qed.

Lemma get_miss s kv leaked req :
  inv s kv leaked → length (gr_prefix_hash req) = 16%nat → kv_get (get_key req) kv = None →
  ∃ s', get req s = (Ret (Err (NotFound "prefix hash not found in cache")), s') ∧
    inv s' kv leaked ∧ frame s s' ∧ allocator s' = allocator s ∧
    cs_cache_hits s' = cs_cache_hits s ∧ cs_cache_misses s' = as_u64 (cs_cache_misses s + 1) ∧
    cs_evictions s' = cs_evictions s.
Proof.
  intros Hs Hl Hk. destruct (svc_inv_lookup s kv leaked (get_key req) Hs) as (i' & Hi & Hs').
  unfold kv_touch in Hs'. rewrite Hk in Hi, Hs'. cbn in Hi. eexists. split.
  - unfold Grpc.get. rewrite (and_then_Ok _ _ _ _ (parse_16 _ Hl)). rewrite (bind_Ret _ _ _ _ _ Hi).
    by erewrite bind_Ret by reflexivity.
  - split; [by eapply svc_inv_ext; [..|exact Hs']|by split_and!].
Qed.

Lemma get_now_Err s req e s' : get req s = (Ret (Err e), s') → get_now req s = (Ret (Err e), s').
Proof. intros Hg. unfold Grpc.get_now, and_then at 1. by rewrite (bind_Ret _ _ _ _ _ Hg). Qed.

(** ** Delete *)
Lemma delete_hit s kv leaked h it :
  inv s kv leaked → length h = 16%nat → kv_get h kv = Some it →
  ∃ s', delete_key h s = (Ret (Ok (mkDeleteResponse true 1)), s') ∧
    inv s' (kv_forget h kv) leaked ∧ frame s s' ∧
    free_list (al_pool (allocator s')) = vec_push (it_index it) (free_list (al_pool (allocator s))) ∧
    cs_cache_hits s' = cs_cache_hits s ∧ cs_cache_misses s' = cs_cache_misses s ∧
    cs_evictions s' = cs_evictions s.
Proof.
  intros Hs Hl Hk. destruct (svc_inv_remove s kv leaked h Hs) as (i' & Hi & Ha & Hc).
  rewrite Hk in Hi. cbn in Hi.
  destruct (svc_held s kv leaked it Hs) as (Hh & Hr & _).
  { apply elem_of_app. left. by eapply kv_get_elem. }
  destruct (al_deallocate_ok (allocator s) (it_index it)) as [Hd _];
    [apply (ai_wf _ _ (sv_alloc _ _ _ _ _ _ _ Hs))|done|].
  pose proof (svc_NoDup _ _ _ Hs) as Hnd.
  destruct Hs as [_ _ Hal Hp Hb Hn]. eexists (set_allocator _ (set_index i' s)).
  split; [|split; [|split; [done|]]].
  - unfold delete_key. rewrite (and_then_Ok _ _ _ _ (parse_16 _ Hl)).
    rewrite (bind_Ret _ _ _ _ _ Hi). cbn [item_entry ie_blocks free_blocks]. rewrite Hh.
    erewrite bind_Ret; [reflexivity|]. erewrite bind_Ret by (apply on_allocator_eq; exact Hd). reflexivity.
  - split; [exact Ha|done| |done|done|done].
    apply (al_step_inv crc32 (allocator s, [] ++ item_live bs it :: (item_live bs <$> (kv_forget h kv).*2 ++ leaked))).
    + eapply (al_step_free crc32 (allocator s) [] _ (it_data it)).
      replace (mkBlockHandle 0 (it_index it) (it_index it * bs) bs)
        with (block_handle (al_pool (allocator s)) (it_index it))
        by (unfold block_handle; by rewrite Hp, Hb). exact Hd.
    + eapply al_inv_perm; [|exact Hal]. cbn [app].
      change (item_live bs it :: (item_live bs <$> (kv_forget h kv).*2 ++ leaked))
        with (item_live bs <$> ((h, it) :: kv_forget h kv).*2 ++ leaked).
      apply fmap_Permutation, Permutation_app; [|done]. by apply fmap_Permutation, kv_get_split.
  - by split_and!.
Qed.

Lemma kv_forget_None k kv : kv_get k kv = None → kv_forget k kv = kv.
Proof.
  intros Hk. unfold kv_get in Hk. apply not_elem_of_list_to_map in Hk. apply filter_all, Forall_forall.
  intros [k' it] Hin Heq. cbn in Heq. subst. apply Hk. by apply (list_elem_of_fmap_2 fst _ (k, it)).
Qed.

Lemma delete_miss s kv leaked h :
  inv s kv leaked → length h = 16%nat → kv_get h kv = None →
  ∃ s', delete_key h s = (Ret (Ok (mkDeleteResponse false 0)), s') ∧ inv s' kv leaked ∧ frame s s' ∧
    allocator s' = allocator s ∧ cs_cache_hits s' = cs_cache_hits s ∧
    cs_cache_misses s' = cs_cache_misses s ∧ cs_evictions s' = cs_evictions s.
Proof.
  intros Hs Hl Hk. destruct (svc_inv_remove s kv leaked h Hs) as (i' & Hi & Ha & Hc).
  rewrite Hk in Hi. rewrite kv_forget_None in Ha by done. cbn in Hi.
  exists (set_index i' s). split; [|split; [|by split_and!]].
  - unfold delete_key. rewrite (and_then_Ok _ _ _ _ (parse_16 _ Hl)).
    by rewrite (bind_Ret _ _ _ _ _ Hi).
  - destruct Hs as [_ _ Hal Hp Hb Hn]. by split.
Qed.

(** ** Lookup and batch lookup *)
Lemma kv_get_perm k kv kv' : NoDup kv.*1 → kv ≡ₚ kv' → kv_get k kv = kv_get k kv'.
Proof. intros Hn Hp. unfold kv_get. by rewrite (list_to_map_proper kv kv'). Qed.

(** The reply of [lookup] for a key. *)
Definition lookup_reply s kv (k : bytes) : LookupResponse :=
  match kv_get k kv with
  | Some it => mkLookupResponse true [proto_location (as_node_id (cs_state s)) (item_loc nid bs it)] true
  | None =>
      match as_remote_index (cs_state s) ≫= λ ri, remote_lookup k ri ≫= head with
      | Some first =>
          mkLookupResponse true
            [mkProtoLocation (ri_node_id first) (ri_offset first) (ri_size first) (ri_generation first)] false
      | None => mkLookupResponse false [] false
      end
  end.

(** The counters after an answer that was a hit or a miss. *)
Definition counted (found : bool) s s' : Prop :=
  cs_cache_hits s' = (if found then as_u64 (cs_cache_hits s + 1) else cs_cache_hits s) ∧
  cs_cache_misses s' = (if found then cs_cache_misses s else as_u64 (cs_cache_misses s + 1)) ∧
  cs_evictions s' = cs_evictions s.

Lemma lookup_svc s kv leaked req :
  inv s kv leaked → length (lr_prefix_hash req) = 16%nat →
  let k := composite_key sha256 (lr_model_id req) (lr_prefix_hash req) in
  ∃ s', lookup sha256 req s = (Ret (Ok (lookup_reply s kv k)), s') ∧
    inv s' (kv_touch k kv) leaked ∧ frame s s' ∧ allocator s' = allocator s ∧
    counted (lp_found (lookup_reply s kv k)) s s'.
Proof.
  intros Hs Hl k. destruct (svc_inv_lookup s kv leaked k Hs) as (i' & Hi & Hs').
  unfold lookup. rewrite (and_then_Ok _ _ _ _ (parse_16 _ Hl)). fold k.
  rewrite (bind_Ret _ _ _ _ _ Hi). erewrite bind_Ret by reflexivity. unfold lookup_reply.
  destruct (kv_get k kv) as [it|] eqn:Hk; cbn [fmap option_fmap option_map].
  - eexists. split; [by erewrite bind_Ret by reflexivity|].
    split; [by eapply svc_inv_ext; [..|exact Hs']|]. by split_and!.
  - cbn [cs_state set_index set_state as_remote_index].
    destruct (as_remote_index (cs_state s) ≫= _) as [first|];
      (eexists; split; [by erewrite bind_Ret by reflexivity|];
       split; [by eapply svc_inv_ext; [..|exact Hs']|]; by split_and!).
Qed.

(** The reply of [batch_lookup]: one flag per hash, the local blocks in order. *)
Definition batch_found (model : string) kv (hashes : list bytes) : list bool :=
  (λ h, bool_decide (is_Some (kv_get (composite_key sha256 model h) kv))) <$> hashes.
Definition batch_blocks (node model : string) kv (hashes : list bytes) : list ProtoLocation :=
  hashes ≫= λ h, match kv_get (composite_key sha256 model h) kv with
                 | Some it => [proto_location node (item_loc nid bs it)]
                 | None => []
                 end.

Lemma batch_reply_ext node model kv kv' hashes :
  (∀ k, kv_get k kv = kv_get k kv') →
  batch_found model kv hashes = batch_found model kv' hashes ∧
  batch_blocks node model kv hashes = batch_blocks node model kv' hashes.
Proof.
  intros Hk. unfold batch_found, batch_blocks. split.
  - apply list_fmap_ext. intros j h _. by rewrite Hk.
  - apply list_bind_ext; [|done]. intros h. by rewrite Hk.
Qed.

(** A batch touches the keys in order; it only reorders the cache. *)
Lemma batch_svc model hashes found blocks s kv leaked :
  inv s kv leaked → Forall (λ h, length h = 16%nat) hashes →
  ∃ s' kv', batch_loop sha256 model hashes found blocks s =
      (Ret (Ok (mkBatchLookupResponse (found ++ batch_found model kv hashes)
                  (blocks ++ batch_blocks (as_node_id (cs_state s)) model kv hashes))), s') ∧
    inv s' kv' leaked ∧ kv' ≡ₚ kv ∧ frame s s' ∧ allocator s' = allocator s ∧
    cs_evictions s' = cs_evictions s.
Proof.
  intros Hs Hl. revert found blocks s kv Hs.
  induction Hl as [|h hashes Hh Hl IH]; intros found blocks s kv Hs.
  { exists s, kv. unfold batch_found, batch_blocks.
    cbn [batch_loop fmap list_fmap mbind list_bind]. by rewrite !app_nil_r. }
  set (k := composite_key sha256 model h).
  destruct (svc_inv_lookup s kv leaked k Hs) as (i' & Hi & Hs').
  pose proof (kv_touch_perm k kv (svc_NoDup _ _ _ Hs)) as Hp.
  cbn [batch_loop]. rewrite (and_then_Ok _ _ _ _ (parse_16 _ Hh)). fold k.
  rewrite (bind_Ret _ _ _ _ _ Hi). erewrite bind_Ret by reflexivity.
  assert (∀ k', kv_get k' (kv_touch k kv) = kv_get k' kv) as Hsame.
  { intros k'. apply kv_get_perm; [by eapply svc_NoDup|done]. }
  destruct (batch_reply_ext (as_node_id (cs_state s)) model _ _ hashes Hsame) as [Hfound Hblocks].
  unfold batch_found at 1, batch_blocks at 1. cbn [fmap list_fmap mbind list_bind]. fold k.
  destruct (kv_get k kv) as [it|] eqn:Hk; cbn [fmap option_fmap option_map];
    erewrite bind_Ret by reflexivity;
    match goal with |- context [batch_loop _ _ _ ?f ?b ?s1] =>
      assert (inv s1 (kv_touch k kv) leaked) as Hs1 by (by eapply svc_inv_ext; [..|exact Hs']);
      destruct (IH f b s1 _ Hs1) as (s2 & kv2 & Hrun & Hs2 & Hp2 & Hf & Ha & He) end;
    exists s2, kv2; (split; [|split; [done|split; [by rewrite Hp2|done]]]);
    rewrite Hrun; cbn [cs_state set_index set_state as_node_id];
    rewrite Hfound, Hblocks; unfold vec_push;
    [rewrite bool_decide_true by eauto|rewrite bool_decide_false by (by intros [])];
    rewrite <-!app_assoc; done.
Qed.

(** A batch with a malformed hash stops there. *)
Lemma batch_bad model hashes found blocks s kv leaked :
  inv s kv leaked → ¬ Forall (λ h, length h = 16%nat) hashes →
  ∃ s' kv', batch_loop sha256 model hashes found blocks s =
      (Ret (Err (InvalidArgument "prefix_hash must be exactly 16 bytes")), s') ∧
    inv s' kv' leaked ∧ kv' ≡ₚ kv ∧ frame s s' ∧ allocator s' = allocator s ∧
    cs_evictions s' = cs_evictions s.
Proof.
  revert found blocks s kv. induction hashes as [|h hashes IH]; intros found blocks s kv Hs Hbad.
  { by destruct Hbad. }
  cbn [batch_loop]. destruct (decide (length h = 16%nat)) as [Hh|Hh].
  - set (k := composite_key sha256 model h).
    destruct (svc_inv_lookup s kv leaked k Hs) as (i' & Hi & Hs').
    pose proof (kv_touch_perm k kv (svc_NoDup _ _ _ Hs)) as Hp.
    rewrite (and_then_Ok _ _ _ _ (parse_16 _ Hh)). fold k.
    rewrite (bind_Ret _ _ _ _ _ Hi). erewrite bind_Ret by reflexivity.
    destruct (kv_get k kv) as [it|]; cbn [fmap option_fmap option_map];
      erewrite bind_Ret by reflexivity;
      match goal with |- context [batch_loop _ _ _ ?f ?b ?s1] =>
        assert (inv s1 (kv_touch k kv) leaked) as Hs1 by (by eapply svc_inv_ext; [..|exact Hs']);
        destruct (IH f b s1 _ Hs1) as (s2 & kv2 & Hrun & Hs2 & Hp2 & Hf);
          [intros Hall; apply Hbad; by constructor|] end;
      exists s2, kv2; (split; [done|split; [done|split; [by rewrite Hp2|done]]]).
  - exists s, kv. rewrite (and_then_Err (parse_prefix_hash h) _ (InvalidArgument "prefix_hash must be exactly 16 bytes"));
      [done|]. unfold parse_prefix_hash. by rewrite bool_decide_false.
Qed.

(** ** Stats *)
Lemma al_stats_svc s kv leaked :
  inv s kv leaked →
  let p := al_pool (allocator s) in
  let used := zlen kv + zlen leaked in
  al_stats (allocator s) =
    (Ret (Build_PoolStats (total_blocks p) used (zlen (free_list p)) (total_size p) (used * bs)), allocator s) ∧
  zlen (free_list p) + used = total_blocks p.
Proof.
  intros Hs p used. pose proof Hs as [_ _ [Hwf _ _ _ Ho _] _ Hb _]. cbn in Hwf, Ho. fold p in Hwf, Ho, Hb.
  assert (zlen (bh_block_index ∘ fst <$> (item_live bs <$> kv.*2 ++ leaked)) = used) as Hlen.
  { unfold zlen, used. rewrite !length_fmap, length_app, length_fmap. unfold zlen. lia. }
  assert (zlen (free_list p) + used = total_blocks p) as Hsum.
  { rewrite <-Hlen. apply owns_length; [done|]. pose proof (wf_total_blocks _ Hwf). lia. }
  split; [|done]. unfold al_stats. apply on_pool_Ret. fold p.
  rewrite (pool_stats_owns p Hwf _ Ho), Hlen, Hb. by replace (total_blocks p - used) with (zlen (free_list p)) by lia.
Qed.

Lemma stats_svc s kv leaked :
  inv s kv leaked →
  let p := al_pool (allocator s) in
  let used := zlen kv + zlen leaked in
  stats s = (Ret (Ok (mkStatsResponse (total_blocks p) used (cs_cache_hits s) (cs_cache_misses s)
                        (cs_evictions s) (used * bs) (total_size p))), s) ∧
  zlen (free_list p) + used = total_blocks p.
Proof.
  intros Hs p used. destruct (al_stats_svc _ _ _ Hs) as [Hst Hsum]. fold p used in Hst, Hsum.
  split; [|done]. pose proof Hs as [_ _ [Hwf _ _ _ _ _] _ Hb _]. cbn in Hwf. fold p in Hwf, Hb.
  pose proof (zlen_nonneg (free_list p)). pose proof (zlen_nonneg kv).
  pose proof (zlen_nonneg leaked). destruct Hwf.
  unfold stats. erewrite bind_Ret by (apply on_allocator_eq; exact Hst).
  rewrite set_allocator_id. erewrite bind_Ret by reflexivity. cbn.
  unfold is_usize in *. rewrite !as_u64_id; [done|unfold is_u64 in *; nia..].
Qed.
End handlers.
