(* ===== verification/Trace.v ===== *)
(** * The agent under any sequence of requests

    [serve] runs one event of the agent to completion: a request of any of the seven kinds,
    a tick of the pressure monitor or a message of the etcd watches.  A panic ends the
    request's task; the shared state stays as it was left.  The theorems relate every
    reachable state to what the clients were told. *)
From S2P Require Import Prelude Float64 Pool Block Allocator Policy Lru Index RemoteIndex Placement Config Metadata Pressure Grpc Service.
Local Open Scope Z_scope.

Inductive request (wire : Type) :=
  | ReqLookup (req : LookupRequest)
  | ReqBatch (req : BatchLookupRequest)
  | ReqStore (now : Z) (stream : store_stream)
  | ReqGet (req : GetRequest)
  | ReqDelete (prefix_hash : bytes)
  | ReqStats
  | ReqHealth (uptime : Z)
  | ReqTick
  | ReqWatch (msg : watch_msg wire).
Arguments ReqLookup {wire} req.
Arguments ReqBatch {wire} req.
Arguments ReqStore {wire} now stream.
Arguments ReqGet {wire} req.
Arguments ReqDelete {wire} prefix_hash.
Arguments ReqStats {wire}.
Arguments ReqHealth {wire} uptime.
Arguments ReqTick {wire}.
Arguments ReqWatch {wire} msg.

Inductive reply :=
  | RepLookup (r : result LookupResponse Status)
  | RepBatch (r : result BatchLookupResponse Status)
  | RepStore (r : result StoreResponse Status)
  | RepGet (r : result (list (result GetPayload Status)) Status)
  | RepDelete (r : result DeleteResponse Status)
  | RepStats (r : result StatsResponse Status)
  | RepHealth (r : result HealthResponse Status)
  | RepDone.

Definition is_delete {wire} (rq : request wire) : bool :=
  match rq with ReqDelete _ => true | _ => false end.

Definition set_pressure (level : Z) (s : CacheService) : CacheService :=
  let st := cs_state s in
  set_state (mkAgentState (as_allocator st) (as_index st) (as_node_id st) (as_config st) (as_metadata st)
               level (as_remote_index st) (as_hash_ring st)) s.
Definition set_cluster (ri : option RemoteIndex) (hr : option HashRing) (s : CacheService) : CacheService :=
  let st := cs_state s in
  set_state (mkAgentState (as_allocator st) (as_index st) (as_node_id st) (as_config st) (as_metadata st)
               (as_pressure_level st) ri hr) s.

(** One turn of the monitor [main] starts with the configured thresholds. *)
Definition monitor_turn : M CacheService unit :=
  st ← on_allocator al_stats;
  modify (λ s, let mem := cfg_memory (as_config (cs_state s)) in
    set_pressure (pressure_tick (cfg_pressure_warn mem) (cfg_pressure_critical mem) (cfg_pressure_reject mem)
                    st (as_pressure_level (cs_state s))).1 s).

Section serve.
Context {wire : Type} `{!Codec wire}.
Context (sha256 : bytes → bytes) (crc32 : bytes → Z) (pad : bytes).

(** The watches update the remote index and the ring the service reads. *)
Definition watch_turn (m : watch_msg wire) : M CacheService unit := modify (λ s,
  match as_remote_index (cs_state s) with
  | None => s
  | Some ri =>
      match watch_step sha256 (ri, as_hash_ring (cs_state s)) m with
      | Some (ri', hr') => set_cluster (Some ri') hr' s
      | None => s
      end
  end).

Definition serve (rq : request wire) : M CacheService reply :=
  match rq with
  | ReqLookup req => r ← lookup sha256 req; mret (RepLookup r)
  | ReqBatch req => r ← batch_lookup sha256 req; mret (RepBatch r)
  | ReqStore now stream => r ← store sha256 crc32 pad now stream; mret (RepStore r)
  | ReqGet req => r ← get_now sha256 crc32 req; mret (RepGet r)
  | ReqDelete h => r ← delete_key h; mret (RepDelete r)
  | ReqStats => r ← stats; mret (RepStats r)
  | ReqHealth t => r ← health t; mret (RepHealth r)
  | ReqTick => monitor_turn;; mret RepDone
  | ReqWatch m => watch_turn m;; mret RepDone
  end.

(** What the clients of a run saw, and the final state. *)
Fixpoint run (rqs : list (request wire)) (s : CacheService) :
    list (request wire * outcome reply) * CacheService :=
  match rqs with
  | [] => ([], s)
  | rq :: rqs =>
      let '(o, s1) := serve rq s in
      let '(tr, s2) := run rqs s1 in
      ((rq, o) :: tr, s2)
  end.

(** ** What a client can conclude from the replies *)

(** The key and the data of a well-formed store stream. *)
Definition store_target (stream : store_stream) : option (bytes * bytes) :=
  match first_header stream with
  | Err _ => None
  | Ok (header, rest) =>
      if bool_decide (length (sh_prefix_hash header) = 16%nat) &&
         (as_usize (sh_total_size header) <=? 2 ^ 63 - 1) then
        match collect_chunks [] rest with
        | Ok data => Some (composite_key sha256 (sh_model_id header) (sh_prefix_hash header), data)
        | Err _ => None
        end
      else None
  end.

(** What was last stored under each key and not deleted since, as the data and the generation
    the store was acknowledged with, and the numbers of acknowledged stores and of blocks
    reported freed. *)
Record ledger := mkLedger { lg_map : gmap bytes (bytes * Z); lg_stores : Z; lg_freed : Z }.

Definition ledger_step (g : ledger) (x : request wire * outcome reply) : ledger :=
  match x with
  | (ReqStore _ stream, Ret (RepStore (Ok resp))) =>
      match store_target stream with
      | Some (k, data) => mkLedger (<[k := (data, sr_generation_id resp)]> (lg_map g)) (lg_stores g + 1) (lg_freed g)
      | None => g
      end
  | (ReqDelete h, Ret (RepDelete (Ok resp))) =>
      if dr_success resp then mkLedger (delete h (lg_map g)) (lg_stores g) (lg_freed g + dr_blocks_freed resp)
      else g
  | _ => g
  end.

Definition ledger_of (tr : list (request wire * outcome reply)) : ledger :=
  foldl ledger_step (mkLedger ∅ 0 0) tr.

Lemma store_target_asks stream k data :
  store_target stream = Some (k, data) ↔ store_asks sha256 stream k data.
Proof using Type.
  clear crc32 pad. unfold store_target, store_asks. destruct (first_header stream) as [[header rest]|e]; [|naive_solver].
  case_bool_decide; cbn; [|naive_solver].
  destruct (Z.leb_spec (as_usize (sh_total_size header)) (2 ^ 63 - 1)).
  - destruct (collect_chunks [] rest) as [d|e] eqn:Hcc.
    + split; [intros [= <- <-]; by eauto 10|]. intros (?&?&[= <- <-]&?&?&Hd&->). congruence.
    + split; [done|]. intros (?&?&[= <- <-]&?&?&Hd&->). congruence.
  - split; [done|]. intros (?&?&[= <- <-]&?&?&?). lia.
Qed.

(** A store refused before the allocation leaves everything as it was. *)
Lemma store_refused s now stream :
  PRESSURE_REJECT ≤ as_pressure_level (cs_state s) ∨ store_target stream = None →
  ∃ o, store sha256 crc32 pad now stream s = (o, s) ∧ (o = Panic ∨ ∃ e, o = Ret (Err e)).
Proof.
  intros Hc. unfold store. erewrite bind_Ret by reflexivity.
  destruct (Z.geb_spec (as_pressure_level (cs_state s)) PRESSURE_REJECT) as [|Hlt]; [eauto|].
  destruct Hc as [?|Hc]; [lia|]. revert Hc. unfold store_target.
  destruct (first_header stream) as [[header rest]|e] eqn:Hf; [|intros _; rewrite (and_then_Err _ _ e); eauto].
  rewrite (and_then_Ok _ _ (header, rest)) by done. unfold parse_prefix_hash.
  case_bool_decide; cbn [andb]; [|intros _; by erewrite and_then_Err; eauto].
  erewrite and_then_Ok by done. unfold with_capacity, assert.
  destruct (Z.leb_spec (as_usize (sh_total_size header)) (2 ^ 63 - 1)); [|intros _; eexists; split; [reflexivity|by left]].
  destruct (collect_chunks [] rest) as [d|e] eqn:Hcc; [done|intros _].
  erewrite bind_Ret by reflexivity. rewrite (and_then_Err _ _ e); eauto.
Qed.

Lemma store_panic_cause s now stream :
  PRESSURE_REJECT ≤ as_pressure_level (cs_state s) ∨ store_target stream = None →
  store sha256 crc32 pad now stream s = (Panic, s) →
  ∃ header rest, first_header stream = Ok (header, rest) ∧ 2 ^ 63 ≤ as_usize (sh_total_size header).
Proof.
  intros Hc. unfold store. erewrite bind_Ret by reflexivity.
  destruct (Z.geb_spec (as_pressure_level (cs_state s)) PRESSURE_REJECT) as [|Hlt]; [done|].
  destruct Hc as [?|Hc]; [lia|]. revert Hc. unfold store_target.
  destruct (first_header stream) as [[header rest]|e] eqn:Hf; [|by rewrite (and_then_Err _ _ e)].
  rewrite (and_then_Ok _ _ (header, rest)) by done. unfold parse_prefix_hash.
  case_bool_decide; cbn [andb]; [|by erewrite and_then_Err].
  erewrite and_then_Ok by done. unfold with_capacity, assert.
  destruct (Z.leb_spec (as_usize (sh_total_size header)) (2 ^ 63 - 1)) as [|Hbig].
  - destruct (collect_chunks [] rest) as [d|e] eqn:Hcc; [done|intros _].
    erewrite bind_Ret by reflexivity. by rewrite (and_then_Err _ _ e).
  - intros _ _. exists header, rest. split; [done|]. lia.
Qed.
End serve.

(** ** The cache as a map *)
Lemma kv_get_cons k k' it kv :
  kv_get k ((k', it) :: kv) = if decide (k = k') then Some it else kv_get k kv.
Proof.
  unfold kv_get. cbn. destruct (decide (k = k')) as [->|]; [by rewrite lookup_insert_eq|].
  by rewrite lookup_insert_ne.
Qed.

Lemma kv_get_forget k k' kv : kv_get k (kv_forget k' kv) = if decide (k = k') then None else kv_get k kv.
Proof.
  unfold kv_forget. induction kv as [|[k0 it] kv IH]; [unfold kv_get; by case_decide|].
  rewrite filter_cons, (kv_get_cons k k0). cbn [fst].
  destruct (decide (k0 ≠ k')) as [|Heq]; [rewrite kv_get_cons, IH|apply dec_stable in Heq; rewrite IH];
    repeat case_decide; congruence.
Qed.

Lemma kv_get_take k n kv it : NoDup kv.*1 → kv_get k (take n kv) = Some it → kv_get k kv = Some it.
Proof.
  intros Hn Hk. unfold kv_get in *. apply elem_of_list_to_map_2 in Hk.
  apply elem_of_list_to_map; [done|]. apply elem_of_take in Hk as (i & Hi & _).
  by eapply list_elem_of_lookup_2.
Qed.

Lemma kv_kept_get cap k k' kv it :
  NoDup kv.*1 → k' ≠ k → kv_get k' (kv_kept cap k kv) = Some it → kv_get k' kv = Some it.
Proof.
  intros Hn Hne. unfold kv_kept. destruct (kv_get k kv).
  - rewrite kv_get_forget. by case_decide.
  - by apply kv_get_take.
Qed.

(** With room for another entry nothing is evicted. *)
Lemma kv_kept_all cap k kv :
  zlen kv < cap →
  (kv_get k kv = None → kv_displaced cap k kv = []) ∧
  (∀ k', k' ≠ k → kv_get k' (kv_kept cap k kv) = kv_get k' kv).
Proof.
  unfold zlen. intros Hlen. unfold kv_kept, kv_displaced, room.
  destruct (kv_get k kv).
  - split; [done|]. intros k' Hne. rewrite kv_get_forget. by case_decide.
  - split; [by rewrite drop_ge by lia|]. intros k' Hne. by rewrite take_ge by lia.
Qed.

Lemma zlen_kept cap k kv : NoDup kv.*1 → zlen (kv_kept cap k kv) + zlen (kv_displaced cap k kv) = zlen kv.
Proof.
  intros Hn. pose proof (Permutation_length (kv_displaced_perm cap k kv Hn)) as Hl.
  rewrite length_app, !length_fmap in Hl. unfold zlen. lia.
Qed.

(** ** The invariant of runs *)
Create HintDb trace.

Section invariant.
Context {wire : Type} `{!Codec wire}.
Context (sha256 : bytes → bytes) (crc32 : bytes → Z) (pad : bytes) (nid bs cap tb : Z).
Context (Hpad : zlen pad = 4) (Hcrc : ∀ d, is_u32 (crc32 d)).

Record trace_inv (s : CacheService) (g : ledger) (kv : kv_cache) (leaked : list item) : Prop := {
  ti_svc : svc_inv crc32 nid bs cap s kv leaked;
  ti_total : total_blocks (al_pool (allocator s)) = tb;
  ti_agree : ∀ k it, kv_get k kv = Some it → lg_map g !! k = Some (it_data it, it_gen it);
  ti_complete : tb ≤ cap → ∀ k, is_Some (lg_map g !! k) → is_Some (kv_get k kv);
  ti_count : zlen kv + zlen leaked = lg_stores g - lg_freed g;
  ti_evictions : tb ≤ cap → cs_evictions s = 0;
}.

Implicit Types (s : CacheService) (g : ledger).

(** The blocks of [kv] and [leaked] are still those of live items. *)
Definition keeps (kv : kv_cache) (leaked : list item) (kv' : kv_cache) (leaked' : list item) : Prop :=
  ∀ it, it ∈ kv.*2 ++ leaked → it ∈ kv'.*2 ++ leaked'.

Lemma keeps_refl kv leaked : keeps kv leaked kv leaked.
Proof. by intros it. Qed.
#[local] Hint Resolve keeps_refl : trace.

Lemma keeps_perm kv kv' leaked : kv' ≡ₚ kv → keeps kv leaked kv' leaked.
Proof. intros Hp it. by rewrite (fmap_Permutation snd _ _ Hp). Qed.

Lemma keeps_store k it kv leaked : NoDup kv.*1 →
  keeps kv leaked ((k, it) :: kv_kept cap k kv) (kv_displaced cap k kv ++ leaked).
Proof.
  intros Hn it' Hit. rewrite <-(kv_displaced_perm cap k kv Hn) in Hit. cbn [fmap list_fmap snd].
  rewrite !elem_of_app in Hit. rewrite elem_of_app, elem_of_cons, elem_of_app. tauto.
Qed.

(** A step that only reorders the cache. *)
Lemma trace_inv_perm s g kv leaked s' kv' :
  trace_inv s g kv leaked → svc_inv crc32 nid bs cap s' kv' leaked → kv' ≡ₚ kv →
  allocator s' = allocator s → cs_evictions s' = cs_evictions s → trace_inv s' g kv' leaked.
Proof.
  intros [Hs Ht Hag Hco Hct Hev] Hs' Hp Ha He.
  assert (∀ k, kv_get k kv' = kv_get k kv) as Hk
    by (intros k; apply kv_get_perm; [by eapply svc_NoDup|done]).
  split; [done|by rewrite Ha| | | |by rewrite He].
  - intros k it. rewrite Hk. apply Hag.
  - intros Hle k. rewrite Hk. by apply Hco.
  - unfold zlen. rewrite Hp. exact Hct.
Qed.

Lemma trace_inv_store s g kv leaked now stream :
  trace_inv s g kv leaked →
  let '(o, s') := serve sha256 crc32 pad (ReqStore now stream) s in
  ∃ kv' leaked', trace_inv s' (ledger_step sha256 g (ReqStore (wire := wire) now stream, o)) kv' leaked' ∧
    keeps kv leaked kv' leaked'.
Proof using Hpad.
  intros Hinv. cbn [serve].
  destruct (decide (PRESSURE_REJECT ≤ as_pressure_level (cs_state s) ∨ store_target sha256 stream = None)) as [Hc|Hc].
  { destruct (store_refused sha256 crc32 pad s now stream Hc) as (o & Ho & [->|[e ->]]).
    - rewrite (bind_Panic _ _ _ _ Ho). exists kv, leaked; split; [done|auto with trace].
    - rewrite (bind_Ret _ _ _ _ _ Ho). exists kv, leaked; split; [done|auto with trace]. }
  destruct (store_target sha256 stream) as [[k data]|] eqn:Htgt; [|tauto].
  pose proof Htgt as Hasks. apply store_target_asks in Hasks.
  destruct Hinv as [Hs Ht Hag Hco Hct Hev].
  destruct (store_ok sha256 crc32 pad nid bs cap Hpad s kv leaked now stream k data Hs ltac:(lia) Hasks)
    as [[Ho _]|(i & s' & ev & Ho & _ & Hfree & Hs' & _ & Hzev & Hevs & _)].
  { rewrite (bind_Ret _ _ _ _ _ Ho). exists kv, leaked; split; [done|auto with trace]. }
  rewrite (bind_Ret _ _ _ _ _ Ho). cbn [ledger_step mret M_ret]. rewrite Htgt.
  pose proof (svc_NoDup _ _ _ _ _ _ _ Hs) as Hn. pose proof (zlen_kept cap k kv Hn) as Hkept.
  destruct (stats_svc _ _ _ _ _ _ _ Hs) as [_ Hsum]. destruct (stats_svc _ _ _ _ _ _ _ Hs') as [_ Hsum'].
  pose proof (zlen_nonneg leaked). rewrite Hfree in Hsum. unfold vec_push in Hsum. rewrite zlen_app in Hsum.
  change (zlen [i]) with 1 in Hsum. rewrite zlen_app in Hsum'.
  pose proof (zlen_nonneg (free_list (al_pool (allocator s')))).
  change (zlen ((k, _) :: kv_kept cap k kv)) with (Z.of_nat (S (length (kv_kept cap k kv)))) in Hsum'.
  assert (tb ≤ cap → zlen kv < cap) as Hroom by lia.
  exists ((k, mkItem i data (al_generation (allocator s)) now) :: kv_kept cap k kv), (kv_displaced cap k kv ++ leaked).
  split; [|by apply keeps_store]. split; cbn [lg_map lg_stores lg_freed].
  - exact Hs'.
  - unfold zlen in *. lia.
  - intros k' it. rewrite kv_get_cons. case_decide as Hd; [intros [= <-]; subst; by rewrite lookup_insert_eq|].
    intros Hk. rewrite lookup_insert_ne by done. by apply Hag, (kv_kept_get cap k).
  - intros Hle k'. rewrite kv_get_cons. case_decide as Hd; [by eauto|].
    rewrite lookup_insert_ne by done. destruct (kv_kept_all cap k kv (Hroom Hle)) as [_ ->]; [|done]. by apply Hco.
  - rewrite zlen_app. unfold zlen in *. cbn [length]. lia.
  - intros Hle. rewrite Hevs, (Hev Hle).
    assert (zlen ev = 0) as ->; [|done]. rewrite Hzev.
    destruct (kv_get k kv) eqn:Hkk; [done|].
    destruct (kv_kept_all cap k kv (Hroom Hle)) as [Hd _]. by rewrite Hd.
Qed.

(** A store is answered unless its header announces more than [isize::MAX] bytes. *)
Lemma store_answers s kv leaked now stream :
  svc_inv crc32 nid bs cap s kv leaked →
  (∃ r s', store sha256 crc32 pad now stream s = (Ret r, s')) ∨
  (store sha256 crc32 pad now stream s = (Panic, s) ∧
   ∃ header rest, first_header stream = Ok (header, rest) ∧ 2 ^ 63 ≤ as_usize (sh_total_size header)).
Proof using Hpad.
  intros Hs.
  destruct (decide (PRESSURE_REJECT ≤ as_pressure_level (cs_state s) ∨ store_target sha256 stream = None)) as [Hc|Hc].
  - destruct (store_refused sha256 crc32 pad s now stream Hc) as (o & Ho & [->|[e ->]]); [|by eauto].
    right. split; [done|]. by eapply store_panic_cause.
  - left. destruct (store_target sha256 stream) as [[k data]|] eqn:Htgt; [|tauto].
    apply store_target_asks in Htgt.
    destruct (store_ok sha256 crc32 pad nid bs cap Hpad s kv leaked now stream k data Hs ltac:(lia) Htgt)
      as [[Ho _]|(i & s' & ev & Ho & _)]; by eauto.
Qed.

Lemma trace_inv_delete s g kv leaked h :
  trace_inv s g kv leaked →
  let '(o, s') := serve sha256 crc32 pad (ReqDelete h) s in
  ∃ kv' leaked', trace_inv s' (ledger_step sha256 g (ReqDelete (wire := wire) h, o)) kv' leaked'.
Proof.
  intros Hinv. pose proof Hinv as [Hs Ht Hag Hco Hct Hev]. cbn [serve].
  destruct (decide (length h = 16%nat)) as [Hl|Hl].
  2: { assert (delete_key h s = (Ret (Err (InvalidArgument "prefix_hash must be exactly 16 bytes")), s)) as Hd.
       { unfold delete_key. apply and_then_Err. unfold parse_prefix_hash. by rewrite bool_decide_false. }
       rewrite (bind_Ret _ _ _ _ _ Hd). by exists kv, leaked. }
  destruct (kv_get h kv) as [it|] eqn:Hk.
  - destruct (delete_hit _ _ _ _ _ _ _ _ _ Hs Hl Hk) as (s' & Hd & Hs' & _ & Hfree & _ & _ & He).
    rewrite (bind_Ret _ _ _ _ _ Hd). exists (kv_forget h kv), leaked. cbn.
    pose proof (Permutation_length (kv_get_split h it kv (svc_NoDup _ _ _ _ _ _ _ Hs) Hk)) as Hlen.
    destruct (stats_svc _ _ _ _ _ _ _ Hs) as [_ Hsum]. destruct (stats_svc _ _ _ _ _ _ _ Hs') as [_ Hsum'].
    rewrite Hfree in Hsum'. unfold vec_push in Hsum'. rewrite zlen_app in Hsum'.
    change (zlen [it_index it]) with 1 in Hsum'. cbn [length] in Hlen.
    split; cbn [lg_map lg_stores lg_freed]; [done|unfold zlen in *; lia| | |unfold zlen in *; lia|].
    + intros k' it'. rewrite kv_get_forget. case_decide; [done|].
      rewrite lookup_delete_ne by done. apply Hag.
    + intros Hle k'. rewrite kv_get_forget. case_decide as Hd'.
      * subst. rewrite lookup_delete_eq. by intros [].
      * rewrite lookup_delete_ne by done. by apply Hco.
    + intros Hle. rewrite He. by apply Hev.
  - destruct (delete_miss _ _ _ _ _ _ _ _ Hs Hl Hk) as (s' & Hd & Hs' & _ & Ha & _ & _ & He).
    rewrite (bind_Ret _ _ _ _ _ Hd). exists kv, leaked. cbn.
    by eapply trace_inv_perm; [| |reflexivity|..].
Qed.

Lemma trace_inv_get s g kv leaked req :
  trace_inv s g kv leaked →
  let '(o, s') := serve sha256 crc32 pad (ReqGet req) s in
  ∃ kv', trace_inv s' (ledger_step sha256 g (ReqGet (wire := wire) req, o)) kv' leaked ∧ kv' ≡ₚ kv.
Proof using Hcrc.
  intros Hinv. pose proof (ti_svc _ _ _ _ Hinv) as Hs. cbn [serve].
  destruct (decide (length (gr_prefix_hash req) = 16%nat)) as [Hl|Hl].
  2: { assert (get sha256 req s = (Ret (Err (InvalidArgument "prefix_hash must be exactly 16 bytes")), s)) as Hd.
       { unfold get. apply and_then_Err. unfold parse_prefix_hash. by rewrite bool_decide_false. }
       rewrite (bind_Ret _ _ _ _ _ (get_now_Err _ crc32 _ _ _ _ Hd)). exists kv; by split. }
  destruct (kv_get (get_key sha256 req) kv) as [it|] eqn:Hk.
  - destruct (get_now_hit sha256 _ _ _ _ Hcrc _ _ _ _ _ Hs Hl Hk) as (s1 & Hg & Hs1 & _ & Ha & _ & _ & He).
    rewrite (bind_Ret _ _ _ _ _ Hg). exists (kv_touch (get_key sha256 req) kv). cbn.
    assert (kv_touch (get_key sha256 req) kv ≡ₚ kv) as Hp by (by eapply kv_touch_perm, svc_NoDup).
    split; [|done]. by eapply trace_inv_perm.
  - destruct (get_miss sha256 _ _ _ _ _ _ _ _ Hs Hl Hk) as (s1 & Hg & Hs1 & _ & Ha & _ & _ & He).
    rewrite (bind_Ret _ _ _ _ _ (get_now_Err _ crc32 _ _ _ _ Hg)). exists kv. cbn.
    split; [|done]. by eapply trace_inv_perm.
Qed.

Lemma trace_inv_lookup s g kv leaked req :
  trace_inv s g kv leaked →
  let '(o, s') := serve (wire := wire) sha256 crc32 pad (ReqLookup req) s in
  ∃ kv', trace_inv s' g kv' leaked ∧ kv' ≡ₚ kv.
Proof.
  intros Hinv. pose proof (ti_svc _ _ _ _ Hinv) as Hs. cbn [serve].
  destruct (decide (length (lr_prefix_hash req) = 16%nat)) as [Hl|Hl].
  - destruct (lookup_svc sha256 _ _ _ _ _ _ _ _ Hs Hl) as (s1 & Hg & Hs1 & _ & Ha & _ & _ & He).
    rewrite (bind_Ret _ _ _ _ _ Hg). eexists.
    assert (kv_touch (composite_key sha256 (lr_model_id req) (lr_prefix_hash req)) kv ≡ₚ kv) as Hp
      by (by eapply kv_touch_perm, svc_NoDup).
    split; [|exact Hp]. by eapply trace_inv_perm.
  - assert (lookup sha256 req s = (Ret (Err (InvalidArgument "prefix_hash must be exactly 16 bytes")), s)) as Hd.
    { unfold lookup. apply and_then_Err. unfold parse_prefix_hash. by rewrite bool_decide_false. }
    rewrite (bind_Ret _ _ _ _ _ Hd). exists kv; by split.
Qed.

Lemma trace_inv_batch s g kv leaked req :
  trace_inv s g kv leaked →
  let '(o, s') := serve (wire := wire) sha256 crc32 pad (ReqBatch req) s in
  ∃ kv', trace_inv s' g kv' leaked ∧ kv' ≡ₚ kv.
Proof.
  intros Hinv. pose proof (ti_svc _ _ _ _ Hinv) as Hs. cbn [serve]. unfold batch_lookup.
  destruct (decide (Forall (λ h, length h = 16%nat) (br_prefix_hashes req))) as [Hl|Hl].
  - destruct (batch_svc sha256 _ _ _ _ (br_model_id req) _ [] [] _ _ _ Hs Hl) as (s1 & kv1 & Hg & Hs1 & Hp & _ & Ha & He).
    rewrite (bind_Ret _ _ _ _ _ Hg). exists kv1. split; [|done]. by eapply trace_inv_perm.
  - destruct (batch_bad sha256 _ _ _ _ (br_model_id req) _ [] [] _ _ _ Hs Hl) as (s1 & kv1 & Hg & Hs1 & Hp & _ & Ha & He).
    rewrite (bind_Ret _ _ _ _ _ Hg). exists kv1. split; [|done]. by eapply trace_inv_perm.
Qed.

(** Steps that touch neither the index nor the allocator. *)
Lemma trace_inv_same s g kv leaked s' :
  trace_inv s g kv leaked → index s' = index s → allocator s' = allocator s →
  cs_evictions s' = cs_evictions s → trace_inv s' g kv leaked.
Proof.
  intros Hinv Hi Ha He. eapply trace_inv_perm; [done| |done|done|done].
  eapply svc_inv_ext; [done|done|]. apply Hinv.
Qed.

Lemma trace_inv_step s g kv leaked rq :
  trace_inv s g kv leaked →
  let '(o, s') := serve sha256 crc32 pad rq s in
  ∃ kv' leaked', trace_inv s' (ledger_step (wire := wire) sha256 g (rq, o)) kv' leaked' ∧
    (is_delete rq = false → keeps kv leaked kv' leaked').
Proof using Hpad Hcrc.
  intros Hinv. pose proof (ti_svc _ _ _ _ Hinv) as Hs.
  destruct rq as [req|req|now stream|req|h| |t| |m].
  - pose proof (trace_inv_lookup s g kv leaked req Hinv) as Hst.
    destruct (serve _ _ _ _ s) as [o s']. destruct Hst as (kv' & Hst & Hp).
    exists kv', leaked. split; [done|]. intros _. by apply keeps_perm.
  - pose proof (trace_inv_batch s g kv leaked req Hinv) as Hst.
    destruct (serve _ _ _ _ s) as [o s']. destruct Hst as (kv' & Hst & Hp).
    exists kv', leaked. split; [done|]. intros _. by apply keeps_perm.
  - pose proof (trace_inv_store s g kv leaked now stream Hinv) as Hst.
    destruct (serve _ _ _ _ s) as [o s']. naive_solver.
  - pose proof (trace_inv_get s g kv leaked req Hinv) as Hst.
    destruct (serve _ _ _ _ s) as [o s']. destruct Hst as (kv' & Hst & Hp).
    exists kv', leaked. split; [done|]. intros _. by apply keeps_perm.
  - pose proof (trace_inv_delete s g kv leaked h Hinv) as Hst.
    destruct (serve _ _ _ _ s) as [o s']. naive_solver.
  - cbn [serve]. destruct (stats_svc _ _ _ _ _ _ _ Hs) as [Hst _].
    rewrite (bind_Ret _ _ _ _ _ Hst). exists kv, leaked; split; [done|auto with trace].
  - exists kv, leaked; split; [done|auto with trace].
  - cbn [serve]. unfold monitor_turn. destruct (al_stats_pure (allocator s)) as [st Hst].
    apply on_allocator_eq in Hst. rewrite set_allocator_id in Hst.
    erewrite bind_Ret by (erewrite bind_Ret by exact Hst; reflexivity).
    exists kv, leaked. split; [|auto with trace]. by eapply trace_inv_same.
  - cbn [serve]. erewrite bind_Ret by reflexivity. exists kv, leaked. split; [|auto with trace].
    eapply trace_inv_same; [done|..]; destruct (as_remote_index (cs_state s)); try done;
      by destruct (watch_step _ _ _) as [[]|].
Qed.

(** Every request is answered, but for stores that announce too many bytes. *)
Lemma serve_answers s g kv leaked rq :
  trace_inv s g kv leaked →
  (∃ rep s', serve sha256 crc32 pad rq s = (Ret rep, s')) ∨
  (serve sha256 crc32 pad rq s = (Panic, s) ∧
   ∃ now header rest stream, rq = ReqStore (wire := wire) now stream ∧ first_header stream = Ok (header, rest) ∧
     2 ^ 63 ≤ as_usize (sh_total_size header)).
Proof using Hpad Hcrc.
  intros Hinv. pose proof (ti_svc _ _ _ _ Hinv) as Hs.
  destruct rq as [req|req|now stream|req|h| |t| |m]; cbn [serve].
  - left. destruct (decide (length (lr_prefix_hash req) = 16%nat)) as [Hl|Hl].
    + destruct (lookup_svc sha256 _ _ _ _ _ _ _ _ Hs Hl) as (s1 & Hg & _).
      rewrite (bind_Ret _ _ _ _ _ Hg). by eexists _, _.
    + erewrite bind_Ret; [by eexists _, _|]. unfold lookup. apply and_then_Err. unfold parse_prefix_hash.
      by rewrite bool_decide_false.
  - left. unfold batch_lookup.
    destruct (decide (Forall (λ h, length h = 16%nat) (br_prefix_hashes req))) as [Hl|Hl];
      [destruct (batch_svc sha256 _ _ _ _ (br_model_id req) _ [] [] _ _ _ Hs Hl) as (s1 & kv1 & Hg & _)
      |destruct (batch_bad sha256 _ _ _ _ (br_model_id req) _ [] [] _ _ _ Hs Hl) as (s1 & kv1 & Hg & _)];
      rewrite (bind_Ret _ _ _ _ _ Hg); by eexists _, _.
  - destruct (store_answers s kv leaked now stream Hs) as [(r & s1 & Hst)|[Hst Hbig]].
    + left. rewrite (bind_Ret _ _ _ _ _ Hst). by eexists _, _.
    + right. rewrite (bind_Panic _ _ _ _ Hst). split; [done|].
      destruct Hbig as (header & rest & ? & ?). by eexists now, header, rest, stream.
  - left. destruct (decide (length (gr_prefix_hash req) = 16%nat)) as [Hl|Hl].
    + destruct (kv_get (get_key sha256 req) kv) as [it|] eqn:Hk.
      * destruct (get_now_hit sha256 _ _ _ _ Hcrc _ _ _ _ _ Hs Hl Hk) as (s1 & Hg & _).
        rewrite (bind_Ret _ _ _ _ _ Hg). by eexists _, _.
      * destruct (get_miss sha256 _ _ _ _ _ _ _ _ Hs Hl Hk) as (s1 & Hg & _).
        rewrite (bind_Ret _ _ _ _ _ (get_now_Err _ crc32 _ _ _ _ Hg)). by eexists _, _.
    + erewrite bind_Ret; [by eexists _, _|]. apply get_now_Err. unfold get. apply and_then_Err.
      unfold parse_prefix_hash. by rewrite bool_decide_false.
  - left. destruct (decide (length h = 16%nat)) as [Hl|Hl].
    + destruct (kv_get h kv) as [it|] eqn:Hk.
      * destruct (delete_hit _ _ _ _ _ _ _ _ _ Hs Hl Hk) as (s1 & Hd & _).
        rewrite (bind_Ret _ _ _ _ _ Hd). by eexists _, _.
      * destruct (delete_miss _ _ _ _ _ _ _ _ Hs Hl Hk) as (s1 & Hd & _).
        rewrite (bind_Ret _ _ _ _ _ Hd). by eexists _, _.
    + erewrite bind_Ret; [by eexists _, _|]. unfold delete_key. apply and_then_Err.
      unfold parse_prefix_hash. by rewrite bool_decide_false.
  - left. destruct (stats_svc _ _ _ _ _ _ _ Hs) as [Hst _].
    rewrite (bind_Ret _ _ _ _ _ Hst). by eexists _, _.
  - left. by eexists _, _.
  - left. unfold monitor_turn. destruct (al_stats_pure (allocator s)) as [st Hst].
    apply on_allocator_eq in Hst. erewrite bind_Ret by (erewrite bind_Ret by exact Hst; reflexivity).
    by eexists _, _.
  - left. by eexists _, _.
Qed.

Lemma trace_inv_run rqs s g kv leaked :
  trace_inv s g kv leaked →
  let '(tr, s') := run sha256 crc32 pad rqs s in
  ∃ kv' leaked', trace_inv s' (foldl (ledger_step (wire := wire) sha256) g tr) kv' leaked' ∧
    (Forall (λ rq, is_delete rq = false) rqs → keeps kv leaked kv' leaked').
Proof using Hpad Hcrc.
  revert s g kv leaked. induction rqs as [|rq rqs IH]; intros s g kv leaked Hinv; cbn [run].
  - exists kv, leaked; split; [done|auto with trace].
  - pose proof (trace_inv_step s g kv leaked rq Hinv) as Hst.
    destruct (serve sha256 crc32 pad rq s) as [o s1]. destruct Hst as (kv1 & leaked1 & Hinv1 & Hk1).
    specialize (IH s1 _ kv1 leaked1 Hinv1). destruct (run sha256 crc32 pad rqs s1) as [tr s2].
    destruct IH as (kv2 & leaked2 & Hinv2 & Hk2). exists kv2, leaked2. split; [done|].
    intros [Hd1 Hd2]%Forall_cons it Hit. by apply Hk2, Hk1.
Qed.

(** A Get answers what the ledger says. *)
Lemma get_agrees s g kv leaked req :
  trace_inv s g kv leaked → length (gr_prefix_hash req) = 16%nat →
  ∃ r s', get_now sha256 crc32 req s = (Ret r, s') ∧
    match lg_map g !! get_key sha256 req with
    | Some (d, gen) => r = Ok [Ok (GetHeaderMsg (mkGetHeader bs 1 gen)); Ok (GetData d)] ∨
                (r = Err (NotFound "prefix hash not found in cache") ∧ cap < tb)
    | None => r = Err (NotFound "prefix hash not found in cache")
    end.
Proof using Hcrc.
  intros [Hs _ Hag Hco _ _] Hl. destruct (kv_get (get_key sha256 req) kv) as [it|] eqn:Hk.
  - destruct (get_now_hit sha256 _ _ _ _ Hcrc _ _ _ _ _ Hs Hl Hk) as (s' & Hg & _).
    eexists _, s'. split; [exact Hg|]. rewrite (Hag _ _ Hk). by left.
  - destruct (get_miss sha256 _ _ _ _ _ _ _ _ Hs Hl Hk) as (s' & Hg & _).
    eexists _, s'. split; [exact (get_now_Err _ _ _ _ _ _ Hg)|].
    destruct (lg_map g !! get_key sha256 req) as [[d gen]|] eqn:Hd; [right|done].
    split; [done|]. destruct (Z.lt_ge_cases cap tb) as [|Hle]; [done|].
    destruct (Hco Hle (get_key sha256 req)) as [it Hit]; [by eexists|]. congruence.
Qed.
End invariant.

Lemma run_requests {wire} `{!Codec wire} sha256 crc32 pad (rqs : list (request wire)) s :
  (run sha256 crc32 pad rqs s).1.*1 = rqs.
Proof.
  revert s. induction rqs as [|rq rqs IH]; intros s; [done|]. cbn [run].
  destruct (serve sha256 crc32 pad rq s) as [o s1]. specialize (IH s1).
  destruct (run sha256 crc32 pad rqs s1) as [tr s2]. cbn in *. by f_equal.
Qed.

(** ** The blocks of a batch *)
Lemma batch_blocks_length sha256 nid bs node model kv (P : bytes → Prop) `{!∀ h, Decision (P h)} hashes :
  (∀ h, P h ↔ is_Some (kv_get (composite_key sha256 model h) kv)) →
  length (batch_blocks sha256 nid bs node model kv hashes) = length (filter P hashes).
Proof.
  intros HP. unfold batch_blocks. induction hashes as [|h hashes IH]; [done|].
  rewrite filter_cons. cbn [mbind list_bind]. rewrite length_app, IH.
  destruct (kv_get (composite_key sha256 model h) kv) as [it|] eqn:Hk; case_decide as Hd; cbn; try done.
  - destruct Hd. apply HP. rewrite Hk. by eexists.
  - apply HP in Hd as [? ?]. congruence.
Qed.

Lemma batch_blocks_Forall sha256 nid bs node model kv hashes :
  Forall (λ b, pl_node_id b = node ∧ pl_size b = bs) (batch_blocks sha256 nid bs node model kv hashes).
Proof.
  unfold batch_blocks. induction hashes as [|h hashes IH]; cbn [mbind list_bind]; [constructor|].
  apply Forall_app. split; [|done]. destruct (kv_get _ kv); repeat constructor.
Qed.

(** ** Fresh services *)

(** A service over an untouched pool whose blocks hold at least a header. *)
Record fresh_service (s : CacheService) : Prop := {
  fs_pool : client_inv (al_pool (allocator s), []);
  fs_pool_id : pool_id (al_pool (allocator s)) = 0;
  fs_blocks : HEADER_SIZE ≤ block_size (al_pool (allocator s)) ≤ 2 ^ 32;
  fs_generation : al_generation (allocator s) = 1;
  fs_index : index s = index_new (bi_capacity (index s));
  fs_evictions : cs_evictions s = 0;
}.

Lemma fresh_trace_inv crc32 s :
  fresh_service s →
  trace_inv crc32 (al_node_id (allocator s)) (block_size (al_pool (allocator s))) (bi_capacity (index s))
    (total_blocks (al_pool (allocator s))) s (mkLedger ∅ 0 0) [] [].
Proof.
  intros [[Hwf Hf Ho _] Hid Hb Hg Hi He]. cbn in *. split; try done.
  - split; try done.
    + rewrite Hi. apply (index_abs_new (P := LruInner)).
    + split; cbn; try done. rewrite Hg. done.
  - intros _ k [? Hk]. cbn in Hk. by rewrite lookup_empty in Hk.
Qed.

(** ** Properties *)
Section properties.
Context {wire : Type} `{!Codec wire}.
Context (sha256 : bytes → bytes) (crc32 : bytes → Z) (pad : bytes).
Context (Hpad : zlen pad = 4) (Hcrc : ∀ d, is_u32 (crc32 d)).
Context (s0 : CacheService) (Hfresh : fresh_service s0).
Context (rqs : list (request wire)).

Local Abbreviation tb := (total_blocks (al_pool (allocator s0))).
Local Abbreviation bs := (block_size (al_pool (allocator s0))).
Local Abbreviation cap := (bi_capacity (index s0)).
Local Abbreviation nid := (al_node_id (allocator s0)).

(** The state the requests leave the agent in, and what their replies tell the clients. *)
Definition final : CacheService := (run sha256 crc32 pad rqs s0).2.
Definition book : ledger := ledger_of sha256 (run sha256 crc32 pad rqs s0).1.

Lemma reachable_inv : ∃ kv leaked, trace_inv crc32 nid bs cap tb final book kv leaked.
Proof using Hpad Hcrc Hfresh.
  pose proof (trace_inv_run sha256 crc32 pad nid bs cap tb Hpad Hcrc rqs s0 _ _ _
                (fresh_trace_inv crc32 s0 Hfresh)) as Hrun.
  unfold final, book, ledger_of. destruct (run sha256 crc32 pad rqs s0) as [tr s']. naive_solver.
Qed.

(** C1: The cache serves what was stored.  After any sequence of requests, monitor ticks
    and watch messages, a [Get] answers either a header with the generation and then
    exactly the data of the last acknowledged [Store] of that key that no acknowledged
    [Delete] followed, or [NotFound]; and when the index has room for every block of the pool, it answers
    [NotFound] only if there is no such store. *)
Theorem service_serves_last_store (req : GetRequest) :
  length (gr_prefix_hash req) = 16%nat →
  ∃ r s', get_now sha256 crc32 req final = (Ret r, s') ∧
    match lg_map book !! get_key sha256 req with
    | Some (d, g) => r = Ok [Ok (GetHeaderMsg (mkGetHeader bs 1 g)); Ok (GetData d)] ∨
                (r = Err (NotFound "prefix hash not found in cache") ∧ cap < tb)
    | None => r = Err (NotFound "prefix hash not found in cache")
    end.
Proof using Hpad Hcrc Hfresh.
  intros Hl. destruct reachable_inv as (kv & leaked & Hinv). exact (get_agrees sha256 crc32 _ _ _ _ Hcrc _ _ _ _ req Hinv Hl).
Qed.

(** C4: Accounting.  In every reachable state the [Stats] reply counts as used exactly the
    acknowledged stores minus the blocks reported freed by deletes, whatever was
    overwritten or evicted in between; and when the index has room for every block of
    the pool (as [main] configures it), no entry is ever evicted and the index holds
    exactly the keys stored and not deleted since. *)
Theorem service_accounting :
  (∃ r, stats final = (Ret (Ok r), final) ∧
     sp_total_blocks r = tb ∧ sp_used_blocks r = lg_stores book - lg_freed book ∧
     sp_memory_used_bytes r = sp_used_blocks r * bs ∧
     zlen (free_list (al_pool (allocator final))) = sp_total_blocks r - sp_used_blocks r) ∧
  (tb ≤ cap → cs_evictions final = 0 ∧ dom (bi_map (index final)) = dom (lg_map book)).
Proof using Hpad Hcrc Hfresh.
  destruct reachable_inv as (kv & leaked & Hinv). pose proof Hinv as [Hs Ht Hag Hco Hct Hev]. split.
  - destruct (stats_svc _ _ _ _ _ _ _ Hs) as [Hst Hsum]. eexists. split; [exact Hst|]. cbn. lia.
  - intros Hle. split; [by apply Hev|]. apply set_eq. intros k. rewrite !elem_of_dom.
    assert (bi_map (index final) !! k = item_entry nid bs <$> kv_get k kv) as ->.
    { rewrite (index_abs_lookup _ _ k (sv_index _ _ _ _ _ _ _ Hs)). apply entries_assoc. }
    rewrite fmap_is_Some. split; [|by apply Hco]. intros [it Hit]. rewrite (Hag _ _ Hit). by eexists.
Qed.

(** C28: Blocks of overwritten or evicted entries are never given back.  Once the
    acknowledged stores exceed the blocks freed by deletes by the size of the pool, every
    further well-formed store is refused as pool exhausted, without changing anything,
    however few entries the cache holds. *)
Theorem leaked_blocks_refuse_stores (now : Z) (stream : store_stream) (k data : bytes) :
  lg_stores book - lg_freed book = tb →
  store_target sha256 stream = Some (k, data) →
  as_pressure_level (cs_state final) < PRESSURE_REJECT →
  store sha256 crc32 pad now stream final =
    (Ret (Err (ResourceExhausted "memory pool exhausted")), final).
Proof using Hpad Hcrc Hfresh.
  intros Hfull Hasks%store_target_asks Hp. destruct reachable_inv as (kv & leaked & Hinv).
  pose proof Hinv as [Hs Ht _ _ Hct _]. destruct (stats_svc _ _ _ _ _ _ _ Hs) as [_ Hsum].
  destruct (store_ok sha256 crc32 pad _ _ _ Hpad _ _ _ now stream k data Hs Hp Hasks)
    as [[Ho _]|(i & s' & ev & _ & _ & Hfree & _)]; [done|].
  exfalso. rewrite Hfree in Hsum. unfold vec_push in Hsum. rewrite zlen_app in Hsum.
  change (zlen [i]) with 1 in Hsum. pose proof (zlen_nonneg (free_list (al_pool (allocator s')))). lia.
Qed.


(** C31: An entry stored with a model id cannot be deleted.  [Delete] looks the bare prefix
    hash up, while [Store] and [Get] use the key derived from the model id: when nothing
    is stored under the bare hash, a delete of the entry's prefix hash reports failure
    and the entry is still served. *)
Theorem delete_misses_model_entries (req : GetRequest) (d : bytes) (g : Z) :
  length (gr_prefix_hash req) = 16%nat → gr_model_id req ≠ ""%string → tb ≤ cap →
  lg_map book !! gr_prefix_hash req = None →
  lg_map book !! get_key sha256 req = Some (d, g) →
  ∃ s' s'',
    delete_key (gr_prefix_hash req) final = (Ret (Ok (mkDeleteResponse false 0)), s') ∧
    get_now sha256 crc32 req s' = (Ret (Ok [Ok (GetHeaderMsg (mkGetHeader bs 1 g)); Ok (GetData d)]), s'').
Proof using Hpad Hcrc Hfresh.
  intros Hl _ Hle Hnone Hsome. destruct reachable_inv as (kv & leaked & Hinv).
  pose proof Hinv as [Hs _ Hag Hco _ _].
  destruct (kv_get (gr_prefix_hash req) kv) as [it0|] eqn:Hk0; [by rewrite (Hag _ _ Hk0) in Hnone|].
  destruct (Hco Hle (get_key sha256 req)) as [it Hit]; [by eexists|].
  destruct (delete_miss _ _ _ _ _ _ _ _ Hs Hl Hk0) as (s' & Hd & Hs' & _).
  destruct (get_now_hit sha256 _ _ _ _ Hcrc _ _ _ _ _ Hs' Hl Hit) as (s'' & Hg & _).
  exists s', s''. split; [done|]. rewrite Hg. unfold item_stream.
  rewrite (Hag _ _ Hit) in Hsome. by simplify_eq.
Qed.

(** C30: [Lookup] in a reachable state of an agent whose index has room for every block:
    a key stored and not deleted since is a local hit on one block of this node, with the
    generation the store was acknowledged with; any
    other key is answered from the first remote entry announced for it, or is a miss.
    Exactly one of the hit and miss counters advances, and nothing else changes. *)
Theorem lookup_correct (req : LookupRequest) :
  length (lr_prefix_hash req) = 16%nat → tb ≤ cap →
  let k := composite_key sha256 (lr_model_id req) (lr_prefix_hash req) in
  ∃ resp s', lookup sha256 req final = (Ret (Ok resp), s') ∧
    frame final s' ∧ allocator s' = allocator final ∧ counted (lp_found resp) final s' ∧
    match lg_map book !! k with
    | Some (_, g) => lp_found resp = true ∧ lp_is_local resp = true ∧
        ∃ i, 0 ≤ i < tb ∧ lp_blocks resp = [mkProtoLocation (as_node_id (cs_state final)) (i * bs) bs g]
    | None => lp_is_local resp = false ∧
        match as_remote_index (cs_state final) ≫= λ ri, remote_lookup k ri ≫= head with
        | Some first => lp_found resp = true ∧
            lp_blocks resp = [mkProtoLocation (ri_node_id first) (ri_offset first) (ri_size first) (ri_generation first)]
        | None => lp_found resp = false ∧ lp_blocks resp = []
        end
    end.
Proof using Hpad Hcrc Hfresh.
  intros Hl Hle k. destruct reachable_inv as (kv & leaked & Hinv). pose proof Hinv as [Hs Ht Hag Hco _ _].
  destruct (lookup_svc sha256 _ _ _ _ _ _ _ req Hs Hl) as (s' & Hr & _ & Hf & Ha & Hc). fold k in Hr, Hc.
  eexists _, s'. split; [exact Hr|]. split; [done|]. split; [done|]. split; [done|]. clear Hr Hc.
  unfold lookup_reply. destruct (kv_get k kv) as [it|] eqn:Hk.
  - rewrite (Hag _ _ Hk). split; [done|]. split; [done|]. exists (it_index it). split; [|done].
    rewrite <-Ht. apply (svc_held _ _ _ _ _ _ _ _ Hs). apply elem_of_app. left. by eapply kv_get_elem.
  - destruct (lg_map book !! k) as [[d g]|] eqn:Hd.
    + destruct (Hco Hle k) as [it Hit]; [by eexists|]. congruence.
    + by destruct (as_remote_index _ ≫= _).
Qed.

(** [BatchLookup] answers one flag per hash, in order: whether that key is stored and not
    deleted since; and one local block per key found.  A malformed hash anywhere makes
    the whole batch fail. *)
Theorem batch_lookup_correct (req : BatchLookupRequest) :
  tb ≤ cap →
  ∃ r s', batch_lookup sha256 req final = (Ret r, s') ∧ frame final s' ∧ allocator s' = allocator final ∧
    if decide (Forall (λ h, length h = 16%nat) (br_prefix_hashes req)) then
      ∃ blocks, r = Ok (mkBatchLookupResponse
        ((λ h, bool_decide (is_Some (lg_map book !! composite_key sha256 (br_model_id req) h))) <$> br_prefix_hashes req)
        blocks) ∧
      length blocks = length (filter (λ h, is_Some (lg_map book !! composite_key sha256 (br_model_id req) h)) (br_prefix_hashes req)) ∧
      Forall (λ b, pl_node_id b = as_node_id (cs_state final) ∧ pl_size b = bs) blocks
    else r = Err (InvalidArgument "prefix_hash must be exactly 16 bytes").
Proof using Hpad Hcrc Hfresh.
  intros Hle. destruct reachable_inv as (kv & leaked & Hinv). pose proof Hinv as [Hs Ht Hag Hco _ _].
  unfold batch_lookup. case_decide as Hall.
  - destruct (batch_svc sha256 _ _ _ _ (br_model_id req) _ [] [] _ _ _ Hs Hall) as (s' & kv' & Hr & _ & _ & Hf & Ha & _).
    eexists _, s'. split; [exact Hr|]. split; [done|]. split; [done|]. cbn [app].
    assert (∀ k, is_Some (lg_map book !! k) ↔ is_Some (kv_get k kv)) as Hiff.
    { intros k. split; [by apply Hco|]. intros [it Hit]. rewrite (Hag _ _ Hit). by eexists. }
    eexists. split; [|split].
    + do 2 f_equal. apply list_fmap_ext. intros j h _. apply bool_decide_ext. by rewrite Hiff.
    + apply batch_blocks_length. intros h. apply Hiff.
    + apply batch_blocks_Forall.
  - destruct (batch_bad sha256 _ _ _ _ (br_model_id req) _ [] [] _ _ _ Hs Hall) as (s' & kv' & Hr & _ & _ & Hf & Ha & _).
    by eexists _, s'.
Qed.

(** The stream of a [Get] is not disturbed by concurrent requests other than deletes.
    When the handler answered, and any stores (also of the same key), lookups, gets and
    background events run before its sender task reads the blocks, the task still sends
    the header and exactly the data that was stored when the handler ran. *)
Theorem get_stream_stable (req : GetRequest) (entry : IndexEntry) (s1 : CacheService)
    (rqs' : list (request wire)) :
  length (gr_prefix_hash req) = 16%nat →
  get sha256 req final = (Ret (Ok entry), s1) →
  Forall (λ rq, is_delete rq = false) rqs' →
  let a := allocator (run sha256 crc32 pad rqs' s1).2 in
  ∃ g d, get_task crc32 2 entry a = (Ret [Ok (GetHeaderMsg (mkGetHeader bs 1 g)); Ok (GetData d)], a) ∧
    lg_map book !! get_key sha256 req = Some (d, g).
Proof using Hpad Hcrc Hfresh.
  intros Hl Hg Hnd a. destruct reachable_inv as (kv & leaked & Hinv). pose proof Hinv as [Hs _ Hag _ _ _].
  destruct (kv_get (get_key sha256 req) kv) as [it|] eqn:Hk.
  2: { destruct (get_miss sha256 _ _ _ _ _ _ _ _ Hs Hl Hk) as (s' & Hg' & _). by rewrite Hg in Hg'. }
  destruct (get_hit sha256 _ _ _ _ _ _ _ _ _ Hs Hl Hk) as (s' & Hg' & Hs' & _ & Ha & _ & _ & He).
  rewrite Hg in Hg'. simplify_eq.
  assert (kv_touch (get_key sha256 req) kv ≡ₚ kv) as Hp by (by eapply kv_touch_perm, svc_NoDup).
  pose proof (trace_inv_perm crc32 _ _ _ _ _ _ _ _ _ _ Hinv Hs' Hp Ha He) as Hinv'.
  pose proof (trace_inv_run sha256 crc32 pad nid bs cap tb Hpad Hcrc rqs' _ _ _ _ Hinv') as Hrun.
  subst a. destruct (run sha256 crc32 pad rqs' s') as [tr s2].
  destruct Hrun as (kv2 & leaked2 & [Hs2 _ _ _ _ _] & Hkeep).
  exists (it_gen it), (it_data it). split; [|by apply Hag].
  apply (get_task_ok crc32 nid bs cap Hcrc s2 kv2 leaked2 it Hs2), (Hkeep Hnd).
  rewrite Hp. apply elem_of_app. left. by eapply kv_get_elem.
Qed.
End properties.

(** *** A concrete service: four blocks of 32 bytes, as many index entries *)
Definition state4 : AgentState :=
  mkAgentState alloc4 (index_new 4) "node-a" default_config None PRESSURE_NORMAL (Some remote_new)
    (Some (ring_new 2)).
Definition svc4 : CacheService := service_new state4.

Lemma svc4_fresh : fresh_service svc4.
Proof. split; [exact pool4_client|by vm_compute..]. Qed.

Definition hash (b : Z) : bytes := replicate 16 b.
Definition put_req (model : string) (h data : bytes) : request toy_wire :=
  ReqStore 100 [Ok (Some (StoreHeaderMsg (mkStoreHeader h 1 (zlen data) model))); Ok (Some (StoreData data))].
Definition get_req (model : string) (h : bytes) : GetRequest := mkGetRequest h 1 "" model.

(** Stores of two keys, an overwrite and a delete. *)
Definition session : list (request toy_wire) :=
  [put_req "" (hash 1) [11; 12]; put_req "m" (hash 2) [21]; put_req "" (hash 1) [13];
   ReqGet (get_req "" (hash 1)); ReqDelete (hash 9); ReqTick].
(** The same key stored four times. *)
Definition overwrites : list (request toy_wire) := replicate 4 (put_req "" (hash 1) [7]).

Lemma service_serves_last_store_witness :
  ∃ r s', get_now toy_digest sum_crc (get_req "" (hash 1)) (final toy_digest sum_crc pad0 svc4 session) = (Ret r, s') ∧
    r = Ok [Ok (GetHeaderMsg (mkGetHeader 32 1 3)); Ok (GetData [13])].
Proof.
  destruct (service_serves_last_store toy_digest sum_crc pad0 eq_refl sum_crc_range svc4 svc4_fresh
              session (get_req "" (hash 1)) eq_refl) as (r & s' & Hg & Hr).
  exists r, s'. split; [exact Hg|].
  replace (lg_map _ !! _) with (Some ([13], 3)) in Hr by (vm_compute; reflexivity).
  destruct Hr as [Hr|[_ Hlt]]; [exact Hr|]. vm_compute in Hlt. discriminate.
Defined.

Lemma service_accounting_witness :
  cs_evictions (final toy_digest sum_crc pad0 svc4 session) = 0 ∧
  zlen (free_list (al_pool (allocator (final toy_digest sum_crc pad0 svc4 session)))) = 4 - 3.
Proof.
  destruct (service_accounting toy_digest sum_crc pad0 eq_refl sum_crc_range svc4 svc4_fresh session)
    as [(r & _ & Ht & Hu & _ & Hf) Hev].
  split; [by apply Hev; vm_compute|]. rewrite Hf, Ht, Hu. by vm_compute.
Defined.

Lemma leaked_blocks_refuse_stores_witness :
  let s := (run toy_digest sum_crc pad0 overwrites svc4).2 in
  size (bi_map (index s)) = 1%nat ∧
  store toy_digest sum_crc pad0 100
    [Ok (Some (StoreHeaderMsg (mkStoreHeader (hash 2) 1 1 ""))); Ok (Some (StoreData [5]))] s =
    (Ret (Err (ResourceExhausted "memory pool exhausted")), s).
Proof.
  intros s. split; [by vm_compute|].
  apply (leaked_blocks_refuse_stores toy_digest sum_crc pad0 eq_refl sum_crc_range svc4 svc4_fresh
           overwrites 100 _ (hash 2) [5]); by vm_compute.
Defined.


Lemma delete_misses_model_entries_witness :
  ∃ s', delete_key (hash 2) (final toy_digest sum_crc pad0 svc4 session) =
    (Ret (Ok (mkDeleteResponse false 0)), s').
Proof.
  destruct (delete_misses_model_entries toy_digest sum_crc pad0 eq_refl sum_crc_range svc4 svc4_fresh
              session (get_req "m" (hash 2)) [21] 2 eq_refl) as (s' & _ & Hd & _); [by vm_compute..|].
  by exists s'.
Defined.



Lemma get_stream_stable_witness :
  let s1 := (get toy_digest (get_req "" (hash 1)) (final toy_digest sum_crc pad0 svc4 session)).2 in
  let a := allocator (run toy_digest sum_crc pad0 [put_req "" (hash 1) [44]] s1).2 in
  ∃ entry g d, get_task sum_crc 2 entry a =
    (Ret [Ok (GetHeaderMsg (mkGetHeader 32 1 g)); Ok (GetData d)], a).
Proof.
  intros s1 a.
  assert (∃ entry, (get toy_digest (get_req "" (hash 1)) (final toy_digest sum_crc pad0 svc4 session)).1 =
            Ret (Ok entry)) as [entry He] by (eexists; vm_compute; reflexivity).
  assert (get toy_digest (get_req "" (hash 1)) (final toy_digest sum_crc pad0 svc4 session) =
            (Ret (Ok entry), s1)) as Hg by (rewrite <-He; apply surjective_pairing).
  destruct (get_stream_stable toy_digest sum_crc pad0 eq_refl sum_crc_range svc4 svc4_fresh session
              (get_req "" (hash 1)) entry s1 [put_req "" (hash 1) [44]] eq_refl Hg) as (g & d & Ht & _).
  - by repeat constructor.
  - by exists entry, g, d.
Defined.

(** A delete between a [Get]'s handler and its sender task breaks the answer: the block is
    freed and reused while the task still holds its location, no generation is compared,
    and the client that asked for one key receives, with a valid checksum, the data of
    another. *)
Theorem get_races_with_delete :
  let s1 := (run toy_digest sum_crc pad0 [put_req "" (hash 1) [11]] svc4).2 in
  let s2 := (get toy_digest (get_req "" (hash 1)) s1).2 in
  let s3 := (run toy_digest sum_crc pad0 [ReqDelete (hash 1); put_req "" (hash 2) [22]] s2).2 in
  ∃ entry, (get toy_digest (get_req "" (hash 1)) s1).1 = Ret (Ok entry) ∧
    (get_task sum_crc 2 entry (allocator s3)).1 =
      Ret [Ok (GetHeaderMsg (mkGetHeader 32 1 1)); Ok (GetData [22])].
Proof. eexists. split; [vm_compute; reflexivity|]. vm_compute. reflexivity. Qed.

Lemma lookup_correct_witness :
  ∃ resp s', lookup toy_digest (mkLookupRequest (hash 2) 1 "m") (final toy_digest sum_crc pad0 svc4 session) = (Ret (Ok resp), s') ∧
    lp_is_local resp = true.
Proof.
  destruct (lookup_correct toy_digest sum_crc pad0 eq_refl sum_crc_range svc4 svc4_fresh session
              (mkLookupRequest (hash 2) 1 "m") eq_refl) as (resp & s' & Hr & _ & _ & _ & Hm); [by vm_compute|].
  exists resp, s'. split; [exact Hr|].
  replace (lg_map _ !! _) with (Some ([21], 2)) in Hm by (vm_compute; reflexivity). apply Hm.
Defined.

Lemma batch_lookup_correct_witness :
  ∃ r s', batch_lookup toy_digest (mkBatchLookupRequest [hash 1; hash 7] "") (final toy_digest sum_crc pad0 svc4 session) = (Ret r, s').
Proof.
  destruct (batch_lookup_correct toy_digest sum_crc pad0 eq_refl sum_crc_range svc4 svc4_fresh session
              (mkBatchLookupRequest [hash 1; hash 7] "")) as (r & s' & Hr & _); [by vm_compute|].
  by exists r, s'.
Defined.

(** The service of a node that publishes to etcd. *)
Definition svc4_published : CacheService :=
  service_new (mkAgentState alloc4 (index_new 4) "node-a" default_config (Some client_a) PRESSURE_NORMAL
                 (Some remote_new) (Some (ring_new 2))).

(** A deleted block stays advertised, by its own node too.  The publication of a store
    comes back through the node's own watch into its remote index, and [Delete] removes
    neither the etcd key nor the remote entry: a lookup after the delete is a remote hit
    on the node itself, at the freed block. *)
Theorem deleted_block_still_advertised :
  let s1 := (run toy_digest sum_crc pad0 [put_req "" (hash 1) [11]] svc4_published).2 in
  ∃ t v, cs_spawned s1 = [t] ∧
    me_kvs (publish_block client_a (pt_prefix_hash t) (pt_offset t) (pt_size t) (pt_generation t) etcd0).2
      !! block_key (pt_prefix_hash t) = Some (v, Some 7) ∧
    let s2 := (run toy_digest sum_crc pad0
                 [ReqWatch (BlockMsg (Ok (Some [mkEvent EventPut (Some (block_key (pt_prefix_hash t), v))])));
                  ReqDelete (hash 1)] s1).2 in
    (lookup toy_digest (mkLookupRequest (hash 1) 1 "") s2).1 =
      Ret (Ok (mkLookupResponse true [mkProtoLocation "node-a" (pt_offset t) 32 1] false)) ∧
    zlen (free_list (al_pool (allocator s2))) = 4.
Proof.
  eexists _, _. split; [vm_compute; reflexivity|]. split; [vm_compute; reflexivity|].
  split; vm_compute; reflexivity.
Qed.
