(* ===== verification/Integrity.v ===== *)
(** * What the checksum detects

    With the checksum the crate crc32fast documents, CRC-32 of Crc32, a block damaged in
    memory is not served: a change of up to four consecutive bytes of its data, or any
    change of the stored checksum, makes [read_verified] refuse it, and a Get of its key
    ends with a data-loss status after the header message.  The other fields of the block
    header are not covered by the checksum. *)
From S2P Require Import Prelude Pool Crc32 Block Allocator Policy Lru Index RemoteIndex Placement Config Metadata Pressure Grpc Service Trace.
Import Crc32.
Local Open Scope Z_scope.

(** A fault: the bytes of the region at [off] become [w]. *)
Definition al_damage (off : Z) (w : bytes) (a : BlockAllocator) : BlockAllocator :=
  set_al_pool (set_region (blit off w (region (al_pool a))) (al_pool a)) a.
Definition damage (off : Z) (w : bytes) (s : CacheService) : CacheService :=
  set_allocator (al_damage off w (allocator s)) s.

(** ** Damaged blocks *)

(** [w] differs from the [zlen w] bytes of [d] at [off]: a burst of at most four bytes. *)
Record burst (off : Z) (w d : bytes) : Prop := {
  bu_off : 0 ≤ off;
  bu_end : off + zlen w ≤ zlen d;
  bu_len : zlen w ≤ 4;
  bu_bytes : Forall is_byte w;
  bu_data : Forall is_byte d;
  bu_differs : slice off (zlen w) d ≠ w;
}.

Lemma blit_split off (w d : bytes) : 0 ≤ off → off + zlen w ≤ zlen d →
  d = take (Z.to_nat off) d ++ slice off (zlen w) d ++ drop (Z.to_nat off + length w) d.
Proof.
  intros. unfold slice, zlen. rewrite Nat2Z.id, <-drop_drop, take_drop. by rewrite take_drop.
Qed.

Lemma burst_changes_crc off w d : burst off w d → crc32_ieee (blit off w d) ≠ crc32_ieee d.
Proof.
  intros [H0 He Hl Hw Hd Hne] Hc. rewrite (blit_split off w d H0 He) in Hc at 2. unfold blit in Hc.
  apply crc32_burst in Hc; [by rewrite <-Hc in Hne|done| | |].
  - by apply Forall_take, Forall_drop.
  - pose proof (zlen_slice off (zlen w) d H0 (zlen_nonneg w) He). unfold zlen in *. lia.
  - unfold zlen in Hl. lia.
Qed.

Lemma blit_middle off (w pre d post : bytes) : 0 ≤ off → off + zlen w ≤ zlen d →
  blit (zlen pre + off) w (pre ++ d ++ post) = pre ++ blit off w d ++ post.
Proof.
  intros H0 He. unfold blit, zlen in *. rewrite Z2Nat.inj_add, Nat2Z.id by lia.
  rewrite take_app_add, take_app_le by lia. rewrite <-!app_assoc. do 3 f_equal.
  rewrite drop_app_ge, drop_app_le by lia. f_equal. f_equal. lia.
Qed.

Section blocks.
Context (a : BlockAllocator) (Hwf : pool_wf (al_pool a)).
Local Abbreviation p := (al_pool a).

(** Reading a block whose header fits its data. *)
Lemma read_verified_block crc32 i pad h d rest :
  0 ≤ i < total_blocks p → zlen pad = 4 → header_ok h → hd_data_size h = zlen d →
  slice (i * block_size p) (block_size p) (region p) = header_bytes pad h ++ d ++ rest →
  read_verified crc32 (block_handle p i) a = (Ret (if crc32 d =? hd_crc32 h then Some d else None), a).
Proof using Hwf.
  intros Hi Hp Hh Hd Hs. pose proof (block_in_region p i Hwf Hi) as [??]. pose proof (wf_block_size p Hwf).
  pose proof (zlen_header_bytes pad h Hp) as Hhl. pose proof (zlen_nonneg d). pose proof (zlen_nonneg rest).
  assert (zlen (header_bytes pad h ++ d ++ rest) = block_size p) as Hl by (rewrite <-Hs; apply zlen_slice; lia).
  unfold read_verified.
  rewrite (bind_Ret _ _ _ _ _ (on_pool_Ret _ a _ (get_slice_ok _ Hwf _ (block_handle_ok _ _ Hi)))).
  cbn [bh_offset block_handle]. rewrite Hs, read_header_bytes by done. rewrite Hd, Hl. rewrite !zlen_app, Hhl in Hl.
  pose proof (ho_size h Hh). rewrite Hd in *.
  rewrite as_usize_id by (unfold is_usize, is_u64, is_u32, HEADER_SIZE in *; lia).
  rewrite (proj2 (Z.ltb_ge _ _)) by lia. replace (HEADER_SIZE + zlen d - HEADER_SIZE) with (zlen d) by lia.
  rewrite <-Hhl, slice_field. unfold verify. by destruct (_ =? _).
Qed.
End blocks.

Lemma set_region_wf r p : pool_wf p → zlen r = zlen (region p) → pool_wf (set_region r p).
Proof. intros [] Hr. split; cbn; congruence. Qed.

Lemma blit_whole (w d post : bytes) : zlen w = zlen d → blit 0 w (d ++ post) = w ++ post.
Proof.
  intros Hl. unfold blit, zlen in *. rewrite take_0. cbn [app]. f_equal.
  by replace (Z.to_nat 0 + length w)%nat with (length d) by lia; rewrite drop_app_length.
Qed.

Section damaged.
Context (a : BlockAllocator) (Hwf : pool_wf (al_pool a)).
Local Abbreviation p := (al_pool a).
Context (i : Z) (Hi : 0 ≤ i < total_blocks p).

(** A fault inside block [i] changes this block and no other. *)
Lemma damage_block off w : 0 ≤ off → off + zlen w ≤ block_size p →
  let p' := al_pool (al_damage (i * block_size p + off) w a) in
  pool_wf p' ∧
  slice (i * block_size p) (block_size p) (region p') =
    blit off w (slice (i * block_size p) (block_size p) (region p)) ∧
  (∀ j, 0 ≤ j < total_blocks p → j ≠ i →
     slice (j * block_size p) (block_size p) (region p') = slice (j * block_size p) (block_size p) (region p)).
Proof using Hwf Hi.
  intros H0 He p'. pose proof (block_in_region p i Hwf Hi) as [??]. pose proof (wf_block_size p Hwf).
  pose proof (zlen_nonneg w). split_and!.
  - apply set_region_wf; [done|]. apply zlen_blit; lia.
  - cbn. apply slice_blit_within; lia.
  - intros j Hj Hne. pose proof (block_in_region p j Hwf Hj) as [??]. cbn.
    apply slice_blit_disjoint; [lia..|]. destruct (decide (j < i)); [left|right]; nia.
Qed.

Context (d : bytes) (g : Z) (Hg : is_u64 g) (Hd : is_u32 (zlen d)).
Context (Hb : block_holds crc32_ieee p i d g).
Local Abbreviation bs := (block_size p).

(** The checksum detects a burst in the data ... *)
Lemma read_damaged_data off w : burst off w d →
  let a' := al_damage (i * bs + (HEADER_SIZE + off)) w a in
  read_verified crc32_ieee (block_handle p i) a' = (Ret None, a').
Proof using Hwf Hi Hg Hd Hb.
  intros Hw a'. pose proof Hw as [H0 He _ _ _ _]. pose proof (block_holds_size _ _ _ _ _ Hwf Hi Hb).
  destruct (damage_block (HEADER_SIZE + off) w) as (Hwf' & Hs & _); [unfold HEADER_SIZE; lia|lia|].
  destruct Hb as (pad & rest & Hp & Hblk). rewrite Hblk in Hs.
  rewrite <-(zlen_header_bytes pad (header_new crc32_ieee d g) Hp), blit_middle in Hs by done.
  rewrite (zlen_header_bytes pad _ Hp) in Hs.
  assert (zlen (blit off w d) = zlen d) as Hl by (apply zlen_blit; lia).
  refine (eq_trans (read_verified_block a' Hwf' crc32_ieee i pad (header_new crc32_ieee d g) (blit off w d) rest Hi Hp _ _ Hs) _);
    [by apply header_new_ok; [apply crc32_ieee_u32|]|by cbn; rewrite as_u32_id|].
  cbn. rewrite (proj2 (Z.eqb_neq _ _)); [done|]. by apply burst_changes_crc.
Qed.

(** ... and a change of the checksum itself, but no change of the generation. *)
Lemma read_damaged_checksum w : zlen w = 4 → Forall is_byte w → le_decode w ≠ crc32_ieee d →
  let a' := al_damage (i * bs + 0) w a in
  read_verified crc32_ieee (block_handle p i) a' = (Ret None, a').
Proof using Hwf Hi Hg Hd Hb.
  intros Hl Hw Hne a'. pose proof (block_holds_size _ _ _ _ _ Hwf Hi Hb). pose proof (zlen_nonneg d).
  destruct (damage_block 0 w) as (Hwf' & Hs & _); [lia|unfold HEADER_SIZE in *; lia|].
  destruct Hb as (pad & rest & Hp & Hblk). rewrite Hblk in Hs.
  assert (is_u32 (le_decode w)) as Hu.
  { pose proof (le_decode_range w Hw). unfold zlen in Hl. rewrite Hl in *. exact H1. }
  set (h := mkBlockHeader (le_decode w) g (as_u32 (zlen d)) 0).
  assert (blit 0 w (header_bytes pad (header_new crc32_ieee d g) ++ d ++ rest) = header_bytes pad h ++ d ++ rest) as Heq.
  { unfold header_bytes. rewrite <-!app_assoc. rewrite blit_whole by by rewrite zlen_le_encode.
    cbn [hd_crc32 h]. rewrite (le_encode_decode 4 w) by (done || unfold zlen in Hl; lia). done. }
  rewrite Heq in Hs.
  refine (eq_trans (read_verified_block a' Hwf' crc32_ieee i pad h d rest Hi Hp _ _ Hs) _);
    [..|by cbn; rewrite (proj2 (Z.eqb_neq _ _))].
  - split; cbn; auto with rust. unfold is_u32. lia.
  - cbn. by apply as_u32_id.
Qed.

Lemma read_damaged_generation w : zlen w = 8 → Forall is_byte w →
  let a' := al_damage (i * bs + 8) w a in
  read_verified crc32_ieee (block_handle p i) a' = (Ret (Some d), a').
Proof using Hwf Hi Hg Hd Hb.
  intros Hl Hw a'. pose proof (block_holds_size _ _ _ _ _ Hwf Hi Hb). pose proof (zlen_nonneg d).
  destruct (damage_block 8 w) as (Hwf' & Hs & _); [lia|unfold HEADER_SIZE in *; lia|].
  destruct Hb as (pad & rest & Hp & Hblk). rewrite Hblk in Hs.
  set (h := mkBlockHeader (crc32_ieee d) (le_decode w) (as_u32 (zlen d)) 0).
  assert (blit 8 w (header_bytes pad (header_new crc32_ieee d g) ++ d ++ rest) = header_bytes pad h ++ d ++ rest) as Heq.
  { unfold header_bytes. rewrite <-!app_assoc.
    pose proof (blit_middle 0 w (le_encode 4 (crc32_ieee d) ++ pad) (le_encode 8 g)
                  (le_encode 4 (as_u32 (zlen d)) ++ le_encode 4 0 ++ d ++ rest)) as Hm.
    rewrite zlen_app, !zlen_le_encode, Hp, <-!app_assoc in Hm. change (Z.of_nat 4 + 4 + 0) with 8 in Hm. cbn [hd_crc32 hd_generation hd_data_size hd_reserved header_new h].
    rewrite Hm by (unfold zlen in *; lia). rewrite <-(app_nil_r (le_encode 8 g)), blit_whole, app_nil_r by by rewrite zlen_le_encode.
    rewrite (le_encode_decode 8 w) by (done || unfold zlen in Hl; lia). done. }
  rewrite Heq in Hs.
  refine (eq_trans (read_verified_block a' Hwf' crc32_ieee i pad h d rest Hi Hp _ _ Hs) _);
    [..|by cbn; rewrite Z.eqb_refl].
  - split; cbn; auto with rust; [apply crc32_ieee_u32| |unfold is_u32; lia].
    pose proof (le_decode_range w Hw) as Hr. unfold zlen in Hl. rewrite Hl in Hr. exact Hr.
  - cbn. by apply as_u32_id.
Qed.
End damaged.

(** ** Damage under the service *)

(** The handler of a Get does not touch the pool. *)
Lemma get_set_allocator sha256 req a s :
  get sha256 req (set_allocator a s) = let '(o, s1) := get sha256 req s in (o, set_allocator a s1).
Proof.
  unfold get, and_then, on_index, zoom, add_hit, add_miss, fail, ok. munfold.
  destruct (parse_prefix_hash (gr_prefix_hash req)) as [h|e]; [|done].
  change (index (set_allocator a s)) with (index s).
  by destruct (index_lookup (composite_key sha256 (gr_model_id req) h) (index s)) as [[[e|]| | |] i].
Qed.

Lemma get_now_damaged sha256 crc32 req s off w e s1 :
  get sha256 req s = (Ret (Ok e), s1) → allocator s1 = allocator s →
  (get_now sha256 crc32 req (damage off w s)).1 =
    match (get_task crc32 (S (length (ie_blocks e))) e (al_damage off w (allocator s))).1 with
    | Ret msgs => Ret (Ok msgs) | Panic => Panic | UB => UB | Fuel => Fuel
    end.
Proof.
  intros Hg Ha. unfold get_now, and_then, damage. rewrite (bind_Ret _ _ _ (Ok e) (set_allocator (al_damage off w (allocator s)) s1)).
  2: { by rewrite get_set_allocator, Hg. }
  unfold on_allocator, zoom, ok. munfold. cbn [allocator set_allocator cs_state set_state as_allocator].
  by destruct (get_task _ _ _ _) as [[]].
Qed.

Lemma get_task_single crc32 e loc r a :
  ie_blocks e = [loc] → read_verified crc32 (loc_handle loc) a = (Ret r, a) →
  get_task crc32 2 e a =
    (Ret [Ok (GetHeaderMsg (get_header e));
          match r with Some d => Ok (GetData d) | None => Err (DataLoss "block CRC32C verification failed") end], a).
Proof.
  intros Hl Hr. unfold get_task. rewrite Hl. cbn [send_blocks]. munfold. rewrite Hr. by destruct r.
Qed.

Section service.
Context {wire : Type} `{!Codec wire}.
Context (sha256 : bytes → bytes) (pad : bytes) (Hpad : zlen pad = 4).
Context (s0 : CacheService) (Hfresh : fresh_service s0) (rqs : list (request wire)).
Local Abbreviation crc := crc32_ieee.
Local Abbreviation s := (final sha256 crc pad s0 rqs).
Local Abbreviation get_now := (get_now sha256 crc).

(** What is known of a key the reachable state [s] serves: its entry, and its block. *)
Record served (req : GetRequest) (e : IndexEntry) (loc : BlockLocation) (i : Z) (d : bytes) : Prop := {
  sd_entry : bi_map (index s) !! get_key sha256 req = Some e;
  sd_blocks : ie_blocks e = [loc];
  sd_handle : loc_handle loc = block_handle (al_pool (allocator s)) i;
  sd_offset : bl_offset loc = i * block_size (al_pool (allocator s));
  sd_get : ∃ s1, get sha256 req s = (Ret (Ok e), s1) ∧ allocator s1 = allocator s;
  sd_range : 0 ≤ i < total_blocks (al_pool (allocator s));
  sd_size : is_u32 (zlen d);
  sd_holds : ∃ g, is_u64 g ∧ block_holds crc (al_pool (allocator s)) i d g;
}.

Lemma reachable_pool_wf : pool_wf (al_pool (allocator s)).
Proof using Hpad Hfresh.
  destruct (reachable_inv sha256 crc pad Hpad crc32_ieee_u32 s0 Hfresh rqs) as (kv & leaked & [Hs _ _ _ _ _]).
  by destruct (sv_alloc _ _ _ _ _ _ _ Hs).
Qed.

(** A key is served from a block of its own, or not found. *)
Lemma served_or_missing req : length (gr_prefix_hash req) = 16%nat →
  (∃ e loc i d, served req e loc i d) ∨
  (∃ s1, get sha256 req s = (Ret (Err (NotFound "prefix hash not found in cache")), s1)).
Proof using Hpad Hfresh.
  intros Hl. destruct (reachable_inv sha256 crc pad Hpad crc32_ieee_u32 s0 Hfresh rqs) as (kv & leaked & [Hs _ _ _ _ _]).
  destruct (kv_get (get_key sha256 req) kv) as [it|] eqn:Hk.
  2: { right. destruct (get_miss sha256 _ _ _ _ _ _ _ _ Hs Hl Hk) as (s1 & Hg & _). by exists s1. }
  left. assert (it ∈ kv.*2 ++ leaked) as Hin by (apply elem_of_app; left; by eapply kv_get_elem).
  destruct (svc_held _ _ _ _ _ _ _ _ Hs Hin) as (Hh & Hi & g & Hg & Hb).
  destruct (get_hit sha256 _ _ _ _ _ _ _ _ _ Hs Hl Hk) as (s1 & Hget & _ & _ & Ha & _).
  pose proof (sv_alloc _ _ _ _ _ _ _ Hs) as [Hwf _ Hbb _ _ _]. cbn [fst] in Hwf, Hbb.
  pose proof (block_holds_size _ _ _ _ _ Hwf Hi Hb). pose proof (zlen_nonneg (it_data it)).
  eexists (item_entry _ _ it), (item_loc _ _ it), (it_index it), (it_data it). split; [|done|exact Hh| |by exists s1|done| |by exists g].
  - by rewrite (index_abs_lookup _ _ _ (sv_index _ _ _ _ _ _ _ Hs)), entries_assoc, Hk.
  - cbn. by rewrite (sv_block_size _ _ _ _ _ _ _ Hs).
  - unfold is_u32, HEADER_SIZE in *. lia.
Qed.

Lemma served_kv kv leaked req e loc i d :
  svc_inv crc (al_node_id (allocator s0)) (block_size (al_pool (allocator s0))) (bi_capacity (index s0)) s kv leaked →
  served req e loc i d → ∃ it, kv_get (get_key sha256 req) kv = Some it ∧ it_index it = i.
Proof.
  intros Hs [He Hbl Hh _ _ _ _ _]. rewrite (index_abs_lookup _ _ _ (sv_index _ _ _ _ _ _ _ Hs)), entries_assoc in He.
  destruct (kv_get (get_key sha256 req) kv) as [it|] eqn:Hk; [|done]. exists it. split; [done|].
  cbn in He. injection He as <-. cbn in Hbl. injection Hbl as <-.
  assert (it ∈ kv.*2 ++ leaked) as Hin by (apply elem_of_app; left; by eapply kv_get_elem).
  destruct (svc_held _ _ _ _ _ _ _ _ Hs Hin) as (Hh' & _). rewrite Hh in Hh'. unfold block_handle in Hh'. by simplify_eq.
Qed.

(** Two keys are served from different blocks. *)
Lemma served_distinct req req' e e' loc loc' i i' d d' :
  served req e loc i d → served req' e' loc' i' d' → get_key sha256 req' ≠ get_key sha256 req → i' ≠ i.
Proof using Hpad Hfresh.
  intros Hx Hx' Hne. destruct (reachable_inv sha256 crc pad Hpad crc32_ieee_u32 s0 Hfresh rqs) as (kv & leaked & [Hs _ _ _ _ _]).
  destruct (served_kv _ _ _ _ _ _ _ Hs Hx) as (it & Hk & <-).
  destruct (served_kv _ _ _ _ _ _ _ Hs Hx') as (it' & Hk' & <-).
  pose proof (sv_alloc _ _ _ _ _ _ _ Hs) as [_ _ _ _ Hown _]. apply owns_NoDup in Hown. cbn [snd] in Hown.
  apply NoDup_app in Hown as (_ & _ & Hnd). rewrite !fmap_app in Hnd.
  apply NoDup_app in Hnd as (Hnd & _). rewrite <-!list_fmap_compose in Hnd.
  rewrite (kv_get_split _ _ _ (svc_NoDup _ _ _ _ _ _ _ Hs) Hk) in Hnd.
  intros Heq. apply NoDup_cons in Hnd as [Hnd _]. apply Hnd.
  apply list_elem_of_fmap. exists (get_key sha256 req', it'). split; [exact (eq_sym Heq)|].
  apply list_elem_of_filter. split; [done|]. by apply elem_of_list_to_map_2.
Qed.

Lemma served_reply req e loc i d : served req e loc i d →
  (get_now req s).1 = Ret (Ok [Ok (GetHeaderMsg (get_header e)); Ok (GetData d)]).
Proof using Hpad Hfresh.
  intros [_ Hbl Hh _ (s1 & Hg & Ha) Hi Hd (g & Hgen & Hb)].
  pose proof (read_verified_holds crc _ i d g reachable_pool_wf Hi crc32_ieee_u32 Hgen Hd Hb) as Hr. rewrite <-Hh in Hr.
  pose proof (get_task_single crc e loc (Some d) _ Hbl Hr) as Ht. rewrite <-Ha in Ht.
  unfold Grpc.get_now, and_then. rewrite (bind_Ret _ _ _ _ _ Hg), Hbl.
  by erewrite bind_Ret by (apply on_allocator_eq; exact Ht).
Qed.

(** C16: Damage to stored data is never served.  On an agent that served any requests, let a
    Get answer a header and data [d], and let then a burst of one to four bytes of the
    stored data change in memory.  The next Get of the key sends the same header and ends
    with a data-loss status instead of the data; and what Gets of other keys answer does
    not change. *)
Theorem get_reports_damage (req : GetRequest) (hdr : GetHeader) (d : bytes) (s1 : CacheService) (off : Z) (w : bytes) :
  length (gr_prefix_hash req) = 16%nat →
  get_now req s = (Ret (Ok [Ok (GetHeaderMsg hdr); Ok (GetData d)]), s1) →
  burst off w d →
  ∃ e loc, bi_map (index s) !! get_key sha256 req = Some e ∧ ie_blocks e = [loc] ∧
    let s' := damage (bl_offset loc + (HEADER_SIZE + off)) w s in
    (get_now req s').1 =
      Ret (Ok [Ok (GetHeaderMsg hdr); Err (DataLoss "block CRC32C verification failed")]) ∧
    (∀ req', length (gr_prefix_hash req') = 16%nat → get_key sha256 req' ≠ get_key sha256 req →
       (get_now req' s').1 = (get_now req' s).1).
Proof using Hpad Hfresh.
  intros Hl Hget Hw. pose proof reachable_pool_wf as Hwf.
  destruct (served_or_missing req Hl) as [(e & loc & i & d' & Hsv)|(s2 & Hg)].
  2: { by rewrite (get_now_Err _ _ _ _ _ _ Hg) in Hget. }
  pose proof Hsv as [He Hbl Hh Ho Hg Hi Hd (g & Hgen & Hb)].
  apply (f_equal fst) in Hget. rewrite (served_reply _ _ _ _ _ Hsv) in Hget. cbn in Hget. injection Hget as <- <-.
  exists e, loc. split; [done|]. split; [done|]. intros s'. subst s'. rewrite Ho.
  pose proof (block_holds_size _ _ _ _ _ Hwf Hi Hb). pose proof (bu_off _ _ _ Hw). pose proof (bu_end _ _ _ Hw).
  split.
  - destruct Hg as (s2 & Hg & Ha). rewrite (get_now_damaged _ _ _ _ _ _ _ _ Hg Ha), Hbl. cbn [length].
    pose proof (read_damaged_data (allocator s) Hwf i Hi d' g Hgen Hd Hb off w Hw) as Hr.
    rewrite <-Hh in Hr. by rewrite (get_task_single _ _ _ _ _ Hbl Hr).
  - intros req' Hl' Hne. destruct (served_or_missing req' Hl') as [(e' & loc' & i' & d'' & Hsv')|(s2 & Hg')].
    + rewrite (served_reply _ _ _ _ _ Hsv').
      pose proof (served_distinct _ _ _ _ _ _ _ _ _ _ Hsv Hsv' Hne) as Hii.
      pose proof Hsv' as [_ Hbl' Hh' _ (s3 & Hg' & Ha') Hi' Hd' (g' & Hgen' & Hb')].
      rewrite (get_now_damaged _ _ _ _ _ _ _ _ Hg' Ha'), Hbl'. cbn [length].
      destruct (damage_block (allocator s) Hwf i Hi (HEADER_SIZE + off) w) as (Hwf2 & _ & Hoth); [unfold HEADER_SIZE; lia|lia|].
      assert (block_holds crc (al_pool (al_damage (i * block_size (al_pool (allocator s)) + (HEADER_SIZE + off)) w (allocator s))) i' d'' g') as Hb2.
      { destruct Hb' as (pad' & rest & Hp & Hs). exists pad', rest. split; [done|]. rewrite <-Hs. by apply Hoth. }
      pose proof (read_verified_holds crc _ i' d'' g' Hwf2 Hi' crc32_ieee_u32 Hgen' Hd' Hb2) as Hr.
      by rewrite (get_task_single _ _ _ (Some d'') _ Hbl' (eq_trans (f_equal (λ h, read_verified crc h _) Hh') Hr)).
    + rewrite (get_now_Err _ _ _ _ _ _ Hg'). unfold damage.
      pose proof (get_set_allocator sha256 req' (al_damage (i * block_size (al_pool (allocator s)) + (HEADER_SIZE + off)) w (allocator s)) s) as Hd2.
      rewrite Hg' in Hd2. by rewrite (get_now_Err _ _ _ _ _ _ Hd2).
Qed.
End service.

(** ** What the checksum covers *)

(** The checksum covers the data and itself, and nothing else of a block.  For every handle
    a client of the allocator still holds: after a burst of one to four changed bytes in
    the data, or any change of the stored checksum, reading the block yields nothing; after
    any change of the stored generation it yields the data as if nothing had happened. *)
Theorem checksum_coverage p node_id a live h data
    (Hpool : client_inv (p, []))
    (Hblk : HEADER_SIZE ≤ block_size p ≤ 2 ^ 32)
    (Hreach : rtc (al_step crc32_ieee) (allocator_new p node_id, []) (a, live))
    (Hheld : (h, data) ∈ live) :
  (∀ off w, burst off w data →
     let a' := al_damage (bh_offset h + (HEADER_SIZE + off)) w a in
     read_verified crc32_ieee h a' = (Ret None, a')) ∧
  (∀ w, zlen w = 4 → Forall is_byte w → le_decode w ≠ crc32_ieee data →
     let a' := al_damage (bh_offset h + 0) w a in
     read_verified crc32_ieee h a' = (Ret None, a')) ∧
  (∀ w, zlen w = 8 → Forall is_byte w →
     let a' := al_damage (bh_offset h + 8) w a in
     read_verified crc32_ieee h a' = (Ret (Some data), a')).
Proof.
  destruct (al_reachable_inv _ _ _ Hreach (al_inv_new crc32_ieee p node_id Hpool Hblk))
    as [Hwf _ Hb _ _ Hh]; cbn in *.
  rewrite Forall_forall in Hh. destruct (Hh _ Hheld) as (i & g & Heq & Hi & Hg & Hbh).
  cbn in Heq, Hbh. subst h. cbn [bh_offset block_handle].
  assert (is_u32 (zlen data)) as Hd.
  { pose proof (zlen_nonneg data). pose proof (block_holds_size _ _ _ _ _ Hwf Hi Hbh).
    unfold is_u32, HEADER_SIZE in *. lia. }
  split_and!; intros.
  - by apply (read_damaged_data a Hwf i Hi data g Hg Hd Hbh).
  - by apply (read_damaged_checksum a Hwf i Hi data g Hg Hd Hbh).
  - by apply (read_damaged_generation a Hwf i Hi data g Hg Hd Hbh).
Qed.

(** *** Witnesses: bit 0 of the second data byte flips *)
Lemma flip_burst : burst 1 [7] [5; 6; 7].
Proof. split; try done; repeat (apply Forall_cons; split); done. Qed.

Definition written3 : BlockAllocator := (allocate_and_write crc32_ieee pad0 [5; 6; 7] alloc4).2.
Lemma written3_reached : rtc (al_step crc32_ieee) (alloc4, []) (written3, [(block_handle pool4 3, [5; 6; 7])]).
Proof. apply rtc_once. eapply (al_step_write _ pad0); [done|]. vm_compute. reflexivity. Qed.

Lemma checksum_coverage_witness :
  let a' := al_damage (bh_offset (block_handle pool4 3) + (HEADER_SIZE + 1)) [7] written3 in
  read_verified crc32_ieee (block_handle pool4 3) a' = (Ret None, a').
Proof.
  destruct (checksum_coverage pool4 1 written3 _ (block_handle pool4 3) [5; 6; 7] pool4_client ltac:(by vm_compute)
              written3_reached (list_elem_of_here _ _)) as (Hd & _).
  exact (Hd 1 [7] flip_burst).
Defined.

Lemma get_reports_damage_witness :
  ∃ loc, let s' := damage (bl_offset loc + (HEADER_SIZE + 0)) [12] (final toy_digest crc32_ieee pad0 svc4 session) in
    (get_now toy_digest crc32_ieee (get_req "" (hash 1)) s').1 =
      Ret (Ok [Ok (GetHeaderMsg (mkGetHeader 32 1 3)); Err (DataLoss "block CRC32C verification failed")]).
Proof.
  destruct (get_reports_damage toy_digest pad0 eq_refl svc4 svc4_fresh session (get_req "" (hash 1))
              (mkGetHeader 32 1 3) [13]
              (get_now toy_digest crc32_ieee (get_req "" (hash 1)) (final toy_digest crc32_ieee pad0 svc4 session)).2 0 [12])
    as (e & loc & _ & _ & Hd & _).
  - reflexivity.
  - vm_compute. reflexivity.
  - split; try done; repeat (apply Forall_cons; split); done.
  - exists loc. exact Hd.
Defined.
