(* ===== verification/Isolation.v ===== *)
(** * Model identifiers and cache isolation

    Requests carry a model identifier, documented in cmx.proto as meant for cache isolation;
    grpc.rs turns it and the prefix hash into an index key by [composite_key].  This file
    shows what that gives: as long as the addresses in use have different keys, a Get is
    only ever served data stored under its own model and hash; keys of different addresses
    with a model id differ unless the truncated digest collides; but the key of an address
    is itself a valid prefix hash without a model id. *)
From S2P Require Import Prelude Pool Crc32 Sha256 Block Allocator Policy Lru Index RemoteIndex Placement Config Metadata Pressure Grpc Service Trace.
From stdpp Require Import pretty.
Local Open Scope Z_scope.

(** What a client names: a model identifier and a prefix hash. *)
Abbreviation address := (string * bytes)%type.

(** ** Keys *)
Section keys.
Context (sha256 : bytes → bytes).

Definition address_key (a : address) : bytes := composite_key sha256 a.1 a.2.
(** The bytes hashed for an address with a model id. *)
Definition address_message (a : address) : bytes := as_bytes a.1 ++ a.2.

Lemma as_bytes_inj (s t : string) : as_bytes s = as_bytes t → s = t.
Proof.
  unfold as_bytes. intros Heq.
  assert (String.list_ascii_of_string s = String.list_ascii_of_string t) as Hl.
  { revert Heq. generalize (String.list_ascii_of_string s) (String.list_ascii_of_string t).
    intros l. induction l as [|a l IH]; intros [|b k]; cbn; try done. intros [= Hab Hk]. f_equal; [|by apply IH].
    rewrite <-(Ascii.ascii_N_embedding a), <-(Ascii.ascii_N_embedding b). f_equal. lia. }
  by rewrite <-(String.string_of_list_ascii_of_string s), <-(String.string_of_list_ascii_of_string t), Hl.
Qed.

(** The hash has a fixed length, so a message determines its address. *)
Lemma address_message_inj a b :
  length a.2 = 16%nat → length b.2 = 16%nat → address_message a = address_message b → a = b.
Proof.
  destruct a as [m h], b as [m' h']. cbn. intros Hh Hh' Heq. unfold address_message in Heq. cbn in Heq.
  apply app_inj_2 in Heq as [Hm ->]; [|by rewrite Hh, Hh']. by apply as_bytes_inj in Hm as ->.
Qed.

Lemma composite_key_raw h : composite_key sha256 "" h = h.
Proof. done. Qed.

Lemma composite_key_model m h : m ≠ "" → composite_key sha256 m h = take 16 (sha256 (as_bytes m ++ h)).
Proof. intros Hm. unfold composite_key. by rewrite bool_decide_eq_false_2. Qed.

(** Handlers see an address only through its key. *)
Lemma get_same_key req req' s :
  length (gr_prefix_hash req) = 16%nat → length (gr_prefix_hash req') = 16%nat →
  get_key sha256 req = get_key sha256 req' → get sha256 req s = get sha256 req' s.
Proof.
  intros Hl Hl' Hk. unfold get. rewrite !(and_then_Ok _ _ _ _ (parse_16 _ Hl)), !(and_then_Ok _ _ _ _ (parse_16 _ Hl')).
  unfold get_key in Hk. by rewrite Hk.
Qed.

Lemma lookup_same_key req req' s :
  length (lr_prefix_hash req) = 16%nat → length (lr_prefix_hash req') = 16%nat →
  composite_key sha256 (lr_model_id req) (lr_prefix_hash req) = composite_key sha256 (lr_model_id req') (lr_prefix_hash req') →
  Grpc.lookup sha256 req s = Grpc.lookup sha256 req' s.
Proof.
  intros Hl Hl' Hk. unfold Grpc.lookup.
  rewrite !(and_then_Ok _ _ _ _ (parse_16 _ Hl)), !(and_then_Ok _ _ _ _ (parse_16 _ Hl')). by rewrite Hk.
Qed.
End keys.

(** ** What the clients can conclude for an address *)
Section book.
Context {wire : Type} `{!Codec wire} (sha256 : bytes → bytes).
Implicit Types (rq : request wire) (tr : list (request wire * outcome reply)).

(** The address and the data of a well-formed store stream. *)
Definition store_address (stream : store_stream) : option (address * bytes) :=
  match first_header stream with
  | Err _ => None
  | Ok (header, _) => (λ kd, ((sh_model_id header, sh_prefix_hash header), kd.2)) <$> store_target sha256 stream
  end.

Lemma store_address_target stream :
  store_target sha256 stream = prod_map (address_key sha256) id <$> store_address stream.
Proof.
  unfold store_address, store_target. destruct (first_header stream) as [[header rest]|]; [|done].
  destruct (_ && _); [|done]. by destruct (collect_chunks [] rest).
Qed.

(** The addresses requests write to. *)
Definition writes_to rq : list address :=
  match rq with
  | ReqStore _ stream => match store_address stream with Some (a, _) => [a] | None => [] end
  | ReqDelete h => [("", h)]
  | _ => []
  end.

(** What was last stored under each address and not deleted since: data and generation. *)
Definition address_step (g : gmap address (bytes * Z)) (x : request wire * outcome reply) : gmap address (bytes * Z) :=
  match x with
  | (ReqStore _ stream, Ret (RepStore (Ok resp))) =>
      match store_address stream with Some (a, data) => <[a := (data, sr_generation_id resp)]> g | None => g end
  | (ReqDelete h, Ret (RepDelete (Ok resp))) => if dr_success resp then delete ("", h) g else g
  | _ => g
  end.
Definition address_book tr : gmap address (bytes * Z) := foldl address_step ∅ tr.

(** No two of the addresses share a key. *)
Definition separate (addrs : list address) : Prop :=
  ∀ a b, a ∈ addrs → b ∈ addrs → address_key sha256 a = address_key sha256 b → a = b.

Definition separate_check (addrs : list address) : bool :=
  forallb (λ a, forallb (λ b, negb (bool_decide (address_key sha256 a = address_key sha256 b)) || bool_decide (a = b)) addrs) addrs.
Lemma separate_check_ok addrs : separate_check addrs = true → separate addrs.
Proof.
  intros Hc a b Ha Hb Hk. unfold separate_check in Hc. rewrite forallb_forall in Hc.
  specialize (Hc a (proj1 (list_elem_of_In _ _) Ha)). rewrite forallb_forall in Hc.
  specialize (Hc b (proj1 (list_elem_of_In _ _) Hb)). rewrite (bool_decide_true _ Hk) in Hc. by apply bool_decide_eq_true in Hc.
Qed.

Lemma address_step_agrees addrs l g x :
  separate addrs → writes_to x.1 ⊆ addrs →
  (∀ a, a ∈ addrs → lg_map l !! address_key sha256 a = g !! a) →
  ∀ a, a ∈ addrs → lg_map (ledger_step sha256 l x) !! address_key sha256 a = address_step g x !! a.
Proof.
  intros Hsep Hw Hag a Ha. destruct x as [rq o].
  destruct rq as [| |now stream| |h| | | |]; try by apply Hag.
  - unfold ledger_step, address_step. destruct o as [[| |[]| | | | |]| | |]; try by apply Hag.
    cbn in Hw. rewrite store_address_target. destruct (store_address stream) as [[b data]|]; [|by apply Hag]. cbn.
    destruct (decide (b = a)) as [->|Hne]; [by rewrite !lookup_insert_eq|].
    rewrite !lookup_insert_ne; [by apply Hag|done|]. intros Hk. apply Hne, Hsep; [|done..]. set_solver.
  - unfold ledger_step, address_step. destruct o as [[| | | |[]| | |]| | |]; try by apply Hag.
    destruct (dr_success _); [|by apply Hag]. cbn in *.
    assert (address_key sha256 ("", h) = h) as Hh by done.
    destruct (decide (("", h) = a)) as [<-|Hne]; [by rewrite Hh, !lookup_delete_eq|].
    rewrite !lookup_delete_ne; [by apply Hag|done|]. intros Hk. apply Hne, Hsep; [set_solver|done|congruence].
Qed.

Lemma address_book_agrees addrs tr :
  separate addrs → (mjoin (writes_to <$> tr.*1)) ⊆ addrs →
  ∀ a, a ∈ addrs → lg_map (ledger_of sha256 tr) !! address_key sha256 a = address_book tr !! a.
Proof.
  intros Hsep. unfold ledger_of, address_book.
  assert (∀ a, a ∈ addrs → lg_map (mkLedger ∅ 0 0) !! address_key sha256 a = (∅ : gmap address (bytes * Z)) !! a) as Hag
    by (intros; by rewrite !lookup_empty).
  revert Hag. generalize (mkLedger ∅ 0 0) (∅ : gmap address (bytes * Z)).
  induction tr as [|x tr IH]; intros l g Hag Hw; [done|]. cbn [foldl].
  cbn in Hw. apply IH; [|set_solver]. apply address_step_agrees; [done|set_solver|done].
Qed.
End book.

(** ** Properties *)


(** C23: Keys of different addresses with a model id coincide only when their truncated digests
    do; and the key of an address is a valid prefix hash without a model id, so a client
    that sends it instead reads and looks up the entry of any model. *)
Theorem model_id_is_no_barrier (sha256 : bytes → bytes) (crc32 : bytes → Z) (m : string) (h : bytes) (addr : string) (n : Z) :
  (∀ x, length (sha256 x) = 32%nat) → length h = 16%nat →
  let k := composite_key sha256 m h in
  (∀ m' h', m ≠ "" → m' ≠ "" → length h' = 16%nat → composite_key sha256 m' h' = k →
     (m', h') = (m, h) ∨
     (as_bytes m' ++ h' ≠ as_bytes m ++ h ∧ take 16 (sha256 (as_bytes m' ++ h')) = take 16 (sha256 (as_bytes m ++ h)))) ∧
  length k = 16%nat ∧
  ∀ s : CacheService,
    get_now sha256 crc32 (mkGetRequest k n addr "") s = get_now sha256 crc32 (mkGetRequest h n addr m) s ∧
    Grpc.lookup sha256 (mkLookupRequest k n "") s = Grpc.lookup sha256 (mkLookupRequest h n m) s.
Proof.
  intros Hsha Hh k.
  assert (length k = 16%nat) as Hk.
  { subst k. unfold composite_key. case_bool_decide; [done|]. rewrite length_take, Hsha. lia. }
  split_and!.
  - intros m' h' Hm Hm' Hh' Heq. subst k. rewrite !composite_key_model in Heq by done.
    destruct (decide ((m', h') = (m, h))) as [|Hne]; [by left|]. right. split; [|exact Heq].
    intros Hmsg. by apply Hne, address_message_inj.
  - done.
  - intros s. split; [|by apply lookup_same_key].
    unfold get_now, and_then. munfold. by rewrite (get_same_key sha256 (mkGetRequest k n addr "") (mkGetRequest h n addr m) s Hk Hh eq_refl).
Qed.


Lemma model_id_is_no_barrier_witness :
  let s := final Sha256.sha256 Crc32.crc32_ieee pad0 svc4 session in
  (get_now Sha256.sha256 Crc32.crc32_ieee (get_req "" (composite_key Sha256.sha256 "m" (hash 2))) s).1 =
    Ret (Ok [Ok (GetHeaderMsg (mkGetHeader 32 1 2)); Ok (GetData [21])]).
Proof.
  intros s.
  destruct (model_id_is_no_barrier Sha256.sha256 Crc32.crc32_ieee "m" (hash 2) "" 1) as (_ & _ & Hs).
  - intros x. apply Sha256.sha256_typed.
  - reflexivity.
  - unfold get_req. rewrite (proj1 (Hs s)). vm_compute. reflexivity.
Defined.
