(* ===== verification/History.v ===== *)
(** * What the replies of one agent say about generations and publications

    A store is acknowledged with a generation (allocator.rs counts them), spawns a publication
    with the same generation (grpc.rs), and a Get sends the generation in its header.  This
    file relates the three along any sequence of requests: generations number the
    acknowledged stores, so below 2^64 of them a generation identifies the store and its
    data, which is what cmx.proto means by staleness detection; and every spawned
    publication belongs to an acknowledged store of its key. *)
From S2P Require Import Prelude Pool Block Allocator Policy Lru Index RemoteIndex Placement Config Metadata Cluster Pressure Grpc Frames Service Trace.
Local Open Scope Z_scope.

(** The generation counter and the publications, which only a store changes. *)
Definition stored_same (s s' : CacheService) : Prop :=
  al_generation (allocator s') = al_generation (allocator s) ∧ cs_spawned s' = cs_spawned s.
#[export] Instance stored_same_preorder : PreOrder stored_same.
Proof. split; unfold stored_same; [by intros s|]. intros s1 s2 s3. intuition congruence. Qed.
#[export] Instance stored_same_frame : HandlerFrame stored_same.
Proof. by split; [exact _|..]. Qed.

Definition is_store {wire} (rq : request wire) : bool := match rq with ReqStore _ _ => true | _ => false end.

(** Numbers below 2^64 have different successors. *)
Lemma next_u64_inj a b : 0 ≤ a < 2 ^ 64 → 0 ≤ b < 2 ^ 64 → as_u64 (a + 1) = as_u64 (b + 1) → a = b.
Proof.
  unfold as_u64. intros. pose proof (Z.div_mod (a + 1) (2 ^ 64) ltac:(lia)).
  pose proof (Z.div_mod (b + 1) (2 ^ 64) ltac:(lia)). nia.
Qed.

Section history.
Context {wire : Type} `{!Codec wire}.
Context (sha256 : bytes → bytes) (crc32 : bytes → Z) (pad : bytes).
Implicit Types (tr : list (request wire * outcome reply)) (k d : bytes) (g : Z) (p q : nat).
Local Abbreviation stores tr := (lg_stores (ledger_of sha256 tr)).

(** The step [p] of the trace is a store of [d] under [k], acknowledged with generation [g]. *)
Definition acked tr p k d g : Prop :=
  ∃ now stream resp, tr !! p = Some (ReqStore now stream, Ret (RepStore (Ok resp))) ∧
    store_target sha256 stream = Some (k, d) ∧ sr_generation_id resp = g.

Lemma frame_serve rq : is_store rq = false → preserves stored_same (serve sha256 crc32 pad rq).
Proof.
  destruct rq as [| | | | | | | |m]; intros Hrq; try done; cbn [serve]; handler_steps.
  apply preserves_modify. intros s. destruct (as_remote_index (cs_state s)) as [ri|]; [|done].
  by destruct (watch_step sha256 (ri, as_hash_ring (cs_state s)) m) as [[ri' hr']|].
Qed.

(** ** Traces *)
Lemma run_snoc rqs rq s :
  run sha256 crc32 pad (rqs ++ [rq]) s =
    let '(tr, s1) := run sha256 crc32 pad rqs s in
    let '(o, s2) := serve sha256 crc32 pad rq s1 in (tr ++ [(rq, o)], s2).
Proof.
  revert s. induction rqs as [|rq0 rqs IH]; intros s; cbn [run app].
  { destruct (serve sha256 crc32 pad rq s) as [o s1]. done. }
  destruct (serve sha256 crc32 pad rq0 s) as [o s1]. rewrite IH.
  destruct (run sha256 crc32 pad rqs s1) as [tr s2]. by destruct (serve sha256 crc32 pad rq s2) as [o' s3].
Qed.

Lemma ledger_snoc tr x : ledger_of sha256 (tr ++ [x]) = ledger_step sha256 (ledger_of sha256 tr) x.
Proof. unfold ledger_of. by rewrite foldl_app. Qed.

Lemma stores_step (l : ledger) x : lg_stores l ≤ lg_stores (ledger_step (wire := wire) sha256 l x).
Proof. unfold ledger_step. repeat case_match; cbn; lia. Qed.
Lemma stores_mono tr tr' : stores tr ≤ stores (tr ++ tr').
Proof.
  induction tr' as [|x tr' IH] using rev_ind; [by rewrite app_nil_r|].
  rewrite app_assoc, ledger_snoc. etransitivity; [exact IH|apply stores_step].
Qed.
Lemma stores_nonneg tr : 0 ≤ stores tr.
Proof. apply (stores_mono [] tr). Qed.

Lemma acked_app tr tr' p k d g : acked tr p k d g → acked (tr ++ tr') p k d g.
Proof. intros (now & stream & resp & Hp & Hs). exists now, stream, resp. split; [by apply lookup_app_l_Some|done]. Qed.

Lemma acked_snoc tr x p k d g :
  acked (tr ++ [x]) p k d g ↔ acked tr p k d g ∨ (p = length tr ∧ acked [x] 0 k d g).
Proof.
  split.
  - intros (now & stream & resp & [Hp|[Hp Hx]]%lookup_app_Some & Hs).
    + left. by exists now, stream, resp.
    + right. apply list_lookup_singleton_Some in Hx as [Hlen ->]. split; [lia|]. by exists now, stream, resp.
  - intros [Ha|[-> (now & stream & resp & Hx & Hs)]]; [by apply acked_app|].
    exists now, stream, resp. split; [|done]. by rewrite lookup_app_r, Nat.sub_diag.
Qed.

(** A step is at most one store. *)
Lemma acked_fun tr p k d g k' d' g' : acked tr p k d g → acked tr p k' d' g' → k = k' ∧ d = d' ∧ g = g'.
Proof.
  intros (now & stream & resp & Hp & Ht & Hg) (now' & stream' & resp' & Hp' & Ht' & Hg').
  rewrite Hp in Hp'. injection Hp' as <- <- <-. rewrite Ht in Ht'. injection Ht' as <- <-. by rewrite <-Hg.
Qed.

(** An acknowledged store counts. *)
Lemma acked_counts tr p k d g : acked tr p k d g → stores (take p tr) < stores tr.
Proof.
  intros (now & stream & resp & Hp & Ht & _).
  pose proof (take_drop_middle _ _ _ Hp) as Heq. rewrite cons_middle, app_assoc in Heq.
  rewrite <-Heq at 2. clear Heq.
  eapply Z.lt_le_trans; [|apply stores_mono]. rewrite ledger_snoc. cbn. rewrite Ht. cbn. lia.
Qed.

(** ** The invariant of a history *)

(** The publication [t] is that of an acknowledged store, of a block of the pool. *)
Definition published bs tb tr (t : PublishTask) : Prop :=
  (∃ p d, acked tr p (pt_prefix_hash t) d (pt_generation t)) ∧
  pt_size t = bs ∧ ∃ i, 0 ≤ i < tb ∧ pt_offset t = i * bs.

Record history_inv bs tb tr (s : CacheService) : Prop := {
  hi_counter : al_generation (allocator s) = as_u64 (stores tr + 1);
  hi_numbered p k d g : acked tr p k d g → g = as_u64 (stores (take p tr) + 1);
  hi_last k d g : lg_map (ledger_of sha256 tr) !! k = Some (d, g) →
    ∃ p, acked tr p k d g ∧ ∀ q d' g', acked tr q k d' g' → (q ≤ p)%nat;
  hi_spawned : Forall (published bs tb tr) (cs_spawned s);
}.

Lemma published_app bs tb tr tr' t : published bs tb tr t → published bs tb (tr ++ tr') t.
Proof. intros [(p & d & Ha) Ht]. split; [|done]. exists p, d. by apply acked_app. Qed.

Lemma history_inv_start bs tb s :
  al_generation (allocator s) = 1 → cs_spawned s = [] → history_inv bs tb [] s.
Proof.
  intros Hg Hs. split; [by rewrite Hg| | |by rewrite Hs].
  - intros p k d g (now & stream & resp & Hp & _). by rewrite lookup_nil in Hp.
  - intros k d g Hk. cbn in Hk. by rewrite lookup_empty in Hk.
Qed.

(** A step that is not an acknowledged store. *)
Lemma history_inv_other bs tb tr s rq o s' :
  (∀ k d g, ¬ acked [(rq, o)] 0 k d g) → stored_same s s' →
  (∀ now stream resp, rq = ReqStore now stream → o = Ret (RepStore (Ok resp)) → False) →
  history_inv bs tb tr s → history_inv bs tb (tr ++ [(rq, o)]) s'.
Proof.
  intros Hno [Hgen Hsp] Hnot [Hc Hn Hl Hs].
  assert (∀ p k d g, acked (tr ++ [(rq, o)]) p k d g ↔ acked tr p k d g) as Hacked.
  { intros p k d g. rewrite acked_snoc. split; [|by left]. intros [?|[_ Ha]]; [done|]. by destruct (Hno _ _ _ Ha). }
  assert (stores (tr ++ [(rq, o)]) = stores tr ∧
          ∀ k dg, lg_map (ledger_of sha256 (tr ++ [(rq, o)])) !! k = Some dg → lg_map (ledger_of sha256 tr) !! k = Some dg)
    as [Hst Hmap].
  { rewrite ledger_snoc. unfold ledger_step. repeat case_match; cbn; subst; try done.
    - exfalso. by eapply Hnot.
    - split; [done|]. intros k dg. rewrite lookup_delete_Some. by intros [_ ?]. }
  split.
  - by rewrite Hgen, Hst.
  - intros p k d g Ha%Hacked. rewrite (Hn _ _ _ _ Ha). do 2 f_equal.
    destruct Ha as (now & stream & resp & Hp & _). apply lookup_lt_Some in Hp. by rewrite take_app_le by lia.
  - intros k d g Hk%Hmap. destruct (Hl _ _ _ Hk) as (p & Ha & Hlast). exists p. split; [by apply Hacked|].
    intros q d' g' Hq%Hacked. by eapply Hlast.
  - rewrite Hsp. eapply Forall_impl; [exact Hs|]. intros t. apply published_app.
Qed.

(** An acknowledged store. *)
Lemma history_inv_store bs tb tr s now stream resp k d s' :
  store_target sha256 stream = Some (k, d) → sr_generation_id resp = al_generation (allocator s) →
  al_generation (allocator s') = as_u64 (al_generation (allocator s) + 1) →
  (cs_spawned s' = cs_spawned s ∨ ∃ i, 0 ≤ i < tb ∧
     cs_spawned s' = vec_push (mkPublishTask k (i * bs) bs (sr_generation_id resp)) (cs_spawned s)) →
  history_inv bs tb tr s → history_inv bs tb (tr ++ [(ReqStore now stream, Ret (RepStore (Ok resp)))]) s'.
Proof.
  intros Ht Hr Hgen Hsp [Hc Hn Hl Hs]. set (x := (ReqStore now stream, _)).
  assert (acked [x] 0 k d (sr_generation_id resp)) as Hx by (by exists now, stream, resp).
  assert (∀ k' d' g', acked [x] 0 k' d' g' → k' = k ∧ d' = d ∧ g' = sr_generation_id resp) as Hx'.
  { intros k' d' g' (now' & stream' & resp' & [= <- <- <-] & Ht' & <-). rewrite Ht in Ht'. by injection Ht' as <- <-. }
  assert (acked (tr ++ [x]) (length tr) k d (sr_generation_id resp)) as Hnew by (apply acked_snoc; by right).
  assert (ledger_of sha256 (tr ++ [x]) =
          mkLedger (<[k := (d, sr_generation_id resp)]> (lg_map (ledger_of sha256 tr))) (stores tr + 1)
            (lg_freed (ledger_of sha256 tr))) as Hbook.
  { rewrite ledger_snoc. cbn. by rewrite Ht. }
  split.
  - rewrite Hgen, Hc, Hbook. cbn. unfold as_u64. by rewrite Zplus_mod_idemp_l.
  - intros p k' d' g' [Ha|[-> Ha]]%acked_snoc.
    + rewrite (Hn _ _ _ _ Ha). do 2 f_equal. destruct Ha as (now' & stream' & resp' & Hp & _).
      apply lookup_lt_Some in Hp. by rewrite take_app_le by lia.
    + destruct (Hx' _ _ _ Ha) as (-> & -> & ->). by rewrite Hr, Hc, take_app_length.
  - intros k' d' g'. rewrite Hbook. cbn. intros [[<- [= <- <-]]|[Hne Hk]]%lookup_insert_Some.
    + exists (length tr). split; [done|]. intros q d' g' (now' & stream' & resp' & Hq & _).
      apply lookup_lt_Some in Hq. rewrite length_app in Hq. cbn in Hq. lia.
    + destruct (Hl _ _ _ Hk) as (p & Ha & Hlast). exists p. split; [by apply acked_app|].
      intros q d'' g'' [Hq|[-> Hq]]%acked_snoc; [by eapply Hlast|]. by destruct (Hx' _ _ _ Hq).
  - assert (Forall (published bs tb (tr ++ [x])) (cs_spawned s)) as Hold.
    { eapply Forall_impl; [exact Hs|]. intros t. apply published_app. }
    destruct Hsp as [->|(i & Hi & ->)]; [done|]. apply Forall_app. split; [done|]. apply Forall_singleton.
    split; [by exists (length tr), d|]. split; [done|]. by exists i.
Qed.
End history.

Section reachable.
Context {wire : Type} `{!Codec wire}.
Context (sha256 : bytes → bytes) (crc32 : bytes → Z) (pad : bytes).
Context (Hpad : zlen pad = 4) (Hcrc : ∀ d, is_u32 (crc32 d)).
Context (s0 : CacheService) (Hfresh : fresh_service s0).

Local Abbreviation tb := (total_blocks (al_pool (allocator s0))).
Local Abbreviation bs := (block_size (al_pool (allocator s0))).

Lemma serve_history (rqs : list (request wire)) rq :
  let '(tr, s) := run sha256 crc32 pad rqs s0 in
  history_inv sha256 bs tb tr s →
  let '(o, s') := serve sha256 crc32 pad rq s in history_inv sha256 bs tb (tr ++ [(rq, o)]) s'.
Proof using Hpad Hcrc Hfresh.
  destruct (run sha256 crc32 pad rqs s0) as [tr s] eqn:Hrun. intros Hinv.
  destruct (serve sha256 crc32 pad rq s) as [o s'] eqn:Hserve.
  destruct (is_store rq) eqn:Hst.
  2: { pose proof (frame_serve sha256 crc32 pad rq Hst s) as Hq. rewrite Hserve in Hq. cbn in Hq.
       assert (∀ now stream, rq ≠ ReqStore now stream) as Hne by (by intros ?? ->).
       apply (history_inv_other sha256 bs tb tr s); [|done| |done].
       - intros k d g (now & stream & resp & [= -> _] & _). by eapply Hne.
       - intros now stream resp ->. done. }
  destruct rq as [| |now stream| | | | | |]; try done. cbn [serve] in Hserve.
  assert (s = final sha256 crc32 pad s0 rqs) as Hs by (unfold final; by rewrite Hrun).
  destruct (reachable_inv sha256 crc32 pad Hpad Hcrc s0 Hfresh rqs) as (kv & leaked & [Hsv Htot _ _ _ _]).
  rewrite <-Hs in Hsv, Htot.
  destruct (decide (PRESSURE_REJECT ≤ as_pressure_level (cs_state s) ∨ store_target sha256 stream = None)) as [Hc|Hc].
  { destruct (store_refused sha256 crc32 pad s now stream Hc) as (o1 & Ho & Hwhy).
    assert (s' = s ∧ ∀ resp, o ≠ Ret (RepStore (Ok resp))) as [-> Hno].
    { destruct Hwhy as [->|[e ->]]; [rewrite (bind_Panic _ _ _ _ Ho) in Hserve|rewrite (bind_Ret _ _ _ _ _ Ho) in Hserve];
        by injection Hserve as <- <-. }
    apply (history_inv_other sha256 bs tb tr s); [|done| |done].
    - intros k d g (now' & stream' & resp & [= _ _ ->] & _). by eapply Hno.
    - intros now' stream' resp _. apply Hno. }
  destruct (store_target sha256 stream) as [[k d]|] eqn:Htgt; [|tauto]. pose proof Htgt as Hasks. apply store_target_asks in Hasks.
  destruct (store_ok sha256 crc32 pad _ _ _ Hpad s kv leaked now stream k d Hsv ltac:(lia) Hasks)
    as [[Ho _]|(i & s1 & ev & Ho & _ & _ & Hsv' & _ & _ & _ & _ & _ & Hsp & Hgen)];
    rewrite (bind_Ret _ _ _ _ _ Ho) in Hserve; injection Hserve as <- <-.
  - apply (history_inv_other sha256 bs tb tr s); [|done| |done].
    + by intros k' d' g (now' & stream' & resp & [=] & _).
    + by intros now' stream' resp _ [=].
  - eapply history_inv_store; [exact Htgt|reflexivity|exact Hgen| |exact Hinv].
    rewrite Hsp. destruct (as_metadata (cs_state s)); [|by left]. right. exists i. split; [|done].
    destruct (svc_held _ _ _ _ _ _ _ (mkItem i d (al_generation (allocator s)) now) Hsv') as (_ & Hi & _); [set_solver|].
    destruct (reachable_inv sha256 crc32 pad Hpad Hcrc s0 Hfresh (rqs ++ [ReqStore now stream])) as (kv' & leaked' & Hinv').
    apply ti_total in Hinv'. revert Hinv'. unfold final. rewrite run_snoc, Hrun. cbn [serve].
    rewrite (bind_Ret _ _ _ _ _ Ho). cbn. intros <-. exact Hi.
Qed.

Context (Hnone : cs_spawned s0 = []).

Lemma reachable_history (rqs : list (request wire)) :
  history_inv sha256 bs tb (run sha256 crc32 pad rqs s0).1 (run sha256 crc32 pad rqs s0).2.
Proof using Hpad Hcrc Hfresh Hnone.
  induction rqs as [|rq rqs IH] using rev_ind.
  - apply history_inv_start; [apply Hfresh|exact Hnone].
  - pose proof (serve_history rqs rq) as Hs. rewrite run_snoc.
    destruct (run sha256 crc32 pad rqs s0) as [tr s]. specialize (Hs IH).
    by destruct (serve sha256 crc32 pad rq s) as [o s'].
Qed.

(** The number of an acknowledged store determines it. *)
Lemma acked_unique tr bs' tb' s p q k d k' d' g :
  history_inv sha256 bs' tb' tr s → lg_stores (ledger_of sha256 tr) ≤ 2 ^ 64 →
  acked (wire := wire) sha256 tr p k d g → acked sha256 tr q k' d' g → p = q.
Proof using Type.
  intros [_ Hn _ _] Hb Hp Hq.
  pose proof (Hn _ _ _ _ Hp) as Hgp. pose proof (Hn _ _ _ _ Hq) as Hgq. rewrite Hgp in Hgq.
  pose proof (acked_counts sha256 _ _ _ _ _ Hp). pose proof (acked_counts sha256 _ _ _ _ _ Hq).
  pose proof (stores_nonneg sha256 (take p tr)). pose proof (stores_nonneg sha256 (take q tr)).
  set (a := lg_stores (ledger_of sha256 (take p tr))) in *. set (b := lg_stores (ledger_of sha256 (take q tr))) in *.
  assert (a = b) as Hab by (apply next_u64_inj; [lia..|done]).
  assert (∀ p q k d k' d' g g', acked (wire := wire) sha256 tr p k d g → acked sha256 tr q k' d' g' → (p < q)%nat →
            lg_stores (ledger_of sha256 (take p tr)) < lg_stores (ledger_of sha256 (take q tr))) as Hlt.
  { clear. intros p q k d k' d' g g' (now & stream & resp & Hp & Hs) _ Hpq.
    assert (acked sha256 (take q tr) p k d g) as Ha.
    { exists now, stream, resp. split; [|done]. by rewrite lookup_take_lt. }
    apply acked_counts in Ha. by rewrite take_take, Nat.min_l in Ha by lia. }
  destruct (Nat.lt_trichotomy p q) as [Hpq|[|Hpq]]; [|done|].
  - pose proof (Hlt _ _ _ _ _ _ _ _ Hp Hq Hpq). subst a b. lia.
  - pose proof (Hlt _ _ _ _ _ _ _ _ Hq Hp Hpq). subst a b. lia.
Qed.

(** A Get that is answered with data is answered from the newest store of its key. *)
Lemma get_newest_store (rqs : list (request wire)) req hdr d s' :
  length (gr_prefix_hash req) = 16%nat →
  get_now sha256 crc32 req (run sha256 crc32 pad rqs s0).2 =
    (Ret (Ok [Ok (GetHeaderMsg hdr); Ok (GetData d)]), s') →
  ∃ p, acked sha256 (run sha256 crc32 pad rqs s0).1 p (get_key sha256 req) d (gh_generation_id hdr) ∧
    ∀ q d' g, acked sha256 (run sha256 crc32 pad rqs s0).1 q (get_key sha256 req) d' g → (q ≤ p)%nat.
Proof using Hpad Hcrc Hfresh Hnone.
  intros Hl Hget. pose proof (reachable_history rqs) as Hh.
  destruct (reachable_inv sha256 crc32 pad Hpad Hcrc s0 Hfresh rqs) as (kv & leaked & Hinv).
  destruct (get_agrees sha256 crc32 _ _ _ _ Hcrc _ _ _ _ req Hinv Hl) as (r & s1 & Hr & Hm).
  unfold final in Hr. rewrite Hget in Hr. injection Hr as <- <-. unfold book in Hm.
  destruct (lg_map _ !! get_key sha256 req) as [[d1 g1]|] eqn:Hk; [|done].
  destruct Hm as [[= -> ->]|[[=] _]]. exact (hi_last _ _ _ _ _ Hh _ _ _ Hk).
Qed.

(** Which store of the key a Get answered, by its generation. *)
Lemma generation_tells_store (rqs : list (request wire)) req hdr d s' q d' g :
  lg_stores (ledger_of sha256 (run sha256 crc32 pad rqs s0).1) ≤ 2 ^ 64 →
  length (gr_prefix_hash req) = 16%nat →
  get_now sha256 crc32 req (run sha256 crc32 pad rqs s0).2 =
    (Ret (Ok [Ok (GetHeaderMsg hdr); Ok (GetData d)]), s') →
  acked sha256 (run sha256 crc32 pad rqs s0).1 q (get_key sha256 req) d' g →
  (gh_generation_id hdr = g → d = d') ∧
  (gh_generation_id hdr ≠ g → ∃ p, (q < p)%nat ∧
     acked sha256 (run sha256 crc32 pad rqs s0).1 p (get_key sha256 req) d (gh_generation_id hdr)).
Proof using Hpad Hcrc Hfresh Hnone.
  intros Hb Hl Hget Hq. destruct (get_newest_store rqs req hdr d s' Hl Hget) as (p & Hp & Hlast). split.
  - intros <-. pose proof (acked_unique _ _ _ _ _ _ _ _ _ _ _ (reachable_history rqs) Hb Hp Hq) as ->.
    by destruct (acked_fun _ _ _ _ _ _ _ _ _ Hp Hq) as (_ & -> & _).
  - intros Hne. exists p. split; [|done]. assert (q ≠ p); [|specialize (Hlast _ _ _ Hq); lia].
    intros ->. apply Hne. by destruct (acked_fun _ _ _ _ _ _ _ _ _ Hp Hq) as (_ & _ & ->).
Qed.

(** ** Properties *)

(** C18: Generations tell stores apart.  After any sequence of requests with at most 2^64
    acknowledged stores, no two of these were acknowledged with the same generation, of
    whatever keys.  When a Get of a key sends a header and data, they are those of the
    newest acknowledged store of that key; so to a client that knows the generation of any
    store of the key, the same generation in the header means the data of that store, and
    another one means that a later store replaced it. *)
Theorem generations_identify_stores (rqs : list (request wire)) :
  let tr := (run sha256 crc32 pad rqs s0).1 in
  lg_stores (ledger_of sha256 tr) ≤ 2 ^ 64 →
  (∀ p q k d k' d' g, acked sha256 tr p k d g → acked sha256 tr q k' d' g → p = q) ∧
  (∀ req hdr d s', length (gr_prefix_hash req) = 16%nat →
     get_now sha256 crc32 req (final sha256 crc32 pad s0 rqs) =
       (Ret (Ok [Ok (GetHeaderMsg hdr); Ok (GetData d)]), s') →
     (∃ p, acked sha256 tr p (get_key sha256 req) d (gh_generation_id hdr) ∧
        ∀ q d' g, acked sha256 tr q (get_key sha256 req) d' g → (q ≤ p)%nat) ∧
     ∀ q d' g, acked sha256 tr q (get_key sha256 req) d' g →
       (gh_generation_id hdr = g → d = d') ∧
       (gh_generation_id hdr ≠ g → ∃ p, (q < p)%nat ∧ acked sha256 tr p (get_key sha256 req) d (gh_generation_id hdr))).
Proof using Hpad Hcrc Hfresh Hnone.
  intros tr Hb. split.
  - intros p q k d k' d' g. by apply (acked_unique _ _ _ _ _ _ _ _ _ _ _ (reachable_history rqs)).
  - intros req hdr d s' Hl Hget. split; [by eapply get_newest_store|].
    intros q d' g. by apply (generation_tells_store rqs req hdr d s').
Qed.
End reachable.

(** *** Witness: the session of Trace stores three times *)
Lemma generations_identify_stores_witness :
  let tr := (run toy_digest sum_crc pad0 session svc4).1 in
  ∃ p, acked toy_digest tr p (hash 1) [13] 3 ∧ ¬ acked toy_digest tr p (hash 1) [11; 12] 1.
Proof.
  intros tr.
  destruct (generations_identify_stores toy_digest sum_crc pad0 eq_refl sum_crc_range svc4 svc4_fresh eq_refl session)
    as [Huniq Hget]; [by vm_compute|].
  destruct (get_now toy_digest sum_crc (get_req "" (hash 1)) (final toy_digest sum_crc pad0 svc4 session)) as [o s'] eqn:Hg.
  assert (o = Ret (Ok [Ok (GetHeaderMsg (mkGetHeader 32 1 3)); Ok (GetData [13])])) as ->.
  { apply (f_equal fst) in Hg. revert Hg. vm_compute. by intros <-. }
  destruct (Hget (get_req "" (hash 1)) _ _ _ eq_refl Hg) as [(p & Hp & _) Hall]. exists p. split; [exact Hp|].
  intros Ha. destruct (Hall _ _ _ Ha) as [_ Hnew]. destruct Hnew as (q & Hq & Haq); [by cbn|].
  rewrite (Huniq _ _ _ _ _ _ _ Hp Haq) in Hq. lia.
Defined.
