(* ===== verification/EndToEnd.v ===== *)
(** * From a store on one node to a lookup on another

    The path of the data through the whole system: a store on node A (grpc.rs) writes the
    block (allocator.rs), indexes it (index.rs) and spawns a publication; the publication
    goes to etcd (metadata.rs); the watch of node B puts it into B's remote index
    (remote_index.rs), from which B's lookup answers; a client that follows the answer gets
    the data from A. *)
From S2P Require Import Prelude Pool Block Allocator Policy Lru Index RemoteIndex Placement Config Metadata Cluster Pressure Grpc Service Trace.
Local Open Scope Z_scope.

(** The key of a lookup request. *)
Definition lookup_key (sha256 : bytes → bytes) (req : LookupRequest) : bytes :=
  composite_key sha256 (lr_model_id req) (lr_prefix_hash req).

(** The publication a task of [store] sends. *)
Definition publish_task {E wire} `{!Codec wire} `{!Etcd E wire} (client : MetadataClient) (t : PublishTask) (e : E) :
    result unit string * E :=
  publish_block client (pt_prefix_hash t) (pt_offset t) (pt_size t) (pt_generation t) e.

Section end_to_end.
Context {E wire : Type} `{!Codec wire} `{!CodecOk wire} `{!Etcd E wire} `{!EtcdStore E wire}.
Context (sha256 : bytes → bytes) (crc32 : bytes → Z) (pad : bytes).

(** What the watch and the lookup of a node make of a publication it had no entry for. *)
Lemma lookup_after_publication (s : CacheService) (ri : RemoteIndex) (req : LookupRequest) (v : wire) meta :
  as_remote_index (cs_state s) = Some ri → remote_lookup (lookup_key sha256 req) ri = None →
  bi_map (index s) !! lookup_key sha256 req = None →
  length (lr_prefix_hash req) = 16%nat → hash_ok (lookup_key sha256 req) → meta_from_json v = Some meta →
  let m := BlockMsg (Ok (Some [mkEvent EventPut (Some (block_key (lookup_key sha256 req), v))])) in
  ∃ s1 s2, watch_turn sha256 m s = (Ret tt, s1) ∧
    lookup sha256 req s1 =
      (Ret (Ok (mkLookupResponse true
                  [mkProtoLocation (bm_node_id meta) (bm_offset meta) (bm_size meta) (bm_generation meta)] false)), s2).
Proof.
  intros Hri Hnone Hmap Hlen Hk Hv m. set (k := lookup_key sha256 req) in *.
  eexists _, _. split; [reflexivity|]. cbn beta. rewrite Hri. unfold m, watch_step. cbn [fst snd foldl].
  rewrite (block_put_event _ _ _ _ Hk Hv).
  assert (remote_insert k (remote_info meta) ri = mkRemoteIndex (<[k := [remote_info meta]]> (ri_map ri))) as ->
    by (unfold remote_insert; by rewrite Hnone).
  set (s1 := set_cluster _ _ s). unfold lookup.
  rewrite (and_then_Ok _ _ _ _ (parse_16 _ Hlen)). fold (lookup_key sha256 req). fold k.
  assert (on_index (index_lookup k) s1 = (Ret None, s1)) as Hl.
  { unfold on_index, zoom, index_lookup. munfold. change (bi_map (index s1)) with (bi_map (index s)). rewrite Hmap.
    by rewrite set_index_id. }
  rewrite (bind_Ret _ _ _ _ _ Hl). erewrite bind_Ret by reflexivity. cbn beta iota.
  assert (as_remote_index (cs_state s1) ≫= (λ ri, remote_lookup k ri ≫= head) = Some (remote_info meta)) as ->.
  { cbn. unfold remote_lookup. cbn. by rewrite lookup_insert_eq. }
  erewrite bind_Ret by reflexivity. reflexivity.
Qed.

End end_to_end.

(** *** A concrete path: node-a stores for model "m", node-b looks up *)
Definition stateA : AgentState :=
  mkAgentState alloc4 (index_new 4) "node-a" default_config (Some client_a) PRESSURE_NORMAL (Some remote_new)
    (Some (ring_new 2)).
Definition svcA : CacheService := service_new stateA.
Definition svcB : CacheService := svc4.
Definition streamA : store_stream :=
  [Ok (Some (StoreHeaderMsg (mkStoreHeader (hash 3) 1 2 "m"))); Ok (Some (StoreData [31; 32]))].
Definition keyA : bytes := composite_key toy_digest "m" (hash 3).
Definition storedA : CacheService := (store toy_digest sum_crc pad0 100 streamA (final toy_digest sum_crc pad0 svcA session)).2.

Lemma svcA_fresh : fresh_service svcA.
Proof. split; [exact pool4_client|by vm_compute..]. Qed.

