(* ===== verification/Types.v ===== *)
(** * Machine types of the service

    The model keeps integers as [Z] and hashes as lists.  This file shows that nothing the
    service does leaves the types of the source (state.rs, grpc.rs, index.rs, allocator.rs,
    remote_index.rs and the messages of cmx.proto): keys have 16 bytes, locations and replies
    hold [u32] and [u64] values, counters stay [u64], the pressure level is one of the four.
    It holds of every state of these types, fresh or not, and whatever the outcome of the
    request is.  The proofs are triples over the monad, one per method. *)
From S2P Require Import Prelude Pool Block Allocator Policy Lru Index RemoteIndex Placement Config Metadata Cluster Pressure Grpc Service Trace.
Local Open Scope Z_scope.

(** ** Types of the data *)
Definition location_typed (l : BlockLocation) : Prop :=
  is_u32 (bl_node_id l) ∧ is_u32 (bl_block_index l) ∧ is_u64 (bl_offset l) ∧
  is_u64 (bl_block_size l) ∧ is_u64 (bl_generation l).
(** An entry of the service holds one block. *)
Definition entry_typed (e : IndexEntry) : Prop :=
  is_u64 (ie_created_at e) ∧ ∃ loc, ie_blocks e = [loc] ∧ location_typed loc.
Definition handle_typed (h : BlockHandle) : Prop := is_u32 (bh_block_index h) ∧ is_u64 (bh_offset h).
Definition info_typed (i : RemoteBlockInfo) : Prop :=
  is_u64 (ri_offset i) ∧ is_u64 (ri_size i) ∧ is_u64 (ri_generation i).
Definition meta_typed (m : BlockLocationMeta) : Prop :=
  is_u64 (bm_offset m) ∧ is_u64 (bm_size m) ∧ is_u64 (bm_generation m).
Definition task_typed (t : PublishTask) : Prop :=
  hash_ok (pt_prefix_hash t) ∧ is_u64 (pt_offset t) ∧ is_u64 (pt_size t) ∧ is_u64 (pt_generation t).

(** ** Types of the components *)
Definition pool_typed (p : MemoryPool) : Prop := is_u64 (block_size p).
Definition alloc_typed (a : BlockAllocator) : Prop :=
  is_u64 (al_generation a) ∧ is_u32 (al_node_id a) ∧ pool_typed (al_pool a).
Definition index_typed (i : BlockIndex LruInner) : Prop :=
  map_Forall (λ k e, hash_ok k ∧ entry_typed e) (bi_map i).
Definition remote_typed (ri : RemoteIndex) : Prop := map_Forall (λ _ es, Forall info_typed es) (ri_map ri).

Record service_typed (s : CacheService) : Prop := {
  st_alloc : alloc_typed (allocator s);
  st_index : index_typed (index s);
  st_hits : is_u64 (cs_cache_hits s);
  st_misses : is_u64 (cs_cache_misses s);
  st_evictions : is_u64 (cs_evictions s);
  st_level : PRESSURE_NORMAL ≤ as_pressure_level (cs_state s) ≤ PRESSURE_REJECT;
  st_remote : ∀ ri, as_remote_index (cs_state s) = Some ri → remote_typed ri;
  st_tasks : Forall task_typed (cs_spawned s);
}.

(** ** Types of requests and replies (cmx.proto) *)
Definition block_typed (b : ProtoLocation) : Prop :=
  is_u64 (pl_offset b) ∧ is_u64 (pl_size b) ∧ is_u64 (pl_generation_id b).
Definition payload_typed (m : result GetPayload Status) : Prop :=
  match m with
  | Ok (GetHeaderMsg h) => is_u64 (gh_total_size h) ∧ is_u32 (gh_num_blocks h) ∧ is_u64 (gh_generation_id h)
  | _ => True
  end.
Definition stats_typed (r : StatsResponse) : Prop :=
  Forall is_u64 [sp_total_blocks r; sp_used_blocks r; sp_cache_hits r; sp_cache_misses r; sp_evictions r;
                 sp_memory_used_bytes r; sp_memory_total_bytes r].
Definition reply_typed (r : reply) : Prop :=
  match r with
  | RepLookup (Ok r) => Forall block_typed (lp_blocks r)
  | RepBatch (Ok r) => Forall block_typed (bp_blocks r)
  | RepStore (Ok r) => is_u64 (sr_generation_id r)
  | RepGet (Ok msgs) => Forall payload_typed msgs
  | RepDelete (Ok r) => is_u64 (dr_blocks_freed r)
  | RepStats (Ok r) => stats_typed r
  | RepHealth (Ok r) => is_u64 (hp_uptime_seconds r)
  | _ => True
  end.
Definition request_typed {wire} (rq : request wire) : Prop :=
  match rq with
  | ReqStore now stream =>
      is_u64 now ∧ ∀ header rest, first_header stream = Ok (header, rest) → Forall is_byte (sh_prefix_hash header)
  | ReqHealth uptime => is_u64 uptime
  | _ => True
  end.

(** ** Triples of the pool and the allocator *)
Lemma triple_get_ptr h : hoare pool_typed (get_ptr h) (λ _, True).
Proof. unfold get_ptr. triple. done. Qed.
#[export] Hint Resolve triple_get_ptr : triples.

Lemma triple_allocate :
  hoare pool_typed allocate (λ o, match o with Some h => handle_typed h | None => True end).
Proof. unfold allocate. triple; [|done]. split; [apply as_u32_range|apply as_u64_range]. Qed.
Lemma triple_deallocate h : hoare pool_typed (deallocate h) (λ _, True).
Proof. unfold deallocate. triple. Qed.
Lemma triple_get_slice h : hoare pool_typed (get_slice h) (λ _, True).
Proof. unfold get_slice. triple. done. Qed.
Lemma triple_get_slice_mut h : hoare pool_typed (get_slice_mut h) (λ _, True).
Proof. unfold get_slice_mut. triple. done. Qed.
Lemma triple_with_view {A} view a b (m : M bytes A) : hoare pool_typed (with_view view a b m) (λ _, True).
Proof. unfold with_view. triple. by apply hoare_zoom_any. Qed.
Lemma triple_pool_stats : hoare pool_typed pool_stats (λ _, True).
Proof. unfold pool_stats. triple. done. Qed.
#[export] Hint Resolve triple_allocate triple_deallocate triple_get_slice triple_get_slice_mut triple_with_view
  triple_pool_stats : triples.

Lemma triple_on_pool {A} (m : M MemoryPool A) Q : hoare pool_typed m Q → hoare alloc_typed (on_pool m) Q.
Proof. apply hoare_zoom; [by intros a (_ & _ & ?)|]. by intros p a (? & ? & _) ?. Qed.
#[export] Hint Resolve triple_on_pool : triples.

Lemma triple_next_generation : hoare alloc_typed next_generation is_u64.
Proof.
  unfold next_generation. eapply hoare_bind; [apply (hoare_gets _ _ is_u64); by intros a (? & _)|].
  intros g Hg. eapply hoare_bind; [|intros _ _; by apply hoare_ret].
  apply hoare_modify. intros a (_ & ? & ?). split; [apply as_u64_range|done].
Qed.
#[export] Hint Resolve triple_next_generation : triples.

Section triples.
Context (sha256 : bytes → bytes) (crc32 : bytes → Z) (pad : bytes).
Context (Hsha : ∀ m, length (sha256 m) = 32%nat ∧ Forall is_byte (sha256 m)).

Lemma triple_allocate_and_write data :
  hoare alloc_typed (allocate_and_write crc32 pad data)
    (λ o, match o with Some (loc, _) => location_typed loc | None => True end).
Proof.
  unfold allocate_and_write, view_copy. triple; [done| |done].
  unfold alloc_typed, location_typed, handle_typed, pool_typed in *. cbn. tauto.
Qed.
Lemma triple_read_verified h : hoare alloc_typed (read_verified crc32 h) (λ _, True).
Proof. unfold read_verified. triple; done. Qed.
Lemma triple_al_deallocate h : hoare alloc_typed (al_deallocate h) (λ _, True).
Proof. unfold al_deallocate. triple. Qed.
Lemma triple_al_stats : hoare alloc_typed al_stats (λ _, True).
Proof. unfold al_stats. triple. Qed.
#[local] Hint Resolve triple_allocate_and_write triple_read_verified triple_al_deallocate triple_al_stats : triples.

(** ** Triples of the index *)
Lemma triple_on_lru {A} (m : M LruInner A) : hoare index_typed (on_lru m) (λ _, True).
Proof. by apply hoare_zoom_any. Qed.
#[local] Hint Resolve triple_on_lru : triples.

Lemma index_typed_delete k i : index_typed i → index_typed (set_bi_map (delete k (bi_map i)) i).
Proof. intros Hi. by apply map_Forall_delete. Qed.

Lemma triple_index_lookup k :
  hoare index_typed (index_lookup k) (λ o, match o with Some e => entry_typed e | None => True end).
Proof.
  unfold index_lookup. eapply hoare_bind; [apply hoare_get|]. intros i Hi.
  destruct (bi_map i !! k) as [e|] eqn:He; [|by apply hoare_ret].
  eapply hoare_bind; [apply triple_on_lru|]. intros _ _. apply hoare_ret. by destruct (Hi _ _ He).
Qed.

Lemma triple_evict_loop fuel evicted : hoare index_typed (evict_loop fuel evicted) (λ _, True).
Proof.
  revert evicted. induction fuel as [|fuel IH]; intros evicted; cbn [evict_loop]; [by intros i Hi|].
  triple; try done. eapply hoare_bind; [apply hoare_modify; intros; by apply index_typed_delete|]. intros _ _. apply IH.
Qed.
#[local] Hint Resolve triple_evict_loop : triples.

Lemma triple_index_insert k loc now :
  hash_ok k → is_u64 now → location_typed loc → hoare index_typed (index_insert k [loc] now) (λ _, True).
Proof.
  intros Hk Hn Hl. unfold index_insert. eapply hoare_bind; [apply hoare_get|]. intros i _.
  eapply (hoare_bind _ _ _ (λ _, True)); [destruct (bool_decide _); [by apply hoare_ret|apply triple_evict_loop]|]. intros ev _.
  eapply hoare_bind; [apply hoare_modify; intros i' Hi'; apply map_Forall_insert_2; [|done]|].
  { split; [done|]. split; [done|]. by exists loc. }
  intros _ _. eapply hoare_bind; [apply triple_on_lru|]. intros _ _. by apply hoare_ret.
Qed.

Lemma triple_index_remove k :
  hoare index_typed (index_remove k) (λ o, match o with Some e => entry_typed e | None => True end).
Proof.
  unfold index_remove. eapply hoare_bind; [apply hoare_get|]. intros i Hi.
  destruct (bi_map i !! k) as [e|] eqn:He; [|by apply hoare_ret].
  eapply hoare_bind; [apply hoare_modify; intros; by apply index_typed_delete|]. intros _ _.
  eapply hoare_bind; [apply triple_on_lru|]. intros _ _. apply hoare_ret. by destruct (Hi _ _ He).
Qed.
#[local] Hint Resolve triple_index_lookup triple_index_insert triple_index_remove : triples.

(** ** Triples of the handlers *)
Definition okp {A} (Q : A → Prop) (r : result A Status) : Prop := match r with Ok a => Q a | Err _ => True end.
Local Abbreviation typed m Q := (hoare service_typed m Q).

Lemma triple_on_allocator {A} (m : M BlockAllocator A) Q : hoare alloc_typed m Q → typed (on_allocator m) Q.
Proof. apply hoare_zoom; [by intros s []|]. intros a s [] Ha. by split. Qed.
Lemma triple_on_index {A} (m : M (BlockIndex LruInner) A) Q : hoare index_typed m Q → typed (on_index m) Q.
Proof. apply hoare_zoom; [by intros s []|]. intros a s [] Ha. by split. Qed.
Lemma triple_add_hit : typed add_hit (λ _, True).
Proof. apply hoare_modify. intros s []. split; try done. apply as_u64_range. Qed.
Lemma triple_add_miss : typed add_miss (λ _, True).
Proof. apply hoare_modify. intros s []. split; try done. apply as_u64_range. Qed.
Lemma triple_add_evictions n : typed (add_evictions n) (λ _, True).
Proof. apply hoare_modify. intros s []. split; try done. apply as_u64_range. Qed.
Lemma triple_spawn t : task_typed t → typed (spawn_publish t) (λ _, True).
Proof. intros Ht. apply hoare_modify. intros s []. split; try done. cbn. apply Forall_app. split; [done|by constructor]. Qed.
Lemma triple_and_then {A B} (m : handler A) (k : A → handler B) (Q : A → Prop) (R : B → Prop) :
  typed m (okp Q) → (∀ a, Q a → typed (k a) (okp R)) → typed (and_then m k) (okp R).
Proof. intros Hm Hk. eapply hoare_bind; [exact Hm|]. intros [a|e] Ha; [by apply Hk|]. by apply hoare_ret. Qed.
#[local] Hint Resolve triple_on_allocator triple_on_index triple_add_hit triple_add_miss triple_add_evictions
  triple_spawn : triples.

Lemma triple_parse h : typed (mret (parse_prefix_hash h)) (okp (λ h', h' = h ∧ length h = 16%nat)).
Proof. apply hoare_ret. unfold parse_prefix_hash. by case_bool_decide. Qed.

Lemma composite_key_typed model h :
  length h = 16%nat → Forall is_byte h → hash_ok (composite_key sha256 model h).
Proof using Hsha.
  intros Hl Hb. unfold composite_key. case_bool_decide; [done|].
  destruct (Hsha (as_bytes model ++ h)) as [Hlen Hby]. split; [rewrite length_take; lia|by apply Forall_take].
Qed.

Lemma proto_location_typed node e : entry_typed e → Forall block_typed (proto_location node <$> ie_blocks e).
Proof.
  intros (_ & loc & -> & Hl). constructor; [|constructor]. unfold location_typed, block_typed in *. cbn. tauto.
Qed.

Lemma remote_first_typed s k first :
  service_typed s → (as_remote_index (cs_state s) ≫= λ ri, remote_lookup k ri ≫= head) = Some first → info_typed first.
Proof.
  intros Hs Hf. destruct (as_remote_index (cs_state s)) as [ri|] eqn:Hri; [|done]. cbn in Hf.
  destruct (remote_lookup k ri) as [[|e es]|] eqn:Hes; cbn in Hf; simplify_eq.
  pose proof (st_remote s Hs ri Hri k _ Hes) as Hall. by inversion_clear Hall.
Qed.

Lemma triple_lookup req : typed (lookup sha256 req) (okp (λ r, Forall block_typed (lp_blocks r))).
Proof.
  unfold lookup, ok. eapply triple_and_then; [apply triple_parse|]. intros h _.
  eapply hoare_bind; [eauto with triples|]. intros found Hfound.
  eapply hoare_bind; [apply hoare_get|]. intros self Hself. destruct found as [e|].
  - triple. by apply proto_location_typed.
  - destruct (as_remote_index _ ≫= _) as [first|] eqn:Hf; triple; cbn; [|done].
    apply (remote_first_typed _ _ _ Hself) in Hf. by constructor.
Qed.

Lemma triple_batch model hashes found blocks :
  Forall block_typed blocks →
  typed (batch_loop sha256 model hashes found blocks) (okp (λ r, Forall block_typed (bp_blocks r))).
Proof.
  revert found blocks. induction hashes as [|h hashes IH]; intros found blocks Hb; cbn [batch_loop];
    [by apply hoare_ret|].
  eapply triple_and_then; [apply triple_parse|]. intros h' _.
  eapply hoare_bind; [eauto with triples|]. intros r Hr. eapply hoare_bind; [apply hoare_get|]. intros self _.
  destruct r as [e|]; (eapply hoare_bind; [eauto with triples|]); intros _ _; apply IH; [|done].
  apply Forall_app. split; [done|by apply proto_location_typed].
Qed.

Lemma triple_store now stream :
  is_u64 now → (∀ header rest, first_header stream = Ok (header, rest) → Forall is_byte (sh_prefix_hash header)) →
  typed (store sha256 crc32 pad now stream) (okp (λ r, is_u64 (sr_generation_id r))).
Proof using Hsha.
  intros Hnow Hstream. unfold store. eapply hoare_bind; [apply hoare_get|]. intros self _.
  destruct (_ >=? _); [by apply hoare_ret|].
  eapply (triple_and_then _ _ (λ hs, first_header stream = Ok hs)).
  { apply hoare_ret. by destruct (first_header stream). }
  intros [header rest] Hfirst. eapply triple_and_then; [apply triple_parse|]. intros h [-> Hlen].
  pose proof (composite_key_typed (sh_model_id header) _ Hlen (Hstream _ _ Hfirst)) as Hk.
  eapply hoare_bind; [apply hoare_assert|]. intros _ _.
  eapply (triple_and_then _ _ (λ _, True)); [apply hoare_ret; by destruct (collect_chunks [] rest)|]. intros data _.
  eapply hoare_bind; [eauto with triples|]. intros [[loc h]|] Hloc; [|by apply hoare_ret].
  eapply hoare_bind; [eauto with triples|]. intros ev _.
  eapply hoare_bind; [eauto with triples|]. intros _ _. eapply hoare_bind; [eauto with triples|]. intros _ _.
  unfold location_typed in Hloc. eapply (hoare_bind _ _ _ (λ _, True)).
  - destruct (as_metadata _); [|by apply hoare_ret]. apply triple_spawn. unfold task_typed. cbn. tauto.
  - intros _ _. apply hoare_ret. cbn. tauto.
Qed.

Lemma triple_get req : typed (get sha256 req) (okp entry_typed).
Proof.
  unfold get, ok, fail. eapply triple_and_then; [apply triple_parse|]. intros h _.
  eapply hoare_bind; [eauto with triples|]. intros [e|] He; triple; done.
Qed.

Lemma triple_send_blocks sends blocks :
  hoare alloc_typed (send_blocks crc32 sends blocks) (Forall payload_typed).
Proof.
  revert blocks. induction sends as [|sends IH]; intros [|loc blocks]; cbn [send_blocks]; try by apply hoare_ret.
  - eapply hoare_bind; [apply triple_read_verified|]. by intros [data|] _; apply hoare_ret.
  - eapply hoare_bind; [apply triple_read_verified|]. intros [data|] _; [|apply hoare_ret; by repeat constructor].
    eapply hoare_bind; [apply IH|]. intros rest Hrest. apply hoare_ret. by constructor.
Qed.

Lemma sum_u64_range l : is_u64 (sum_u64 l).
Proof.
  unfold sum_u64. assert (is_u64 0) as H0 by done. revert H0. generalize 0.
  induction l as [|x l IH]; intros acc Hacc; cbn; [done|]. apply IH, as_u64_range.
Qed.

Lemma triple_get_now req : typed (get_now sha256 crc32 req) (okp (Forall payload_typed)).
Proof.
  unfold get_now, ok. eapply triple_and_then; [apply triple_get|]. intros e He.
  eapply hoare_bind; [apply triple_on_allocator|intros msgs Hmsgs; by apply hoare_ret].
  unfold get_task. eapply hoare_bind; [apply triple_send_blocks|]. intros rest Hrest. apply hoare_ret.
  constructor; [|done]. unfold payload_typed, get_header. cbn [gh_total_size gh_num_blocks gh_generation_id].
  split; [apply sum_u64_range|]. split; [apply as_u32_range|]. destruct He as (_ & loc & -> & Hl).
  unfold location_typed in Hl. cbn. tauto.
Qed.

Lemma triple_free_blocks blocks : typed (free_blocks blocks) (λ _, True).
Proof.
  induction blocks as [|loc blocks IH]; cbn [free_blocks]; [by apply hoare_ret|].
  eapply hoare_bind; [eauto with triples|]. intros _ _. exact IH.
Qed.
#[local] Hint Resolve triple_free_blocks : triples.

Lemma triple_delete h : typed (delete_key h) (okp (λ r, is_u64 (dr_blocks_freed r))).
Proof.
  unfold delete_key, ok. eapply triple_and_then; [apply triple_parse|]. intros h' _.
  eapply hoare_bind; [eauto with triples|]. intros [e|] He; triple; cbn; [|done].
  by destruct He as (_ & loc & -> & _).
Qed.

Lemma triple_stats : typed stats (okp stats_typed).
Proof.
  unfold stats, ok. eapply hoare_bind; [eauto with triples|]. intros st _.
  eapply hoare_bind; [apply hoare_get|]. intros self []. apply hoare_ret.
  unfold okp, stats_typed. rewrite !Forall_cons. cbn. repeat (split; [first [done | apply as_u64_range]|]). by constructor.
Qed.

Lemma triple_monitor : typed monitor_turn (λ _, True).
Proof.
  unfold monitor_turn. eapply hoare_bind; [eauto with triples|]. intros st _.
  apply hoare_modify. intros s []. split; try done. apply select_level_range.
Qed.

(** ** The watches *)
Context {wire : Type} `{!Codec wire}.
Context (Hmeta : ∀ w m, meta_from_json w = Some m → meta_typed m).

Lemma upsert_typed info es : info_typed info → Forall info_typed es → Forall info_typed (upsert info es).
Proof. intros Hi. induction 1 as [|e es He Hes IH]; cbn; [by constructor|]. case_bool_decide; by constructor. Qed.

Lemma remote_insert_typed k info ri : info_typed info → remote_typed ri → remote_typed (remote_insert k info ri).
Proof.
  intros Hi Hri. unfold remote_insert. destruct (remote_lookup k ri) as [es|] eqn:He; apply map_Forall_insert_2; try done.
  - apply upsert_typed; [done|]. exact (Hri _ _ He).
  - by constructor.
Qed.

Lemma remote_remove_node_typed n ri : remote_typed ri → remote_typed (remote_remove_node n ri).
Proof.
  intros Hri k es. cbn. rewrite lookup_omap. destruct (ri_map ri !! k) as [es0|] eqn:He; [|done]. cbn.
  pose proof (Hri _ _ He) as Hall. unfold retain_other.
  destruct (filter _ es0) as [|e es'] eqn:Hf; [done|]. intros [= <-]. rewrite <- Hf.
  apply Forall_forall. intros x [_ Hx]%list_elem_of_filter. by eapply Forall_forall in Hall.
Qed.

Lemma block_event_typed ri (ev : Event wire) : remote_typed ri → remote_typed (block_event ri ev).
Proof using Hmeta.
  intros Hri. unfold block_event. destruct (ev_kv ev) as [[key v]|]; [|done].
  destruct (hex_decode _) as [h|]; [|done]. case_bool_decide; [|done]. destruct (ev_type ev).
  - destruct (meta_from_json v) as [meta|] eqn:Hm; [|done]. apply remote_insert_typed; [|done]. exact (Hmeta _ _ Hm).
  - by apply map_Forall_delete.
Qed.

Lemma node_event_typed s (ev : Event wire) : remote_typed s.1 → remote_typed (node_event sha256 s ev).1.
Proof.
  destruct s as [ri hr]. intros Hri. unfold node_event. destruct (ev_kv ev) as [[key v]|]; [|done].
  destruct (ev_type ev); [done|]. by apply remote_remove_node_typed.
Qed.

Lemma watch_step_typed s m s' : watch_step sha256 s m = Some s' → remote_typed s.1 → remote_typed s'.1.
Proof using Hmeta.
  destruct m as [[[evs|]|]|[[evs|]|]]; cbn; intros [= <-] Hs.
  - cbn. apply (foldl_inv _ remote_typed); [|done]. intros. by apply block_event_typed.
  - apply (foldl_inv _ (λ s, remote_typed s.1)); [|done]. intros. by apply node_event_typed.
Qed.

Lemma triple_watch m : typed (watch_turn sha256 m) (λ _, True).
Proof using Hmeta.
  apply hoare_modify. intros s Hs. destruct (as_remote_index (cs_state s)) as [ri|] eqn:Hri; [|done].
  destruct (watch_step sha256 (ri, as_hash_ring (cs_state s)) m) as [[ri' hr']|] eqn:Hw; [|done].
  apply watch_step_typed in Hw; [|exact (st_remote s Hs ri Hri)]. destruct Hs. split; try done. by intros ? [= <-].
Qed.

(** Requests keep the types, and replies have them. *)
Lemma triple_serve rq : request_typed rq → typed (serve sha256 crc32 pad rq) reply_typed.
Proof using Hsha Hmeta.
  intros Hrq. destruct rq as [req|req|now stream|req|h| |t| |m]; cbn [serve].
  - eapply hoare_bind; [apply triple_lookup|]. intros r Hr. by apply hoare_ret.
  - eapply hoare_bind; [by apply triple_batch|]. intros r Hr. by apply hoare_ret.
  - destruct Hrq. eapply hoare_bind; [by apply triple_store|]. intros r Hr. by apply hoare_ret.
  - eapply hoare_bind; [apply triple_get_now|]. intros r Hr. by apply hoare_ret.
  - eapply hoare_bind; [apply triple_delete|]. intros r Hr. by apply hoare_ret.
  - eapply hoare_bind; [apply triple_stats|]. intros r Hr. by apply hoare_ret.
  - unfold health, ok. eapply hoare_bind.
    + eapply hoare_bind; [apply hoare_get|]. intros self _. by apply (hoare_ret _ _ (okp (λ r, is_u64 (hp_uptime_seconds r)))).
    + intros r Hr. by apply hoare_ret.
  - eapply hoare_bind; [apply triple_monitor|]. intros _ _. by apply hoare_ret.
  - eapply hoare_bind; [apply triple_watch|]. intros _ _. by apply hoare_ret.
Qed.

End triples.

(** *** Witness: the concrete service and its session *)
Lemma toy_digest_typed m : length (toy_digest m) = 32%nat ∧ Forall is_byte (toy_digest m).
Proof. split; [|apply toy_digest_bytes]. unfold toy_digest. rewrite length_app, length_reverse, length_le_encode, length_replicate. done. Qed.

(** The codec of the witness decodes nothing. *)
Definition no_codec : Codec unit := {|
  node_to_json _ := None; json_default := tt; node_from_json _ := None; meta_to_json _ := None;
  meta_from_json _ := None; hex_encode _ := ""; hex_decode _ := None |}.

Definition typed_session : list (request unit) :=
  [ReqStore 100 [Ok (Some (StoreHeaderMsg (mkStoreHeader (hash 1) 1 2 "m"))); Ok (Some (StoreData [11; 12]))];
   ReqGet (get_req "m" (hash 1)); ReqStats].

