(* ===== verification/ConcService.v ===== *)
(** * The handlers under concurrent requests

    tonic runs every request as its own task over the shared [CacheService]
    (crates/cmx-agent/src/grpc.rs); nothing serialises them.  Here the seven handlers and the
    turn of the pressure monitor are split into their accesses to shared state: the free list
    behind its mutex, the generation counter, the bytes of the block being written (header,
    then data), every access of the index as in ConcIndex, the blocks read by a sender task,
    the blocks given back, the remote index, the counters and the pressure level.  A schedule
    interleaves the tasks access by access.

    The file shows that a task running alone is the handler of Grpc; ConcSafety shows what
    holds of every schedule. *)
From S2P Require Import Prelude Pool Block Allocator Policy Lru Index ConcIndex RemoteIndex Placement Config Metadata Pressure Grpc Service Trace.
From stdpp Require Import relations.
Local Open Scope Z_scope.

(** ** Tasks *)

(** Where a task is, with its local variables. *)
Inductive task :=
  | StoreStart (now : Z) (stream : store_stream)
  | StoreAlloc (now : Z) (key data : bytes)
  | StoreGen (now : Z) (key data : bytes) (handle : BlockHandle)
  | StoreHead (now : Z) (key data : bytes) (handle : BlockHandle) (gen : Z) (block_slice : Z * Z)
  | StoreBody (now : Z) (key data : bytes) (handle : BlockHandle) (gen : Z) (block_slice : Z * Z)
  | StoreIndex (key : bytes) (loc : BlockLocation) (c : pc)
  | StoreFinish (key : bytes) (loc : BlockLocation) (evicted : list bytes)
  | GetStart (req : GetRequest)
  | GetIndex (c : pc)
  | GetFinish (found : option IndexEntry)
  | GetSend (blocks : list BlockLocation) (sent : list (result GetPayload Status))
  | DeleteStart (prefix_hash : bytes)
  | DeleteIndex (c : pc)
  | DeleteFree (blocks : list BlockLocation) (blocks_freed : Z)
  | TickStats
  | TickSwap (st : PoolStats)
  | LookupStart (req : LookupRequest)
  | LookupIndex (key : bytes) (c : pc)
  | LookupHit (entry : IndexEntry)
  | LookupRemote (key : bytes)
  | LookupCount (first : option RemoteBlockInfo)
  | BatchStart (req : BatchLookupRequest)
  | BatchLoop (model_id : string) (hashes : list bytes) (found : list bool) (blocks : list ProtoLocation)
  | BatchIndex (model_id : string) (hashes : list bytes) (found : list bool) (blocks : list ProtoLocation) (c : pc)
  | BatchCount (model_id : string) (hashes : list bytes) (found : list bool) (blocks : list ProtoLocation)
      (entry : option IndexEntry)
  | StatsStart
  | StatsHits (st : PoolStats)
  | StatsMisses (st : PoolStats) (hits : Z)
  | StatsEvictions (st : PoolStats) (hits misses : Z)
  | HealthRead (uptime : Z)
  | Replied (r : reply)
  | Died.

Definition task_pc (t : task) : option pc :=
  match t with
  | StoreIndex _ _ c | GetIndex c | DeleteIndex c | LookupIndex _ c | BatchIndex _ _ _ _ c => Some c
  | _ => None
  end.

Definition ended (t : task) : bool := match t with Replied _ | Died => true | _ => false end.

Section tasks.
Context (sha256 : bytes → bytes) (crc32 : bytes → Z) (pad : bytes).

(** The next access of a task and what remains of it. *)
Definition task_action (t : task) : M CacheService task :=
  match t with
  | StoreStart now stream =>
      self ← gets (λ s, s);
      if as_pressure_level (cs_state self) >=? PRESSURE_REJECT then
        mret (Replied (RepStore (Err (ResourceExhausted "memory pressure too high — store rejected"))))
      else
        match first_header stream with
        | Err e => mret (Replied (RepStore (Err e)))
        | Ok (header, stream) =>
            match parse_prefix_hash (sh_prefix_hash header) with
            | Err e => mret (Replied (RepStore (Err e)))
            | Ok prefix_hash =>
                with_capacity (as_usize (sh_total_size header));;
                match collect_chunks [] stream with
                | Err e => mret (Replied (RepStore (Err e)))
                | Ok data => mret (StoreAlloc now (composite_key sha256 (sh_model_id header) prefix_hash) data)
                end
            end
        end
  | StoreAlloc now key data =>
      self ← gets allocator;
      let max_data := as_usize (block_size (al_pool self) - HEADER_SIZE) in
      if max_data <? zlen data then mret (Replied (RepStore (Err (ResourceExhausted "memory pool exhausted"))))
      else
        oh ← on_allocator (on_pool allocate);
        match oh with
        | None => mret (Replied (RepStore (Err (ResourceExhausted "memory pool exhausted"))))
        | Some handle => mret (StoreGen now key data handle)
        end
  | StoreGen now key data handle =>
      gen ← on_allocator next_generation;
      block_slice ← on_allocator (on_pool (get_slice_mut handle));
      mret (StoreHead now key data handle gen block_slice)
  | StoreHead now key data handle gen block_slice =>
      on_allocator (on_pool (with_view block_slice 0 HEADER_SIZE (write_to pad (header_new crc32 data gen))));;
      mret (StoreBody now key data handle gen block_slice)
  | StoreBody now key data handle gen block_slice =>
      on_allocator (on_pool (view_copy block_slice HEADER_SIZE (HEADER_SIZE + zlen data) data));;
      self ← gets allocator;
      let loc := mkBlockLocation (al_node_id self) (bh_block_index handle) (bh_offset handle)
                   (block_size (al_pool self)) gen in
      mret (StoreIndex key loc (InsertCheck key (mkIndexEntry [loc] now)))
  | StoreIndex key loc c =>
      r ← on_index (action c);
      match r with
      | inl c' => mret (StoreIndex key loc c')
      | inr (OEvicted evicted) => mret (StoreFinish key loc evicted)
      | inr _ => panic
      end
  | StoreFinish key loc evicted =>
      add_evictions (zlen evicted);;
      on_allocator al_stats;;
      self ← gets (λ s, s);
      match as_metadata (cs_state self) with
      | Some _ => spawn_publish (mkPublishTask key (bl_offset loc) (bl_block_size loc) (bl_generation loc))
      | None => mret tt
      end;;
      mret (Replied (RepStore (Ok (mkStoreResponse true "" (bl_generation loc)))))
  | GetStart req =>
      match parse_prefix_hash (gr_prefix_hash req) with
      | Err e => mret (Replied (RepGet (Err e)))
      | Ok prefix_hash => mret (GetIndex (LookupGet (composite_key sha256 (gr_model_id req) prefix_hash)))
      end
  | GetIndex c =>
      r ← on_index (action c);
      match r with
      | inl c' => mret (GetIndex c')
      | inr (OEntry found) => mret (GetFinish found)
      | inr _ => panic
      end
  | GetFinish None =>
      add_miss;; mret (Replied (RepGet (Err (NotFound "prefix hash not found in cache"))))
  | GetFinish (Some entry) =>
      add_hit;; mret (GetSend (ie_blocks entry) [Ok (GetHeaderMsg (get_header entry))])
  | GetSend [] sent => mret (Replied (RepGet (Ok sent)))
  | GetSend (loc :: blocks) sent =>
      r ← on_allocator (read_verified crc32 (loc_handle loc));
      match r with
      | Some data => mret (GetSend blocks (sent ++ [Ok (GetData data)]))
      | None => mret (GetSend [] (sent ++ [Err (DataLoss "block CRC32C verification failed")]))
      end
  | DeleteStart prefix_hash =>
      match parse_prefix_hash prefix_hash with
      | Err e => mret (Replied (RepDelete (Err e)))
      | Ok prefix_hash => mret (DeleteIndex (RemoveMap prefix_hash))
      end
  | DeleteIndex c =>
      r ← on_index (action c);
      match r with
      | inl c' => mret (DeleteIndex c')
      | inr (OEntry (Some entry)) => mret (DeleteFree (ie_blocks entry) (zlen (ie_blocks entry)))
      | inr (OEntry None) => mret (Replied (RepDelete (Ok (mkDeleteResponse false 0))))
      | inr _ => panic
      end
  | DeleteFree [] blocks_freed => mret (Replied (RepDelete (Ok (mkDeleteResponse true blocks_freed))))
  | DeleteFree (loc :: blocks) blocks_freed =>
      on_allocator (al_deallocate (loc_handle loc));; mret (DeleteFree blocks blocks_freed)
  | TickStats => st ← on_allocator al_stats; mret (TickSwap st)
  | TickSwap st =>
      modify (λ s, let mem := cfg_memory (as_config (cs_state s)) in
        set_pressure (pressure_tick (cfg_pressure_warn mem) (cfg_pressure_critical mem) (cfg_pressure_reject mem)
                        st (as_pressure_level (cs_state s))).1 s);;
      mret (Replied RepDone)
  | LookupStart req =>
      match parse_prefix_hash (lr_prefix_hash req) with
      | Err e => mret (Replied (RepLookup (Err e)))
      | Ok prefix_hash =>
          let index_key := composite_key sha256 (lr_model_id req) prefix_hash in
          mret (LookupIndex index_key (LookupGet index_key))
      end
  | LookupIndex key c =>
      r ← on_index (action c);
      match r with
      | inl c' => mret (LookupIndex key c')
      | inr (OEntry (Some entry)) => mret (LookupHit entry)
      | inr (OEntry None) => mret (LookupRemote key)
      | inr _ => panic
      end
  | LookupHit entry =>
      add_hit;;
      self ← gets (λ s, s);
      mret (Replied (RepLookup (Ok
        (mkLookupResponse true (proto_location (as_node_id (cs_state self)) <$> ie_blocks entry) true))))
  | LookupRemote key =>
      self ← gets (λ s, s);
      mret (LookupCount (as_remote_index (cs_state self) ≫= λ ri, remote_lookup key ri ≫= head))
  | LookupCount (Some first) =>
      add_hit;;
      mret (Replied (RepLookup (Ok (mkLookupResponse true
        [mkProtoLocation (ri_node_id first) (ri_offset first) (ri_size first) (ri_generation first)] false))))
  | LookupCount None =>
      add_miss;;
      mret (Replied (RepLookup (Ok (mkLookupResponse false [] false))))
  | BatchStart req => mret (BatchLoop (br_model_id req) (br_prefix_hashes req) [] [])
  | BatchLoop model_id [] found blocks => mret (Replied (RepBatch (Ok (mkBatchLookupResponse found blocks))))
  | BatchLoop model_id (raw_hash :: hashes) found blocks =>
      match parse_prefix_hash raw_hash with
      | Err e => mret (Replied (RepBatch (Err e)))
      | Ok prefix_hash =>
          mret (BatchIndex model_id hashes found blocks (LookupGet (composite_key sha256 model_id prefix_hash)))
      end
  | BatchIndex model_id hashes found blocks c =>
      r ← on_index (action c);
      match r with
      | inl c' => mret (BatchIndex model_id hashes found blocks c')
      | inr (OEntry entry) => mret (BatchCount model_id hashes found blocks entry)
      | inr _ => panic
      end
  | BatchCount model_id hashes found blocks (Some entry) =>
      add_hit;;
      self ← gets (λ s, s);
      mret (BatchLoop model_id hashes (vec_push true found)
              (blocks ++ (proto_location (as_node_id (cs_state self)) <$> ie_blocks entry)))
  | BatchCount model_id hashes found blocks None =>
      add_miss;; mret (BatchLoop model_id hashes (vec_push false found) blocks)
  | StatsStart => st ← on_allocator al_stats; mret (StatsHits st)
  | StatsHits st => self ← gets (λ s, s); mret (StatsMisses st (cs_cache_hits self))
  | StatsMisses st hits => self ← gets (λ s, s); mret (StatsEvictions st hits (cs_cache_misses self))
  | StatsEvictions st hits misses =>
      self ← gets (λ s, s);
      mret (Replied (RepStats (Ok (mkStatsResponse (as_u64 (ps_total_blocks st)) (as_u64 (ps_used_blocks st))
        hits misses (cs_evictions self) (as_u64 (ps_used_bytes st)) (as_u64 (ps_total_bytes st))))))
  | HealthRead uptime =>
      self ← gets (λ s, s);
      mret (Replied (RepHealth (Ok (mkHealthResponse (as_pressure_level (cs_state self) <? PRESSURE_REJECT)
        (as_node_id (cs_state self)) "0.1.0" uptime))))
  | Replied r => mret (Replied r)
  | Died => mret Died
  end.

(** A panic ends the task and leaves the shared state as it is. *)
Definition task_step (t : task) (s : CacheService) : option (task * CacheService) :=
  if ended t then None
  else match task_action t s with
       | (Ret t', s') => Some (t', s')
       | (Panic, s') => Some (Died, s')
       | (UB, _) | (Fuel, _) => None
       end.

Context (shard : bytes → nat).

Definition task_blocked (ts : list task) (t : task) : bool :=
  match task_pc t ≫= write_key with
  | Some k => bool_decide (Exists (λ k', shard k' = shard k) (omap (λ t, task_pc t ≫= guard_key) ts))
  | None => false
  end.

Definition agent : Type := list task * CacheService.

Definition agent_move (i : nat) (c : agent) : option agent :=
  t ← c.1 !! i;
  if task_blocked c.1 t then None
  else '(t', s') ← task_step t c.2; Some (<[i := t']> c.1, s').

Definition agent_step (c c' : agent) : Prop := ∃ i, agent_move i c = Some c'.

Fixpoint agent_schedule (sched : list nat) (c : agent) : option agent :=
  match sched with
  | [] => Some c
  | i :: sched => c' ← agent_move i c; agent_schedule sched c'
  end.

Lemma agent_schedule_rtc sched c c' : agent_schedule sched c = Some c' → rtc agent_step c c'.
Proof.
  revert c. induction sched as [|i sched IH]; intros c Hr; cbn in Hr; [by simplify_eq|].
  destruct (agent_move i c) as [c1|] eqn:Hs; [|done]. cbn in Hr.
  eapply rtc_l; [by exists i|]. by apply IH.
Qed.
End tasks.

(** The task of a request. *)
Definition starting (t : task) : bool :=
  match t with
  | StoreStart _ _ | GetStart _ | DeleteStart _ | TickStats | LookupStart _ | BatchStart _ | StatsStart | HealthRead _ => true
  | _ => false
  end.
Definition deletes (t : task) : bool := match t with DeleteStart _ => true | _ => false end.

(** ** A task running alone *)
Lemma zoom_bind {S T A B} (get : S → T) (set : T → S → S) (m : M T A) (k : A → M T B) s :
  (∀ t s, get (set t s) = t) → (∀ t t' s, set t (set t' s) = set t s) →
  zoom get set (m ≫= k) s = (zoom get set m ≫= λ a, zoom get set (k a)) s.
Proof.
  intros Hgs Hss. unfold zoom, mbind, M_bind. destruct (m (get s)) as [[a| | |] t]; try done.
  rewrite Hgs. destruct (k a t) as [o t']. by rewrite Hss.
Qed.

Lemma on_allocator_bind {A B} (m : M BlockAllocator A) (k : A → M BlockAllocator B) s :
  on_allocator (m ≫= k) s = (on_allocator m ≫= λ a, on_allocator (k a)) s.
Proof. by apply zoom_bind. Qed.

Lemma on_allocator_ret {A} (a : A) s : on_allocator (mret a) s = (Ret a, s).
Proof. unfold on_allocator, zoom. cbn. by rewrite set_allocator_id. Qed.

Section alone.
Context (sha256 : bytes → bytes) (crc32 : bytes → Z) (pad : bytes).
Local Abbreviation task_action := (task_action sha256 crc32 pad).

Definition task_local (x y : task * CacheService) : Prop := task_step sha256 crc32 pad x.1 x.2 = Some y.

Lemma task_next t t' s s' y :
  ended t = false → task_action t s = (Ret t', s') →
  rtc task_local (t', s') y → rtc task_local (t, s) y.
Proof. intros He Ha. apply rtc_l. unfold task_local, task_step. cbn. by rewrite He, Ha. Qed.

(** The accesses of a call of the index, inside a handler. *)
Lemma index_call (wrap : pc → task) (fin : index_out → M CacheService task) c i o i' s t :
  (∀ c s, task_action (wrap c) s =
     (r ← on_index (action c); match r with inl c' => mret (wrap c') | inr o => fin o end) s) →
  (∀ c, ended (wrap c) = false) →
  (∀ s, fin o s = (Ret t, s)) →
  rtc local_step (mkThread (Some c) [] [], i) (mkThread None [] [o], i') →
  rtc task_local (wrap c, set_index i s) (t, set_index i' s).
Proof.
  intros Hw He Hfin Hsteps. remember (mkThread (Some c) [] [], i) as x eqn:Hx.
  remember (mkThread None [] [o], i') as y eqn:Hy. revert c i Hx.
  induction Hsteps as [x|x y z Hst Hrest IH]; intros c i Hx; simplify_eq.
  unfold local_step, thread_step in Hst. cbn in Hst.
  destruct (action c i) as [[[c'|o']| | |] i1] eqn:Ha; simplify_eq.
  - eapply task_next; [done| |by apply (IH eq_refl)]. rewrite Hw.
    by rewrite (bind_Ret _ _ _ _ _ (on_index_eq (action c) (set_index i s) _ _ Ha)).
  - inversion Hrest as [|? ? ? Hst]; simplify_eq; [|done].
    eapply task_next; [done| |done]. rewrite Hw.
    rewrite (bind_Ret _ _ _ _ _ (on_index_eq (action c) (set_index i s) _ _ Ha)). apply Hfin.
Qed.

Lemma on_index_Ret_inv {A} (m : M (BlockIndex LruInner) A) s a s' :
  on_index m s = (Ret a, s') → ∃ i', m (index s) = (Ret a, i') ∧ s' = set_index i' s.
Proof. unfold on_index, zoom. destruct (m (index s)) as [o i']. intros [= -> <-]. by exists i'. Qed.

Lemma call_steps op s o s' :
  on_index (index_step op) s = (Ret o, s') →
  ∃ i', s' = set_index i' s ∧ rtc local_step (mkThread (Some (start op)) [] [], index s) (mkThread None [] [o], i').
Proof.
  intros (i' & Hs & ->)%on_index_Ret_inv. exists i'. split; [done|].
  pose proof (op_steps op (index s) o i' [] [] Hs) as Hr.
  inversion Hr as [|? y ? Hst Hrest]; simplify_eq. unfold local_step, thread_step in Hst. cbn in Hst. by simplify_eq.
Qed.

Lemma index_call' (wrap : pc → task) (fin : index_out → M CacheService task) op o s s' t :
  (∀ c s, task_action (wrap c) s =
     (r ← on_index (action c); match r with inl c' => mret (wrap c') | inr o => fin o end) s) →
  (∀ c, ended (wrap c) = false) →
  (∀ s, fin o s = (Ret t, s)) →
  on_index (index_step op) s = (Ret o, s') →
  rtc task_local (wrap (start op), s) (t, s').
Proof.
  intros Hw He Hfin (i' & -> & Hsteps)%call_steps. rewrite <-(set_index_id s) at 1.
  by eapply index_call.
Qed.

Lemma on_index_step_eq {A} (m : M (BlockIndex LruInner) A) (f : A → index_out) s a s' :
  on_index m s = (Ret a, s') → on_index (x ← m; mret (f x)) s = (Ret (f a), s').
Proof.
  intros (i' & Hm & ->)%on_index_Ret_inv. apply on_index_eq. by rewrite (bind_Ret _ _ _ _ _ Hm).
Qed.

(** The fields of the allocator that [allocate_and_write] reads and never writes. *)
Definition same_fields (s s' : CacheService) : Prop :=
  al_node_id (allocator s') = al_node_id (allocator s) ∧
  block_size (al_pool (allocator s')) = block_size (al_pool (allocator s)).
Lemma same_fields_trans s1 s2 s3 : same_fields s1 s2 → same_fields s2 s3 → same_fields s1 s3.
Proof. unfold same_fields. intuition congruence. Qed.

Lemma on_pool_fields {A} (m : M MemoryPool A) s a s' :
  (∀ p o p', m p = (o, p') → block_size p' = block_size p) →
  on_allocator (on_pool m) s = (Ret a, s') → same_fields s s'.
Proof.
  intros Hm. unfold on_allocator, on_pool, zoom. destruct (m (al_pool (allocator s))) as [o p'] eqn:Hp.
  intros [= -> <-]. split; [done|]. cbn. by eapply Hm.
Qed.

Lemma allocate_fields s a s' : on_allocator (on_pool allocate) s = (Ret a, s') → same_fields s s'.
Proof.
  apply on_pool_fields. intros p o p'. unfold allocate. munfold.
  destruct (vec_pop (free_list p)) as [[]|]; intros; by simplify_eq.
Qed.
Lemma generation_fields s a s' : on_allocator next_generation s = (Ret a, s') → same_fields s s'.
Proof. unfold on_allocator, next_generation, zoom. munfold. intros [= _ <-]. done. Qed.
Lemma slice_mut_fields h s a s' : on_allocator (on_pool (get_slice_mut h)) s = (Ret a, s') → same_fields s s'.
Proof.
  apply on_pool_fields. intros p o p'. unfold get_slice_mut, get_ptr, assert. munfold.
  repeat case_match; intros; by simplify_eq.
Qed.
Lemma with_view_fields v a b (m : M bytes unit) s x s' :
  on_allocator (on_pool (with_view v a b m)) s = (Ret x, s') → same_fields s s'.
Proof.
  apply on_pool_fields. intros p o p'. unfold with_view, assert. munfold.
  destruct (bool_decide _); [|intros; by simplify_eq]. destruct (m _) as [? d]. intros; by simplify_eq.
Qed.

(** Writing a block access by access. *)
Lemma write_steps now key data s r s' :
  on_allocator (allocate_and_write crc32 pad data) s = (Ret r, s') →
  rtc task_local (StoreAlloc now key data, s)
    (match r with
     | None => Replied (RepStore (Err (ResourceExhausted "memory pool exhausted")))
     | Some (loc, _) => StoreIndex key loc (InsertCheck key (mkIndexEntry [loc] now))
     end, s').
Proof.
  intros Hw. unfold allocate_and_write in Hw. rewrite on_allocator_bind in Hw.
  erewrite bind_Ret in Hw by by apply on_allocator_eq.
  rewrite set_allocator_id in Hw. cbn zeta in Hw.
  destruct (as_usize (block_size (al_pool (allocator s)) - HEADER_SIZE) <? zlen data) eqn:Hmax.
  { rewrite on_allocator_ret in Hw. simplify_eq. eapply task_next; [done| |done].
    cbn. erewrite bind_Ret by reflexivity. by rewrite Hmax. }
  rewrite on_allocator_bind in Hw. apply bind_Ret_inv in Hw as (oh & s1 & Halloc & Hw).
  eapply (task_next _ (match oh with
    | None => Replied (RepStore (Err (ResourceExhausted "memory pool exhausted")))
    | Some handle => StoreGen now key data handle end)); [done| |].
  { cbn. erewrite bind_Ret by reflexivity. rewrite Hmax, (bind_Ret _ _ _ _ _ Halloc). by destruct oh. }
  destruct oh as [handle|]; [|rewrite on_allocator_ret in Hw; by simplify_eq].
  rewrite on_allocator_bind in Hw. apply bind_Ret_inv in Hw as (gen & s2 & Hgen & Hw).
  rewrite on_allocator_bind in Hw. apply bind_Ret_inv in Hw as (view & s3 & Hview & Hw).
  eapply task_next; [done|cbn; by rewrite (bind_Ret _ _ _ _ _ Hgen), (bind_Ret _ _ _ _ _ Hview)|].
  cbn zeta in Hw. rewrite on_allocator_bind in Hw. apply bind_Ret_inv in Hw as ([] & s4 & Hhead & Hw).
  eapply task_next; [done|cbn; by rewrite (bind_Ret _ _ _ _ _ Hhead)|].
  rewrite on_allocator_bind in Hw. apply bind_Ret_inv in Hw as ([] & s5 & Hbody & Hw).
  rewrite on_allocator_ret in Hw. simplify_eq.
  eapply task_next; [done| |done]. cbn. rewrite (bind_Ret _ _ _ _ _ Hbody). erewrite bind_Ret by reflexivity.
  assert (al_node_id (allocator s') = al_node_id (allocator s) ∧
    block_size (al_pool (allocator s')) = block_size (al_pool (allocator s))) as [-> ->]; [|done].
  apply (same_fields_trans _ s1); [by eapply allocate_fields|].
  apply (same_fields_trans _ s2); [by eapply generation_fields|].
  apply (same_fields_trans _ s3); [by eapply slice_mut_fields|].
  apply (same_fields_trans _ s4); by eapply with_view_fields.
Qed.

(** The index gets the entry access by access. *)
Lemma store_insert_steps now key loc evicted s s1 :
  on_index (index_insert key [loc] now) s = (Ret evicted, s1) →
  rtc task_local (StoreIndex key loc (InsertCheck key (mkIndexEntry [loc] now)), s) (StoreFinish key loc evicted, s1) ∧
  as_metadata (cs_state s1) = as_metadata (cs_state s).
Proof.
  intros Hins. split; [|by apply on_index_Ret_inv in Hins as (i' & _ & ->)].
  eapply (index_call' (StoreIndex key loc) (λ o, match o with
      | OEvicted evicted => mret (StoreFinish key loc evicted) | _ => panic end)
    (IInsert key [loc] now) (OEvicted evicted)); [done|done|done|].
  by apply (on_index_step_eq (index_insert key [loc] now) OEvicted).
Qed.

(** The end of a store is one access of its task. *)
Lemma store_finish_steps self key loc evicted s r s' :
  as_metadata (cs_state s) = as_metadata (cs_state self) →
  (add_evictions (zlen evicted);;
   on_allocator al_stats;;
   match as_metadata (cs_state self) with
   | Some _ => spawn_publish (mkPublishTask key (bl_offset loc) (bl_block_size loc) (bl_generation loc))
   | None => mret tt
   end;;
   ok (mkStoreResponse true "" (bl_generation loc))) s = (Ret r, s') →
  rtc task_local (StoreFinish key loc evicted, s) (Replied (RepStore r), s').
Proof.
  intros Hmeta Hst. eapply task_next; [done| |reflexivity]. cbn [ConcService.task_action].
  erewrite bind_Ret in Hst by reflexivity. erewrite bind_Ret by reflexivity.
  apply bind_Ret_inv in Hst as (st & s1 & Hstats & Hst). rewrite (bind_Ret _ _ _ _ _ Hstats).
  erewrite bind_Ret by reflexivity.
  assert (as_metadata (cs_state s1) = as_metadata (cs_state self)) as ->.
  { rewrite <-Hmeta. unfold on_allocator, zoom in Hstats. destruct (al_stats _). by simplify_eq. }
  apply bind_Ret_inv in Hst as ([] & s2 & Hspawn & Hst). rewrite (bind_Ret _ _ _ _ _ Hspawn).
  unfold ok, mret, M_ret in Hst. by simplify_eq.
Qed.

Lemma store_steps now stream s r s' :
  store sha256 crc32 pad now stream s = (Ret r, s') →
  rtc task_local (StoreStart now stream, s) (Replied (RepStore r), s').
Proof.
  intros Hst. unfold store in Hst. erewrite bind_Ret in Hst by reflexivity.
  destruct (as_pressure_level (cs_state s) >=? PRESSURE_REJECT) eqn:Hp.
  { unfold fail, mret, M_ret in Hst. simplify_eq. eapply task_next; [done| |done].
    cbn. erewrite bind_Ret by reflexivity. by rewrite Hp. }
  assert (∀ t s1, (match first_header stream with
      | Err e => mret (Replied (RepStore (Err e)))
      | Ok (header, stream) =>
          match parse_prefix_hash (sh_prefix_hash header) with
          | Err e => mret (Replied (RepStore (Err e)))
          | Ok prefix_hash =>
              with_capacity (as_usize (sh_total_size header));;
              match collect_chunks [] stream with
              | Err e => mret (Replied (RepStore (Err e)))
              | Ok data => mret (StoreAlloc now (composite_key sha256 (sh_model_id header) prefix_hash) data)
              end
          end
      end : M CacheService task) s = (Ret t, s1) → rtc task_local (t, s1) (Replied (RepStore r), s') →
      rtc task_local (StoreStart now stream, s) (Replied (RepStore r), s')) as Hgo.
  { intros t s1 Ha. eapply task_next; [done|]. cbn [ConcService.task_action].
    erewrite bind_Ret by reflexivity. by rewrite Hp. }
  destruct (first_header stream) as [[header rest]|e];
    [rewrite (and_then_Ok _ _ _ _ eq_refl) in Hst
    |rewrite (and_then_Err _ _ _ _ eq_refl) in Hst; simplify_eq; eapply Hgo; reflexivity].
  destruct (parse_prefix_hash (sh_prefix_hash header)) as [h|e];
    [rewrite (and_then_Ok _ _ _ _ eq_refl) in Hst
    |rewrite (and_then_Err _ _ _ _ eq_refl) in Hst; simplify_eq; eapply Hgo; reflexivity].
  apply bind_Ret_inv in Hst as ([] & s1 & Hcap & Hst).
  destruct (collect_chunks [] rest) as [data|e];
    [rewrite (and_then_Ok _ _ _ _ eq_refl) in Hst
    |rewrite (and_then_Err _ _ _ _ eq_refl) in Hst; simplify_eq;
     eapply Hgo; [by rewrite (bind_Ret _ _ _ _ _ Hcap)|reflexivity]].
  eapply Hgo; [by rewrite (bind_Ret _ _ _ _ _ Hcap)|].
  apply bind_Ret_inv in Hst as (alloc & s2 & Halloc & Hst). clear Hgo.
  etrans; [by apply write_steps|]. destruct alloc as [[loc handle]|];
    [|unfold fail, mret, M_ret in Hst; by simplify_eq].
  apply bind_Ret_inv in Hst as (evicted & s3 & Hins & Hst).
  destruct (store_insert_steps _ _ _ _ _ _ Hins) as [Hsteps Hmeta]. etrans; [exact Hsteps|].
  eapply store_finish_steps; [|exact Hst]. rewrite Hmeta.
  unfold on_allocator, zoom in Halloc. destruct (allocate_and_write _ _ _ _). simplify_eq.
  unfold with_capacity, assert, mret, M_ret, panic in Hcap. destruct (_ <=? _); by simplify_eq.
Qed.

Lemma on_allocator_pure {A} (m : M BlockAllocator A) s a s' :
  (∀ al, (m al).2 = al) → on_allocator m s = (Ret a, s') → s' = s.
Proof.
  intros Hm. unfold on_allocator, zoom. specialize (Hm (allocator s)).
  destruct (m (allocator s)) as [o al]. cbn in Hm. subst al. rewrite set_allocator_id. by intros [= _ <-].
Qed.

Lemma read_verified_pure h al : (read_verified crc32 h al).2 = al.
Proof.
  unfold read_verified, on_pool, get_slice, get_ptr, assert. munfold.
  destruct al as [[] ? ?]. repeat case_match; simplify_eq/=; done.
Qed.

Lemma read_state h s a s' : on_allocator (read_verified crc32 h) s = (Ret a, s') → s' = s.
Proof. apply on_allocator_pure, read_verified_pure. Qed.

Lemma send_blocks_pure n blocks al : (send_blocks crc32 n blocks al).2 = al.
Proof.
  revert n al. induction blocks as [|loc blocks IH]; intros n al; [by destruct n|].
  assert (send_blocks crc32 n (loc :: blocks) al = (r ← read_verified crc32 (loc_handle loc);
    match r, n with
    | Some data, O => mret []
    | Some data, S n => rest ← send_blocks crc32 n blocks; mret (Ok (GetData data) :: rest)
    | None, O => mret []
    | None, S _ => mret [Err (DataLoss "block CRC32C verification failed")]
    end) al) as -> by by destruct n.
  unfold mbind, M_bind. pose proof (read_verified_pure (loc_handle loc) al) as Hr.
  destruct (read_verified crc32 (loc_handle loc) al) as [[r| | |] al']; cbn in Hr; subst al'; try done.
  destruct r, n; try done. specialize (IH n al). destruct (send_blocks crc32 n blocks al) as [[]]; done.
Qed.

Lemma send_state n blocks s a s' : on_allocator (send_blocks crc32 n blocks) s = (Ret a, s') → s' = s.
Proof. apply on_allocator_pure, send_blocks_pure. Qed.

(** The sender task. *)
Lemma send_steps blocks sent s msgs :
  on_allocator (send_blocks crc32 (length blocks) blocks) s = (Ret msgs, s) →
  rtc task_local (GetSend blocks sent, s) (Replied (RepGet (Ok (sent ++ msgs))), s).
Proof.
  revert sent msgs. induction blocks as [|loc blocks IH]; intros sent msgs Hs; cbn [send_blocks length] in Hs.
  - rewrite on_allocator_ret in Hs. simplify_eq. rewrite app_nil_r. by eapply task_next.
  - rewrite on_allocator_bind in Hs. apply bind_Ret_inv in Hs as (r & s1 & Hr & Hs).
    assert (s1 = s) as -> by by eapply read_state.
    destruct r as [data|].
    + rewrite on_allocator_bind in Hs. apply bind_Ret_inv in Hs as (rest & s2 & Hrest & Hs).
      rewrite on_allocator_ret in Hs. simplify_eq.
      eapply task_next; [done|cbn; by rewrite (bind_Ret _ _ _ _ _ Hr)|].
      replace (sent ++ Ok (GetData data) :: rest) with ((sent ++ [Ok (GetData data)]) ++ rest) by by rewrite <-app_assoc.
      by apply IH.
    + rewrite on_allocator_ret in Hs. simplify_eq.
      eapply task_next; [done|cbn; by rewrite (bind_Ret _ _ _ _ _ Hr)|]. by eapply task_next.
Qed.

Lemma get_steps req s r s' :
  get_now sha256 crc32 req s = (Ret r, s') →
  rtc task_local (GetStart req, s) (Replied (RepGet r), s').
Proof.
  unfold get_now, get. intros Hg. unfold and_then at 1 in Hg. apply bind_Ret_inv in Hg as (e & s1 & Hget & Hg).
  destruct (parse_prefix_hash (gr_prefix_hash req)) as [h|err] eqn:Hparse.
  2: { rewrite (and_then_Err _ _ _ _ eq_refl) in Hget. simplify_eq. unfold fail, mret, M_ret in Hg. simplify_eq.
       eapply task_next; [done| |reflexivity]. cbn. by rewrite Hparse. }
  rewrite (and_then_Ok _ _ _ _ eq_refl) in Hget. set (key := composite_key sha256 (gr_model_id req) h) in *.
  apply bind_Ret_inv in Hget as (found & s2 & Hlook & Hget).
  eapply task_next; [done|cbn; by rewrite Hparse|]. fold key.
  trans (GetFinish found, s2).
  { eapply (index_call' GetIndex (λ o, match o with OEntry found => mret (GetFinish found) | _ => panic end)
      (ILookup key) (OEntry found)); [done|done|done|].
    by apply (on_index_step_eq (index_lookup key) OEntry). }
  destruct found as [entry|].
  - apply bind_Ret_inv in Hget as ([] & s3 & Hhit & Hget). unfold ok, mret, M_ret in Hget. simplify_eq.
    eapply task_next; [done|cbn; by rewrite (bind_Ret _ _ _ _ _ Hhit)|].
    apply bind_Ret_inv in Hg as (msgs & s4 & Htask & Hg). unfold ok, mret, M_ret in Hg. simplify_eq.
    unfold get_task in Htask. rewrite on_allocator_bind in Htask.
    apply bind_Ret_inv in Htask as (rest & s5 & Hsend & Htask). rewrite on_allocator_ret in Htask. simplify_eq.
    assert (s' = s1) as -> by by eapply send_state.
    by apply (send_steps _ [_]).
  - apply bind_Ret_inv in Hget as ([] & s3 & Hmiss & Hget). unfold fail, mret, M_ret in Hget. simplify_eq.
    unfold fail, mret, M_ret in Hg. simplify_eq.
    eapply task_next; [done|cbn; by rewrite (bind_Ret _ _ _ _ _ Hmiss)|done].
Qed.

Lemma free_steps blocks n s s' :
  free_blocks blocks s = (Ret tt, s') →
  rtc task_local (DeleteFree blocks n, s) (Replied (RepDelete (Ok (mkDeleteResponse true n))), s').
Proof.
  revert s. induction blocks as [|loc blocks IH]; intros s Hf; cbn [free_blocks] in Hf.
  - unfold mret, M_ret in Hf. simplify_eq. by eapply task_next.
  - apply bind_Ret_inv in Hf as ([] & s1 & Hd & Hf).
    eapply task_next; [done|cbn; by rewrite (bind_Ret _ _ _ _ _ Hd)|]. by apply IH.
Qed.

Lemma delete_steps h s r s' :
  delete_key h s = (Ret r, s') → rtc task_local (DeleteStart h, s) (Replied (RepDelete r), s').
Proof.
  unfold delete_key. intros Hd. destruct (parse_prefix_hash h) as [k|err] eqn:Hparse.
  2: { rewrite (and_then_Err _ _ _ _ eq_refl) in Hd. simplify_eq.
       eapply task_next; [done| |reflexivity]. cbn. by rewrite Hparse. }
  rewrite (and_then_Ok _ _ _ _ eq_refl) in Hd. apply bind_Ret_inv in Hd as (found & s1 & Hrem & Hd).
  eapply task_next; [done|cbn; by rewrite Hparse|].
  etrans.
  { eapply (index_call' DeleteIndex (λ o, match o with
        | OEntry (Some entry) => mret (DeleteFree (ie_blocks entry) (zlen (ie_blocks entry)))
        | OEntry None => mret (Replied (RepDelete (Ok (mkDeleteResponse false 0)))) | _ => panic end)
      (IRemove k) (OEntry found) _ s1
      (match found with Some entry => DeleteFree (ie_blocks entry) (zlen (ie_blocks entry))
       | None => Replied (RepDelete (Ok (mkDeleteResponse false 0))) end)); [done|done|by destruct found|].
    by apply (on_index_step_eq (index_remove k) OEntry). }
  destruct found as [entry|].
  - apply bind_Ret_inv in Hd as ([] & s2 & Hfree & Hd). unfold ok, mret, M_ret in Hd. simplify_eq.
    by apply free_steps.
  - unfold ok, mret, M_ret in Hd. by simplify_eq.
Qed.

Lemma lookup_steps req s r s' :
  Grpc.lookup sha256 req s = (Ret r, s') → rtc task_local (LookupStart req, s) (Replied (RepLookup r), s').
Proof.
  unfold Grpc.lookup. intros Hl. destruct (parse_prefix_hash (lr_prefix_hash req)) as [h|err] eqn:Hparse.
  2: { rewrite (and_then_Err _ _ _ _ eq_refl) in Hl. simplify_eq.
       eapply task_next; [done| |reflexivity]. cbn. by rewrite Hparse. }
  rewrite (and_then_Ok _ _ _ _ eq_refl) in Hl. set (key := composite_key sha256 (lr_model_id req) h) in *.
  apply bind_Ret_inv in Hl as (found & s1 & Hlook & Hl).
  eapply task_next; [done|cbn; by rewrite Hparse|]. fold key.
  trans (match found with Some entry => LookupHit entry | None => LookupRemote key end, s1).
  { eapply (index_call' (LookupIndex key) (λ o, match o with
        | OEntry (Some entry) => mret (LookupHit entry) | OEntry None => mret (LookupRemote key) | _ => panic end)
      (ILookup key) (OEntry found)); [done|done|by destruct found|].
    by apply (on_index_step_eq (index_lookup key) OEntry). }
  erewrite bind_Ret in Hl by reflexivity. destruct found as [entry|].
  - apply bind_Ret_inv in Hl as ([] & s2 & Hhit & Hl). unfold ok, mret, M_ret in Hl. simplify_eq.
    eapply task_next; [done| |reflexivity]. cbn. rewrite (bind_Ret _ _ _ _ _ Hhit).
    unfold add_hit, modify in Hhit. by simplify_eq.
  - eapply task_next; [done|reflexivity|]. destruct (_ ≫= _) as [first|].
    + apply bind_Ret_inv in Hl as ([] & s2 & Hhit & Hl). unfold ok, mret, M_ret in Hl. simplify_eq.
      eapply task_next; [done| |reflexivity]. cbn. by rewrite (bind_Ret _ _ _ _ _ Hhit).
    + apply bind_Ret_inv in Hl as ([] & s2 & Hmiss & Hl). unfold ok, mret, M_ret in Hl. simplify_eq.
      eapply task_next; [done| |reflexivity]. cbn. by rewrite (bind_Ret _ _ _ _ _ Hmiss).
Qed.

Lemma batch_steps model hashes found blocks s r s' :
  batch_loop sha256 model hashes found blocks s = (Ret r, s') →
  rtc task_local (BatchLoop model hashes found blocks, s) (Replied (RepBatch r), s').
Proof.
  revert found blocks s. induction hashes as [|raw hashes IH]; intros found blocks s Hb; cbn [batch_loop] in Hb.
  { unfold ok, mret, M_ret in Hb. simplify_eq. by eapply task_next. }
  destruct (parse_prefix_hash raw) as [h|err] eqn:Hparse.
  2: { rewrite (and_then_Err _ _ _ _ eq_refl) in Hb. simplify_eq.
       eapply task_next; [done| |reflexivity]. cbn. by rewrite Hparse. }
  rewrite (and_then_Ok _ _ _ _ eq_refl) in Hb. set (key := composite_key sha256 model h) in *.
  apply bind_Ret_inv in Hb as (entry & s1 & Hlook & Hb).
  eapply task_next; [done|cbn; by rewrite Hparse|]. fold key.
  trans (BatchCount model hashes found blocks entry, s1).
  { eapply (index_call' (BatchIndex model hashes found blocks) (λ o, match o with
        | OEntry entry => mret (BatchCount model hashes found blocks entry) | _ => panic end)
      (ILookup key) (OEntry entry)); [done|done|done|].
    by apply (on_index_step_eq (index_lookup key) OEntry). }
  erewrite bind_Ret in Hb by reflexivity. destruct entry as [entry|].
  - apply bind_Ret_inv in Hb as ([] & s2 & Hhit & Hb).
    eapply task_next; [done| |by apply IH]. cbn. rewrite (bind_Ret _ _ _ _ _ Hhit).
    unfold add_hit, modify in Hhit. by simplify_eq.
  - apply bind_Ret_inv in Hb as ([] & s2 & Hmiss & Hb).
    eapply task_next; [done| |by apply IH]. cbn. by rewrite (bind_Ret _ _ _ _ _ Hmiss).
Qed.

Lemma stats_steps s r s' : stats s = (Ret r, s') → rtc task_local (StatsStart, s) (Replied (RepStats r), s').
Proof.
  unfold stats. intros Hs. apply bind_Ret_inv in Hs as (st & s1 & Hst & Hs).
  eapply task_next; [done|cbn; by rewrite (bind_Ret _ _ _ _ _ Hst)|].
  erewrite bind_Ret in Hs by reflexivity. unfold ok, mret, M_ret in Hs. simplify_eq.
  do 2 (eapply task_next; [done|reflexivity|]). by eapply task_next.
Qed.

Lemma health_steps uptime s r s' : health uptime s = (Ret r, s') → rtc task_local (HealthRead uptime, s) (Replied (RepHealth r), s').
Proof.
  unfold health. intros Hs. erewrite bind_Ret in Hs by reflexivity. unfold ok, mret, M_ret in Hs. simplify_eq.
  by eapply task_next.
Qed.

Lemma tick_steps s s' :
  monitor_turn s = (Ret tt, s') → rtc task_local (TickStats, s) (Replied RepDone, s').
Proof.
  unfold monitor_turn. intros Hm. apply bind_Ret_inv in Hm as (st & s1 & Hst & Hm).
  eapply task_next; [done|cbn; by rewrite (bind_Ret _ _ _ _ _ Hst)|].
  eapply task_next; [done| |reflexivity]. cbn. by rewrite (bind_Ret _ _ _ _ _ Hm).
Qed.
End alone.

Section schedule.
Context (sha256 : bytes → bytes) (crc32 : bytes → Z) (pad : bytes) (shard : bytes → nat).
Local Abbreviation step := (agent_step sha256 crc32 pad shard).

Definition no_guard (i : nat) (ts : list task) : Prop :=
  ∀ j t, ts !! j = Some t → j ≠ i → task_pc t ≫= guard_key = None.

Lemma no_guard_move i ts t s : no_guard i ts → ts !! i = Some t →
  agent_move sha256 crc32 pad shard i (ts, s) =
    '(t', s') ← task_step sha256 crc32 pad t s; Some (<[i := t']> ts, s').
Proof.
  intros Hn Hi. unfold agent_move. cbn. rewrite Hi. cbn.
  assert (task_blocked shard ts t = false) as ->; [|done]. unfold task_blocked.
  destruct (task_pc t ≫= write_key) as [k|] eqn:Hw; [|done].
  apply bool_decide_false. intros (k' & (u & [j Hj]%list_elem_of_lookup & Hg)%list_elem_of_omap & _)%Exists_exists.
  destruct (decide (j = i)) as [->|Hne]; [|by rewrite (Hn j u Hj Hne) in Hg].
  simplify_eq. destruct (task_pc t) as [[]|]; naive_solver.
Qed.

Lemma alone_steps i ts t s t' s' :
  no_guard i ts → ts !! i = Some t → rtc (task_local sha256 crc32 pad) (t, s) (t', s') →
  rtc step (ts, s) (<[i := t']> ts, s').
Proof.
  intros Hn Hi Hsteps. remember (t, s) as x eqn:Hx. remember (t', s') as y eqn:Hy.
  revert ts t s Hn Hi Hx. induction Hsteps as [x|x [t1 s1] z Hst Hsteps IH]; intros ts t s Hn Hi Hx; simplify_eq.
  - by rewrite list_insert_id.
  - eapply rtc_l.
    + exists i. rewrite (no_guard_move i ts t s Hn Hi). unfold task_local in Hst. cbn in Hst. by rewrite Hst.
    + rewrite <-(list_insert_insert_eq ts i t' t1). apply (IH eq_refl _ t1 s1); [| |done].
      * intros j u Hj Hne. rewrite list_lookup_insert_ne in Hj by done. by apply (Hn j).
      * apply list_lookup_insert_eq. by eapply lookup_lt_Some.
Qed.

End schedule.

