(* ===== verification/ConcSafety.v ===== *)
(** * Every schedule of concurrent requests is safe

    For any number of requests of all seven kinds and turns of the pressure monitor,
    interleaved access by access as in ConcService: every block has exactly one owner (the
    free list, a task, or what has been indexed), so no block is freed twice or written by
    two stores; no task panics, except on an oversized store header, and none leaves the
    pool's memory; and without deletes every get delivers the complete data of one store
    of its key, never a block that is still being written, and every block a lookup names
    stays readable. *)
From S2P Require Import Prelude Pool Block Allocator Policy Lru Index ConcIndex RemoteIndex Placement Config Metadata Pressure Grpc Service Trace ConcService.
From stdpp Require Import relations.
Local Open Scope Z_scope.

(** ** Ownership of blocks *)

(** How often [x] occurs in [l]. *)
Definition occ (x : Z) (l : list Z) : nat := length (filter (λ y, y = x) l).
Arguments occ : simpl never.

Lemma occ_app x l k : occ x (l ++ k) = (occ x l + occ x k)%nat.
Proof. unfold occ. by rewrite filter_app, length_app. Qed.
Lemma occ_cons x y l : occ x (y :: l) = ((if decide (y = x) then 1 else 0) + occ x l)%nat.
Proof. unfold occ. rewrite filter_cons. by case_decide. Qed.
Lemma occ_nil x : occ x [] = 0%nat.
Proof. done. Qed.
Lemma occ_pos x l : x ∈ l ↔ (0 < occ x l)%nat.
Proof.
  induction l as [|y l IH]; [rewrite occ_nil, elem_of_nil; lia|]. rewrite elem_of_cons, occ_cons, IH.
  case_decide; naive_solver lia.
Qed.
Lemma occ_NoDup l : NoDup l ↔ ∀ x, (occ x l ≤ 1)%nat.
Proof.
  induction l as [|y l IH]; [split; [intros _ x; rewrite occ_nil; lia|constructor]|].
  rewrite NoDup_cons, IH. split.
  - intros [Hy Hl] x. rewrite occ_cons. case_decide as Hd; [|by apply Hl]. subst. rewrite occ_pos in Hy. lia.
  - intros Hl. split.
    + rewrite occ_pos. specialize (Hl y). rewrite occ_cons, decide_True in Hl by done. lia.
    + intros x. specialize (Hl x). rewrite occ_cons in Hl. lia.
Qed.
Lemma occ_push x y l : occ x (vec_push y l) = (occ x l + (if decide (y = x) then 1 else 0))%nat.
Proof. unfold vec_push. by rewrite occ_app, occ_cons, occ_nil, Nat.add_0_r. Qed.
Lemma occ_seqZ x n : 0 ≤ n → occ x (seqZ 0 n) = if decide (0 ≤ x < n) then 1%nat else 0%nat.
Proof.
  intros Hn. pose proof (proj1 (occ_NoDup _) (NoDup_seqZ 0 n) x) as Hle.
  pose proof (occ_pos x (seqZ 0 n)) as Hp. rewrite elem_of_seqZ in Hp. case_decide; naive_solver lia.
Qed.

(** Has the block of the location not been indexed yet? *)
Definition before_put (c : pc) : bool := match c with InsertTouch _ _ _ => false | _ => true end.
(** The blocks a task owns: a store until it indexes its block, a delete from the removal
    of the entry until it has given the blocks back. *)
Definition held_blocks (t : task) : list Z :=
  match t with
  | StoreGen _ _ _ h | StoreHead _ _ _ h _ _ | StoreBody _ _ _ h _ _ => [bh_block_index h]
  | StoreIndex _ loc c => if before_put c then [bl_block_index loc] else []
  | DeleteIndex (RemoveLru _ e) => bl_block_index <$> ie_blocks e
  | DeleteFree blocks _ => bl_block_index <$> blocks
  | _ => []
  end.

(** The key and the entry of an insertion. *)
Definition insert_of (c : pc) : option (bytes * IndexEntry) :=
  match c with
  | InsertCheck k e | InsertLen k e _ | InsertEvict k e _ | InsertDrop k e _ _ | InsertPut k e _
  | InsertTouch k e _ => Some (k, e)
  | _ => None
  end.

(** The kind of request a task serves. *)
Definition family (t : task) : nat :=
  match t with
  | StoreStart _ _ | StoreAlloc _ _ _ | StoreGen _ _ _ _ | StoreHead _ _ _ _ _ _ | StoreBody _ _ _ _ _ _
  | StoreIndex _ _ _ | StoreFinish _ _ _ | Replied (RepStore _) | Died => 0
  | GetStart _ | GetIndex _ | GetFinish _ | GetSend _ _ | Replied (RepGet _) => 1
  | DeleteStart _ | DeleteIndex _ | DeleteFree _ _ | Replied (RepDelete _) => 2
  | LookupStart _ | LookupIndex _ _ | LookupHit _ | LookupRemote _ | LookupCount _ | Replied (RepLookup _) => 4
  | BatchStart _ | BatchLoop _ _ _ _ | BatchIndex _ _ _ _ _ | BatchCount _ _ _ _ _ | Replied (RepBatch _) => 5
  | StatsStart | StatsHits _ | StatsMisses _ _ | StatsEvictions _ _ _ | Replied (RepStats _) => 6
  | HealthRead _ | Replied (RepHealth _) => 7
  | _ => 3
  end.

(** ** The invariant *)
Section invariant.
Context (sha256 : bytes → bytes) (crc32 : bytes → Z) (pad : bytes).
Context (nid bs tb : Z) (tasks0 : list task).
Implicit Types (s : CacheService) (ts : list task) (t : task) (pub : gmap Z (bytes * item)) (b : Z → bytes).

(** Some request stores [data] under [k]. *)
Definition asked (k data : bytes) : Prop :=
  ∃ j now stream, tasks0 !! j = Some (StoreStart now stream) ∧ store_target sha256 stream = Some (k, data).
Definition no_deletes : Prop := Forall (λ t, deletes t = false) tasks0.

Definition in_pool (i : Z) : Prop := 0 ≤ i < tb.
Definition handle_of (i : Z) : BlockHandle := mkBlockHandle 0 i (i * bs) bs.
(** The bytes of block [i]. *)
Definition block_bytes s (i : Z) : bytes := slice (i * bs) bs (region (al_pool (allocator s))).
(** A block that holds an item completely. *)
Definition complete (blk : bytes) (it : item) : Prop :=
  ∃ pd rest, zlen pd = 4 ∧
    blk = header_bytes pd (header_new crc32 (it_data it) (it_gen it)) ++ it_data it ++ rest.
Definition good_item (k : bytes) (it : item) : Prop :=
  in_pool (it_index it) ∧ is_u64 (it_gen it) ∧ asked k (it_data it).

(** [pub] maps every block that was indexed and not deleted to its key and item. *)
Definition entry_ok pub (k : bytes) (e : IndexEntry) : Prop :=
  ∃ it, e = item_entry nid bs it ∧ in_pool (it_index it) ∧ (no_deletes → pub !! it_index it = Some (k, it)).
Definition loc_ok (loc : BlockLocation) : Prop := ∃ it, loc = item_loc nid bs it ∧ in_pool (it_index it).

Definition writing (k data : bytes) (h : BlockHandle) (i : Z) : Prop :=
  asked k data ∧ h = handle_of i ∧ in_pool i ∧ HEADER_SIZE + zlen data ≤ bs.

(** What a get may answer without deletes. *)
Definition get_answer (req : GetRequest) (r : result (list (result GetPayload Status)) Status) : Prop :=
  if decide (length (gr_prefix_hash req) = 16%nat) then
    r = Err (NotFound "prefix hash not found in cache") ∨
    ∃ it, asked (get_key sha256 req) (it_data it) ∧ r = Ok (item_stream bs it)
  else r = Err (InvalidArgument "prefix_hash must be exactly 16 bytes").

(** The key of a lookup, and what a local hit names: a block of an indexed item. *)
Definition lookup_key (req : LookupRequest) : bytes := composite_key sha256 (lr_model_id req) (lr_prefix_hash req).
Definition local_answer pub (req : LookupRequest) (r : result LookupResponse Status) : Prop :=
  ∀ resp, r = Ok resp → lp_is_local resp = true →
    ∃ node it, lp_blocks resp = [proto_location node (item_loc nid bs it)] ∧ pub !! it_index it = Some (lookup_key req, it).

(** A call of the index's [lookup] for [k]. *)
Definition looking pub (k : bytes) (c : pc) : Prop :=
  c = LookupGet k ∨ ∃ e, c = LookupTouch k e ∧ entry_ok pub k e.

(** The local state of a task that serves the request [t0]. *)
Definition task_ok pub b t0 t : Prop :=
  family t = family t0 ∧
  match t with
  | StoreStart _ _ | GetStart _ | DeleteStart _ => t0 = t
  | StoreAlloc _ k d => asked k d
  | StoreGen _ k d h => ∃ i, writing k d h i
  | StoreHead _ k d h g v => ∃ i, writing k d h i ∧ is_u64 g ∧ v = (i * bs, bs)
  | StoreBody _ k d h g v => ∃ i, writing k d h i ∧ is_u64 g ∧ v = (i * bs, bs) ∧
      slice 0 HEADER_SIZE (b i) = header_bytes pad (header_new crc32 d g)
  | StoreIndex k loc c => ∃ it, loc = item_loc nid bs it ∧ in_pool (it_index it) ∧
      insert_of c = Some (k, item_entry nid bs it) ∧
      (before_put c = true → good_item k it ∧ complete (b (it_index it)) it)
  | GetIndex c => ∃ req, t0 = GetStart req ∧ length (gr_prefix_hash req) = 16%nat ∧
      looking pub (get_key sha256 req) c
  | GetFinish found => ∃ req, t0 = GetStart req ∧ length (gr_prefix_hash req) = 16%nat ∧
      match found with None => True | Some e => entry_ok pub (get_key sha256 req) e end
  | GetSend blocks sent => ∃ req, t0 = GetStart req ∧ length (gr_prefix_hash req) = 16%nat ∧
      Forall loc_ok blocks ∧
      (no_deletes → ∃ it, asked (get_key sha256 req) (it_data it) ∧
         (blocks = [item_loc nid bs it] ∧ sent ++ [Ok (GetData (it_data it))] = item_stream bs it ∧
            pub !! it_index it = Some (get_key sha256 req, it) ∨
          blocks = [] ∧ sent = item_stream bs it))
  | DeleteIndex c => (∃ k, c = RemoveMap k) ∨ ∃ k it, c = RemoveLru k (item_entry nid bs it) ∧ in_pool (it_index it)
  | DeleteFree blocks _ => Forall loc_ok blocks
  | LookupStart _ => t0 = t
  | LookupIndex k c => ∃ req, t0 = LookupStart req ∧ k = lookup_key req ∧ looking pub k c
  | LookupHit e => ∃ req, t0 = LookupStart req ∧ entry_ok pub (lookup_key req) e
  | BatchIndex _ _ _ _ c => ∃ k, looking pub k c
  | Replied (RepLookup r) => ∀ req, t0 = LookupStart req → no_deletes → local_answer pub req r
  | Replied (RepGet r) => ∀ req, t0 = GetStart req → no_deletes → get_answer req r
  | Died => ∃ now stream header rest, t0 = StoreStart now stream ∧ first_header stream = Ok (header, rest) ∧
      2 ^ 63 ≤ as_usize (sh_total_size header)
  | _ => True
  end.

(** The fields of the pool and the allocator that do not change. *)
Record geometry s : Prop := {
  ge_wf : pool_wf (al_pool (allocator s));
  ge_fits : index_fits (al_pool (allocator s));
  ge_id : pool_id (al_pool (allocator s)) = 0;
  ge_size : block_size (al_pool (allocator s)) = bs;
  ge_blocks : total_blocks (al_pool (allocator s)) = tb;
  ge_node : al_node_id (allocator s) = nid;
  ge_header : HEADER_SIZE ≤ bs ≤ 2 ^ 32;
  ge_gen : is_u64 (al_generation (allocator s));
}.

Definition in_pub pub (x : Z) : nat := if decide (is_Some (pub !! x)) then 1 else 0.
Definition free s : list Z := free_list (al_pool (allocator s)).

Record cinv ts s (a : shared) pub : Prop := {
  cv_geo : geometry s;
  cv_index : shared_abs (index s) a;
  cv_own x : (occ x (free s) + sum_list ((λ t, occ x (held_blocks t)) <$> ts) + in_pub pub x)%nat =
    if decide (0 ≤ x < tb) then 1%nat else 0%nat;
  cv_pub j k it : pub !! j = Some (k, it) → j = it_index it ∧ good_item k it ∧ complete (block_bytes s j) it;
  cv_map k e : sh_map a !! k = Some e → ∃ it, e = item_entry nid bs it ∧ pub !! it_index it = Some (k, it);
  cv_tasks i t0 t : tasks0 !! i = Some t0 → ts !! i = Some t → task_ok pub (block_bytes s) t0 t;
  cv_length : length ts = length tasks0;
}.

Lemma entry_ok_mono pub pub' k e :
  (no_deletes → pub ⊆ pub') → entry_ok pub k e → entry_ok pub' k e.
Proof.
  intros Hp (it & -> & Hi & He). exists it. split_and!; try done; [lia..|]. intros Hn.
  eapply lookup_weaken; [by apply He|by apply Hp].
Qed.

Lemma looking_mono pub pub' k c : (no_deletes → pub ⊆ pub') → looking pub k c → looking pub' k c.
Proof.
  intros Hp [->|(e & -> & He)]; [by left|]. right. exists e. split; [done|]. by eapply entry_ok_mono.
Qed.

(** What a task relies on: the bytes of its own blocks and, without deletes, [pub]. *)
Lemma task_ok_mono pub pub' b b' t0 t :
  (∀ j, j ∈ held_blocks t → b' j = b j) → (no_deletes → pub ⊆ pub') →
  task_ok pub b t0 t → task_ok pub' b' t0 t.
Proof.
  intros Hb Hp [Hf Ht]. split; [done|]. destruct t; try done.
  - destruct Ht as (i & Hw & Hg & Hv & Hs). exists i. rewrite Hb; [done|].
    destruct Hw as (_ & -> & _). cbn. set_solver.
  - destruct Ht as (it & -> & Hi & Hc & Hput). exists it. split; [done|]. split; [done|]. split; [done|].
    intros Hbp. destruct (Hput Hbp) as [Hg Hcm]. split; [done|]. rewrite Hb; [done|].
    cbn. rewrite Hbp. cbn. set_solver.
  - destruct Ht as (req & -> & Hl & Hc). exists req. split_and!; try done. by eapply looking_mono.
  - destruct Ht as (req & -> & Hl & He). exists req. split_and!; try done.
    destruct found as [e|]; [|done]. by eapply entry_ok_mono.
  - destruct Ht as (req & -> & Hl & Hbl & He). exists req. split_and!; try done. intros Hn.
    destruct (He Hn) as (it & Ha & [(-> & Hs & Hpub)|[-> ->]]); exists it; (split; [done|]); [left|by right].
    split_and!; try done. eapply lookup_weaken; [done|by apply Hp].
  - destruct Ht as (req & -> & Hk & Hc). exists req. split_and!; try done. by eapply looking_mono.
  - destruct Ht as (req & -> & He). exists req. split; [done|]. by eapply entry_ok_mono.
  - destruct Ht as (k & Hc). exists k. by eapply looking_mono.
  - destruct r; try done. intros req Heq Hn resp Hr Hloc.
    destruct (Ht req Heq Hn resp Hr Hloc) as (node & it & Hb' & Hpub). exists node, it. split; [done|].
    eapply lookup_weaken; [done|by apply Hp].
Qed.

Lemma sum_lookup_le (l : list nat) i x : l !! i = Some x → (x ≤ sum_list l)%nat.
Proof. revert i. induction l as [|y l IH]; intros [|i] Hl; simplify_eq/=; [lia|]. specialize (IH _ Hl). lia. Qed.
Lemma sum_lookup_two (l : list nat) i j x y :
  i ≠ j → l !! i = Some x → l !! j = Some y → (x + y ≤ sum_list l)%nat.
Proof.
  revert i j. induction l as [|z l IH]; intros [|i] [|j] Hne Hi Hj; simplify_eq/=.
  - pose proof (sum_lookup_le _ _ _ Hj). lia.
  - pose proof (sum_lookup_le _ _ _ Hi). lia.
  - assert (i ≠ j) as Hne' by congruence. specialize (IH _ _ Hne' Hi Hj). lia.
Qed.

(** A block held by a task is neither free, indexed nor held by another task. *)
Lemma held_exclusive ts s a pub i t x :
  cinv ts s a pub → ts !! i = Some t → x ∈ held_blocks t →
  occ x (free s) = 0%nat ∧ pub !! x = None ∧ occ x (held_blocks t) = 1%nat ∧
  ∀ j u, ts !! j = Some u → j ≠ i → x ∉ held_blocks u.
Proof.
  intros Hinv Hi Hx%occ_pos. pose proof (cv_own _ _ _ _ Hinv x) as Ho.
  assert (((λ t, occ x (held_blocks t)) <$> ts) !! i = Some (occ x (held_blocks t))) as Hl
    by by rewrite list_lookup_fmap, Hi.
  pose proof (sum_lookup_le _ _ _ Hl) as Hle. unfold in_pub in Ho.
  split_and!; try (repeat case_decide; lia).
  - destruct (pub !! x) as [y|]; [|done]. rewrite decide_True in Ho by by eexists. case_decide; lia.
  - intros j u Hj Hne Hu%occ_pos.
    assert (((λ t, occ x (held_blocks t)) <$> ts) !! j = Some (occ x (held_blocks u))) as Hl'
      by by rewrite list_lookup_fmap, Hj.
    pose proof (sum_lookup_two _ _ _ _ _ Hne Hl' Hl). repeat case_decide; lia.
Qed.

Lemma pub_not_held ts s a pub i t x :
  cinv ts s a pub → ts !! i = Some t → is_Some (pub !! x) → x ∉ held_blocks t.
Proof. intros Hinv Hi [y Hy] Hx. destruct (held_exclusive _ _ _ _ _ _ _ Hinv Hi Hx) as (_ & Hn & _). congruence. Qed.

(** One task moves. *)
Lemma cinv_update ts s a pub i t0 t t' s' a' pub' :
  cinv ts s a pub → tasks0 !! i = Some t0 → ts !! i = Some t →
  geometry s' → shared_abs (index s') a' →
  (∀ x, (occ x (free s') + occ x (held_blocks t') + in_pub pub' x)%nat =
        (occ x (free s) + occ x (held_blocks t) + in_pub pub x)%nat) →
  (∀ j, in_pool j → j ∉ held_blocks t → block_bytes s' j = block_bytes s j) →
  (no_deletes → pub ⊆ pub') →
  (∀ j k it, pub' !! j = Some (k, it) → pub !! j = Some (k, it) ∨
     (j = it_index it ∧ good_item k it ∧ complete (block_bytes s' j) it)) →
  (∀ k e, sh_map a' !! k = Some e → ∃ it, e = item_entry nid bs it ∧ pub' !! it_index it = Some (k, it)) →
  task_ok pub' (block_bytes s') t0 t' →
  cinv (<[i := t']> ts) s' a' pub'.
Proof.
  intros Hinv Ht0 Hi Hg Ha Hown Hblk Hsub Hpub Hmap Htask. split; try done.
  - intros x. rewrite list_fmap_insert. pose proof (cv_own _ _ _ _ Hinv x) as Ho.
    assert (((λ t, occ x (held_blocks t)) <$> ts) !! i = Some (occ x (held_blocks t))) as Hl
      by by rewrite list_lookup_fmap, Hi.
    pose proof (sum_list_insert _ _ _ (occ x (held_blocks t')) Hl). specialize (Hown x). lia.
  - intros j k it Hj. destruct (Hpub j k it Hj) as [Hold|]; [|done].
    destruct (cv_pub _ _ _ _ Hinv _ _ _ Hold) as (-> & Hgood & Hc). split; [done|]. split; [done|].
    rewrite Hblk; [done|by apply Hgood|]. eapply pub_not_held; [done|done|by eexists].
  - intros j u0 u Hu0 Hu. destruct (decide (j = i)) as [->|Hne].
    + rewrite list_lookup_insert_eq in Hu by by eapply lookup_lt_Some. by simplify_eq.
    + rewrite list_lookup_insert_ne in Hu by done. eapply task_ok_mono; [| |by eapply cv_tasks]; [|done].
      intros x Hx. apply Hblk.
      * pose proof (cv_own _ _ _ _ Hinv x) as Ho. apply occ_pos in Hx.
        assert (((λ t, occ x (held_blocks t)) <$> ts) !! j = Some (occ x (held_blocks u))) as Hl
          by by rewrite list_lookup_fmap, Hu.
        pose proof (sum_lookup_le _ _ _ Hl). unfold in_pool. case_decide; [done|lia].
      * intros Hx'. destruct (held_exclusive _ _ _ _ _ _ _ Hinv Hi Hx') as (_ & _ & _ & Hex). by eapply Hex.
  - rewrite length_insert. apply Hinv.
Qed.

(** A move that touches neither the allocator's blocks nor what is indexed. *)
Lemma cinv_quiet ts s a pub i t0 t t' s' a' :
  cinv ts s a pub → tasks0 !! i = Some t0 → ts !! i = Some t →
  allocator s' = allocator s → shared_abs (index s') a' → sh_map a' ⊆ sh_map a →
  (∀ x, occ x (held_blocks t') = occ x (held_blocks t)) →
  task_ok pub (block_bytes s) t0 t' →
  cinv (<[i := t']> ts) s' a' pub.
Proof.
  intros Hinv Ht0 Hi Hal Ha Hm Hh Ht.
  assert (∀ j, block_bytes s' j = block_bytes s j) as Hb by (intros j; unfold block_bytes; by rewrite Hal).
  eapply cinv_update; try done.
  - destruct (cv_geo _ _ _ _ Hinv). split; by rewrite ?Hal.
  - intros x. unfold free. by rewrite Hal, Hh.
  - by left.
  - intros k e Hk. eapply cv_map; [done|]. by eapply lookup_weaken.
  - by eapply task_ok_mono; [..|exact Ht].
Qed.

(** ** Every access preserves the invariant *)

(** What a task has left to do: as for the calls of the index, what an eviction loop
    spends is taken from the LRU list. *)
Definition task_weight (t : task) : nat :=
  match t with
  | StoreStart _ _ => 17
  | StoreAlloc _ _ _ => 16
  | StoreGen _ _ _ _ => 15
  | StoreHead _ _ _ _ _ _ => 14
  | StoreBody _ _ _ _ _ _ => 13
  | StoreIndex _ _ c => 2 + pc_weight c
  | StoreFinish _ _ _ => 1
  | GetStart _ => 12
  | GetIndex c => 4 + pc_weight c
  | GetFinish _ => 4
  | GetSend blocks _ => 1 + length blocks
  | DeleteStart _ => 9
  | DeleteIndex c => 3 + pc_weight c
  | DeleteFree blocks _ => 1 + length blocks
  | TickStats => 2
  | TickSwap _ => 1
  | LookupStart _ => 10
  | LookupIndex _ c => 3 + pc_weight c
  | LookupHit _ | LookupCount _ => 1
  | LookupRemote _ => 2
  | BatchStart req => 10 * length (br_prefix_hashes req) + 2
  | BatchLoop _ hashes _ _ => 10 * length hashes + 1
  | BatchIndex _ hashes _ _ c => 10 * length hashes + 3 + pc_weight c
  | BatchCount _ hashes _ _ _ => 10 * length hashes + 2
  | StatsStart => 4
  | StatsHits _ => 3
  | StatsMisses _ _ => 2
  | StatsEvictions _ _ _ => 1
  | HealthRead _ => 1
  | Replied _ | Died => 0
  end.

(** The task at [i] can move, into a state of the invariant. *)
Definition moves ts s (a : shared) i t : Prop :=
  ∃ t' s' a' pub', task_step sha256 crc32 pad t s = Some (t', s') ∧ cinv (<[i := t']> ts) s' a' pub' ∧
    (task_weight t' + 4 * length (sh_keys a') < task_weight t + 4 * length (sh_keys a))%nat.

Lemma moves_Ret ts s a i t t' s' a' pub' :
  ended t = false → task_action sha256 crc32 pad t s = (Ret t', s') →
  (task_weight t' + 4 * length (sh_keys a') < task_weight t + 4 * length (sh_keys a))%nat →
  cinv (<[i := t']> ts) s' a' pub' → moves ts s a i t.
Proof. intros He Ha Hw Hinv. exists t', s', a', pub'. unfold task_step. by rewrite He, Ha. Qed.

Section cases.
Context (Hpad : zlen pad = 4) (Hcrc : ∀ d, is_u32 (crc32 d)).
Context (ts : list task) (s : CacheService) (a : shared) (pub : gmap Z (bytes * item)).
Context (Hinv : cinv ts s a pub).
Context (i : nat) (t0 : task) (Ht0 : tasks0 !! i = Some t0).

(** A move that leaves the service as it is. *)
Lemma moves_local t t' :
  ts !! i = Some t → ended t = false → task_action sha256 crc32 pad t s = (Ret t', s) →
  (task_weight t' <? task_weight t)%nat = true →
  (∀ x, occ x (held_blocks t') = occ x (held_blocks t)) → task_ok pub (block_bytes s) t0 t' →
  moves ts s a i t.
Proof using Hinv Ht0 Hpad Hcrc.
  intros Hi He Ha Hw%Nat.ltb_lt Hh Ht. apply (moves_Ret _ _ _ _ _ t' s a pub); [done|done|lia|].
  eapply cinv_quiet; try done. apply Hinv.
Qed.

Lemma store_start_moves now stream : ts !! i = Some (StoreStart now stream) → moves ts s a i (StoreStart now stream).
Proof using Hinv Ht0 Hpad Hcrc.
  intros Hi. destruct (cv_tasks _ _ _ _ Hinv i _ _ Ht0 Hi) as [_ Heq].
  assert (family t0 = 0%nat) as Hfam by by rewrite Heq.
  destruct (as_pressure_level (cs_state s) >=? PRESSURE_REJECT) eqn:Hp.
  { eapply moves_local; [done|done|cbn; erewrite bind_Ret by reflexivity; by rewrite Hp|done|done|by split]. }
  destruct (first_header stream) as [[header rest]|e] eqn:Hf.
  2: { eapply moves_local; [done|done|cbn; erewrite bind_Ret by reflexivity; by rewrite Hp, Hf|done|done|by split]. }
  destruct (parse_prefix_hash (sh_prefix_hash header)) as [h|e] eqn:Hh.
  2: { eapply moves_local; [done|done|cbn; erewrite bind_Ret by reflexivity; by rewrite Hp, Hf, Hh|done|done|by split]. }
  destruct (as_usize (sh_total_size header) <=? 2 ^ 63 - 1) eqn:Hcap.
  - assert (∀ k : M CacheService task, (with_capacity (as_usize (sh_total_size header));; k) s = k s) as Hwc.
    { intros k. unfold with_capacity. by rewrite Hcap. }
    destruct (collect_chunks [] rest) as [data|e] eqn:Hc.
    2: { eapply moves_local; [done|done|cbn; erewrite bind_Ret by reflexivity; by rewrite Hp, Hf, Hh, Hwc, Hc|done|done|by split]. }
    eapply moves_local; [done|done|cbn; erewrite bind_Ret by reflexivity; by rewrite Hp, Hf, Hh, Hwc, Hc|done|done|].
    split; [done|]. exists i, now, stream. split; [by rewrite <-Heq|]. unfold store_target. rewrite Hf.
    unfold parse_prefix_hash in Hh. destruct (bool_decide (length _ = 16%nat)); simplify_eq. cbn. by rewrite Hcap, Hc.
  - exists Died, s, a, pub. split; [|split].
    + unfold task_step. cbn. erewrite bind_Ret by reflexivity. rewrite Hp, Hf, Hh. unfold with_capacity. by rewrite Hcap.
    + eapply cinv_quiet; try done; [apply Hinv|]. split; [done|]. exists now, stream, header, rest.
      apply Z.leb_gt in Hcap. split_and!; try done. lia.
    + cbn. lia.
Qed.

Lemma geometry_pool p' g :
  same_geometry (al_pool (allocator s)) p' → pool_wf p' → is_u64 g →
  geometry (set_allocator (mkBlockAllocator p' (al_node_id (allocator s)) g) s).
Proof using Hinv Hpad Hcrc.
  intros (H1 & H2 & H3 & H4) Hwf Hg. destruct (cv_geo _ _ _ _ Hinv). unfold index_fits in *.
  split; cbn; congruence || done || (unfold index_fits; congruence).
Qed.

(** A move that writes the allocator only. *)
Lemma moves_memory t t' al :
  ts !! i = Some t → geometry (set_allocator al s) →
  (∀ x, (occ x (free_list (al_pool al)) + occ x (held_blocks t'))%nat = (occ x (free s) + occ x (held_blocks t))%nat) →
  (∀ j, in_pool j → j ∉ held_blocks t → block_bytes (set_allocator al s) j = block_bytes s j) →
  task_ok pub (block_bytes (set_allocator al s)) t0 t' →
  cinv (<[i := t']> ts) (set_allocator al s) a pub.
Proof using Hinv Ht0 Hpad Hcrc.
  intros Hi Hg Hown Hb Ht. eapply (cinv_update ts s a pub i t0 t); try done.
  - apply Hinv.
  - intros x. specialize (Hown x). unfold free at 1. cbn. lia.
  - by left.
  - apply Hinv.
Qed.

Lemma store_alloc_moves now k d : ts !! i = Some (StoreAlloc now k d) → moves ts s a i (StoreAlloc now k d).
Proof using Hinv Ht0 Hpad Hcrc.
  intros Hi. destruct (cv_tasks _ _ _ _ Hinv i _ _ Ht0 Hi) as [Hfam Hasked].
  pose proof (cv_geo _ _ _ _ Hinv) as [Hwf Hfit Hid Hbs Htb Hn Hhdr Hg].
  assert (as_usize (block_size (al_pool (allocator s)) - HEADER_SIZE) = bs - HEADER_SIZE) as Hmax.
  { rewrite Hbs. apply as_usize_id. unfold is_usize, is_u64, HEADER_SIZE in *. lia. }
  destruct (bs - HEADER_SIZE <? zlen d) eqn:Hlt.
  { eapply moves_local; [done|done|cbn; erewrite bind_Ret by reflexivity; by rewrite Hmax, Hlt|done|done|by split]. }
  apply Z.ltb_ge in Hlt as Hle. destruct (free s) as [|j l _] eqn:Hfree using rev_ind.
  - apply (moves_local _ (Replied (RepStore (Err (ResourceExhausted "memory pool exhausted"))))); [done|done| |done|done|by split].
    cbn. erewrite bind_Ret by reflexivity. rewrite Hmax, Hlt.
    assert (on_allocator (on_pool allocate) s = (Ret None, s)) as Hnone.
    { by rewrite (on_allocator_eq _ _ _ _ (on_pool_Ret _ _ _ (allocate_None _ Hfree))), set_allocator_id. }
    by rewrite (bind_Ret _ _ _ _ _ Hnone).
  - destruct (allocate_Some _ Hwf j l Hfit Hfree) as (Halloc & Hwf' & Hj).
    eapply (moves_Ret _ _ _ _ _ (StoreGen now k d _) _ a pub); [done| |cbn; lia|].
    { cbn. erewrite bind_Ret by reflexivity. rewrite Hmax, Hlt.
      by rewrite (bind_Ret _ _ _ _ _ (on_allocator_eq _ _ _ _ (on_pool_eq _ _ _ _ Halloc))). }
    apply (moves_memory _ _ _ Hi); [by apply geometry_pool| |done|].
    + intros x. unfold free in *. rewrite Hfree. cbn. rewrite occ_app, occ_nil. lia.
    + split; [done|]. exists j. unfold writing, handle_of, block_handle, in_pool. rewrite Hid, Hbs.
      split_and!; [done|done|lia..].
Qed.

Lemma store_gen_moves now k d h : ts !! i = Some (StoreGen now k d h) → moves ts s a i (StoreGen now k d h).
Proof using Hinv Ht0 Hpad Hcrc.
  intros Hi. destruct (cv_tasks _ _ _ _ Hinv i _ _ Ht0 Hi) as [Hfam (j & Hw)].
  pose proof Hw as (_ & -> & Hj & _). pose proof (cv_geo _ _ _ _ Hinv) as [Hwf Hfit Hid Hbs Htb Hn Hhdr Hg].
  set (p := al_pool (allocator s)) in *. set (g := al_generation (allocator s)) in *.
  assert (handle_ok p (handle_of j)) as Hh by (unfold handle_ok; cbn; unfold in_pool in Hj; rewrite Hid, Hbs, Htb; done).
  set (al := mkBlockAllocator p (al_node_id (allocator s)) (as_u64 (g + 1))).
  assert (on_allocator (on_pool (get_slice_mut (handle_of j))) (set_allocator al s) =
    (Ret (j * bs, bs), set_allocator al s)) as Hslice.
  { rewrite (on_allocator_eq _ (set_allocator al s) _ _ (on_pool_eq _ al _ _ (get_slice_mut_ok p Hwf _ Hh))).
    cbn. by rewrite Hbs. }
  eapply (moves_Ret _ _ _ _ _ (StoreHead now k d _ _ _) _ a pub); [done| |cbn; lia|].
  { cbn. erewrite bind_Ret; [|reflexivity]. cbn beta. rewrite (bind_Ret _ _ _ _ _ Hslice). reflexivity. }
  apply (moves_memory _ _ _ Hi); [by apply geometry_pool; [..|apply as_u64_range]|done|done|].
  split; [done|]. by exists j.
Qed.

(** Writing [src] at offset [o] of block [j]. *)
Lemma write_block j o (src : bytes) :
  in_pool j → 0 ≤ o → o + zlen src ≤ bs →
  let r := region (al_pool (allocator s)) in
  let s' := set_allocator (set_al_pool (set_region (blit (j * bs + o) src r) (al_pool (allocator s))) (allocator s)) s in
  block_bytes s' j = blit o src (block_bytes s j) ∧
  (∀ j', in_pool j' → j' ≠ j → block_bytes s' j' = block_bytes s j').
Proof using Hinv.
  intros Hj Ho Hlen r s'. pose proof (cv_geo _ _ _ _ Hinv) as [Hwf Hfit Hid Hbs Htb Hn Hhdr Hg].
  pose proof (zlen_nonneg src). unfold in_pool in Hj.
  assert (∀ j', 0 ≤ j' < tb → 0 ≤ j' * bs ∧ j' * bs + bs ≤ zlen r) as Hin.
  { intros j' Hj'. rewrite <-Hbs. apply block_in_region; [done|lia]. }
  pose proof (Hin j Hj). split.
  - unfold block_bytes. cbn. fold r. apply slice_blit_within; lia.
  - intros j' Hj' Hne. pose proof (Hin j' Hj'). unfold block_bytes. cbn. fold r.
    pose proof (blocks_disjoint _ j' j Hwf Hne) as Hd. rewrite Hbs in Hd.
    apply slice_blit_disjoint; lia.
Qed.

Lemma store_head_moves now k d h g v :
  ts !! i = Some (StoreHead now k d h g v) → moves ts s a i (StoreHead now k d h g v).
Proof using Hinv Ht0 Hpad Hcrc.
  intros Hi. destruct (cv_tasks _ _ _ _ Hinv i _ _ Ht0 Hi) as [Hfam (j & Hw & Hu & ->)].
  pose proof Hw as (_ & -> & Hj & Hfit). pose proof (cv_geo _ _ _ _ Hinv) as [Hwf _ Hid Hbs Htb Hn Hhdr Hg].
  set (p := al_pool (allocator s)) in *. set (hb := header_bytes pad (header_new crc32 d g)).
  pose proof (zlen_header_bytes pad (header_new crc32 d g) Hpad) as Hl. fold hb in Hl.
  pose proof (block_in_region p j Hwf) as Hr. rewrite Hbs, Htb in Hr. destruct (Hr Hj) as [Hlo Hhi].
  destruct (with_view_ok p Hwf (j * bs) bs 0 HEADER_SIZE (write_to pad (header_new crc32 d g)) (Ret tt) hb)
    as [Hv Hwf']; [done|done|unfold HEADER_SIZE; lia|lia| |rewrite Hl; lia|].
  { apply write_to_ok; [done|]. rewrite zlen_slice; unfold HEADER_SIZE in *; lia. }
  eapply (moves_Ret _ _ _ _ _ (StoreBody now k d _ _ _) _ a pub); [done| |cbn; lia|].
  { cbn. rewrite (bind_Ret _ _ _ _ _ (on_allocator_eq _ _ _ _ (on_pool_eq _ _ _ _ Hv))). reflexivity. }
  destruct (write_block j 0 hb Hj) as [Hself Hoth]; [done|rewrite Hl; lia|].
  apply (moves_memory _ _ _ Hi); [by apply geometry_pool|done| |].
  - intros j' Hj' Hne. apply Hoth; [done|]. cbn in Hne. set_solver.
  - split; [done|]. exists j. split; [done|]. split; [done|]. split; [done|]. fold hb.
    etrans; [|apply (slice_blit_same 0 hb (block_bytes s j))]; [|done|].
    + rewrite Hl. f_equal. exact Hself.
    + unfold block_bytes. fold p. rewrite zlen_slice; unfold HEADER_SIZE in *; lia.
Qed.

Lemma blit_complete (blk hb src : bytes) :
  slice 0 (zlen hb) blk = hb → zlen hb + zlen src ≤ zlen blk →
  blit (zlen hb) src blk = hb ++ src ++ drop (length hb + length src) blk.
Proof.
  intros Hs Hl. unfold blit, slice, zlen in *. rewrite drop_0, Nat2Z.id in Hs. rewrite Nat2Z.id, Hs.
  do 3 f_equal.
Qed.

Lemma store_body_moves now k d h g v :
  ts !! i = Some (StoreBody now k d h g v) → moves ts s a i (StoreBody now k d h g v).
Proof using Hinv Ht0 Hpad Hcrc.
  intros Hi. destruct (cv_tasks _ _ _ _ Hinv i _ _ Ht0 Hi) as [Hfam (j & Hw & Hu & -> & Hhead)].
  pose proof Hw as (Hask & -> & Hj & Hfit). pose proof (cv_geo _ _ _ _ Hinv) as [Hwf _ Hid Hbs Htb Hn Hhdr Hg].
  set (p := al_pool (allocator s)) in *. pose proof (zlen_nonneg d).
  pose proof (zlen_header_bytes pad (header_new crc32 d g) Hpad) as Hl.
  pose proof (block_in_region p j Hwf) as Hr. rewrite Hbs, Htb in Hr. destruct (Hr Hj) as [Hlo Hhi].
  destruct (view_copy_ok p Hwf (j * bs) bs HEADER_SIZE (HEADER_SIZE + zlen d) d)
    as [Hv Hwf']; [done|done|unfold HEADER_SIZE; lia|lia|lia|].
  set (loc := item_loc nid bs (mkItem j d g now)).
  apply (moves_Ret _ _ _ _ _ (StoreIndex k loc (InsertCheck k (mkIndexEntry [loc] now)))
           (set_allocator (set_al_pool (set_region (blit (j * bs + HEADER_SIZE) d (region p)) p) (allocator s)) s) a pub); [done| |cbn; lia|].
  { cbn. rewrite (bind_Ret _ _ _ _ _ (on_allocator_eq _ _ _ _ (on_pool_eq _ _ _ _ Hv))).
    erewrite bind_Ret; [|reflexivity]. cbn. unfold loc, item_loc. cbn. by rewrite Hbs, Hn. }
  destruct (write_block j HEADER_SIZE d Hj) as [Hself Hoth]; [done|done|].
  apply (moves_memory _ _ _ Hi); [by apply geometry_pool|done| |].
  - intros j' Hj' Hne. apply Hoth; [done|]. cbn in Hne. set_solver.
  - split; [done|]. exists (mkItem j d g now). split; [done|]. split; [done|]. split; [done|]. intros _.
    split; [split; [done|by split]|]. exists pad. eexists. split; [done|].
    etrans; [exact Hself|]. cbn [it_data it_gen]. rewrite <-Hl in Hhead |- *. apply blit_complete; [done|].
    unfold block_bytes. fold p. rewrite zlen_slice; unfold HEADER_SIZE in *; lia.
Qed.

Lemma pc_decreases c :
  ((match (action_spec (bi_capacity (index s)) c a).1 with inl c' => pc_weight c' | inr _ => 0 end) +
   4 * length (sh_keys (action_spec (bi_capacity (index s)) c a).2) < pc_weight c + 4 * length (sh_keys a))%nat.
Proof.
  pose proof (action_spec_decreases (bi_capacity (index s)) c a (mkThread (Some c) [] []) eq_refl) as Hd.
  unfold thread_weight, after in Hd. cbn in Hd. destruct (action_spec _ c a).1; cbn in Hd; lia.
Qed.

Lemma insert_pc_cases capacity c k e (sh : shared) :
  insert_of c = Some (k, e) →
  let r := action_spec capacity c sh in
  (∃ ev, c = InsertTouch k e ev ∧ r.1 = inr (OEvicted ev) ∧ sh_map r.2 = sh_map sh) ∨
  (∃ ev, c = InsertPut k e ev ∧ r.1 = inl (InsertTouch k e ev) ∧ sh_map r.2 = <[k := e]> (sh_map sh)) ∨
  (∃ c', r.1 = inl c' ∧ insert_of c' = Some (k, e) ∧ before_put c = true ∧ before_put c' = true ∧
     sh_map r.2 ⊆ sh_map sh).
Proof.
  destruct sh as [m keys]. destruct c; intros Hc; simplify_eq/=; try (by eauto 10); right; right.
  - case_bool_decide; eexists; by split_and!.
  - case_match; eexists; by split_and!.
  - destruct (vec_pop keys) as [[v keys']|]; eexists; by split_and!.
  - eexists. split_and!; try done. apply delete_subseteq.
Qed.

(** An access of the index from a handler. *)
Lemma index_access c :
  ∃ i', on_index (action c) s = (Ret (action_spec (bi_capacity (index s)) c a).1, set_index i' s) ∧
    shared_abs i' (action_spec (bi_capacity (index s)) c a).2.
Proof using Hinv.
  destruct (action_ok (index s) a c (cv_index _ _ _ _ Hinv)) as (i' & Ha & Hs & _).
  exists i'. split; [by apply on_index_eq|done].
Qed.

Lemma store_index_moves k loc c : ts !! i = Some (StoreIndex k loc c) → moves ts s a i (StoreIndex k loc c).
Proof using Hinv Ht0 Hpad Hcrc.
  intros Hi. destruct (cv_tasks _ _ _ _ Hinv i _ _ Ht0 Hi) as [Hfam (it & -> & Hin & Hc & Hput)].
  destruct (index_access c) as (i' & Hacc & Hs').
  destruct (insert_pc_cases (bi_capacity (index s)) c _ _ a Hc)
    as [(ev & -> & Hr & Hm)|[(ev & -> & Hr & Hm)|(c' & Hr & Hc' & Hb & Hb' & Hm)]]; rewrite Hr in Hacc.
  - apply (moves_Ret _ _ _ _ _ (StoreFinish k (item_loc nid bs it) ev) (set_index i' s)
             (action_spec (bi_capacity (index s)) (InsertTouch k (item_entry nid bs it) ev) a).2 pub); [done| |pose proof (pc_decreases (InsertTouch k (item_entry nid bs it) ev)) as Hd; rewrite Hr in Hd; cbn in Hd |- *; lia|].
    { cbn. by rewrite (bind_Ret _ _ _ _ _ Hacc). }
    eapply (cinv_quiet ts s a); try done. by rewrite Hm.
  - destruct (Hput eq_refl) as [Hgood Hcm].
    assert (it_index it ∈ held_blocks (StoreIndex k (item_loc nid bs it) (InsertPut k (item_entry nid bs it) ev)))
      as Hheld by (cbn; set_solver).
    destruct (held_exclusive _ _ _ _ _ _ _ Hinv Hi Hheld) as (_ & Hnp & _ & _).
    set (pub' := <[it_index it := (k, it)]> pub).
    apply (moves_Ret _ _ _ _ _ (StoreIndex k (item_loc nid bs it) (InsertTouch k (item_entry nid bs it) ev))
             (set_index i' s) (action_spec (bi_capacity (index s)) (InsertPut k (item_entry nid bs it) ev) a).2 pub'); [done| |pose proof (pc_decreases (InsertPut k (item_entry nid bs it) ev)) as Hd; rewrite Hr in Hd; cbn in Hd |- *; lia|].
    { cbn. by rewrite (bind_Ret _ _ _ _ _ Hacc). }
    eapply (cinv_update ts s a pub i t0); try done.
    + destruct (cv_geo _ _ _ _ Hinv). by split.
    + intros x. change (free (set_index i' s)) with (free s). cbn [held_blocks before_put bl_block_index item_loc].
      rewrite occ_cons, occ_nil. unfold in_pub, pub'.
      destruct (decide (it_index it = x)) as [<-|Hne].
      * rewrite lookup_insert_eq, Hnp, decide_True, decide_False by (done || intros []; done). lia.
      * rewrite lookup_insert_ne by done. lia.
    + intros _. by apply insert_subseteq.
    + intros j k' it' Hj. apply lookup_insert_Some in Hj as [[<- ?]|[_ Hj]]; [simplify_eq; by right|by left].
    + intros k' e' Hk'. rewrite Hm in Hk'. apply lookup_insert_Some in Hk' as [[<- <-]|[Hne Hk']].
      * exists it. split; [done|]. apply lookup_insert_eq.
      * destruct (cv_map _ _ _ _ Hinv _ _ Hk') as (it' & -> & Hp'). exists it'. split; [done|].
        unfold pub'. rewrite lookup_insert_ne; [done|]. intros Heq. rewrite <-Heq, Hnp in Hp'. done.
    + split; [done|]. exists it. split_and!; try done; apply Hin.
  - apply (moves_Ret _ _ _ _ _ (StoreIndex k (item_loc nid bs it) c') (set_index i' s)
             (action_spec (bi_capacity (index s)) c a).2 pub); [done| |pose proof (pc_decreases c) as Hd; rewrite Hr in Hd; cbn in Hd |- *; lia|].
    { cbn. by rewrite (bind_Ret _ _ _ _ _ Hacc). }
    eapply (cinv_quiet ts s a); try done; [intros x; cbn; by rewrite Hb, Hb'|].
    split; [done|]. exists it. split; [done|]. split; [done|]. split; [done|]. intros _. by apply Hput.
Qed.

Lemma store_finish_moves k loc ev : ts !! i = Some (StoreFinish k loc ev) → moves ts s a i (StoreFinish k loc ev).
Proof using Hinv Ht0 Hpad Hcrc.
  intros Hi. destruct (cv_tasks _ _ _ _ Hinv i _ _ Ht0 Hi) as [Hfam _].
  assert (∃ s', task_action sha256 crc32 pad (StoreFinish k loc ev) s =
      (Ret (Replied (RepStore (Ok (mkStoreResponse true "" (bl_generation loc))))), s') ∧
    allocator s' = allocator s ∧ index s' = index s) as (s' & Ha & Hal & Hix).
  { cbn [task_action]. erewrite bind_Ret; [|reflexivity].
    destruct (al_stats_pure (allocator s)) as [st Hst].
    erewrite bind_Ret; [|by apply on_allocator_eq].
    erewrite bind_Ret by reflexivity. destruct (as_metadata _); (eexists; split; [reflexivity|done]). }
  apply (moves_Ret _ _ _ _ _ (Replied (RepStore (Ok (mkStoreResponse true "" (bl_generation loc))))) s' a pub); [done|exact Ha|cbn; lia|]. eapply (cinv_quiet ts s a pub i t0); try done. rewrite Hix. apply Hinv.
Qed.

(** A move that only counts, or reads. *)
Lemma moves_counter t t' s' :
  ts !! i = Some t → ended t = false → task_action sha256 crc32 pad t s = (Ret t', s') →
  allocator s' = allocator s → index s' = index s →
  (task_weight t' <? task_weight t)%nat = true →
  (∀ x, occ x (held_blocks t') = occ x (held_blocks t)) → task_ok pub (block_bytes s) t0 t' →
  moves ts s a i t.
Proof using Hinv Ht0 Hpad Hcrc.
  intros Hi He Ha Hal Hix Hw%Nat.ltb_lt Hh Ht. apply (moves_Ret _ _ _ _ _ t' s' a pub); [done|done|lia|].
  eapply (cinv_quiet ts s a pub i t0 t t' s' a); try done. rewrite Hix. apply Hinv.
Qed.

Lemma get_start_moves req : ts !! i = Some (GetStart req) → moves ts s a i (GetStart req).
Proof using Hinv Ht0 Hpad Hcrc.
  intros Hi. destruct (cv_tasks _ _ _ _ Hinv i _ _ Ht0 Hi) as [Hfam Heq].
  destruct (decide (length (gr_prefix_hash req) = 16%nat)) as [Hl|Hl].
  - eapply (moves_local _ (GetIndex (LookupGet (get_key sha256 req)))); [done|done| |done|done|].
    + cbn. by rewrite (parse_16 _ Hl).
    + split; [done|]. exists req. split_and!; [done|done|by left].
  - eapply (moves_local _ (Replied (RepGet (Err (InvalidArgument "prefix_hash must be exactly 16 bytes"))))); [done|done| |done|done|].
    + cbn. unfold parse_prefix_hash. by rewrite bool_decide_false.
    + split; [done|]. intros req' Heq' _. unfold get_answer. rewrite Heq in Heq'. simplify_eq. by rewrite decide_False.
Qed.

Lemma mapped_entry_ok k e : sh_map a !! k = Some e → entry_ok pub k e.
Proof using Hinv.
  intros (it & -> & Hp)%(cv_map _ _ _ _ Hinv). exists it. split; [done|].
  destruct (cv_pub _ _ _ _ Hinv _ _ _ Hp) as (_ & (Hin & _) & _). by split.
Qed.

(** An access of the index's [lookup] inside a handler. *)
Lemma lookup_access wrap fin k c :
  (∀ c, task_action sha256 crc32 pad (wrap c) s =
     (r ← on_index (action c); match r with inl c' => mret (wrap c') | inr o => fin o end) s) →
  (∀ c, ended (wrap c) = false ∧ held_blocks (wrap c) = []) →
  looking pub k c → ts !! i = Some (wrap c) →
  (∀ e, entry_ok pub k e → task_ok pub (block_bytes s) t0 (wrap (LookupTouch k e))) →
  (∀ found, (match found with Some e => entry_ok pub k e | None => True end) →
     ∃ t', (∀ s', fin (OEntry found) s' = (Ret t', s')) ∧ held_blocks t' = [] ∧ task_ok pub (block_bytes s) t0 t' ∧
       ∀ c', (task_weight t' + pc_weight c' ≤ task_weight (wrap c'))%nat) →
  (∀ c c', (task_weight (wrap c) + pc_weight c' = task_weight (wrap c') + pc_weight c)%nat) →
  moves ts s a i (wrap c).
Proof using Hinv Ht0 Hpad Hcrc.
  intros Hact Hend Hc Hi Htouch Hfin Hwt.
  destruct (index_access c) as (i' & Hacc & Hs').
  assert (sh_map (action_spec (bi_capacity (index s)) c a).2 = sh_map a) as Hm.
  { destruct a as [m keys]. by destruct Hc as [->|(e & -> & _)]. }
  assert (∃ t', task_action sha256 crc32 pad (wrap c) s = (Ret t', set_index i' s) ∧
    held_blocks t' = [] ∧ task_ok pub (block_bytes s) t0 t' ∧
    (task_weight t' + pc_weight c ≤ task_weight (wrap c) +
      match (action_spec (bi_capacity (index s)) c a).1 with inl c' => pc_weight c' | inr _ => 0 end)%nat)
    as (t' & Ha & Hh & Ht & Hw).
  { rewrite Hact, (bind_Ret _ _ _ _ _ Hacc). destruct Hc as [->|(e & -> & He)].
    - pose proof (mapped_entry_ok k) as Hme. destruct a as [m keys]. cbn in Hme |- *.
      destruct (m !! k) as [e|].
      + eexists. split; [reflexivity|]. split; [apply Hend|]. split; [by apply Htouch, Hme|].
        pose proof (Hwt (LookupTouch k e) (LookupGet k)). cbn in *. lia.
      + destruct (Hfin None I) as (t' & Hf & Hh & Ht & Hle). exists t'. rewrite Hf. split; [done|].
        split; [done|]. split; [done|]. specialize (Hle (LookupGet k)). cbn in *. lia.
    - destruct (Hfin (Some e) He) as (t' & Hf & Hh & Ht & Hle). exists t'.
      assert ((action_spec (bi_capacity (index s)) (LookupTouch k e) a).1 = inr (OEntry (Some e))) as -> by by destruct a.
      rewrite Hf. split; [done|]. split; [done|]. split; [done|]. specialize (Hle (LookupTouch k e)). cbn in *. lia. }
  pose proof (pc_decreases c) as Hd.
  apply (moves_Ret _ _ _ _ _ t' (set_index i' s) (action_spec (bi_capacity (index s)) c a).2 pub); [apply Hend|done|lia|].
  eapply (cinv_quiet ts s a); try done; [by rewrite Hm|]. intros x. rewrite Hh. by destruct (Hend c) as [_ ->].
Qed.

Lemma get_index_moves c : ts !! i = Some (GetIndex c) → moves ts s a i (GetIndex c).
Proof using Hinv Ht0 Hpad Hcrc.
  intros Hi. destruct (cv_tasks _ _ _ _ Hinv i _ _ Ht0 Hi) as [Hfam (req & Heq & Hl & Hc)].
  apply (lookup_access GetIndex (λ o, match o with OEntry found => mret (GetFinish found) | _ => panic end)
           (get_key sha256 req) c); try done.
  - intros e He. split; [done|]. exists req. split_and!; try done. right. by exists e.
  - intros found He. exists (GetFinish found). split; [done|]. split; [done|]. split; [|intros; cbn; lia].
    split; [done|]. by exists req.
  - intros; cbn; lia.
Qed.

Lemma get_header_item it : get_header (item_entry nid bs it) = mkGetHeader bs 1 (it_gen it).
Proof using Hinv.
  pose proof (cv_geo _ _ _ _ Hinv) as [_ _ _ _ _ _ Hhdr _].
  assert (sum_u64 [bs] = bs) as Hsum.
  { unfold sum_u64. cbn [foldl]. rewrite Z.add_0_l. apply as_u64_id. unfold is_u64, HEADER_SIZE in *. lia. }
  unfold get_header. cbn [item_entry ie_blocks fmap list_fmap item_loc bl_block_size head]. by rewrite Hsum.
Qed.

Lemma get_finish_moves found : ts !! i = Some (GetFinish found) → moves ts s a i (GetFinish found).
Proof using Hinv Ht0 Hpad Hcrc.
  intros Hi. destruct (cv_tasks _ _ _ _ Hinv i _ _ Ht0 Hi) as [Hfam (req & Heq & Hl & He)].
  destruct found as [e|].
  - destruct He as (it & -> & Hin & Hp).
    eapply (moves_counter _ (GetSend [item_loc nid bs it] [Ok (GetHeaderMsg (get_header (item_entry nid bs it)))])); try done.
    split; [done|]. exists req. split; [done|]. split; [done|]. split; [by repeat constructor; exists it|].
    intros Hn. specialize (Hp Hn). destruct (cv_pub _ _ _ _ Hinv _ _ _ Hp) as (_ & (_ & _ & Hask) & _).
    exists it. split; [done|]. left. split; [done|]. split; [|done]. by rewrite get_header_item.
  - eapply (moves_counter _ (Replied (RepGet (Err (NotFound "prefix hash not found in cache"))))); try done.
    split; [done|]. intros req' Heq' _. rewrite Heq in Heq'. simplify_eq. unfold get_answer.
    rewrite decide_True by done. by left.
Qed.

Lemma item_handle it : in_pool (it_index it) → loc_handle (item_loc nid bs it) = handle_of (it_index it).
Proof using Hinv.
  intros Hj. pose proof (cv_geo _ _ _ _ Hinv) as [Hwf Hfit Hid Hbs Htb Hn Hhdr Hg].
  unfold loc_handle, handle_of, item_loc. cbn. unfold in_pool in Hj.
  assert (is_usize (it_index it * bs)) as Hu by (rewrite <-Hbs; apply block_index_usize; [done|lia]).
  assert (is_usize bs) as Hu' by (unfold is_usize, is_u64, HEADER_SIZE in *; lia).
  by rewrite !as_usize_id.
Qed.

Lemma handle_of_block j : handle_of j = block_handle (al_pool (allocator s)) j.
Proof using Hinv.
  pose proof (cv_geo _ _ _ _ Hinv) as [_ _ Hid Hbs _ _ _ _]. unfold handle_of, block_handle. by rewrite Hid, Hbs.
Qed.

(** Reading a block of the pool: never a panic, and the data if the block is complete. *)
Lemma read_block j :
  in_pool j → ∃ r, on_allocator (read_verified crc32 (handle_of j)) s = (Ret r, s) ∧
    ∀ it, it_index it = j → is_u64 (it_gen it) → complete (block_bytes s j) it → r = Some (it_data it).
Proof using Hinv Hcrc.
  intros Hj. pose proof (cv_geo _ _ _ _ Hinv) as [Hwf Hfit Hid Hbs Htb Hn Hhdr Hg]. unfold in_pool in Hj.
  rewrite handle_of_block. assert (0 ≤ j < total_blocks (al_pool (allocator s))) as Hj' by lia.
  assert (∃ r, read_verified crc32 (block_handle (al_pool (allocator s)) j) (allocator s) = (Ret r, allocator s)) as [r Hr].
  { unfold read_verified.
    rewrite (bind_Ret _ _ _ _ _ (on_pool_Ret _ _ _ (get_slice_ok _ Hwf _ (block_handle_ok _ _ Hj')))).
    repeat case_match; by eexists. }
  exists r. split; [by rewrite (on_allocator_eq _ _ _ _ Hr), set_allocator_id|].
  intros it <- Hu (pd & rest & Hpd & Hb). pose proof (zlen_nonneg (it_data it)).
  assert (block_holds crc32 (al_pool (allocator s)) (it_index it) (it_data it) (it_gen it)) as Hbh.
  { exists pd, rest. split; [done|]. rewrite Hbs. exact Hb. }
  pose proof (block_holds_size _ _ _ _ _ Hwf Hj' Hbh).
  assert (is_u32 (zlen (it_data it))) as Hlen by (unfold is_u32, HEADER_SIZE in *; lia).
  pose proof (read_verified_holds crc32 _ _ _ _ Hwf Hj' Hcrc Hu Hlen Hbh). congruence.
Qed.

Lemma get_send_moves blocks sent : ts !! i = Some (GetSend blocks sent) → moves ts s a i (GetSend blocks sent).
Proof using Hinv Ht0 Hpad Hcrc.
  intros Hi. destruct (cv_tasks _ _ _ _ Hinv i _ _ Ht0 Hi) as [Hfam (req & Heq & Hl & Hbl & Hd)].
  destruct blocks as [|loc blocks].
  - eapply (moves_local _ (Replied (RepGet (Ok sent)))); try done. split; [done|].
    intros req' Heq' Hn. rewrite Heq in Heq'. simplify_eq. destruct (Hd Hn) as (it & Hask & [(? & _)|[_ ->]]); [done|].
    unfold get_answer. rewrite decide_True by done. right. by exists it.
  - apply Forall_cons in Hbl as [(it & -> & Hin) Hbl].
    destruct (read_block (it_index it) Hin) as (r & Hr & Hc). rewrite <-(item_handle it Hin) in Hr.
    assert (no_deletes → ∃ it', asked (get_key sha256 req) (it_data it') ∧ blocks = [] ∧
      sent ++ [Ok (GetData (it_data it'))] = item_stream bs it' ∧ r = Some (it_data it')) as Hgood.
    { intros Hn. destruct (Hd Hn) as (it' & Hask & [(Hloc & Hs & Hp)|[? _]]); [|done].
      destruct (cv_pub _ _ _ _ Hinv _ _ _ Hp) as (_ & (_ & Hu & _) & Hcm).
      assert (it_index it = it_index it') as Hidx by (injection Hloc; done).
      exists it'. split_and!; [done|by injection Hloc|done|]. rewrite Hidx in Hc. by apply Hc. }
    destruct r as [d|].
    + eapply (moves_local _ (GetSend blocks (sent ++ [Ok (GetData d)]))); try done; [| |].
      { cbn. by rewrite (bind_Ret _ _ _ _ _ Hr). }
      { apply Nat.ltb_lt. cbn. lia. }
      split; [done|]. exists req. split_and!; try done. intros Hn. destruct (Hgood Hn) as (it' & Hask & -> & Hs & Hdd).
      exists it'. split; [done|]. right. split; [done|]. by simplify_eq.
    + eapply (moves_local _ (GetSend [] (sent ++ [Err (DataLoss "block CRC32C verification failed")]))); try done.
      { cbn. by rewrite (bind_Ret _ _ _ _ _ Hr). }
      split; [done|]. exists req. split_and!; try done. intros Hn. by destruct (Hgood Hn) as (it' & _ & _ & _ & ?).
Qed.

Lemma delete_start_moves h : ts !! i = Some (DeleteStart h) → moves ts s a i (DeleteStart h).
Proof using Hinv Ht0 Hpad Hcrc.
  intros Hi. destruct (cv_tasks _ _ _ _ Hinv i _ _ Ht0 Hi) as [Hfam _].
  destruct (parse_prefix_hash h) as [k|e] eqn:Hh.
  - eapply (moves_local _ (DeleteIndex (RemoveMap k))); try done; [cbn; by rewrite Hh|].
    split; [done|]. left. by exists k.
  - eapply (moves_local _ (Replied (RepDelete (Err e)))); try done. cbn. by rewrite Hh.
Qed.

Lemma delete_origin t : ts !! i = Some t → family t = 2%nat → starting t0 = true → ¬ no_deletes.
Proof using Hinv Ht0.
  intros Hi Hf Hst Hn. destruct (cv_tasks _ _ _ _ Hinv i _ _ Ht0 Hi) as [Hfam _]. rewrite Hf in Hfam.
  pose proof (Forall_lookup_1 _ _ _ _ Hn Ht0) as Hd. by destruct t0.
Qed.

Lemma delete_index_moves c :
  starting t0 = true → ts !! i = Some (DeleteIndex c) → moves ts s a i (DeleteIndex c).
Proof using Hinv Ht0 Hpad Hcrc.
  intros Hst Hi. pose proof (delete_origin _ Hi eq_refl Hst) as Hdel.
  destruct (cv_tasks _ _ _ _ Hinv i _ _ Ht0 Hi) as [Hfam Hc].
  destruct (index_access c) as (i' & Hacc & Hs').
  destruct Hc as [(k & ->)|(k & it & -> & Hin)].
  - destruct (sh_map a !! k) as [e|] eqn:Hk.
    + destruct (cv_map _ _ _ _ Hinv _ _ Hk) as (it & -> & Hp).
      destruct (cv_pub _ _ _ _ Hinv _ _ _ Hp) as (_ & (Hin & _) & _).
      assert (action_spec (bi_capacity (index s)) (RemoveMap k) a =
        (inl (RemoveLru k (item_entry nid bs it)), mkShared (delete k (sh_map a)) (sh_keys a))) as Hsp.
      { destruct a as [m keys]. cbn in Hk |- *. by rewrite Hk. }
      rewrite Hsp in Hacc, Hs'.
      eapply (moves_Ret _ _ _ _ _ (DeleteIndex (RemoveLru k (item_entry nid bs it))) _ (mkShared (delete k (sh_map a)) (sh_keys a))); [done|cbn; by rewrite (bind_Ret _ _ _ _ _ Hacc)|cbn; lia|].
      eapply (cinv_update ts s a pub i t0 _ _ _ _ (delete (it_index it) pub)); try done.
      * destruct (cv_geo _ _ _ _ Hinv). by split.
      * intros x. change (free (set_index i' s)) with (free s).
        cbn [held_blocks item_entry ie_blocks fmap list_fmap item_loc bl_block_index].
        rewrite occ_cons, !occ_nil. unfold in_pub. destruct (decide (it_index it = x)) as [<-|Hne].
        -- rewrite lookup_delete_eq, Hp, decide_False, decide_True by (done || intros []; done). lia.
        -- rewrite lookup_delete_ne by done. lia.
      * intros j k' it' [_ Hj]%lookup_delete_Some. by left.
      * intros k' e' Hk'. cbn in Hk'. apply lookup_delete_Some in Hk' as [Hne Hk']. destruct (cv_map _ _ _ _ Hinv _ _ Hk') as (it' & -> & Hp').
        exists it'. split; [done|]. rewrite lookup_delete_ne; [done|]. intros Heq. rewrite Heq in Hp. congruence.
      * split; [done|]. right. by exists k, it.
    + assert (action_spec (bi_capacity (index s)) (RemoveMap k) a = (inr (OEntry None), a)) as Hsp.
      { destruct a as [m keys]. cbn in Hk |- *. by rewrite Hk. }
      rewrite Hsp in Hacc, Hs'.
      apply (moves_Ret _ _ _ _ _ (Replied (RepDelete (Ok (mkDeleteResponse false 0)))) (set_index i' s) a pub); [done| |cbn; lia|].
      { cbn. by rewrite (bind_Ret _ _ _ _ _ Hacc). }
      by eapply (cinv_quiet ts s a).
  - assert (action_spec (bi_capacity (index s)) (RemoveLru k (item_entry nid bs it)) a =
      (inr (OEntry (Some (item_entry nid bs it))), mkShared (sh_map a) (remove_spec k (sh_keys a)))) as Hsp by by destruct a.
    rewrite Hsp in Hacc, Hs'.
    apply (moves_Ret _ _ _ _ _ (DeleteFree [item_loc nid bs it] 1) (set_index i' s)
             (mkShared (sh_map a) (remove_spec k (sh_keys a))) pub); [done| |pose proof (length_filter_le (λ x, x ≠ k) (sh_keys a)); cbn; unfold remove_spec; lia|].
    { cbn. by rewrite (bind_Ret _ _ _ _ _ Hacc). }
    eapply (cinv_quiet ts s a); try done. split; [done|]. by repeat constructor; exists it.
Qed.

Lemma delete_free_moves blocks n : ts !! i = Some (DeleteFree blocks n) → moves ts s a i (DeleteFree blocks n).
Proof using Hinv Ht0 Hpad Hcrc.
  intros Hi. destruct (cv_tasks _ _ _ _ Hinv i _ _ Ht0 Hi) as [Hfam Hbl].
  destruct blocks as [|loc blocks].
  - by eapply (moves_local _ (Replied (RepDelete (Ok (mkDeleteResponse true n))))).
  - apply Forall_cons in Hbl as [(it & -> & Hin) Hbl].
    pose proof (cv_geo _ _ _ _ Hinv) as [Hwf Hfit Hid Hbs Htb Hn Hhdr Hg].
    destruct (al_deallocate_ok (allocator s) (it_index it) Hwf) as [Hd Hwf']; [unfold in_pool in Hin; lia|].
    rewrite <-handle_of_block, <-(item_handle it Hin) in Hd.
    eapply (moves_Ret _ _ _ _ _ (DeleteFree blocks n) _ a pub); [done| |cbn; lia|].
    { cbn. by rewrite (bind_Ret _ _ _ _ _ (on_allocator_eq _ _ _ _ Hd)). }
    apply (moves_memory _ _ _ Hi); [by apply geometry_pool| |done|by split].
    intros x. cbn [al_pool set_al_pool free_list set_free_list held_blocks fmap list_fmap item_loc bl_block_index].
    rewrite occ_push, occ_cons. unfold free. lia.
Qed.

Lemma tick_moves t : ts !! i = Some t → t = TickStats ∨ (∃ st, t = TickSwap st) → moves ts s a i t.
Proof using Hinv Ht0 Hpad Hcrc.
  intros Hi Ht. destruct (cv_tasks _ _ _ _ Hinv i _ _ Ht0 Hi) as [Hfam _]. destruct Ht as [->|(st & ->)].
  - destruct (al_stats_pure (allocator s)) as [st Hst].
    eapply (moves_local _ (TickSwap st)); try done.
    cbn. erewrite bind_Ret; [reflexivity|]. by rewrite (on_allocator_eq _ _ _ _ Hst), set_allocator_id.
  - by eapply (moves_counter _ (Replied RepDone)).
Qed.

Lemma lookup_start_moves req : ts !! i = Some (LookupStart req) → moves ts s a i (LookupStart req).
Proof using Hinv Ht0 Hpad Hcrc.
  intros Hi. destruct (cv_tasks _ _ _ _ Hinv i _ _ Ht0 Hi) as [Hfam Heq].
  destruct (parse_prefix_hash (lr_prefix_hash req)) as [h|e] eqn:Hh.
  - assert (h = lr_prefix_hash req) as -> by (unfold parse_prefix_hash in Hh; case_bool_decide; by simplify_eq).
    eapply (moves_local _ (LookupIndex (lookup_key req) (LookupGet (lookup_key req)))); try done; [cbn; by rewrite Hh|].
    split; [done|]. exists req. split; [done|]. split; [done|]. by left.
  - eapply (moves_local _ (Replied (RepLookup (Err e)))); try done. cbn. by rewrite Hh.
Qed.

Lemma lookup_index_moves k c : ts !! i = Some (LookupIndex k c) → moves ts s a i (LookupIndex k c).
Proof using Hinv Ht0 Hpad Hcrc.
  intros Hi. destruct (cv_tasks _ _ _ _ Hinv i _ _ Ht0 Hi) as [Hfam (req & Heq & -> & Hc)].
  apply (lookup_access (LookupIndex (lookup_key req)) (λ o, match o with
           | OEntry (Some entry) => mret (LookupHit entry) | OEntry None => mret (LookupRemote (lookup_key req))
           | _ => panic end) (lookup_key req) c); try done.
  - intros e He. split; [done|]. exists req. split_and!; try done. right. by exists e.
  - intros [e|] He; (eexists; split; [done|]; split; [done|]; split; [|intros; cbn; lia]); split; try done. by exists req.
  - intros; cbn; lia.
Qed.

Lemma lookup_rest_moves t : ts !! i = Some t →
  (∃ e, t = LookupHit e) ∨ (∃ k, t = LookupRemote k) ∨ (∃ first, t = LookupCount first) → moves ts s a i t.
Proof using Hinv Ht0 Hpad Hcrc.
  intros Hi Ht. destruct (cv_tasks _ _ _ _ Hinv i _ _ Ht0 Hi) as [Hfam Htask].
  destruct Ht as [(e & ->)|[(k & ->)|(first & ->)]].
  - destruct Htask as (req & Heq & (it & -> & Hin & Hp)).
    eapply (moves_counter _ (Replied (RepLookup (Ok (mkLookupResponse true
      (proto_location (as_node_id (cs_state s)) <$> ie_blocks (item_entry nid bs it)) true))))); try done.
    split; [done|]. intros req' Heq' Hn resp [= <-] _. rewrite Heq in Heq'. injection Heq' as <-.
    exists (as_node_id (cs_state s)), it. split; [done|]. by apply Hp.
  - by eapply (moves_local _ (LookupCount (as_remote_index (cs_state s) ≫= λ ri, remote_lookup k ri ≫= head))).
  - destruct first as [first|].
    + eapply (moves_counter _ (Replied (RepLookup (Ok (mkLookupResponse true
        [mkProtoLocation (ri_node_id first) (ri_offset first) (ri_size first) (ri_generation first)] false))))); try done.
      split; [done|]. by intros req' _ _ resp [= <-].
    + eapply (moves_counter _ (Replied (RepLookup (Ok (mkLookupResponse false [] false))))); try done.
      split; [done|]. by intros req' _ _ resp [= <-].
Qed.

Lemma batch_moves model hashes found blocks t : ts !! i = Some t →
  t = BatchLoop model hashes found blocks ∨ (∃ c, t = BatchIndex model hashes found blocks c) ∨
  (∃ e, t = BatchCount model hashes found blocks e) → moves ts s a i t.
Proof using Hinv Ht0 Hpad Hcrc.
  intros Hi Ht. destruct (cv_tasks _ _ _ _ Hinv i _ _ Ht0 Hi) as [Hfam Htask].
  destruct Ht as [->|[(c & ->)|(e & ->)]].
  - destruct hashes as [|raw hashes]; [by eapply (moves_local _ (Replied (RepBatch (Ok (mkBatchLookupResponse found blocks)))))|].
    destruct (parse_prefix_hash raw) as [h|e] eqn:Hh.
    + eapply (moves_local _ (BatchIndex model hashes found blocks (LookupGet (composite_key sha256 model h)))); try done.
      * cbn. by rewrite Hh.
      * apply Nat.ltb_lt. cbn. lia.
      * split; [done|]. eexists. by left.
    + eapply (moves_local _ (Replied (RepBatch (Err e)))); try done. cbn. by rewrite Hh.
  - destruct Htask as (k & Hc).
    apply (lookup_access (BatchIndex model hashes found blocks) (λ o, match o with
             | OEntry entry => mret (BatchCount model hashes found blocks entry) | _ => panic end) k c); try done.
    + intros e He. split; [done|]. exists k. right. by exists e.
    + intros f _. exists (BatchCount model hashes found blocks f). split; [done|]. split; [done|]. split; [done|intros; cbn; lia].
    + intros; cbn; lia.
  - destruct e as [e|].
    + eapply (moves_counter _ (BatchLoop model hashes (vec_push true found)
        (blocks ++ (proto_location (as_node_id (cs_state s)) <$> ie_blocks e)))); try done. apply Nat.ltb_lt. cbn. lia.
    + eapply (moves_counter _ (BatchLoop model hashes (vec_push false found) blocks)); try done. apply Nat.ltb_lt. cbn. lia.
Qed.

(** Handlers that only read. *)
Lemma reading_moves t : ts !! i = Some t →
  match t with BatchStart _ | StatsStart | StatsHits _ | StatsMisses _ _ | StatsEvictions _ _ _ | HealthRead _ => True | _ => False end →
  moves ts s a i t.
Proof using Hinv Ht0 Hpad Hcrc.
  intros Hi Ht. destruct (cv_tasks _ _ _ _ Hinv i _ _ Ht0 Hi) as [Hfam _].
  destruct t; try done.
  - eapply (moves_local _ (BatchLoop (br_model_id req) (br_prefix_hashes req) [] [])); try done. apply Nat.ltb_lt. cbn. lia.
  - destruct (al_stats_pure (allocator s)) as [st Hst].
    eapply (moves_local _ (StatsHits st)); try done.
    cbn. erewrite bind_Ret; [reflexivity|]. by rewrite (on_allocator_eq _ _ _ _ Hst), set_allocator_id.
  - by eapply (moves_local _ (StatsMisses st (cs_cache_hits s))).
  - by eapply (moves_local _ (StatsEvictions st hits (cs_cache_misses s))).
  - by eapply moves_local.
  - by eapply moves_local.
Qed.

(** Every task that has not ended can move. *)
Lemma task_moves t : starting t0 = true → ts !! i = Some t → ended t = false → moves ts s a i t.
Proof using Hinv Ht0 Hpad Hcrc.
  intros Hst Hi He. destruct t; try done.
  - by apply store_start_moves.
  - by apply store_alloc_moves.
  - by apply store_gen_moves.
  - by apply store_head_moves.
  - by apply store_body_moves.
  - by apply store_index_moves.
  - by apply store_finish_moves.
  - by apply get_start_moves.
  - by apply get_index_moves.
  - by apply get_finish_moves.
  - by apply get_send_moves.
  - by apply delete_start_moves.
  - by apply delete_index_moves.
  - by apply delete_free_moves.
  - apply tick_moves; [done|by left].
  - apply tick_moves; [done|right; by eexists].
  - by apply lookup_start_moves.
  - by apply lookup_index_moves.
  - apply lookup_rest_moves; [done|left; by eexists].
  - apply lookup_rest_moves; [done|right; left; by eexists].
  - apply lookup_rest_moves; [done|right; right; by eexists].
  - by apply reading_moves.
  - eapply batch_moves; [done|by left].
  - eapply batch_moves; [done|right; left; by eexists].
  - eapply batch_moves; [done|right; right; by eexists].
  - by apply reading_moves.
  - by apply reading_moves.
  - by apply reading_moves.
  - by apply reading_moves.
  - by apply reading_moves.
Qed.
End cases.

Lemma cinv_step shard ts s a pub c' :
  zlen pad = 4 → (∀ d, is_u32 (crc32 d)) → Forall (λ t, starting t = true) tasks0 →
  cinv ts s a pub → agent_step sha256 crc32 pad shard (ts, s) c' →
  ∃ a' pub', cinv c'.1 c'.2 a' pub' ∧
    (sum_list (task_weight <$> c'.1) + 4 * length (sh_keys a') <
     sum_list (task_weight <$> ts) + 4 * length (sh_keys a))%nat.
Proof.
  intros Hpad Hcrc Hst Hinv [i Hm]. unfold agent_move in Hm. cbn in Hm.
  destruct (ts !! i) as [t|] eqn:Hi; [|done]. cbn in Hm. destruct (task_blocked shard ts t); [done|].
  destruct (task_step sha256 crc32 pad t s) as [[t' s']|] eqn:Ht; [|done]. cbn in Hm. simplify_eq. cbn [fst snd].
  assert (ended t = false) as He by (unfold task_step in Ht; by destruct (ended t)).
  assert (∃ t0, tasks0 !! i = Some t0) as [t0 Ht0].
  { apply lookup_lt_is_Some. rewrite <-(cv_length _ _ _ _ Hinv). by eapply lookup_lt_Some. }
  destruct (task_moves Hpad Hcrc ts s a pub Hinv i t0 Ht0 t (Forall_lookup_1 _ _ _ _ Hst Ht0) Hi He)
    as (t1 & s1 & a' & pub' & Ht1 & Hinv' & Hw). rewrite Ht in Ht1. simplify_eq.
  exists a', pub'. split; [done|]. rewrite list_fmap_insert.
  assert ((task_weight <$> ts) !! i = Some (task_weight t)) as Hl by by rewrite list_lookup_fmap, Hi.
  pose proof (sum_list_insert _ _ _ (task_weight t1) Hl). lia.
Qed.
End invariant.

Lemma occ_perm x l k : l ≡ₚ k → occ x l = occ x k.
Proof. intros Hp. unfold occ. by rewrite Hp. Qed.

(** ** Properties *)
Section properties.
Context (sha256 : bytes → bytes) (crc32 : bytes → Z) (pad : bytes) (shard : bytes → nat).
Context (Hpad : zlen pad = 4) (Hcrc : ∀ d, is_u32 (crc32 d)).
Context (s0 : CacheService) (Hfresh : fresh_service s0).
Context (tasks0 : list task) (Hstart : Forall (λ t, starting t = true) tasks0).
Local Abbreviation step := (agent_step sha256 crc32 pad shard).
Local Abbreviation tb := (total_blocks (al_pool (allocator s0))).
Local Abbreviation bs := (block_size (al_pool (allocator s0))).
Local Abbreviation inv := (cinv sha256 crc32 pad (al_node_id (allocator s0)) bs tb tasks0).

Lemma initial_cinv : inv tasks0 s0 (mkShared ∅ []) ∅.
Proof using Hfresh Hstart.
  destruct Hfresh as [[Hwf Hfit Ho _] Hid Hb Hg Hi He]. cbn in *. split; try done.
  - split; try done. by rewrite Hg.
  - rewrite Hi. apply (shared_abs_new (P := LruInner)).
  - intros x. unfold owns in Ho. cbn in Ho. rewrite app_nil_r in Ho.
    unfold free. rewrite (occ_perm _ _ _ Ho), occ_seqZ by (destruct Hwf; lia).
    assert (sum_list ((λ t, occ x (held_blocks t)) <$> tasks0) = 0%nat) as ->.
    { clear -Hstart. induction tasks0 as [|t ts IH]; [done|]. apply Forall_cons in Hstart as [Ht Hts]. rewrite fmap_cons. cbn [sum_list sum_list_with].
      assert (held_blocks t = []) as -> by by destruct t. by apply IH. }
    unfold in_pub. rewrite lookup_empty. destruct (decide (is_Some None)) as [[? [=]]|]. lia.
  - intros i t0 t Ht0 Ht. rewrite Ht0 in Ht. simplify_eq.
    pose proof (Forall_lookup_1 _ _ _ _ Hstart Ht0) as Hs. split; [done|]. by destruct t.
Qed.

Lemma steps_cinv n c :
  nsteps step n (tasks0, s0) c →
  ∃ a pub, inv c.1 c.2 a pub ∧
    (n + sum_list (task_weight <$> c.1) + 4 * length (sh_keys a) ≤ sum_list (task_weight <$> tasks0))%nat.
Proof using Hpad Hcrc Hfresh Hstart.
  assert (∀ n ts s a pub c, inv ts s a pub → nsteps step n (ts, s) c →
    ∃ a' pub', inv c.1 c.2 a' pub' ∧ (n + sum_list (task_weight <$> c.1) + 4 * length (sh_keys a') ≤
      sum_list (task_weight <$> ts) + 4 * length (sh_keys a))%nat) as Hgen.
  { clear n c. induction n as [|n IH]; intros ts s a pub c Hinv Hn; inversion Hn as [|? ? [ts1 s1] ? Hst Hrest]; simplify_eq.
    - exists a, pub. split; [done|]. cbn. lia.
    - destruct (cinv_step _ _ _ _ _ _ _ shard ts s a pub _ Hpad Hcrc Hstart Hinv Hst) as (a1 & pub1 & Hinv1 & Hw1).
      destruct (IH _ _ _ _ _ Hinv1 Hrest) as (a' & pub' & Hinv' & Hw'). exists a', pub'. split; [done|]. cbn in *. lia. }
  intros Hn. destruct (Hgen n _ _ _ _ c initial_cinv Hn) as (a & pub & Hinv & Hw).
  exists a, pub. split; [done|]. cbn in Hw. lia.
Qed.

Lemma reachable_cinv c : rtc step (tasks0, s0) c → ∃ a pub, inv c.1 c.2 a pub.
Proof using Hpad Hcrc Hfresh Hstart.
  intros [n Hn]%rtc_nsteps_1. destruct (steps_cinv n c Hn) as (a & pub & Hinv & _). by exists a, pub.
Qed.

(** C3: Every block has one owner under every schedule.  However stores, gets, deletes
    and the monitor interleave, the indices in the free list and those held by running
    stores and deletes are all different (so no block is handed out twice, freed twice or
    written by two stores), an indexed block is in the pool and owned by no task and not
    free, and no two keys share a block. *)
Theorem concurrent_ownership (c : agent) :
  rtc step (tasks0, s0) c →
  NoDup (free_list (al_pool (allocator c.2)) ++ concat (held_blocks <$> c.1)) ∧
  (∀ k e loc, bi_map (index c.2) !! k = Some e → loc ∈ ie_blocks e →
     0 ≤ bl_block_index loc < tb ∧
     (bl_block_index loc ∉ free_list (al_pool (allocator c.2)) ++ concat (held_blocks <$> c.1)) ∧
     ∀ k' e' loc', bi_map (index c.2) !! k' = Some e' → loc' ∈ ie_blocks e' →
       bl_block_index loc' = bl_block_index loc → k' = k).
Proof using Hpad Hcrc Hfresh Hstart.
  intros (a & pub & Hinv)%reachable_cinv.
  assert (∀ x, occ x (free_list (al_pool (allocator c.2)) ++ concat (held_blocks <$> c.1)) =
    (occ x (free c.2) + sum_list ((λ t, occ x (held_blocks t)) <$> c.1))%nat) as Hocc.
  { intros x. rewrite occ_app. f_equal. clear. induction c.1 as [|t ts IH]; [done|].
    rewrite !fmap_cons. cbn [concat]. rewrite occ_app, IH. done. }
  split.
  - apply occ_NoDup. intros x. rewrite Hocc. pose proof (cv_own _ _ _ _ _ _ _ _ _ _ _ Hinv x). case_decide; lia.
  - destruct (cv_index _ _ _ _ _ _ _ _ _ _ _ Hinv) as [Hm _].
    assert (∀ k e loc, bi_map (index c.2) !! k = Some e → loc ∈ ie_blocks e →
      ∃ it, pub !! bl_block_index loc = Some (k, it) ∧ 0 ≤ bl_block_index loc < tb) as Hpub.
    { intros k e loc Hk Hloc. rewrite Hm in Hk. destruct (cv_map _ _ _ _ _ _ _ _ _ _ _ Hinv _ _ Hk) as (it & -> & Hp).
      cbn in Hloc. apply list_elem_of_singleton in Hloc as ->. exists it. split; [done|].
      by destruct (cv_pub _ _ _ _ _ _ _ _ _ _ _ Hinv _ _ _ Hp) as (_ & (Hin & _) & _). }
    intros k e loc Hk Hloc. destruct (Hpub k e loc Hk Hloc) as (it & Hp & Hin). split; [done|]. split.
    + rewrite occ_pos, Hocc. pose proof (cv_own _ _ _ _ _ _ _ _ _ _ _ Hinv (bl_block_index loc)) as Ho.
      unfold in_pub in Ho. rewrite decide_True in Ho by by eexists. case_decide; lia.
    + intros k' e' loc' Hk' Hloc' Heq. destruct (Hpub k' e' loc' Hk' Hloc') as (it' & Hp' & _). congruence.
Qed.

(** The most accesses a request takes. *)
Definition request_bound (t : task) : nat :=
  match t with BatchStart req => 10 * length (br_prefix_hashes req) + 2 | _ => 17 end.

Lemma initial_weight : (sum_list (task_weight <$> tasks0) ≤ sum_list (request_bound <$> tasks0))%nat.
Proof using Hstart.
  clear -Hstart. induction tasks0 as [|t ts IH]; [done|]. apply Forall_cons in Hstart as [Ht Hts].
  rewrite !fmap_cons. cbn [sum_list sum_list_with]. specialize (IH Hts). unfold id in *.
  assert (task_weight t ≤ request_bound t)%nat by (destruct t; try done; cbn; lia). lia.
Qed.

Lemma ended_dec_exists (ts : list task) :
  ¬ Forall (λ t, ended t = true) ts → ∃ i t, ts !! i = Some t ∧ ended t = false.
Proof.
  intros Hf%not_Forall_Exists; [|apply _]. apply Exists_exists in Hf as (t & [i Hi]%list_elem_of_lookup & Ht).
  exists i, t. split; [done|]. by apply not_true_iff_false.
Qed.

(** Some task that has not ended is not waiting for a shard. *)
Lemma unblocked_task (ts : list task) :
  ¬ Forall (λ t, ended t = true) ts →
  ∃ i t, ts !! i = Some t ∧ ended t = false ∧ task_blocked shard ts t = false.
Proof.
  intros Hf. destruct (omap (λ t, task_pc t ≫= guard_key) ts) as [|k ks] eqn:Hg.
  - destruct (ended_dec_exists ts Hf) as (i & t & Hi & Ht). exists i, t. split; [done|]. split; [done|].
    unfold task_blocked. destruct (task_pc t ≫= write_key); [|done]. rewrite Hg.
    apply bool_decide_false. intros Hex. by apply Exists_nil in Hex.
  - assert (k ∈ omap (λ t, task_pc t ≫= guard_key) ts) as (t & [i Hi]%list_elem_of_lookup & Hk)%list_elem_of_omap
      by (rewrite Hg; set_solver).
    exists i, t. split; [done|]. unfold task_blocked. destruct t; try done; destruct c; done.
Qed.

(** C5: Every request is answered under every schedule.  Any interleaving of requests
    takes at most seventeen accesses per request, and ten more per hash of a batch; no
    access leaves the pool's memory, and one can always be taken until every task has ended
    (no deadlock, no livelock); a task ends without a reply only if it is a store whose
    header announces more bytes than a vector can hold. *)
Theorem concurrent_requests_answered (n : nat) (c : agent) :
  nsteps step n (tasks0, s0) c →
  (n ≤ sum_list (request_bound <$> tasks0))%nat ∧
  (∀ i t, c.1 !! i = Some t → ended t = false → is_Some (task_step sha256 crc32 pad t c.2)) ∧
  (nf step c → Forall (λ t, ended t = true) c.1) ∧
  (∀ i, c.1 !! i = Some Died →
     ∃ now stream header rest, tasks0 !! i = Some (StoreStart now stream) ∧
       first_header stream = Ok (header, rest) ∧ 2 ^ 63 ≤ as_usize (sh_total_size header)).
Proof using Hpad Hcrc Hfresh Hstart.
  intros Hn. destruct (steps_cinv n c Hn) as (a & pub & Hinv & Hw). pose proof initial_weight.
  assert (∀ i t, c.1 !! i = Some t → ∃ t0, tasks0 !! i = Some t0) as Horig.
  { intros i t Hi. apply lookup_lt_is_Some. rewrite <-(cv_length _ _ _ _ _ _ _ _ _ _ _ Hinv). by eapply lookup_lt_Some. }
  assert (∀ i t, c.1 !! i = Some t → ended t = false → is_Some (task_step sha256 crc32 pad t c.2)) as Hmove.
  { intros i t Hi He. destruct (Horig i t Hi) as [t0 Ht0].
    destruct (task_moves _ _ _ _ _ _ _ Hpad Hcrc _ _ _ _ Hinv i t0 Ht0 t (Forall_lookup_1 _ _ _ _ Hstart Ht0) Hi He)
      as (t' & s' & _ & _ & Ht & _). by eexists. }
  split; [lia|]. split; [done|]. split.
  - intros Hnf. apply dec_stable. intros Hf. destruct (unblocked_task _ Hf) as (i & t & Hi & He & Hb).
    destruct (Hmove i t Hi He) as [[t' s'] Hs]. apply Hnf. eexists _, i. unfold agent_move.
    rewrite Hi. cbn. by rewrite Hb, Hs.
  - intros i Hi. destruct (Horig i _ Hi) as [t0 Ht0].
    destruct (cv_tasks _ _ _ _ _ _ _ _ _ _ _ Hinv i _ _ Ht0 Hi) as [_ (now & stream & header & rest & -> & Hh & Hsz)].
    by exists now, stream, header, rest.
Qed.

(** C2: Gets see complete stores.  When no request deletes, every get, however it
    interleaves with the stores, answers NotFound or one header and exactly the data of
    one of the stores of its key: never a mixture, a block still being written or the data
    of another key. *)
Theorem concurrent_gets_see_stores (c : agent) (i : nat) (req : GetRequest) (r : reply) :
  Forall (λ t, deletes t = false) tasks0 →
  rtc step (tasks0, s0) c →
  tasks0 !! i = Some (GetStart req) → length (gr_prefix_hash req) = 16%nat →
  c.1 !! i = Some (Replied r) →
  r = RepGet (Err (NotFound "prefix hash not found in cache")) ∨
  ∃ j now stream data g, tasks0 !! j = Some (StoreStart now stream) ∧
    store_target sha256 stream = Some (get_key sha256 req, data) ∧
    r = RepGet (Ok [Ok (GetHeaderMsg (mkGetHeader bs 1 g)); Ok (GetData data)]).
Proof using Hpad Hcrc Hfresh Hstart.
  intros Hn (a & pub & Hinv)%reachable_cinv Ht0 Hl Hi.
  destruct (cv_tasks _ _ _ _ _ _ _ _ _ _ _ Hinv i _ _ Ht0 Hi) as [Hfam Hr]. destruct r as [| | |r| | | |]; try done.
  specialize (Hr req eq_refl Hn). unfold get_answer in Hr. rewrite decide_True in Hr by done.
  destruct Hr as [->|(it & (j & now & stream & Hj & Hs) & ->)]; [by left|]. right.
  by exists j, now, stream, (it_data it), (it_gen it).
Qed.

(** C19: A hit names a complete block.  When no request deletes and a lookup, however it was
    interleaved, answered a local hit, the one block it names is in the pool and at any
    later moment of the schedule holds, verified, the data of one of the stores of its key:
    a peer that reads the advertised block never finds it half written or reused. *)
Theorem concurrent_hits_stay_readable (c : agent) (i : nat) (req : LookupRequest) (resp : LookupResponse) :
  Forall (λ t, deletes t = false) tasks0 →
  rtc step (tasks0, s0) c →
  tasks0 !! i = Some (LookupStart req) →
  c.1 !! i = Some (Replied (RepLookup (Ok resp))) → lp_is_local resp = true →
  ∃ j now stream data node idx g, tasks0 !! j = Some (StoreStart now stream) ∧
    store_target sha256 stream = Some (lookup_key sha256 req, data) ∧
    lp_blocks resp = [mkProtoLocation node (idx * bs) bs g] ∧ 0 ≤ idx < tb ∧
    on_allocator (read_verified crc32 (mkBlockHandle 0 idx (idx * bs) bs)) c.2 = (Ret (Some data), c.2).
Proof using Hpad Hcrc Hfresh Hstart.
  intros Hn (a & pub & Hinv)%reachable_cinv Ht0 Hi Hloc.
  destruct (cv_tasks _ _ _ _ _ _ _ _ _ _ _ Hinv i _ _ Ht0 Hi) as [_ Hr].
  destruct (Hr req eq_refl Hn resp eq_refl Hloc) as (node & it & Hbl & Hp).
  destruct (cv_pub _ _ _ _ _ _ _ _ _ _ _ Hinv _ _ _ Hp) as (_ & (Hin & Hu & (j & now & stream & Hj & Hs)) & Hcm).
  exists j, now, stream, (it_data it), node, (it_index it), (it_gen it). split_and!; try done; [apply Hin..|].
  destruct (read_block sha256 crc32 pad _ _ _ _ Hcrc _ _ _ _ Hinv (it_index it) Hin) as (r & Hread & Hc).
  rewrite (Hc it eq_refl Hu Hcm) in Hread. exact Hread.
Qed.
End properties.

(** *** Concrete interleavings on a service of four blocks *)

(** The tasks named by [sched] move in turn; one that cannot move is passed over. *)
Fixpoint play (sched : list nat) (c : agent) : agent :=
  match sched with
  | [] => c
  | i :: sched => play sched (default c (agent_move toy_digest sum_crc pad0 one_shard i c))
  end.

Lemma play_rtc sched c : rtc (agent_step toy_digest sum_crc pad0 one_shard) c (play sched c).
Proof.
  revert c. induction sched as [|i sched IH]; intros c; cbn; [done|].
  destruct (agent_move toy_digest sum_crc pad0 one_shard i c) as [c'|] eqn:Hm; cbn; [|apply IH].
  eapply rtc_l; [by exists i|apply IH].
Qed.

Definition put_stream (h data : bytes) : store_stream :=
  [Ok (Some (StoreHeaderMsg (mkStoreHeader h 1 (zlen data) ""))); Ok (Some (StoreData data))].
(** Two stores, a lookup and a batch lookup of one key, and statistics. *)
Definition lookup_tasks : list task :=
  [StoreStart 100 (put_stream (hash 1) [11; 12]); StoreStart 101 (put_stream (hash 1) [13]);
   LookupStart (mkLookupRequest (hash 1) 1 ""); BatchStart (mkBatchLookupRequest [hash 1; hash 2] ""); StatsStart].
(** Two stores of one key, a get of it, a delete and the monitor. *)
Definition five_tasks : list task :=
  [StoreStart 100 (put_stream (hash 1) [11; 12]); StoreStart 101 (put_stream (hash 1) [13]);
   GetStart (get_req "" (hash 1)); DeleteStart (hash 1); TickStats].
(** The same without the delete. *)
Definition four_tasks : list task :=
  [StoreStart 100 (put_stream (hash 1) [11; 12]); StoreStart 101 (put_stream (hash 1) [13]);
   GetStart (get_req "" (hash 1)); TickStats].
(** The stores in turns, with the get starting after the first has indexed its block. *)
Definition turns : list nat := concat (replicate 9 [0%nat; 1%nat]) ++ concat (replicate 12 [2%nat; 0%nat; 3%nat; 1%nat]) ++ replicate 4 4%nat.

Lemma five_start : Forall (λ t, starting t = true) five_tasks.
Proof. by repeat constructor. Qed.
Lemma four_start : Forall (λ t, starting t = true) four_tasks.
Proof. by repeat constructor. Qed.

Lemma four_no_delete : Forall (λ t, deletes t = false) four_tasks.
Proof. by repeat constructor. Qed.
Lemma four_get : four_tasks !! 2%nat = Some (GetStart (get_req "" (hash 1))).
Proof. reflexivity. Qed.

Lemma concurrent_ownership_witness :
  NoDup (free_list (al_pool (allocator (play turns (five_tasks, svc4)).2)) ++
         concat (held_blocks <$> (play turns (five_tasks, svc4)).1)).
Proof.
  apply (concurrent_ownership toy_digest sum_crc pad0 one_shard eq_refl sum_crc_range svc4 svc4_fresh
           five_tasks five_start), play_rtc.
Defined.

Lemma concurrent_requests_answered_witness :
  ∃ n, nsteps (agent_step toy_digest sum_crc pad0 one_shard) n (five_tasks, svc4) (play turns (five_tasks, svc4)) ∧
    (n ≤ 85)%nat ∧ Forall (λ t, ended t = true) (play turns (five_tasks, svc4)).1.
Proof.
  destruct (rtc_nsteps_1 _ _ (play_rtc turns (five_tasks, svc4))) as [n Hn]. exists n. split; [done|].
  destruct (concurrent_requests_answered toy_digest sum_crc pad0 one_shard eq_refl sum_crc_range svc4 svc4_fresh
    five_tasks five_start n _ Hn) as (Hle & _ & _ & _). split; [exact Hle|].
  apply (bool_decide_unpack _). vm_compute. exact I.
Defined.

Lemma concurrent_gets_see_stores_witness :
  ∃ r, (play turns (four_tasks, svc4)).1 !! 2%nat = Some (Replied r) ∧
    ∃ j now stream data g, four_tasks !! j = Some (StoreStart now stream) ∧
      store_target toy_digest stream = Some (get_key toy_digest (get_req "" (hash 1)), data) ∧
      r = RepGet (Ok [Ok (GetHeaderMsg (mkGetHeader 32 1 g)); Ok (GetData data)]).
Proof.
  assert (∃ r, (play turns (four_tasks, svc4)).1 !! 2%nat = Some (Replied r) ∧
    r ≠ RepGet (Err (NotFound "prefix hash not found in cache"))) as (r & Hr & Hne).
  { eexists. split; [vm_compute; reflexivity|discriminate]. }
  exists r. split; [done|].
  pose proof (concurrent_gets_see_stores toy_digest sum_crc pad0 one_shard eq_refl sum_crc_range svc4 svc4_fresh
    four_tasks four_start (play turns (four_tasks, svc4)) 2 (get_req "" (hash 1)) r four_no_delete
    (play_rtc turns (four_tasks, svc4)) four_get eq_refl Hr) as Hget.
  destruct Hget as [Hget|Hget]; [by destruct Hne|exact Hget].
Defined.

Lemma concurrent_hits_stay_readable_witness :
  ∃ resp, (play turns (lookup_tasks, svc4)).1 !! 2%nat = Some (Replied (RepLookup (Ok resp))) ∧
    ∃ node idx g, lp_blocks resp = [mkProtoLocation node (idx * 32) 32 g].
Proof.
  assert (∃ resp, (play turns (lookup_tasks, svc4)).1 !! 2%nat = Some (Replied (RepLookup (Ok resp))) ∧
    lp_is_local resp = true) as (resp & Hr & Hloc).
  { eexists. split; vm_compute; reflexivity. }
  exists resp. split; [exact Hr|].
  assert (Forall (λ t, starting t = true) lookup_tasks) as Hst by by repeat constructor.
  assert (Forall (λ t, deletes t = false) lookup_tasks) as Hnd by by repeat constructor.
  destruct (concurrent_hits_stay_readable toy_digest sum_crc pad0 one_shard eq_refl sum_crc_range svc4 svc4_fresh
    lookup_tasks Hst (play turns (lookup_tasks, svc4)) 2 (mkLookupRequest (hash 1) 1 "") resp Hnd
    (play_rtc turns (lookup_tasks, svc4)) eq_refl Hr Hloc) as (j & now & stream & data & node & idx & g & _ & _ & Hb & _).
  exists node, idx, g. exact Hb.
Defined.
