(* ===== verification/Agent.v ===== *)
(** * The agent process (crates/cmx-agent/src/main.rs, metrics.rs)

    [main]: the configuration is chosen and loaded, logging is set up, [startup] composes the
    components up to the service handed to the gRPC server, the server runs, and on a signal
    the final statistics are logged and the etcd lease is revoked.  What the process finds
    around it is an argument: the command line, files, environment and host name
    ([Process]), the outcomes of mmap, of installing the Prometheus exporter, of connecting
    to etcd and of binding the server's socket, and what happens to etcd while serving. *)
From S2P Require Import Prelude Float64 SocketAddr Utf8 Pool Block Allocator Policy Lru Index RemoteIndex Placement Config Metadata Pressure Grpc Frames Service Trace.
Local Open Scope Z_scope.

(** [x as i64]. *)
Definition as_i64 (z : Z) : Z := (z + 2 ^ 63) `mod` 2 ^ 64 - 2 ^ 63.

(** The errors [main] returns. *)
Inductive MainError :=
  | LoadFailed (path : string) (e : LoadError)
  | ConfigInvalid (errors : list ConfigError)
  | BadMetricsAddr
  | MetricsFailed (msg : string)
  | PoolFailed (e : PoolError)
  | InvalidListenAddr
  | ServerFailed.

(** ** The process and its configuration *)
Record Process := mkProcess {
  pr_config : option string;                    (* --config *)
  pr_file : string → option (option bytes);     (* no such file; unreadable; its bytes *)
  pr_log_format : option string;                (* CMX_LOG_FORMAT *)
  pr_log_filter : option string;                (* the default filter variable, if it parses *)
  pr_profile : bool;                            (* CMX_PROFILE is set *)
  pr_flame_file : bool;                         (* ./tracing.folded can be created *)
  pr_node : NodeEnv;
}.

(** [Cli]: the path of the configuration file. *)
Definition cli_config (ps : Process) : string := default "/etc/cmx/cmx-agent.toml"%string (pr_config ps).

(** The configuration [main] starts from. *)
Definition load_config (from_str : bytes → result ConfigFile string) (ps : Process) :
    result AgentConfig MainError :=
  match pr_file ps (cli_config ps) with
  | Some content =>
      match load from_str content with
      | Ok config => Ok config
      | Err e => Err (LoadFailed (cli_config ps) e)
      end
  | None => Ok default_config
  end.

(** The subscriber [main] installs; [log_flame] says whether folded stacks are written. *)
Record LogSetup := mkLogSetup { log_json : bool; log_filter : string; log_flame : bool }.

(** The tracing block; [profiling] is the cargo feature. *)
Definition init_tracing (profiling : bool) (ps : Process) (config : AgentConfig) : M Z LogSetup :=
  let log_format := default (cfg_log_format (cfg_agent config)) (pr_log_format ps) in
  let env_filter := default (cfg_log_level (cfg_agent config)) (pr_log_filter ps) in
  let json := bool_decide (log_format = "json"%string) in
  if profiling && pr_profile ps then
    assert (pr_flame_file ps);; mret (mkLogSetup json env_filter true)
  else mret (mkLogSetup json env_filter false).

(** [install_metrics_recorder] (metrics.rs). *)
Definition install_metrics_recorder (install : string → result unit string) (addr : string) : result unit string :=
  match install addr with
  | Ok _ => Ok tt
  | Err e => Err ("failed to install Prometheus exporter: " +:+ e)
  end.

(** What [main] has built when it starts serving: the service, the etcd connection and the
    concurrency limit per connection, if any. *)
Record Started (E : Type) := mkStarted {
  sd_service : CacheService;
  sd_etcd : option E;
  sd_limit : option Z;
}.
Arguments mkStarted {E}.
Arguments sd_service {E}.
Arguments sd_etcd {E}.
Arguments sd_limit {E}.

Section startup.
Context {E wire : Type} `{!Codec wire} `{!Etcd E wire} (sha256 : bytes → bytes).

(** The [match MetadataClient::connect(...)] block: a failed registration or keepalive is
    only logged, and the client is kept. *)
Definition connect_metadata (config : AgentConfig) (connected : result E string) :
    option (MetadataClient * E) :=
  match connected with
  | Err _ => None
  | Ok e =>
      let client := metadata_connect (cfg_node_id (cfg_agent config)) (cfg_listen_addr (cfg_agent config))
                      (as_i64 (cfg_lease_ttl_seconds (cfg_metadata config))) in
      let '(_, client, e) := register_node client e in
      Some (client, e)
  end.

(** The ring, with the node itself in it when etcd is there. *)
Definition initial_ring (config : AgentConfig) (metadata : option (MetadataClient * E)) : HashRing :=
  let hash_ring := ring_new (cfg_vnodes_per_node (cfg_placement config)) in
  match metadata with
  | Some _ => add_node sha256 (cfg_node_id (cfg_agent config)) hash_ring
  | None => hash_ring
  end.

(** The limit on concurrent requests per connection. *)
Definition concurrency_limit (config : AgentConfig) : option Z :=
  if cfg_max_requests_per_second (cfg_agent config) >? 0
  then Some (cfg_max_requests_per_second (cfg_agent config)) else None.

(** [main] between the tracing block and [serve_with_shutdown].  The state is the pool id
    counter. *)
Definition startup (mmap : Z → option bytes) (env : NodeEnv) (install : string → result unit string)
    (connected : result E string) (config : AgentConfig) : M Z (result (Started E) MainError) :=
  match validate config with
  | Err errors => mret (Err (ConfigInvalid errors))
  | Ok _ =>
      let config := resolve_node_id env config in
      let mem := cfg_memory config in
      let metrics_addr := cfg_metrics_addr (cfg_metrics config) in
      if negb (socket_addr_ok metrics_addr) then mret (Err BadMetricsAddr)
      else match install_metrics_recorder install metrics_addr with
      | Err e => mret (Err (MetricsFailed e))
      | Ok _ =>
        p ← pool_new mmap (cfg_total_size mem) (cfg_block_size mem);
        match p with
        | Err e => mret (Err (PoolFailed e))
        | Ok pool =>
            let allocator := allocator_new pool 0 in
            let max_entries := cfg_total_size mem / cfg_block_size mem in
            let index := index_new max_entries in
            let metadata := connect_metadata config connected in
            let state := mkAgentState allocator index (cfg_node_id (cfg_agent config)) config
                           (fst <$> metadata) 0 (Some remote_new) (Some (initial_ring config metadata)) in
            if negb (socket_addr_ok (cfg_listen_addr (cfg_agent config))) then mret (Err InvalidListenAddr)
            else mret (Ok (mkStarted (service_new state) (snd <$> metadata) (concurrency_limit config)))
        end
      end
  end.

(** The [shutdown] future, once a signal arrived: the logged statistics, and the outcome of
    revoking the lease, which is only logged. *)
Definition shutdown (s : CacheService) (etcd : option E) :
    M BlockAllocator (PoolStats * option (result unit string) * option E) :=
  stats ← al_stats;
  match as_metadata (cs_state s), etcd with
  | Some meta, Some e => let '(r, e) := revoke_lease meta e in mret (stats, Some r, Some e)
  | _, _ => mret (stats, None, etcd)
  end.

(** How a run of the process ended: the log set-up, the replies given, the statistics and
    the revocation logged at shutdown, and etcd afterwards. *)
Record Exit := mkExit {
  ex_log : LogSetup;
  ex_trace : list (request wire * outcome reply);
  ex_service : CacheService;
  ex_stats : PoolStats;
  ex_revoked : option (result unit string);
  ex_etcd : option E;
}.

(** [main].  [bound] says whether the server could listen; the requests, ticks and watch
    messages [rqs] are handled until a signal arrives, while [during] happens to etcd. *)
Definition main (profiling : bool) (from_str : bytes → result ConfigFile string) (mmap : Z → option bytes)
    (install : string → result unit string) (connected : result E string) (bound : bool)
    (crc32 : bytes → Z) (pad : bytes) (rqs : list (request wire)) (during : E → E) (ps : Process) :
    M Z (result Exit MainError) :=
  match load_config from_str ps with
  | Err e => mret (Err e)
  | Ok config =>
      log ← init_tracing profiling ps config;
      started ← startup mmap (pr_node ps) install connected config;
      match started with
      | Err e => mret (Err e)
      | Ok st =>
          if negb bound then mret (Err ServerFailed)
          else
            let '(trace, s) := run sha256 crc32 pad rqs (sd_service st) in
            match shutdown s (during <$> sd_etcd st) (allocator s) with
            | (Ret (stats, revoked, etcd), _) => mret (Ok (mkExit log trace s stats revoked etcd))
            | _ => panic
            end
      end
  end.
End startup.
Arguments Exit : clear implicits.
Arguments ex_log {_ _}.
Arguments ex_trace {_ _}.
Arguments ex_service {_ _}.
Arguments ex_stats {_ _}.
Arguments ex_revoked {_ _}.
Arguments ex_etcd {_ _}.

(** ** Properties *)

(** A configuration whose blocks the allocator can use and whose indices fit a handle. *)
Record usable_memory (mem : MemorySection) : Prop := {
  um_total : is_usize (cfg_total_size mem);
  um_block : HEADER_SIZE ≤ cfg_block_size mem ≤ 2 ^ 32;
  um_count : cfg_total_size mem / cfg_block_size mem ≤ 2 ^ 32;
}.

Lemma resolve_node_id_memory env c : cfg_memory (resolve_node_id env c) = cfg_memory c.
Proof. unfold resolve_node_id. case_bool_decide; [|done]. by destruct (env_cmx_node_id env). Qed.
Lemma resolve_node_id_metrics env c : cfg_metrics (resolve_node_id env c) = cfg_metrics c.
Proof. unfold resolve_node_id. case_bool_decide; [|done]. by destruct (env_cmx_node_id env). Qed.
Lemma resolve_node_id_listen env c :
  cfg_listen_addr (cfg_agent (resolve_node_id env c)) = cfg_listen_addr (cfg_agent c).
Proof. unfold resolve_node_id. case_bool_decide; [|done]. by destruct (env_cmx_node_id env). Qed.

(** ** What serving never changes: who the agent is *)
Definition same_identity (s s' : CacheService) : Prop :=
  let st := cs_state s in let st' := cs_state s' in
  as_node_id st' = as_node_id st ∧ as_config st' = as_config st ∧ as_metadata st' = as_metadata st.

Global Instance same_identity_preorder : PreOrder same_identity.
Proof. split; unfold same_identity; [by intros s|]. intros s1 s2 s3. intuition congruence. Qed.

#[export] Instance same_identity_frame : HandlerFrame same_identity.
Proof. by split; [exact _|..]. Qed.

Section identity.
Context {wire : Type} `{!Codec wire} (sha256 : bytes → bytes) (crc32 : bytes → Z) (pad : bytes).
Local Abbreviation keeps m := (preserves same_identity m).

Lemma identity_allocator {A} (m : M BlockAllocator A) : keeps (on_allocator m).
Proof. by apply preserves_zoom. Qed.
Lemma identity_spawn t : keeps (spawn_publish t).
Proof. by apply preserves_modify. Qed.
#[local] Hint Resolve identity_allocator identity_spawn : frames.

Lemma identity_store now stream : keeps (store sha256 crc32 pad now stream).
Proof. unfold store, with_capacity, ok, fail. handler_steps. Qed.
Lemma identity_watch m : keeps (watch_turn sha256 m).
Proof.
  apply preserves_modify. intros s. destruct (as_remote_index (cs_state s)) as [ri|]; [|done].
  by destruct (watch_step sha256 (ri, as_hash_ring (cs_state s)) m) as [[ri' hr']|].
Qed.
Lemma identity_monitor : keeps monitor_turn.
Proof. unfold monitor_turn. apply preserves_bind; [exact _|apply identity_allocator|]. intros st. by apply preserves_modify. Qed.
#[local] Hint Resolve identity_store identity_watch identity_monitor : frames.

Lemma identity_serve rq : keeps (serve sha256 crc32 pad rq).
Proof. destruct rq; cbn [serve]; handler_steps. Qed.

Lemma identity_run rqs s : same_identity s (run sha256 crc32 pad rqs s).2.
Proof.
  revert s. induction rqs as [|rq rqs IH]; intros s; cbn [run]; [done|].
  pose proof (identity_serve rq s) as Hs. destruct (serve sha256 crc32 pad rq s) as [o s1].
  specialize (IH s1). destruct (run sha256 crc32 pad rqs s1) as [tr s2]. cbn in *. by etransitivity.
Qed.
End identity.

Section startup_laws.
Context {E wire : Type} `{!Codec wire} `{!Etcd E wire} (sha256 : bytes → bytes).
Context (mmap : Z → option bytes) (env : NodeEnv) (install : string → result unit string).
Context (connected : result E string) (config : AgentConfig).

Lemma startup_fresh st id' :
  usable_memory (cfg_memory config) →
  (∀ m, mmap (cfg_total_size (cfg_memory config)) = Some m → zlen m = cfg_total_size (cfg_memory config)) →
  startup sha256 mmap env install connected config 0 = (Ret (Ok st), id') →
  let s := sd_service st in
  fresh_service s ∧ bi_capacity (index s) = total_blocks (al_pool (allocator s)).
Proof.
  intros [Ht Hb Hc] Hmmap. unfold startup. destruct (validate config) as [[]|errs]; [|done].
  destruct (socket_addr_ok _) at 1; cbn [negb]; [|done].
  destruct (install_metrics_recorder _ _); [|done].
  rewrite resolve_node_id_memory. set (mem := cfg_memory config) in *.
  destruct (pool_new mmap (cfg_total_size mem) (cfg_block_size mem) 0) as [[[p|e]| | |] id1] eqn:Hp;
    unfold mbind, M_bind; rewrite Hp; try done.
  destruct (socket_addr_ok (cfg_listen_addr _)); cbn [negb]; [|done].
  pose proof Hp as (_ & _ & _ & _ & base & _ & Hpeq)%pool_new_Ok. intros [= <- <-]. cbn.
  assert (client_inv (p, [])) as Hinv.
  { eapply (pool_new_client mmap); [exact Ht| |exact Hmmap|exact Hc|exact Hp].
    unfold HEADER_SIZE in *. lia. }
  split; [split; cbn; try done|]; rewrite Hpeq; done.
Qed.

(** Validation rules out the size errors of the pool. *)
Lemma pool_new_validated id :
  validate config = Ok tt → usable_memory (cfg_memory config) →
  let mem := cfg_memory config in
  pool_new mmap (cfg_total_size mem) (cfg_block_size mem) id =
    match mmap (cfg_total_size mem) with
    | None => (Ret (Err MmapFailed), id)
    | Some base =>
        let n := cfg_total_size mem / cfg_block_size mem in
        (Ret (Ok (mkMemoryPool id base (cfg_total_size mem) (cfg_block_size mem) n (seqZ 0 n))), as_u32 (id + 1))
    end.
Proof.
  intros [Hb Ht Hd _ _ _ _ _]%validate_sound [_ Hblk _] mem. unfold pool_new.
  apply Z.eqb_neq in Ht. fold mem in Ht, Hd, Hblk |- *. unfold HEADER_SIZE in Hblk.
  rewrite (proj2 (Z.eqb_neq (cfg_block_size mem) 0)), Ht by lia.
  assert (cfg_total_size mem `mod` cfg_block_size mem = 0) as ->
    by (apply Z.mod_divide; [lia|apply Hd; lia]).
  cbn [orb negb Z.eqb]. by destruct (mmap (cfg_total_size mem)).
Qed.

(** Startup of a validated configuration, when the exporter starts. *)
Lemma startup_steps :
  validate config = Ok tt → usable_memory (cfg_memory config) →
  socket_addr_ok (cfg_metrics_addr (cfg_metrics config)) = true →
  install (cfg_metrics_addr (cfg_metrics config)) = Ok tt →
  let mem := cfg_memory config in
  let config' := resolve_node_id env config in
  let metadata := connect_metadata config' connected in
  startup sha256 mmap env install connected config 0 =
    match mmap (cfg_total_size mem) with
    | None => (Ret (Err (PoolFailed MmapFailed)), 0)
    | Some base =>
        let n := cfg_total_size mem / cfg_block_size mem in
        let pool := mkMemoryPool 0 base (cfg_total_size mem) (cfg_block_size mem) n (seqZ 0 n) in
        let state := mkAgentState (allocator_new pool 0) (index_new n) (cfg_node_id (cfg_agent config')) config'
                       (fst <$> metadata) 0 (Some remote_new) (Some (initial_ring sha256 config' metadata)) in
        (Ret (Ok (mkStarted (service_new state) (snd <$> metadata) (concurrency_limit config'))), 1)
    end.
Proof.
  intros Hv Hum Hsock Hmet mem config' metadata. unfold startup, install_metrics_recorder.
  rewrite Hv, resolve_node_id_metrics, Hsock, Hmet, resolve_node_id_memory. cbn [negb].
  unfold mbind, M_bind. rewrite (pool_new_validated 0 Hv Hum). fold mem.
  destruct (mmap (cfg_total_size mem)) as [base|]; [|done].
  rewrite resolve_node_id_listen, (cv_listen_addr _ (validate_sound _ Hv)). done.
Qed.

(** C34: Startup from a validated configuration with usable block sizes.  Once the metrics
    exporter is up, the only remaining failure is [mmap]; otherwise [main] serves over a
    fresh cache whose index has exactly one entry per block of the pool, with the node
    itself on the hash ring exactly when etcd was reached.  An invalid configuration, a bad
    metrics address and a failing exporter are refused before anything is created. *)
Theorem startup_correct :
  (∀ errs, validate config = Err errs →
     startup sha256 mmap env install connected config 0 = (Ret (Err (ConfigInvalid errs)), 0)) ∧
  (validate config = Ok tt → socket_addr_ok (cfg_metrics_addr (cfg_metrics config)) = false →
     startup sha256 mmap env install connected config 0 = (Ret (Err BadMetricsAddr), 0)) ∧
  (∀ e, validate config = Ok tt → socket_addr_ok (cfg_metrics_addr (cfg_metrics config)) = true →
     install (cfg_metrics_addr (cfg_metrics config)) = Err e →
     startup sha256 mmap env install connected config 0 =
       (Ret (Err (MetricsFailed ("failed to install Prometheus exporter: " +:+ e))), 0)) ∧
  (validate config = Ok tt → usable_memory (cfg_memory config) →
   (∀ m, mmap (cfg_total_size (cfg_memory config)) = Some m → zlen m = cfg_total_size (cfg_memory config)) →
   socket_addr_ok (cfg_metrics_addr (cfg_metrics config)) = true →
   install (cfg_metrics_addr (cfg_metrics config)) = Ok tt →
   (mmap (cfg_total_size (cfg_memory config)) = None ∧
    startup sha256 mmap env install connected config 0 = (Ret (Err (PoolFailed MmapFailed)), 0)) ∨
   ∃ st, startup sha256 mmap env install connected config 0 = (Ret (Ok st), 1) ∧
     let s := sd_service st in
     fresh_service s ∧ bi_capacity (index s) = total_blocks (al_pool (allocator s)) ∧
     as_pressure_level (cs_state s) = PRESSURE_NORMAL ∧
     (nodes <$> as_hash_ring (cs_state s)) =
       Some match connected with Ok _ => [as_node_id (cs_state s)] | Err _ => [] end).
Proof.
  split; [intros errs Hv; unfold startup; by rewrite Hv|].
  split; [intros Hv Hs; unfold startup; by rewrite Hv, resolve_node_id_metrics, Hs|].
  split; [intros e Hv Hs He; unfold startup, install_metrics_recorder;
          by rewrite Hv, resolve_node_id_metrics, Hs, He|].
  intros Hv Hum Hmmap Hsock Hmet. pose proof (startup_steps Hv Hum Hsock Hmet) as Hst. cbn zeta in Hst.
  pose proof (λ st id', startup_fresh st id' Hum Hmmap) as Hfr. clear Hmmap.
  destruct (mmap _) as [base|]; [right|by left].
  eexists. split; [exact Hst|]. destruct (Hfr _ _ Hst) as [Hf Hc].
  split; [exact Hf|]. split; [exact Hc|]. split; [done|]. cbn.
  unfold initial_ring, connect_metadata. destruct connected as [e|]; [|done].
  by destruct (register_node _ e) as [[r c] e'].
Qed.

(** C35: The agent never evicts.  [main] gives the index one entry per block, while every
    store takes a block before it inserts: whatever requests follow the startup, the
    eviction counter stays at zero and the pool is exhausted before the index is full. *)
Theorem agent_never_evicts (crc32 : bytes → Z) (pad : bytes) (st : Started E) (id' : Z)
    (rqs : list (request wire)) :
  zlen pad = 4 → (∀ d, is_u32 (crc32 d)) →
  usable_memory (cfg_memory config) →
  (∀ m, mmap (cfg_total_size (cfg_memory config)) = Some m → zlen m = cfg_total_size (cfg_memory config)) →
  startup sha256 mmap env install connected config 0 = (Ret (Ok st), id') →
  let s := (run sha256 crc32 pad rqs (sd_service st)).2 in
  cs_evictions s = 0 ∧
  Z.of_nat (size (bi_map (index s))) + zlen (free_list (al_pool (allocator s))) ≤ bi_capacity (index s).
Proof.
  intros Hpad Hcrc Hum Hmmap Hst s. destruct (startup_fresh _ _ Hum Hmmap Hst) as [Hf Hc].
  destruct (reachable_inv sha256 crc32 pad Hpad Hcrc _ Hf rqs) as (kv & leaked & Hinv). change (final _ _ _ _ _) with s in Hinv.
  pose proof Hinv as [Hs Ht _ _ _ Hev]. split; [apply Hev; lia|].
  destruct (stats_svc _ _ _ _ _ _ _ Hs) as [_ Hsum]. rewrite (sv_capacity _ _ _ _ _ _ _ Hs).
  rewrite (index_abs_size _ _ (sv_index _ _ _ _ _ _ _ Hs)). unfold entries. rewrite length_fmap.
  pose proof (zlen_nonneg leaked). unfold zlen in *. lia.
Qed.
End startup_laws.

(** ** The life of the process *)
Section lifecycle.
Context {E wire : Type} `{!Codec wire} `{!Etcd E wire} `{!EtcdStore E wire}.

(** A successful registration leaves the node's key in etcd, attached to the client's lease. *)
Lemma register_node_view self e client e' :
  register_node self e = (Ok tt, client, e') →
  mc_node_id client = mc_node_id self ∧
  ∃ id v, mc_lease_id client = Some id ∧ etcd_view e' !! node_key (mc_node_id self) = Some (v, Some id).
Proof.
  unfold register_node. destruct (etcd_lease_grant _ e) as [[id|err] e1] eqn:Hg; [|done].
  destruct (etcd_put _ _ _ e1) as [r e2] eqn:Hp. intros [= -> <- <-]. cbn in *. split; [done|].
  eexists id, _. split; [done|]. rewrite (etcd_put_view _ _ _ _ _ Hp). apply lookup_insert_eq.
Qed.

(** Revoking deletes exactly the keys attached to the client's lease. *)
Lemma revoke_lease_view self e e' :
  revoke_lease self e = (Ok tt, e') →
  ∀ k v l, etcd_view e' !! k = Some (v, l) ↔
    etcd_view e !! k = Some (v, l) ∧ ¬ (∃ id, mc_lease_id self = Some id ∧ l = Some id).
Proof.
  unfold revoke_lease. destruct (mc_lease_id self) as [id|]; [|intros [= <-]; naive_solver].
  intros Hr k v l. rewrite (etcd_revoke_view _ _ _ Hr k). destruct (etcd_view e !! k) as [[v1 l1]|]; cbn; [|naive_solver].
  case_bool_decide; naive_solver.
Qed.

(** The statistics after any requests to a fresh service. *)
Lemma final_pool_stats (sha256 : bytes → bytes) (crc32 : bytes → Z) (pad : bytes) s0 (rqs : list (request wire)) :
  zlen pad = 4 → (∀ d, is_u32 (crc32 d)) → fresh_service s0 →
  let r := run sha256 crc32 pad rqs s0 in
  let total := total_blocks (al_pool (allocator s0)) in
  let bs := block_size (al_pool (allocator s0)) in
  let used := lg_stores (ledger_of sha256 r.1) - lg_freed (ledger_of sha256 r.1) in
  al_stats (allocator r.2) =
    (Ret (Build_PoolStats total used (total - used) (total * bs) (used * bs)), allocator r.2).
Proof.
  intros Hpad Hcrc Hf r total bs used.
  destruct (reachable_inv sha256 crc32 pad Hpad Hcrc _ Hf rqs) as (kv & leaked & [Hs Ht _ _ Hc _]).
  unfold final, book in *. fold r in Hs, Ht, Hc. fold used in Hc. fold total in Ht.
  destruct (al_stats_svc _ _ _ _ _ _ _ Hs) as [Hst Hsum]. rewrite Hst, <- Hc.
  pose proof (wf_total_size _ (ai_wf _ _ (sv_alloc _ _ _ _ _ _ _ Hs))) as Hsize. cbn [fst] in Hsize.
  rewrite <- Hsize, (sv_block_size _ _ _ _ _ _ _ Hs), Ht. rewrite Ht in Hsum.
  by replace (zlen (free_list (al_pool (allocator r.2)))) with (total - (zlen kv + zlen leaked)) by lia.
Qed.

Lemma validated_total config :
  validate config = Ok tt → usable_memory (cfg_memory config) →
  let mem := cfg_memory config in
  cfg_total_size mem / cfg_block_size mem * cfg_block_size mem = cfg_total_size mem.
Proof.
  intros [_ _ Hd _ _ _ _ _]%validate_sound [_ Hb _] mem. fold mem in Hd, Hb. unfold HEADER_SIZE in Hb.
  destruct (Hd ltac:(lia)) as [q Hq]. rewrite Hq, Z.div_mul by lia. lia.
Qed.

End lifecycle.

(** *** Witnesses: four blocks of 32 bytes, an in-memory etcd *)
Definition config4 : AgentConfig :=
  mkAgentConfig default_agent_section
    (mkMemorySection 128 32 None (f64_lit 75 100) (f64_lit 90 100) (f64_lit 95 100))
    default_metadata_section (mkTransportSection "mock") (mkMetricsSection "0.0.0.0:9090")
    (mkPlacementSection 2) default_tls_section.
Definition env4 : NodeEnv := mkNodeEnv (Some "node-a"%string) (0, as_bytes "host" ++ [0]).
Definition exporter_up (_ : string) : result unit string := Ok tt.

Lemma config4_usable : usable_memory (cfg_memory config4).
Proof. split; vm_compute; done. Qed.

Lemma startup_correct_witness :
  ∃ st, startup toy_digest zero_mmap env4 exporter_up (Ok etcd0) config4 0 = (Ret (Ok st), 1).
Proof.
  destruct (startup_correct toy_digest zero_mmap env4 exporter_up (Ok etcd0) config4) as (_ & _ & _ & Hok).
  destruct Hok as [[Hm _]|(st & Hst & _)].
  - vm_compute. reflexivity.
  - exact config4_usable.
  - exact pool4_mmap.
  - vm_compute. reflexivity.
  - reflexivity.
  - discriminate.
  - by exists st.
Defined.

Lemma agent_never_evicts_witness :
  ∃ st, startup toy_digest zero_mmap env4 exporter_up (Ok etcd0) config4 0 = (Ret (Ok st), 1) ∧
    cs_evictions (run toy_digest sum_crc pad0 overwrites (sd_service st)).2 = 0.
Proof.
  assert (∃ st, startup toy_digest zero_mmap env4 exporter_up (Ok etcd0) config4 0 = (Ret (Ok st), 1)) as [st Hst]
    by (eexists; vm_compute; reflexivity).
  exists st. split; [exact Hst|].
  apply (agent_never_evicts toy_digest zero_mmap env4 exporter_up (Ok etcd0) config4 sum_crc pad0 st 1 overwrites eq_refl
           sum_crc_range config4_usable pool4_mmap Hst).
Defined.

(** A process whose configuration file gives the four blocks and nothing else. *)
Definition process4 : Process :=
  mkProcess (Some "/tmp/agent.toml"%string) (λ path, if bool_decide (path = "/tmp/agent.toml"%string) then Some (Some [10]) else None)
    None None false false env4.
Definition toml4 (_ : bytes) : result ConfigFile string :=
  Ok (mkConfigFile None (Some (mkMemoryFile (Some 128) (Some 32) None None None None)) None None None None None).
Definition config_file4 : AgentConfig :=
  config_of_file (mkConfigFile None (Some (mkMemoryFile (Some 128) (Some 32) None None None None)) None None None None None).

