(* ===== verification/System.v ===== *)
(** * The whole system: agents, etcd and clients

    Any number of agent processes (main.rs, grpc.rs) around one etcd, step by step: a process
    starts, serves a request, sends one of the publications its stores spawned (metadata.rs)
    or handles a report of its watches.  Processes may crash and start again under their
    old name; a publication may take effect although the client saw an error; reports may
    be lost, repeated, late or out of order.  Under all of that the file shows what a client
    can rely on that follows a remote hit to the node it names. *)
From S2P Require Import Prelude Pool Block Allocator Policy Lru Index RemoteIndex Placement SocketAddr Config Metadata Cluster Pressure Grpc Frames Service Trace History EndToEnd Agent.
From stdpp Require Import relations.
Local Open Scope Z_scope.

Section system.
Context {E wire : Type} `{!Codec wire} `{!Etcd E wire} `{!EtcdStore E wire}.
Context (sha256 : bytes → bytes) (crc32 : bytes → Z) (pad : bytes).

(** A process of the agent: its service now, its service when it started, and the requests it
    has handled with their outcomes. *)
Record member := mkMember {
  mb_service : CacheService;
  mb_start : CacheService;
  mb_trace : list (request wire * outcome reply);
}.

(** [sy_reports] are the reports on block keys that etcd has sent so far. *)
Record system := mkSystem {
  sy_etcd : E;
  sy_members : list member;
  sy_reports : list (watch_msg wire);
}.

Definition name_of (mb : member) : string := as_node_id (cs_state (mb_start mb)).

(** What holds of a service when [main] has built it. *)
Record started (s : CacheService) : Prop := {
  st_fresh : fresh_service s;
  st_spawned : cs_spawned s = [];
  st_remote ri : as_remote_index (cs_state s) = Some ri → ri = remote_new;
  st_client client : as_metadata (cs_state s) = Some client → mc_node_id client = as_node_id (cs_state s);
}.

(** Requests of clients and turns of the monitor; the bytes of a request are bytes. *)
Definition client_request (rq : request wire) : Prop :=
  match rq with
  | ReqStore _ stream => ∀ k d, store_target sha256 stream = Some (k, d) → hash_ok k
  | ReqWatch _ => False
  | _ => True
  end.

(** Messages that put no block: changes of node keys, deletions, the end of a stream. *)
Definition no_block_put (m : watch_msg wire) : Prop :=
  match m with
  | BlockMsg (Ok (Some evs)) => Forall (λ ev, ev_type ev = EventDelete) evs
  | _ => True
  end.

(** The process handles [rq]. *)
Definition handle (rq : request wire) (mb : member) : member :=
  let '(o, s') := serve sha256 crc32 pad rq (mb_service mb) in
  mkMember s' (mb_start mb) (mb_trace mb ++ [(rq, o)]).

(** What etcd reports of the publication of [t]. *)
Definition publication (client : MetadataClient) (t : PublishTask) (v : wire) : list (watch_msg wire) :=
  key_msgs (block_key (pt_prefix_hash t)) (mkEvent EventPut (Some (block_key (pt_prefix_hash t), v))).

Inductive sys_step : system → system → Prop :=
  | sys_start e ms rs mmap env install connected config st id' :
      usable_memory (cfg_memory config) →
      (∀ m, mmap (cfg_total_size (cfg_memory config)) = Some m → zlen m = cfg_total_size (cfg_memory config)) →
      (∀ e0, connected = Ok e0 → e0 = e) →
      startup sha256 mmap env install connected config 0 = (Ret (Ok st), id') →
      sys_step (mkSystem e ms rs)
        (mkSystem (default e (sd_etcd st)) (ms ++ [mkMember (sd_service st) (sd_service st) []]) rs)
  | sys_serve e l1 mb l2 rs rq :
      client_request rq → sys_step (mkSystem e (l1 ++ mb :: l2) rs) (mkSystem e (l1 ++ handle rq mb :: l2) rs)
  | sys_watch e l1 mb l2 rs m :
      m ∈ rs ∨ no_block_put m →
      sys_step (mkSystem e (l1 ++ mb :: l2) rs) (mkSystem e (l1 ++ handle (ReqWatch m) mb :: l2) rs)
  | sys_publish e ms rs mb client t e' :
      mb ∈ ms → as_metadata (cs_state (mb_service mb)) = Some client → t ∈ cs_spawned (mb_service mb) →
      publish_task client t e = (Ok tt, e') →
      sys_step (mkSystem e ms rs) (mkSystem e' ms (rs ++ put_msgs (block_key (pt_prefix_hash t)) e'))
  | sys_publish_fails e ms rs mb client t err e' rs' :
      mb ∈ ms → as_metadata (cs_state (mb_service mb)) = Some client → t ∈ cs_spawned (mb_service mb) →
      publish_task client t e = (Err err, e') →
      (rs' = [] ∨ ∃ v, rs' = publication client t v ∧
         meta_to_json (mkBlockLocationMeta (mc_node_id client) (mc_node_addr client)
                         (pt_offset t) (pt_size t) (pt_generation t)) = Some v) →
      sys_step (mkSystem e ms rs) (mkSystem e' ms (rs ++ rs'))
  | sys_etcd_changes e e' ms rs : sys_step (mkSystem e ms rs) (mkSystem e' ms rs).

Definition initial_system (e : E) : system := mkSystem e [] [].

(** ** Advertised blocks *)

(** Some process of that name has acknowledged a store of [d] under [k] with that generation,
    into that block of its pool. *)
Definition advertised (ms : list member) (k : bytes) (info : RemoteBlockInfo) : Prop :=
  ∃ i mb p d, ms !! i = Some mb ∧ name_of mb = ri_node_id info ∧
    acked sha256 (mb_trace mb) p k d (ri_generation info) ∧
    ri_size info = block_size (al_pool (allocator (mb_start mb))) ∧
    ∃ j, 0 ≤ j < total_blocks (al_pool (allocator (mb_start mb))) ∧ ri_offset info = j * ri_size info.

(** Every block the event puts is advertised. *)
Definition event_true (ms : list member) (ev : Event wire) : Prop :=
  ∀ k info, RInsert k info ∈ block_event_op ev → advertised ms k info.
Definition msg_true (ms : list member) (m : watch_msg wire) : Prop :=
  match m with BlockMsg (Ok (Some evs)) => Forall (event_true ms) evs | _ => True end.

Definition remote_true (ms : list member) (ri : RemoteIndex) : Prop :=
  map_Forall (λ k infos, Forall (advertised ms k) infos) (ri_map ri).

(** What holds of every process. *)
Record member_inv (ms : list member) (mb : member) : Prop := {
  mi_started : started (mb_start mb);
  mi_run : run sha256 crc32 pad (mb_trace mb).*1 (mb_start mb) = (mb_trace mb, mb_service mb);
  mi_stores : Forall (λ rq, match rq with ReqWatch _ => True | _ => client_request rq end) (mb_trace mb).*1;
  mi_remote ri : as_remote_index (cs_state (mb_service mb)) = Some ri → remote_true ms ri;
}.

Record sys_inv (y : system) : Prop := {
  si_members : Forall (member_inv (sy_members y)) (sy_members y);
  si_reports : Forall (msg_true (sy_members y)) (sy_reports y);
}.
End system.
Arguments member : clear implicits.
Arguments system : clear implicits.

(** ** Growing systems *)
Section growth.
Context {wire : Type} `{!Codec wire} (sha256 : bytes → bytes).
Implicit Types (ms : list (member wire)) (mb : member wire).

(** Every process is still there, and has handled what it had handled. *)
Definition extends ms ms' : Prop :=
  ∀ i mb, ms !! i = Some mb → ∃ mb', ms' !! i = Some mb' ∧ mb_start mb' = mb_start mb ∧
    mb_trace mb `prefix_of` mb_trace mb'.

Lemma extends_refl ms : extends ms ms.
Proof. intros i mb Hi. by exists mb. Qed.
Lemma extends_new ms mb : extends ms (ms ++ [mb]).
Proof. intros i mb' Hi. exists mb'. split; [by apply lookup_app_l_Some|done]. Qed.
Lemma extends_update l1 mb mb' l2 :
  mb_start mb' = mb_start mb → mb_trace mb `prefix_of` mb_trace mb' → extends (l1 ++ mb :: l2) (l1 ++ mb' :: l2).
Proof.
  intros Hs Ht i x [Hi|[Hlen Hi]]%lookup_app_Some.
  { exists x. split; [by apply lookup_app_l_Some|done]. }
  rewrite lookup_app_r by done. destruct (i - length l1)%nat as [|j]; cbn in Hi |- *.
  - injection Hi as <-. by exists mb'.
  - by exists x.
Qed.

Lemma acked_prefix (tr tr' : list (request wire * outcome reply)) p k d g :
  tr `prefix_of` tr' → acked sha256 tr p k d g → acked sha256 tr' p k d g.
Proof. intros [tl ->]. apply acked_app. Qed.

Lemma advertised_extends ms ms' k info :
  extends ms ms' → advertised sha256 ms k info → advertised sha256 ms' k info.
Proof.
  intros He (i & mb & p & d & Hi & Hn & Ha & Hs & Ho). destruct (He i mb Hi) as (mb' & Hi' & Hst & Ht).
  exists i, mb', p, d. unfold name_of in *. rewrite Hst. split; [done|]. split; [done|].
  split; [by eapply acked_prefix|done].
Qed.
Lemma msg_true_extends ms ms' m : extends ms ms' → msg_true sha256 ms m → msg_true sha256 ms' m.
Proof.
  intros He. destruct m as [[[evs|]|]|]; try done. intros Hm. eapply Forall_impl; [exact Hm|].
  intros ev Hev k info Hin. by eapply advertised_extends, Hev.
Qed.
Lemma remote_true_extends ms ms' ri : extends ms ms' → remote_true sha256 ms ri → remote_true sha256 ms' ri.
Proof.
  intros He Hr k infos Hk. eapply Forall_impl; [exact (Hr k infos Hk)|]. intros info. by apply advertised_extends.
Qed.

(** ** What the watches make of true messages *)
Lemma upsert_Forall (P : RemoteBlockInfo → Prop) info es : P info → Forall P es → Forall P (upsert info es).
Proof.
  intros Hi. induction 1 as [|e es He Hes IH]; cbn; [by constructor|]. case_bool_decide; by constructor.
Qed.

Lemma remote_true_step ms op ri :
  (∀ k info, op = RInsert k info → advertised sha256 ms k info) →
  remote_true sha256 ms ri → remote_true sha256 ms (remote_step op ri).
Proof.
  intros Hop Hri. unfold remote_true in *. destruct op as [k info|k|n]; cbn.
  - specialize (Hop k info eq_refl). unfold remote_insert, remote_lookup.
    destruct (ri_map ri !! k) as [es|] eqn:Hk; cbn; apply map_Forall_insert_2; try done.
    + apply upsert_Forall; [done|]. exact (Hri k es Hk).
    + by constructor.
  - by apply map_Forall_delete.
  - intros k es Hk. rewrite lookup_omap in Hk. apply bind_Some in Hk as (es0 & Hk & Hret).
    unfold retain_other in Hret. specialize (Hri k es0 Hk). cbn in Hri.
    assert (es = filter (λ e, ri_node_id e ≠ n) es0) as -> by (destruct (filter _ es0); [done|congruence]).
    apply Forall_forall. intros e [_ He]%list_elem_of_filter. by eapply Forall_forall in Hri.
Qed.

Lemma remote_true_event ms ri ev :
  event_true sha256 ms ev → remote_true sha256 ms ri → remote_true sha256 ms (block_event ri ev).
Proof.
  intros Hev. rewrite block_event_step. unfold event_true in Hev. revert ri Hev.
  induction (block_event_op ev) as [|op ops IH]; intros ri Hev Hri; [done|]. cbn. apply IH.
  - intros k info Hin. apply Hev. by apply list_elem_of_further.
  - apply remote_true_step; [|done]. intros k info ->. apply Hev, list_elem_of_here.
Qed.

Lemma remote_true_watch ms ri hr m ri' hr' :
  msg_true sha256 ms m → remote_true sha256 ms ri →
  watch_step sha256 (ri, hr) m = Some (ri', hr') → remote_true sha256 ms ri'.
Proof.
  intros Hm Hri. destruct m as [[[evs|]|]|[[evs|]|]]; try done; cbn.
  - intros [= <- _]. cbn in Hm. revert ri Hri. induction Hm as [|ev evs Hev _ IH]; intros ri Hri; [done|]. cbn.
    by apply IH, remote_true_event.
  - clear Hm. intros [= Heq]. revert ri hr Hri Heq. induction evs as [|ev evs IH]; intros ri hr Hri Heq; cbn [foldl] in Heq.
    { by injection Heq as <- _. }
    destruct (node_event sha256 (ri, hr) ev) as [ri1 hr1] eqn:Hn. apply (IH ri1 hr1); [|exact Heq].
    revert Hn. unfold node_event. destruct (ev_kv ev) as [[key v]|]; [|by intros [= <- _]].
    destruct (ev_type ev); [by intros [= <- _]|]. intros [= <- _]. by apply (remote_true_step ms (RRemoveNode _)).
Qed.

Lemma no_block_put_true ms m : no_block_put m → msg_true sha256 ms m.
Proof.
  destruct m as [[[evs|]|]|]; try done. cbn. intros Hm. eapply Forall_impl; [exact Hm|].
  intros ev Hev k info. unfold block_event_op. rewrite Hev. intros Hin.
  repeat case_match; first [by apply elem_of_nil in Hin|by apply list_elem_of_singleton in Hin].
Qed.
End growth.

(** ** The invariant holds throughout *)

(** The remote index, which only the watches change. *)
Definition remote_same (s s' : CacheService) : Prop :=
  as_remote_index (cs_state s') = as_remote_index (cs_state s).
#[export] Instance remote_same_preorder : PreOrder remote_same.
Proof. split; unfold remote_same; [by intros s|]. intros s1 s2 s3. congruence. Qed.
#[export] Instance remote_same_frame : HandlerFrame remote_same.
Proof. by split; [exact _|..]. Qed.

Section reachable.
Context {E wire : Type} `{!Codec wire} `{!CodecOk wire} `{!Etcd E wire} `{!EtcdStore E wire}.
Context (sha256 : bytes → bytes) (crc32 : bytes → Z) (pad : bytes).
Context (Hpad : zlen pad = 4) (Hcrc : ∀ d, is_u32 (crc32 d)).
Implicit Types (ms : list (member wire)) (mb : member wire) (y : system E wire).
Local Abbreviation inv ms mb := (member_inv sha256 crc32 pad ms mb).

Lemma remote_same_serve rq : client_request sha256 rq → preserves remote_same (serve sha256 crc32 pad rq).
Proof.
  assert (∀ now stream, preserves remote_same (store sha256 crc32 pad now stream)) as Hstore.
  { intros now stream. unfold store, with_capacity, ok, fail.
    assert (∀ A (m : M BlockAllocator A), preserves remote_same (on_allocator m)) as Ha by (intros; by apply preserves_zoom).
    assert (∀ t, preserves remote_same (spawn_publish t)) as Hs by (intros; by apply preserves_modify).
    handler_steps. }
  destruct rq as [| | | | | | | |m]; intros Hrq; try done; cbn [serve]; handler_steps.
Qed.

Lemma member_serves ms mb rq :
  match rq with ReqWatch m => msg_true sha256 ms m | _ => client_request sha256 rq end →
  let mb' := handle sha256 crc32 pad rq mb in
  inv ms mb → inv ms mb' ∧ mb_start mb' = mb_start mb ∧ mb_trace mb `prefix_of` mb_trace mb'.
Proof.
  intros Hrq mb' [Hst Hrun Hall Hri]. unfold mb', handle.
  destruct (serve sha256 crc32 pad rq (mb_service mb)) as [o s'] eqn:Hs. cbn. split; [|split; [done|by eexists]].
  split; cbn; [done| | |].
  - rewrite fmap_app. cbn. by rewrite run_snoc, Hrun, Hs.
  - rewrite fmap_app. apply Forall_app. split; [done|]. apply Forall_singleton. cbn. by destruct rq.
  - intros ri Hr.
    assert (client_request sha256 rq ∨ ∃ m, rq = ReqWatch m) as [Hc|[m ->]] by (destruct rq; eauto).
    + pose proof (remote_same_serve rq Hc (mb_service mb)) as Hsame. rewrite Hs in Hsame.
      apply Hri. by rewrite <-Hsame.
    + cbn [serve] in Hs. unfold watch_turn in Hs. erewrite bind_Ret in Hs by reflexivity. injection Hs as _ <-.
      cbn beta in Hr. destruct (as_remote_index (cs_state (mb_service mb))) as [ri0|] eqn:H0; [|congruence].
      destruct (watch_step sha256 (ri0, as_hash_ring (cs_state (mb_service mb))) m) as [[ri1 hr1]|] eqn:Hw.
      * cbn in Hr. injection Hr as <-. eapply remote_true_watch; [exact Hrq|by apply Hri|exact Hw].
      * apply Hri. congruence.
Qed.

Lemma member_inv_extends ms ms' mb : extends ms ms' → inv ms mb → inv ms' mb.
Proof.
  intros He [Hst Hrun Hall Hri]. split; try done. intros ri Hr. eapply remote_true_extends; [exact He|by apply Hri].
Qed.

Lemma startup_started mmap env install connected config (st : Started E) id' :
  usable_memory (cfg_memory config) →
  (∀ m, mmap (cfg_total_size (cfg_memory config)) = Some m → zlen m = cfg_total_size (cfg_memory config)) →
  startup sha256 mmap env install connected config 0 = (Ret (Ok st), id') → started (sd_service st).
Proof using Type.
  intros Hum Hm Hst. destruct (startup_fresh sha256 mmap env install connected config st id' Hum Hm Hst) as [Hf _].
  clear Hm Hum. revert Hst. unfold startup. destruct (validate config) as [[]|]; [|done].
  destruct (socket_addr_ok _) at 1; [|done]. cbn [negb]. destruct (install_metrics_recorder _ _); [|done].
  unfold mbind, M_bind. destruct (pool_new _ _ _ _) as [[[p|]| | |] id]; [|done..].
  destruct (socket_addr_ok _); [|done]. cbn [negb]. intros [= <- _]. split; [exact Hf|done| |].
  - by intros ri [= <-].
  - intros client. cbn. unfold connect_metadata. destruct connected as [e0|]; [|done].
    unfold register_node. destruct (etcd_lease_grant _ e0) as [[id1|] e1]; cbn; [|by intros [= <-]].
    destruct (etcd_put _ _ _ e1). by intros [= <-].
Qed.

Lemma member_history ms mb :
  inv ms mb →
  history_inv sha256 (block_size (al_pool (allocator (mb_start mb)))) (total_blocks (al_pool (allocator (mb_start mb))))
    (mb_trace mb) (mb_service mb).
Proof using Hpad Hcrc.
  intros [[Hf Hsp _ _] Hrun _ _].
  pose proof (reachable_history sha256 crc32 pad Hpad Hcrc (mb_start mb) Hf Hsp (mb_trace mb).*1) as Hh.
  by rewrite Hrun in Hh.
Qed.

(** The publications a process has spawned are of blocks it advertises. *)
Lemma spawned_advertised ms mb client t :
  inv ms mb → mb ∈ ms → as_metadata (cs_state (mb_service mb)) = Some client → t ∈ cs_spawned (mb_service mb) →
  let meta := mkBlockLocationMeta (mc_node_id client) (mc_node_addr client) (pt_offset t) (pt_size t) (pt_generation t) in
  advertised sha256 ms (pt_prefix_hash t) (remote_info meta) ∧ hash_ok (pt_prefix_hash t).
Proof using Hpad Hcrc.
  intros Hinv [i Hi]%list_elem_of_lookup Hm Ht meta. pose proof (member_history _ _ Hinv) as Hh.
  destruct Hinv as [[Hf Hsp _ Hcl] Hrun Hall _].
  pose proof (proj1 (Forall_forall _ _) (hi_spawned _ _ _ _ _ Hh) t Ht) as ((p & d & Ha) & Hsize & j & Hj & Hoff).
  pose proof (identity_run sha256 crc32 pad (mb_trace mb).*1 (mb_start mb)) as (_ & _ & Hmeta).
  rewrite Hrun in Hmeta. cbn in Hmeta. rewrite Hm in Hmeta. symmetry in Hmeta. split.
  - exists i, mb, p, d. split; [done|]. split; [symmetry; by apply Hcl|]. split; [done|]. split; [done|].
    exists j. cbn. by rewrite Hsize.
  - destruct Ha as (now & stream & resp & Hp & Htgt & _).
    assert ((mb_trace mb).*1 !! p = Some (ReqStore now stream)) as Hp1 by (by rewrite list_lookup_fmap, Hp).
    pose proof (Forall_lookup_1 _ _ _ _ Hall Hp1) as Hc. cbn in Hc. by eapply Hc.
Qed.

Lemma publication_true ms mb client t v :
  inv ms mb → mb ∈ ms → as_metadata (cs_state (mb_service mb)) = Some client → t ∈ cs_spawned (mb_service mb) →
  meta_to_json (mkBlockLocationMeta (mc_node_id client) (mc_node_addr client) (pt_offset t) (pt_size t) (pt_generation t)) = Some v →
  Forall (msg_true sha256 ms) (publication client t v).
Proof using Hpad Hcrc CodecOk0.
  intros Hinv Hin Hm Ht Hj. destruct (spawned_advertised ms mb client t Hinv Hin Hm Ht) as [Ha [Hl Hb]].
  unfold publication, key_msgs. rewrite blocks_prefix_of_block. apply Forall_singleton. cbn. apply Forall_singleton.
  intros k info. unfold block_event_op. cbn [ev_kv ev_type]. rewrite hex_of_block_key by done.
  rewrite bool_decide_true by done. rewrite (meta_json_roundtrip _ _ Hj).
  intros Heq%list_elem_of_singleton. injection Heq as -> ->. exact Ha.
Qed.

Lemma sys_inv_step y y' : sys_step sha256 crc32 pad y y' → sys_inv sha256 crc32 pad y → sys_inv sha256 crc32 pad y'.
Proof using Hpad Hcrc CodecOk0.
  assert (∀ e l1 mb l2 rs rq,
    match rq with ReqWatch m => msg_true sha256 (l1 ++ mb :: l2) m | _ => client_request sha256 rq end →
    sys_inv sha256 crc32 pad (mkSystem e (l1 ++ mb :: l2) rs) →
    sys_inv sha256 crc32 pad (mkSystem (E := E) e (l1 ++ handle sha256 crc32 pad rq mb :: l2) rs)) as Hserves.
  { intros e l1 mb l2 rs rq Hrq [Hms Hrs]. cbn in *.
    pose proof (proj1 (Forall_app _ _ _) Hms) as [H1 [Hmb H2]%Forall_cons].
    destruct (member_serves _ _ _ Hrq Hmb) as (Hmb' & Hst & Htr).
    pose proof (extends_update l1 mb _ l2 Hst Htr) as He. split; cbn.
    - apply Forall_app. split; [|apply Forall_cons; split]; [..|];
        try (eapply Forall_impl; [eassumption|]; intros x; by apply member_inv_extends).
      by eapply member_inv_extends.
    - eapply Forall_impl; [exact Hrs|]. intros m. by apply msg_true_extends. }
  intros Hstep Hinv. destruct Hstep as
    [e ms rs mmap env install connected config st id' Hum Hmm _ Hst|e l1 mb l2 rs rq Hrq|e l1 mb l2 rs m Hm
    |e ms rs mb client t e' Hin Hm Ht Hp|e ms rs mb client t err e' rs' Hin Hm Ht Hp Hrs'|e e' ms rs].
  - destruct Hinv as [Hms Hrs]. cbn in *. pose proof (startup_started _ _ _ _ _ _ _ Hum Hmm Hst) as Hs.
    pose proof (extends_new ms (mkMember (sd_service st) (sd_service st) [])) as He. split; cbn.
    + apply Forall_app. split.
      * eapply Forall_impl; [exact Hms|]. intros x. by apply member_inv_extends.
      * apply Forall_singleton. split; cbn; [done|done|by constructor|].
        intros ri Hri. rewrite (st_remote _ Hs _ Hri). apply map_Forall_empty.
    + eapply Forall_impl; [exact Hrs|]. intros m. by apply msg_true_extends.
  - apply Hserves; [|exact Hinv]. by destruct rq.
  - apply (Hserves _ _ _ _ _ (ReqWatch m)); [|exact Hinv]. destruct Hinv as [_ Hrs]. cbn in *.
    destruct Hm as [Hm|Hm]; [by eapply Forall_forall in Hrs|by apply no_block_put_true].
  - destruct Hinv as [Hms Hrs]. cbn in *. split; cbn; [done|]. apply Forall_app. split; [done|].
    pose proof (proj1 (Forall_forall _ _) Hms _ Hin) as Hmb.
    unfold publish_task, publish_block in Hp. destruct (meta_to_json _) as [v|] eqn:Hj; [|done].
    apply etcd_put_view in Hp. unfold put_msgs. rewrite Hp, lookup_insert_eq.
    exact (publication_true ms mb client t v Hmb Hin Hm Ht Hj).
  - destruct Hinv as [Hms Hrs]. cbn in *. split; cbn; [done|]. apply Forall_app. split; [done|].
    pose proof (proj1 (Forall_forall _ _) Hms _ Hin) as Hmb.
    destruct Hrs' as [->|(v & -> & Hj)]; [by constructor|].
    exact (publication_true ms mb client t v Hmb Hin Hm Ht Hj).
  - destruct Hinv. by split.
Qed.

Lemma sys_reachable e y : rtc (sys_step sha256 crc32 pad) (initial_system e) y → sys_inv sha256 crc32 pad y.
Proof using Hpad Hcrc CodecOk0.
  revert y. refine (rtc_ind_r (λ y, sys_inv sha256 crc32 pad y) _ _ _).
  - by split; constructor.
  - intros y y' _ Hstep Hinv. by eapply sys_inv_step.
Qed.

(** ** Properties *)

(** C14: A remote hit leads to data.  Whatever the processes, etcd and the streams did before: when
    a process answers a lookup with a remote hit, it names exactly one block, and some
    process of the named node has acknowledged a store of that key with the generation of
    the answer, into a block of its pool with that offset and size.  If a client then reads
    the key from that process by a Get, the header tells whether it got the data of that
    store: with the generation of the answer the data are exactly those of the store, and
    with another one they are those of a store of the same key acknowledged later. *)
Theorem remote_hit_leads_to_data (e : E) (y : system E wire) (b : nat) (mb : member wire) (req : LookupRequest)
    (resp : LookupResponse) (s' : CacheService)
    (Hreach : rtc (sys_step sha256 crc32 pad) (initial_system e) y)
    (Hb : sy_members y !! b = Some mb) (Hlen : length (lr_prefix_hash req) = 16%nat)
    (Hlookup : Grpc.lookup sha256 req (mb_service mb) = (Ret (Ok resp), s'))
    (Hhit : lp_found resp = true) (Hremote : lp_is_local resp = false) :
  let k := lookup_key sha256 req in
  ∃ loc a ma p d, lp_blocks resp = [loc] ∧ sy_members y !! a = Some ma ∧ name_of ma = pl_node_id loc ∧
    acked sha256 (mb_trace ma) p k d (pl_generation_id loc) ∧
    pl_size loc = block_size (al_pool (allocator (mb_start ma))) ∧
    (∃ j, 0 ≤ j < total_blocks (al_pool (allocator (mb_start ma))) ∧ pl_offset loc = j * pl_size loc) ∧
    ∀ greq hdr d' s'', length (gr_prefix_hash greq) = 16%nat → get_key sha256 greq = k →
      lg_stores (ledger_of sha256 (mb_trace ma)) ≤ 2 ^ 64 →
      get_now sha256 crc32 greq (mb_service ma) = (Ret (Ok [Ok (GetHeaderMsg hdr); Ok (GetData d')]), s'') →
      (gh_generation_id hdr = pl_generation_id loc → d' = d) ∧
      (gh_generation_id hdr ≠ pl_generation_id loc →
       ∃ q, (p < q)%nat ∧ acked sha256 (mb_trace ma) q k d' (gh_generation_id hdr)).
Proof using Hpad Hcrc CodecOk0.
  intros k. destruct (sys_reachable e y Hreach) as [Hms _]. rewrite Forall_forall in Hms.
  pose proof (Hms mb (list_elem_of_lookup_2 _ _ _ Hb)) as [[Hf _ _ _] Hrun _ Hri].
  destruct (reachable_inv sha256 crc32 pad Hpad Hcrc (mb_start mb) Hf (mb_trace mb).*1) as (kv & leaked & [Hsv _ _ _ _ _]).
  unfold final in Hsv. rewrite Hrun in Hsv. cbn [snd] in Hsv.
  destruct (lookup_svc sha256 _ _ _ _ _ _ _ req Hsv Hlen) as (s1 & Hl & _). fold (lookup_key sha256 req) in Hl. fold k in Hl.
  rewrite Hlookup in Hl. injection Hl as -> <-. unfold lookup_reply in *.
  destruct (kv_get k kv); [done|]. destruct (as_remote_index (cs_state (mb_service mb))) as [ri|] eqn:Hr; [|done].
  cbn in *. unfold remote_lookup in *. destruct (ri_map ri !! k) as [[|first infos]|] eqn:Hk; [done| |done]. cbn in *.
  pose proof (Forall_inv (Hri ri eq_refl k _ Hk)) as (a & ma & p & d & Ha & Hn & Hack & Hs & Ho).
  eexists _, a, ma, p, d. split; [reflexivity|]. cbn. do 5 (split; [done|]).
  intros greq hdr d' s'' Hgl Hgk Hbound Hget.
  pose proof (Hms ma (list_elem_of_lookup_2 _ _ _ Ha)) as [[Hfa Hspa _ _] Hruna _ _].
  pose proof (generation_tells_store sha256 crc32 pad Hpad Hcrc (mb_start ma) Hfa Hspa (mb_trace ma).*1
                greq hdr d' s'' p d (ri_generation first)) as Htell.
  rewrite Hruna in Htell. cbn [fst snd] in Htell. rewrite Hgk in Htell. by apply Htell.
Qed.

(** C24: Generations number the stores of one process only, and a process that is started again
    counts from the beginning (allocator.rs).  Stores acknowledged by two processes, of the
    same node or not, have the same generation exactly when each process had acknowledged
    as many before; and a Get answers with the number its own process gave to the store it
    serves.  So the answer of a restarted process can carry the generation that an older
    advertisement of its node promises for other data of the key: the witness reaches such
    a system. *)
Theorem restart_reuses_generations (e : E) (y : system E wire) (a b : nat) (ma mb : member wire)
    (Hreach : rtc (sys_step sha256 crc32 pad) (initial_system e) y)
    (Ha : sy_members y !! a = Some ma) (Hb : sy_members y !! b = Some mb)
    (Hna : lg_stores (ledger_of sha256 (mb_trace ma)) ≤ 2 ^ 64)
    (Hnb : lg_stores (ledger_of sha256 (mb_trace mb)) ≤ 2 ^ 64) :
  let before mb p := lg_stores (ledger_of sha256 (take p (mb_trace mb))) in
  ∀ p k d g, acked sha256 (mb_trace ma) p k d g →
    (∀ q k' d' g', acked sha256 (mb_trace mb) q k' d' g' → (g' = g ↔ before mb q = before ma p)) ∧
    (∀ greq hdr d' s', length (gr_prefix_hash greq) = 16%nat → get_key sha256 greq = k →
       get_now sha256 crc32 greq (mb_service mb) = (Ret (Ok [Ok (GetHeaderMsg hdr); Ok (GetData d')]), s') →
       ∃ q, acked sha256 (mb_trace mb) q k d' (gh_generation_id hdr) ∧
         (gh_generation_id hdr = g ↔ before mb q = before ma p)).
Proof using Hpad Hcrc CodecOk0.
  intros before p k d g Hp. destruct (sys_reachable e y Hreach) as [Hms _]. rewrite Forall_forall in Hms.
  pose proof (member_history _ _ (Hms ma (list_elem_of_lookup_2 _ _ _ Ha))) as Hha.
  pose proof (Hms mb (list_elem_of_lookup_2 _ _ _ Hb)) as Hmb. pose proof (member_history _ _ Hmb) as Hhb.
  assert (∀ q k' d' g', acked sha256 (mb_trace mb) q k' d' g' → (g' = g ↔ before mb q = before ma p)) as Hsame.
  { intros q k' d' g' Hq. rewrite (hi_numbered _ _ _ _ _ Hha _ _ _ _ Hp), (hi_numbered _ _ _ _ _ Hhb _ _ _ _ Hq).
    pose proof (acked_counts sha256 _ _ _ _ _ Hp). pose proof (acked_counts sha256 _ _ _ _ _ Hq).
    unfold before. split; [|by intros ->]. apply next_u64_inj; (split; [apply stores_nonneg|lia]). }
  split; [exact Hsame|]. intros greq hdr d' s' Hl Hk Hget. destruct Hmb as [[Hf Hsp _ _] Hrun _ _].
  pose proof (get_newest_store sha256 crc32 pad Hpad Hcrc (mb_start mb) Hf Hsp (mb_trace mb).*1 greq hdr d' s' Hl) as Hnew.
  rewrite Hrun in Hnew. cbn [fst snd] in Hnew. rewrite Hk in Hnew. destruct (Hnew Hget) as (q & Hq & _).
  exists q. split; [exact Hq|by eapply Hsame].
Qed.
End reachable.

(** *** Witnesses: node-a stores and publishes, node-b hears of it, node-a is started again *)
Definition env_of (node : string) : NodeEnv := mkNodeEnv (Some node) (0, as_bytes "host" ++ [0]).
Definition boot (node : string) (connected : result MemEtcd string) : Started MemEtcd :=
  match (startup toy_digest zero_mmap (env_of node) exporter_up connected config4 0).1 with
  | Ret (Ok st) => st
  | _ => mkStarted svc4 None None
  end.
Definition fresh_member (st : Started MemEtcd) : member toy_wire := mkMember (sd_service st) (sd_service st) [].
Definition toy_handle (rq : request toy_wire) : member toy_wire → member toy_wire := handle toy_digest sum_crc pad0 rq.
Definition key1 : bytes := composite_key toy_digest "" (hash 1).

(** The first process of node-a after its store, and the publication of the store *)
Definition boot_a1 : Started MemEtcd := boot "node-a" (Ok etcd0).
Definition etcd1 : MemEtcd := default etcd0 (sd_etcd boot_a1).
Definition node_a1 : member toy_wire := toy_handle (put_req "" (hash 1) [11; 12]) (fresh_member boot_a1).
Definition client_a1 : MetadataClient := default client_a (as_metadata (cs_state (sd_service boot_a1))).
Definition etcd2 : MemEtcd := (publish_task client_a1 (mkPublishTask key1 96 32 1) etcd1).2.
Definition report1 : list (watch_msg toy_wire) := put_msgs (block_key key1) etcd2.

(** node-b, without etcd, after the report, and node-a after its restart and another store *)
Definition node_b1 : member toy_wire :=
  foldl (λ mb m, toy_handle (ReqWatch m) mb) (fresh_member (boot "node-b" (Err "unreachable"))) report1.
Definition boot_a2 : Started MemEtcd := boot "node-a" (Ok etcd2).
Definition node_a2 : member toy_wire := toy_handle (put_req "" (hash 1) [9]) (fresh_member boot_a2).
Definition small_system : system MemEtcd toy_wire :=
  mkSystem (default etcd2 (sd_etcd boot_a2)) [node_a1; node_b1; node_a2] report1.

Lemma put_client_request data : client_request toy_digest (put_req "" (hash 1) data).
Proof.
  intros k d. unfold put_req. cbn. repeat case_match; intros; simplify_eq.
  split; [reflexivity|]. vm_compute. repeat (constructor; [done|]). constructor.
Qed.

Lemma boots e ms rs node connected :
  (∀ e0, connected = Ok e0 → e0 = e) →
  startup toy_digest zero_mmap (env_of node) exporter_up connected config4 0 = (Ret (Ok (boot node connected)), 1) →
  sys_step toy_digest sum_crc pad0 (mkSystem e ms rs)
    (mkSystem (default e (sd_etcd (boot node connected))) (ms ++ [fresh_member (boot node connected)]) rs).
Proof. intros He Hst. by eapply sys_start; [exact config4_usable|exact pool4_mmap|exact He|exact Hst]. Qed.

Lemma small_system_reachable :
  rtc (sys_step toy_digest sum_crc pad0) (initial_system etcd0) small_system.
Proof.
  eapply rtc_l; [apply (boots _ [] [] "node-a" (Ok etcd0)); [by intros e0 [= <-]|vm_compute; reflexivity]|].
  fold boot_a1 etcd1. cbn [app].
  eapply rtc_l; [apply (sys_serve _ _ _ _ [] _ [] [] _ (put_client_request [11; 12]))|]. cbn [app].
  eapply rtc_l.
  { apply (sys_publish _ _ _ _ _ [] node_a1 client_a1 (mkPublishTask key1 96 32 1) etcd2);
      [by left|vm_compute; reflexivity|vm_compute; by left|vm_compute; reflexivity]. }
  eapply rtc_l; [apply (boots _ _ _ "node-b" (Err "unreachable"%string)); [done|vm_compute; reflexivity]|]. cbn [app].
  eapply rtc_l; [apply (sys_watch _ _ _ _ [_] _ [] _ (hd (NodeMsg (Ok None)) report1)); left; by left|]. cbn [app].
  eapply rtc_l; [apply (boots _ _ _ "node-a" (Ok etcd2)); [by intros e0 [= <-]|vm_compute; reflexivity]|].
  fold boot_a2. cbn [app].
  eapply rtc_l; [apply (sys_serve _ _ _ _ [_; _] _ [] _ _ (put_client_request [9]))|]. cbn [app].
  apply rtc_refl_eq. vm_compute. reflexivity.
Qed.

(** node-b names a block of node-a, and some process of node-a has stored the data that a Get
    with the generation of the answer finds there. *)
Lemma remote_hit_leads_to_data_witness :
  ∃ ma p d, ma ∈ [node_a1; node_a2] ∧ acked toy_digest (mb_trace ma) p key1 d 1 ∧
    ∀ hdr d' s', get_now toy_digest sum_crc (get_req "" (hash 1)) (mb_service ma) =
        (Ret (Ok [Ok (GetHeaderMsg hdr); Ok (GetData d')]), s') →
      gh_generation_id hdr = 1 → d' = d.
Proof.
  set (req := mkLookupRequest (hash 1) 1 "").
  destruct (Grpc.lookup toy_digest req (mb_service node_b1)) as [o s'] eqn:Hl.
  assert (o = Ret (Ok (mkLookupResponse true [mkProtoLocation "node-a" 96 32 1] false))) as ->.
  { apply (f_equal fst) in Hl. revert Hl. vm_compute. by intros <-. }
  destruct (remote_hit_leads_to_data toy_digest sum_crc pad0 eq_refl sum_crc_range etcd0 small_system 1 node_b1 req _ s'
              small_system_reachable eq_refl eq_refl Hl eq_refl eq_refl)
    as (loc & a & ma & p & d & Hloc & Ha & Hn & Hack & _ & _ & Hget).
  injection Hloc as <-. assert (ma ∈ [node_a1; node_a2]) as Hma.
  { change (sy_members small_system) with [node_a1; node_b1; node_a2] in Ha.
    destruct a as [|[|[|a]]]; cbn -[node_a1 node_b1 node_a2] in Ha; [| | |done];
      apply (inj Some) in Ha as <-;
      [by left|exfalso; vm_compute in Hn; discriminate Hn|right; by left]. }
  exists ma, p, d. split; [exact Hma|]. split; [exact Hack|]. intros hdr d' s'' Hg Hgen.
  refine (proj1 (Hget _ hdr d' s'' _ _ _ Hg) Hgen); [reflexivity..|].
  apply list_elem_of_In in Hma as [<-|[<-|[]]]; by vm_compute.
Defined.

(** The generation that node-b got for the first data, with which the restarted node-a
    serves the second. *)
Lemma restart_reuses_generations_witness :
  ∃ hdr s', get_now toy_digest sum_crc (get_req "" (hash 1)) (mb_service node_a2) =
      (Ret (Ok [Ok (GetHeaderMsg hdr); Ok (GetData [9])]), s') ∧ gh_generation_id hdr = 1 ∧
    acked toy_digest (mb_trace node_a1) 0 key1 [11; 12] 1 ∧ name_of node_a1 = name_of node_a2.
Proof.
  assert (acked toy_digest (mb_trace node_a1) 0 key1 [11; 12] 1) as Ha.
  { eexists _, _, _. split; [vm_compute; reflexivity|]. split; vm_compute; reflexivity. }
  destruct (get_now toy_digest sum_crc (get_req "" (hash 1)) (mb_service node_a2)) as [o s'] eqn:Hg.
  assert (o = Ret (Ok [Ok (GetHeaderMsg (mkGetHeader 32 1 1)); Ok (GetData [9])])) as ->.
  { apply (f_equal fst) in Hg. revert Hg. vm_compute. by intros <-. }
  exists (mkGetHeader 32 1 1), s'. split; [exact (eq_refl _)|]. split; [|split; [exact Ha|reflexivity]].
  destruct (restart_reuses_generations toy_digest sum_crc pad0 eq_refl sum_crc_range etcd0 small_system 0 2 node_a1 node_a2
              small_system_reachable eq_refl eq_refl ltac:(by vm_compute) ltac:(by vm_compute) 0 key1 [11; 12] 1 Ha)
    as [_ Hsame].
  destruct (Hsame (get_req "" (hash 1)) _ _ _ eq_refl eq_refl Hg) as (q & (now & stream & resp & Hq & _) & Heq).
  apply Heq. assert (q = 0%nat) as ->; [|by vm_compute].
  apply lookup_lt_Some in Hq. vm_compute in Hq. lia.
Defined.
