(* ===== verification/Transport.v ===== *)
(** * Transports and the connection pool (crates/cmx-transport/src/)

    The [Transport] trait as a class, its two implementations ([MockTransport], and
    [NixlTransport] as built with the nixl feature, whose transfers are still stubs), and
    [ConnectionPool], whose theorem is proved against the laws of the interface.  Local
    buffers point into a byte array that stands for the process's registered memory. *)
From S2P Require Import Prelude Placement.
Local Open Scope Z_scope.

(** ** traits.rs *)
Abbreviation PeerId := string.

Record RemoteMemoryRegion := mkRemoteMemoryRegion {
  rm_peer : PeerId; rm_addr : Z; rm_size : Z; rm_rkey : Z }.

(** [ptr] is an offset into the local memory. *)
Record LocalBuffer := mkLocalBuffer { lb_ptr : Z; lb_size : Z; lb_lkey : Z }.

Inductive TransportError :=
  | ConnectionFailed (peer why : string)
  | TransferFailed (why : string)
  | PeerNotFound (peer : string)
  | Timeout (ms : Z)
  | NotAvailable (why : string).

Inductive TransportType := InfiniBand | RoCEv2 | Tcp | Mock.

Global Instance TransportType_eq_dec : EqDecision TransportType.
Proof. solve_decision. Defined.

(** [Display for TransportType]. *)
Definition transport_type_fmt (t : TransportType) : string :=
  match t with InfiniBand => "InfiniBand" | RoCEv2 => "RoCE v2" | Tcp => "TCP" | Mock => "Mock" end.

(** The trait.  Transfers also act on the local memory.  [transport_type] is a synchronous
    [try_read]: its first argument says whether a writer holds the lock at that moment. *)
Class Transport (T : Type) := {
  t_connect : PeerId → string → M T (result TransportType TransportError);
  t_disconnect : PeerId → M T (result unit TransportError);
  t_read : RemoteMemoryRegion → LocalBuffer → M (T * bytes) (result Z TransportError);
  t_write : LocalBuffer → RemoteMemoryRegion → M (T * bytes) (result Z TransportError);
  t_register_memory : Z → Z → M T (result Z TransportError);
  t_deregister_memory : Z → M T (result unit TransportError);
  t_transport_type : bool → PeerId → T → option TransportType;
}.

(** What the pool relies on: connecting and disconnecting answer without a panic, concern
    only their peer, and are what [transport_type] reports. *)
Class TransportOk (T : Type) `{Transport T} : Prop := {
  connect_spec p addr t : ∃ r t', t_connect p addr t = (Ret r, t') ∧
    (∀ q, t_transport_type false q t' =
       match r with
       | Ok ty => if bool_decide (q = p) then Some ty else t_transport_type false q t
       | Err _ => t_transport_type false q t
       end);
  disconnect_spec p t : ∃ r t', t_disconnect p t = (Ret r, t') ∧
    (∀ q, t_transport_type false q t' = if bool_decide (q = p) then None else t_transport_type false q t);
  transport_type_locked p t : t_transport_type true p t = None;
}.

(** ** mock.rs *)
Record MockTransport := mkMockTransport {
  mk_connections : gmap PeerId unit;
  mk_remote_memory : gmap (PeerId * Z) bytes;
  mk_next_lkey : Z;
}.

(** [MockTransport::new]. *)
Definition mock_new : MockTransport := mkMockTransport ∅ ∅ 1.
(** [MockTransport::default]. *)
Definition mock_default : MockTransport := mock_new.

(** [MockTransport::insert_remote_memory]. *)
Definition insert_remote_memory (peer : PeerId) (addr : Z) (data : bytes) (t : MockTransport) : MockTransport :=
  mkMockTransport (mk_connections t) (<[(peer, addr) := data]> (mk_remote_memory t)) (mk_next_lkey t).

Definition mock_connect (peer : PeerId) (_ : string) : M MockTransport (result TransportType TransportError) :=
  modify (λ t, mkMockTransport (<[peer := tt]> (mk_connections t)) (mk_remote_memory t) (mk_next_lkey t));;
  mret (Ok Mock).

Definition mock_disconnect (peer : PeerId) : M MockTransport (result unit TransportError) :=
  t ← gets (λ t, t);
  match mk_connections t !! peer with
  | None => mret (Err (PeerNotFound peer))
  | Some _ =>
      modify (λ t, mkMockTransport (delete peer (mk_connections t)) (mk_remote_memory t) (mk_next_lkey t));;
      mret (Ok tt)
  end.

(** [{:#x}] of a [u64]. *)
Fixpoint hex_digits (fuel : nat) (z : Z) (acc : list Ascii.ascii) : list Ascii.ascii :=
  match fuel with
  | O => acc
  | S fuel =>
      let acc := hex_digit (z `mod` 16) :: acc in
      if z / 16 =? 0 then acc else hex_digits fuel (z / 16) acc
  end.
Definition fmt_hex (z : Z) : string := "0x" +:+ String.string_of_list_ascii (hex_digits 16 z []).

(** [copy_nonoverlapping(data, local.ptr, n)] writes inside the process's memory or is
    undefined behaviour. *)
Definition mock_read (remote : RemoteMemoryRegion) (local : LocalBuffer) :
    M (MockTransport * bytes) (result Z TransportError) :=
  st ← gets (λ st, st);
  match mk_connections st.1 !! rm_peer remote with
  | None => mret (Err (PeerNotFound (rm_peer remote)))
  | Some _ =>
      match mk_remote_memory st.1 !! (rm_peer remote, rm_addr remote) with
      | None => mret (Err (TransferFailed ("no remote memory at addr " +:+ fmt_hex (rm_addr remote)
                                             +:+ " for peer " +:+ rm_peer remote)))
      | Some data =>
          let bytes_to_copy := Z.min (Z.min (lb_size local) (zlen data)) (as_usize (rm_size remote)) in
          if (0 <=? lb_ptr local) && (lb_ptr local + bytes_to_copy <=? zlen st.2) then
            modify (λ st, (st.1, blit (lb_ptr local) (slice 0 bytes_to_copy data) st.2));;
            mret (Ok bytes_to_copy)
          else undefined
      end
  end.

Definition mock_write (local : LocalBuffer) (remote : RemoteMemoryRegion) :
    M (MockTransport * bytes) (result Z TransportError) :=
  st ← gets (λ st, st);
  match mk_connections st.1 !! rm_peer remote with
  | None => mret (Err (PeerNotFound (rm_peer remote)))
  | Some _ =>
      let bytes_to_copy := Z.min (lb_size local) (as_usize (rm_size remote)) in
      if (0 <=? lb_ptr local) && (lb_ptr local + bytes_to_copy <=? zlen st.2) then
        modify (λ st, (insert_remote_memory (rm_peer remote) (rm_addr remote)
                         (slice (lb_ptr local) bytes_to_copy st.2) st.1, st.2));;
        mret (Ok bytes_to_copy)
      else undefined
  end.

(** [fetch_add] on an [AtomicU32]. *)
Definition mock_register_memory (_ _ : Z) : M MockTransport (result Z TransportError) :=
  lkey ← gets mk_next_lkey;
  modify (λ t, mkMockTransport (mk_connections t) (mk_remote_memory t) (as_u32 (lkey + 1)));;
  mret (Ok lkey).

Definition mock_deregister_memory (_ : Z) : M MockTransport (result unit TransportError) := mret (Ok tt).

Definition mock_transport_type (locked : bool) (peer : PeerId) (t : MockTransport) : option TransportType :=
  if locked then None
  else if bool_decide (is_Some (mk_connections t !! peer)) then Some Mock else None.

Global Instance MockTransport_transport : Transport MockTransport := {
  t_connect := mock_connect;
  t_disconnect := mock_disconnect;
  t_read := mock_read;
  t_write := mock_write;
  t_register_memory := mock_register_memory;
  t_deregister_memory := mock_deregister_memory;
  t_transport_type := mock_transport_type;
}.

(** ** nixl.rs, with the nixl feature *)
Record NixlConnection := mkNixlConnection { nc_transport_type : TransportType; nc_addr : string }.
Record NixlTransport := mkNixlTransport { nx_connections : gmap PeerId NixlConnection }.

(** [NixlTransport::new] with and without the feature. *)
Definition nixl_new : result NixlTransport string := Ok (mkNixlTransport ∅).
Definition nixl_stub_new : result NixlTransport string :=
  Err "NIXL transport not available. Build with --features nixl or use MockTransport."%string.

Definition nixl_connect (peer : PeerId) (addr : string) : M NixlTransport (result TransportType TransportError) :=
  modify (λ t, mkNixlTransport (<[peer := mkNixlConnection RoCEv2 addr]> (nx_connections t)));;
  mret (Ok RoCEv2).

Definition nixl_disconnect (peer : PeerId) : M NixlTransport (result unit TransportError) :=
  t ← gets (λ t, t);
  match nx_connections t !! peer with
  | None => mret (Err (PeerNotFound peer))
  | Some _ => modify (λ t, mkNixlTransport (delete peer (nx_connections t)));; mret (Ok tt)
  end.

(** Reads and writes report the size without moving data. *)
Definition nixl_transfer (remote : RemoteMemoryRegion) : M (NixlTransport * bytes) (result Z TransportError) :=
  st ← gets (λ st, st);
  match nx_connections st.1 !! rm_peer remote with
  | None => mret (Err (PeerNotFound (rm_peer remote)))
  | Some _ => mret (Ok (as_usize (rm_size remote)))
  end.

Definition nixl_register_memory (_ _ : Z) : M NixlTransport (result Z TransportError) := mret (Ok 0).
Definition nixl_deregister_memory (_ : Z) : M NixlTransport (result unit TransportError) := mret (Ok tt).

Definition nixl_transport_type (locked : bool) (peer : PeerId) (t : NixlTransport) : option TransportType :=
  if locked then None else nc_transport_type <$> nx_connections t !! peer.

Global Instance NixlTransport_transport : Transport NixlTransport := {
  t_connect := nixl_connect;
  t_disconnect := nixl_disconnect;
  t_read remote _ := nixl_transfer remote;
  t_write _ remote := nixl_transfer remote;
  t_register_memory := nixl_register_memory;
  t_deregister_memory := nixl_deregister_memory;
  t_transport_type := nixl_transport_type;
}.

(** ** pool.rs *)
Record ConnectionState := mkConnectionState {
  co_transport_type : TransportType; co_addr : string; co_connected_at : Z }.

Record ConnectionPool (T : Type) := mkConnectionPool {
  cp_transport : T;
  cp_connections : gmap PeerId ConnectionState;
}.
Arguments mkConnectionPool {T}.
Arguments cp_transport {T}.
Arguments cp_connections {T}.

Section pool.
Context {T : Type} `{!Transport T}.

Definition cpool_new (transport : T) : ConnectionPool T := mkConnectionPool transport ∅.

Definition on_transport {A} (m : M T A) : M (ConnectionPool T) A :=
  zoom cp_transport (λ t p, mkConnectionPool t (cp_connections p)) m.

(** [ConnectionPool::get_or_connect]; [now] is the clock. *)
Definition get_or_connect (now : Z) (peer : PeerId) (addr : string) :
    M (ConnectionPool T) (result TransportType TransportError) :=
  p ← gets (λ p, p);
  match cp_connections p !! peer with
  | Some entry => mret (Ok (co_transport_type entry))
  | None =>
      r ← on_transport (t_connect peer addr);
      match r with
      | Err e => mret (Err e)
      | Ok ty =>
          modify (λ p, mkConnectionPool (cp_transport p)
                         (<[peer := mkConnectionState ty addr now]> (cp_connections p)));;
          mret (Ok ty)
      end
  end.

(** [ConnectionPool::disconnect]. *)
Definition cpool_disconnect (peer : PeerId) : M (ConnectionPool T) (result unit TransportError) :=
  modify (λ p, mkConnectionPool (cp_transport p) (delete peer (cp_connections p)));;
  on_transport (t_disconnect peer).

(** [ConnectionPool::connected_peers]; the order is the map's. *)
Definition connected_peers (p : ConnectionPool T) : list PeerId := (map_to_list (cp_connections p)).*1.

(** One turn of [start_health_check]; [locked peer] is whether the connection table of the
    transport is being written when that peer is checked. *)
Definition health_check_turn (locked : PeerId → bool) (p : ConnectionPool T) : ConnectionPool T :=
  foldl (λ p peer,
      match t_transport_type (locked peer) peer (cp_transport p) with
      | None => mkConnectionPool (cp_transport p) (delete peer (cp_connections p))
      | Some _ => p
      end) p (connected_peers p).

(** [start_health_check] on a pool nothing else uses, after the ticks so far. *)
Definition start_health_check (ticks : list (PeerId → bool)) (p : ConnectionPool T) : ConnectionPool T :=
  foldl (λ p locked, health_check_turn locked p) p ticks.
End pool.

(** ** The implementations meet the interface *)
Lemma mock_type_eq p t : mock_transport_type false p t = (λ _, Mock) <$> mk_connections t !! p.
Proof. unfold mock_transport_type. by destruct (mk_connections t !! p). Qed.

(** A table of connections after connecting and disconnecting. *)
Lemma table_insert {A B} (f : A → B) (m : gmap PeerId A) p a q :
  f <$> <[p := a]> m !! q = if bool_decide (q = p) then Some (f a) else f <$> m !! q.
Proof.
  case_bool_decide as Hq; [subst; by rewrite lookup_insert_eq|]. by rewrite lookup_insert_ne.
Qed.
Lemma table_delete {A B} (f : A → B) (m : gmap PeerId A) p q :
  f <$> delete p m !! q = if bool_decide (q = p) then None else f <$> m !! q.
Proof.
  case_bool_decide as Hq; [subst; by rewrite lookup_delete_eq|]. by rewrite lookup_delete_ne.
Qed.
Lemma table_absent {A B} (f : A → B) (m : gmap PeerId A) p q :
  m !! p = None → f <$> m !! q = if bool_decide (q = p) then None else f <$> m !! q.
Proof. intros Hp. case_bool_decide; [subst; by rewrite Hp|done]. Qed.

Global Instance MockTransport_ok : TransportOk MockTransport.
Proof.
  split; [| |done].
  - intros p addr t. eexists _, _. split; [reflexivity|]. intros q.
    unfold t_transport_type, MockTransport_transport. rewrite !mock_type_eq. apply table_insert.
  - intros p t. unfold t_disconnect, t_transport_type, MockTransport_transport, mock_disconnect.
    munfold. destruct (mk_connections t !! p) eqn:Hp;
      (eexists _, _; split; [reflexivity|]; intros q; rewrite !mock_type_eq);
      [apply table_delete|by apply table_absent].
Qed.

Global Instance NixlTransport_ok : TransportOk NixlTransport.
Proof.
  split; [| |done].
  - intros p addr t. eexists _, _. split; [reflexivity|]. intros q. apply (table_insert nc_transport_type).
  - intros p t. unfold t_disconnect, NixlTransport_transport, nixl_disconnect.
    munfold. destruct (nx_connections t !! p) eqn:Hp;
      (eexists _, _; split; [reflexivity|]; intros q);
      [apply (table_delete nc_transport_type)|by apply (table_absent nc_transport_type)].
Qed.

(** ** The pool caches what the transport reports *)
Inductive pool_op :=
  | PConnect (now : Z) (peer : PeerId) (addr : string)
  | PDisconnect (peer : PeerId)
  | PHealthCheck (locked : PeerId → bool).

Section pool_laws.
Context {T : Type} `{!Transport T} `{!TransportOk T}.
Implicit Types (p : ConnectionPool T).

(** Each cached peer is connected, with the cached type. *)
Definition pool_sound p : Prop :=
  ∀ peer c, cp_connections p !! peer = Some c →
    t_transport_type false peer (cp_transport p) = Some (co_transport_type c).

Definition pool_apply (op : pool_op) p : ConnectionPool T :=
  match op with
  | PConnect now peer addr => (get_or_connect now peer addr p).2
  | PDisconnect peer => (cpool_disconnect peer p).2
  | PHealthCheck locked => health_check_turn locked p
  end.

Lemma get_or_connect_spec now peer addr p :
  pool_sound p →
  ∃ r p', get_or_connect now peer addr p = (Ret r, p') ∧ pool_sound p' ∧
    match r with
    | Ok ty => t_transport_type false peer (cp_transport p') = Some ty ∧ is_Some (cp_connections p' !! peer)
    | Err _ => cp_connections p' = cp_connections p
    end ∧
    (is_Some (cp_connections p !! peer) → p' = p).
Proof using TransportOk0.
  intros Hs. unfold get_or_connect. erewrite bind_Ret by reflexivity.
  destruct (cp_connections p !! peer) as [c|] eqn:Hc.
  { exists (Ok (co_transport_type c)), p. split; [done|]. split; [done|].
    split; [split; [by apply Hs|by eauto]|done]. }
  destruct (connect_spec peer addr (cp_transport p)) as (r & t' & Hr & Ht).
  erewrite bind_Ret by (unfold on_transport; apply zoom_Ret; exact Hr).
  destruct r as [ty|e].
  - eexists _, _. split; [reflexivity|]. split; [|split; [|by intros []]].
    + intros q c. cbn. rewrite Ht. destruct (decide (q = peer)) as [->|Hq].
      * rewrite lookup_insert_eq, bool_decide_true by done. by intros [= <-].
      * rewrite lookup_insert_ne, bool_decide_false by done. apply Hs.
    + cbn. rewrite Ht, bool_decide_true, lookup_insert_eq by done. by eauto.
  - eexists _, _. split; [reflexivity|]. split; [|split; [done|by intros []]].
    intros q c. cbn. rewrite Ht. apply Hs.
Qed.

Lemma cpool_disconnect_spec peer p :
  pool_sound p →
  ∃ r p', cpool_disconnect peer p = (Ret r, p') ∧ pool_sound p' ∧
    cp_connections p' = delete peer (cp_connections p) ∧
    t_transport_type false peer (cp_transport p') = None.
Proof using TransportOk0.
  intros Hs. unfold cpool_disconnect. erewrite bind_Ret by reflexivity.
  destruct (disconnect_spec peer (cp_transport p)) as (r & t' & Hr & Ht).
  eexists _, _. split; [unfold on_transport; apply zoom_Ret; exact Hr|]. split; [|split; [done|]].
  - intros q c. cbn. rewrite Ht. destruct (decide (q = peer)) as [->|Hq]; [by rewrite lookup_delete_eq|].
    rewrite lookup_delete_ne, bool_decide_false by done. apply Hs.
  - cbn. by rewrite Ht, bool_decide_true.
Qed.

(** A turn of the health check deletes the checked peers that look disconnected. *)
Lemma health_check_spec locked (peers : list PeerId) p :
  let p' := foldl (λ p peer,
      match t_transport_type (locked peer) peer (cp_transport p) with
      | None => mkConnectionPool (cp_transport p) (delete peer (cp_connections p))
      | Some _ => p
      end) p peers in
  cp_transport p' = cp_transport p ∧
  ∀ q, cp_connections p' !! q =
    if bool_decide (q ∈ peers ∧ t_transport_type (locked q) q (cp_transport p) = None) then None
    else cp_connections p !! q.
Proof.
  revert p. induction peers as [|peer peers IH]; intros p; cbn.
  { split; [done|]. intros q. rewrite bool_decide_false; [done|]. by intros [?%elem_of_nil _]. }
  destruct (t_transport_type (locked peer) peer (cp_transport p)) as [ty|] eqn:Hty.
  - destruct (IH p) as [Ht Hq]. split; [done|]. intros q. rewrite Hq.
    destruct (decide (q ∈ peers ∧ t_transport_type (locked q) q (cp_transport p) = None)) as [[Hin Hn]|Hno].
    + rewrite !bool_decide_true; [done|split; [by right|done]|done].
    + rewrite !bool_decide_false; [done|set_solver|done].
  - destruct (IH (mkConnectionPool (cp_transport p) (delete peer (cp_connections p)))) as [Ht Hq].
    split; [done|]. intros q. rewrite Hq. cbn [cp_transport cp_connections].
    destruct (decide (q = peer)) as [->|Hne].
    + rewrite lookup_delete_eq. rewrite (bool_decide_true (peer ∈ peer :: peers ∧ _)); [by case_bool_decide|].
      split; [apply list_elem_of_here|done].
    + rewrite lookup_delete_ne by done.
      rewrite (bool_decide_ext (q ∈ peer :: peers ∧ _) (q ∈ peers ∧ t_transport_type (locked q) q (cp_transport p) = None)); [done|].
      rewrite elem_of_cons. tauto.
Qed.

Lemma health_check_turn_spec locked p q :
  cp_transport (health_check_turn locked p) = cp_transport p ∧
  cp_connections (health_check_turn locked p) !! q =
    c ← cp_connections p !! q;
    if t_transport_type (locked q) q (cp_transport p) is Some _ then Some c else None.
Proof.
  destruct (health_check_spec locked (connected_peers p) p) as [Ht Hq]. split; [done|].
  etrans; [apply Hq|]. unfold connected_peers.
  destruct (cp_connections p !! q) as [c|] eqn:Hc; cbn; [|by case_bool_decide].
  assert (q ∈ (map_to_list (cp_connections p)).*1).
  { apply (list_elem_of_fmap_2 fst _ (q, c)). by apply elem_of_map_to_list. }
  destruct (t_transport_type (locked q) q (cp_transport p));
    [by rewrite bool_decide_false by naive_solver|by rewrite bool_decide_true].
Qed.

Lemma pool_apply_sound op p : pool_sound p → pool_sound (pool_apply op p).
Proof using TransportOk0.
  intros Hs. destruct op as [now peer addr|peer|locked]; cbn.
  - destruct (get_or_connect_spec now peer addr p Hs) as (r & p' & -> & Hs' & _). done.
  - destruct (cpool_disconnect_spec peer p Hs) as (r & p' & -> & Hs' & _). done.
  - intros q c. destruct (health_check_turn_spec locked p q) as [-> ->].
    intros (c0 & Hc0 & Hc)%bind_Some. destruct (t_transport_type (locked q) q _); [|done].
    simplify_eq. by apply Hs.
Qed.

Lemma pool_run_sound ops t :
  pool_sound (foldl (λ p op, pool_apply op p) (cpool_new t) ops).
Proof using TransportOk0.
  assert (pool_sound (cpool_new t)) as Hs by (intros peer c; cbn; by rewrite lookup_empty).
  revert Hs. generalize (cpool_new t). induction ops as [|op ops IH]; intros p Hs; cbn; [done|].
  by apply IH, pool_apply_sound.
Qed.
End pool_laws.

(** ** Properties *)

(** For every transport that meets the interface, whatever sequence of connects,
    disconnects and health checks runs on a pool: a cached connection is one the transport
    still has, with the cached type; a connect that answers a type leaves the peer cached
    and connected with that type, without a second connection when it was cached already;
    and after a disconnect the peer is neither cached nor connected. *)
Theorem connection_pool_sound {T : Type} `{!Transport T} `{!TransportOk T} (t : T) (ops : list pool_op)
    (now : Z) (peer : PeerId) (addr : string) :
  let p := foldl (λ p op, pool_apply op p) (cpool_new t) ops in
  pool_sound p ∧
  (∃ r p', get_or_connect now peer addr p = (Ret r, p') ∧
     match r with
     | Ok ty => t_transport_type false peer (cp_transport p') = Some ty ∧ is_Some (cp_connections p' !! peer)
     | Err _ => cp_connections p' = cp_connections p
     end ∧ (is_Some (cp_connections p !! peer) → p' = p)) ∧
  (∃ r p', cpool_disconnect peer p = (Ret r, p') ∧ cp_connections p' = delete peer (cp_connections p) ∧
     t_transport_type false peer (cp_transport p') = None).
Proof.
  intros p. pose proof (pool_run_sound ops t) as Hs. fold p in Hs. split; [done|]. split.
  - destruct (get_or_connect_spec now peer addr p Hs) as (r & p' & Hr & _ & H1 & H2). eauto 6.
  - destruct (cpool_disconnect_spec peer p Hs) as (r & p' & Hr & _ & H1 & H2). eauto 6.
Qed.

(** The health check removes exactly the peers whose transport looks disconnected at that
    moment; since the check is a [try_read], a peer that is checked while the transport's
    connection table is being written is dropped from the pool although it is connected. *)
Theorem health_check_exact {T : Type} `{!Transport T} `{!TransportOk T} (locked : PeerId → bool)
    (p : ConnectionPool T) (q : PeerId) :
  cp_transport (health_check_turn locked p) = cp_transport p ∧
  cp_connections (health_check_turn locked p) !! q =
    (if locked q then None
     else c ← cp_connections p !! q; if t_transport_type false q (cp_transport p) is Some _ then Some c else None).
Proof.
  destruct (health_check_turn_spec locked p q) as [Ht Hq]. split; [done|]. rewrite Hq.
  destruct (locked q); [|done]. rewrite transport_type_locked. by destruct (cp_connections p !! q).
Qed.

(** However many ticks, the health check keeps exactly the peers that the transport knows and
    that no tick found locked: once a tick dropped a peer, no later one brings it back. *)
Lemma health_check_settles {T : Type} `{!Transport T} `{!TransportOk T} (ticks : list (PeerId → bool))
    (p : ConnectionPool T) (q : PeerId) :
  ticks ≠ [] →
  cp_transport (start_health_check ticks p) = cp_transport p ∧
  cp_connections (start_health_check ticks p) !! q =
    (if existsb (λ locked, locked q) ticks then None
     else c ← cp_connections p !! q; if t_transport_type false q (cp_transport p) is Some _ then Some c else None).
Proof.
  induction ticks as [|locked ticks IH] using rev_ind; [done|intros _].
  unfold start_health_check. rewrite foldl_app, existsb_app. cbn [foldl existsb]. rewrite orb_false_r.
  fold (start_health_check ticks p). set (p' := start_health_check ticks p).
  destruct (health_check_turn_spec locked p' q) as [Ht Hq]. rewrite Ht, Hq.
  assert (cp_transport p' = cp_transport p ∧ cp_connections p' !! q =
    (if existsb (λ locked, locked q) ticks then None
     else if ticks is [] then cp_connections p !! q
     else c ← cp_connections p !! q; if t_transport_type false q (cp_transport p) is Some _ then Some c else None))
    as [Ht' Hq'].
  { subst p'. destruct ticks as [|l ls]; [done|]. destruct IH as [-> ->]; [done|]. split; [done|]. by case_match. }
  split; [done|]. rewrite Ht', Hq'. destruct (existsb _ ticks); [done|]. cbn [orb].
  destruct (locked q) eqn:Hl.
  { rewrite transport_type_locked. destruct (cp_connections p !! q), ticks; cbn; try done. by case_match. }
  destruct ticks; [done|]. destruct (cp_connections p !! q); [|done]. cbn.
  by destruct (t_transport_type false q (cp_transport p)).
Qed.

(** RDMA through the mock moves the bytes: after a write of a local buffer to a remote
    region, a read of that region into a second buffer copies as many bytes as all three
    sizes allow, the start of the second buffer then equals the start of the first one as
    it was written, and no other local byte changes. *)
Theorem mock_write_read (t : MockTransport) (mem : bytes) (src dst : LocalBuffer) (remote : RemoteMemoryRegion) :
  mk_connections t !! rm_peer remote = Some tt →
  0 ≤ lb_ptr src → lb_ptr src + lb_size src ≤ zlen mem → 0 ≤ lb_size src →
  0 ≤ lb_ptr dst → lb_ptr dst + lb_size dst ≤ zlen mem → 0 ≤ lb_size dst →
  ∃ t' n m mem',
    mock_write src remote (t, mem) = (Ret (Ok n), (t', mem)) ∧ n = Z.min (lb_size src) (as_usize (rm_size remote)) ∧
    mock_read remote dst (t', mem) = (Ret (Ok m), (t', mem')) ∧ m = Z.min (lb_size dst) n ∧
    slice (lb_ptr dst) m mem' = slice (lb_ptr src) m mem ∧
    (∀ off len, 0 ≤ off → off + len ≤ lb_ptr dst ∨ lb_ptr dst + m ≤ off →
       slice off len mem' = slice off len mem).
Proof.
  intros Hc Hs1 Hs2 Hs3 Hd1 Hd2 Hd3.
  assert (0 ≤ as_usize (rm_size remote)) as Hr by (pose proof (as_u64_range (rm_size remote)) as []; done).
  set (n := Z.min (lb_size src) (as_usize (rm_size remote))).
  set (data := slice (lb_ptr src) n mem).
  assert (zlen data = n) as Hn by (apply zlen_slice; lia).
  set (t' := insert_remote_memory (rm_peer remote) (rm_addr remote) data t).
  set (m := Z.min (lb_size dst) n).
  assert (zlen (slice 0 m data) = m) as Hm by (apply zlen_slice; lia).
  exists t', n, m, (blit (lb_ptr dst) (slice 0 m data) mem). split_and!.
  - unfold mock_write. erewrite bind_Ret by reflexivity. cbn [fst snd]. rewrite Hc. fold n.
    rewrite (proj2 (Z.leb_le _ _)), (proj2 (Z.leb_le _ _)) by lia. reflexivity.
  - done.
  - unfold mock_read. erewrite bind_Ret by reflexivity. cbn [fst snd]. cbn [t' insert_remote_memory mk_connections].
    rewrite Hc. cbn [t' insert_remote_memory mk_remote_memory]. rewrite lookup_insert_eq. rewrite Hn.
    replace (Z.min (Z.min (lb_size dst) n) (as_usize (rm_size remote))) with m by lia.
    rewrite (proj2 (Z.leb_le _ _)), (proj2 (Z.leb_le _ _)) by lia. reflexivity.
  - done.
  - rewrite <-Hm at 1. rewrite slice_blit_same by lia. unfold data. rewrite slice_slice by lia. f_equal. lia.
  - intros off len Ho Hsep. apply slice_blit_disjoint; rewrite ?Hm; lia.
Qed.

(** *** Witnesses *)
Definition mock1 : MockTransport := (mock_connect "peer-1" "10.0.0.2" mock_new).2.
Definition region1 : RemoteMemoryRegion := mkRemoteMemoryRegion "peer-1" 4096 8 1.

Lemma mock_write_read_witness :
  ∃ t' n m mem', mock_write (mkLocalBuffer 0 3 1) region1 (mock1, [1; 2; 3; 0; 0; 0]) = (Ret (Ok n), (t', [1; 2; 3; 0; 0; 0])) ∧
    mock_read region1 (mkLocalBuffer 3 3 1) (t', [1; 2; 3; 0; 0; 0]) = (Ret (Ok m), (t', mem')).
Proof.
  destruct (mock_write_read mock1 [1; 2; 3; 0; 0; 0] (mkLocalBuffer 0 3 1) (mkLocalBuffer 3 3 1) region1)
    as (t' & n & m & mem' & Hw & _ & Hr & _).
  all: try (vm_compute; done).
  by exists t', n, m, mem'.
Defined.

Lemma connection_pool_sound_witness :
  ∃ r p', get_or_connect 5 "peer-1" "10.0.0.2" (foldl (λ p op, pool_apply op p) (cpool_new mock_new)
            [PConnect 1 "peer-1" "10.0.0.2"; PDisconnect "peer-1"]) = (Ret r, p') ∧
    match r with
    | Ok ty => t_transport_type false "peer-1" (cp_transport p') = Some ty
    | Err _ => False
    end.
Proof.
  destruct (connection_pool_sound mock_new [PConnect 1 "peer-1" "10.0.0.2"; PDisconnect "peer-1"] 5 "peer-1" "10.0.0.2")
    as (_ & (r & p' & Hr & Hm & _) & _).
  exists r, p'. split; [exact Hr|]. destruct r as [ty|e]; [apply Hm|].
  apply (f_equal fst) in Hr. vm_compute in Hr. discriminate.
Defined.

Lemma health_check_exact_witness :
  let p := (get_or_connect 1 "peer-1" "10.0.0.2" (cpool_new mock_new)).2 in
  cp_connections (health_check_turn (λ _, true) p) !! "peer-1"%string = None ∧
  t_transport_type false "peer-1" (cp_transport (health_check_turn (λ _, true) p)) = Some Mock.
Proof.
  intros p. destruct (health_check_exact (λ _, true) p "peer-1") as [Ht Hq].
  split; [exact Hq|]. rewrite Ht. vm_compute. reflexivity.
Defined.
