(* ===== verification/ConcTransport.v ===== *)
(** * The connection pool under concurrent tasks

    The methods of [ConnectionPool] (crates/cmx-transport/src/pool.rs) are asynchronous and
    shared: a call gives up control at every await, and the health check runs beside the
    calls.  Here each method is split into its accesses to the cached connections and its
    calls of the transport, and a schedule interleaves the tasks.  A step carries what
    [try_read] of the transport's table answers at that moment.

    The file shows that an undisturbed task is the method, that every schedule ends with all
    calls answered, that entries of the pool become stale only by a race with a disconnect,
    and that a health check repairs them. *)
From S2P Require Import Prelude Placement Transport.
From stdpp Require Import relations.
Local Open Scope Z_scope.

(** ** Tasks *)

(** Where a call is, with its local variables. *)
Inductive cp_task :=
  | ConnGet (now : Z) (peer : PeerId) (addr : string)
  | ConnAwait (now : Z) (peer : PeerId) (addr : string)
  | ConnInsert (now : Z) (peer : PeerId) (addr : string) (ty : TransportType)
  | ConnDone (r : result TransportType TransportError)
  | DiscRemove (peer : PeerId)
  | DiscAwait (peer : PeerId)
  | DiscDone (r : result unit TransportError)
  | HealthStart
  | HealthLoop (peers : list PeerId)
  | HealthRemove (peer : PeerId) (peers : list PeerId)
  | HealthDone.

Definition cp_ended (t : cp_task) : bool :=
  match t with ConnDone _ | DiscDone _ | HealthDone => true | _ => false end.

Section tasks.
Context {T : Type} `{!Transport T}.
Implicit Types (p : ConnectionPool T).

Definition cache_insert (now : Z) (peer : PeerId) (addr : string) (ty : TransportType) p : ConnectionPool T :=
  mkConnectionPool (cp_transport p) (<[peer := mkConnectionState ty addr now]> (cp_connections p)).
Definition cache_remove (peer : PeerId) p : ConnectionPool T :=
  mkConnectionPool (cp_transport p) (delete peer (cp_connections p)).

(** The next access of a task; [locked peer]: a writer holds the transport's table. *)
Definition cp_action (locked : PeerId → bool) (t : cp_task) : M (ConnectionPool T) cp_task :=
  match t with
  | ConnGet now peer addr =>
      p ← gets (λ p, p);
      match cp_connections p !! peer with
      | Some entry => mret (ConnDone (Ok (co_transport_type entry)))
      | None => mret (ConnAwait now peer addr)
      end
  | ConnAwait now peer addr =>
      r ← on_transport (t_connect peer addr);
      match r with
      | Err e => mret (ConnDone (Err e))
      | Ok ty => mret (ConnInsert now peer addr ty)
      end
  | ConnInsert now peer addr ty => modify (cache_insert now peer addr ty);; mret (ConnDone (Ok ty))
  | DiscRemove peer => modify (cache_remove peer);; mret (DiscAwait peer)
  | DiscAwait peer => r ← on_transport (t_disconnect peer); mret (DiscDone r)
  | HealthStart => peers ← gets connected_peers; mret (HealthLoop peers)
  | HealthLoop [] => mret HealthDone
  | HealthLoop (peer :: peers) =>
      ty ← gets (λ p, t_transport_type (locked peer) peer (cp_transport p));
      match ty with
      | None => mret (HealthRemove peer peers)
      | Some _ => mret (HealthLoop peers)
      end
  | HealthRemove peer peers => modify (cache_remove peer);; mret (HealthLoop peers)
  | ConnDone r => mret (ConnDone r)
  | DiscDone r => mret (DiscDone r)
  | HealthDone => mret HealthDone
  end.

Definition cp_step (locked : PeerId → bool) (t : cp_task) p : option (cp_task * ConnectionPool T) :=
  if cp_ended t then None
  else match cp_action locked t p with (Ret t', p') => Some (t', p') | _ => None end.

Definition cp_config : Type := list cp_task * ConnectionPool T.

(** One step of the task [i]. *)
Definition cp_move (l : nat * (PeerId → bool)) (c : cp_config) : option cp_config :=
  t ← c.1 !! l.1; '(t', p') ← cp_step l.2 t c.2; Some (<[l.1 := t']> c.1, p').

Fixpoint cp_schedule (ls : list (nat * (PeerId → bool))) (c : cp_config) : option cp_config :=
  match ls with
  | [] => Some c
  | l :: ls => c' ← cp_move l c; cp_schedule ls c'
  end.
End tasks.

(** The task of a call. *)
Definition cp_starting (t : cp_task) : bool :=
  match t with ConnGet _ _ _ | DiscRemove _ | HealthStart => true | _ => false end.
(** The task still is, or was, a disconnect of [peer] before its last step. *)
Definition disconnects (peer : PeerId) (t : cp_task) : bool :=
  match t with DiscRemove q | DiscAwait q => bool_decide (q = peer) | _ => false end.

(** ** A task running alone *)
Section alone.
Context {T : Type} `{!Transport T} `{!TransportOk T}.
Implicit Types (p : ConnectionPool T).

Definition cp_local (locked : PeerId → bool) (x y : cp_task * ConnectionPool T) : Prop :=
  cp_step locked x.1 x.2 = Some y.

Lemma cp_next locked t t' p p' y :
  cp_ended t = false → cp_action locked t p = (Ret t', p') →
  rtc (cp_local locked) (t', p') y → rtc (cp_local locked) (t, p) y.
Proof. intros He Ha. apply rtc_l. unfold cp_local, cp_step. cbn [fst snd]. by rewrite He, Ha. Qed.

Lemma on_transport_connect peer addr p : ∃ r t',
  t_connect peer addr (cp_transport p) = (Ret r, t') ∧
  on_transport (t_connect peer addr) p = (Ret r, mkConnectionPool t' (cp_connections p)).
Proof.
  destruct (connect_spec peer addr (cp_transport p)) as (r & t' & Hr & _). exists r, t'. split; [done|].
  unfold on_transport, zoom. by rewrite Hr.
Qed.
Lemma on_transport_disconnect peer p : ∃ r t',
  t_disconnect peer (cp_transport p) = (Ret r, t') ∧
  on_transport (t_disconnect peer) p = (Ret r, mkConnectionPool t' (cp_connections p)).
Proof.
  destruct (disconnect_spec peer (cp_transport p)) as (r & t' & Hr & _). exists r, t'. split; [done|].
  unfold on_transport, zoom. by rewrite Hr.
Qed.

Lemma connect_alone locked now peer addr p r p' :
  get_or_connect now peer addr p = (Ret r, p') →
  rtc (cp_local locked) (ConnGet now peer addr, p) (ConnDone r, p').
Proof.
  unfold get_or_connect. intros Hg. erewrite bind_Ret in Hg by reflexivity.
  destruct (cp_connections p !! peer) as [c|] eqn:Hc.
  { injection Hg as <- <-. eapply cp_next; [done| |apply rtc_refl]. cbn. munfold. by rewrite Hc. }
  destruct (on_transport_connect peer addr p) as (r0 & t' & _ & Hr). rewrite (bind_Ret _ _ _ _ _ Hr) in Hg.
  eapply cp_next; [done|cbn; munfold; by rewrite Hc|].
  destruct r0 as [ty|e].
  - injection Hg as <- <-. eapply cp_next; [done|cbn; by rewrite (bind_Ret _ _ _ _ _ Hr)|].
    by eapply cp_next; [done| |apply rtc_refl].
  - injection Hg as <- <-. eapply cp_next; [done|cbn; by rewrite (bind_Ret _ _ _ _ _ Hr)|apply rtc_refl].
Qed.

Lemma disconnect_alone locked peer p r p' :
  cpool_disconnect peer p = (Ret r, p') → rtc (cp_local locked) (DiscRemove peer, p) (DiscDone r, p').
Proof.
  unfold cpool_disconnect. intros Hg. erewrite bind_Ret in Hg by reflexivity.
  eapply cp_next; [done|reflexivity|]. eapply cp_next; [done| |apply rtc_refl]. cbn.
  by rewrite (bind_Ret _ _ _ _ _ Hg).
Qed.

(** The loop of a health check over the peers it still has to look at. *)
Definition check_peers (locked : PeerId → bool) (peers : list PeerId) p : ConnectionPool T :=
  foldl (λ p peer,
      match t_transport_type (locked peer) peer (cp_transport p) with
      | None => cache_remove peer p
      | Some _ => p
      end) p peers.

Lemma loop_alone locked peers p :
  rtc (cp_local locked) (HealthLoop peers, p) (HealthDone, check_peers locked peers p).
Proof.
  revert p. induction peers as [|peer peers IH]; intros p; [by eapply cp_next; [done| |apply rtc_refl]|].
  cbn [check_peers foldl]. destruct (t_transport_type (locked peer) peer (cp_transport p)) eqn:Ht.
  - eapply cp_next; [done|cbn; munfold; by rewrite Ht|apply IH].
  - eapply cp_next; [done|cbn; munfold; by rewrite Ht|]. eapply cp_next; [done|reflexivity|apply IH].
Qed.

Lemma health_alone locked p :
  rtc (cp_local locked) (HealthStart, p) (HealthDone, health_check_turn locked p).
Proof. eapply cp_next; [done|reflexivity|apply loop_alone]. Qed.
End alone.

(** ** Schedules *)
Section schedules.
Context {T : Type} `{!Transport T} `{!TransportOk T}.
Implicit Types (p : ConnectionPool T) (c : cp_config (T := T)).

Lemma cp_move_inv l c c' : cp_move l c = Some c' → ∃ t t' p',
  c.1 !! l.1 = Some t ∧ cp_ended t = false ∧ cp_action l.2 t c.2 = (Ret t', p') ∧ c' = (<[l.1 := t']> c.1, p').
Proof.
  unfold cp_move, cp_step. destruct (c.1 !! l.1) as [t|] eqn:Ht; [|done]. cbn.
  destruct (cp_ended t) eqn:He; [done|]. destruct (cp_action l.2 t c.2) as [[t'| | |] p'] eqn:Ha; try done.
  cbn. intros [= <-]. by exists t, t', p'.
Qed.

Lemma cp_schedule_step locked i ls ts p t t' p' c :
  ts !! i = Some t → cp_ended t = false → cp_action locked t p = (Ret t', p') →
  cp_schedule ls (<[i := t']> ts, p') = Some c → cp_schedule ((i, locked) :: ls) (ts, p) = Some c.
Proof. intros Ht He Ha Hs. cbn. unfold cp_move, cp_step. cbn. rewrite Ht. cbn. by rewrite He, Ha. Qed.

Lemma cp_schedule_ind (P : cp_config (T := T) → Prop) ls c c' :
  (∀ l c c', cp_move l c = Some c' → P c → P c') → cp_schedule ls c = Some c' → P c → P c'.
Proof.
  intros Hstep. revert c. induction ls as [|l ls IH]; intros c; cbn; [by intros [= ->]|].
  destruct (cp_move l c) as [c1|] eqn:Hm; [|done]. cbn. eauto.
Qed.

(** Every access of a task that has not ended answers. *)
Lemma cp_action_answers locked t p : ∃ t' p', cp_action locked t p = (Ret t', p').
Proof using TransportOk0.
  destruct t as [now peer addr|now peer addr|now peer addr ty|r|peer|peer|r| |[|peer peers]|peer peers|]; cbn; munfold;
    try by eexists _, _.
  - destruct (cp_connections p !! peer); by eexists _, _.
  - destruct (on_transport_connect peer addr p) as ([] & t' & _ & Hr); rewrite Hr; by eexists _, _.
  - destruct (on_transport_disconnect peer p) as (r & t' & _ & Hr); rewrite Hr; by eexists _, _.
  - destruct (t_transport_type (locked peer) peer (cp_transport p)); by eexists _, _.
Qed.

Lemma cp_moves c i t locked : c.1 !! i = Some t → cp_ended t = false → is_Some (cp_move (i, locked) c).
Proof using TransportOk0.
  intros Ht He. unfold cp_move, cp_step. cbn. rewrite Ht. cbn. rewrite He.
  destruct (cp_action_answers locked t c.2) as (t' & p' & ->). by eexists.
Qed.

(** *** Termination *)

(** A bound on the accesses left, when at most [n] peers are ever cached. *)
Definition cp_weight (n : nat) (t : cp_task) : nat :=
  (match t with
  | ConnGet _ _ _ => 3
  | ConnAwait _ _ _ => 2
  | ConnInsert _ _ _ _ => 1
  | DiscRemove _ => 2
  | DiscAwait _ => 1
  | HealthStart => 2 * n + 2
  | HealthLoop peers => 2 * length peers + 1
  | HealthRemove _ peers => 2 * length peers + 2
  | ConnDone _ | DiscDone _ | HealthDone => 0
  end)%nat.
Definition pending (t : cp_task) : nat :=
  match t with ConnGet _ _ _ | ConnAwait _ _ _ | ConnInsert _ _ _ _ => 1 | _ => 0 end.

Lemma sum_insert (f : cp_task → nat) ts i t t' :
  ts !! i = Some t → (sum_list (f <$> <[i := t']> ts) + f t = sum_list (f <$> ts) + f t')%nat.
Proof.
  revert i. induction ts as [|u ts IH]; intros i Hi; [done|]. destruct i as [|i]; [apply (inj Some) in Hi as ->; cbn; lia|].
  specialize (IH i Hi). change (<[S i := t']> (u :: ts)) with (u :: <[i := t']> ts). rewrite !fmap_cons. cbn [sum_list]. lia.
Qed.

Lemma action_effect locked t t' p p' n :
  cp_ended t = false → cp_action locked t p = (Ret t', p') → (size (cp_connections p) ≤ n)%nat →
  (cp_weight n t' < cp_weight n t)%nat ∧
  (size (cp_connections p') + pending t' ≤ size (cp_connections p) + pending t)%nat.
Proof using TransportOk0.
  intros He Ha Hn.
  destruct t as [now peer addr|now peer addr|now peer addr ty|r|peer|peer|r| |[|peer peers]|peer peers|]; cbn in He; try done;
    revert Ha; cbn; munfold; intros Ha.
  - destruct (cp_connections p !! peer); injection Ha as <- <-; cbn; lia.
  - destruct (on_transport_connect peer addr p) as (r & t0 & _ & Hr). rewrite Hr in Ha.
    destruct r; injection Ha as <- <-; cbn; lia.
  - injection Ha as <- <-. cbn. split; [lia|]. rewrite map_size_insert. case_match; unfold id; lia.
  - injection Ha as <- <-. cbn. split; [lia|]. rewrite map_size_delete. case_match; unfold id; lia.
  - destruct (on_transport_disconnect peer p) as (r & t0 & _ & Hr). rewrite Hr in Ha.
    injection Ha as <- <-; cbn; lia.
  - injection Ha as <- <-. cbn. unfold connected_peers. rewrite length_fmap, length_map_to_list. lia.
  - injection Ha as <- <-. cbn. lia.
  - destruct (t_transport_type _ _ _); injection Ha as <- <-; cbn; lia.
  - injection Ha as <- <-. cbn. rewrite map_size_delete. case_match; unfold id; lia.
Qed.

Lemma schedule_bound n ls c c' :
  (size (cp_connections c.2) + sum_list (pending <$> c.1) ≤ n)%nat → cp_schedule ls c = Some c' →
  (length ls + sum_list (cp_weight n <$> c'.1) ≤ sum_list (cp_weight n <$> c.1))%nat.
Proof using TransportOk0.
  revert c. induction ls as [|l ls IH]; intros c Hn; cbn; [intros [= ->]; lia|].
  destruct (cp_move l c) as [c1|] eqn:Hm; [|done]. cbn. intros Hs.
  apply cp_move_inv in Hm as (t & t' & p' & Ht & He & Ha & ->).
  destruct (action_effect l.2 t t' c.2 p' n He Ha ltac:(lia)) as [Hw Hp].
  pose proof (sum_insert (cp_weight n) c.1 l.1 t t' Ht). pose proof (sum_insert pending c.1 l.1 t t' Ht).
  specialize (IH (<[l.1 := t']> c.1, p')). cbn [fst snd] in IH. specialize (IH ltac:(lia) Hs). lia.
Qed.

(** *** Stale entries *)

Definition connected (q : PeerId) p : Prop := is_Some (t_transport_type false q (cp_transport p)).

(** The peer a connecting task works for. *)
Definition connects (t : cp_task) : option PeerId :=
  match t with ConnGet _ q _ | ConnAwait _ q _ | ConnInsert _ q _ _ => Some q | _ => None end.

(** What the current state [t] of a task that started as [t0] says about peer [q]. *)
Definition follows (q : PeerId) p (t0 t : cp_task) : Prop :=
  disconnects q t = false ∧
  match t with
  | ConnGet _ _ _ | ConnAwait _ _ _ => connects t = connects t0
  | ConnInsert _ _ _ _ => connects t = connects t0 ∧ (connects t = Some q → connected q p)
  | ConnDone (Ok _) => connects t0 = Some q → connected q p
  | _ => True
  end.
Definition peer_inv (q : PeerId) (ts0 : list cp_task) c : Prop :=
  Forall2 (follows q c.2) ts0 c.1 ∧ (is_Some (cp_connections c.2 !! q) → connected q c.2).

Lemma follows_mono q p p' t0 t : (connected q p → connected q p') → follows q p t0 t → follows q p' t0 t.
Proof. intros Hp [Hd Hf]. split; [done|]. destruct t as [| | |[]| | | | | | |]; naive_solver. Qed.

Lemma follows_step q p p' locked t0 t t' :
  follows q p t0 t → (is_Some (cp_connections p !! q) → connected q p) →
  cp_ended t = false → cp_action locked t p = (Ret t', p') →
  follows q p' t0 t' ∧ (connected q p → connected q p') ∧ (is_Some (cp_connections p' !! q) → connected q p').
Proof using TransportOk0.
  intros [Hd Hf] Hc He Ha.
  destruct t as [now peer addr|now peer addr|now peer addr ty|r|peer|peer|r| |[|peer peers]|peer peers|]; cbn in He; try done;
    revert Ha; cbn; munfold; intros Ha.
  - destruct (cp_connections p !! peer) as [e|] eqn:Hp; injection Ha as <- <-; [|done].
    split; [|done]. split; [done|]. cbn in *. intros Hq. apply Hc. rewrite <-Hf in Hq. injection Hq as ->. by eexists.
  - destruct (connect_spec peer addr (cp_transport p)) as (r & t1 & Hr & Hty).
    assert (on_transport (t_connect peer addr) p = (Ret r, mkConnectionPool t1 (cp_connections p))) as Hon
      by (unfold on_transport, zoom; by rewrite Hr).
    rewrite Hon in Ha.
    assert (connected q p → connected q (mkConnectionPool t1 (cp_connections p))) as Hkeep.
    { unfold connected. cbn. rewrite Hty. destruct r; [|done]. by case_bool_decide. }
    destruct r as [ty|e]; injection Ha as <- <-; (split; [|split; [done|intros Hq; by apply Hkeep, Hc]]); split; try done.
    split; [done|]. intros [= ->]. unfold connected. cbn. rewrite Hty. by rewrite bool_decide_true.
  - injection Ha as <- <-. cbn in *. destruct Hf as [Hf Hcn]. split; [split; [done|]; cbn; rewrite <-Hf; exact Hcn|].
    split; [done|]. destruct (decide (q = peer)) as [->|Hne]; [intros _; by apply Hcn|].
    rewrite lookup_insert_ne by done. exact Hc.
  - injection Ha as <- <-. split; [done|]. split; [done|]. cbn. intros Hq. apply Hc.
    by rewrite lookup_delete_is_Some in Hq; destruct Hq.
  - cbn in Hd. destruct (disconnect_spec peer (cp_transport p)) as (r & t1 & Hr & Hty).
    assert (on_transport (t_disconnect peer) p = (Ret r, mkConnectionPool t1 (cp_connections p))) as Hon
      by (unfold on_transport, zoom; by rewrite Hr).
    rewrite Hon in Ha. injection Ha as <- <-.
    assert (connected q p → connected q (mkConnectionPool t1 (cp_connections p))) as Hkeep.
    { unfold connected. cbn. rewrite Hty. rewrite bool_decide_false; [done|]. apply bool_decide_eq_false in Hd. congruence. }
    split; [done|]. split; [done|]. intros Hq. by apply Hkeep, Hc.
  - injection Ha as <- <-. done.
  - injection Ha as <- <-. done.
  - destruct (t_transport_type _ _ _); injection Ha as <- <-; done.
  - injection Ha as <- <-. split; [done|]. split; [done|]. cbn. intros Hq. apply Hc.
    by rewrite lookup_delete_is_Some in Hq; destruct Hq.
Qed.

Lemma peer_inv_move q ts0 l c c' : cp_move l c = Some c' → peer_inv q ts0 c → peer_inv q ts0 c'.
Proof using TransportOk0.
  intros (t & t' & p' & Ht & He & Ha & ->)%cp_move_inv [Hf Hc].
  destruct (Forall2_lookup_r _ _ _ _ _ Hf Ht) as (t0 & Ht0 & Hft).
  destruct (follows_step q c.2 p' l.2 t0 t t' Hft Hc He Ha) as (Hft' & Hkeep & Hc').
  split; [|done]. cbn. rewrite <-(list_insert_id ts0 l.1 t0 Ht0). apply Forall2_insert; [|done].
  eapply Forall2_impl; [exact Hf|]. intros u0 u. by apply follows_mono.
Qed.
End schedules.

(** A health check without locks keeps exactly the cached peers that are connected. *)
Lemma check_peers_cache {T} `{!Transport T} locked peers (p : ConnectionPool T) :
  cp_transport (check_peers locked peers p) = cp_transport p ∧
  (∀ q, cp_connections (check_peers locked peers p) !! q =
     if decide (q ∈ peers ∧ t_transport_type (locked q) q (cp_transport p) = None) then None
     else cp_connections p !! q).
Proof.
  revert p. induction peers as [|peer peers IH]; intros p; cbn [check_peers foldl].
  { split; [done|]. intros q. rewrite decide_False; [done|]. by intros [Hq%not_elem_of_nil _]. }
  destruct (t_transport_type (locked peer) peer (cp_transport p)) as [ty|] eqn:Ht.
  - destruct (IH p) as [Htr Hc]. split; [done|]. intros q. rewrite Hc. apply decide_ext.
    rewrite elem_of_cons. naive_solver congruence.
  - destruct (IH (cache_remove peer p)) as [Htr Hc]. split; [done|]. intros q. rewrite Hc.
    destruct (decide (q = peer)) as [->|Hne].
    + cbn. rewrite lookup_delete_eq. rewrite (decide_True (P := peer ∈ peer :: peers ∧ _)).
      * by case_decide.
      * split; [apply list_elem_of_here|done].
    + cbn. rewrite lookup_delete_ne by done. apply decide_ext. rewrite elem_of_cons. naive_solver.
Qed.

Lemma elem_of_connected_peers {T} (p : ConnectionPool T) q :
  q ∈ connected_peers p ↔ is_Some (cp_connections p !! q).
Proof.
  unfold connected_peers. rewrite list_elem_of_fmap. split.
  - intros ([q' c] & -> & Hq%elem_of_map_to_list). by exists c.
  - intros [c Hc]. exists (q, c). split; [done|]. by apply elem_of_map_to_list.
Qed.

(** ** Properties *)

(** A call of the pool whose task is not interleaved with others is the method: a connect,
    a disconnect and a turn of the health check give the results and the pool of
    [get_or_connect], [cpool_disconnect] and [health_check_turn]. *)
Theorem undisturbed_call_is_method {T} `{!Transport T} `{!TransportOk T} (p : ConnectionPool T)
    (locked : PeerId → bool) (now : Z) (peer : PeerId) (addr : string) :
  (∃ r p', get_or_connect now peer addr p = (Ret r, p') ∧
     rtc (cp_local locked) (ConnGet now peer addr, p) (ConnDone r, p')) ∧
  (∃ r p', cpool_disconnect peer p = (Ret r, p') ∧
     rtc (cp_local locked) (DiscRemove peer, p) (DiscDone r, p')) ∧
  rtc (cp_local locked) (HealthStart, p) (HealthDone, health_check_turn locked p).
Proof.
  split_and!; [| |apply health_alone].
  - destruct (get_or_connect now peer addr p) as [o p'] eqn:Hg.
    assert (∃ r, o = Ret r) as [r ->].
    { revert Hg. unfold get_or_connect. munfold. destruct (cp_connections p !! peer); [intros [= <- _]; by eexists|].
      destruct (on_transport_connect peer addr p) as ([] & t' & _ & ->); intros [= <- _]; by eexists. }
    exists r, p'. split; [done|]. by apply connect_alone.
  - destruct (on_transport_disconnect peer (cache_remove peer p)) as (r & t' & _ & Hr).
    assert (cpool_disconnect peer p = (Ret r, mkConnectionPool t' (cp_connections (cache_remove peer p)))) as Hd by exact Hr.
    eexists r, _. split; [exact Hd|]. by apply disconnect_alone.
Qed.

(** Concurrent calls of the pool end.  With [n] the number of peers cached plus the number
    of connects, every schedule of connects, disconnects and health checks has at most
    three, two and [2n + 2] accesses per call; whatever ran, a call that has not ended can
    move; so a schedule that cannot be extended has answered every call. *)
Theorem pool_calls_terminate {T} `{!Transport T} `{!TransportOk T} (ts : list cp_task) (p : ConnectionPool T)
    (ls : list (nat * (PeerId → bool))) (c : cp_config) :
  cp_schedule ls (ts, p) = Some c →
  let n := (size (cp_connections p) + sum_list (pending <$> ts))%nat in
  (length ls ≤ sum_list (cp_weight n <$> ts))%nat ∧
  ((∀ l, cp_move l c = None) → Forall (λ t, cp_ended t = true) c.1).
Proof.
  intros Hs n. split.
  - pose proof (schedule_bound n ls (ts, p) c) as Hb. cbn [fst snd] in Hb. specialize (Hb ltac:(lia) Hs). lia.
  - intros Hstuck. apply Forall_forall. intros t [i Hi]%list_elem_of_lookup.
    destruct (cp_ended t) eqn:He; [done|].
    destruct (cp_moves c i t (λ _, false) Hi He) as [c' Hc']. by rewrite Hstuck in Hc'.
Qed.


(** C22: The race, and its repair.  A connect of a peer that is suspended after the transport
    connected, a disconnect of the same peer that runs completely, and then the rest of the
    connect: both calls succeed, but the pool caches a peer the transport does not have.
    From then on [get_or_connect] reports the peer as connected without connecting it, and
    every read fails, until a turn of the health check removes the entry; and a turn that
    meets no writer keeps exactly the entries of connected peers. *)
Theorem connect_disconnect_race (t : MockTransport) (cache : gmap PeerId ConnectionState)
    (now : Z) (peer : PeerId) (addr : string) (locked : PeerId → bool) :
  cache !! peer = None →
  let p := mkConnectionPool t cache in
  ∃ p',
    cp_schedule ((λ i, (i, locked)) <$> [0; 0; 1; 1; 0]%nat) ([ConnGet now peer addr; DiscRemove peer], p) =
      Some ([ConnDone (Ok Mock); DiscDone (Ok tt)], p') ∧
    (∀ now' addr', get_or_connect now' peer addr' p' = (Ret (Ok Mock), p')) ∧
    (∀ remote local memory, rm_peer remote = peer →
       mock_read remote local (cp_transport p', memory) = (Ret (Err (PeerNotFound peer)), (cp_transport p', memory))) ∧
    (∀ q, cp_connections (health_check_turn (λ _, false) p') !! q =
       match mock_transport_type false q (cp_transport p') with Some _ => cp_connections p' !! q | None => None end) ∧
    cp_connections (health_check_turn (λ _, false) p') !! peer = None.
Proof.
  intros Hc p.
  set (t' := mkMockTransport (delete peer (<[peer := tt]> (mk_connections t))) (mk_remote_memory t) (mk_next_lkey t)).
  set (p' := mkConnectionPool t' (<[peer := mkConnectionState Mock addr now]> (delete peer cache))).
  assert (mock_transport_type false peer t' = None) as Hgone
    by (rewrite mock_type_eq; cbn; by rewrite lookup_delete_eq).
  assert (∀ q, cp_connections (health_check_turn (λ _, false) p') !! q =
            match mock_transport_type false q t' with Some _ => cp_connections p' !! q | None => None end) as Hturn.
  { intros q. destruct (check_peers_cache (λ _, false) (connected_peers p') p') as [_ Hck].
    etransitivity; [exact (Hck q)|]. cbn [t_transport_type MockTransport_transport cp_transport p'].
    destruct (mock_transport_type false q t') eqn:Hq; [by rewrite decide_False by naive_solver|].
    case_decide as Hd; [done|]. destruct (cp_connections p' !! q) eqn:Hl; [|done].
    exfalso. apply Hd. split; [|done]. apply elem_of_connected_peers. by rewrite Hl. }
  exists p'. split_and!.
  - cbn [fmap list_fmap].
    eapply cp_schedule_step; [done..|cbn; munfold; cbn; by rewrite Hc|].
    do 2 (eapply cp_schedule_step; [done..|reflexivity|]).
    eapply cp_schedule_step; [done..| |].
    { cbn. unfold on_transport, mock_disconnect. munfold. cbn. rewrite lookup_insert_eq. reflexivity. }
    eapply cp_schedule_step; [done..|reflexivity|]. done.
  - intros now' addr'. unfold get_or_connect. munfold. cbn. by rewrite lookup_insert_eq.
  - intros remote local memory <-. unfold mock_read. munfold. cbn. by rewrite lookup_delete_eq.
  - exact Hturn.
  - by rewrite Hturn, Hgone.
Qed.

(** *** Witnesses: one peer, two connects and a health check; the race on an empty pool *)
Definition pool0 : ConnectionPool MockTransport := cpool_new mock_new.
Definition unlocked : PeerId → bool := λ _, false.
Definition two_connects : list cp_task := [ConnGet 0 "node-1" "a"; ConnGet 0 "node-1" "a"; HealthStart].
Definition two_connects_run : list (nat * (PeerId → bool)) := (λ i, (i, unlocked)) <$> [0; 1; 0; 1; 0; 2; 1; 2; 2]%nat.

Lemma pool_calls_terminate_witness :
  ∃ c, cp_schedule two_connects_run (two_connects, pool0) = Some c ∧ Forall (λ t, cp_ended t = true) c.1.
Proof.
  destruct (cp_schedule two_connects_run (two_connects, pool0)) as [c|] eqn:Hs; [|by vm_compute in Hs].
  exists c. split; [done|]. destruct (pool_calls_terminate two_connects pool0 two_connects_run c Hs) as [_ Hend].
  apply Hend. intros [i locked]. vm_compute in Hs. injection Hs as <-.
  do 3 (destruct i as [|i]; [reflexivity|]). reflexivity.
Defined.


Lemma connect_disconnect_race_witness :
  ∃ p', cp_schedule ((λ i, (i, unlocked)) <$> [0; 0; 1; 1; 0]%nat) ([ConnGet 5 "node-1" "a"; DiscRemove "node-1"], pool0) =
      Some ([ConnDone (Ok Mock); DiscDone (Ok tt)], p') ∧
    get_or_connect 6 "node-1" "a" p' = (Ret (Ok Mock), p').
Proof.
  destruct (connect_disconnect_race mock_new ∅ 5 "node-1" "a" unlocked) as (p' & Hs & Hg & _); [reflexivity|].
  exists p'. split; [exact Hs|apply Hg].
Defined.
