(* ===== verification/Numa.v ===== *)
(** * NUMA placement and GPU registration (crates/cmx-memory/src/numa.rs, gpu.rs)

    With the numa feature: the node mask handed to [mbind], and the selection of a node from
    what the kernel and sysfs report; with the gpu feature: the call of [cudaHostRegister].
    The system calls, the file reads and the CUDA call are arguments.  Without a feature the
    functions are the constants at the end of each section. *)
From stdpp Require Import pretty.
From S2P Require Import Prelude Placement Utf8.
Local Open Scope Z_scope.

(** [numa_node_of_cpu]: [getcpu] is the return code, the CPU and the node of [SYS_getcpu]. *)
Definition numa_node_of_cpu (getcpu : Z * Z * Z) (cpu : Z) : Z :=
  let '(ret, cpu_id, node_id) := getcpu in
  if (ret =? 0) && (cpu_id =? cpu) then node_id else 0.

(** [content.trim().parse::<i32>()] of a device's numa_node file. *)
Definition parse_node (content : option bytes) : option Z :=
  match read_to_string content with
  | Some s => parse_i32 (trim (chars s))
  | None => None
  end.

(** [preferred_numa_node]: the entries of /sys/class/infiniband, [None] when the directory
    cannot be read; an entry that could not be read is [None], another one is the content of
    its device/numa_node, if that can be read. *)
Fixpoint first_node (entries : list (option (option bytes))) : Z :=
  match entries with
  | [] => 0
  | None :: entries => first_node entries
  | Some content :: entries =>
      match parse_node content with
      | Some node => if node >=? 0 then as_u32 node else first_node entries
      | None => first_node entries
      end
  end.
Definition preferred_numa_node (dir : option (list (option (option bytes)))) : Z :=
  match dir with Some entries => first_node entries | None => 0 end.

(** The mask of [numa_bind_memory]: [node / 64 + 1] words, and the bit count passed along. *)
Definition mask_size (node : Z) : Z := node / 64 + 1.
Definition nodemask (node : Z) : list Z :=
  let words := replicate (Z.to_nat (mask_size node)) 0 in
  let i := Z.to_nat (node / 64) in
  match words !! i with
  | Some w => <[i := Z.lor w (Z.shiftl 1 (node `mod` 64))]> words
  | None => words
  end.
Definition maxnode (node : Z) : Z := mask_size node * 64 + 1.

(** Whether bit [j] of a mask of 64-bit words is set. *)
Definition mask_bit (mask : list Z) (j : Z) : bool :=
  match mask !! Z.to_nat (j / 64) with Some w => Z.testbit w (j `mod` 64) | None => false end.

Definition MPOL_BIND : Z := 2.
Definition MPOL_MF_MOVE : Z := 2.

(** [numa_bind_memory]: [mbind] receives the range, the policy, the mask with its bit count and
    the flags, and answers its return code; [os_error] is the text of the last OS error. *)
Definition numa_bind_memory (mbind : Z → Z → Z → list Z → Z → Z → Z) (os_error : string) (ptr size node : Z) :
    result unit string :=
  let ret := mbind ptr size MPOL_BIND (nodemask node) (maxnode node) MPOL_MF_MOVE in
  if ret =? 0 then Ok tt else Err ("mbind failed: " +:+ os_error).

(** Without the numa feature. *)
Definition numa_node_of_cpu_stub (_ : Z) : Z := 0.
Definition preferred_numa_node_stub : Z := 0.
Definition numa_bind_memory_stub (_ _ _ : Z) : result unit string := Ok tt.

(** ** GPU registration *)
Definition CUDA_HOST_REGISTER_PORTABLE : Z := 1.
Definition CUDA_HOST_REGISTER_MAPPED : Z := 2.

(** [register_gpu_memory] with the gpu feature; [cuda_host_register] receives the pointer,
    the size and the flags. *)
Definition register_gpu_memory (cuda_host_register : Z → Z → Z → Z) (_device ptr size : Z) : result unit string :=
  let flags := Z.lor CUDA_HOST_REGISTER_PORTABLE CUDA_HOST_REGISTER_MAPPED in
  let ret := cuda_host_register ptr size flags in
  if ret =? 0 then Ok tt
  else Err ("cudaHostRegister failed with error code " +:+ pretty ret).

Definition register_gpu_memory_stub (_device _ptr _size : Z) : result unit string := Ok tt.

(** ** Properties *)

(** The nodes the devices report, in the order of the directory, without those that have
    none (-1). *)
Definition reported_nodes (dir : option (list (option (option bytes)))) : list Z :=
  filter (λ n, 0 ≤ n) (omap (λ entry, entry ≫= parse_node) (default [] dir)).

Lemma parse_i32_range cs n : parse_i32 cs = Some n → - 2 ^ 31 ≤ n < 2 ^ 31.
Proof.
  unfold parse_i32. repeat case_match; try done; intros; simplify_eq;
    match goal with H : _ && _ = true |- _ =>
      apply andb_true_iff in H as [?%Z.leb_le ?%Z.ltb_lt]; lia end.
Qed.

Lemma parse_node_range content n : parse_node content = Some n → - 2 ^ 31 ≤ n < 2 ^ 31.
Proof. unfold parse_node. destruct (read_to_string content); [|done]. apply parse_i32_range. Qed.

(** The preferred node is the first one a device reports, as it is, and 0 without any: the
    cast never wraps. *)
Theorem preferred_node_first_reported (dir : option (list (option (option bytes)))) :
  preferred_numa_node dir = default 0 (head (reported_nodes dir)) ∧
  0 ≤ preferred_numa_node dir < 2 ^ 31.
Proof.
  unfold preferred_numa_node, reported_nodes. destruct dir as [entries|]; [cbn [default]|done].
  induction entries as [|[content|] entries IH]; cbn; [done| |exact IH].
  destruct (parse_node content) as [n|] eqn:Hp; [|exact IH]. apply parse_node_range in Hp.
  rewrite Z.geb_leb. destruct (Z.leb_spec 0 n).
  - rewrite filter_cons_True by lia. cbn. rewrite as_u32_id by (unfold is_u32; lia). lia.
  - rewrite filter_cons_False by lia. exact IH.
Qed.

Example preferred_node_sysfs :
  preferred_numa_node (Some [Some (Some (as_bytes "-1
")); None; Some None; Some (Some (as_bytes "1
"))]) = 1.
Proof. vm_compute. reflexivity. Qed.

(** Registration succeeds exactly when CUDA returns 0, and asks for both flags. *)
Lemma register_gpu_memory_spec cuda device ptr size :
  register_gpu_memory cuda device ptr size = Ok tt ↔ cuda ptr size 3 = 0.
Proof.
  unfold register_gpu_memory. change (Z.lor _ _) with 3.
  destruct (Z.eqb_spec (cuda ptr size 3) 0); split; (done || naive_solver).
Qed.

Lemma nodemask_words node j :
  0 ≤ node → 0 ≤ j →
  nodemask node !! Z.to_nat (j / 64) =
    if bool_decide (j / 64 = node / 64) then Some (Z.shiftl 1 (node `mod` 64))
    else if bool_decide (j / 64 < mask_size node) then Some 0 else None.
Proof.
  intros Hn Hj. unfold nodemask, mask_size.
  assert (0 ≤ node / 64 ∧ 0 ≤ j / 64) as [??] by (split; apply Z.div_pos; lia).
  rewrite (lookup_replicate_2 _ _ (Z.to_nat (node / 64))) by lia. rewrite Z.lor_0_l.
  case_bool_decide as Heq.
  - rewrite Heq, list_lookup_insert_eq; [done|]. rewrite length_replicate. lia.
  - rewrite list_lookup_insert_ne by lia. case_bool_decide.
    + rewrite lookup_replicate_2 by lia. done.
    + rewrite lookup_ge_None_2; [done|]. rewrite length_replicate. lia.
Qed.

(** The mask passed to [mbind] selects exactly the requested node: bit [j] is set if and
    only if [j] is the node, every word fits 64 bits, the words are as many as needed, and
    the bit count covers the node. *)
Theorem nodemask_selects_node (node : Z) :
  is_u32 node →
  (∀ j, 0 ≤ j → mask_bit (nodemask node) j = true ↔ j = node) ∧
  Forall is_u64 (nodemask node) ∧ zlen (nodemask node) = mask_size node ∧
  node < maxnode node.
Proof.
  intros [Hn _]. assert (0 ≤ node `mod` 64 < 64) as Hmod by (apply Z.mod_pos_bound; lia).
  assert (0 ≤ node / 64) as Hdiv by (apply Z.div_pos; lia).
  split; [|split; [|split]].
  - intros j Hj. unfold mask_bit. rewrite nodemask_words by done.
    pose proof (Z.div_mod node 64 ltac:(lia)). pose proof (Z.div_mod j 64 ltac:(lia)).
    assert (0 ≤ j `mod` 64 < 64) by (apply Z.mod_pos_bound; lia).
    case_bool_decide as Heq.
    + rewrite Z.shiftl_1_l, Z.pow2_bits_eqb by lia. rewrite Z.eqb_eq. lia.
    + split; [|by intros ->]. case_bool_decide; [by rewrite Z.bits_0|done].
  - unfold nodemask. destruct (_ !! _) as [w|] eqn:Hw.
    + apply lookup_replicate in Hw as [-> _]. rewrite Z.lor_0_l, Z.shiftl_1_l.
      apply Forall_insert; [apply Forall_replicate; done|]. split; [lia|].
      apply Z.pow_lt_mono_r; lia.
    + apply Forall_replicate. done.
  - unfold nodemask, zlen, mask_size. destruct (_ !! _); rewrite ?length_insert, length_replicate; lia.
  - unfold maxnode, mask_size. pose proof (Z.div_mod node 64 ltac:(lia)). lia.
Qed.

Lemma nodemask_selects_node_witness : mask_bit (nodemask 70) 70 = true ∧ mask_bit (nodemask 70) 6 = false.
Proof.
  destruct (nodemask_selects_node 70) as [Hbit _]; [split; [lia|vm_compute; reflexivity]|].
  split; [by apply Hbit|]. destruct (mask_bit (nodemask 70) 6) eqn:Hb; [|done].
  apply Hbit in Hb; [discriminate|lia].
Defined.
