(* ===== verification/Conformance.v ===== *)
(** * The unit tests of the crates, run on the model

    Every [#[test]] of the crates is translated into a program over the model, with the
    assertions of the test as [assert];
    [unit_tests_pass] runs them all.  It validates the definitions of this library against
    the expectations the authors of the code wrote down.  The property-based test of the
    pool is a theorem about every sequence of operations instead of a random sample.

    The tests run with the checksum of Crc32 and the digests of Sha256; anonymous mappings
    are zero-filled. *)
From S2P Require Import Prelude Pool Crc32 Sha256 Block Allocator Policy Lru Index RemoteIndex Placement Float64 SocketAddr Utf8 Config Pressure Transport Numa.
From stdpp Require Import pretty.
From Stdlib Require Import Floats.SpecFloat.
Local Open Scope Z_scope.

(** ** Running tests *)

(** A test passes when it returns: no assertion failed and no index was out of range. *)
Definition passes {S A} (m : M S A) (s : S) : bool :=
  match m s with (Ret _, _) => true | _ => false end.

Definition assert_eq {S A} `{EqDecision A} (a b : A) : M S unit := assert (bool_decide (a = b)).

(** [Result::unwrap], [unwrap_err], [Option::is_none], [is_some], [Result::is_err]. *)
Definition unwrap_ok {S A E} (r : result A E) : M S A := match r with Ok a => mret a | Err _ => panic end.
Definition unwrap_err {S A E} (r : result A E) : M S E := match r with Ok _ => panic | Err e => mret e end.
Definition is_none {A} (o : option A) : bool := match o with None => true | Some _ => false end.
Definition is_err {A E} (r : result A E) : bool := match r with Err _ => true | Ok _ => false end.

(** Run a test on a value it owns. *)
Definition on_own {S T A} (s : S) (m : M S A) : M T A := λ t, ((m s).1, t).

(** A test that starts by building its pool. *)
Definition with_pool (total_size block_size : Z) (m : M MemoryPool unit) : M Z unit :=
  r ← pool_new zero_mmap total_size block_size;
  pool ← unwrap_ok r;
  on_own pool m.

(** ** pool.rs *)
Module PoolTests.
Definition BLOCK_SIZE : Z := 4096.
Definition NUM_BLOCKS : Z := 4.
Definition TOTAL_SIZE : Z := BLOCK_SIZE * NUM_BLOCKS.

(** [allocate().expect("should allocate")]. *)
Definition allocated : M MemoryPool BlockHandle := h ← allocate; unwrap h.
(** [get_slice_mut(&handle).fill(byte)]. *)
Definition fill (handle : BlockHandle) (byte : Z) : M MemoryPool unit :=
  view ← get_slice_mut handle; view_copy view 0 view.2 (replicate (Z.to_nat view.2) byte).

Definition allocate_deallocate_cycle : M Z unit := with_pool TOTAL_SIZE BLOCK_SIZE (
  handle ← allocated;
  assert_eq (bh_size handle) BLOCK_SIZE;;
  stats ← pool_stats;
  assert_eq (ps_used_blocks stats) 1;;
  assert_eq (ps_free_blocks stats) (NUM_BLOCKS - 1);;
  deallocate handle;;
  stats ← pool_stats;
  assert_eq (ps_used_blocks stats) 0;;
  assert_eq (ps_free_blocks stats) NUM_BLOCKS).

Definition pool_exhaustion_returns_none : M Z unit := with_pool TOTAL_SIZE BLOCK_SIZE (
  _ ← allocated; _ ← allocated; _ ← allocated; last ← allocated;
  h ← allocate; assert (is_none h);;
  deallocate last;;
  h ← allocate; assert (negb (is_none h))).

Definition double_deallocate_is_safe : M Z unit := with_pool TOTAL_SIZE BLOCK_SIZE (
  handle ← allocated;
  deallocate handle;;
  deallocate handle;;
  stats ← pool_stats;
  assert_eq (ps_free_blocks stats) (NUM_BLOCKS + 1);;
  assert_eq (ps_used_blocks stats) 0).

Definition read_write_through_block_handles : M Z unit := with_pool TOTAL_SIZE BLOCK_SIZE (
  handle ← allocated;
  let pattern := (λ i, i `mod` 256) <$> seqZ 0 BLOCK_SIZE in
  view ← get_slice_mut handle;
  view_copy view 0 view.2 pattern;;
  slice ← get_slice handle;
  assert_eq slice pattern;;
  deallocate handle).

Definition stats_accuracy : M Z unit := with_pool TOTAL_SIZE BLOCK_SIZE (
  stats ← pool_stats;
  assert_eq (ps_total_blocks stats) NUM_BLOCKS;;
  assert_eq (ps_used_blocks stats) 0;;
  assert_eq (ps_free_blocks stats) NUM_BLOCKS;;
  assert_eq (ps_total_bytes stats) TOTAL_SIZE;;
  assert_eq (ps_used_bytes stats) 0;;
  h1 ← allocated;
  h2 ← allocated;
  stats ← pool_stats;
  assert_eq (ps_used_blocks stats) 2;;
  assert_eq (ps_used_bytes stats) (2 * BLOCK_SIZE);;
  deallocate h1;;
  deallocate h2).

Definition zero_block_size_is_error : M Z unit := r ← pool_new zero_mmap 4096 0; assert (is_err r).
Definition misaligned_total_size_is_error : M Z unit := r ← pool_new zero_mmap 4097 4096; assert (is_err r).
Definition zero_total_size_is_error : M Z unit := r ← pool_new zero_mmap 0 4096; assert (is_err r).

Definition blocks_have_distinct_memory : M Z unit := with_pool TOTAL_SIZE BLOCK_SIZE (
  h1 ← allocated;
  h2 ← allocated;
  fill h1 170;;
  fill h2 187;;
  s1 ← get_slice h1;
  assert (forallb (Z.eqb 170) s1);;
  s2 ← get_slice h2;
  assert (forallb (Z.eqb 187) s2);;
  deallocate h1;;
  deallocate h2).

Definition all : list (M Z unit) :=
  [allocate_deallocate_cycle; pool_exhaustion_returns_none; double_deallocate_is_safe;
   read_write_through_block_handles; stats_accuracy; zero_block_size_is_error;
   misaligned_total_size_is_error; zero_total_size_is_error; blocks_have_distinct_memory].

(** *** The property-based test *)
Inductive Op := Allocate | Deallocate.

(** The loop over the operations, with the vector of live handles. *)
Fixpoint ops_loop (ops : list Op) (live_handles : list BlockHandle) : M MemoryPool (list BlockHandle) :=
  match ops with
  | [] => mret live_handles
  | Allocate :: ops =>
      h ← allocate;
      match h with
      | Some handle => fill handle 205;; ops_loop ops (vec_push handle live_handles)
      | None => ops_loop ops live_handles
      end
  | Deallocate :: ops =>
      match vec_pop live_handles with
      | Some (handle, live_handles) => deallocate handle;; ops_loop ops live_handles
      | None => ops_loop ops live_handles
      end
  end.

Definition random_alloc_dealloc_sequences (ops : list Op) : M Z unit :=
  let block_size := 128 in
  let num_blocks := 16 in
  with_pool (block_size * num_blocks) block_size (
    live_handles ← ops_loop ops [];
    stats ← pool_stats;
    assert_eq (ps_used_blocks stats) (zlen live_handles);;
    assert_eq (ps_free_blocks stats) (num_blocks - zlen live_handles);;
    foldr (λ h k, deallocate h;; k) (mret tt) live_handles).
End PoolTests.

(** What the steps of the loop do to a client. *)
Lemma client_inv_perm p live live' : live ≡ₚ live' → client_inv (p, live) → client_inv (p, live').
Proof.
  intros Hp [Hwf Hf Ho Hh]. cbn in *. split; cbn; [done|done| |by rewrite <- Hp].
  unfold owns in *. by rewrite <- Hp.
Qed.

Lemma fill_ok p live h byte :
  client_inv (p, live) → h ∈ live →
  ∃ p', PoolTests.fill h byte p = (Ret tt, p') ∧ client_inv (p', live) ∧ total_blocks p' = total_blocks p.
Proof.
  intros Hinv Hh. pose proof Hinv as [Hwf Hf Ho Hall]. cbn in *. rewrite Forall_forall in Hall.
  pose proof (Hall h Hh) as Hok. pose proof (handle_in_region p Hwf h Hok) as [??].
  pose proof (wf_block_size p Hwf).
  destruct (view_copy_ok p Hwf (bh_offset h) (block_size p) 0 (block_size p)
              (replicate (Z.to_nat (block_size p)) byte)) as [Hv Hwf']; [lia..| |].
  { unfold zlen. rewrite length_replicate. lia. }
  eexists. unfold PoolTests.fill. rewrite (bind_Ret _ _ _ _ _ (get_slice_mut_ok p Hwf h Hok)).
  cbn [snd]. split; [exact Hv|]. split; [|done]. eapply pool_step_inv; [|exact Hinv].
  eapply (step_write _ _ h); [done| |exact Hv]. by apply get_slice_mut_ok.
Qed.

Lemma allocate_client p live :
  client_inv (p, live) →
  ∃ o p', allocate p = (Ret o, p') ∧ total_blocks p' = total_blocks p ∧
    client_inv (p', match o with Some h => h :: live | None => live end).
Proof.
  intros Hinv. pose proof Hinv as [Hwf Hf _ _]. cbn in *.
  destruct (free_list p) as [|i free _] eqn:Hfl using rev_ind.
  - pose proof (allocate_None p Hfl) as Ha. eexists _, _. split; [exact Ha|]. done.
  - destruct (allocate_Some p Hwf i free Hf Hfl) as (Ha & _ & _). eexists _, _. split; [exact Ha|].
    split; [done|]. eapply pool_step_inv; [by apply step_allocate|done].
Qed.

Lemma deallocate_client p h live :
  client_inv (p, h :: live) →
  ∃ p', deallocate h p = (Ret tt, p') ∧ total_blocks p' = total_blocks p ∧ client_inv (p', live).
Proof.
  intros Hinv. pose proof Hinv as [Hwf _ _ Hh]. cbn in *. inversion_clear Hh as [|?? Hok _].
  destruct (deallocate_ok p Hwf h Hok) as [Hd _]. eexists. split; [exact Hd|]. split; [done|].
  eapply (pool_step_inv (p, [] ++ h :: live)); [by eapply (step_deallocate p [])|done].
Qed.

Lemma ops_loop_ok ops p live :
  client_inv (p, live) →
  ∃ live' p', PoolTests.ops_loop ops live p = (Ret live', p') ∧ total_blocks p' = total_blocks p ∧
    client_inv (p', live').
Proof.
  revert p live. induction ops as [|[] ops IH]; intros p live Hinv; cbn [PoolTests.ops_loop]; [by eexists _, _| |].
  - destruct (allocate_client p live Hinv) as ([h|] & p1 & Ha & Ht & Hinv1); rewrite (bind_Ret _ _ _ _ _ Ha).
    + destruct (fill_ok p1 (h :: live) h 205 Hinv1) as (p2 & Hfill & Hinv2 & Ht2); [apply list_elem_of_here|].
      rewrite (bind_Ret _ _ _ _ _ Hfill).
      destruct (IH p2 (vec_push h live)) as (live' & p' & Hr & Ht' & Hinv'); [|eexists _, _; split; [exact Hr|]; split; [lia|done]].
      eapply client_inv_perm; [|exact Hinv2]. apply Permutation_cons_append.
    + destruct (IH p1 live Hinv1) as (live' & p' & Hr & Ht' & Hinv'). eexists _, _. split; [exact Hr|]. split; [lia|done].
  - destruct (vec_pop live) as [[h live1]|] eqn:Hpop; [|by apply IH]. apply vec_pop_Some in Hpop as ->.
    destruct (deallocate_client p h live1) as (p1 & Hd & Ht & Hinv1).
    { eapply client_inv_perm; [|exact Hinv]. symmetry. apply Permutation_cons_append. }
    rewrite (bind_Ret _ _ _ _ _ Hd). destruct (IH p1 live1 Hinv1) as (live' & p' & Hr & Ht' & Hinv').
    eexists _, _. split; [exact Hr|]. split; [lia|done].
Qed.

Lemma cleanup_ok live p :
  client_inv (p, live) → ∃ p', foldr (λ h k, deallocate h;; k) (mret tt) live p = (Ret tt, p').
Proof.
  revert p. induction live as [|h live IH]; intros p Hinv; cbn [foldr]; [by eexists|].
  destruct (deallocate_client p h live Hinv) as (p1 & Hd & _ & Hinv1).
  rewrite (bind_Ret _ _ _ _ _ Hd). by apply IH.
Qed.

(** The property-based test of the pool passes on every sequence of operations: writing to
    what was allocated and freeing in stack order never fails, and the statistics count the
    live handles. *)
Theorem random_sequences_pass (ops : list PoolTests.Op) :
  passes (PoolTests.random_alloc_dealloc_sequences ops) 0 = true.
Proof.
  unfold passes, PoolTests.random_alloc_dealloc_sequences, with_pool.
  destruct (pool_new zero_mmap (128 * 16) 128 0) as [[[p|e]| | |] id] eqn:Hnew; try by vm_compute in Hnew.
  assert (client_inv (p, [])) as Hinv.
  { eapply (pool_new_client zero_mmap (128 * 16) 128 0); [done|done| |done|exact Hnew].
    intros m [= <-]. vm_compute. reflexivity. }
  apply pool_new_Ok in Hnew as Hp. destruct Hp as (_ & _ & _ & _ & base & _ & Hp).
  rewrite (bind_Ret _ _ _ _ _ Hnew), (bind_Ret _ _ _ p id) by done. unfold on_own.
  destruct (ops_loop_ok ops p [] Hinv) as (live & p1 & Hloop & Ht & Hinv1).
  rewrite (bind_Ret _ _ _ _ _ Hloop). pose proof Hinv1 as [Hwf _ Ho _]. cbn in Hwf, Ho.
  rewrite (bind_Ret _ _ _ _ _ (pool_stats_owns p1 Hwf _ Ho)). cbn [ps_used_blocks ps_free_blocks].
  assert (zlen (bh_block_index <$> live) = zlen live) as Hlen by (unfold zlen; by rewrite length_fmap).
  assert (total_blocks p = 16) as H16 by (by rewrite Hp).
  unfold assert_eq, assert. rewrite Hlen, Ht, H16, !bool_decide_true by done.
  rewrite (bind_Ret _ _ p1 tt p1), (bind_Ret _ _ p1 tt p1) by done.
  destruct (cleanup_ok live p1 Hinv1) as [p2 ->]. done.
Qed.

(** [let mut h = [0u8; 16]; h[0] = n; h]. *)
Definition hash (n : Z) : bytes := n :: replicate 15 0.

(** ** block.rs *)
Module BlockTests.
Definition test_header_roundtrip : M bytes unit :=
  let data := as_bytes "hello world KV cache data" in
  let header := header_new Crc32.crc32_ieee data 42 in
  assert_eq (hd_generation header) 42;;
  assert_eq (hd_data_size header) (as_u32 (zlen data));;
  assert (verify Crc32.crc32_ieee header data);;
  assert (negb (verify Crc32.crc32_ieee header (as_bytes "corrupted data"))).

Definition test_header_serialize : M bytes unit :=
  let data := as_bytes "test data" in
  let header := header_new Crc32.crc32_ieee data 7 in
  modify (λ _, replicate (Z.to_nat (HEADER_SIZE + 16)) 0);;
  write_to pad0 header;;
  buf ← gets (λ buf, buf);
  restored ← unwrap (read_from buf);
  assert_eq (hd_crc32 restored) (hd_crc32 header);;
  assert_eq (hd_generation restored) (hd_generation header);;
  assert_eq (hd_data_size restored) (hd_data_size header);;
  assert (verify Crc32.crc32_ieee restored data).

Definition test_header_size : M bytes unit := assert_eq HEADER_SIZE 24.

Definition all : list (M bytes unit) := [test_header_roundtrip; test_header_serialize; test_header_size].
End BlockTests.

(** ** allocator.rs *)
Module AllocatorTests.
(** [BlockAllocator::new(make_pool(num_blocks, block_size), node_id)]. *)
Definition with_allocator (num_blocks block_size node_id : Z) (m : M BlockAllocator unit) : M Z unit :=
  r ← pool_new zero_mmap (num_blocks * block_size) block_size;
  pool ← unwrap_ok r;
  on_own (allocator_new pool node_id) m.
Definition write (data : string) : M BlockAllocator (option (BlockLocation * BlockHandle)) :=
  allocate_and_write Crc32.crc32_ieee pad0 (as_bytes data).

Definition test_allocate_and_read : M Z unit := with_allocator 4 4096 1 (
  r ← write "hello KV cache";
  lh ← unwrap r;
  let '(loc, handle) := lh in
  assert_eq (bl_node_id loc) 1;;
  assert_eq (bl_generation loc) 1;;
  readback ← read_verified Crc32.crc32_ieee handle;
  readback ← unwrap readback;
  assert_eq readback (as_bytes "hello KV cache")).

Definition test_generation_increments : M Z unit := with_allocator 4 4096 0 (
  r1 ← write "a"; lh1 ← unwrap r1;
  r2 ← write "b"; lh2 ← unwrap r2;
  assert_eq (bl_generation lh1.1) 1;;
  assert_eq (bl_generation lh2.1) 2).

Definition test_data_too_large : M Z unit := with_allocator 2 64 0 (
  r ← allocate_and_write Crc32.crc32_ieee pad0 (replicate 64 0);
  assert (is_none r)).

Definition test_deallocate_and_reuse : M Z unit := with_allocator 1 4096 0 (
  r ← write "first"; lh ← unwrap r;
  r ← write "second"; assert (is_none r);;
  al_deallocate lh.2;;
  r ← write "third"; assert (negb (is_none r))).

Definition all : list (M Z unit) :=
  [test_allocate_and_read; test_generation_increments; test_data_too_large; test_deallocate_and_reuse].
End AllocatorTests.

(** ** eviction.rs *)
Module LruTests.
Definition evicts (k : option bytes) : M LruInner unit := v ← evict_lru; assert_eq v k.

Definition test_evict_order : M LruInner unit :=
  touch (hash 1);; touch (hash 2);; touch (hash 3);;
  evicts (Some (hash 1));; evicts (Some (hash 2));; evicts (Some (hash 3));; evicts None.

Definition test_touch_moves_to_front : M LruInner unit :=
  touch (hash 1);; touch (hash 2);; touch (hash 3);;
  touch (hash 1);;
  evicts (Some (hash 2));; evicts (Some (hash 3));; evicts (Some (hash 1)).

Definition test_lru_remove : M LruInner unit :=
  touch (hash 1);; touch (hash 2);; touch (hash 3);;
  lru_remove (hash 2);;
  n ← lru_len; assert_eq n 2%nat;;
  evicts (Some (hash 1));; evicts (Some (hash 3)).

Definition test_empty_evict : M LruInner unit :=
  evicts None;; e ← lru_is_empty; assert e.

Definition all : list (M LruInner unit) :=
  [test_evict_order; test_touch_moves_to_front; test_lru_remove; test_empty_evict].
End LruTests.

(** ** index.rs *)
Module IndexTests.
Definition dummy_location (gen : Z) : BlockLocation := mkBlockLocation 0 0 0 4096 gen.
Definition with_index (capacity : Z) (m : M (BlockIndex LruInner) unit) : M unit unit :=
  on_own (index_new capacity) m.
Definition insert (n gen created_at : Z) : M (BlockIndex LruInner) (list bytes) :=
  index_insert (hash n) [dummy_location gen] created_at.
Definition contains (n : Z) (b : bool) : M (BlockIndex LruInner) unit := c ← index_contains (hash n); assert_eq c b.

Definition test_insert_and_lookup : M unit unit := with_index 100 (
  insert 1 1 1000;;
  e ← index_lookup (hash 1);
  entry ← unwrap e;
  assert_eq (zlen (ie_blocks entry)) 1;;
  b ← unwrap (ie_blocks entry !! 0%nat);
  assert_eq (bl_generation b) 1;;
  assert_eq (ie_created_at entry) 1000).

Definition test_lookup_miss : M unit unit := with_index 100 (
  e ← index_lookup (hash 99); assert (is_none e)).

Definition test_index_remove : M unit unit := with_index 100 (
  insert 1 1 0;;
  contains 1 true;;
  removed ← index_remove (hash 1);
  assert (negb (is_none removed));;
  contains 1 false).

Definition test_eviction_at_capacity : M unit unit := with_index 3 (
  insert 1 1 0;; insert 2 2 0;; insert 3 3 0;;
  evicted ← insert 4 4 0;
  assert_eq (zlen evicted) 1;;
  v ← unwrap (evicted !! 0%nat);
  assert_eq v (hash 1);;
  contains 1 false;;
  contains 4 true).

Definition test_touch_prevents_eviction : M unit unit := with_index 3 (
  insert 1 1 0;; insert 2 2 0;; insert 3 3 0;;
  index_lookup (hash 1);;
  evicted ← insert 4 4 0;
  v ← unwrap (evicted !! 0%nat);
  assert_eq v (hash 2);;
  contains 1 true).

Definition test_update_existing_no_eviction : M unit unit := with_index 2 (
  insert 1 1 0;; insert 2 2 0;;
  evicted ← insert 1 10 100;
  assert_eq evicted [];;
  n ← index_len;
  assert_eq n 2;;
  e ← index_lookup (hash 1);
  entry ← unwrap e;
  b ← unwrap (ie_blocks entry !! 0%nat);
  assert_eq (bl_generation b) 10).

Definition all : list (M unit unit) :=
  [test_insert_and_lookup; test_lookup_miss; test_index_remove; test_eviction_at_capacity;
   test_touch_prevents_eviction; test_update_existing_no_eviction].
End IndexTests.

(** ** remote_index.rs *)
Module RemoteTests.
Definition info (node : string) : RemoteBlockInfo := mkRemoteBlockInfo node (node +:+ ":50051") 0 4096 1.
Definition insert (n : Z) (node : string) : M RemoteIndex unit := modify (remote_insert (hash n) (info node)).
Definition lookup (n : Z) : M RemoteIndex (option (list RemoteBlockInfo)) := gets (remote_lookup (hash n)).

(** One entry, of that node. *)
Definition only (n : Z) (node : string) : M RemoteIndex unit :=
  r ← lookup n;
  entries ← unwrap r;
  assert_eq (zlen entries) 1;;
  e ← unwrap (entries !! 0%nat);
  assert_eq (ri_node_id e) node.

Definition insert_and_lookup : M RemoteIndex unit := insert 1 "node-a";; only 1 "node-a".
Definition lookup_miss : M RemoteIndex unit := r ← lookup 99; assert (is_none r).
Definition remove_node_bulk : M RemoteIndex unit :=
  insert 1 "node-a";; insert 1 "node-b";; insert 2 "node-a";;
  modify (remote_remove_node "node-a");;
  only 1 "node-b";;
  r ← lookup 2; assert (is_none r).

Definition all : list (M RemoteIndex unit) := [insert_and_lookup; lookup_miss; remove_node_bulk].
End RemoteTests.

(** ** placement.rs: the ring tests, for a digest *)
Module PlacementTests.
Section tests.
Context (sha256 : bytes → bytes).
Definition add (node : string) : M HashRing unit := modify (add_node sha256 node).
Definition prefers (h : bytes) (node : option string) : M HashRing unit :=
  r ← gets (preferred_node sha256 Sha256.hex h); assert_eq r node.
Definition counts (n : Z) : M HashRing unit := c ← gets node_count; assert_eq c n.

Definition empty_ring_returns_none : M HashRing unit := prefers (replicate 16 0) None.
Fixpoint prefers_all (keys : list bytes) (node : option string) : M HashRing unit :=
  match keys with [] => mret tt | h :: keys => prefers h node;; prefers_all keys node end.
Definition single_node_always_preferred : M HashRing unit :=
  add "node-a";;
  prefers_all (hash <$> seqZ 0 10) (Some "node-a"%string).
Definition add_and_remove_node : M HashRing unit :=
  add "node-a";; add "node-b";;
  counts 2;;
  modify (remove_node "node-a");;
  counts 1;;
  prefers (replicate 16 1) (Some "node-b"%string).

(** The keys of the larger tests: [i.to_be_bytes()] followed by zeros. *)
Definition key_of (i : Z) : bytes := Sha256.be_encode 2 i ++ replicate 14 0.
(** [preferred_node(&h).unwrap()] for every key. *)
Definition owners : M HashRing (list string) :=
  nodes ← gets (λ ring, mapM (λ h, preferred_node sha256 Sha256.hex h ring) (key_of <$> seqZ 0 1000));
  unwrap nodes.
Definition times (node : string) (l : list string) : Z := zlen (filter (λ n, n = node) l).
Definition distinct (l : list string) : list string := elements (list_to_set l : gset string).

Definition distribution_is_reasonable : M HashRing unit :=
  add "node-a";; add "node-b";; add "node-c";;
  nodes ← owners;
  assert (forallb (λ node, 150 <? times node nodes) (distinct nodes)).
Definition minimal_key_movement_on_add : M HashRing unit :=
  add "node-a";; add "node-b";;
  before ← owners;
  add "node-c";;
  after ← owners;
  let moved := zlen (filter (λ ba, ba.2 ≠ ba.1) (zip before after)) in
  assert (moved <? 500).
Definition preferred_nodes_returns_n_unique : M HashRing unit :=
  add "node-a";; add "node-b";; add "node-c";;
  nodes ← gets (preferred_nodes sha256 Sha256.hex (replicate 16 42) 3);
  assert_eq (zlen nodes) 3;;
  assert_eq (zlen (distinct nodes)) 3.

Definition all : list (M HashRing unit) :=
  [empty_ring_returns_none; single_node_always_preferred; add_and_remove_node; distribution_is_reasonable;
   minimal_key_movement_on_add; preferred_nodes_returns_n_unique].
End tests.
End PlacementTests.

(** ** config.rs *)
Module ConfigTests.
Definition f64_epsilon : f64 := f64_div f64_one (f64_of (2 ^ 52)).
(** [(x - y).abs() < f64::EPSILON]. *)
Definition close (x y : f64) : M unit unit := assert (SFltb (SFabs (SFsub 53 1024 x y)) f64_epsilon).
(** [s.contains(pat)]. *)
Definition contains (pat s : string) : bool := negb (is_none (String.index 0 pat s)).
(** [errors.iter().any(|e| e.contains(..) && ..)]; the value of a threshold is not looked at. *)
Definition any_error (pats : list string) (errors : list ConfigError) : M unit unit :=
  assert (existsb (λ e, forallb (λ pat, contains pat (error_message (λ _, "value"%string) e)) pats) errors).
Definition errors_of (config : AgentConfig) : M unit (list ConfigError) := unwrap_err (validate config).

(** [let mut config = AgentConfig::default_config(); config.memory.x = ..]. *)
Definition with_memory (m : MemorySection) : AgentConfig :=
  let c := default_config in
  mkAgentConfig (cfg_agent c) m (cfg_metadata c) (cfg_transport c) (cfg_metrics c) (cfg_placement c) (cfg_tls c).
Definition with_sizes (total_size block_size : Z) : AgentConfig :=
  let m := default_memory_section in
  with_memory (mkMemorySection total_size block_size None (cfg_pressure_warn m) (cfg_pressure_critical m)
                 (cfg_pressure_reject m)).
Definition with_pressure (warn critical reject : f64) : AgentConfig :=
  with_memory (mkMemorySection default_total_size default_block_size None warn critical reject).
Definition with_listen_addr (addr : string) (c : AgentConfig) : AgentConfig :=
  let a := cfg_agent c in
  mkAgentConfig (mkAgentSection (cfg_node_id a) addr (cfg_log_level a) (cfg_log_format a)
                   (cfg_max_requests_per_second a))
    (cfg_memory c) (cfg_metadata c) (cfg_transport c) (cfg_metrics c) (cfg_placement c) (cfg_tls c).

Definition test_default_config : M unit unit :=
  let config := default_config in
  assert_eq (cfg_listen_addr (cfg_agent config)) "0.0.0.0:50051"%string;;
  assert_eq (cfg_block_size (cfg_memory config)) (256 * 1024);;
  assert_eq (cfg_backend (cfg_transport config)) "mock"%string;;
  assert_eq (cfg_log_format (cfg_agent config)) "text"%string;;
  assert_eq (cfg_lease_ttl_seconds (cfg_metadata config)) 30;;
  assert_eq (cfg_vnodes_per_node (cfg_placement config)) 128;;
  close (cfg_pressure_warn (cfg_memory config)) (f64_lit 75 100).

(** The fields the document of the test gives. *)
Definition toml_sections : ConfigFile :=
  mkConfigFile
    (Some (mkAgentFile (Some "test-node"%string) (Some "127.0.0.1:50051"%string) None (Some "json"%string) None))
    (Some (mkMemoryFile (Some 536870912) (Some 131072) None None None None))
    None None None (Some (Some 64)) None.
Definition test_parse_toml : M unit unit :=
  let config := config_of_file toml_sections in
  assert_eq (cfg_node_id (cfg_agent config)) "test-node"%string;;
  assert_eq (cfg_log_format (cfg_agent config)) "json"%string;;
  assert_eq (cfg_total_size (cfg_memory config)) (512 * 1024 * 1024);;
  assert_eq (cfg_block_size (cfg_memory config)) (128 * 1024);;
  assert_eq (cfg_vnodes_per_node (cfg_placement config)) 64;;
  assert_eq (cfg_backend (cfg_transport config)) "mock"%string.

Definition test_validate_default_config : M unit unit := assert (negb (is_err (validate default_config))).
Definition test_validate_zero_block_size : M unit unit :=
  errors ← errors_of (with_sizes default_total_size 0);
  any_error ["block_size must be > 0"%string] errors.
Definition test_validate_zero_total_size : M unit unit :=
  errors ← errors_of (with_sizes 0 default_block_size);
  any_error ["total_size must be > 0"%string] errors.
Definition test_validate_total_not_divisible_by_block : M unit unit :=
  errors ← errors_of (with_sizes 1000 300);
  any_error ["divisible"%string] errors.
Definition test_validate_pressure_ordering : M unit unit :=
  errors ← errors_of (with_pressure (f64_lit 90 100) (f64_lit 80 100) (f64_lit 95 100));
  any_error ["pressure_warn"; "<"]%string errors.
Definition test_validate_pressure_out_of_range : M unit unit :=
  errors ← errors_of (with_pressure (f64_lit 15 10) default_pressure_critical default_pressure_reject);
  any_error ["pressure_warn"; "between"]%string errors.
Definition test_validate_invalid_listen_addr : M unit unit :=
  errors ← errors_of (with_listen_addr "not-a-socket-addr" default_config);
  any_error ["listen_addr"%string] errors.
Definition test_validate_collects_multiple_errors : M unit unit :=
  errors ← errors_of (with_listen_addr "bad" (with_sizes 0 0));
  assert (3 <=? zlen errors).

Definition test_parse_toml_with_pressure : M unit unit :=
  let config := config_of_file (mkConfigFile None
    (Some (mkMemoryFile None None None (Some (f64_lit 70 100)) (Some (f64_lit 85 100)) (Some (f64_lit 92 100))))
    None None None None None) in
  close (cfg_pressure_warn (cfg_memory config)) (f64_lit 70 100);;
  close (cfg_pressure_critical (cfg_memory config)) (f64_lit 85 100);;
  close (cfg_pressure_reject (cfg_memory config)) (f64_lit 92 100).

Definition all : list (M unit unit) :=
  [test_default_config; test_parse_toml; test_validate_default_config; test_validate_zero_block_size;
   test_validate_zero_total_size; test_validate_total_not_divisible_by_block; test_validate_pressure_ordering;
   test_validate_pressure_out_of_range; test_validate_invalid_listen_addr;
   test_validate_collects_multiple_errors; test_parse_toml_with_pressure].
End ConfigTests.

(** ** pressure.rs: the waits are turns of the monitor *)
Module PressureTests.
Definition pressure_levels_update : M Z unit := AllocatorTests.with_allocator 4 4096 0 (
  let monitor := start_pressure_monitor (f64_lit 50 100) (f64_lit 75 100) (f64_lit 90 100) in
  b1 ← AllocatorTests.write "a"; _ ← unwrap b1;
  b2 ← AllocatorTests.write "b"; _ ← unwrap b2;
  stats ← al_stats;
  let pressure := (monitor [stats] 0).1 in
  assert_eq pressure PRESSURE_WARN;;
  b3 ← AllocatorTests.write "c"; _ ← unwrap b3;
  stats ← al_stats;
  let pressure := (monitor [stats] pressure).1 in
  assert_eq pressure PRESSURE_CRITICAL).
Definition all : list (M Z unit) := [pressure_levels_update].
End PressureTests.

(** ** mock.rs: the local memory holds the buffers of the test *)
Module MockTests.
Definition mock {A} (m : M MockTransport A) : M (MockTransport * bytes) A := zoom fst (λ t st, (t, st.2)) m.

Definition connect_disconnect_lifecycle : M (MockTransport * bytes) unit :=
  r ← mock (mock_connect "node-1" "127.0.0.1:9000"); tt ← unwrap_ok r;
  assert_eq tt Mock;;
  ty ← mock (gets (mock_transport_type false "node-1")); assert_eq ty (Some Mock);;
  r ← mock (mock_disconnect "node-1"); _ ← unwrap_ok r;
  ty ← mock (gets (mock_transport_type false "node-1")); assert_eq ty None;;
  r ← mock (mock_disconnect "node-1"); err ← unwrap_err r;
  assert (match err with PeerNotFound _ => true | _ => false end).

Definition src_data : bytes := [222; 173; 190; 239; 202; 254].
Definition write_then_read_roundtrip : M (MockTransport * bytes) unit :=
  r ← mock (mock_connect "node-2" "127.0.0.1:9001"); _ ← unwrap_ok r;
  r ← mock (mock_register_memory 0 0); lkey ← unwrap_ok r;
  (* src_buf at 0, dst_buf after it *)
  modify (λ st, (st.1, src_data ++ replicate 6 0));;
  let local_write := mkLocalBuffer 0 6 lkey in
  let remote := mkRemoteMemoryRegion "node-2" 4096 6 42 in
  r ← mock_write local_write remote; written ← unwrap_ok r;
  assert_eq written (zlen src_data);;
  let local_read := mkLocalBuffer 6 6 lkey in
  r ← mock_read remote local_read; read ← unwrap_ok r;
  assert_eq read (zlen src_data);;
  mem ← gets snd;
  assert_eq (drop 6 mem) src_data.

Definition read_from_nonexistent_peer_errors : M (MockTransport * bytes) unit :=
  modify (λ st, (st.1, replicate 64 0));;
  let local := mkLocalBuffer 0 64 0 in
  let remote := mkRemoteMemoryRegion "ghost" 0 64 0 in
  r ← mock_read remote local; err ← unwrap_err r;
  assert (match err with PeerNotFound _ => true | _ => false end).

Definition all : list (M (MockTransport * bytes) unit) :=
  [connect_disconnect_lifecycle; write_then_read_roundtrip; read_from_nonexistent_peer_errors].
End MockTests.

(** ** cmx-transport/src/pool.rs *)
Module ConnectionTests.
Abbreviation pool := (ConnectionPool MockTransport).
Definition connect (peer addr : string) : M pool TransportType := r ← get_or_connect 0 peer addr; unwrap_ok r.
Definition peers (n : Z) : M pool unit := ps ← gets connected_peers; assert_eq (zlen ps) n.

Definition get_or_connect_reuses_connection : M pool unit :=
  tt1 ← connect "node-1" "127.0.0.1:9000";
  tt2 ← connect "node-1" "127.0.0.1:9000";
  assert_eq tt1 Mock;;
  assert_eq tt2 Mock;;
  peers 1.
Definition disconnect_removes_from_pool : M pool unit :=
  connect "node-1" "127.0.0.1:9000";;
  peers 1;;
  r ← cpool_disconnect "node-1"; _ ← unwrap_ok r;
  peers 0.
Definition multiple_peers : M pool unit :=
  foldr (λ i k, connect ("node-" +:+ pretty i) ("127.0.0.1:900" +:+ pretty i);; k) (mret tt) (seqZ 0 3);;
  peers 3.
Definition all : list (M pool unit) :=
  [get_or_connect_reuses_connection; disconnect_removes_from_pool; multiple_peers].
End ConnectionTests.

(** ** numa.rs and gpu.rs, without their features *)
Module StubTests.
Definition stub_returns_zero : M unit unit :=
  assert_eq (numa_node_of_cpu_stub 0) 0;; assert_eq preferred_numa_node_stub 0.
Definition stub_bind_succeeds : M unit unit := assert (negb (is_err (numa_bind_memory_stub 0 0 0))).
Definition stub_register_succeeds : M unit unit := assert (negb (is_err (register_gpu_memory_stub 0 0 0))).
Definition all : list (M unit unit) := [stub_returns_zero; stub_bind_succeeds; stub_register_succeeds].
End StubTests.

(** ** Properties *)

Lemma all_pass {S} (tests : list (M S unit)) (s : S) :
  forallb (λ t, passes t s) tests = true → Forall (λ t, passes t s = true) tests.
Proof. intros Hall. apply Forall_forall. intros t Ht%list_elem_of_In. revert t Ht. by apply forallb_forall. Qed.

(** Programs with the same results. *)
Definition same {S A} (m m' : M S A) : Prop := ∀ s, m s = m' s.
Lemma same_refl {S A} (m : M S A) : same m m.
Proof. done. Qed.
Lemma same_bind {S A B} (m m' : M S A) (k k' : A → M S B) :
  same m m' → (∀ a, same (k a) (k' a)) → same (m ≫= k) (m' ≫= k').
Proof. intros Hm Hk s. munfold. rewrite Hm. destruct (m' s) as [[] ?]; [apply Hk|done..]. Qed.
Lemma same_modify {S} (f g : S → S) : (∀ s, f s = g s) → same (modify f) (modify g).
Proof. intros Hf s. unfold modify. by rewrite Hf. Qed.
Lemma same_gets {S A} (f g : S → A) : (∀ s, f s = g s) → same (gets f) (gets g).
Proof. intros Hf s. unfold gets. by rewrite Hf. Qed.
Lemma same_passes {S} (ms ms' : list (M S unit)) s :
  Forall2 same ms ms' → Forall (λ t, passes t s = true) ms' → Forall (λ t, passes t s = true) ms.
Proof.
  induction 1 as [|m m' ms ms' Hm _ IH]; intros Hall; constructor; apply Forall_cons in Hall as [Hp Hall].
  - unfold passes in *. by rewrite Hm.
  - by apply IH.
Qed.

(** The ring tests use a digest only through its values, so a table of the digests the
    tests ask for, computed once, may stand for the digest. *)
Section digests.
Context (f g : bytes → bytes) (Hfg : ∀ m, f m = g m).

Lemma hash_position_ext key : hash_position f key = hash_position g key.
Proof using Hfg. unfold hash_position. by rewrite Hfg. Qed.
Lemma add_node_ext node r : add_node f node r = add_node g node r.
Proof using Hfg.
  unfold add_node, vnode_positions. case_decide; [done|]. f_equal. f_equal.
  apply list_fmap_ext. intros. apply hash_position_ext.
Qed.
Lemma preferred_node_ext hex h r : preferred_node f hex h r = preferred_node g hex h r.
Proof using Hfg. unfold preferred_node. by rewrite hash_position_ext. Qed.
Lemma preferred_nodes_ext hex h n r : preferred_nodes f hex h n r = preferred_nodes g hex h n r.
Proof using Hfg. unfold preferred_nodes. by rewrite hash_position_ext. Qed.
Lemma preferred_all_ext hex hs r :
  mapM (λ h, preferred_node f hex h r) hs = mapM (λ h, preferred_node g hex h r) hs.
Proof using Hfg.
  induction hs as [|h hs IH]; [done|]. cbn. rewrite preferred_node_ext.
  destruct (preferred_node g hex h r); [|done]. cbn. by rewrite IH.
Qed.

Lemma add_ext node : same (PlacementTests.add f node) (PlacementTests.add g node).
Proof using Hfg. apply same_modify. intros r. apply add_node_ext. Qed.
Lemma prefers_ext h o : same (PlacementTests.prefers f h o) (PlacementTests.prefers g h o).
Proof using Hfg. apply same_bind; [|intros; apply same_refl]. apply same_gets. intros r. apply preferred_node_ext. Qed.
Lemma prefers_all_ext hs o : same (PlacementTests.prefers_all f hs o) (PlacementTests.prefers_all g hs o).
Proof using Hfg. induction hs as [|h hs IH]; [apply same_refl|]. apply same_bind; [apply prefers_ext|done]. Qed.
Lemma owners_ext : same (PlacementTests.owners f) (PlacementTests.owners g).
Proof using Hfg. apply same_bind; [|intros; apply same_refl]. apply same_gets. intros r. apply preferred_all_ext. Qed.
Lemma preferred_three_ext :
  same (gets (preferred_nodes f Sha256.hex (replicate 16 42) 3)) (gets (preferred_nodes g Sha256.hex (replicate 16 42) 3)).
Proof using Hfg. apply same_gets. intros r. apply preferred_nodes_ext. Qed.

Lemma ring_tests_ext : Forall2 same (PlacementTests.all f) (PlacementTests.all g).
Proof using Hfg.
  repeat apply Forall2_cons_2; [..|constructor]; try apply prefers_ext;
    repeat (apply same_bind; [first [apply add_ext | apply owners_ext | apply prefers_ext | apply preferred_three_ext | apply same_refl]|intros]);
    first [apply prefers_all_ext | apply prefers_ext | apply same_refl].
Qed.
End digests.

(** SHA-256 with a table for some messages. *)
Definition tabulated (table : gmap bytes bytes) (m : bytes) : bytes :=
  match table !! m with Some d => d | None => Sha256.sha256 m end.
Definition digest_table (ms : list bytes) : gmap bytes bytes := list_to_map ((λ m, (m, Sha256.sha256 m)) <$> ms).
Lemma tabulated_ok ms m : Sha256.sha256 m = tabulated (digest_table ms) m.
Proof.
  unfold tabulated. destruct (digest_table ms !! m) as [d|] eqn:Hm; [|done].
  apply elem_of_list_to_map_2, list_elem_of_fmap in Hm as (m' & [= -> ->] & _). done.
Qed.

(** The messages of the ring tests. *)
Definition ring_messages : list bytes :=
  ((λ i, as_bytes (Sha256.hex (PlacementTests.key_of i))) <$> seqZ 0 1000) ++
  (node ← ["node-a"; "node-b"; "node-c"]%string; (λ i, as_bytes (vnode_key node i)) <$> seqZ 0 128).
Definition ring_table : gmap bytes bytes := digest_table ring_messages.

Lemma ring_tests_pass : Forall (λ t, passes t (ring_new 128) = true) (PlacementTests.all Sha256.sha256).
Proof.
  apply (same_passes _ _ _ (ring_tests_ext _ _ (tabulated_ok ring_messages))).
  apply all_pass. vm_compute. reflexivity.
Qed.

(** The unit tests of the crates pass on the model: pool, block header, allocator, LRU
    policy, index, remote index, hash ring, configuration, pressure monitor, mock transport,
    connection pool and the stubs. *)
Theorem unit_tests_pass :
  Forall (λ t, passes t 0 = true) (PoolTests.all ++ AllocatorTests.all ++ PressureTests.all) ∧
  Forall (λ t, passes t [] = true) BlockTests.all ∧
  Forall (λ t, passes t lru_new = true) LruTests.all ∧
  Forall (λ t, passes t tt = true) (IndexTests.all ++ ConfigTests.all ++ StubTests.all) ∧
  Forall (λ t, passes t remote_new = true) RemoteTests.all ∧
  Forall (λ t, passes t (ring_new 128) = true) (PlacementTests.all Sha256.sha256) ∧
  Forall (λ t, passes t (mock_new, []) = true) MockTests.all ∧
  Forall (λ t, passes t (cpool_new mock_new) = true) ConnectionTests.all.
Proof.
  repeat match goal with |- _ ∧ _ => split end; try apply ring_tests_pass; apply all_pass; vm_compute; reflexivity.
Qed.
